(* ===== verification/_CoqProject ===== *)
-Q . S2P
Prelude.v
Net.v
Config.v
Stats.v
Connections.v
Node.v
Tasks.v
Scenario.v
Admission.v
Ownership.v
Lifecycle.v
Links.v
Progress.v
Safety.v
Refinement.v
Shutdown.v
Hooks.v
Setup.v
Quiescence.v
Completion.v
Dial.v
Cancel.v
Results.v
Recovery.v
History.v
Races.v
Handlers.v
Reading.v
Writing.v
Topology.v
Text.v
Yamux.v
Framing.v
Codecs.v
Delivery.v
Crusaders.v
Rpc.v
Noise.v
Handshake.v
Libp2p.v
HandOver.v
Kademlia.v
Exchange.v
Lookup.v
HolePunch.v
Dining.v
HotPotato.v
Discovery.v
Telephone.v
RateLimit.v
Benchmarks.v
