(* ===== verification/Prelude.v ===== *)
(** * A verification of the [pea2pea] peer-to-peer node

    [pea2pea] (the crate under [src/pea2pea]) is a library for building peer-to-peer nodes.  A [Node]
    dials peers and accepts connections; five user-extendable protocols (Handshake, Reading, Writing,
    OnConnect, OnDisconnect) take part in the life of every connection; [shut_down] ends it all.  The
    difficulty is concurrency: every connection is set up, used and torn down by several tasks at once,
    any of which may be aborted, time out, or be dropped at an await, and the bookkeeping (limits,
    per-IP counts, permits, claims, the active map) has to stay exact throughout.  The examples (under
    [src/examples]) add wire formats, an encrypted channel and a DHT on top.

    ** The parts, and where they are modelled

    The components as functions on their state, one per lock-held section or operation:
    - [Prelude]: errors, machine integers, counting lemmas, the hint databases and tactics.
    - [Net]: addresses, and [canonical_ip] ([connections.rs]), the key of the per-IP accounting.
    - [Config] ([config.rs], the validation in [Node::new]); [Stats] ([stats.rs], [heuristics.rs]).
    - [Connections] ([connections.rs]): [Connection], [ConnectionLimits], [Connections], reservations and
      their guard, adding, claiming and removing.
    - [Node] ([node.rs]): the node's state and its synchronous operations ([check_and_reserve],
      [claim_disconnect], the two halves of [DisconnectFinalizer], [register_task], [toggle_listener],
      the shutdown state).

    The tasks as a transition system:
    - [Tasks] ([node.rs], [protocols/*.rs]): [connect_inner], the accept loop, [adapt_stream] with the
      three setup protocols, the scheduling task, [disconnect_w_origin], [shut_down], the loops of the
      reader, processing and writer tasks (one turn per step) and the hook tasks, the drop of what a
      future owns, cancellation, the abort of handlers, the closing of a writer's channel with its only
      sender, and the user's calls.  A state is
      the node, a list of threads with program counters, and a log of events; [step] interleaves them
      arbitrarily, [reachable] is what can be reached from [Node::new].
    - [Scenario]: a concrete run, used by the witnesses.
    - [Admission]: the synchronous decisions (who is admitted, who is refused and how).
    - [Ownership], [Lifecycle]: who owns which reservation, permit, claim, scheduling guard and IP
      charge, as the inductive invariant of all reachable states.
    - [Safety]: limits, exact accounting, exclusiveness, conservation, no leaks, no failed assertion.
    - [Refinement]: an abstract connection registry, and that every step of the system implements it.
    - [Links], [Progress]: tasks and the handles they hold of one another; a claimed disconnect can
      always be carried through.
    - [Setup], [Dial], [Cancel]: every connection attempt can run to its end, an admitted one can
      succeed, and one that is dropped is rolled back.
    - [Recovery]: a connection does not outlive the tasks that serve it.
    - [Quiescence]: apart from the turns in which a connection's tasks serve messages, left to itself
      the node comes to rest under every schedule.
    - [Results]: what the operations return, against what has happened to the active set.
    - [Shutdown], [Completion]: a shutdown is permanent, loses no wake-up, drains the node, and can always
      run to its end.
    - [Hooks]: no hook is lost as long as no [shut_down] is dropped while it waits, and one can be if it is.
    - [History]: the life of a connection as a pattern of events, with ids that are never reused.
    - [Races]: three interleavings worth knowing (a stale Writing setup takes its successor down; the
      scheduling count can rise after the drain; a writer task that ends before its connection is active
      goes unnoticed).

    The protocols on their own:
    - [Handlers] ([protocols/mod.rs], [on_connect.rs], [on_disconnect.rs], [handshake.rs]): the handler
      loops over their bounded channels, and the stream operations of a handshake.
    - [Reading] ([reading.rs]): the counting codec over an arbitrary user decoder; the reader and the
      processing task with their queue.
    - [Writing] ([writing.rs]): queueing, broadcast, batches, delivery confirmations and the writer loop
      over an abstract [FramedWrite] sink with stated laws.
    - [Topology] ([topology.rs]): the dials of every topology.

    The examples:
    - [Text], [Framing]: what they use of the standard library (big-endian bytes, UTF-8, splitting), and
      of [tokio_util] (length-delimited frames as a class with laws and an instance, the reader loop).
    - [Codecs] ([examples/src/lib.rs]): the codecs most examples share, over any payload format.
    - [Delivery]: the writer task, the wire, the counting decoder and the reader composed, over the
      interface [FrameCodec] that these codecs implement.
    - [Yamux] ([examples/src/yamux.rs]), [Noise] and [Handshake] ([examples/src/noise.rs]): the frame
      codec, the encrypted codec over the framing and a noise implementation (class [Snow] with its laws
      and an instance), and the XX handshake.
    - [Libp2p], [HandOver] ([examples/examples/libp2p.rs]): the composition of the two codecs, the
      streams, and the noise state its handshake leaves to the codecs of the connection.
    - [Kademlia], [Lookup], [Exchange] ([examples/examples/kademlia_dht.rs]): the DHT node as a transition
      system of its own (lookups, RPCs, hooks, messages), and its handshake.
    - [Rpc] ([examples/examples/simple_rpc.rs]), [Dining] ([dining_philosophers.rs]), [HolePunch]
      ([hole_punching.rs]): correlated requests, the forks of the philosophers in any interleaving, and
      the pairing of peers by the rendezvous server.
    - [HotPotato] ([hot_potato_game.rs]), [Discovery] ([lan_discovery.rs]), [Crusaders]
      ([fixed_length_crusaders.rs]), [Telephone] ([telephone_game.rs]): the game as one transition system,
      the beacons, a codec that is not length-delimited, and a message on its way along a line.
    - [RateLimit] ([rate_limiting.rs]), [Benchmarks] ([c10k.rs], [c100k.rs], [dense_mesh.rs]): the spam
      check in binary64 arithmetic; the tally of the benchmarks, their limits and what they wait for.

    ** What the theorems show

    Invariants of every reachable state ([Safety], [History]); refinement of the abstract registry;
    termination and progress ([Progress], [Setup], [Dial], [Recovery], [Quiescence], [Completion], [Handlers], [Topology], [Lookup]: what can get
    stuck does not); what is delivered, in which order and with which errors ([Reading], [Writing],
    [Delivery], [Handlers]); round trips and bounds of the wire formats ([Yamux], [Codecs], [Noise], [Libp2p], [Exchange],
    [Rpc]); the agreement of two parties ([Handshake]); the error of every refusal
    ([Admission], [Writing]).  A theorem with hypotheses is followed by a lemma
    of the same name with the suffix [_witness] that applies it to a concrete state.

    ** Bounds and fuel

    Counters that can wrap are kept at 64 bits; theorems that need unused ids say so (at most [2^64] ids
    drawn in [History], RPCs made in [Lookup], dial attempts in [Topology]).  Fuel occurs where the source
    loops: [Topology.pick_targets] runs on the source's own attempt counter; [Writing.writer_loop] needs
    one round per queued message and its end; [Framing.drain] one step per message decoded after a read,
    [Noise.chunks], [Libp2p.encode_chunks] and [Text.utf8_bytes] one per byte.  Each comes with a theorem that this is
    enough; a lookup has none, [Lookup.lookup_terminates] bounds its steps instead, as
    [Quiescence.activity_terminates] bounds those of the node's tasks other than the
    turns of their message loops, which have no bound.

    ** Not modelled

    Tracing spans and log output; sockets, timers and the tokio runtime (a stream is a handle, a timeout
    or an error of the operating system is a nondeterministic choice); user code (hooks, codecs, message
    handlers are nondeterministic or abstract); the multistream negotiation of the libp2p example and its
    identity payload, the demonstration mains, and the remaining example programs, tests and benchmarks.  In [Tasks] the awaits of
    [Notify] are generation counters, and the three-second grace period of [shut_down] is a choice. *)

From stdpp Require Export prelude gmap list strings pretty.
From Stdlib Require Export ZArith NArith Lia.

(** ** Scopes and notations *)

Declare Scope pea_scope.
Delimit Scope pea_scope with pea.
Open Scope pea_scope.

(** ** Automation

    [pea] collects the lemmas that carry an invariant through the operations of the sources (each
    file adds its own), [pea_count] the equations that push a count or a length through appends. *)

Create HintDb pea.
Create Rewrite HintDb pea_count.
#[export] Hint Rewrite @length_app @sum_list_with_app @Forall_app : pea_count.

(** ** Errors: the part of [std::io] the crate uses *)

(** [std::io::ErrorKind], restricted to the kinds the sources name. *)
Inductive ErrorKind :=
| AddrInUse
| AddrNotAvailable
| AlreadyExists
| BrokenPipe
| ConnectionAborted
| ConnectionReset
| InvalidData
| InvalidInput
| NotConnected
| QuotaExceeded
| TimedOut
| Unsupported
| OtherKind.

(** What an [io::Error] carries besides its kind: nothing ([ErrorKind::into]), a message, or the
    [ShuttingDown] marker type. *)
Inductive Payload :=
| NoPayload
| Message (msg : string)
| ShuttingDown.

Record IoError := mkIoError { kind : ErrorKind; get_ref : Payload }.

(** [io::Result]. *)
Inductive IoResult (A : Type) :=
| Ok (a : A)
| Err (e : IoError).
Arguments Ok {A} a.
Arguments Err {A} e.

Definition io_bind {A B} (r : IoResult A) (f : A → IoResult B) : IoResult B :=
  match r with Ok a => f a | Err e => Err e end.

Definition io_map {A B} (f : A → B) (r : IoResult A) : IoResult B :=
  match r with Ok a => Ok (f a) | Err e => Err e end.

Notation "'let?' x ':=' r 'in' k" := (io_bind r (λ x, k))
  (at level 10, x name, r at level 100, k at level 200) : pea_scope.

#[global] Instance ErrorKind_eq_dec : EqDecision ErrorKind.
Proof. solve_decision. Defined.
#[global] Instance Payload_eq_dec : EqDecision Payload.
Proof. solve_decision. Defined.
#[global] Instance IoError_eq_dec : EqDecision IoError.
Proof. solve_decision. Defined.

(** [Display] of an [io::Error]: its message, or the description of its kind. *)
Definition kind_description (k : ErrorKind) : string :=
  match k with
  | AddrInUse => "address in use"
  | AddrNotAvailable => "address not available"
  | AlreadyExists => "entity already exists"
  | BrokenPipe => "broken pipe"
  | ConnectionAborted => "connection aborted"
  | ConnectionReset => "connection reset"
  | InvalidData => "invalid data"
  | InvalidInput => "invalid input parameter"
  | NotConnected => "not connected"
  | QuotaExceeded => "quota exceeded"
  | TimedOut => "timed out"
  | Unsupported => "unsupported"
  | OtherKind => "other error"
  end.

Definition to_string (e : IoError) : string :=
  match get_ref e with
  | NoPayload => kind_description (kind e)
  | Message msg => msg
  | ShuttingDown => "shutting down"
  end.

Definition is_ok {A} (r : IoResult A) : bool := match r with Ok _ => true | Err _ => false end.

(** The error kind of a failed result. *)
Definition err_kind {A} (r : IoResult A) : option ErrorKind :=
  match r with Ok _ => None | Err e => Some (kind e) end.

(** ** Machine integers *)

(** [u64] arithmetic: [fetch_add], [wrapping_add] and [wrapping_mul] reduce modulo [2^64]. *)
Definition u64_max : N := 2 ^ 64.
Definition wrapping_add (a b : N) : N := (a + b) mod u64_max.
Definition wrapping_mul (a b : N) : N := (a * b) mod u64_max.

(** [saturating_sub] on unsigned integers is truncated subtraction. *)
Definition saturating_sub (a b : N) : N := (a - b)%N.

Definition b2n (b : bool) : nat := if b then 1 else 0.

(** ** Counting list elements and map entries that satisfy a boolean predicate *)

Fixpoint countb {A} (p : A → bool) (l : list A) : nat :=
  match l with
  | [] => 0
  | x :: l => b2n (p x) + countb p l
  end.

Definition map_countb {K V} `{Countable K} (p : K → V → bool) (m : gmap K V) : nat :=
  size (filter (λ kv : K * V, p kv.1 kv.2 = true) m).

(** ** Generic lemmas *)

Lemma countb_app {A} (p : A → bool) (l1 l2 : list A) :
  countb p (l1 ++ l2) = countb p l1 + countb p l2.
Proof. induction l1 as [|x l1 IH]; simpl; lia. Qed.
#[export] Hint Rewrite @countb_app : pea_count.

(** Arithmetic over counts and lengths of appended lists. *)
Ltac count := autorewrite with pea_count in *; simpl in *; lia.

(** Replacing one list element changes the count by the difference of the two contributions. *)
Lemma countb_insert {A} (p : A → bool) (l : list A) (i : nat) (x y : A) :
  l !! i = Some x → countb p (<[i := y]> l) + b2n (p x) = countb p l + b2n (p y).
Proof.
  revert i. induction l as [|z l IH]; intros [|i] Hi; simplify_eq/=; [lia|].
  specialize (IH i Hi). lia.
Qed.

Lemma countb_pos {A} (p : A → bool) (l : list A) (i : nat) (x : A) :
  l !! i = Some x → p x = true → 0 < countb p l.
Proof.
  revert i. induction l as [|z l IH]; intros [|i] Hi Hp; simplify_eq/=; [rewrite Hp; simpl; lia|].
  specialize (IH i Hi Hp). lia.
Qed.

Lemma countb_zero {A} (p : A → bool) (l : list A) :
  countb p l = 0 ↔ ∀ i x, l !! i = Some x → p x = false.
Proof.
  split.
  - intros H i x Hi. destruct (p x) eqn:E; [|done]. pose proof (countb_pos p l i x Hi E). lia.
  - induction l as [|z l IH]; intros H; simpl; [done|].
    rewrite (H 0 z) by done. apply IH. intros i x Hi. exact (H (S i) x Hi).
Qed.

Lemma countb_elem {A} (p : A → bool) (l : list A) : countb p l ≠ 0 → ∃ x, x ∈ l ∧ p x = true.
Proof.
  induction l as [|z l IH]; simpl; [done|]. destruct (p z) eqn:E; [intros _; exists z; by split; [left|]|].
  intros (x&?&?)%IH. exists x. by split; [right|].
Qed.

Lemma countb_bind {A B} (p : B → bool) (f : A → list B) (l : list A) :
  countb p (l ≫= f) = sum_list_with (λ x, countb p (f x)) l.
Proof. induction l as [|x l IH]; csimpl; [done|]. by rewrite countb_app, IH. Qed.

(** A count of at most one makes the satisfying position unique. *)
Lemma countb_unique {A} (p : A → bool) (l : list A) (i j : nat) (x y : A) :
  countb p l ≤ 1 → l !! i = Some x → p x = true → l !! j = Some y → p y = true → i = j.
Proof.
  revert i j. induction l as [|z l IH]; intros [|i] [|j] Hc Hi Hx Hj Hy; simplify_eq/=; try done.
  - rewrite Hx in Hc. pose proof (countb_pos p l j y Hj Hy). simpl in Hc. lia.
  - rewrite Hy in Hc. pose proof (countb_pos p l i x Hi Hx). simpl in Hc. lia.
  - f_equal. apply IH; auto. lia.
Qed.

Lemma countb_le {A} (p q : A → bool) (l : list A) :
  (∀ x, p x = true → q x = true) → countb p l ≤ countb q l.
Proof.
  intros Hpq. induction l as [|z l IH]; simpl; [done|].
  specialize (Hpq z). destruct (p z), (q z); simpl; (lia || by specialize (Hpq eq_refl)).
Qed.

Lemma countb_le_length {A} (p : A → bool) (l : list A) : countb p l ≤ length l.
Proof. induction l as [|z l IH]; simpl; [done|]. destruct (p z); simpl; lia. Qed.

Lemma countb_ext {A} (p q : A → bool) (l : list A) :
  (∀ x, p x = q x) → countb p l = countb q l.
Proof. intros Hpq. induction l as [|z l IH]; simpl; [done|]. by rewrite Hpq, IH. Qed.

Lemma countb_sum {A} (p q r : A → bool) (l : list A) :
  (∀ x, b2n (p x) = b2n (q x) + b2n (r x)) → countb p l = countb q l + countb r l.
Proof. intros Hpq. induction l as [|z l IH]; simpl; [done|]. rewrite Hpq, IH. lia. Qed.

(** Replacing one element changes a sum by the difference of the two contributions. *)
Lemma sum_list_with_insert {A} (f : A → nat) (l : list A) (i : nat) (x y : A) :
  l !! i = Some x → sum_list_with f (<[i := y]> l) + f x = sum_list_with f l + f y.
Proof.
  revert i. induction l as [|z l IH]; intros [|i] Hi; simplify_eq/=; [lia|].
  specialize (IH i Hi). lia.
Qed.

Lemma sum_list_with_lookup {A} (f : A → nat) (l : list A) (i : nat) (x : A) :
  l !! i = Some x → f x ≤ sum_list_with f l.
Proof.
  revert i. induction l as [|z l IH]; intros [|i] Hi; simplify_eq/=; [lia|].
  specialize (IH i Hi). lia.
Qed.

Lemma sum_list_with_zero {A} (f : A → nat) (l : list A) :
  (∀ i x, l !! i = Some x → f x = 0) → sum_list_with f l = 0.
Proof.
  induction l as [|z l IH]; intros H; simpl; [done|].
  rewrite (H 0 z eq_refl), IH; [done|]. intros i x Hi. exact (H (S i) x Hi).
Qed.

Lemma sum_list_with_pos {A} (f : A → nat) (l : list A) (m : nat) :
  sum_list_with f l = m → m ≠ 0 → ∃ i x, l !! i = Some x ∧ f x ≠ 0.
Proof.
  intros <-. induction l as [|z l IH]; simpl; [done|]. intros H.
  destruct (decide (f z = 0)) as [E|E]; [|by exists 0, z].
  destruct IH as (i&x&Hi&Hx); [lia|]. by exists (S i), x.
Qed.

(** Two positions that both contribute make the sum at least the sum of both. *)
Lemma sum_list_with_lookup2 {A} (f : A → nat) (l : list A) (i j : nat) (x y : A) :
  i ≠ j → l !! i = Some x → l !! j = Some y → f x + f y ≤ sum_list_with f l.
Proof.
  revert i j. induction l as [|z l IH]; intros [|i] [|j] Hij Hi Hj; simplify_eq/=.
  - pose proof (sum_list_with_lookup f l j y Hj). lia.
  - pose proof (sum_list_with_lookup f l i x Hi). lia.
  - specialize (IH i j ltac:(lia) Hi Hj). lia.
Qed.

Lemma sum_list_with_le {A} (f g : A → nat) (l : list A) :
  (∀ x, f x ≤ g x) → sum_list_with f l ≤ sum_list_with g l.
Proof. intros H. induction l as [|z l IH]; simpl; [done|]. specialize (H z). lia. Qed.

Lemma sum_list_with_le_elem {A} (f g : A → nat) (l : list A) :
  (∀ i x, l !! i = Some x → f x ≤ g x) → sum_list_with f l ≤ sum_list_with g l.
Proof.
  induction l as [|z l IH]; intros H; simpl; [done|].
  pose proof (H 0 z eq_refl). specialize (IH (λ i x Hi, H (S i) x Hi)). lia.
Qed.

Lemma sum_list_with_lt_elem {A} (f g : A → nat) (l : list A) (i : nat) (x : A) :
  (∀ i x, l !! i = Some x → f x ≤ g x) → l !! i = Some x → f x < g x →
  sum_list_with f l < sum_list_with g l.
Proof.
  revert i. induction l as [|z l IH]; intros [|i] H Hi Hx; simplify_eq/=.
  - pose proof (sum_list_with_le_elem f g l (λ i x Hi, H (S i) x Hi)). lia.
  - pose proof (H 0 z eq_refl). specialize (IH i (λ i x Hi, H (S i) x Hi) Hi Hx). lia.
Qed.

Lemma sum_list_with_ext {A} (f g : A → nat) (l : list A) :
  (∀ x, f x = g x) → sum_list_with f l = sum_list_with g l.
Proof. intros H. induction l as [|z l IH]; simpl; [done|]. by rewrite H, IH. Qed.

Lemma sum_list_with_add {A} (f g : A → nat) (l : list A) :
  sum_list_with (λ x, f x + g x) l = sum_list_with f l + sum_list_with g l.
Proof. induction l as [|z l IH]; simpl; lia. Qed.

Section set_count.
Context {A : Type} `{Countable A}.
Implicit Types (X : gset A).

Lemma b2n_union a x X :
  a ∉ X →
  b2n (bool_decide (x ∈ {[a]} ∪ X)) = b2n (bool_decide (a = x)) + b2n (bool_decide (x ∈ X)).
Proof.
  intros Ha. destruct (decide (a = x)) as [->|Hne].
  - rewrite bool_decide_eq_true_2 by set_solver. rewrite (bool_decide_eq_true_2 (x = x)) by done.
    by rewrite bool_decide_eq_false_2.
  - rewrite (bool_decide_eq_false_2 (a = x)) by done. simpl. f_equal. apply bool_decide_ext. set_solver.
Qed.

Lemma b2n_difference a x X :
  a ∈ X →
  b2n (bool_decide (x ∈ X ∖ {[a]})) + b2n (bool_decide (a = x)) = b2n (bool_decide (x ∈ X)).
Proof.
  intros Ha. destruct (decide (a = x)) as [->|Hne].
  - rewrite bool_decide_eq_false_2 by set_solver. rewrite (bool_decide_eq_true_2 (x = x)) by done.
    by rewrite bool_decide_eq_true_2.
  - rewrite (bool_decide_eq_false_2 (a = x)) by done. rewrite Nat.add_0_r. f_equal.
    apply bool_decide_ext. set_solver.
Qed.

Lemma size_union_fresh a X : a ∉ X → size ({[a]} ∪ X) = S (size X).
Proof. intros Ha. rewrite size_union by set_solver. by rewrite size_singleton. Qed.

Lemma size_difference_elem a X : a ∈ X → S (size (X ∖ {[a]})) = size X.
Proof.
  intros Ha. rewrite <-size_union_fresh with (a := a) by set_solver. f_equal.
  apply set_eq. intros x. destruct (decide (x = a)); set_solver.
Qed.
End set_count.

Section map_count.
Context {K V : Type} `{Countable K}.
Implicit Types (p : K → V → bool) (m : gmap K V).

Lemma map_countb_empty p : map_countb p (∅ : gmap K V) = 0.
Proof. unfold map_countb. by rewrite map_filter_empty, map_size_empty. Qed.

Lemma map_countb_insert_None p m k v :
  m !! k = None → map_countb p (<[k := v]> m) = map_countb p m + b2n (p k v).
Proof.
  intros Hk. unfold map_countb. destruct (p k v) eqn:E; simpl.
  - rewrite map_filter_insert_True by done. rewrite map_size_insert_None; [lia|].
    apply map_lookup_filter_None. by left.
  - rewrite map_filter_insert_False by (simpl; congruence).
    rewrite delete_id by done. lia.
Qed.

Lemma map_countb_delete p m k v :
  m !! k = Some v → map_countb p (delete k m) + b2n (p k v) = map_countb p m.
Proof.
  intros Hk. rewrite <-(insert_delete_id m k v Hk) at 2.
  rewrite map_countb_insert_None; [done|]. apply lookup_delete_eq.
Qed.

Lemma map_countb_update p m k v w :
  m !! k = Some v → map_countb p (<[k := w]> m) + b2n (p k v) = map_countb p m + b2n (p k w).
Proof.
  intros Hk. rewrite <-(insert_delete_eq m k w).
  rewrite map_countb_insert_None by apply lookup_delete_eq.
  pose proof (map_countb_delete p m k v Hk). lia.
Qed.

Lemma map_countb_pos p m k v : m !! k = Some v → p k v = true → 0 < map_countb p m.
Proof. intros Hk Hp. pose proof (map_countb_delete p m k v Hk) as E. rewrite Hp in E. simpl in E. lia. Qed.

Lemma map_countb_le_size p m : map_countb p m ≤ size m.
Proof.
  unfold map_countb. induction m as [|k v m Hk IH] using map_ind.
  - by rewrite map_filter_empty.
  - fold (map_countb p (<[k:=v]> m)). rewrite map_countb_insert_None by done.
    rewrite map_size_insert_None by done. unfold map_countb. destruct (p k v); simpl; lia.
Qed.
End map_count.
