(* ===== verification/Net.v ===== *)
(** * Network addresses

    The part of [std::net] the crate relies on ([IpAddr], [SocketAddr], [to_canonical],
    [is_unspecified], [is_loopback]) and the crate's own [canonical_ip]
    ([pea2pea/src/connections.rs]), the key of the per-IP accounting.  Addresses are kept as the
    integers of their big-endian octets: 32 bits for IPv4, 128 bits for IPv6. *)

From S2P Require Import Prelude.
From Stdlib Require Ascii String.

Open Scope N_scope.

Inductive IpAddr :=
| V4 (bits : N)
| V6 (bits : N).

(** [std::net::SocketAddr]; equality is structural, so two IPv6 addresses that differ only in
    their flow info or scope id are different addresses, as in the derived [PartialEq]. *)
Inductive SocketAddr :=
| SockV4 (bits : N) (port : N)
| SockV6 (bits : N) (port : N) (flowinfo : N) (scope_id : N).

#[global] Instance IpAddr_eq_dec : EqDecision IpAddr.
Proof. solve_decision. Defined.
#[global] Instance SocketAddr_eq_dec : EqDecision SocketAddr.
Proof. solve_decision. Defined.

#[global] Program Instance IpAddr_countable : Countable IpAddr :=
  inj_countable
    (λ ip, match ip with V4 a => inl a | V6 a => inr a end)
    (λ x, Some match x with inl a => V4 a | inr a => V6 a end) _.
Next Obligation. by intros []. Qed.

#[global] Program Instance SocketAddr_countable : Countable SocketAddr :=
  inj_countable
    (λ sa, match sa with SockV4 a p => inl (a, p) | SockV6 a p f s => inr (a, p, f, s) end)
    (λ x, Some match x with
               | inl (a, p) => SockV4 a p
               | inr (a, p, f, s) => SockV6 a p f s end) _.
Next Obligation. by intros []. Qed.

Definition ip (addr : SocketAddr) : IpAddr :=
  match addr with
  | SockV4 a _ => V4 a
  | SockV6 a _ _ _ => V6 a
  end.

Definition port (addr : SocketAddr) : N :=
  match addr with
  | SockV4 _ p => p
  | SockV6 _ p _ _ => p
  end.

(** [impl From<(IpAddr, u16)> for SocketAddr]; an IPv6 address gets a zero flow info and scope. *)
Definition socket_addr (i : IpAddr) (p : N) : SocketAddr :=
  match i with
  | V4 a => SockV4 a p
  | V6 a => SockV6 a p 0 0
  end.

(** An IPv4 address written as [a.b.c.d]. *)
Definition ipv4 (a b c d : N) : N := ((a * 256 + b) * 256 + c) * 256 + d.

(** The IPv4-mapped IPv6 form [::ffff:a.b.c.d] of a 32-bit address. *)
Definition ipv4_mapped (v4 : N) : N := 0xffff * 2 ^ 32 + v4.

Definition is_ipv4_mapped (bits : N) : bool := bits / 2 ^ 32 =? 0xffff.

(** [IpAddr::to_canonical]: folds an IPv4-mapped IPv6 address back to IPv4. *)
Definition to_canonical (i : IpAddr) : IpAddr :=
  match i with
  | V4 a => V4 a
  | V6 a => if is_ipv4_mapped a then V4 (a mod 2 ^ 32) else V6 a
  end.

Definition canonical_ip (addr : SocketAddr) : IpAddr := to_canonical (ip addr).

Definition is_unspecified (i : IpAddr) : bool :=
  match i with V4 a => a =? 0 | V6 a => a =? 0 end.

(** [127.0.0.0/8], or exactly [::1]. *)
Definition is_loopback (i : IpAddr) : bool :=
  match i with V4 a => a / 2 ^ 24 =? 127 | V6 a => a =? 1 end.

(** Well-formed addresses: the integers fit their fields. *)
Definition ip_wf (i : IpAddr) : Prop :=
  match i with V4 a => a < 2 ^ 32 | V6 a => a < 2 ^ 128 end.

(** [Display] and [FromStr] of [std::net::SocketAddr], as far as the examples use them: an address that
    was read from a text can be read back from its own text (the text has no room for the [flowinfo] of
    an IPv6 address, which reading sets to zero), which is plain ASCII. *)
Class AddrText := {
  addr_to_string : SocketAddr → string;
  addr_parse : string → option SocketAddr;
}.

Class AddrTextSpec `{AddrText} : Prop := {
  addr_parse_print s a : addr_parse s = Some a → addr_parse (addr_to_string a) = Some a;
  addr_print_ascii a : Forall (λ c, Ascii.N_of_ascii c < 128) (String.list_ascii_of_string (addr_to_string a));
}.

Arguments is_ipv4_mapped : simpl never.
Arguments ipv4_mapped : simpl never.

(** ** Lemmas *)

Lemma is_ipv4_mapped_spec a :
  is_ipv4_mapped a = true ↔ a = ipv4_mapped (a mod 2 ^ 32).
Proof.
  unfold is_ipv4_mapped, ipv4_mapped. rewrite N.eqb_eq.
  rewrite (N.div_mod' a (2 ^ 32)) at 2.
  pose proof (N.mod_lt a (2 ^ 32)). split; intros; lia.
Qed.

Lemma to_canonical_mapped v4 : v4 < 2 ^ 32 → to_canonical (V6 (ipv4_mapped v4)) = V4 v4.
Proof.
  intros Hv. assert (Hm : ipv4_mapped v4 mod 2 ^ 32 = v4).
  { unfold ipv4_mapped. rewrite N.add_comm, N.Div0.mod_add. by apply N.mod_small. }
  unfold to_canonical. rewrite (proj2 (is_ipv4_mapped_spec _)) by (by rewrite Hm).
  by rewrite Hm.
Qed.

Lemma to_canonical_idemp i : to_canonical (to_canonical i) = to_canonical i.
Proof.
  destruct i as [a|a]; [done|]. cbn [to_canonical].
  destruct (is_ipv4_mapped a) eqn:E; cbn [to_canonical]; by rewrite ?E.
Qed.

Lemma to_canonical_V6 a b :
  to_canonical (V6 a) = to_canonical (V6 b) → a = b.
Proof.
  cbn [to_canonical]. destruct (is_ipv4_mapped a) eqn:Ea, (is_ipv4_mapped b) eqn:Eb; intros H; simplify_eq; [|done].
  apply is_ipv4_mapped_spec in Ea, Eb. congruence.
Qed.

Lemma to_canonical_V4_V6 a b : to_canonical (V4 a) = to_canonical (V6 b) → b = ipv4_mapped a.
Proof.
  cbn [to_canonical]. destruct (is_ipv4_mapped b) eqn:E; intros H; simplify_eq.
  apply is_ipv4_mapped_spec in E. done.
Qed.

(** The per-IP accounting key identifies exactly the addresses it is meant to identify: two
    well-formed socket addresses share a bucket if and only if they carry the same IP address, or
    one of them is the IPv4-mapped IPv6 form of the other's IPv4 address.  In particular a host
    cannot claim two quotas by switching between its native and its mapped form, and no two
    unrelated hosts are ever charged to one bucket. *)
Theorem canonical_ip_buckets a b :
  ip_wf (ip a) → ip_wf (ip b) →
  canonical_ip a = canonical_ip b ↔
  ip a = ip b ∨
  (∃ v, ip a = V4 v ∧ ip b = V6 (ipv4_mapped v)) ∨
  (∃ v, ip a = V6 (ipv4_mapped v) ∧ ip b = V4 v).
Proof.
  unfold canonical_ip. destruct (ip a) as [x|x], (ip b) as [y|y]; intros Hx Hy.
  - naive_solver.
  - split.
    + intros ->%to_canonical_V4_V6. right; left. by exists x.
    + intros [|[[v [? ?]]|[v [? ?]]]]; simplify_eq. by rewrite to_canonical_mapped.
  - split.
    + intros H. symmetry in H. apply to_canonical_V4_V6 in H as ->. right; right. by exists y.
    + intros [|[[v [? ?]]|[v [? ?]]]]; simplify_eq. by rewrite to_canonical_mapped.
  - split; [|naive_solver]. intros ->%to_canonical_V6. by left.
Qed.

Lemma canonical_ip_buckets_witness :
  canonical_ip (SockV4 (ipv4 127 0 0 1) 8000) =
  canonical_ip (SockV6 (ipv4_mapped (ipv4 127 0 0 1)) 8001 0 0).
Proof.
  apply (canonical_ip_buckets (SockV4 (ipv4 127 0 0 1) 8000)
           (SockV6 (ipv4_mapped (ipv4 127 0 0 1)) 8001 0 0)).
  - vm_compute. reflexivity.
  - vm_compute. reflexivity.
  - right. left. exists (ipv4 127 0 0 1). split; reflexivity.
Defined.
