(* ===== verification/Config.v ===== *)
(** * The node's configuration ([pea2pea/src/config.rs])

    [Config] with its defaults (the [test] cargo feature changes two of them) and the part of
    [Node::new] ([pea2pea/src/node.rs]) that validates and normalises a configuration. *)

From S2P Require Import Prelude Net.

Open Scope N_scope.

(** [Config]; the [u16] and [u32] fields are kept as [N]. *)
Record Config := mkConfig {
  name : option string;
  listener_addr : option SocketAddr;
  listener_backlog : N;
  reuse_listener_port : bool;
  max_connections : N;
  max_connections_per_ip : N;
  max_connecting : N;
  connection_timeout_ms : N;
}.

#[global] Instance Config_eq_dec : EqDecision Config.
Proof. solve_decision. Defined.

(** [impl Default for Config]; [test] is the cargo feature. *)
Definition default_config (test : bool) : Config := {|
  name := None;
  listener_addr :=
    Some (socket_addr (V4 (if test then ipv4 127 0 0 1 else ipv4 0 0 0 0)) 0);
  listener_backlog := 128;
  reuse_listener_port := false;
  max_connections := 100;
  max_connections_per_ip := if test then 100 else 1;
  max_connecting := 100;
  connection_timeout_ms := 1000;
|}.

Definition with_name (c : Config) (n : string) : Config := {|
  name := Some n;
  listener_addr := listener_addr c;
  listener_backlog := listener_backlog c;
  reuse_listener_port := reuse_listener_port c;
  max_connections := max_connections c;
  max_connections_per_ip := max_connections_per_ip c;
  max_connecting := max_connecting c;
  connection_timeout_ms := connection_timeout_ms c;
|}.

Definition with_max_connecting (c : Config) (m : N) : Config := {|
  name := name c;
  listener_addr := listener_addr c;
  listener_backlog := listener_backlog c;
  reuse_listener_port := reuse_listener_port c;
  max_connections := max_connections c;
  max_connections_per_ip := max_connections_per_ip c;
  max_connecting := m;
  connection_timeout_ms := connection_timeout_ms c;
|}.

(** The configuration [Node::new] stores: the three assertions (a failed one is a panic carrying
    its message), the sequential name when none was given, and the clamp of [max_connecting].
    [seq_id] is the value of [SEQUENTIAL_NODE_ID]; its new value is returned as well. *)
Definition admit_config (seq_id : N) (c : Config) : string + (N * Config) :=
  if max_connections c =? 0 then inl "Config::max_connections must not be 0"
  else if max_connections_per_ip c =? 0 then inl "Config::max_connections_per_ip must not be 0"
  else if max_connecting c =? 0 then inl "Config::max_connecting must not be 0"
  else
    let '(seq_id, c) :=
      match name c with
      | Some _ => (seq_id, c)
      | None => (wrapping_add seq_id 1, with_name c (pretty seq_id))
      end in
    let c :=
      if max_connections c <? max_connecting c
      then with_max_connecting c (max_connections c) else c in
    inr (seq_id, c).

(** What every admitted configuration satisfies. *)
Record config_ok (c : Config) : Prop := {
  ok_max_connections : 0 < max_connections c;
  ok_max_connections_per_ip : 0 < max_connections_per_ip c;
  ok_max_connecting : 0 < max_connecting c;
  ok_clamped : max_connecting c ≤ max_connections c;
  ok_named : is_Some (name c);
}.

(** The fields of a configuration are machine integers. *)
Definition config_wf (c : Config) : Prop :=
  max_connections c < 2 ^ 16 ∧ max_connections_per_ip c < 2 ^ 16 ∧ max_connecting c < 2 ^ 16.

(** ** Lemmas *)

Lemma admit_config_ok seq_id c seq_id' c' :
  admit_config seq_id c = inr (seq_id', c') → config_ok c'.
Proof.
  unfold admit_config.
  destruct (N.eqb_spec (max_connections c) 0); [done|].
  destruct (N.eqb_spec (max_connections_per_ip c) 0); [done|].
  destruct (N.eqb_spec (max_connecting c) 0); [done|].
  destruct (name c) eqn:En; simpl;
    destruct (N.ltb_spec (max_connections c) (max_connecting c)); intros; simplify_eq;
    split; simpl; rewrite ?En; eauto; lia.
Qed.

Lemma admit_config_limits seq_id c seq_id' c' :
  admit_config seq_id c = inr (seq_id', c') →
  max_connections c' = max_connections c ∧
  max_connections_per_ip c' = max_connections_per_ip c ∧
  max_connecting c' = N.min (max_connecting c) (max_connections c) ∧
  listener_addr c' = listener_addr c.
Proof.
  unfold admit_config.
  destruct (max_connections c =? 0); [done|].
  destruct (max_connections_per_ip c =? 0); [done|].
  destruct (max_connecting c =? 0); [done|].
  destruct (name c) eqn:En; simpl;
    destruct (N.ltb_spec (max_connections c) (max_connecting c)); intros; simplify_eq/=;
    repeat split; lia.
Qed.
