(* ===== verification/Stats.v ===== *)
(** * Traffic statistics and operational signals

    [Stats] ([pea2pea/src/stats.rs]) and [Heuristics] ([pea2pea/src/heuristics.rs]).  Both are
    collections of [AtomicU64]s that are only ever bumped with [fetch_add], which wraps modulo
    [2^64]; every [fetch_add] is one atomic step, so a concurrent history of them is a sequence of
    the register operations below. *)

From S2P Require Import Prelude.

Open Scope N_scope.

(** [Stats]; [created] is the [Instant] of its creation. *)
Record Stats := mkStats {
  created : N;
  msgs_sent : N;
  msgs_received : N;
  bytes_sent : N;
  bytes_received : N;
}.

(** [impl Default for Stats], at the instant [now]. *)
Definition default_stats (now : N) : Stats := mkStats now 0 0 0 0.

Definition register_sent_messages (msgs bytes : N) (s : Stats) : Stats := {|
  created := created s;
  msgs_sent := wrapping_add (msgs_sent s) msgs;
  msgs_received := msgs_received s;
  bytes_sent := wrapping_add (bytes_sent s) bytes;
  bytes_received := bytes_received s;
|}.

Definition register_received_message (size : N) (s : Stats) : Stats := {|
  created := created s;
  msgs_sent := msgs_sent s;
  msgs_received := wrapping_add (msgs_received s) 1;
  bytes_sent := bytes_sent s;
  bytes_received := wrapping_add (bytes_received s) size;
|}.

Definition sent (s : Stats) : N * N := (msgs_sent s, bytes_sent s).
Definition received (s : Stats) : N * N := (msgs_received s, bytes_received s).

(** A registration, as issued by the reader and writer tasks. *)
Inductive Registration :=
| Sent (msgs bytes : N)
| Received (size : N).

Definition register (r : Registration) (s : Stats) : Stats :=
  match r with
  | Sent m b => register_sent_messages m b s
  | Received z => register_received_message z s
  end.

Definition register_all (rs : list Registration) (s : Stats) : Stats :=
  foldl (λ s r, register r s) s rs.

(** The totals a list of registrations amounts to, before any wrap-around. *)
Definition total (f : Registration → N) (rs : list Registration) : N :=
  foldr (λ r acc, f r + acc) 0 rs.

Definition reg_msgs_sent (r : Registration) : N := match r with Sent m _ => m | _ => 0 end.
Definition reg_bytes_sent (r : Registration) : N := match r with Sent _ b => b | _ => 0 end.
Definition reg_msgs_received (r : Registration) : N := match r with Received _ => 1 | _ => 0 end.
Definition reg_bytes_received (r : Registration) : N := match r with Received z => z | _ => 0 end.

(** [Heuristics]. *)
Record Heuristics := mkHeuristics {
  connect_budget_rejections : N;
  inbound_connections_rejected : N;
  accept_errors : N;
  handshake_timeouts : N;
  idle_timeouts : N;
  write_timeouts : N;
}.

Definition default_heuristics : Heuristics := mkHeuristics 0 0 0 0 0 0.

Definition register_connect_budget_rejection (h : Heuristics) : Heuristics :=
  mkHeuristics (wrapping_add (connect_budget_rejections h) 1) (inbound_connections_rejected h)
    (accept_errors h) (handshake_timeouts h) (idle_timeouts h) (write_timeouts h).

Definition register_inbound_rejection (h : Heuristics) : Heuristics :=
  mkHeuristics (connect_budget_rejections h) (wrapping_add (inbound_connections_rejected h) 1)
    (accept_errors h) (handshake_timeouts h) (idle_timeouts h) (write_timeouts h).

Definition register_accept_error (h : Heuristics) : Heuristics :=
  mkHeuristics (connect_budget_rejections h) (inbound_connections_rejected h)
    (wrapping_add (accept_errors h) 1) (handshake_timeouts h) (idle_timeouts h) (write_timeouts h).

Definition register_handshake_timeout (h : Heuristics) : Heuristics :=
  mkHeuristics (connect_budget_rejections h) (inbound_connections_rejected h)
    (accept_errors h) (wrapping_add (handshake_timeouts h) 1) (idle_timeouts h) (write_timeouts h).

Definition register_idle_timeout (h : Heuristics) : Heuristics :=
  mkHeuristics (connect_budget_rejections h) (inbound_connections_rejected h)
    (accept_errors h) (handshake_timeouts h) (wrapping_add (idle_timeouts h) 1) (write_timeouts h).

Definition register_write_timeout (h : Heuristics) : Heuristics :=
  mkHeuristics (connect_budget_rejections h) (inbound_connections_rejected h)
    (accept_errors h) (handshake_timeouts h) (idle_timeouts h) (wrapping_add (write_timeouts h) 1).

(** ** Lemmas *)

Lemma u64_max_pos : u64_max ≠ 0.
Proof. done. Qed.

Lemma wrapping_add_assoc a b c :
  wrapping_add (wrapping_add a b) c = wrapping_add a (b + c).
Proof. unfold wrapping_add. rewrite N.Div0.add_mod_idemp_l. f_equal. lia. Qed.

Lemma wrapping_add_0_r a : a < u64_max → wrapping_add a 0 = a.
Proof. intros. unfold wrapping_add. rewrite N.add_0_r. by apply N.mod_small. Qed.

Lemma total_perm f rs rs' : rs ≡ₚ rs' → total f rs = total f rs'.
Proof. induction 1; simpl; lia. Qed.

(** Every counter of a statistics object is below [2^64]. *)
Definition stats_wf (s : Stats) : Prop :=
  msgs_sent s < u64_max ∧ msgs_received s < u64_max ∧
  bytes_sent s < u64_max ∧ bytes_received s < u64_max.

Lemma wrapping_add_lt a b : wrapping_add a b < u64_max.
Proof. unfold wrapping_add. apply N.mod_lt, u64_max_pos. Qed.
#[export] Hint Resolve wrapping_add_lt : pea.

Lemma register_wf r s : stats_wf s → stats_wf (register r s).
Proof.
  unfold stats_wf. intros (?&?&?&?).
  destruct r; simpl; repeat split; auto with pea.
Qed.

Lemma register_all_totals rs s :
  stats_wf s →
  register_all rs s = mkStats (created s)
    (wrapping_add (msgs_sent s) (total reg_msgs_sent rs))
    (wrapping_add (msgs_received s) (total reg_msgs_received rs))
    (wrapping_add (bytes_sent s) (total reg_bytes_sent rs))
    (wrapping_add (bytes_received s) (total reg_bytes_received rs)).
Proof.
  revert s. induction rs as [|r rs IH]; intros s Hs.
  - destruct s, Hs as (?&?&?&?). simpl in *. by rewrite !wrapping_add_0_r.
  - change (register_all (r :: rs) s) with (register_all rs (register r s)).
    rewrite IH by (by apply register_wf).
    destruct r as [m b|z]; simpl; rewrite !wrapping_add_assoc, ?N.add_0_l; done.
Qed.

(** ** Interleavings of the atomic increments *)

(** A single [fetch_add]. *)
Inductive Bump := MsgsSent (k : N) | BytesSent (k : N) | MsgsReceived (k : N) | BytesReceived (k : N).

#[global] Instance Bump_eq_dec : EqDecision Bump.
Proof. solve_decision. Defined.

Definition fetch_add (b : Bump) (s : Stats) : Stats :=
  match b with
  | MsgsSent k => mkStats (created s) (wrapping_add (msgs_sent s) k) (msgs_received s) (bytes_sent s) (bytes_received s)
  | BytesSent k => mkStats (created s) (msgs_sent s) (msgs_received s) (wrapping_add (bytes_sent s) k) (bytes_received s)
  | MsgsReceived k => mkStats (created s) (msgs_sent s) (wrapping_add (msgs_received s) k) (bytes_sent s) (bytes_received s)
  | BytesReceived k => mkStats (created s) (msgs_sent s) (msgs_received s) (bytes_sent s) (wrapping_add (bytes_received s) k)
  end.

(** The two increments of a registration, in source order. *)
Definition bumps (r : Registration) : list Bump :=
  match r with
  | Sent m b => [MsgsSent m; BytesSent b]
  | Received z => [MsgsReceived 1; BytesReceived z]
  end.

Definition fetch_adds (bs : list Bump) (s : Stats) : Stats := foldl (λ s b, fetch_add b s) s bs.

Lemma wrapping_add_comm_r a b c :
  wrapping_add (wrapping_add a b) c = wrapping_add (wrapping_add a c) b.
Proof. rewrite !wrapping_add_assoc. f_equal. lia. Qed.

Lemma fetch_add_comm b b' s : fetch_add b (fetch_add b' s) = fetch_add b' (fetch_add b s).
Proof. destruct b, b'; simpl; f_equal; apply wrapping_add_comm_r. Qed.

Lemma fetch_adds_perm bs bs' s : bs ≡ₚ bs' → fetch_adds bs s = fetch_adds bs' s.
Proof.
  intros Hp. revert s. induction Hp; intros s; simpl; auto.
  - by rewrite fetch_add_comm.
  - etrans; eauto.
Qed.

Lemma fetch_adds_register rs s : fetch_adds (rs ≫= bumps) s = register_all rs s.
Proof.
  revert s. induction rs as [|r rs IH]; intros s; [done|].
  change (fetch_adds (bumps r ++ (rs ≫= bumps)) s = register_all rs (register r s)).
  unfold fetch_adds. rewrite foldl_app. fold (fetch_adds (rs ≫= bumps)). rewrite <-IH. f_equal. by destruct r.
Qed.

(** The counters are exact under concurrency: however the individual atomic increments of the
    registrations issued by the reader and writer tasks are interleaved, every counter ends up at
    its initial value plus the total of what was registered, modulo [2^64]; in particular nothing
    is lost before a total reaches [2^64]. *)
Theorem stats_exact rs bs s :
  stats_wf s → bs ≡ₚ rs ≫= bumps →
  fetch_adds bs s = mkStats (created s)
    (wrapping_add (msgs_sent s) (total reg_msgs_sent rs))
    (wrapping_add (msgs_received s) (total reg_msgs_received rs))
    (wrapping_add (bytes_sent s) (total reg_bytes_sent rs))
    (wrapping_add (bytes_received s) (total reg_bytes_received rs)).
Proof. intros Hs Hp. by rewrite (fetch_adds_perm _ _ s Hp), fetch_adds_register, register_all_totals. Qed.

Lemma stats_exact_witness :
  fetch_adds [BytesReceived 7; MsgsSent 2; MsgsReceived 1; BytesSent 30] (default_stats 5) = mkStats 5 2 1 30 7.
Proof.
  rewrite (stats_exact [Sent 2 30; Received 7]); [by vm_compute|by vm_compute|].
  simpl. apply (submseteq_length_Permutation); [|simpl; lia]. by apply (bool_decide_unpack _).
Defined.
