(* ===== verification/Connections.v ===== *)
(** * Connection bookkeeping ([pea2pea/src/connections.rs])

    The [Connection] object, the [Connections] container (the [active] map, the [limits] under
    their own lock and the [drain_notify] signal), the per-IP accounting of [ConnectionLimits] and
    the [ConnectionGuard] whose drop clears a reservation.  Every definition here is the body of
    one lock-held section of the source; how concurrent tasks interleave these sections is the
    subject of [Lifecycle.v]. *)

From S2P Require Import Prelude Net.

Open Scope N_scope.

(** ** Data *)

Inductive ConnectionSide := Initiator | Responder.

(** [impl Not for ConnectionSide]. *)
Definition side_not (s : ConnectionSide) : ConnectionSide :=
  match s with Initiator => Responder | Responder => Initiator end.

Inductive DisconnectOrigin :=
| OnConnectAbort
| OriginReading
| OriginShutdown
| OriginUser
| OriginWriting.

(** [ConnectionInfo]; the tracing span is left out, and the shared [Arc<Stats>] is a handle. *)
Record ConnectionInfo := mkConnectionInfo {
  info_addr : SocketAddr;
  info_side : ConnectionSide;
  info_stats : N;
}.

(** [Connection].  Streams, their halves, oneshot senders and tasks are handles: [stream],
    [reader] and [writer] hold the socket they belong to, [readiness_notifier] the task that
    awaits the notification, and [tasks] the spawned tasks in push order. *)
Record Connection := mkConnection {
  id : N;
  info : ConnectionInfo;
  stream : option N;
  reader : option N;
  writer : option N;
  readiness_notifier : option nat;
  disconnecting : bool;
  tasks : list nat;
}.

#[global] Instance ConnectionSide_eq_dec : EqDecision ConnectionSide.
Proof. solve_decision. Defined.
#[global] Instance DisconnectOrigin_eq_dec : EqDecision DisconnectOrigin.
Proof. solve_decision. Defined.
#[global] Instance ConnectionInfo_eq_dec : EqDecision ConnectionInfo.
Proof. solve_decision. Defined.
#[global] Instance Connection_eq_dec : EqDecision Connection.
Proof. solve_decision. Defined.

Definition conn_addr (c : Connection) : SocketAddr := info_addr (info c).
Definition conn_side (c : Connection) : ConnectionSide := info_side (info c).

(** [Connection::new], given the value [fetch_add] returned for [SEQUENTIAL_CONN_ID]; the fresh
    [Stats] object is identified with the connection's own id. *)
Definition new_connection (conn_id : N) (addr : SocketAddr) (sock : N) (side : ConnectionSide)
  : Connection := {|
  id := conn_id;
  info := mkConnectionInfo addr side conn_id;
  stream := Some sock;
  reader := None;
  writer := None;
  readiness_notifier := None;
  disconnecting := false;
  tasks := [];
|}.

Definition set_disconnecting (c : Connection) : Connection :=
  mkConnection (id c) (info c) (stream c) (reader c) (writer c) (readiness_notifier c) true (tasks c).

Definition push_task (t : nat) (c : Connection) : Connection :=
  mkConnection (id c) (info c) (stream c) (reader c) (writer c) (readiness_notifier c)
    (disconnecting c) (tasks c ++ [t]).

(** The order in which [impl Drop for Connection] aborts the tasks. *)
Definition abort_order (c : Connection) : list nat := rev (tasks c).

(** [ConnectionLimits]. *)
Record ConnectionLimits := mkLimits {
  connecting : gset SocketAddr;
  ip_counts : gmap IpAddr N;
}.

(** [Connections].  [drain_notify] counts the calls to [Notify::notify_waiters]: a waiter that
    registered when the count was [g] is woken as soon as it differs from [g]. *)
Record Connections := mkConnections {
  active : gmap SocketAddr Connection;
  limits : ConnectionLimits;
  drain_notify : N;
}.

Definition default_limits : ConnectionLimits := mkLimits ∅ ∅.
Definition default_connections : Connections := mkConnections ∅ default_limits 0.

(** ** Operations *)

(** [ConnectionLimits::reserve]. *)
Definition reserve (l : ConnectionLimits) (addr : SocketAddr) : ConnectionLimits :=
  mkLimits ({[addr]} ∪ connecting l)
    (<[canonical_ip addr := default 0 (ip_counts l !! canonical_ip addr) + 1]> (ip_counts l)).

(** [ConnectionLimits::ip_count]. *)
Definition ip_count (l : ConnectionLimits) (addr : SocketAddr) : N :=
  default 0 (ip_counts l !! canonical_ip addr).

(** [ConnectionLimits::release_ip]; the boolean tells whether its debug assertion held, i.e.
    whether there was a bucket to release. *)
Definition release_ip (l : ConnectionLimits) (addr : SocketAddr) : bool * ConnectionLimits :=
  match ip_counts l !! canonical_ip addr with
  | Some n =>
      (true, mkLimits (connecting l)
               (if 1 <? n then <[canonical_ip addr := n - 1]> (ip_counts l)
                else delete (canonical_ip addr) (ip_counts l)))
  | None => (false, l)
  end.

Definition clear_connecting (l : ConnectionLimits) (addr : SocketAddr) : ConnectionLimits :=
  mkLimits (connecting l ∖ {[addr]}) (ip_counts l).

Definition set_limits (c : Connections) (l : ConnectionLimits) : Connections :=
  mkConnections (active c) l (drain_notify c).

Definition set_active (c : Connections) (m : gmap SocketAddr Connection) : Connections :=
  mkConnections m (limits c) (drain_notify c).

(** [impl Drop for ConnectionGuard]: the section under the [limits] lock. *)
Definition guard_drop (c : Connections) (addr : SocketAddr) (completed : bool)
  : bool * Connections :=
  let l := clear_connecting (limits c) addr in
  if completed then (true, set_limits c l)
  else let '(ok, l) := release_ip l addr in (ok, set_limits c l).

(** [Connections::add] up to the release of the [active] write lock; [underway] is the shutdown
    flag as read inside that section. On success the guard is marked completed. *)
Definition add_active (c : Connections) (conn : Connection) (underway : bool)
  : option Connections :=
  if underway then None else Some (set_active c (<[conn_addr conn := conn]> (active c))).

(** [Connections::add] run without interference: the section above, then the guard's drop, which
    releases the reservation exactly if the insertion was refused. [guard_addr] is the address the
    guard was created for. *)
Definition add (c : Connections) (conn : Connection) (guard_addr : SocketAddr) (underway : bool)
  : IoResult () * Connections :=
  match add_active c conn underway with
  | None => (Err (mkIoError OtherKind ShuttingDown), snd (guard_drop c guard_addr false))
  | Some c => (Ok (), snd (guard_drop c guard_addr true))
  end.

Definition get_info (c : Connections) (addr : SocketAddr) : option ConnectionInfo :=
  info <$> active c !! addr.

Definition infos (c : Connections) : gmap SocketAddr ConnectionInfo := info <$> active c.

Definition is_connected (c : Connections) (addr : SocketAddr) : bool :=
  bool_decide (is_Some (active c !! addr)).

(** [Connections::remove]; a successful removal signals [drain_notify]. *)
Definition remove (c : Connections) (addr : SocketAddr) : option Connection * Connections :=
  match active c !! addr with
  | Some conn => (Some conn, mkConnections (delete addr (active c)) (limits c) (drain_notify c + 1))
  | None => (None, c)
  end.

Definition num_connected (c : Connections) : N := N.of_nat (size (active c)).

Definition addrs (c : Connections) : list SocketAddr := (map_to_list (active c)).*1.

(** ** Views used to state properties *)

(** How many entries of the active map are charged to [i]. *)
Definition active_on (i : IpAddr) (m : gmap SocketAddr Connection) : nat :=
  map_countb (λ a _, bool_decide (canonical_ip a = i)) m.

(** Buckets are removed as soon as they reach zero. *)
Definition buckets_ok (l : ConnectionLimits) : Prop :=
  ∀ i n, ip_counts l !! i = Some n → 0 < n.

(** ** Lemmas *)

Definition bucket (l : ConnectionLimits) (i : IpAddr) : N := default 0 (ip_counts l !! i).

Lemma ip_count_bucket l addr : ip_count l addr = bucket l (canonical_ip addr).
Proof. done. Qed.

Lemma reserve_bucket l addr i :
  bucket (reserve l addr) i = bucket l i + (if decide (canonical_ip addr = i) then 1 else 0).
Proof.
  unfold bucket, reserve; simpl. rewrite lookup_insert. case_decide; subst; simpl; lia.
Qed.

Lemma reserve_buckets_ok l addr : buckets_ok l → buckets_ok (reserve l addr).
Proof.
  intros Hb i n. unfold reserve; simpl. rewrite lookup_insert. case_decide; [|eauto].
  intros; simplify_eq. lia.
Qed.

Lemma release_ip_bucket l addr ok l' i :
  release_ip l addr = (ok, l') → 0 < bucket l (canonical_ip addr) →
  ok = true ∧ connecting l' = connecting l ∧
  bucket l i = bucket l' i + (if decide (canonical_ip addr = i) then 1 else 0).
Proof.
  unfold release_ip, bucket. destruct (ip_counts l !! canonical_ip addr) as [n|] eqn:E;
    simpl; intros; simplify_eq; [|lia].
  do 2 (split; [done|]); simpl. destruct (N.ltb_spec 1 n) as [?|?].
  - rewrite lookup_insert. case_decide; subst; rewrite ?E; simpl; lia.
  - rewrite lookup_delete. case_decide; subst; rewrite ?E; simpl; lia.
Qed.

Lemma release_ip_buckets_ok l addr : buckets_ok l → buckets_ok (release_ip l addr).2.
Proof.
  intros Hb. unfold release_ip. destruct (ip_counts l !! canonical_ip addr) as [n|] eqn:E; [|done].
  intros i m; simpl. destruct (N.ltb_spec 1 n) as [?|?].
  - rewrite lookup_insert. case_decide; [intros; simplify_eq; lia|eauto].
  - rewrite lookup_delete. case_decide; [done|eauto].
Qed.

Lemma buckets_ok_zero l i : buckets_ok l → bucket l i = 0 → ip_counts l !! i = None.
Proof.
  unfold bucket. intros Hb. destruct (ip_counts l !! i) eqn:E; simpl; [|done].
  intros ->. by apply Hb in E.
Qed.

#[export] Hint Resolve reserve_buckets_ok release_ip_buckets_ok buckets_ok_zero : pea.

(** Releasing undoes a reservation's charge, bucket removal included. *)
Lemma release_reserve l addr :
  buckets_ok l → release_ip (reserve l addr) addr = (true, mkLimits ({[addr]} ∪ connecting l) (ip_counts l)).
Proof.
  intros Hb. unfold release_ip, reserve; simpl. rewrite lookup_insert_eq. do 2 f_equal.
  destruct (ip_counts l !! canonical_ip addr) as [n|] eqn:E; simpl.
  - specialize (Hb _ _ E). rewrite (proj2 (N.ltb_lt 1 (n + 1))) by lia.
    rewrite insert_insert_eq. replace (n + 1 - 1) with n by lia. by apply insert_id.
  - apply delete_insert_id. done.
Qed.

Lemma guard_drop_active cs a b : active (guard_drop cs a b).2 = active cs.
Proof. unfold guard_drop. destruct b; [done|]. by destruct (release_ip _ _). Qed.
