(* ===== verification/Node.v ===== *)
(** * The node's shared state and its lock-held operations ([pea2pea/src/node.rs])

    [InnerNode] as a record and, one definition each, the sections of the source that run under a
    lock (or are a single atomic operation): admission control ([check_and_reserve]), the claim and
    the finalisation of a disconnect, task registration, the listener toggle and the pieces of the
    shutdown state.  Tokio and the operating system enter as explicit arguments (the outcome of a
    bind, of a dial, ...). *)

From S2P Require Import Prelude Net Config Stats Connections.

Open Scope N_scope.

(** ** Data *)

(** [NodeTask]. *)
Inductive NodeTask :=
| TaskListener
| TaskOnDisconnect
| TaskHandshake
| TaskOnConnect
| TaskReading
| TaskWriting.

#[global] Instance NodeTask_eq_dec : EqDecision NodeTask.
Proof. solve_decision. Defined.

Definition task_index (t : NodeTask) : nat :=
  match t with
  | TaskListener => 0 | TaskOnDisconnect => 1 | TaskHandshake => 2
  | TaskOnConnect => 3 | TaskReading => 4 | TaskWriting => 5
  end%nat.

Definition task_of_index (i : nat) : NodeTask :=
  match i with
  | 0 => TaskListener | 1 => TaskOnDisconnect | 2 => TaskHandshake
  | 3 => TaskOnConnect | 4 => TaskReading | _ => TaskWriting
  end%nat.

#[global] Instance NodeTask_countable : Countable NodeTask.
Proof. refine (inj_countable' task_index task_of_index _). by intros []. Defined.

(** [Protocols]: which protocols have been enabled.  The writing handler carries the senders map,
    of which only the connection id tag of an entry matters here; the [OnConnect] entry is its
    [ABORTABLE] constant. *)
Record Protocols := mkProtocols {
  handshake : bool;
  reading : bool;
  writing : option (gmap SocketAddr N);
  on_connect : option bool;
  on_disconnect : bool;
}.

Definition default_protocols : Protocols := mkProtocols false false None None false.

(** [ShutdownState]; the two [Notify]s are counted like [drain_notify]. *)
Record ShutdownState := mkShutdownState {
  flag : bool;
  handler_signal : bool;
  sched_in_flight : N;
  sched_drained : N;
}.

Definition default_shutdown : ShutdownState := mkShutdownState false false 0 0.

(** [InnerNode], together with the process-wide [SEQUENTIAL_CONN_ID]. *)
Record Node := mkNode {
  config : Config;
  listening_addr : option SocketAddr;
  protocols : Protocols;
  connections : Connections;
  connecting_permits : N;
  stats : Stats;
  heuristics : Heuristics;
  node_tasks : gmap NodeTask nat;
  shutdown : ShutdownState;
  sequential_conn_id : N;
}.

(** ** Field updates *)

Definition set_connections (n : Node) (c : Connections) : Node :=
  mkNode (config n) (listening_addr n) (protocols n) c (connecting_permits n) (stats n)
    (heuristics n) (node_tasks n) (shutdown n) (sequential_conn_id n).
Definition set_permits (n : Node) (p : N) : Node :=
  mkNode (config n) (listening_addr n) (protocols n) (connections n) p (stats n)
    (heuristics n) (node_tasks n) (shutdown n) (sequential_conn_id n).
Definition set_stats (n : Node) (s : Stats) : Node :=
  mkNode (config n) (listening_addr n) (protocols n) (connections n) (connecting_permits n) s
    (heuristics n) (node_tasks n) (shutdown n) (sequential_conn_id n).
Definition set_heuristics (n : Node) (h : Heuristics) : Node :=
  mkNode (config n) (listening_addr n) (protocols n) (connections n) (connecting_permits n) (stats n)
    h (node_tasks n) (shutdown n) (sequential_conn_id n).
Definition set_protocols (n : Node) (p : Protocols) : Node :=
  mkNode (config n) (listening_addr n) p (connections n) (connecting_permits n) (stats n)
    (heuristics n) (node_tasks n) (shutdown n) (sequential_conn_id n).
Definition set_shutdown (n : Node) (s : ShutdownState) : Node :=
  mkNode (config n) (listening_addr n) (protocols n) (connections n) (connecting_permits n) (stats n)
    (heuristics n) (node_tasks n) s (sequential_conn_id n).
Definition set_listening_addr (n : Node) (a : option SocketAddr) : Node :=
  mkNode (config n) a (protocols n) (connections n) (connecting_permits n) (stats n)
    (heuristics n) (node_tasks n) (shutdown n) (sequential_conn_id n).
Definition set_node_tasks (n : Node) (t : gmap NodeTask nat) : Node :=
  mkNode (config n) (listening_addr n) (protocols n) (connections n) (connecting_permits n) (stats n)
    (heuristics n) t (shutdown n) (sequential_conn_id n).
Definition set_sequential_conn_id (n : Node) (i : N) : Node :=
  mkNode (config n) (listening_addr n) (protocols n) (connections n) (connecting_permits n) (stats n)
    (heuristics n) (node_tasks n) (shutdown n) i.

Definition set_senders (n : Node) (m : gmap SocketAddr N) : Node :=
  set_protocols n (mkProtocols (handshake (protocols n)) (reading (protocols n)) (Some m)
                     (on_connect (protocols n)) (on_disconnect (protocols n))).

(** ** Errors *)

Definition shutting_down_error : IoError := mkIoError OtherKind ShuttingDown.

(** [ShuttingDown::caused]. *)
Definition caused (e : IoError) : bool :=
  match get_ref e with ShuttingDown => true | _ => false end.

(** ** Construction *)

(** [Node::new]: a panic message, or the next sequential node id and the node. *)
Definition new_node (seq_id : N) (now : N) (conn_id : N) (c : Config) : string + (N * Node) :=
  match admit_config seq_id c with
  | inl msg => inl msg
  | inr (seq_id, c) =>
      inr (seq_id, mkNode c None default_protocols default_connections (max_connecting c)
                     (default_stats now) default_heuristics ∅ default_shutdown conn_id)
  end.

(** ** Shutdown state *)

Definition is_underway (n : Node) : bool := flag (shutdown n).

(** [ShutdownState::begin]. *)
Definition begin (s : ShutdownState) : ShutdownState :=
  mkShutdownState true (handler_signal s) (sched_in_flight s) (sched_drained s).

(** [ShutdownState::signal_handlers]. *)
Definition signal_handlers (s : ShutdownState) : ShutdownState :=
  mkShutdownState (flag s) true (sched_in_flight s) (sched_drained s).

(** [ShutdownState::sched_started]. *)
Definition sched_started (s : ShutdownState) : ShutdownState :=
  mkShutdownState (flag s) (handler_signal s) (sched_in_flight s + 1) (sched_drained s).

(** [ShutdownState::sched_finished]: the waiters are notified when the count drops to zero. *)
Definition sched_finished (s : ShutdownState) : ShutdownState :=
  mkShutdownState (flag s) (handler_signal s) (sched_in_flight s - 1)
    (if sched_in_flight s =? 1 then sched_drained s + 1 else sched_drained s).

(** ** Admission control *)

Definition fmt_limit (pre : string) (l : N) (post : string) : string :=
  (pre +:+ pretty l +:+ post)%string.

(** [Node::check_and_reserve]: one section under the [limits] lock. *)
Definition check_and_reserve (n : Node) (addr : SocketAddr) : IoResult Node :=
  let c := connections n in
  let l := limits c in
  if is_connected c addr then Err (mkIoError AlreadyExists (Message "already connected"))
  else if max_connections_per_ip (config n) <=? ip_count l addr then
    Err (mkIoError QuotaExceeded (Message
      (fmt_limit "maximum number (" (max_connections_per_ip (config n)) ") of per-IP connections reached")))
  else
    let num_connecting := N.of_nat (size (connecting l)) in
    if max_connecting (config n) <=? num_connecting then
      Err (mkIoError QuotaExceeded (Message
        (fmt_limit "maximum number (" (max_connecting (config n)) ") of pending connections reached")))
    else if max_connections (config n) <=? num_connected c + num_connecting then
      Err (mkIoError QuotaExceeded (Message
        (fmt_limit "maximum number (" (max_connections (config n)) ") of connections reached")))
    else if bool_decide (addr ∈ connecting l) then
      Err (mkIoError AlreadyExists (Message "already connecting"))
    else Ok (set_connections n (set_limits c (reserve l addr))).

(** [Node::listening_addr]. *)
Definition node_listening_addr (n : Node) : IoResult SocketAddr :=
  match listening_addr n with
  | Some l => Ok l
  | None => Err (mkIoError AddrNotAvailable NoPayload)
  end.

(** The self-connect test of [Node::connect_inner]. *)
Definition self_connect (n : Node) (addr : SocketAddr) : bool :=
  match node_listening_addr n with
  | Err _ => false
  | Ok l =>
      bool_decide (addr = l) ||
      (is_unspecified (ip l) && is_loopback (ip addr) && (port addr =? port l))
  end.

(** [Semaphore::try_acquire_owned] on the connection-setup budget. *)
Definition try_acquire (n : Node) : option Node :=
  if connecting_permits n =? 0 then None
  else Some (set_permits n (connecting_permits n - 1)).

Definition release_permit (n : Node) : Node := set_permits n (connecting_permits n + 1).

(** ** Disconnecting *)

(** [Node::claim_disconnect]: [Some] is the claim with its finalizer. *)
Definition claim_disconnect (n : Node) (addr : SocketAddr) (conn_id : option N) : option Node :=
  match active (connections n) !! addr with
  | None => None
  | Some conn =>
      if match conn_id with Some i => negb (id conn =? i) | None => false end then None
      else if disconnecting conn then None
      else Some (set_connections n (set_active (connections n)
                   (<[addr := set_disconnecting conn]> (active (connections n)))))
  end.

(** [impl Drop for DisconnectFinalizer], first part: close the outbound channel. *)
Definition finalizer_senders (n : Node) (addr : SocketAddr) : Node :=
  match writing (protocols n) with
  | Some senders => set_senders n (delete addr senders)
  | None => n
  end.

(** [impl Drop for DisconnectFinalizer], second part: the section under the [limits] lock. The
    boolean tells whether the debug assertion of [release_ip] held. *)
Definition finalizer_remove (n : Node) (addr : SocketAddr) : bool * option Connection * Node :=
  let '(conn, c) := remove (connections n) addr in
  let '(ok, l) := release_ip (limits c) addr in
  (ok, conn, set_connections n (set_limits c l)).

(** Registering a task with the live connection at an address ([active.write().get_mut(..)] in
    [disconnect_w_origin] and, with an id filter, in the scheduling task of [adapt_stream]);
    [None] if there is no such connection. *)
Definition attach_task (n : Node) (addr : SocketAddr) (conn_id : option N) (t : nat) : option Node :=
  match active (connections n) !! addr with
  | Some conn =>
      if match conn_id with Some i => id conn =? i | None => true end then
        Some (set_connections n (set_active (connections n)
                (<[addr := push_task t conn]> (active (connections n)))))
      else None
  | None => None
  end.

(** The test of [impl Drop for DisconnectOnDrop] ([protocols/mod.rs]). *)
Definition needs_recovery (n : Node) (addr : SocketAddr) (conn_id : N) : bool :=
  match active (connections n) !! addr with
  | Some c => (id c =? conn_id) && negb (disconnecting c)
  | None => false
  end.

(** [impl Drop for SenderCleanup] ([protocols/writing.rs]). *)
Definition sender_cleanup (senders : gmap SocketAddr N) (addr : SocketAddr) (conn_id : N)
  : gmap SocketAddr N :=
  match senders !! addr with
  | Some i => if i =? conn_id then delete addr senders else senders
  | None => senders
  end.

(** ** Node tasks and the listener *)

(** [Node::register_task]; the boolean tells whether the task displaced an earlier one (which the
    debug assertion rules out). A refused task is aborted. *)
Definition register_task (n : Node) (k : NodeTask) (t : nat) : IoResult (bool * Node) :=
  if is_underway n then Err shutting_down_error
  else Ok (bool_decide (is_Some (node_tasks n !! k)), set_node_tasks n (<[k := t]> (node_tasks n))).

(** What the operating system does with the listening socket: an error from one of the socket
    calls, or the port it was bound to. *)
Inductive BindOutcome := BindErr (e : IoError) | Bound (p : N).

(** What [toggle_listener] did: its result, whether an accept loop was spawned, and the task it
    aborted. *)
Record Toggled := mkToggled {
  tg_result : IoResult (option SocketAddr);
  tg_spawned : bool;
  tg_aborted : option nat;
  tg_node : Node;
}.

(** [Node::toggle_listener] with [Node::start_listening] inlined; the write guard on
    [listening_addr] is held throughout. [t] is the handle of the accept loop, should one be
    spawned; if it cannot be registered because the node is shutting down, it is aborted. *)
Definition toggle_listener (n : Node) (os : BindOutcome) (t : nat) : Toggled :=
  match listening_addr n with
  | Some _ =>
      match node_tasks n !! TaskListener with
      | None => mkToggled (Err shutting_down_error) false None n
      | Some old =>
          mkToggled (Ok None) false (Some old)
            (set_listening_addr (set_node_tasks n (delete TaskListener (node_tasks n))) None)
      end
  | None =>
      match listener_addr (config n) with
      | None => mkToggled (Err (mkIoError AddrNotAvailable NoPayload)) false None n
      | Some la =>
          match os with
          | BindErr e => mkToggled (Err e) false None n
          | Bound p =>
              match register_task n TaskListener t with
              | Err e => mkToggled (Err e) true (Some t) n
              | Ok (_, n) =>
                  let a := socket_addr (ip la) p in
                  mkToggled (Ok (Some a)) true None (set_listening_addr n (Some a))
              end
          end
      end
  end.

(** ** Lemmas *)

Lemma check_and_reserve_inv n addr n' :
  check_and_reserve n addr = Ok n' →
  active (connections n) !! addr = None ∧
  (addr ∉ connecting (limits (connections n))) ∧
  ip_count (limits (connections n)) addr < max_connections_per_ip (config n) ∧
  N.of_nat (size (connecting (limits (connections n)))) < max_connecting (config n) ∧
  num_connected (connections n) + N.of_nat (size (connecting (limits (connections n))))
    < max_connections (config n) ∧
  n' = set_connections n (set_limits (connections n) (reserve (limits (connections n)) addr)).
Proof.
  unfold check_and_reserve, is_connected. case_bool_decide as Ha; [done|].
  destruct (N.leb_spec (max_connections_per_ip (config n)) (ip_count (limits (connections n)) addr)); [done|].
  case_match eqn:E1; [done|]. apply N.leb_gt in E1.
  case_match eqn:E2; [done|]. apply N.leb_gt in E2.
  case_bool_decide; [done|]. intros; simplify_eq.
  apply eq_None_not_Some in Ha. done.
Qed.

Lemma claim_disconnect_inv n addr cid n' :
  claim_disconnect n addr cid = Some n' →
  ∃ conn, active (connections n) !! addr = Some conn ∧ disconnecting conn = false ∧
    (∀ i, cid = Some i → id conn = i) ∧
    n' = set_connections n (set_active (connections n)
           (<[addr := set_disconnecting conn]> (active (connections n)))).
Proof.
  unfold claim_disconnect. destruct (active (connections n) !! addr) as [conn|]; [|done].
  destruct (match cid with Some i => _ | None => _ end) eqn:E; [done|].
  destruct (disconnecting conn) eqn:Ed; [done|]. intros; simplify_eq. exists conn.
  split_and!; try done. intros i ->. by apply negb_false_iff, N.eqb_eq in E.
Qed.

Lemma attach_task_inv n addr cid t n' :
  attach_task n addr cid t = Some n' →
  ∃ conn, active (connections n) !! addr = Some conn ∧
    (∀ i, cid = Some i → id conn = i) ∧
    n' = set_connections n (set_active (connections n)
           (<[addr := push_task t conn]> (active (connections n)))).
Proof.
  unfold attach_task. destruct (active (connections n) !! addr) as [conn|]; [|done].
  destruct (match cid with Some i => _ | None => _ end) eqn:E; [|done].
  intros; simplify_eq. exists conn. split_and!; try done. intros i ->. by apply N.eqb_eq in E.
Qed.

Lemma finalizer_remove_inv n addr ok conn n' :
  finalizer_remove n addr = (ok, conn, n') →
  conn = active (connections n) !! addr ∧
  active (connections n') = delete addr (active (connections n)) ∧
  release_ip (limits (connections n)) addr = (ok, limits (connections n')).
Proof.
  unfold finalizer_remove, remove.
  destruct (active (connections n) !! addr) as [c|] eqn:E; simpl;
    destruct (release_ip (limits (connections n)) addr) as [ok' l'] eqn:R;
    intros; simplify_eq/=; rewrite ?R; split_and!; try done.
  by rewrite delete_id.
Qed.

Lemma try_acquire_inv n n' :
  try_acquire n = Some n' →
  0 < connecting_permits n ∧ n' = set_permits n (connecting_permits n - 1).
Proof. unfold try_acquire. destruct (N.eqb_spec (connecting_permits n) 0); intros; simplify_eq. split; [lia|done]. Qed.
