(* ===== verification/Tasks.v ===== *)
(** * The node's tasks as a transition system

    Every async function and spawned task of [pea2pea/src/node.rs] and [pea2pea/src/protocols/] that
    takes part in a connection's life, as a thread with a program counter ([Pc]).  One step of a
    thread is one lock-held section, one atomic operation or one await of the source, so that the
    reachable states are those of all interleavings.  A future may also be dropped at an await
    ([Cancel]); what it owns is then released in Rust's drop order ([Unwind]).

    The outcomes the code does not determine (the peer, the operating system, user hooks, the
    executor) are the [Choice] of a step.  Handles are explicit: a spawned task is known by its
    index in the thread list, a oneshot channel by the thread that awaits it. *)

From S2P Require Import Prelude Net Config Stats Connections Node.

Open Scope N_scope.

(** ** Program counters *)

(** The three protocols [Node::enable_protocols] applies, in order. *)
Inductive SetupProto := StHandshake | StReading | StWriting.

(** The tasks owned by a connection, and the two kinds of hook tasks. *)
Inductive TaskKind := Processing | Reader | Writer | HookOnConnect | HookOnDisconnect.

(** Something a future or a task owns and whose [Drop] does work: a [ConnectionGuard], a
    [Connection], a [SchedulingGuard], a semaphore permit, a [DisconnectOnDrop], a [SenderCleanup]. *)
Inductive Owned :=
| DGuard (addr : SocketAddr) (completed : bool)
| DConn (c : Connection)
| DSched
| DPermit
| DDisconnect (addr : SocketAddr) (conn_id : N) (origin : DisconnectOrigin)
| DSender (addr : SocketAddr) (conn_id : N).

(** What an operation returned.  A future that was dropped returned nothing: [Dropped], or
    [Abandoned] for a disconnect that had already claimed its connection, which its finalizer then
    removed. *)
Inductive Outcome :=
| RetIo (r : IoResult ())
| RetBool (b : bool)
| Dropped
| Abandoned.

Inductive Pc :=
(* [Node::connect_inner] *)
| CnStart (addr : SocketAddr)
| CnSelf (addr : SocketAddr)
| CnDup (addr : SocketAddr)
| CnPermit (addr : SocketAddr)
| CnReserve (addr : SocketAddr)
| CnDial (addr : SocketAddr)
(* the accept loop of [Node::start_listening] and [Node::handle_connection_request] *)
| LsAccept
| LsPermit (addr : SocketAddr) (sock : N)
| RqStart (addr : SocketAddr) (sock : N)
| RqReserve (addr : SocketAddr) (sock : N)
(* [Node::adapt_stream] and [Node::enable_protocols]; [own] is the node's own side *)
| AdNew (addr : SocketAddr) (sock : N) (own : ConnectionSide)
| AdProto (k : SetupProto) (addr : SocketAddr) (c : Connection) (own : ConnectionSide)
| AdAwait (k : SetupProto) (addr : SocketAddr) (own : ConnectionSide)
| AdSched (addr : SocketAddr) (c : Connection) (own : ConnectionSide)
| AdAdd (addr : SocketAddr) (c : Connection) (own : ConnectionSide) (ready : option nat) (sched : bool)
| AdGuard (addr : SocketAddr) (conn_id : N) (own : ConnectionSide) (ready : option nat) (sched : bool)
| AdReady (addr : SocketAddr) (conn_id : N) (own : ConnectionSide) (ready : option nat) (sched : bool)
| AdSpawn (addr : SocketAddr) (conn_id : N) (own : ConnectionSide) (sched : bool)
| AdJoin (own : ConnectionSide) (task : nat)
(* [handle_new_connection] of the Handshake, Reading and Writing handlers; [req] awaits the reply *)
| StRun (k : SetupProto) (c : Connection) (req : nat)
| StReading1 (c : Connection) (task : nat) (req : nat)
| StReading2 (c : Connection) (task : nat) (req : nat)
| StWriting1 (c : Connection) (task : nat) (req : nat)
| StReply (r : IoResult Connection) (req : nat)
(* the detached [OnConnect] scheduling task of [Node::adapt_stream] *)
| ScTrigger (addr : SocketAddr) (conn_id : N)
| ScAwait (addr : SocketAddr) (conn_id : N)
| ScAttach (addr : SocketAddr) (conn_id : N) (task : nat) (abortable : bool)
(* [Node::disconnect_w_origin] and [DisconnectFinalizer]; [g] is the claimed connection's id, [r] what
   is returned once the finalizer has run *)
| DsClaim (addr : SocketAddr) (origin : DisconnectOrigin) (conn_id : option N)
| DsHook (addr : SocketAddr) (g : N) (origin : DisconnectOrigin)
| DsAwait (addr : SocketAddr) (g : N)
| DsPush (addr : SocketAddr) (g : N) (task : nat)
| DsWait (addr : SocketAddr) (g : N) (task : nat)
| DsSenders (addr : SocketAddr) (g : N) (r : Outcome)
| DsRemove (addr : SocketAddr) (g : N) (r : Outcome)
| DsDrop (c : Connection) (r : Outcome)
(* [Node::shut_down]; [hs] are the protocol handler tasks it has taken over *)
| SdBegin
| SdTake
| SdSnapshot (hs : list nat)
| SdFan (hs : list nat) (ds : list nat)
| SdRegister (hs : list nat)
| SdCheck (hs : list nat) (gen : N)
| SdPark (hs : list nat) (gen : N)
| SdSchedRegister (hs : list nat)
| SdSchedCheck (hs : list nat) (gen : N)
| SdSchedPark (hs : list nat) (gen : N)
| SdSignal (hs : list nat)
| SdJoin (hs : list nat)
| SdClear
(* running tasks *)
| TkWaitReady (addr : SocketAddr) (conn_id : N)
| TkRun (k : TaskKind) (addr : SocketAddr) (conn_id : N)
| TkHandler (k : NodeTask)
(* leaving scope, and the end *)
| Unwind (owned : list Owned) (r : Outcome)
| Done (r : Outcome).

(** What the environment decides about a step. *)
Inductive Choice :=
| Go
| Failed (e : IoError)
| TimedOutChoice
| HandlerGone
| GotStream (sock : N)
| GotInbound (addr : SocketAddr) (sock : N)
| Handshaken (st rd wr : option N)
| Served (msgs bytes : N).

(** Events, newest first in the log: an id was drawn for a new connection (by this node, or by
    another node of the process), a connection entered or left the active map, a hook was triggered.
    The others record a failed debug assertion, a trigger sent into a channel that was already closed
    ([EvSkipped..]), and a trigger whose handler went away before it had spawned the hook
    ([EvLost..]). *)
Inductive Event :=
| EvCreated (conn_id : N)
| EvForeignId (conn_id : N)
| EvAdded (conn_id : N)
| EvRemoved (conn_id : N)
| EvOnConnect (conn_id : N)
| EvOnDisconnect (conn_id : N) (origin : DisconnectOrigin)
| EvAssertFailed
| EvSkippedOnConnect (conn_id : N)
| EvSkippedOnDisconnect (conn_id : N)
| EvLostOnConnect (conn_id : N)
| EvLostOnDisconnect (conn_id : N).

(** Effects a step has on other threads: aborting a task of a connection or the accept loop, aborting
    a protocol handler, closing the channel of a writer task, notifying a reader that its connection is
    ready, answering the setup request of a thread. *)
Inductive Effect :=
| EAbort (t : nat)
| EStop (t : nat)
| EClose (t : nat)
| EReady (t : nat)
| EReply (t : nat) (r : IoResult Connection).

Record Out := mkOut {
  o_node : Node;
  o_pc : Pc;
  o_spawn : list Pc;
  o_effects : list Effect;
  o_log : list Event;
}.

Record Sys := mkSys {
  node : Node;
  threads : list Pc;
  log : list Event;
}.

(** ** Helpers *)

Definition next (n : Node) (pc : Pc) : option Out := Some (mkOut n pc [] [] []).

Definition fail (e : IoError) : Outcome := RetIo (Err e).

Definition finished (ts : list Pc) (t : nat) : bool :=
  match ts !! t with Some (Done _) => true | _ => false end.

(** The hook task has concluded, or is past its last await. *)
Definition hook_over (ts : list Pc) (t : nat) : bool :=
  match ts !! t with Some (Done _) | Some (Unwind _ _) => true | _ => false end.

(** The handler task of a protocol is running.  Its channel is open until the handlers are signalled
    to wind down (the loop then closes it, and still serves what is queued), or the task is gone. *)
Definition handler_alive (ts : list Pc) (k : NodeTask) : bool :=
  existsb (λ pc, match pc with TkHandler k' => bool_decide (k' = k) | _ => false end) ts.

Definition channel_open (ts : list Pc) (n : Node) (k : NodeTask) : bool :=
  handler_alive ts k && negb (handler_signal (shutdown n)).

(** The writer tasks that are fed by the entry of [addr] in the senders map, which holds the only
    sender of their channel: dropping the entry closes it. *)
Definition fed_by (ts : list Pc) (n : Node) (addr : SocketAddr) : list nat :=
  match writing (protocols n) ≫= λ m, m !! addr with
  | Some i =>
      omap (λ t, match ts !! t with
                 | Some (TkRun Writer a j) => if bool_decide (a = addr) && (i =? j) then Some t else None
                 | _ => None
                 end) (seq 0 (length ts))
  | None => []
  end.

(** What a running task owns, in drop order. *)
Definition task_owned (k : TaskKind) (addr : SocketAddr) (conn_id : N) : list Owned :=
  match k with
  | Processing | Reader => [DDisconnect addr conn_id OriginReading]
  | Writer => [DDisconnect addr conn_id OriginWriting; DSender addr conn_id]
  | HookOnConnect => [DDisconnect addr conn_id OnConnectAbort]
  | HookOnDisconnect => []
  end.

Definition protocol_enabled (n : Node) (k : SetupProto) : bool :=
  match k with
  | StHandshake => handshake (protocols n)
  | StReading => reading (protocols n)
  | StWriting => bool_decide (is_Some (writing (protocols n)))
  end.

(** Splitting the stream after the handshake, if it is still whole. *)
Definition split_stream (c : Connection) : Connection :=
  match stream c with
  | Some s => mkConnection (id c) (info c) None (Some s) (Some s) (readiness_notifier c)
                (disconnecting c) (tasks c)
  | None => c
  end.

Definition with_halves (c : Connection) (st rd wr : option N) : Connection :=
  mkConnection (id c) (info c) st rd wr (readiness_notifier c) (disconnecting c) (tasks c).

Definition with_notifier (c : Connection) (r : option nat) : Connection :=
  mkConnection (id c) (info c) (stream c) (reader c) (writer c) r (disconnecting c) (tasks c).

(** Where [Node::enable_protocols] goes once a protocol has been applied. *)
Definition after_proto (k : SetupProto) (addr : SocketAddr) (c : Connection) (own : ConnectionSide)
  : Pc :=
  match k with
  | StHandshake => AdProto StReading addr (split_stream c) own
  | StReading => AdProto StWriting addr c own
  | StWriting => AdSched addr c own
  end.

(** What an abandoned setup owns: the (uncompleted) guard and the permit. *)
Definition abandon (addr : SocketAddr) (r : Outcome) : Pc := Unwind [DGuard addr false; DPermit] r.

Definition abort_conn (c : Connection) : list Effect := EAbort <$> abort_order c.

(** ** Steps, one definition per async function *)

(** [Node::connect_inner].  (The message of the [AddrInUse] error also spells out the address.) *)
Definition connect_inner (n : Node) (pc : Pc) (ch : Choice) : option Out :=
  match pc with
  | CnStart a =>
      if is_underway n then next n (Done (fail shutting_down_error)) else next n (CnSelf a)
  | CnSelf a =>
      if self_connect n a then next n (Done (fail (mkIoError AddrInUse
        (Message "can't connect to node's own listening address"))))
      else next n (CnDup a)
  | CnDup a =>
      if is_connected (connections n) a then
        next n (Done (fail (mkIoError AlreadyExists (Message "already connected"))))
      else next n (CnPermit a)
  | CnPermit a =>
      match try_acquire n with
      | None =>
          next (set_heuristics n (register_connect_budget_rejection (heuristics n)))
            (Done (fail (mkIoError QuotaExceeded (Message
              (fmt_limit "maximum number (" (max_connecting (config n)) ") of pending connections reached")))))
      | Some n => next n (CnReserve a)
      end
  | CnReserve a =>
      match check_and_reserve n a with
      | Err e => next n (Unwind [DPermit] (fail e))
      | Ok n => next n (CnDial a)
      end
  | CnDial a =>
      match ch with
      | GotStream sock => next n (AdNew a sock Initiator)
      | Failed e => next n (abandon a (fail e))
      | TimedOutChoice => next n (abandon a (fail (mkIoError TimedOut (Message "deadline has elapsed"))))
      | _ => None
      end
  | _ => None
  end.

(** The accept loop of [Node::start_listening]; it blocks while no permit is available. *)
Definition accept_loop (n : Node) (pc : Pc) (ch : Choice) : option Out :=
  match pc with
  | LsAccept =>
      match ch with
      | GotInbound a sock => next n (LsPermit a sock)
      | Failed e =>
          match kind e with
          | ConnectionAborted | ConnectionReset => next n LsAccept
          | _ => next (set_heuristics n (register_accept_error (heuristics n))) LsAccept
          end
      | _ => None
      end
  | LsPermit a sock =>
      match try_acquire n with
      | None => None
      | Some n => Some (mkOut n LsAccept [RqStart a sock] [] [])
      end
  | _ => None
  end.

(** [Node::handle_connection_request]. *)
Definition handle_connection_request (n : Node) (pc : Pc) : option Out :=
  match pc with
  | RqStart a sock =>
      if is_underway n then next n (Unwind [DPermit] (fail shutting_down_error))
      else next n (RqReserve a sock)
  | RqReserve a sock =>
      match check_and_reserve n a with
      | Err e =>
          next (set_heuristics n (register_inbound_rejection (heuristics n)))
            (Unwind [DPermit] (fail e))
      | Ok n => next n (AdNew a sock Responder)
      end
  | _ => None
  end.

(** [Node::adapt_stream] with [Node::enable_protocols] and the [enable_protocol!] macro; [t] is the
    running thread, [ts] all the threads. *)
Definition adapt_stream (t : nat) (ts : list Pc) (n : Node) (pc : Pc) (ch : Choice) : option Out :=
  match pc with
  | AdNew a sock own =>
      let i := sequential_conn_id n in
      Some (mkOut (set_sequential_conn_id n (wrapping_add i 1))
              (AdProto StHandshake a (new_connection i a sock (side_not own)) own) [] []
              [EvCreated i])
  | AdProto k a c own =>
      if protocol_enabled n k then Some (mkOut n (AdAwait k a own) [StRun k c t] [] [])
      else next n (after_proto k a c own)
  | AdAwait k a own =>
      match ch with
      | HandlerGone =>
          if is_underway n then next n (abandon a (fail shutting_down_error)) else None
      | _ => None
      end
  | AdSched a c own =>
      let ready := readiness_notifier c in
      let c := with_notifier c None in
      match on_connect (protocols n) with
      | Some _ => next (set_shutdown n (sched_started (shutdown n))) (AdAdd a c own ready true)
      | None => next n (AdAdd a c own ready false)
      end
  | AdAdd a c own ready sched =>
      match add_active (connections n) c (is_underway n) with
      | None =>
          next n (Unwind (DGuard a false :: DConn c :: (if sched then [DSched] else []) ++ [DPermit])
                    (fail shutting_down_error))
      | Some cs =>
          Some (mkOut (set_connections n cs) (AdGuard a (id c) own ready sched) [] [] [EvAdded (id c)])
      end
  | AdGuard a i own ready sched =>
      let '(ok, cs) := guard_drop (connections n) a true in
      Some (mkOut (set_connections n cs) (AdReady a i own ready sched) [] []
              (if ok then [] else [EvAssertFailed]))
  | AdReady a i own ready sched =>
      Some (mkOut n (AdSpawn a i own sched) []
              (match ready with Some r => [EReady r] | None => [] end) [])
  | AdSpawn a i own sched =>
      if sched then Some (mkOut n (AdJoin own (length ts)) [ScTrigger a i] [] [])
      else next n (Unwind [DPermit] (RetIo (Ok ())))
  | AdJoin own task =>
      if finished ts task then next n (Unwind [DPermit] (RetIo (Ok ()))) else None
  | _ => None
  end.

(** The error of a handshake that took the stream and did not return it. *)
Definition not_returned : IoError :=
  mkIoError OtherKind (Message "the stream was not returned during the handshake").

(** A setup that cannot proceed answers its request with an error and drops the connection. *)
Definition refuse (n : Node) (c : Connection) (e : IoError) (req : nat) : option Out :=
  Some (mkOut n (Unwind [DConn c] Dropped) [] [EReply req (Err e)] []).

(** [Handshake]'s [handle_new_connection].  A handshake that failed, panicked ([Failed] too) or
    timed out has consumed the connection, to which no task belongs yet. *)
Definition handshake_connection (n : Node) (c : Connection) (req : nat) (ch : Choice) : option Out :=
  match ch with
  | Handshaken st rd wr => next n (StReply (Ok (with_halves c st rd wr)) req)
  | Failed e => next n (StReply (Err e) req)
  | TimedOutChoice =>
      next (set_heuristics n (register_handshake_timeout (heuristics n)))
        (StReply (Err (mkIoError TimedOut NoPayload)) req)
  | _ => None
  end.

(** [Reading]'s [handle_new_connection]; a codec constructor that panics is [Failed].  [StReading1]
    and [StReading2] are the awaits on the readiness of the processing and of the reader task. *)
Definition reading_connection (ts : list Pc) (n : Node) (pc : Pc) (ch : Choice) : option Out :=
  match pc with
  | StRun StReading c req =>
      match ch with
      | Failed e => refuse n c e req
      | Go =>
          match reader c with
          | None => refuse n c not_returned req
          | Some _ =>
              Some (mkOut n (StReading1 (with_halves c (stream c) None (writer c)) (length ts) req)
                      [TkRun Processing (conn_addr c) (id c)] [] [])
          end
      | _ => None
      end
  | StReading1 c task req =>
      Some (mkOut n (StReading2 (with_notifier (push_task task c) (Some (length ts))) (length ts) req)
              [TkWaitReady (conn_addr c) (id c)] [] [])
  | StReading2 c task req => next n (StReply (Ok (push_task task c)) req)
  | _ => None
  end.

(** [adopt_writer]: the sender is published (an entry it replaces is dropped, see [fed_by]) and the
    writer task handed to the connection. *)
Definition adopt_writer (n : Node) (c : Connection) (task : nat) : Node * Connection :=
  (match writing (protocols n) with
   | Some senders => set_senders n (<[conn_addr c := id c]> senders)
   | None => n
   end, push_task task c).

(** [Writing]'s [handle_new_connection]; [StWriting1] is the await on the writer task. *)
Definition writing_connection (ts : list Pc) (n : Node) (pc : Pc) (ch : Choice) : option Out :=
  match pc with
  | StRun StWriting c req =>
      match ch with
      | Failed e => refuse n c e req
      | Go =>
          match writer c with
          | None => refuse n c not_returned req
          | Some _ =>
              Some (mkOut n (StWriting1 (with_halves c (stream c) (reader c) None) (length ts) req)
                      [TkRun Writer (conn_addr c) (id c)] [] [])
          end
      | _ => None
      end
  | StWriting1 c task req =>
      let '(n', c') := adopt_writer n c task in
      Some (mkOut n' (StReply (Ok c') req) [] (EClose <$> fed_by ts n (conn_addr c)) [])
  | _ => None
  end.

(** A setup task of one of the three setup-oriented protocols; its last action is to answer. *)
Definition handle_new_connection (ts : list Pc) (n : Node) (pc : Pc) (ch : Choice) : option Out :=
  match pc with
  | StRun StHandshake c req => handshake_connection n c req ch
  | StRun StReading _ _ | StReading1 _ _ _ | StReading2 _ _ _ => reading_connection ts n pc ch
  | StRun StWriting _ _ | StWriting1 _ _ _ => writing_connection ts n pc ch
  | StReply r req => Some (mkOut n (Done Dropped) [] [EReply req r] [])
  | _ => None
  end.

(** The scheduling task spawned by [Node::adapt_stream], with [OnConnect]'s handler loop serving
    the trigger by spawning the hook.  A trigger sent into a closed channel is dropped at once; one that
    was accepted is served unless the handler is gone before (its queue is then dropped). *)
Definition scheduling_task (ts : list Pc) (n : Node) (pc : Pc) (ch : Choice) : option Out :=
  match pc with
  | ScTrigger a i =>
      if channel_open ts n TaskOnConnect
      then Some (mkOut n (ScAwait a i) [] [] [EvOnConnect i])
      else Some (mkOut n (Unwind [DSched] Dropped) [] [] [EvSkippedOnConnect i])
  | ScAwait a i =>
      match ch with
      | Go =>
          if handler_alive ts TaskOnConnect then
            Some (mkOut n (ScAttach a i (length ts) (default true (on_connect (protocols n))))
                    [TkRun HookOnConnect a i] [] [])
          else None
      | HandlerGone =>
          if handler_alive ts TaskOnConnect then None
          else Some (mkOut n (Unwind [DSched] Dropped) [] [] [EvLostOnConnect i])
      | TimedOutChoice =>
          (* the channel is closed, the grace period passed, and the draining handler spawns the hook
             only then: unless it is to run to completion, it is aborted for want of a receiver *)
          if handler_alive ts TaskOnConnect && handler_signal (shutdown n) then
            Some (mkOut n (Unwind [DSched] Dropped) [TkRun HookOnConnect a i]
                    (if default true (on_connect (protocols n)) then [EAbort (length ts)] else []) [])
          else None
      | _ => None
      end
  | ScAttach a i task abortable =>
      if negb abortable then next n (Unwind [DSched] Dropped)
      else match attach_task n a (Some i) task with
           | Some n => next n (Unwind [DSched] Dropped)
           | None => Some (mkOut n (Unwind [DSched] Dropped) [] [EAbort task] [])
           end
  | _ => None
  end.

(** [Node::disconnect_w_origin] and [impl Drop for DisconnectFinalizer], with [OnDisconnect]'s
    handler loop serving the trigger by spawning the hook. *)
Definition disconnect_w_origin (ts : list Pc) (n : Node) (pc : Pc) (ch : Choice) : option Out :=
  match pc with
  | DsClaim a o cid =>
      match claim_disconnect n a cid with
      | None => next n (Done (RetBool false))
      | Some n' =>
          match active (connections n) !! a with
          | Some c => next n' (DsHook a (id c) o)
          | None => None
          end
      end
  | DsHook a g o =>
      if on_disconnect (protocols n) then
        if channel_open ts n TaskOnDisconnect
        then Some (mkOut n (DsAwait a g) [] [] [EvOnDisconnect g o])
        else Some (mkOut n (DsSenders a g (RetBool true)) [] [] [EvSkippedOnDisconnect g])
      else next n (DsSenders a g (RetBool true))
  | DsAwait a g =>
      match ch with
      | Go =>
          if handler_alive ts TaskOnDisconnect
          then Some (mkOut n (DsPush a g (length ts)) [TkRun HookOnDisconnect a g] [] [])
          else None
      | HandlerGone =>
          if handler_alive ts TaskOnDisconnect then None
          else Some (mkOut n (DsSenders a g (RetBool true)) [] [] [EvLostOnDisconnect g])
      | TimedOutChoice =>
          (* likewise; the hook is then aborted for want of a receiver *)
          if handler_alive ts TaskOnDisconnect && handler_signal (shutdown n) then
            Some (mkOut n (DsSenders a g (RetBool true)) [TkRun HookOnDisconnect a g]
                    [EAbort (length ts)] [])
          else None
      | _ => None
      end
  | DsPush a g task =>
      match attach_task n a None task with
      | Some n => next n (DsWait a g task)
      | None => Some (mkOut n (DsWait a g task) [] [EAbort task] [EvAssertFailed])
      end
  | DsWait a g task => if hook_over ts task then next n (DsSenders a g (RetBool true)) else None
  | DsSenders a g r =>
      Some (mkOut (finalizer_senders n a) (DsRemove a g r) [] (EClose <$> fed_by ts n a) [])
  | DsRemove a g r =>
      let '(ok, conn, n) := finalizer_remove n a in
      match conn with
      | Some c =>
          Some (mkOut n (DsDrop c r) [] [] (EvRemoved (id c) :: (if ok then [] else [EvAssertFailed])))
      | None =>
          Some (mkOut n (Done r) [] [] (if ok then [] else [EvAssertFailed]))
      end
  | DsDrop c r => Some (mkOut n (Done r) [] (abort_conn c) [])
  | _ => None
  end.

Definition all_finished (ts : list Pc) (l : list nat) : bool := forallb (finished ts) l.

Definition handler_kinds : list NodeTask :=
  [TaskHandshake; TaskReading; TaskWriting; TaskOnConnect; TaskOnDisconnect].

(** [Node::shut_down], with [wait_for_drain] written out twice: for the active connections and for
    the [OnConnect] scheduling tasks ([ShutdownState::wait_sched_drained]). *)
Definition shut_down (ts : list Pc) (n : Node) (pc : Pc) : option Out :=
  match pc with
  | SdBegin => next (set_shutdown n (begin (shutdown n))) SdTake
  | SdTake =>
      let hs := omap (λ k, node_tasks n !! k) handler_kinds in
      Some (mkOut (set_node_tasks n ∅) (SdSnapshot hs) []
              (match node_tasks n !! TaskListener with Some l => [EAbort l] | None => [] end) [])
  | SdSnapshot hs =>
      let ds := addrs (connections n) in
      Some (mkOut n (SdFan hs (seq (length ts) (length ds)))
              ((λ a, DsClaim a OriginShutdown None) <$> ds) [] [])
  | SdFan hs ds => if all_finished ts ds then next n (SdRegister hs) else None
  | SdRegister hs => next n (SdCheck hs (drain_notify (connections n)))
  | SdCheck hs g =>
      if bool_decide (active (connections n) = ∅) then next n (SdSchedRegister hs)
      else next n (SdPark hs g)
  | SdPark hs g => if drain_notify (connections n) =? g then None else next n (SdRegister hs)
  | SdSchedRegister hs => next n (SdSchedCheck hs (sched_drained (shutdown n)))
  | SdSchedCheck hs g =>
      if sched_in_flight (shutdown n) =? 0 then next n (SdSignal hs) else next n (SdSchedPark hs g)
  | SdSchedPark hs g =>
      if sched_drained (shutdown n) =? g then None else next n (SdSchedRegister hs)
  | SdSignal hs => next (set_shutdown n (signal_handlers (shutdown n))) (SdJoin hs)
  | SdJoin hs => Some (mkOut n SdClear [] (EStop <$> hs) [])
  | SdClear => next (set_listening_addr n None) (Done Dropped)
  | _ => None
  end.

(** The task [enable_on_connect]'s handler spawns: the hook ran through, which defuses the
    [DisconnectOnDrop], or it panicked. *)
Definition on_connect_hook (n : Node) (a : SocketAddr) (i : N) (ch : Choice) : option Out :=
  match ch with
  | Go => next n (Unwind [] Dropped)
  | _ => next n (Unwind (task_owned HookOnConnect a i) Dropped)
  end.

(** The task [enable_on_disconnect]'s handler spawns: whether the hook ran through, panicked or
    timed out, its completion is observed. *)
Definition on_disconnect_hook (n : Node) (a : SocketAddr) (i : N) : option Out :=
  next n (Unwind (task_owned HookOnDisconnect a i) Dropped).

(** One turn of the loop of a connection's task, as far as the node sees it: the reader has decoded a
    message ([bytes] long), the processing task has handled one, the writer has written a batch.  (What
    happens inside a turn is modelled in [Reading] and [Writing].) *)
Definition serve (n : Node) (k : TaskKind) (msgs bytes : N) : option Node :=
  match k with
  | Reader => Some (set_stats n (register_received_message bytes (stats n)))
  | Processing => Some n
  | Writer => Some (set_stats n (register_sent_messages msgs bytes (stats n)))
  | HookOnConnect | HookOnDisconnect => None
  end.

(** A running task goes through its loop once more, or concludes: the peer closed the stream, a codec
    or a hook failed or panicked, a timeout fired, a channel closed. *)
Definition run_task (n : Node) (pc : Pc) (ch : Choice) : option Out :=
  match pc with
  | TkRun k a i =>
      match k, ch with
      | _, Served m b => match serve n k m b with Some n' => next n' (TkRun k a i) | None => None end
      | HookOnConnect, _ => on_connect_hook n a i ch
      | HookOnDisconnect, _ => on_disconnect_hook n a i
      | Reader, TimedOutChoice =>
          next (set_heuristics n (register_idle_timeout (heuristics n))) (Unwind (task_owned k a i) Dropped)
      | Writer, TimedOutChoice =>
          next (set_heuristics n (register_write_timeout (heuristics n))) (Unwind (task_owned k a i) Dropped)
      | _, _ => next n (Unwind (task_owned k a i) Dropped)
      end
  | TkWaitReady a i => next n (Unwind [] Dropped)
  | _ => None
  end.

(** Leaving scope: the first owned object is dropped. *)
Definition unwind (n : Node) (pc : Pc) : option Out :=
  match pc with
  | Unwind [] r => next n (Done r)
  | Unwind (d :: ds) r =>
      match d with
      | DGuard a completed =>
          let '(ok, cs) := guard_drop (connections n) a completed in
          Some (mkOut (set_connections n cs) (Unwind ds r) [] [] (if ok then [] else [EvAssertFailed]))
      | DConn c => Some (mkOut n (Unwind ds r) [] (abort_conn c) [])
      | DSched => next (set_shutdown n (sched_finished (shutdown n))) (Unwind ds r)
      | DPermit => next (release_permit n) (Unwind ds r)
      | DDisconnect a i o =>
          Some (mkOut n (Unwind ds r) (if needs_recovery n a i then [DsClaim a o (Some i)] else []) [] [])
      | DSender a i =>
          match writing (protocols n) with
          | Some senders => next (set_senders n (sender_cleanup senders a i)) (Unwind ds r)
          | None => next n (Unwind ds r)
          end
      end
  | _ => None
  end.

(** One step of thread [t]. *)
Definition thread_step (t : nat) (ts : list Pc) (n : Node) (pc : Pc) (ch : Choice) : option Out :=
  match pc with
  | CnStart _ | CnSelf _ | CnDup _ | CnPermit _ | CnReserve _ | CnDial _ => connect_inner n pc ch
  | LsAccept | LsPermit _ _ => accept_loop n pc ch
  | RqStart _ _ | RqReserve _ _ => handle_connection_request n pc
  | AdNew _ _ _ | AdProto _ _ _ _ | AdAwait _ _ _ | AdSched _ _ _ | AdAdd _ _ _ _ _
  | AdGuard _ _ _ _ _ | AdReady _ _ _ _ _ | AdSpawn _ _ _ _ | AdJoin _ _ =>
      adapt_stream t ts n pc ch
  | StRun _ _ _ | StReading1 _ _ _ | StReading2 _ _ _ | StWriting1 _ _ _ | StReply _ _ =>
      handle_new_connection ts n pc ch
  | ScTrigger _ _ | ScAwait _ _ | ScAttach _ _ _ _ => scheduling_task ts n pc ch
  | DsClaim _ _ _ | DsHook _ _ _ | DsAwait _ _ | DsPush _ _ _ | DsWait _ _ _ | DsSenders _ _ _
  | DsRemove _ _ _ | DsDrop _ _ => disconnect_w_origin ts n pc ch
  | SdBegin | SdTake | SdSnapshot _ | SdFan _ _ | SdRegister _ | SdCheck _ _ | SdPark _ _
  | SdSchedRegister _ | SdSchedCheck _ _ | SdSchedPark _ _ | SdSignal _ | SdJoin _ | SdClear =>
      shut_down ts n pc
  | TkWaitReady _ _ | TkRun _ _ _ => run_task n pc ch
  | TkHandler _ => None
  | Unwind _ _ => unwind n pc
  | Done _ => None
  end.

(** Dropping a future at an await.  Only what user code drives can be dropped this way: an outbound
    [connect], a [disconnect] (before its first poll, or at one of its awaits, when the finalizer
    still runs), a [shut_down]; and, once a shutdown has begun, the setup tasks (they live in the
    handlers' [JoinSet]s).  The disconnects a dropped [shut_down] had fanned out may go on here;
    that they are dropped with it is the case in which they never run again. *)
Definition cancel (n : Node) (pc : Pc) : option Out :=
  match pc with
  | CnSelf _ => next n (Done Dropped)
  | CnDial a | AdAwait _ a Initiator => next n (abandon a Dropped)
  | AdProto _ a c Initiator | AdSched a c Initiator =>
      next n (Unwind [DConn c; DGuard a false; DPermit] Dropped)
  | AdJoin Initiator _ => next n (Unwind [DPermit] Dropped)
  | StRun _ c _ | StReading1 c _ _ | StReading2 c _ _ | StWriting1 c _ _ =>
      if is_underway n then next n (Unwind [DConn c] Dropped) else None
  | DsClaim _ OriginUser _ => next n (Done Dropped)
  | DsHook a g _ | DsAwait a g | DsPush a g _ | DsWait a g _ => next n (DsSenders a g Abandoned)
  | SdFan hs _ | SdPark hs _ | SdSchedPark hs _ | SdJoin hs =>
      Some (mkOut n (Done Dropped) [] (EStop <$> hs) [])
  | SdClear => next n (Done Dropped)
  | _ => None
  end.

(** ** The system *)

(** [JoinHandle::abort]: a running task is dropped at its next await.  (The handles of the protocol
    handlers are kept apart from all others, in [Node]'s task registry; [stopped] aborts those.) *)
Definition aborted (pc : Pc) : Pc :=
  match pc with
  | TkRun k a i => Unwind (task_owned k a i) Dropped
  | TkWaitReady _ _ | LsAccept | LsPermit _ _ => Unwind [] Dropped
  | _ => pc
  end.

Definition stopped (pc : Pc) : Pc := match pc with TkHandler _ => Unwind [] Dropped | _ => pc end.

(** A writer task whose channel is closed and drained leaves its loop. *)
Definition channel_closed (pc : Pc) : Pc :=
  match pc with TkRun Writer a i => Unwind (task_owned Writer a i) Dropped | _ => pc end.

Definition abort_thread (t : nat) (ts : list Pc) : list Pc := alter aborted t ts.

Definition ready_thread (t : nat) (ts : list Pc) : list Pc :=
  alter (λ pc, match pc with TkWaitReady a i => TkRun Reader a i | _ => pc end) t ts.

(** The answer to a setup request; if nobody awaits it any more, the connection it carries is
    dropped and its tasks are aborted. *)
Definition reply_thread (t : nat) (r : IoResult Connection) (ts : list Pc) : list Pc :=
  match ts !! t, r with
  | Some (AdAwait k a own), Ok c => <[t := after_proto k a c own]> ts
  | Some (AdAwait k a own), Err e => <[t := abandon a (fail e)]> ts
  | _, Ok c => foldl (λ ts t, abort_thread t ts) ts (abort_order c)
  | _, Err _ => ts
  end.

Definition apply_effect (ts : list Pc) (e : Effect) : list Pc :=
  match e with
  | EAbort t => abort_thread t ts
  | EStop t => alter stopped t ts
  | EClose t => alter channel_closed t ts
  | EReady t => ready_thread t ts
  | EReply t r => reply_thread t r ts
  end.

Definition apply_out (t : nat) (o : Out) (s : Sys) : Sys :=
  mkSys (o_node o)
    (foldl apply_effect (<[t := o_pc o]> (threads s) ++ o_spawn o) (o_effects o))
    (o_log o ++ log s).

(** The protocols a user can enable, with the associated constants that matter here: the
    [MESSAGE_QUEUE_DEPTH] of Reading and Writing and the [ABORTABLE] of OnConnect. *)
Inductive Enable :=
| EnHandshake
| EnReading (depth : nat)
| EnWriting (depth : nat)
| EnOnConnect (abortable : bool)
| EnOnDisconnect.

Definition enable_kind (e : Enable) : NodeTask :=
  match e with
  | EnHandshake => TaskHandshake
  | EnReading _ => TaskReading
  | EnWriting _ => TaskWriting
  | EnOnConnect _ => TaskOnConnect
  | EnOnDisconnect => TaskOnDisconnect
  end.

Definition enabled (p : Protocols) (e : Enable) : bool :=
  match e with
  | EnHandshake => handshake p
  | EnReading _ => reading p
  | EnWriting _ => bool_decide (is_Some (writing p))
  | EnOnConnect _ => bool_decide (is_Some (on_connect p))
  | EnOnDisconnect => on_disconnect p
  end.

(** Publishing a handler in its slot. *)
Definition set_enabled (p : Protocols) (e : Enable) : Protocols :=
  match e with
  | EnHandshake => mkProtocols true (reading p) (writing p) (on_connect p) (on_disconnect p)
  | EnReading _ => mkProtocols (handshake p) true (writing p) (on_connect p) (on_disconnect p)
  | EnWriting _ => mkProtocols (handshake p) (reading p) (Some ∅) (on_connect p) (on_disconnect p)
  | EnOnConnect ab => mkProtocols (handshake p) (reading p) (writing p) (Some ab) (on_disconnect p)
  | EnOnDisconnect => mkProtocols (handshake p) (reading p) (writing p) (on_connect p) true
  end.

(** [install_protocol_handler] ([protocols/mod.rs]): enabling twice panics (no step); a node that
    is shutting down leaves the protocol unenabled. *)
Definition install_protocol_handler (e : Enable) (s : Sys) : option Sys :=
  let n := node s in
  if enabled (protocols n) e then None
  else match register_task n (enable_kind e) (length (threads s)) with
       | Err _ => Some (mkSys n (threads s ++ [Unwind [] Dropped]) (log s))
       | Ok (_, n) =>
           Some (mkSys (set_protocols n (set_enabled (protocols n) e))
                   (threads s ++ [TkHandler (enable_kind e)]) (log s))
       end.

(** [enable_handshake], [enable_reading], [enable_writing], [enable_on_connect],
    [enable_on_disconnect]; a zero queue depth panics (no step). *)
Definition enable_handshake (s : Sys) : option Sys := install_protocol_handler EnHandshake s.
Definition enable_reading (depth : nat) (s : Sys) : option Sys :=
  if bool_decide (depth = 0%nat) then None else install_protocol_handler (EnReading depth) s.
Definition enable_writing (depth : nat) (s : Sys) : option Sys :=
  if bool_decide (depth = 0%nat) then None else install_protocol_handler (EnWriting depth) s.
Definition enable_on_connect (abortable : bool) (s : Sys) : option Sys :=
  install_protocol_handler (EnOnConnect abortable) s.
Definition enable_on_disconnect (s : Sys) : option Sys := install_protocol_handler EnOnDisconnect s.

Definition enable_protocol (e : Enable) (s : Sys) : option Sys :=
  match e with
  | EnHandshake => enable_handshake s
  | EnReading depth => enable_reading depth s
  | EnWriting depth => enable_writing depth s
  | EnOnConnect abortable => enable_on_connect abortable s
  | EnOnDisconnect => enable_on_disconnect s
  end.

(** Labels: a thread runs or is dropped, the user calls an operation, or another node of the same
    process draws an id from [SEQUENTIAL_CONN_ID].  A [toggle_listener] that ends up registering its
    accept loop is one step ([ToggleListener]: it holds the write guard on the listening address
    throughout, so nothing else sees the loop before that); one that is dropped or refused between
    the spawn and the registration leaves a loop that runs for a while ([StrayListener]) until its
    [UnregisteredTask] guard aborts it ([DropStray]). *)
Inductive Label :=
| Run (t : nat) (ch : Choice)
| Cancel (t : nat)
| Connect (addr : SocketAddr)
| Disconnect (addr : SocketAddr)
| ShutDown
| ToggleListener (os : BindOutcome)
| StrayListener
| DropStray (t : nat)
| EnableProtocol (e : Enable)
| ForeignId.

Definition spawn (pc : Pc) (s : Sys) : Sys := mkSys (node s) (threads s ++ [pc]) (log s).

Definition step (l : Label) (s : Sys) : option Sys :=
  match l with
  | Run t ch =>
      pc ← threads s !! t;
      o ← thread_step t (threads s) (node s) pc ch;
      Some (apply_out t o s)
  | Cancel t =>
      pc ← threads s !! t;
      o ← cancel (node s) pc;
      Some (apply_out t o s)
  | Connect a => Some (spawn (CnStart a) s)
  | Disconnect a => Some (spawn (DsClaim a OriginUser None) s)
  | ShutDown => Some (spawn SdBegin s)
  | ToggleListener os =>
      let tg := toggle_listener (node s) os (length (threads s)) in
      let ts := if tg_spawned tg then threads s ++ [LsAccept] else threads s in
      Some (mkSys (tg_node tg)
              (match tg_aborted tg with Some t => abort_thread t ts | None => ts end) (log s))
  | StrayListener =>
      if bool_decide (listening_addr (node s) = None) then Some (spawn LsAccept s) else None
  | DropStray t =>
      if bool_decide (node_tasks (node s) !! TaskListener = Some t) then None
      else match threads s !! t with
           | Some LsAccept | Some (LsPermit _ _) => Some (mkSys (node s) (abort_thread t (threads s)) (log s))
           | _ => None
           end
  | ForeignId =>
      let i := sequential_conn_id (node s) in
      Some (mkSys (set_sequential_conn_id (node s) (wrapping_add i 1)) (threads s)
              (EvForeignId i :: log s))
  | EnableProtocol e => enable_protocol e s
  end.

(** A run: the labels in order; [None] if one of them is not enabled. *)
Fixpoint run (ls : list Label) (s : Sys) : option Sys :=
  match ls with
  | [] => Some s
  | l :: ls => s ← step l s; run ls s
  end.

Definition init_sys (n : Node) : Sys := mkSys n [] [].

(** The states reachable from a freshly constructed node with configuration [c]. *)
Inductive reachable (c : Config) : Sys → Prop :=
| reach_init seq_id now conn_id seq_id' n :
    conn_id < u64_max → new_node seq_id now conn_id c = inr (seq_id', n) → reachable c (init_sys n)
| reach_step s l s' : reachable c s → step l s = Some s' → reachable c s'.
