(* ===== verification/Scenario.v ===== *)
(** * A concrete run

    A node with every protocol enabled dials a peer and serves an inbound connection while the
    first one is being torn down.  The states of this run show that the hypotheses of the theorems
    about reachable states are satisfiable, with every kind of bookkeeping in use at once. *)

From S2P Require Import Prelude Net Config Stats Connections Node Tasks.

Open Scope N_scope.

Lemma run_reachable c ls s s' : reachable c s → run ls s = Some s' → reachable c s'.
Proof.
  revert s. induction ls as [|l ls IH]; intros s Hr H; simplify_eq/=; [done|].
  destruct (step l s) as [s1|] eqn:E; simplify_eq/=. eapply IH; [|done]. by eapply reach_step.
Qed.

Lemma run_app ls1 ls2 s : run (ls1 ++ ls2) s = s' ← run ls1 s; run ls2 s'.
Proof.
  revert s. induction ls1 as [|l ls IH]; intros s; simpl; [done|].
  destruct (step l s); simpl; [apply IH|done].
Qed.

(** The state a run leads to from a freshly constructed node. *)
Definition demo_config : Config := default_config true.

Definition demo_node : Node :=
  match new_node 0 0 0 demo_config with
  | inr (_, n) => n
  | inl _ => mkNode demo_config None default_protocols default_connections 0 (default_stats 0)
               default_heuristics ∅ default_shutdown 0
  end.

Definition after (ls : list Label) : Sys := default (init_sys demo_node) (run ls (init_sys demo_node)).

Lemma after_reachable ls : is_Some (run ls (init_sys demo_node)) → reachable demo_config (after ls).
Proof.
  intros [s Hs]. unfold after. rewrite Hs. simpl. eapply run_reachable; [|done].
  by apply (reach_init demo_config 0 0 0 1).
Qed.

Definition peer (h p : N) : SocketAddr := socket_addr (V4 (ipv4 10 0 0 h)) p.
Definition steps (k t : nat) : list Label := replicate k (Run t Go).

(** Threads 0 to 4 are the protocol handlers, 5 is the accept loop. *)
Definition run_enable : list Label :=
  [EnableProtocol EnHandshake; EnableProtocol (EnReading 64); EnableProtocol (EnWriting 64);
   EnableProtocol (EnOnConnect true); EnableProtocol EnOnDisconnect; ToggleListener (Bound 5000)].

(** Thread 6 dials; 7, 8 and 11 run the handshake and the reading and writing setups. *)
Definition run_dial : list Label :=
  Connect (peer 1 4000) :: steps 5 6 ++ [Run 6 (GotStream 1)] ++ steps 2 6 ++
  [Run 7 (Handshaken (Some 1) None None)] ++ steps 1 7 ++ steps 1 6 ++ steps 4 8 ++
  steps 1 6 ++ steps 3 11.

(** The connection becomes active, and thread 13 schedules [OnConnect] (thread 14). *)
Definition run_add : list Label := steps 5 6 ++ steps 5 13 ++ steps 3 6.

(** Thread 15 sets an inbound connection up, while thread 16 disconnects from the first peer and
    waits for its [OnDisconnect] hook (thread 17). *)
Definition run_busy : list Label :=
  [Run 5 (GotInbound (peer 2 4001) 2)] ++ steps 1 5 ++ steps 3 15 ++
  [Disconnect (peer 1 4000)] ++ steps 4 16.

Definition demo_up : Sys := after (run_enable ++ run_dial ++ run_add).
Definition demo_busy : Sys := after (run_enable ++ run_dial ++ run_add ++ run_busy).

Lemma demo_up_reachable : reachable demo_config demo_up.
Proof. apply after_reachable. vm_compute. eauto. Qed.

Lemma demo_busy_reachable : reachable demo_config demo_busy.
Proof. apply after_reachable. vm_compute. eauto. Qed.

(** An inbound request (thread 6) holding its permit, before and after it reserves. *)
Definition run_inbound : list Label :=
  run_enable ++ [Run 5 (GotInbound (peer 2 4001) 2)] ++ steps 1 5 ++ steps 1 6.
Definition demo_inbound : Sys := after run_inbound.
Definition demo_reserved : Sys := after (run_inbound ++ steps 1 6).

Lemma demo_inbound_reachable : reachable demo_config demo_inbound.
Proof. apply after_reachable. vm_compute. eauto. Qed.
