(* ===== verification/Admission.v ===== *)
(** * Admission control and the listener

    Sequential behaviour of the operations of [pea2pea/src/node.rs] that decide whether the node
    takes on work: [Node::new], [Node::check_and_reserve], the refusals during a shutdown, and
    [Node::toggle_listener]. *)

From S2P Require Import Prelude Net Config Stats Connections Node Tasks Scenario.

Open Scope N_scope.

(** [Node::new] rejects exactly the configurations with a zero limit; from any other one it
    builds a node without connections whose configuration has a name, the given connection limits
    and a connection-setup budget clamped to [max_connections], all of it available as permits. *)
Theorem new_node_validates seq_id now conn_id c :
  (max_connections c = 0 ∨ max_connections_per_ip c = 0 ∨ max_connecting c = 0 →
     ∃ msg, new_node seq_id now conn_id c = inl msg) ∧
  (max_connections c ≠ 0 ∧ max_connections_per_ip c ≠ 0 ∧ max_connecting c ≠ 0 →
     ∃ seq_id' n, new_node seq_id now conn_id c = inr (seq_id', n) ∧ config_ok (config n) ∧
       max_connections (config n) = max_connections c ∧
       max_connections_per_ip (config n) = max_connections_per_ip c ∧
       max_connecting (config n) = N.min (max_connecting c) (max_connections c) ∧
       connecting_permits n = max_connecting (config n) ∧
       connections n = default_connections ∧ is_underway n = false).
Proof.
  unfold new_node. destruct (admit_config seq_id c) as [msg|[seq_id' c']] eqn:E.
  - split; [by eauto|]. intros (H1&H2&H3). unfold admit_config in E.
    rewrite <-N.eqb_neq in H1, H2, H3. rewrite H1, H2, H3 in E. by destruct (name c).
  - pose proof (admit_config_ok _ _ _ _ E) as [? ? ? ? ?].
    destruct (admit_config_limits _ _ _ _ E) as (?&?&?&?). split; [lia|].
    intros _. exists seq_id'. eexists. split_and!; [done|by split|done..].
Qed.

Lemma new_node_validates_witness :
  ∃ seq_id' n, new_node 0 0 0 (default_config false) = inr (seq_id', n) ∧ connecting_permits n = 100.
Proof.
  destruct (proj2 (new_node_validates 0 0 0 (default_config false)) ltac:(by vm_compute))
    as (q&n&E&_&_&_&Hm&Hp&_).
  exists q, n. split; [exact E|]. by rewrite Hp, Hm.
Defined.

(** The outcome of the admission checks, in the order in which they are made. *)
Inductive Verdict := Admit | Connected | PerIpLimit | PendingLimit | TotalLimit | Connecting.

Definition verdict (n : Node) (a : SocketAddr) : Verdict :=
  let l := limits (connections n) in
  let pend := N.of_nat (size (connecting l)) in
  if decide (is_Some (active (connections n) !! a)) then Connected
  else if decide (max_connections_per_ip (config n) ≤ bucket l (canonical_ip a)) then PerIpLimit
  else if decide (max_connecting (config n) ≤ pend) then PendingLimit
  else if decide (max_connections (config n) ≤ num_connected (connections n) + pend) then TotalLimit
  else if decide (a ∈ connecting l) then Connecting
  else Admit.

(** C26. [check_and_reserve] decides by the first check that fails, with the documented error kind,
    and changes nothing when it refuses; when it admits, it marks the address as connecting, charges
    one connection to the IP address, and touches nothing else. *)
Theorem check_and_reserve_decides n a :
  match verdict n a, check_and_reserve n a with
  | Admit, Ok n' =>
      active (connections n') = active (connections n) ∧
      connecting (limits (connections n')) = {[a]} ∪ connecting (limits (connections n)) ∧
      (∀ i, bucket (limits (connections n')) i =
            bucket (limits (connections n)) i + (if decide (canonical_ip a = i) then 1 else 0)) ∧
      n' = set_connections n (connections n')
  | Connected, Err e | Connecting, Err e => kind e = AlreadyExists ∧ caused e = false
  | (PerIpLimit | PendingLimit | TotalLimit), Err e => kind e = QuotaExceeded ∧ caused e = false
  | _, _ => False
  end.
Proof.
  unfold verdict, check_and_reserve, is_connected. rewrite ip_count_bucket.
  destruct (decide (is_Some (active (connections n) !! a)));
    [by rewrite bool_decide_eq_true_2|rewrite bool_decide_eq_false_2 by done].
  repeat match goal with
  | |- context [?x <=? ?y] => destruct (N.leb_spec x y), (decide (x ≤ y)); try lia; [done|]
  end.
  destruct (decide (a ∈ connecting (limits (connections n))));
    [by rewrite bool_decide_eq_true_2|rewrite bool_decide_eq_false_2 by done].
  simpl. split_and!; try done. intros i. apply reserve_bucket.
Qed.

(** Rolling a reservation back restores the accounting exactly: a reservation that is admitted
    and whose guard is dropped without having been completed leaves [connecting] and every IP bucket
    as they were. *)
Theorem reservation_rollback n a n' :
  buckets_ok (limits (connections n)) → check_and_reserve n a = Ok n' →
  guard_drop (connections n') a false = (true, connections n).
Proof.
  intros Hb (_&Ha&_&_&_&->)%check_and_reserve_inv. unfold guard_drop, clear_connecting. simpl.
  pose proof (release_reserve (limits (connections n)) a Hb) as R. unfold release_ip in *. simpl in *.
  rewrite lookup_insert_eq in *. simplify_eq/=. f_equal.
  destruct (connections n) as [act [con ips] dn]. simpl in *. unfold set_limits. simpl. do 2 f_equal; [|congruence].
  apply set_eq. intros x. destruct (decide (x = a)); set_solver.
Qed.

Lemma reservation_rollback_witness :
  ∃ seq n n', new_node 0 0 0 (default_config true) = inr (seq, n) ∧
    check_and_reserve n (SockV4 7 8) = Ok n' ∧ guard_drop (connections n') (SockV4 7 8) false = (true, connections n).
Proof.
  eexists _, _, _. split; [reflexivity|]. split; [vm_compute; reflexivity|].
  eapply reservation_rollback; [|vm_compute; reflexivity]. intros i k E.
  exfalso. revert E. by vm_compute.
Defined.

(** Once a shutdown is under way nothing new is admitted, and every refusal is recognisable:
    dials and inbound requests end with an error that [ShuttingDown::caused] recognises, no task can
    be registered, and the listener cannot be switched on. *)
Theorem shutdown_refuses n :
  is_underway n = true →
  (∀ a ch, ∃ e, connect_inner n (CnStart a) ch = next n (Done (fail e)) ∧ caused e = true) ∧
  (∀ a sock, ∃ e, handle_connection_request n (RqStart a sock) = next n (Unwind [DPermit] (fail e)) ∧ caused e = true) ∧
  (∀ k t, ∃ e, register_task n k t = Err e ∧ caused e = true) ∧
  (∀ os t a, tg_result (toggle_listener n os t) ≠ Ok (Some a)).
Proof.
  intros Hu. simpl. rewrite Hu. split_and!; intros.
  - by eexists.
  - by eexists.
  - unfold register_task. rewrite Hu. by eexists.
  - unfold toggle_listener, register_task. rewrite Hu. by repeat case_match.
Qed.

Lemma shutdown_refuses_witness :
  ∃ seq n, new_node 0 0 0 (default_config true) = inr (seq, n) ∧
    ∀ k t, ∃ e, register_task (set_shutdown n (begin (shutdown n))) k t = Err e ∧ caused e = true.
Proof.
  eexists _, _. split; [reflexivity|]. eapply shutdown_refuses. reflexivity.
Defined.

(** The listener's address and its task go together; [shut_down] takes the task first. *)
Definition listener_consistent (n : Node) : Prop :=
  is_underway n = false → is_Some (listening_addr n) ↔ is_Some (node_tasks n !! TaskListener).

(** [toggle_listener] keeps the listening address and the listening task together, and toggling
    twice is a round trip: a listener that could be started is reported at its configured IP address
    and actual port, and the second toggle stops that very task and restores the node. *)
Theorem toggle_listener_round_trip n p t la :
  is_underway n = false → listener_consistent n → listening_addr n = None →
  listener_addr (config n) = Some la →
  let on := toggle_listener n (Bound p) t in
  let off := toggle_listener (tg_node on) (Bound p) (S t) in
  tg_result on = Ok (Some (socket_addr (ip la) p)) ∧ tg_spawned on = true ∧ tg_aborted on = None ∧
  listener_consistent (tg_node on) ∧
  tg_result off = Ok None ∧ tg_spawned off = false ∧ tg_aborted off = Some t ∧ tg_node off = n.
Proof.
  intros Hu Hc Hn Hla. unfold toggle_listener at 1 2. rewrite Hn, Hla. unfold register_task. rewrite Hu.
  specialize (Hc Hu). rewrite Hn in Hc.
  assert (Ht : node_tasks n !! TaskListener = None).
  { apply eq_None_not_Some. intros Hs%Hc. by destruct Hs. }
  cbn [tg_result tg_spawned tg_aborted tg_node]. unfold toggle_listener. simpl.
  rewrite lookup_insert_eq. simpl. split_and!; try done.
  - intros _. simpl. rewrite lookup_insert_eq. split; intros; by eexists.
  - destruct n; simpl in *. rewrite delete_insert_id by done. by subst.
Qed.

Lemma toggle_listener_round_trip_witness :
  tg_result (toggle_listener demo_node (Bound 4242) 0) = Ok (Some (SockV4 (ipv4 127 0 0 1) 4242)) ∧
  tg_node (toggle_listener (tg_node (toggle_listener demo_node (Bound 4242) 0)) (Bound 4242) 1) = demo_node.
Proof.
  destruct (toggle_listener_round_trip demo_node 4242 0 (SockV4 (ipv4 127 0 0 1) 0)) as (H1&_&_&_&_&_&_&H2);
    [by vm_compute| |by vm_compute|by vm_compute|split; [exact H1|exact H2]].
  intros _. split; intros []; by vm_compute in *.
Defined.
