(* ===== verification/Ownership.v ===== *)
(** * What the node's tasks own

    Views of a program counter of [Tasks.v] (the reservations, permits, scheduling guards and claims
    a thread owns), how the steps of the system change them, and the first invariant: a connection
    that is being set up keeps the address it was created for and is not being disconnected. *)

From S2P Require Import Prelude Net Config Stats Connections Node Tasks.

Open Scope N_scope.

(** ** What a thread owns *)

(** The reservations ([ConnectionGuard]s) a thread owns, with their [completed] flag. *)
Definition owned_guard (d : Owned) : option (SocketAddr * bool) :=
  match d with DGuard a b => Some (a, b) | _ => None end.

Definition guards_of (pc : Pc) : list (SocketAddr * bool) :=
  match pc with
  | CnDial a | AdNew a _ _ | AdProto _ a _ _ | AdAwait _ a _ | AdSched a _ _ | AdAdd a _ _ _ _ =>
      [(a, false)]
  | AdGuard a _ _ _ _ => [(a, true)]
  | Unwind ds _ => omap owned_guard ds
  | _ => []
  end.

Definition guard_at (a : SocketAddr) (g : SocketAddr * bool) : bool := bool_decide (g.1 = a).
Definition pending_at (a : SocketAddr) (g : SocketAddr * bool) : bool :=
  bool_decide (g.1 = a) && negb g.2.
Definition charged_to (i : IpAddr) (g : SocketAddr * bool) : bool :=
  bool_decide (canonical_ip g.1 = i) && negb g.2.
Definition uncompleted (g : SocketAddr * bool) : bool := negb g.2.

Definition n_guards (a : SocketAddr) (pc : Pc) : nat := countb (guard_at a) (guards_of pc).
Definition n_pending (a : SocketAddr) (pc : Pc) : nat := countb (pending_at a) (guards_of pc).
Definition n_charges (i : IpAddr) (pc : Pc) : nat := countb (charged_to i) (guards_of pc).
Definition n_setups (pc : Pc) : nat := countb uncompleted (guards_of pc).

(** The connection-setup permits a thread owns. *)
Definition owned_permit (d : Owned) : bool := match d with DPermit => true | _ => false end.

Definition n_permits (pc : Pc) : nat :=
  match pc with
  | CnReserve _ | CnDial _ | RqStart _ _ | RqReserve _ _ | AdNew _ _ _ | AdProto _ _ _ _
  | AdAwait _ _ _ | AdSched _ _ _ | AdAdd _ _ _ _ _ | AdGuard _ _ _ _ _ | AdReady _ _ _ _ _
  | AdSpawn _ _ _ _ | AdJoin _ _ => 1
  | Unwind ds _ => countb owned_permit ds
  | _ => 0
  end%nat.

(** The [SchedulingGuard]s a thread owns. *)
Definition owned_sched (d : Owned) : bool := match d with DSched => true | _ => false end.

Definition n_scheds (pc : Pc) : nat :=
  match pc with
  | AdAdd _ _ _ _ s | AdGuard _ _ _ _ s | AdReady _ _ _ _ s | AdSpawn _ _ _ s => b2n s
  | ScTrigger _ _ | ScAwait _ _ | ScAttach _ _ _ _ => 1
  | Unwind ds _ => countb owned_sched ds
  | _ => 0
  end%nat.

(** The disconnect a thread has claimed: the address and the id of the claimed connection. *)
Definition claim_of (pc : Pc) : option (SocketAddr * N) :=
  match pc with
  | DsHook a g _ | DsAwait a g | DsPush a g _ | DsWait a g _ | DsSenders a g _ | DsRemove a g _ =>
      Some (a, g)
  | _ => None
  end.

Definition n_claims (a : SocketAddr) (pc : Pc) : nat :=
  match claim_of pc with Some (a', _) => b2n (bool_decide (a' = a)) | None => 0%nat end.

(** ** Lifting a thread's step to the system *)

(** A view of a program counter that being aborted or notified does not change. *)
Class Passive {B} (f : Pc → B) : Prop := {
  neutral_aborted pc : f (aborted pc) = f pc;
  neutral_stopped k : f (Unwind [] Dropped) = f (TkHandler k);
  neutral_ready a i : f (TkRun Reader a i) = f (TkWaitReady a i);
}.

(** A view that no effect of another thread can change, the answer to a setup request included. *)
Class Neutral {B} (f : Pc → B) : Prop := {
  neutral_passive :: Passive f;
  neutral_reply_ok k a c own : f (after_proto k a c own) = f (AdAwait k a own);
  neutral_reply_err k a e own : f (abandon a (fail e)) = f (AdAwait k a own);
}.

Section passive.
Context {B : Type} (f : Pc → B) `{!Passive f}.

Lemma alter_fmap_same (g : Pc → Pc) (t : nat) (ts : list Pc) : (∀ pc, f (g pc) = f pc) → f <$> alter g t ts = f <$> ts.
Proof.
  intros Hg. apply list_eq. intros i. rewrite !list_lookup_fmap. destruct (decide (t = i)) as [->|Hne].
  - rewrite list_lookup_alter. case_decide; [|done]. destruct (ts !! i); simpl; [|done]. by rewrite Hg.
  - by rewrite list_lookup_alter_ne.
Qed.

Lemma abort_thread_fmap t ts : f <$> abort_thread t ts = f <$> ts.
Proof. apply alter_fmap_same, neutral_aborted. Qed.

Lemma ready_thread_fmap t ts : f <$> ready_thread t ts = f <$> ts.
Proof. apply alter_fmap_same. intros []; try done. apply neutral_ready. Qed.

Lemma neutral_stop pc : f (stopped pc) = f pc.
Proof. destruct pc; try done. apply neutral_stopped. Qed.

Lemma neutral_close pc : f (channel_closed pc) = f pc.
Proof. destruct pc; try done. destruct k; try done. apply (neutral_aborted (TkRun Writer addr conn_id)). Qed.

Lemma aborts_fmap l ts : f <$> foldl (λ ts t, abort_thread t ts) ts l = f <$> ts.
Proof. revert ts. induction l as [|t l IH]; intros ts; simpl; [done|]. by rewrite IH, abort_thread_fmap. Qed.

Lemma insert_fmap t pc pc' (ts : list Pc) :
  ts !! t = Some pc → f pc' = f pc → f <$> <[t := pc']> ts = f <$> ts.
Proof. intros Ht Hf. rewrite list_fmap_insert, Hf. apply list_insert_id. by rewrite list_lookup_fmap, Ht. Qed.

End passive.

Section effects.
Context {B : Type} (f : Pc → B) `{!Neutral f}.

Lemma reply_thread_fmap t r ts : f <$> reply_thread t r ts = f <$> ts.
Proof.
  unfold reply_thread. destruct (ts !! t) as [pc|] eqn:E.
  - destruct pc, r; try exact (aborts_fmap f _ _); try done;
      eapply insert_fmap; eauto using neutral_reply_ok, neutral_reply_err.
  - destruct r; [exact (aborts_fmap f _ _)|done].
Qed.

Lemma apply_effect_fmap ts e : f <$> apply_effect ts e = f <$> ts.
Proof.
  destruct e; simpl;
    [exact (abort_thread_fmap f _ _)|apply (alter_fmap_same f), (neutral_stop f)|apply (alter_fmap_same f), (neutral_close f)
    |exact (ready_thread_fmap f _ _)|apply reply_thread_fmap].
Qed.

Lemma effects_fmap ts es : f <$> foldl apply_effect ts es = f <$> ts.
Proof. revert ts. induction es as [|e es IH]; intros ts; simpl; [done|]. by rewrite IH, apply_effect_fmap. Qed.

Lemma apply_out_fmap t o s :
  f <$> threads (apply_out t o s) = <[t := f (o_pc o)]> (f <$> threads s) ++ (f <$> o_spawn o).
Proof. simpl. by rewrite effects_fmap, fmap_app, list_fmap_insert. Qed.
End effects.

Lemma sum_fmap (f : Pc → nat) (l : list Pc) : sum_list_with f l = sum_list_with (λ x, x) (f <$> l).
Proof. induction l as [|x l IH]; simpl; [done|]. by rewrite IH. Qed.

(** The total of a neutral contribution changes by what the stepping thread gains or loses, plus
    what the threads it spawns bring along. *)
Lemma apply_out_sum (f : Pc → nat) `{!Neutral f} t o s pc :
  threads s !! t = Some pc →
  (sum_list_with f (threads (apply_out t o s)) + f pc =
   sum_list_with f (threads s) + f (o_pc o) + sum_list_with f (o_spawn o))%nat.
Proof.
  intros Ht. rewrite !(sum_fmap f), (apply_out_fmap f), sum_list_with_app.
  assert ((f <$> threads s) !! t = Some (f pc)) as Hf by (by rewrite list_lookup_fmap, Ht).
  pose proof (sum_list_with_insert (λ x, x) _ _ _ (f (o_pc o)) Hf). simpl in *. lia.
Qed.

Lemma aborts_sum (f : Pc → nat) `{!Passive f} t ts :
  sum_list_with f (abort_thread t ts) = sum_list_with f ts.
Proof. by rewrite (sum_fmap f), (abort_thread_fmap f), <-sum_fmap. Qed.

Ltac solve_passive :=
  split; [intros []; try done; match goal with k : TaskKind |- _ => by destruct k end|done|done].
Ltac solve_neutral := split; [solve_passive|by intros []|done].

#[export] Instance guards_of_neutral : Neutral guards_of.
Proof. solve_neutral. Qed.
#[export] Instance n_guards_neutral a : Neutral (n_guards a).
Proof. unfold n_guards. solve_neutral. Qed.
#[export] Instance n_pending_neutral a : Neutral (n_pending a).
Proof. unfold n_pending. solve_neutral. Qed.
#[export] Instance n_charges_neutral i : Neutral (n_charges i).
Proof. unfold n_charges. solve_neutral. Qed.
#[export] Instance n_setups_neutral : Neutral n_setups.
Proof. unfold n_setups. solve_neutral. Qed.
#[export] Instance n_permits_neutral : Neutral n_permits.
Proof. solve_neutral. Qed.
#[export] Instance n_scheds_neutral : Neutral n_scheds.
Proof. solve_neutral. Qed.
#[export] Instance claim_of_neutral : Neutral claim_of.
Proof. solve_neutral. Qed.
#[export] Instance n_claims_neutral a : Neutral (n_claims a).
Proof. unfold n_claims. solve_neutral. Qed.

(** ** The effect of a step on the connection bookkeeping *)

(** How a step of a thread changes the bookkeeping, together with what the thread owns before and
    after it. *)
Inductive conn_step (n : Node) (pc pc' : Pc) : Connections → Prop :=
| cs_same :
    guards_of pc' = guards_of pc → claim_of pc' = claim_of pc →
    conn_step n pc pc' (connections n)
| cs_reserve a n' :
    check_and_reserve n a = Ok n' →
    guards_of pc = [] → guards_of pc' = [(a, false)] →
    claim_of pc = None → claim_of pc' = None → n_permits pc = 1%nat →
    conn_step n pc pc' (connections n')
| cs_add a c own ready sched :
    pc = AdAdd a c own ready sched → pc' = AdGuard a (id c) own ready sched →
    is_underway n = false →
    conn_step n pc pc' (set_active (connections n) (<[conn_addr c := c]> (active (connections n))))
| cs_guard a b :
    guards_of pc = (a, b) :: guards_of pc' → claim_of pc = None → claim_of pc' = None →
    conn_step n pc pc' (guard_drop (connections n) a b).2
| cs_claim a cid c n' :
    claim_disconnect n a cid = Some n' → active (connections n) !! a = Some c →
    guards_of pc = [] → guards_of pc' = [] → claim_of pc = None → claim_of pc' = Some (a, id c) →
    conn_step n pc pc' (connections n')
| cs_attach a cid t n' :
    attach_task n a cid t = Some n' →
    guards_of pc' = guards_of pc → claim_of pc' = claim_of pc →
    conn_step n pc pc' (connections n')
| cs_remove a g :
    claim_of pc = Some (a, g) → claim_of pc' = None → guards_of pc = [] → guards_of pc' = [] →
    conn_step n pc pc' (connections (finalizer_remove n a).2).

Definition idle (pc : Pc) : Prop := guards_of pc = [] ∧ claim_of pc = None.

Ltac unfold_steps H :=
  unfold thread_step, connect_inner, accept_loop, handle_connection_request, adapt_stream,
    handle_new_connection, handshake_connection, reading_connection, writing_connection, refuse,
    adopt_writer, scheduling_task, disconnect_w_origin, shut_down, run_task, on_connect_hook,
    serve, on_disconnect_hook, unwind, next, abandon in H.

Ltac step_cases H :=
  unfold_steps H; simpl in H; simplify_eq/=; repeat (case_match; simplify_eq/=; try done).

(** Names the second component of a pair the goal mentions through an equation. *)
Ltac snd_of e :=
  match goal with E : e = (_, ?x) |- _ => replace x with (e.2) by (by rewrite E) end.

Lemma guards_after_proto k a c own : guards_of (after_proto k a c own) = [(a, false)].
Proof. by destruct k. Qed.
Lemma claim_after_proto k a c own : claim_of (after_proto k a c own) = None.
Proof. by destruct k. Qed.

Lemma add_active_inv cs c b cs' :
  add_active cs c b = Some cs' →
  b = false ∧ cs' = set_active cs (<[conn_addr c := c]> (active cs)).
Proof. unfold add_active. destruct b; intros; by simplify_eq. Qed.

Lemma finalizer_senders_connections n a : connections (finalizer_senders n a) = connections n.
Proof. unfold finalizer_senders. by destruct (writing (protocols n)). Qed.

Lemma thread_step_conn t ts n pc ch o :
  thread_step t ts n pc ch = Some o →
  conn_step n pc (o_pc o) (connections (o_node o)) ∧ Forall idle (o_spawn o).
Proof.
  intros H. split.
  - destruct pc; step_cases H;
      try (by apply cs_same); try (by eapply cs_reserve);
      try match goal with E : try_acquire _ = Some _ |- _ => apply try_acquire_inv in E as [_ ->] end;
      try match goal with E : add_active _ _ _ = Some _ |- _ => apply add_active_inv in E as [? ->] end;
      try (by apply (cs_same n)); try (by eapply cs_add); try (by eapply cs_attach); try (by eapply cs_claim).
    + by apply cs_same; rewrite ?guards_after_proto, ?claim_after_proto.
    + by apply (cs_guard _ _ _ addr true).
    + rewrite finalizer_senders_connections. by apply cs_same.
    + snd_of (finalizer_remove n addr). by eapply cs_remove.
    + snd_of (finalizer_remove n addr). by eapply cs_remove.
    + snd_of (guard_drop (connections n) addr completed). by eapply cs_guard.
  - destruct pc; step_cases H; repeat constructor.
    apply Forall_forall. intros pc (a & -> & _)%list_elem_of_fmap. done.
Qed.

Lemma cancel_conn n pc o :
  cancel n pc = Some o →
  guards_of (o_pc o) = guards_of pc ∧ claim_of (o_pc o) = claim_of pc ∧ o_node o = n ∧
  o_spawn o = [] ∧ n_permits (o_pc o) = n_permits pc ∧ n_scheds (o_pc o) = n_scheds pc ∧
  o_log o = [].
Proof. intros H. destruct pc; unfold cancel, next, abandon in H; repeat case_match; by simplify_eq/=. Qed.

Lemma finalizer_senders_fields n a :
  connecting_permits (finalizer_senders n a) = connecting_permits n ∧
  config (finalizer_senders n a) = config n ∧ shutdown (finalizer_senders n a) = shutdown n ∧
  sequential_conn_id (finalizer_senders n a) = sequential_conn_id n.
Proof. unfold finalizer_senders. by destruct (writing (protocols n)). Qed.

Lemma finalizer_remove_fields n a :
  let n' := (finalizer_remove n a).2 in
  connecting_permits n' = connecting_permits n ∧ config n' = config n ∧ shutdown n' = shutdown n ∧
  sequential_conn_id n' = sequential_conn_id n.
Proof. unfold finalizer_remove. by destruct (remove _ _), (release_ip _ _). Qed.

(** Rewrites the outcome of the node operations a step used with their inversion lemmas. *)
Ltac op_inv :=
  repeat match goal with
  | E : try_acquire _ = Some _ |- _ => apply try_acquire_inv in E as [? ->]
  | E : add_active _ _ _ = Some _ |- _ => apply add_active_inv in E as [? ->]
  | E : check_and_reserve _ _ = Ok _ |- _ =>
      apply check_and_reserve_inv in E as (?&?&?&?&?&->)
  | E : attach_task _ _ _ _ = Some _ |- _ => apply attach_task_inv in E as (?&?&?&->)
  | E : claim_disconnect _ _ _ = Some _ |- _ => apply claim_disconnect_inv in E as (?&?&?&?&->)
  | E : finalizer_remove ?n ?a = (_, ?n') |- _ =>
      let H := fresh in
      pose proof (finalizer_remove_fields n a) as H; rewrite E in H; simpl in H;
      destruct H as (?&?&?&?); clear E
  | |- context [finalizer_senders ?n ?a] =>
      let H := fresh in
      pose proof (finalizer_senders_fields n a) as H; destruct H as (?&?&?&?);
      generalize dependent (finalizer_senders n a); intros
  end.

Lemma sum_idle {A} (f : A → nat) (l : list A) : Forall (λ x, f x = 0%nat) l → sum_list_with f l = 0%nat.
Proof. induction 1; simpl; lia. Qed.

Lemma sum_fan (f : Pc → nat) (l : list SocketAddr) :
  (∀ a, f (DsClaim a OriginShutdown None) = 0%nat) →
  sum_list_with f ((λ a, DsClaim a OriginShutdown None) <$> l) = 0%nat.
Proof. intros Hf. induction l as [|a l IH]; [done|]. rewrite fmap_cons. cbn [sum_list_with]. by rewrite Hf, IH. Qed.

Lemma thread_step_permits t ts n pc ch o :
  thread_step t ts n pc ch = Some o →
  connecting_permits (o_node o) + N.of_nat (n_permits (o_pc o)) +
    N.of_nat (sum_list_with n_permits (o_spawn o)) =
  connecting_permits n + N.of_nat (n_permits pc).
Proof.
  intros H. destruct pc; step_cases H; op_inv; simpl in *; try lia.
  - destruct k; simpl; lia.
  - rewrite sum_fan by done. lia.
Qed.

Lemma thread_step_scheds t ts n pc ch o :
  thread_step t ts n pc ch = Some o →
  N.of_nat (n_scheds pc) ≤ sched_in_flight (shutdown n) →
  sched_in_flight (shutdown (o_node o)) + N.of_nat (n_scheds pc) =
  sched_in_flight (shutdown n) + N.of_nat (n_scheds (o_pc o)) +
    N.of_nat (sum_list_with n_scheds (o_spawn o)).
Proof.
  intros H Hle. destruct pc; step_cases H; op_inv; simpl in *;
    repeat match goal with E : shutdown _ = shutdown _ |- _ => rewrite E in * end; try lia.
  - destruct k; simpl; lia.
  - rewrite sum_fan by done. lia.
Qed.

(** The parts of the node a thread's step never changes, and the ones it only moves forward. *)
Lemma thread_step_config t ts n pc ch o :
  thread_step t ts n pc ch = Some o → config (o_node o) = config n.
Proof. intros H. destruct pc; step_cases H; op_inv; simpl in *; congruence. Qed.

Lemma thread_step_flag t ts n pc ch o :
  thread_step t ts n pc ch = Some o →
  is_underway n = true → is_underway (o_node o) = true.
Proof.
  unfold is_underway. intros H Hf.
  destruct pc; step_cases H; op_inv; simpl in *; congruence.
Qed.

(** ** The steps of the system, by cases *)

(** The threads a user's call starts. *)
Definition user_pc (pc : Pc) : bool :=
  match pc with
  | CnStart _ | DsClaim _ OriginUser None | SdBegin | LsAccept | Unwind [] Dropped | TkHandler _ => true
  | _ => false
  end.

(** The node's state apart from the listener, the task registry, the protocols and the id counter. *)
Record same_core (n n' : Node) : Prop := {
  sc_config : config n' = config n;
  sc_connections : connections n' = connections n;
  sc_permits : connecting_permits n' = connecting_permits n;
  sc_shutdown : shutdown n' = shutdown n;
}.

(** A call of the user's, or an id drawn by another node. *)
Inductive user_view (s : Sys) : Sys → Prop :=
| uv_user n' l ab :
    same_core (node s) n' → sequential_conn_id n' = sequential_conn_id (node s) →
    Forall (λ pc, user_pc pc = true) l →
    user_view s (mkSys n' (foldl (λ ts t, abort_thread t ts) (threads s ++ l) ab) (log s))
| uv_foreign :
    user_view s (mkSys (set_sequential_conn_id (node s) (wrapping_add (sequential_conn_id (node s)) 1))
                   (threads s) (EvForeignId (sequential_conn_id (node s)) :: log s)).

(** A step is one of those, a step of a thread, or the cancellation of one. *)
Inductive step_view (s : Sys) : Sys → Prop :=
| sv_run t pc ch o :
    threads s !! t = Some pc → thread_step t (threads s) (node s) pc ch = Some o →
    step_view s (apply_out t o s)
| sv_cancel t pc o :
    threads s !! t = Some pc → cancel (node s) pc = Some o → step_view s (apply_out t o s)
| sv_user n' l ab :
    same_core (node s) n' → sequential_conn_id n' = sequential_conn_id (node s) →
    Forall (λ pc, user_pc pc = true) l →
    step_view s (mkSys n' (foldl (λ ts t, abort_thread t ts) (threads s ++ l) ab) (log s))
| sv_foreign :
    step_view s (mkSys (set_sequential_conn_id (node s) (wrapping_add (sequential_conn_id (node s)) 1))
                   (threads s) (EvForeignId (sequential_conn_id (node s)) :: log s)).

Definition user_label (l : Label) : bool := match l with Run _ _ | Cancel _ => false | _ => true end.

Lemma toggle_listener_core n os t :
  same_core n (tg_node (toggle_listener n os t)) ∧
  sequential_conn_id (tg_node (toggle_listener n os t)) = sequential_conn_id n.
Proof. unfold toggle_listener, register_task. by repeat case_match; simplify_eq/=. Qed.

Lemma uv_call s n' l :
  same_core (node s) n' → sequential_conn_id n' = sequential_conn_id (node s) →
  Forall (λ pc, user_pc pc = true) l → user_view s (mkSys n' (threads s ++ l) (log s)).
Proof. exact (uv_user s n' l []). Qed.

Lemma user_step_inv l s s' : user_label l = true → step l s = Some s' → user_view s s'.
Proof.
  intros Hl H. destruct l; try done; simpl in H.
  - simplify_eq/=. apply uv_call; by repeat constructor.
  - simplify_eq/=. apply uv_call; by repeat constructor.
  - simplify_eq/=. apply uv_call; by repeat constructor.
  - simplify_eq/=. destruct (toggle_listener_core (node s) os (length (threads s))) as [H H0].
    destruct (tg_spawned _), (tg_aborted _) as [t|].
    + apply (uv_user s _ [LsAccept] [t]); [done..|by repeat constructor].
    + apply uv_call; [done..|by repeat constructor].
    + pose proof (uv_user s _ [] [t] H H0 (Forall_nil_2 _)) as V. by rewrite app_nil_r in V.
    + pose proof (uv_call s _ [] H H0 (Forall_nil_2 _)) as V. by rewrite app_nil_r in V.
  - case_match; simplify_eq/=. apply uv_call; by repeat constructor.
  - pose proof (λ H, uv_user s (node s) [] [t] H eq_refl (Forall_nil_2 _)) as V. rewrite app_nil_r in V.
    repeat case_match; simplify_eq/=; by apply V.
  - unfold enable_protocol, enable_handshake, enable_reading, enable_writing, enable_on_connect,
      enable_on_disconnect, install_protocol_handler, register_task in H. repeat case_match; simplify_eq/=;
      apply uv_call; by repeat constructor.
  - simplify_eq/=. apply uv_foreign.
Qed.

Lemma step_inv l s s' : step l s = Some s' → step_view s s'.
Proof.
  intros H. destruct (user_label l) eqn:Hl.
  - apply user_step_inv in H as [n' l' ab ?? Hf|]; [by apply sv_user|apply sv_foreign|done].
  - destruct l; try done; simpl in H; destruct (threads s !! t) as [pc|] eqn:Ht; simplify_eq/=.
    + destruct (thread_step _ _ _ _ _) as [o|] eqn:E; simplify_eq/=. by eapply sv_run.
    + destruct (cancel _ _) as [o|] eqn:E; simplify_eq/=. by eapply sv_cancel.
Qed.

(** ** Connections keep the address they were created for *)

(** The address a thread sets a connection up for. *)
Definition thread_addr (pc : Pc) : option SocketAddr :=
  match pc with
  | CnStart a | CnSelf a | CnDup a | CnPermit a | CnReserve a | CnDial a
  | RqStart a _ | RqReserve a _ | AdNew a _ _
  | AdProto _ a _ _ | AdAwait _ a _ | AdSched a _ _ | AdAdd a _ _ _ _ => Some a
  | _ => None
  end.

(** The connection a setting-up thread holds, with the address of its reservation. *)
Definition own_conn (pc : Pc) : option (SocketAddr * Connection) :=
  match pc with
  | AdProto _ a c _ | AdSched a c _ | AdAdd a c _ _ _ => Some (a, c)
  | _ => None
  end.

(** The connection a protocol setup task holds, with the thread that awaits it. *)
Definition setup_of (pc : Pc) : option (Connection * nat) :=
  match pc with
  | StRun _ c r | StReading1 c _ r | StReading2 c _ r | StWriting1 c _ r | StReply (Ok c) r =>
      Some (c, r)
  | _ => None
  end.

(** Thread [r] is either past its setup, or sets up a connection to [a]. *)
Definition fits (ts : list Pc) (r : nat) (a : SocketAddr) : Prop :=
  ∃ pc, ts !! r = Some pc ∧ (thread_addr pc = None ∨ thread_addr pc = Some a).

Definition pc_addr_ok (ts : list Pc) (pc : Pc) : Prop :=
  (∀ a c, own_conn pc = Some (a, c) → conn_addr c = a ∧ disconnecting c = false) ∧
  (∀ c r, setup_of pc = Some (c, r) → fits ts r (conn_addr c) ∧ disconnecting c = false).

Definition addr_ok (ts : list Pc) : Prop := ∀ t pc, ts !! t = Some pc → pc_addr_ok ts pc.

(** A thread keeps its address or loses it. *)
Definition keeps_addr (pc pc' : Pc) : Prop :=
  thread_addr pc' = None ∨ thread_addr pc' = thread_addr pc.

Lemma fits_mono ts ts' r a :
  (∀ t pc, ts !! t = Some pc → ∃ pc', ts' !! t = Some pc' ∧ keeps_addr pc pc') →
  fits ts r a → fits ts' r a.
Proof.
  intros Hm (pc & Hr & Ha). destruct (Hm _ _ Hr) as (pc' & Hr' & Hk). exists pc'.
  split; [done|]. destruct Hk as [?|Hk]; [by left|]. by rewrite Hk.
Qed.

#[export] Hint Resolve fits_mono : pea.

(** Replacing the program counters of threads pointwise keeps [addr_ok] if every new one is fine on
    its own and no thread changes its address. *)
Lemma addr_ok_map ts ts' :
  addr_ok ts →
  (∀ t pc, ts !! t = Some pc → ∃ pc', ts' !! t = Some pc' ∧ keeps_addr pc pc') →
  (∀ t pc', ts' !! t = Some pc' →
     (∃ pc, ts !! t = Some pc ∧ own_conn pc' = own_conn pc ∧ setup_of pc' = setup_of pc) ∨
     pc_addr_ok ts pc' ∨ pc_addr_ok ts' pc') →
  addr_ok ts'.
Proof.
  intros Hok Hm Hs t pc' Ht. destruct (Hs t pc' Ht) as [(pc & Hp & Ho & Hse)|[[H1 H2]|?]]; [| |done].
  - destruct (Hok _ _ Hp) as [H1 H2]. split; rewrite ?Ho, ?Hse; [done|].
    intros c r E. destruct (H2 _ _ E). eauto with pea.
  - split; [done|]. intros c r E. destruct (H2 _ _ E). eauto with pea.
Qed.

Lemma pointwise_alter (f : Pc → Pc) ts t :
  (∀ pc, keeps_addr pc (f pc) ∧ own_conn (f pc) = own_conn pc ∧ setup_of (f pc) = setup_of pc) →
  addr_ok ts → addr_ok (alter f t ts).
Proof.
  intros Hf Hok. apply (addr_ok_map ts); [done| |].
  - intros u pc Hu. rewrite list_lookup_alter. case_decide; subst; rewrite Hu; simpl;
      eexists; (split; [done|]); [apply Hf|by right].
  - intros u pc'. rewrite list_lookup_alter. case_decide; subst; [|by eauto 10].
    intros (pc & Hu & ->)%fmap_Some. left. exists pc. split; [done|]. apply Hf.
Qed.

Lemma abort_thread_addr_ok t ts : addr_ok ts → addr_ok (abort_thread t ts).
Proof. apply pointwise_alter. intros []; by repeat split; right. Qed.

Lemma ready_thread_addr_ok t ts : addr_ok ts → addr_ok (ready_thread t ts).
Proof. apply pointwise_alter. intros []; by repeat split; right. Qed.

Lemma stop_thread_addr_ok (t : nat) ts : addr_ok ts → addr_ok (alter stopped t ts).
Proof. apply pointwise_alter. intros []; by repeat split; right. Qed.

Lemma close_thread_addr_ok (t : nat) ts : addr_ok ts → addr_ok (alter channel_closed t ts).
Proof. apply pointwise_alter. intros []; try (by repeat split; right). destruct k; by repeat split; right. Qed.

#[export] Hint Resolve abort_thread_addr_ok ready_thread_addr_ok stop_thread_addr_ok close_thread_addr_ok : pea.

Lemma aborts_addr_ok l ts : addr_ok ts → addr_ok (foldl (λ ts t, abort_thread t ts) ts l).
Proof. revert ts. induction l; simpl; auto with pea. Qed.
#[export] Hint Resolve aborts_addr_ok : pea.

Lemma insert_addr_ok ts t pc pc' :
  addr_ok ts → ts !! t = Some pc → keeps_addr pc pc' → pc_addr_ok ts pc' → addr_ok (<[t := pc']> ts).
Proof.
  intros Hok Ht Hk Hp. apply (addr_ok_map ts); [done| |].
  - intros u pc0 Hu. destruct (decide (t = u)) as [->|Hne].
    + exists pc'. rewrite list_lookup_insert_eq by (by apply lookup_lt_Some in Hu). by simplify_eq.
    + exists pc0. rewrite list_lookup_insert_ne by done. split; [done|by right].
  - intros u pc0 Hu. apply list_lookup_insert_Some in Hu as [(->&->&_)|[Hne Hu]]; [by right; left|].
    left. by exists pc0.
Qed.

Lemma app_addr_ok ts l :
  addr_ok ts → (∀ pc, pc ∈ l → pc_addr_ok ts pc) → addr_ok (ts ++ l).
Proof.
  intros Hok Hl. apply (addr_ok_map ts); [done| |].
  - intros u pc Hu. exists pc. rewrite lookup_app_l by (by apply lookup_lt_Some in Hu).
    split; [done|by right].
  - intros u pc Hu. apply lookup_app_Some in Hu as [Hu|[_ Hu]]; [left; by exists pc|].
    right; left. apply Hl. by apply list_elem_of_lookup_2 in Hu.
Qed.

Lemma after_proto_addr k a c own :
  thread_addr (after_proto k a c own) = Some a ∧
  (∃ c', own_conn (after_proto k a c own) = Some (a, c') ∧ conn_addr c' = conn_addr c ∧
     disconnecting c' = disconnecting c ∧ id c' = id c) ∧
  setup_of (after_proto k a c own) = None.
Proof.
  destruct k; simpl; split_and!; eauto.
  exists (split_stream c). unfold split_stream. split; [done|]. by destruct (stream c).
Qed.

Lemma reply_thread_addr_ok t r ts :
  addr_ok ts → (∀ c, r = Ok c → fits ts t (conn_addr c) ∧ disconnecting c = false) →
  addr_ok (reply_thread t r ts).
Proof.
  intros Hok Hr. unfold reply_thread. destruct (ts !! t) as [pc|] eqn:Ht;
    [|destruct r; auto with pea].
  destruct r as [c0|e0]; destruct pc; auto with pea;
    (eapply insert_addr_ok; [done..| |]).
  - destruct (after_proto_addr k addr c0 own) as (?&_&_). by right.
  - destruct (after_proto_addr k addr c0 own) as (_&(c'&Ho&Hc&Hd&_)&Hs).
    split; rewrite ?Ho, ?Hs; [|done].
    intros a c1 E. simplify_eq. destruct (Hr c0 eq_refl) as [(pc & Ht' & Ha) Hd']. simplify_eq/=.
    split; destruct Ha; congruence.
  - by left.
  - by split.
Qed.

(** The effect hands no connection over. *)
Definition no_reply (e : Effect) : Prop := match e with EReply _ (Ok _) => False | _ => True end.

Lemma effects_addr_ok es ts : Forall no_reply es → addr_ok ts → addr_ok (foldl apply_effect ts es).
Proof.
  intros He. revert ts. induction He as [|e es He Hes IH]; intros ts Hok; simpl; [done|].
  apply IH. destruct e; simpl; [by auto with pea..|].
  apply reply_thread_addr_ok; [done|]. intros c ->. done.
Qed.

Lemma pc_addr_ok_none ts pc : own_conn pc = None → setup_of pc = None → pc_addr_ok ts pc.
Proof. intros Ho Hs. split; [by rewrite Ho|by rewrite Hs]. Qed.

Lemma pc_addr_ok_own ts pc a c :
  own_conn pc = Some (a, c) → conn_addr c = a ∧ disconnecting c = false → setup_of pc = None →
  pc_addr_ok ts pc.
Proof. intros Ho Ha Hs. split; rewrite ?Ho, ?Hs; [|done]. intros; by simplify_eq. Qed.

Lemma pc_addr_ok_setup ts pc c r :
  setup_of pc = Some (c, r) → fits ts r (conn_addr c) ∧ disconnecting c = false →
  own_conn pc = None → pc_addr_ok ts pc.
Proof. intros Hs Hf Ho. split; rewrite ?Ho, ?Hs; [done|]. intros; by simplify_eq. Qed.

(** What a step does to the connections that are being set up. *)
Lemma thread_step_addr t ts n pc ch o :
  thread_step t ts n pc ch = Some o → ts !! t = Some pc → pc_addr_ok ts pc →
  keeps_addr pc (o_pc o) ∧ pc_addr_ok ts (o_pc o) ∧
  Forall (pc_addr_ok (<[t := o_pc o]> ts)) (o_spawn o).
Proof.
  intros H Ht [Hown Hset]. split_and!.
  - unfold keeps_addr. destruct pc; step_cases H; auto.
    right. by destruct (after_proto_addr k addr c own) as (?&_&_).
  - destruct pc; step_cases H;
      try (by apply pc_addr_ok_none); try (eapply pc_addr_ok_own; [done|by apply Hown|done]);
      try (eapply pc_addr_ok_setup; [done|by apply Hset|done]).
    all: try (eapply pc_addr_ok_setup; [done|exact (Hset c req eq_refl)|done]).
    all: try (eapply pc_addr_ok_own; [done|exact (Hown addr c eq_refl)|done]).
    + by eapply pc_addr_ok_own.
    + destruct (after_proto_addr k addr c own) as (_&(c'&Ho&Hc&Hd&_)&Hs).
      eapply pc_addr_ok_own; [done| |done]. rewrite Hc, Hd. by apply Hown.
  - destruct pc; step_cases H; repeat (apply Forall_cons_2 || apply Forall_nil_2);
      try (by apply pc_addr_ok_none).
    + destruct (Hown addr c eq_refl) as [Ha Hd].
      eapply pc_addr_ok_setup; [done| |done]. split; [|done]. exists (AdAwait k addr own).
      rewrite list_lookup_insert_eq by (by apply lookup_lt_Some in Ht). split; [done|].
      right; simpl. by rewrite Ha.
    + apply Forall_fmap, Forall_true. intros a. by apply pc_addr_ok_none.
Qed.

Lemma thread_step_effects t ts n pc ch o :
  thread_step t ts n pc ch = Some o →
  Forall no_reply (o_effects o) ∨
  ∃ r req, pc = StReply r req ∧ o_effects o = [EReply req r] ∧ o_pc o = Done Dropped ∧ o_spawn o = [].
Proof.
  intros H. destruct pc; step_cases H; try (left; by repeat constructor); try (by right; eauto 6).
  all: left; apply Forall_fmap, Forall_true; done.
Qed.

Lemma cancel_addr ts n pc o :
  cancel n pc = Some o →
  keeps_addr pc (o_pc o) ∧ pc_addr_ok ts (o_pc o) ∧ Forall no_reply (o_effects o).
Proof.
  intros H. destruct pc; unfold cancel, next, abandon in H; repeat case_match; simplify_eq/=;
    (split_and!; [by left|by apply pc_addr_ok_none|try by constructor]).
  all: apply Forall_fmap, Forall_true; done.
Qed.

Lemma apply_out_addr_ok t o s pc ch :
  threads s !! t = Some pc → thread_step t (threads s) (node s) pc ch = Some o →
  addr_ok (threads s) → addr_ok (threads (apply_out t o s)).
Proof.
  intros Ht H Hok. destruct (thread_step_addr _ _ _ _ _ _ H Ht (Hok _ _ Ht)) as (Hk & Hp & Hs).
  assert (addr_ok (<[t := o_pc o]> (threads s) ++ o_spawn o)) as Hok'.
  { apply app_addr_ok; [by eapply insert_addr_ok|]. by apply Forall_forall. }
  simpl. destruct (thread_step_effects _ _ _ _ _ _ H) as [He|(r & req & -> & He & Hd & Hsp)].
  - by apply effects_addr_ok.
  - rewrite He in *; simpl. apply reply_thread_addr_ok; [done|]. intros c ->.
    rewrite Hsp, app_nil_r, Hd. destruct (Hok _ _ Ht) as [_ Hset].
    destruct (Hset c req eq_refl) as [Hf Hdis]. split; [|done].
    eapply fits_mono, Hf. intros u pcu Hu.
    destruct (decide (t = u)) as [->|Hne].
    + exists (Done Dropped). rewrite list_lookup_insert_eq by (by apply lookup_lt_Some in Hu).
      split; [done|by left].
    + exists pcu. rewrite list_lookup_insert_ne by done. split; [done|by right].
Qed.

Lemma user_pc_addr_ok ts pc : user_pc pc = true → pc_addr_ok ts pc.
Proof. destruct pc; try done; intros _; by apply pc_addr_ok_none. Qed.

Lemma step_addr_ok l s s' : step l s = Some s' → addr_ok (threads s) → addr_ok (threads s').
Proof.
  intros [t pc ch o Ht E|t pc o Ht E|n' l' ab _ _ Hl|]%step_inv Hok; simpl.
  - by eapply apply_out_addr_ok.
  - destruct (cancel_addr (threads s) _ _ _ E) as (?&?&?).
    destruct (cancel_conn _ _ _ E) as (_&_&_&->&_). rewrite app_nil_r.
    apply effects_addr_ok; [done|]. by eapply insert_addr_ok.
  - apply aborts_addr_ok, app_addr_ok; [done|]. intros pc Hpc.
    apply user_pc_addr_ok. by eapply Forall_forall in Hl.
  - done.
Qed.

Lemma reachable_addr_ok c s : reachable c s → addr_ok (threads s).
Proof. induction 1; [by intros ? ?|]. by eapply step_addr_ok. Qed.
