(* ===== verification/Lifecycle.v ===== *)
(** * Invariants of the connection life cycle

    What every reachable state of the transition system of [Tasks.v] satisfies: the accounting of
    reservations, permits and per-IP charges is exact, the configured limits are never exceeded,
    disconnects are exclusive, and a shutdown drains the node. *)

From S2P Require Import Prelude Net Config Stats Connections Node Tasks Ownership.

Open Scope N_scope.

(** ** The bookkeeping invariant *)

Definition n_all_guards (pc : Pc) : nat := length (guards_of pc).

(** Whether the connection at [a] has been claimed by a disconnect. *)
Definition claimed_at (m : gmap SocketAddr Connection) (a : SocketAddr) : bool :=
  match m !! a with Some c => disconnecting c | None => false end.

Record ConnInv (cfg : Config) (cs : Connections) (ts : list Pc) : Prop := {
  inv_guards : ∀ a, sum_list_with (n_guards a) ts = b2n (bool_decide (a ∈ connecting (limits cs)));
  inv_all_guards : sum_list_with n_all_guards ts = size (connecting (limits cs));
  inv_buckets : ∀ i, bucket (limits cs) i =
    N.of_nat (sum_list_with (n_charges i) ts + active_on i (active cs));
  inv_buckets_ok : buckets_ok (limits cs);
  inv_pending : ∀ a, is_Some (active cs !! a) → sum_list_with (n_pending a) ts = 0%nat;
  inv_claims : ∀ a, sum_list_with (n_claims a) ts = b2n (claimed_at (active cs) a);
  inv_claim_id : ∀ t pc a g, ts !! t = Some pc → claim_of pc = Some (a, g) →
    ∃ c, active cs !! a = Some c ∧ id c = g;
  inv_key : ∀ a c, active cs !! a = Some c → conn_addr c = a;
  inv_total : N.of_nat (size (active cs) + sum_list_with n_setups ts) ≤ max_connections cfg;
  inv_per_ip : ∀ i, bucket (limits cs) i ≤ max_connections_per_ip cfg;
}.

#[export] Instance n_all_guards_neutral : Neutral n_all_guards.
Proof. unfold n_all_guards. solve_neutral. Qed.

(** What is known about the threads after a step of thread [t] from [pc] to [pc']: the totals of
    the contributions changed by those of [t], and no other thread changed its claim. *)
Record moved (t : nat) (pc pc' : Pc) (ts ts' : list Pc) : Prop := {
  mv_at : ts !! t = Some pc;
  mv_guards a : (sum_list_with (n_guards a) ts' + n_guards a pc = sum_list_with (n_guards a) ts + n_guards a pc')%nat;
  mv_all : (sum_list_with n_all_guards ts' + n_all_guards pc = sum_list_with n_all_guards ts + n_all_guards pc')%nat;
  mv_charges i : (sum_list_with (n_charges i) ts' + n_charges i pc = sum_list_with (n_charges i) ts + n_charges i pc')%nat;
  mv_pending a : (sum_list_with (n_pending a) ts' + n_pending a pc = sum_list_with (n_pending a) ts + n_pending a pc')%nat;
  mv_setups : (sum_list_with n_setups ts' + n_setups pc = sum_list_with n_setups ts + n_setups pc')%nat;
  mv_claims a : (sum_list_with (n_claims a) ts' + n_claims a pc = sum_list_with (n_claims a) ts + n_claims a pc')%nat;
  mv_claim u pcu x : ts' !! u = Some pcu → claim_of pcu = Some x →
    (u = t ∧ claim_of pc' = Some x) ∨
    (u ≠ t ∧ ∃ pcu', ts !! u = Some pcu' ∧ claim_of pcu' = Some x);
}.

Lemma idle_sums (l : list Pc) :
  Forall idle l →
  (∀ a, sum_list_with (n_guards a) l = 0%nat) ∧ sum_list_with n_all_guards l = 0%nat ∧
  (∀ i, sum_list_with (n_charges i) l = 0%nat) ∧ (∀ a, sum_list_with (n_pending a) l = 0%nat) ∧
  sum_list_with n_setups l = 0%nat ∧ (∀ a, sum_list_with (n_claims a) l = 0%nat).
Proof.
  intros Hl. unfold n_guards, n_all_guards, n_charges, n_pending, n_setups, n_claims.
  induction Hl as [|pc l [Hg Hc] _ (?&?&?&?&?&?)]; simpl; [done|].
  rewrite Hg, Hc. simpl. done.
Qed.

Lemma apply_out_moved t o s pc :
  threads s !! t = Some pc → Forall idle (o_spawn o) →
  moved t pc (o_pc o) (threads s) (threads (apply_out t o s)).
Proof.
  intros Ht Hi. destruct (idle_sums _ Hi) as (H1&H2&H3&H4&H5&H6).
  split; [done|..|intros u pcu x Hu Hx];
    try (intros; match goal with |- (sum_list_with ?f _ + _ = _)%nat => rewrite (apply_out_sum f t o s pc Ht) end;
         rewrite ?H1, ?H2, ?H3, ?H4, ?H5, ?H6; lia).
  assert ((claim_of <$> threads (apply_out t o s)) !! u = Some (Some x)) as E
    by (by rewrite list_lookup_fmap, Hu; simpl; f_equal).
  rewrite (apply_out_fmap claim_of) in E. apply lookup_app_Some in E as [E|[_ E]].
  - apply list_lookup_insert_Some in E as [(->&E&_)|[Hne E]]; [left; by split|].
    right. split; [done|]. apply list_lookup_fmap_Some in E as (pcu'&->&E'). eauto.
  - apply list_lookup_fmap_Some in E as (pcu'&E1&E').
    assert (idle pcu') as [_ Hc] by (eapply Forall_lookup_1; eauto). congruence.
Qed.

(** The contributions of a thread with given reservations. *)
Lemma guards_eq pc l :
  guards_of pc = l →
  (∀ x, n_guards x pc = countb (guard_at x) l) ∧ n_all_guards pc = length l ∧
  (∀ i, n_charges i pc = countb (charged_to i) l) ∧ (∀ x, n_pending x pc = countb (pending_at x) l) ∧
  n_setups pc = countb uncompleted l.
Proof. by intros <-. Qed.

(** Rewrites the totals of [moved] with the reservations of the thread before and after. *)
Ltac moved_guards Hg Hg' H1 H2 H3 H4 H5 :=
  destruct (guards_eq _ _ Hg) as (?G1&?G2&?G3&?G4&?G5);
  destruct (guards_eq _ _ Hg') as (?G1'&?G2'&?G3'&?G4'&?G5');
  setoid_rewrite G1 in H1; setoid_rewrite G1' in H1; rewrite G2, G2' in H2;
  setoid_rewrite G3 in H3; setoid_rewrite G3' in H3; setoid_rewrite G4 in H4;
  setoid_rewrite G4' in H4; rewrite G5, G5' in H5;
  unfold guard_at, charged_to, pending_at, uncompleted in H1, H3, H4, H5;
  simpl in H1, H2, H3, H4, H5; clear G1 G1' G2 G2' G3 G3' G4 G4' G5 G5'.

Lemma active_on_update i (m : gmap SocketAddr Connection) a c c' :
  m !! a = Some c → active_on i (<[a := c']> m) = active_on i m.
Proof. intros Ha. unfold active_on. pose proof (map_countb_update (λ a _, bool_decide (canonical_ip a = i)) m a c c' Ha). lia. Qed.

Lemma size_update (m : gmap SocketAddr Connection) a c c' : m !! a = Some c → size (<[a := c']> m) = size m.
Proof. intros Ha. apply map_size_insert_Some. by exists c. Qed.

Lemma n_claims_of a pc x :
  claim_of pc = x →
  n_claims a pc = match x with Some (a', _) => b2n (bool_decide (a' = a)) | None => 0%nat end.
Proof. by intros <-. Qed.

Lemma n_guards_pos a b pc : (a, b) ∈ guards_of pc → (0 < n_guards a pc)%nat.
Proof.
  intros [i Hi]%list_elem_of_lookup_1. unfold n_guards. eapply countb_pos; [done|].
  by apply bool_decide_eq_true_2.
Qed.

Lemma n_guards_elem a pc : n_guards a pc ≠ 0%nat → ∃ b, (a, b) ∈ guards_of pc.
Proof. intros ([x b]&?&<-%bool_decide_eq_true)%countb_elem. by exists b. Qed.

Section conn_inv_step.
Context (n : Node) (t : nat) (pc pc' : Pc) (ts ts' : list Pc).
Context (Hmv : moved t pc pc' ts ts') (Hinv : ConnInv (config n) (connections n) ts).

Lemma guards_ext : guards_of pc' = guards_of pc →
  (∀ a, sum_list_with (n_guards a) ts' = sum_list_with (n_guards a) ts) ∧
  sum_list_with n_all_guards ts' = sum_list_with n_all_guards ts ∧
  (∀ i, sum_list_with (n_charges i) ts' = sum_list_with (n_charges i) ts) ∧
  (∀ a, sum_list_with (n_pending a) ts' = sum_list_with (n_pending a) ts) ∧
  sum_list_with n_setups ts' = sum_list_with n_setups ts.
Proof.
  intros Hg. destruct Hmv as [_ H1 H2 H3 H4 H5 _ _].
  unfold n_guards, n_all_guards, n_charges, n_pending, n_setups in *. rewrite Hg in *.
  split_and!; [intros a; specialize (H1 a)| |intros i; specialize (H3 i)|intros a; specialize (H4 a)|];
    lia.
Qed.

Lemma claims_ext : claim_of pc' = claim_of pc →
  (∀ a, sum_list_with (n_claims a) ts' = sum_list_with (n_claims a) ts) ∧
  (∀ u pcu x, ts' !! u = Some pcu → claim_of pcu = Some x →
     ∃ u' pcu', ts !! u' = Some pcu' ∧ claim_of pcu' = Some x).
Proof.
  intros Hc. destruct Hmv as [Ht _ _ _ _ _ H6 H7]. unfold n_claims in *. rewrite Hc in *. split.
  - intros a. specialize (H6 a). lia.
  - intros u pcu x Hu Hx. destruct (H7 u pcu x Hu Hx) as [[-> ?]|[_ (?&?&?)]]; eauto.
Qed.

(** Steps that change neither the bookkeeping's domain nor what the thread owns. *)
Lemma inv_same_domain cs' :
  guards_of pc' = guards_of pc → claim_of pc' = claim_of pc →
  limits cs' = limits (connections n) →
  (∀ a, (disconnecting <$> active cs' !! a) = (disconnecting <$> active (connections n) !! a)) →
  (∀ a, (id <$> active cs' !! a) = (id <$> active (connections n) !! a)) →
  (∀ a, (conn_addr <$> active cs' !! a) = (conn_addr <$> active (connections n) !! a)) →
  (∀ i, active_on i (active cs') = active_on i (active (connections n))) →
  size (active cs') = size (active (connections n)) →
  ConnInv (config n) cs' ts'.
Proof.
  intros Hg Hc Hl Hd Hi Ha Hon Hsz.
  destruct (guards_ext Hg) as (E1&E2&E3&E4&E5), (claims_ext Hc) as [E6 E7].
  destruct Hinv as [I1 I2 I3 I4 I5 I6 I7 I8 I9 I10].
  split; rewrite ?Hl; intros; rewrite ?E1, ?E2, ?E3, ?E4, ?E5, ?E6, ?Hon, ?Hsz; auto.
  - apply I5. specialize (Hi a). destruct (active cs' !! a), (active (connections n) !! a);
      simplify_eq/=; done.
  - rewrite I6. unfold claimed_at. specialize (Hd a).
    destruct (active cs' !! a), (active (connections n) !! a); simplify_eq/=; congruence.
  - destruct (E7 _ _ _ H H0) as (u'&pcu'&Hu'&Hx'). destruct (I7 _ _ _ _ Hu' Hx') as (c&Hca&Hid).
    specialize (Hi a). rewrite Hca in Hi. simpl in Hi. apply fmap_Some in Hi as (c'&Hc'&Hid').
    exists c'. split; [done|congruence].
  - specialize (Ha a). rewrite H in Ha. simpl in Ha. symmetry in Ha.
    apply fmap_Some in Ha as (c'&Hc'&->). by apply I8.
Qed.

Lemma inv_reserve a n' :
  check_and_reserve n a = Ok n' →
  guards_of pc = [] → guards_of pc' = [(a, false)] → claim_of pc = None → claim_of pc' = None →
  ConnInv (config n) (connections n') ts'.
Proof.
  intros (Ha & Hna & Hip & Hcg & Htot & ->)%check_and_reserve_inv Hg Hg' Hc Hc'.
  destruct (claims_ext ltac:(congruence)) as [E6 E7].
  destruct Hmv as [Ht H1 H2 H3 H4 H5 _ _], Hinv as [I1 I2 I3 I4 I5 I6 I7 I8 I9 I10].
  moved_guards Hg Hg' H1 H2 H3 H4 H5.
  split; simpl.
  - intros x. specialize (H1 x). rewrite I1 in H1.
    rewrite b2n_union by done. lia.
  - rewrite size_union_fresh by done. lia.
  - intros i. rewrite reserve_bucket, I3. specialize (H3 i).
    case_decide; case_bool_decide; simpl in *; try done; lia.
  - auto with pea.
  - intros x Hx. specialize (H4 x). rewrite I5 in H4 by done.
    case_bool_decide; simpl in *; [|lia]. subst. rewrite Ha in Hx. by destruct Hx.
  - intros x. by rewrite E6, I6.
  - intros u pcu x g Hu Hx. destruct (E7 _ _ _ Hu Hx) as (?&?&?&?). eauto.
  - done.
  - unfold num_connected in Htot.
    assert (sum_list_with n_setups ts ≤ sum_list_with n_all_guards ts)%nat.
    { apply sum_list_with_le. intros x. apply countb_le_length. }
    lia.
  - intros i. rewrite reserve_bucket. case_decide; [|rewrite N.add_0_r; done]. subst.
    rewrite ip_count_bucket in Hip. lia.
Qed.

Lemma guards_le_one a : (sum_list_with (n_guards a) ts ≤ 1)%nat.
Proof. rewrite (inv_guards _ _ _ Hinv). by destruct (bool_decide _); simpl; lia. Qed.

Lemma pending_le_guards a : (sum_list_with (n_pending a) ts ≤ sum_list_with (n_guards a) ts)%nat.
Proof.
  apply sum_list_with_le. intros x. apply countb_le. intros [a' b].
  unfold pending_at, guard_at. by intros [? _]%andb_prop.
Qed.

(** An uncompleted reservation for [a] keeps [a] out of the active map. *)
Lemma pending_inactive a :
  (0 < n_pending a pc)%nat → active (connections n) !! a = None.
Proof.
  intros Hp. apply eq_None_not_Some. intros Hs.
  pose proof (inv_pending _ _ _ Hinv a Hs).
  pose proof (sum_list_with_lookup (n_pending a) ts t pc (mv_at _ _ _ _ _ Hmv)). lia.
Qed.

Lemma inv_add a c own ready sched :
  pc = AdAdd a c own ready sched → pc' = AdGuard a (id c) own ready sched →
  conn_addr c = a → disconnecting c = false →
  ConnInv (config n) (set_active (connections n) (<[conn_addr c := c]> (active (connections n)))) ts'.
Proof.
  intros Hpc Hpc' Ha Hd.
  assert (Hfresh : active (connections n) !! a = None).
  { apply pending_inactive. subst pc. unfold n_pending, pending_at. simpl.
    rewrite bool_decide_eq_true_2 by done. simpl. lia. }
  pose proof (guards_le_one a) as Hle. pose proof (pending_le_guards a) as Hpl.
  destruct (claims_ext ltac:(by subst)) as [E6 E7].
  destruct Hmv as [Ht H1 H2 H3 H4 H5 _ _], Hinv as [I1 I2 I3 I4 I5 I6 I7 I8 I9 I10].
  assert (Hg : guards_of pc = [(a, false)]) by (by subst).
  assert (Hg' : guards_of pc' = [(a, true)]) by (by subst).
  moved_guards Hg Hg' H1 H2 H3 H4 H5. rewrite Ha.
  split; simpl.
  - intros x. specialize (H1 x). rewrite I1 in H1. lia.
  - lia.
  - intros i. rewrite I3. specialize (H3 i). unfold active_on.
    rewrite map_countb_insert_None by done. rewrite andb_true_r, andb_false_r in H3. simpl in H3. lia.
  - done.
  - intros x. rewrite lookup_insert. specialize (H4 x). case_decide as Hx.
    + subst x. intros _. rewrite bool_decide_eq_true_2 in H4 by done. simpl in H4. lia.
    + intros Hs. rewrite I5 in H4 by done. rewrite bool_decide_eq_false_2 in H4 by done. simpl in H4. lia.
  - intros x. rewrite E6, I6. unfold claimed_at. rewrite lookup_insert. case_decide; [|done].
    subst x. by rewrite Hfresh, Hd.
  - intros u pcu x g Hu Hx. destruct (E7 _ _ _ Hu Hx) as (?&?&Hu'&Hx').
    destruct (I7 _ _ _ _ Hu' Hx') as (c'&Hc'&?). exists c'. split; [|done].
    rewrite lookup_insert_ne; [done|]. intros <-. congruence.
  - intros x c'. rewrite lookup_insert. case_decide; intros; simplify_eq; auto.
  - rewrite map_size_insert_None by done. lia.
  - done.
Qed.

Lemma guard_present a b : guards_of pc = (a, b) :: guards_of pc' → a ∈ connecting (limits (connections n)).
Proof.
  intros Hg. pose proof (inv_guards _ _ _ Hinv a) as E.
  pose proof (sum_list_with_lookup (n_guards a) ts t pc (mv_at _ _ _ _ _ Hmv)) as L.
  unfold n_guards in L at 1. rewrite Hg in L. simpl in L. unfold guard_at in L at 1. simpl in L.
  rewrite bool_decide_eq_true_2 in L by done. simpl in L.
  destruct (bool_decide _) eqn:D; simpl in E; [by apply bool_decide_eq_true in D|lia].
Qed.

Lemma guard_charged a :
  guards_of pc = (a, false) :: guards_of pc' → 0 < bucket (limits (connections n)) (canonical_ip a).
Proof.
  intros Hg. rewrite (inv_buckets _ _ _ Hinv).
  pose proof (sum_list_with_lookup (n_charges (canonical_ip a)) ts t pc (mv_at _ _ _ _ _ Hmv)) as L.
  unfold n_charges in L at 1. rewrite Hg in L. simpl in L. unfold charged_to in L at 1. simpl in L.
  rewrite bool_decide_eq_true_2 in L by done. simpl in L. lia.
Qed.

Lemma inv_guard_drop a b :
  guards_of pc = (a, b) :: guards_of pc' → claim_of pc = None → claim_of pc' = None →
  (guard_drop (connections n) a b).1 = true ∧
  ConnInv (config n) (guard_drop (connections n) a b).2 ts'.
Proof.
  intros Hg Hc Hc'. pose proof (guard_present a b Hg) as Hin.
  destruct (claims_ext ltac:(congruence)) as [E6 E7].
  assert (Hg' : guards_of pc' = guards_of pc') by done.
  unfold guard_drop. destruct b.
  - destruct Hmv as [Ht H1 H2 H3 H4 H5 _ _], Hinv as [I1 I2 I3 I4 I5 I6 I7 I8 I9 I10].
    moved_guards Hg Hg' H1 H2 H3 H4 H5.
    split; [done|]. split; simpl; try done.
    + intros x. specialize (H1 x). rewrite I1 in H1. pose proof (b2n_difference a x _ Hin). lia.
    + pose proof (size_difference_elem a _ Hin). lia.
    + intros i. specialize (I3 i). unfold bucket in *; simpl. rewrite I3. specialize (H3 i).
      rewrite andb_false_r in H3. simpl in H3. lia.
    + intros x Hx. specialize (H4 x). rewrite I5 in H4 by done. rewrite andb_false_r in H4. simpl in H4. lia.
    + intros x. by rewrite E6, I6.
    + intros u pcu x g Hu Hx. destruct (E7 _ _ _ Hu Hx) as (?&?&?&?). eauto.
    + lia.
  - pose proof (guard_charged a Hg) as Hb.
    pose proof (release_ip_buckets_ok (clear_connecting (limits (connections n)) a) a (inv_buckets_ok _ _ _ Hinv)) as Hok.
    destruct (release_ip (clear_connecting (limits (connections n)) a) a) as [ok l'] eqn:R.
    assert (∀ i, ok = true ∧ connecting l' = connecting (limits (connections n)) ∖ {[a]} ∧
      bucket (limits (connections n)) i = bucket l' i + (if decide (canonical_ip a = i) then 1 else 0)) as HR
      by (intros i; exact (release_ip_bucket _ _ _ _ i R Hb)).
    destruct (HR (canonical_ip a)) as (->&Hcon&_).
    destruct Hmv as [Ht H1 H2 H3 H4 H5 _ _], Hinv as [I1 I2 I3 I4 I5 I6 I7 I8 I9 I10].
    moved_guards Hg Hg' H1 H2 H3 H4 H5.
    split; [done|]. split; simpl; rewrite ?Hcon; try done.
    + intros x. specialize (H1 x). rewrite I1 in H1. pose proof (b2n_difference a x _ Hin). lia.
    + pose proof (size_difference_elem a _ Hin). lia.
    + intros i. specialize (I3 i). specialize (H3 i). rewrite andb_true_r in H3.
      destruct (HR i) as (_&_&Hi). case_decide; case_bool_decide; try done; simpl in *; lia.
    + intros x Hx. specialize (H4 x). rewrite I5 in H4 by done. lia.
    + intros x. by rewrite E6, I6.
    + intros u pcu x g Hu Hx. destruct (E7 _ _ _ Hu Hx) as (?&?&?&?). eauto.
    + lia.
    + intros i. destruct (HR i) as (_&_&Hi). specialize (I10 i). lia.
Qed.

Lemma inv_attach a cid task n' :
  attach_task n a cid task = Some n' → guards_of pc' = guards_of pc → claim_of pc' = claim_of pc →
  ConnInv (config n) (connections n') ts'.
Proof.
  intros (c & Ha & _ & ->)%attach_task_inv Hg Hc. apply inv_same_domain; try done; simpl.
  1-3: intros x; rewrite lookup_insert; case_decide; [|done]; subst; by rewrite Ha.
  - intros i. by eapply active_on_update.
  - by eapply size_update.
Qed.

Lemma inv_claim a cid c n' :
  claim_disconnect n a cid = Some n' → active (connections n) !! a = Some c →
  guards_of pc = [] → guards_of pc' = [] → claim_of pc = None → claim_of pc' = Some (a, id c) →
  ConnInv (config n) (connections n') ts'.
Proof.
  intros (c' & Ha & Hnd & _ & ->)%claim_disconnect_inv Hc Hg Hg' Hcl Hcl'.
  rewrite Hc in Ha. injection Ha as <-.
  destruct (guards_ext ltac:(congruence)) as (E1&E2&E3&E4&E5).
  destruct Hmv as [Ht _ _ _ _ _ H6 H7], Hinv as [I1 I2 I3 I4 I5 I6 I7 I8 I9 I10].
  split; simpl; intros; rewrite ?E1, ?E2, ?E3, ?E4, ?E5; auto.
  - by erewrite active_on_update.
  - apply I5. rewrite lookup_insert in H. case_decide; [by subst|done].
  - specialize (H6 a0). rewrite I6, (n_claims_of _ _ _ Hcl), (n_claims_of _ _ _ Hcl') in H6.
    unfold claimed_at in *. rewrite lookup_insert. case_decide; subst.
    + rewrite bool_decide_eq_true_2, Hc, Hnd in H6 by done. simpl in *. lia.
    + rewrite bool_decide_eq_false_2 in H6 by done. simpl in *. lia.
  - destruct (H7 _ _ _ H H0) as [[-> E]|[_ (pcu'&Hu&E)]].
    + rewrite Hcl' in E. simplify_eq. exists (set_disconnecting c). by rewrite lookup_insert_eq.
    + destruct (I7 _ _ _ _ Hu E) as (c'&Hc'&<-). rewrite lookup_insert.
      case_decide; [|by exists c']. subst. exists (set_disconnecting c). split; [done|]. simpl. congruence.
  - rewrite lookup_insert in H. case_decide; [|by apply I8]. simplify_eq. exact (I8 _ _ Hc).
  - by erewrite size_update.
Qed.

(** The connection a thread has claimed is still there, and nobody else has claimed it. *)
Lemma claim_present a g :
  claim_of pc = Some (a, g) →
  (∃ c, active (connections n) !! a = Some c ∧ id c = g ∧ disconnecting c = true) ∧
  sum_list_with (n_claims a) ts = 1%nat.
Proof.
  intros Hc. destruct (inv_claim_id _ _ _ Hinv _ _ _ _ (mv_at _ _ _ _ _ Hmv) Hc) as (c&Ha&Hid).
  pose proof (inv_claims _ _ _ Hinv a) as E. unfold claimed_at in E. rewrite Ha in E.
  pose proof (sum_list_with_lookup (n_claims a) ts t pc (mv_at _ _ _ _ _ Hmv)) as L.
  unfold n_claims in L at 1. rewrite Hc, bool_decide_eq_true_2 in L by done. simpl in L.
  destruct (disconnecting c) eqn:D; simpl in E; [|lia]. split; [by exists c|done].
Qed.

Lemma inv_remove a g :
  claim_of pc = Some (a, g) → claim_of pc' = None → guards_of pc = [] → guards_of pc' = [] →
  (finalizer_remove n a).1.1 = true ∧
  ConnInv (config n) (connections (finalizer_remove n a).2) ts'.
Proof.
  intros Hcl Hcl' Hg Hg'. destruct (claim_present a g Hcl) as [(c&Ha&Hid&Hd) Hone].
  destruct (guards_ext ltac:(congruence)) as (E1&E2&E3&E4&E5).
  destruct (finalizer_remove n a) as [[ok conn] n'] eqn:R.
  apply finalizer_remove_inv in R as (->&Hact&Hrel). simpl.
  assert (Hb : 0 < bucket (limits (connections n)) (canonical_ip a)).
  { rewrite (inv_buckets _ _ _ Hinv).
    assert (0 < active_on (canonical_ip a) (active (connections n)))%nat; [|lia].
    apply (map_countb_pos _ _ a c Ha). by apply bool_decide_eq_true_2. }
  pose proof (release_ip_buckets_ok _ a (inv_buckets_ok _ _ _ Hinv)) as Hok. rewrite Hrel in Hok. simpl in Hok.
  assert (∀ i, ok = true ∧ connecting (limits (connections n')) = connecting (limits (connections n)) ∧
      bucket (limits (connections n)) i = bucket (limits (connections n')) i + (if decide (canonical_ip a = i) then 1 else 0)) as HR
    by (intros i; exact (release_ip_bucket _ _ _ _ i Hrel Hb)).
  destruct (HR (canonical_ip a)) as (->&Hcon&_). split; [done|].
  destruct Hmv as [Ht _ _ _ _ _ H6 H7], Hinv as [I1 I2 I3 I4 I5 I6 I7 I8 I9 I10].
  split; rewrite ?Hact, ?Hcon; intros; rewrite ?E1, ?E2, ?E3, ?E4, ?E5; auto.
  - destruct (HR i) as (_&_&Hi). specialize (I3 i).
    pose proof (map_countb_delete (λ x _, bool_decide (canonical_ip x = i)) _ a c Ha) as Hdel.
    unfold active_on in *. case_decide; case_bool_decide; try done; simpl in *; lia.
  - apply I5. rewrite lookup_delete in H. case_decide; [by destruct H|done].
  - specialize (H6 a0). rewrite I6, (n_claims_of _ _ _ Hcl), (n_claims_of _ _ _ Hcl') in H6.
    unfold claimed_at in *. rewrite lookup_delete. case_decide; subst.
    + rewrite bool_decide_eq_true_2, Ha, Hd in H6 by done. simpl in *. lia.
    + rewrite bool_decide_eq_false_2 in H6 by done. simpl in *. lia.
  - destruct (H7 _ _ _ H H0) as [[-> E]|[Hne (pcu'&Hu&E)]]; [congruence|].
    rewrite lookup_delete. case_decide; [|by eapply I7]. subst a0. exfalso.
    pose proof (sum_list_with_lookup2 (n_claims a) ts _ _ _ _ Hne Hu Ht) as L.
    unfold n_claims in L at 1 2. rewrite E, Hcl, bool_decide_eq_true_2 in L by done. simpl in L. lia.
  - rewrite lookup_delete in H. case_decide; [done|]. by apply I8.
  - rewrite map_size_delete_Some by (by exists c). lia.
  - destruct (HR i) as (_&_&Hi). specialize (I10 i). lia.
Qed.

Lemma conn_step_inv cs' :
  conn_step n pc pc' cs' → pc_addr_ok ts pc → ConnInv (config n) cs' ts'.
Proof.
  intros Hs [Hown _]. destruct Hs.
  - by apply inv_same_domain.
  - by eapply inv_reserve.
  - destruct (Hown a c) as [? ?]; [by subst|]. by eapply inv_add.
  - by apply inv_guard_drop.
  - by eapply inv_claim.
  - by eapply inv_attach.
  - by eapply inv_remove.
Qed.
End conn_inv_step.

(** ** Setup permits cover reservations *)

(** Every reservation still to be dropped is followed by a permit still to be released. *)
Fixpoint covered (ds : list Owned) : bool :=
  match ds with
  | [] => true
  | d :: ds' => (length (omap owned_guard ds) <=? countb owned_permit ds)%nat && covered ds'
  end.

Definition pc_covered (pc : Pc) : bool := match pc with Unwind ds _ => covered ds | _ => true end.

Lemma covered_guards pc : pc_covered pc = true → (n_all_guards pc ≤ n_permits pc)%nat.
Proof.
  unfold n_all_guards. destruct pc; simpl; try lia. destruct owned as [|d ds]; simpl; [lia|].
  intros [H _]%andb_prop. by apply Nat.leb_le in H.
Qed.

#[export] Instance pc_covered_neutral : Neutral pc_covered.
Proof. solve_neutral. Qed.

Lemma thread_step_covered t ts n pc ch o :
  thread_step t ts n pc ch = Some o → pc_covered pc = true →
  pc_covered (o_pc o) = true ∧ Forall (λ pc, pc_covered pc = true) (o_spawn o).
Proof.
  intros H Hc. split.
  - destruct pc; step_cases H; try done; try (by apply andb_prop in Hc as [_ ?]). by destruct k.
  - destruct pc; step_cases H; repeat constructor. apply Forall_fmap, Forall_true. done.
Qed.

(** A neutral boolean view that holds of all threads, of the stepped one and of the spawned ones
    holds of all threads afterwards. *)
Definition all_threads (f : Pc → bool) (ts : list Pc) : Prop := Forall (λ b, b = true) (f <$> ts).

Lemma all_threads_lookup f ts t pc : all_threads f ts → ts !! t = Some pc → f pc = true.
Proof. intros Ha Ht. unfold all_threads in Ha. rewrite Forall_fmap in Ha. by eapply Forall_lookup_1 in Ha. Qed.

Lemma all_threads_app f ts l :
  all_threads f ts → Forall (λ pc, f pc = true) l → all_threads f (ts ++ l).
Proof. intros Ha Hl. unfold all_threads. rewrite fmap_app. apply Forall_app. split; [done|]. by apply Forall_fmap. Qed.

Lemma apply_out_all f `{!Neutral f} t o s :
  all_threads f (threads s) → f (o_pc o) = true → Forall (λ pc, f pc = true) (o_spawn o) →
  all_threads f (threads (apply_out t o s)).
Proof.
  intros Ha Ho Hs. unfold all_threads. rewrite (apply_out_fmap f). apply Forall_app. split.
  - by apply Forall_insert.
  - by apply Forall_fmap.
Qed.

(** ** The invariant of reachable states *)

Record Inv (c : Config) (s : Sys) : Prop := {
  inv_ok : config_ok (config (node s)) ∧ max_connections (config (node s)) = max_connections c ∧
    max_connections_per_ip (config (node s)) = max_connections_per_ip c ∧
    max_connecting (config (node s)) = N.min (max_connecting c) (max_connections c);
  inv_conn : ConnInv (config (node s)) (connections (node s)) (threads s);
  inv_permits : connecting_permits (node s) + N.of_nat (sum_list_with n_permits (threads s)) =
    max_connecting (config (node s));
  inv_scheds : sched_in_flight (shutdown (node s)) = N.of_nat (sum_list_with n_scheds (threads s));
  inv_covered : all_threads pc_covered (threads s);
  inv_asserts : EvAssertFailed ∉ log s;
}.

(** The debug assertions of the bookkeeping hold at every step. *)
Lemma thread_step_asserts c s t pc ch o :
  threads s !! t = Some pc → thread_step t (threads s) (node s) pc ch = Some o →
  ConnInv c (connections (node s)) (threads s) → c = config (node s) → EvAssertFailed ∉ o_log o.
Proof.
  intros Ht H Hinv ->. destruct (thread_step_conn _ _ _ _ _ _ H) as [_ Hidle].
  pose proof (apply_out_moved t o s pc Ht Hidle) as Hmv.
  destruct pc; step_cases H; try set_solver.
  - destruct (inv_claim_id _ _ _ Hinv _ _ addr g Ht eq_refl) as (c&Hc&_).
    match goal with E : attach_task _ _ _ _ = None |- _ => unfold attach_task in E; by rewrite Hc in E end.
  - destruct (inv_remove _ _ _ _ _ _ Hmv Hinv addr g) as [Hok _]; [done..|].
    match goal with E : finalizer_remove _ _ = _ |- _ => rewrite E in Hok end.
    simplify_eq/=.
  - destruct (inv_remove _ _ _ _ _ _ Hmv Hinv addr g) as [Hok _]; [done..|].
    match goal with E : finalizer_remove _ _ = _ |- _ => rewrite E in Hok end.
    simplify_eq/=.
  - destruct (inv_guard_drop _ _ _ _ _ _ Hmv Hinv addr completed) as [Hok _]; [done..|].
    match goal with E : guard_drop _ _ _ = _ |- _ => rewrite E in Hok end.
    simplify_eq/=.
Qed.

Lemma inv_run c s t pc ch o :
  threads s !! t = Some pc → thread_step t (threads s) (node s) pc ch = Some o →
  addr_ok (threads s) → Inv c s → Inv c (apply_out t o s).
Proof.
  intros Ht H Hok [I1 I2 I3 I4 I5 I6].
  pose proof (thread_step_config _ _ _ _ _ _ H) as Hcfg.
  destruct (thread_step_conn _ _ _ _ _ _ H) as [Hcs Hidle].
  pose proof (apply_out_moved t o s pc Ht Hidle) as Hmv.
  destruct (thread_step_covered _ _ _ _ _ _ H) as [Hc1 Hc2]; [by eapply all_threads_lookup|].
  split; simpl o_node; rewrite ?Hcfg; simpl node; rewrite ?Hcfg; auto.
  - by eapply conn_step_inv; eauto.
  - pose proof (thread_step_permits _ _ _ _ _ _ H).
    pose proof (apply_out_sum n_permits t o s pc Ht). lia.
  - pose proof (sum_list_with_lookup n_scheds _ _ _ Ht).
    pose proof (thread_step_scheds _ _ _ _ _ _ H ltac:(lia)).
    pose proof (apply_out_sum n_scheds t o s pc Ht). lia.
  - by apply (apply_out_all pc_covered).
  - pose proof (thread_step_asserts _ _ _ _ _ _ Ht H I2 eq_refl). simpl. set_solver.
Qed.

Lemma inv_cancel c s t pc o :
  threads s !! t = Some pc → cancel (node s) pc = Some o → Inv c s → Inv c (apply_out t o s).
Proof.
  intros Ht H [I1 I2 I3 I4 I5 I6].
  destruct (cancel_conn _ _ _ H) as (Hg&Hc&Hn&Hs&Hp&Hsc&Hl).
  assert (Forall idle (o_spawn o)) as Hidle by (by rewrite Hs).
  pose proof (apply_out_moved t o s pc Ht Hidle) as Hmv.
  pose proof (apply_out_sum n_permits t o s pc Ht) as Ep. rewrite Hs, Hp in Ep.
  pose proof (apply_out_sum n_scheds t o s pc Ht) as Es. rewrite Hs, Hsc in Es. simpl in Ep, Es.
  split; simpl node; rewrite ?Hn; auto.
  - by eapply inv_same_domain.
  - simpl. lia.
  - simpl. lia.
  - apply (apply_out_all pc_covered); [done| |by rewrite Hs].
    clear -H. destruct pc; unfold cancel, next, abandon in H; repeat case_match; by simplify_eq/=.
  - simpl. by rewrite Hl.
Qed.

Lemma user_pc_idle pc : user_pc pc = true → idle pc ∧ n_permits pc = 0%nat ∧ n_scheds pc = 0%nat ∧ pc_covered pc = true.
Proof. destruct pc; try done; simpl; intros; repeat case_match; done. Qed.

Lemma user_threads_fmap {B} (f : Pc → B) `{!Neutral f} ts l ab :
  f <$> foldl (λ ts t, abort_thread t ts) (ts ++ l) ab = (f <$> ts) ++ (f <$> l).
Proof. by rewrite (aborts_fmap f), fmap_app. Qed.

Lemma user_threads_sum (f : Pc → nat) `{!Neutral f} ts l ab :
  Forall (λ pc, f pc = 0%nat) l →
  sum_list_with f (foldl (λ ts t, abort_thread t ts) (ts ++ l) ab) = sum_list_with f ts.
Proof.
  intros Hl. rewrite !(sum_fmap f), (user_threads_fmap f), sum_list_with_app, <-!(sum_fmap f).
  rewrite (sum_idle f l) by done. lia.
Qed.

Lemma conn_inv_user cfg cs ts l ab :
  Forall idle l → ConnInv cfg cs ts → ConnInv cfg cs (foldl (λ ts t, abort_thread t ts) (ts ++ l) ab).
Proof.
  intros Hl [I1 I2 I3 I4 I5 I6 I7 I8 I9 I10].
  assert (∀ f : Pc → nat, Neutral f → (∀ pc, idle pc → f pc = 0%nat) →
    sum_list_with f (foldl (λ ts t, abort_thread t ts) (ts ++ l) ab) = sum_list_with f ts) as E.
  { intros f Hf H0. apply user_threads_sum; [done|]. eapply Forall_impl; eauto. }
  split; intros; auto.
  - rewrite E; [done|typeclasses eauto|]. unfold n_guards. by intros pc [-> _].
  - rewrite E; [done|typeclasses eauto|]. unfold n_all_guards. by intros pc [-> _].
  - rewrite E; [done|typeclasses eauto|]. unfold n_charges. by intros pc [-> _].
  - rewrite E; [auto|typeclasses eauto|]. unfold n_pending. by intros pc [-> _].
  - rewrite E; [done|typeclasses eauto|]. unfold n_claims. by intros pc [_ ->].
  - assert ((claim_of <$> foldl (λ ts t, abort_thread t ts) (ts ++ l) ab) !! t = Some (Some (a, g))) as Ec
      by (by rewrite list_lookup_fmap, H; simpl; f_equal).
    rewrite (user_threads_fmap claim_of) in Ec. apply lookup_app_Some in Ec as [Ec|[_ Ec]];
      apply list_lookup_fmap_Some in Ec as (pc'&E1&E'); [by eauto|].
    assert (idle pc') as [_ Hc] by (by eapply Forall_lookup_1 in Hl). congruence.
  - rewrite E; [done|typeclasses eauto|]. unfold n_setups. by intros pc [-> _].
Qed.

Lemma inv_user c s n' l ab :
  same_core (node s) n' → Forall (λ pc, user_pc pc = true) l → Inv c s →
  Inv c (mkSys n' (foldl (λ ts t, abort_thread t ts) (threads s ++ l) ab) (log s)).
Proof.
  intros [E1 E2 E3 E4] Hl [I1 I2 I3 I4 I5 I6].
  split; simpl; rewrite ?E1, ?E2, ?E3, ?E4; auto.
  - apply conn_inv_user; [|done]. eapply Forall_impl; [done|]. by intros pc (?&_)%user_pc_idle.
  - rewrite (user_threads_sum n_permits); [done|]. eapply Forall_impl; [done|]. by intros pc (_&?&_)%user_pc_idle.
  - rewrite (user_threads_sum n_scheds); [done|]. eapply Forall_impl; [done|]. by intros pc (_&_&?&_)%user_pc_idle.
  - unfold all_threads. rewrite (user_threads_fmap pc_covered). apply Forall_app. split; [done|].
    apply Forall_fmap. eapply Forall_impl; [done|]. by intros pc (_&_&_&?)%user_pc_idle.
Qed.

Lemma conn_inv_init cfg : ConnInv cfg default_connections [].
Proof.
  split; simpl; intros; try done; try lia.
  - rewrite map_size_empty. lia.
  - unfold bucket; simpl. rewrite lookup_empty. simpl. lia.
Qed.

Lemma reachable_inv c s : reachable c s → Inv c s.
Proof.
  induction 1 as [seq_id now conn_id seq_id' n _ Hn|s l s' Hr IH Hs].
  - unfold new_node in Hn. destruct (admit_config seq_id c) as [|[q c']] eqn:E; simplify_eq/=.
    destruct (admit_config_limits _ _ _ _ E) as (E1&E2&E3&_).
    split; simpl; auto using conn_inv_init; try lia.
    + split; [by eapply admit_config_ok|done].
    + by constructor.
    + set_solver.
  - apply step_inv in Hs as [t pc ch o Ht E|t pc o Ht E|n' l' ab ? ? Hl|].
    + by eapply inv_run, IH; eauto using reachable_addr_ok.
    + by eapply inv_cancel.
    + by apply inv_user.
    + destruct IH as [I1 I2 I3 I4 I5 I6]. split; simpl; auto. set_solver.
Qed.
#[export] Hint Resolve reachable_inv : pea.

(** A connection about to be added keeps the address of its reservation, and that address is free. *)
Lemma add_fresh c s t a conn own ready sched :
  Inv c s → addr_ok (threads s) → threads s !! t = Some (AdAdd a conn own ready sched) →
  conn_addr conn = a ∧ disconnecting conn = false ∧ active (connections (node s)) !! a = None.
Proof.
  intros [_ Hinv _ _ _ _] Hok Ht. destruct (Hok _ _ Ht) as [Ho _].
  destruct (Ho a conn eq_refl) as [? ?]. split_and!; [done..|]. apply eq_None_not_Some. intros Hs.
  pose proof (inv_pending _ _ _ Hinv a Hs) as E.
  pose proof (sum_list_with_lookup (n_pending a) _ _ _ Ht) as L.
  assert (n_pending a (AdAdd a conn own ready sched) = 1)%nat; [|lia].
  unfold n_pending, pending_at. simpl. by rewrite bool_decide_eq_true_2.
Qed.
