(* ===== verification/Links.v ===== *)
(** * Threads that refer to other threads

    A task keeps handles of tasks it spawned (a disconnect that of its [OnDisconnect] hook, a setup
    that of its scheduling task).  [Stable] describes what such a task remains, whatever the other
    tasks do to it; [Link] is what makes every handle held in a reachable state refer to a task of
    the expected kind. *)

From S2P Require Import Prelude Net Config Stats Connections Node Tasks Ownership Lifecycle.

(** A kind of task that no step, cancellation or effect of another thread leads out of. *)
Class Stable (target : Pc → bool) : Prop := {
  stable_aborted pc : target pc = true → target (aborted pc) = true;
  stable_stopped k : target (TkHandler k) = true → target (Unwind [] Dropped) = true;
  stable_ready a i : target (TkWaitReady a i) = true → target (TkRun Reader a i) = true;
  stable_reply_ok k a c own : target (AdAwait k a own) = true → target (after_proto k a c own) = true;
  stable_reply_err k a r own : target (AdAwait k a own) = true → target (abandon a r) = true;
  stable_step t ts n pc ch o :
    thread_step t ts n pc ch = Some o → target pc = true → target (o_pc o) = true;
  stable_cancel n pc o : cancel n pc = Some o → target pc = true → target (o_pc o) = true;
}.

(** Thread [u] is of the kind [target]. *)
Definition kind_at (target : Pc → bool) (ts : list Pc) (u : nat) : Prop :=
  ∃ pc, ts !! u = Some pc ∧ target pc = true.

Section stable.
Context (target : Pc → bool) `{!Stable target}.

Lemma kind_at_alter (f : Pc → Pc) ts u t :
  (∀ pc, target pc = true → target (f pc) = true) → kind_at target ts u → kind_at target (alter f t ts) u.
Proof.
  intros Hf (pc&Hu&Hh). unfold kind_at. rewrite list_lookup_alter. case_decide; subst; rewrite Hu; simpl; eauto.
Qed.

Lemma kind_at_aborts l ts u : kind_at target ts u → kind_at target (foldl (λ ts t, abort_thread t ts) ts l) u.
Proof.
  revert ts. induction l as [|t l IH]; intros ts Hu; simpl; [done|].
  apply IH, kind_at_alter; [apply stable_aborted|done].
Qed.

Lemma kind_at_insert ts u t pc pc' :
  ts !! t = Some pc → (target pc = true → target pc' = true) →
  kind_at target ts u → kind_at target (<[t := pc']> ts) u.
Proof.
  intros Ht Hh (pcu&Hu&Hhu). destruct (decide (t = u)) as [->|Hne].
  - exists pc'. rewrite list_lookup_insert_eq by (by apply lookup_lt_Some in Hu). simplify_eq. auto.
  - exists pcu. by rewrite list_lookup_insert_ne.
Qed.

Lemma kind_at_effect ts e u : kind_at target ts u → kind_at target (apply_effect ts e) u.
Proof.
  destruct e as [t|t|t|t|t r]; simpl.
  - apply kind_at_alter, stable_aborted.
  - apply kind_at_alter. intros []; try done. apply stable_stopped.
  - apply kind_at_alter. intros []; try done. destruct k; try done. apply (stable_aborted (TkRun Writer addr conn_id)).
  - apply kind_at_alter. intros []; try done. apply stable_ready.
  - intros Hu. unfold reply_thread. destruct (ts !! t) as [pc|] eqn:Ht; [|destruct r; auto using kind_at_aborts].
    destruct pc, r; auto using kind_at_aborts; (eapply kind_at_insert; [done| |done]);
      [apply stable_reply_ok|apply stable_reply_err].
Qed.

Lemma kind_at_effects es ts u : kind_at target ts u → kind_at target (foldl apply_effect ts es) u.
Proof. revert ts. induction es as [|e es IH]; intros ts Hu; simpl; [done|]. by apply IH, kind_at_effect. Qed.

Lemma kind_at_app ts l u : kind_at target ts u → kind_at target (ts ++ l) u.
Proof. intros (pc&Hu&Hh). exists pc. split; [|done]. by apply lookup_app_l_Some. Qed.

Lemma kind_at_out t o s pc u :
  threads s !! t = Some pc → (target pc = true → target (o_pc o) = true) →
  kind_at target (threads s) u → kind_at target (threads (apply_out t o s)) u.
Proof. intros Ht Ho Hu. apply kind_at_effects, kind_at_app. by eapply kind_at_insert. Qed.

(** The first spawned task, and the place it takes. *)
Lemma kind_at_spawn t o s pc :
  o_spawn o !! 0%nat = Some pc → target pc = true → kind_at target (threads (apply_out t o s)) (length (threads s)).
Proof.
  intros Hs Hp. simpl. apply kind_at_effects. exists pc. split; [|done].
  rewrite lookup_app_r by (by rewrite length_insert). by rewrite length_insert, Nat.sub_diag.
Qed.

(** Once of that kind, a thread stays so. *)
Lemma kind_at_step l s s' u :
  step l s = Some s' → kind_at target (threads s) u → kind_at target (threads s') u.
Proof.
  intros [t pc ch o Ht E|t pc o Ht E|n' l' ab _ _ Hl|]%step_inv Hu; [| |by apply kind_at_aborts, kind_at_app|done].
  - eapply kind_at_out; eauto using stable_step.
  - eapply kind_at_out; eauto using stable_cancel.
Qed.

Lemma kind_at_run ls s s' u :
  run ls s = Some s' → kind_at target (threads s) u → kind_at target (threads s') u.
Proof.
  revert s. induction ls as [|l ls IH]; intros s H Hu; simplify_eq/=; [done|].
  destruct (step l s) as [s1|] eqn:E; simplify_eq/=. eapply IH; [done|]. by eapply kind_at_step.
Qed.
End stable.

(** The handle a program counter holds ([link]) refers to a task of kind [target]: a handle is
    obtained by spawning such a task, and passed on only from a thread to itself. *)
Class Link (link : Pc → option nat) (target : Pc → bool) : Prop := {
  link_neutral :: Neutral link;
  link_stable :: Stable target;
  link_step t ts n pc ch o :
    thread_step t ts n pc ch = Some o →
    link (o_pc o) = None ∨ link (o_pc o) = link pc ∨
    (link (o_pc o) = Some (length ts) ∧ ∃ pc', o_spawn o !! 0%nat = Some pc' ∧ target pc' = true);
  link_spawn t ts n pc ch o :
    thread_step t ts n pc ch = Some o → Forall (λ pc, link pc = None) (o_spawn o);
  link_cancel n pc o : cancel n pc = Some o → link (o_pc o) = None;
  link_user pc : user_pc pc = true → link pc = None;
}.

Section link.
Context (link : Pc → option nat) (target : Pc → bool) `{!Link link target}.

(** Every handle held by a thread is good. *)
Definition links_ok (ts : list Pc) : Prop :=
  ∀ t pc u, ts !! t = Some pc → link pc = Some u → kind_at target ts u.

(** The handles in a list of threads that views [vs] describe. *)
Lemma link_view (ts : list Pc) vs t pc u :
  link <$> ts = vs → ts !! t = Some pc → link pc = Some u → vs !! t = Some (Some u).
Proof. intros <- Ht Hu. by rewrite list_lookup_fmap, Ht; simpl; f_equal. Qed.

Lemma links_ok_out t o s pc :
  threads s !! t = Some pc → (target pc = true → target (o_pc o) = true) →
  link (o_pc o) = None ∨ link (o_pc o) = link pc ∨
  (link (o_pc o) = Some (length (threads s)) ∧ ∃ pc', o_spawn o !! 0%nat = Some pc' ∧ target pc' = true) →
  Forall (λ pc, link pc = None) (o_spawn o) →
  links_ok (threads s) → links_ok (threads (apply_out t o s)).
Proof.
  intros Ht Hk Ho Hsp Hok u pcu v Hu Hv.
  pose proof (link_view _ _ _ _ _ (apply_out_fmap link t o s) Hu Hv) as [E|[_ E]]%lookup_app_Some.
  - apply list_lookup_insert_Some in E as [(->&E&_)|[_ E]].
    + destruct Ho as [Ho|[Ho|[Ho (pc'&Es&Hp)]]]; [congruence| |].
      * eapply (kind_at_out target); [exact Ht|exact Hk|]. eapply Hok; [done|congruence].
      * rewrite Ho in E. injection E as <-. exact (kind_at_spawn target _ o s pc' Es Hp).
    + apply list_lookup_fmap_Some in E as (pc0&E&Hp). eapply (kind_at_out target); [exact Ht|exact Hk|]. by eapply Hok.
  - apply list_lookup_fmap_Some in E as (pc0&E&Hp). eapply Forall_lookup_1 in Hsp; [|done]. congruence.
Qed.

Lemma reachable_links c s : reachable c s → links_ok (threads s).
Proof.
  induction 1 as [|s l s' Hr IH Hs]; [by intros ? ? ? ?|].
  apply step_inv in Hs as [t pc ch o Ht E|t pc o Ht E|n' l' ab _ _ Hl|]; [..|done].
  - eapply links_ok_out; [done|by eapply stable_step|by eapply link_step|by eapply link_spawn|done].
  - destruct (cancel_conn _ _ _ E) as (_&_&_&Hs&_).
    eapply links_ok_out; [done|by eapply stable_cancel|left; by eapply link_cancel|by rewrite Hs|done].
  - intros u pcu v Hu Hv. simpl in *. apply kind_at_aborts, kind_at_app; try apply _.
    pose proof (link_view _ _ _ _ _ (user_threads_fmap link (threads s) l' ab) Hu Hv) as E.
    apply lookup_app_Some in E as [E|[_ E]]; apply list_lookup_fmap_Some in E as (pc0&E0&Hp); [by eapply IH|].
    eapply Forall_lookup_1 in Hl; [|done]. apply link_user in Hl. congruence.
Qed.
End link.
