(* ===== verification/Progress.v ===== *)
(** * Progress

    A disconnect that has been claimed can always be carried through: the [OnDisconnect] hook's task
    it waits for exists and can end, and the finalizer removes the connection. *)

From S2P Require Import Prelude Net Config Stats Connections Node Tasks Ownership Lifecycle Scenario Links.

Open Scope N_scope.

(** ** The hook task a disconnect waits for *)

(** The task of an [OnDisconnect] hook: running, past its last await, or ended. *)
Definition hook_task (pc : Pc) : bool :=
  match pc with TkRun HookOnDisconnect _ _ | Unwind [] _ | Done _ => true | _ => false end.

(** The hook task a claimed disconnect refers to. *)
Definition hook_of (pc : Pc) : option nat :=
  match pc with DsPush _ _ u | DsWait _ _ u => Some u | _ => None end.

#[export] Instance hook_task_stable : Stable hook_task.
Proof.
  split; try done.
  - intros []; try done. by destruct k.
  - intros t ts n pc ch o H. destruct pc; step_cases H; done.
  - intros n pc o H. destruct pc; unfold cancel, next, abandon in H; repeat case_match; by simplify_eq/=.
Qed.

#[export] Instance hook_link : Link hook_of hook_task.
Proof.
  split; [solve_neutral|apply _|..].
  - intros t ts n pc ch o H. destruct pc; step_cases H; auto; [by destruct k; left|]. right; right. eauto.
  - intros t ts n pc ch o H. destruct pc; step_cases H; repeat constructor. apply Forall_fmap, Forall_true. done.
  - intros n pc o H. destruct pc; unfold cancel, next, abandon in H; repeat case_match; by simplify_eq/=.
  - by intros [].
Qed.

(** ** Runs of the node's own tasks *)

Definition is_run (l : Label) : bool := match l with Run _ _ => true | _ => false end.

(** A [shut_down] in progress. *)
Definition is_shutdown (pc : Pc) : bool :=
  match pc with
  | SdBegin | SdTake | SdSnapshot _ | SdFan _ _ | SdRegister _ | SdCheck _ _ | SdPark _ _
  | SdSchedRegister _ | SdSchedCheck _ _ | SdSchedPark _ _ | SdSignal _ | SdJoin _ | SdClear => true
  | _ => false
  end.

(** The threads that the runs below leave alone: those that have ended, and shutdowns. *)
Definition fixed_of (pc : Pc) : option Pc :=
  if is_shutdown pc then Some pc else match pc with Done _ => Some pc | _ => None end.

#[export] Instance fixed_of_neutral : Neutral fixed_of.
Proof. solve_neutral. Qed.

Lemma fixed_of_eq pc pc' : fixed_of pc = Some pc' → pc = pc'.
Proof. unfold fixed_of. destruct pc; simpl; intros; by simplify_eq. Qed.

(** Steps of threads alone, none of them of a [shut_down], lead to a state that satisfies [P]. *)
Definition leads (P : Sys → Prop) (s : Sys) : Prop :=
  ∃ ls s', forallb is_run ls = true ∧ run ls s = Some s' ∧
    (∀ w pc, threads s !! w = Some pc → fixed_of pc = Some pc → threads s' !! w = Some pc) ∧ P s'.

Lemma leads_refl (P : Sys → Prop) s : P s → leads P s.
Proof. intros HP. by exists [], s. Qed.

Lemma leads_trans (P Q : Sys → Prop) s : leads P s → (∀ s', P s' → leads Q s') → leads Q s.
Proof.
  intros (ls&s1&L1&R1&K1&H1) HQ. destruct (HQ s1 H1) as (ls'&s2&L2&R2&K2&H2).
  exists (ls ++ ls'), s2. rewrite forallb_app, L1, L2, (run_app ls ls'), R1. by split_and!; auto.
Qed.

Lemma leads_mono (P Q : Sys → Prop) s : leads P s → (∀ s', P s' → Q s') → leads Q s.
Proof. intros H HPQ. apply (leads_trans P); [done|]. intros s' ?. by apply leads_refl, HPQ. Qed.

(** What a run keeps: reachability, and the program counter of a given fixed thread. *)
Lemma leads_keep (P : Sys → Prop) c s w pc :
  reachable c s → threads s !! w = Some pc → fixed_of pc = Some pc → leads P s →
  leads (λ s', reachable c s' ∧ threads s' !! w = Some pc ∧ P s') s.
Proof.
  intros Hr Hw Hf (ls&s'&L&R&K&H). exists ls, s'. split_and!; auto. by eapply run_reachable.
Qed.

(** A view of a thread after a step of another thread, and after its own. *)
Lemma apply_out_other {B} (f : Pc → B) `{!Neutral f} t o s u pc :
  u ≠ t → threads s !! u = Some pc → ∃ pc', threads (apply_out t o s) !! u = Some pc' ∧ f pc' = f pc.
Proof.
  intros Hne Hu. assert ((f <$> threads (apply_out t o s)) !! u = Some (f pc)) as E.
  { rewrite (apply_out_fmap f), lookup_app_l.
    - by rewrite list_lookup_insert_ne, list_lookup_fmap, Hu.
    - rewrite length_insert, length_fmap. by apply lookup_lt_Some in Hu. }
  apply list_lookup_fmap_Some in E as (pc'&E&Hp). eauto.
Qed.

Lemma apply_out_own {B} (f : Pc → B) `{!Neutral f} t o s pc :
  threads s !! t = Some pc → ∃ pc', threads (apply_out t o s) !! t = Some pc' ∧ f pc' = f (o_pc o).
Proof.
  intros Ht. assert ((f <$> threads (apply_out t o s)) !! t = Some (f (o_pc o))) as E.
  { apply lookup_lt_Some in Ht. rewrite (apply_out_fmap f), lookup_app_l by (by rewrite length_insert, length_fmap).
    apply list_lookup_insert_eq. by rewrite length_fmap. }
  apply list_lookup_fmap_Some in E as (pc'&E&Hp). eauto.
Qed.

Lemma apply_out_reachable c s t ch o pc :
  reachable c s → threads s !! t = Some pc → thread_step t (threads s) (node s) pc ch = Some o →
  reachable c (apply_out t o s).
Proof. intros Hr Ht H. apply (reach_step _ s (Run t ch)); [done|]. simpl. rewrite Ht. simpl. by rewrite H. Qed.

Lemma leads_step (P : Sys → Prop) s t ch o pc :
  threads s !! t = Some pc → fixed_of pc = None → thread_step t (threads s) (node s) pc ch = Some o →
  leads P (apply_out t o s) → leads P s.
Proof.
  intros Ht Hf H (ls&s'&L&R&K&HP). exists (Run t ch :: ls), s'. split_and!; [done| | |done].
  - simpl. rewrite Ht. simpl. by rewrite H.
  - intros w pcw Hw Hfw. apply K; [|done].
    destruct (apply_out_other fixed_of t o s w pcw) as (pc'&E&Hp); [congruence|done|].
    rewrite Hfw in Hp. by rewrite <-(fixed_of_eq _ _ Hp).
Qed.

(** The stepped thread after a step without effects. *)
Lemma apply_out_self t o s pc :
  threads s !! t = Some pc → o_effects o = [] → threads (apply_out t o s) !! t = Some (o_pc o).
Proof.
  intros Ht He. simpl. rewrite He. simpl. apply lookup_lt_Some in Ht.
  rewrite lookup_app_l by (by rewrite length_insert). by apply list_lookup_insert_eq.
Qed.

(** ** Carrying a disconnect through *)

(** Disconnect [t] runs to its end, which removes the connection at [a] and leaves the others. *)
Definition completes (s : Sys) (a : SocketAddr) (t : nat) : Prop :=
  leads (λ s', (∃ r, threads s' !! t = Some (Done r)) ∧
    active (connections (node s')) = delete a (active (connections (node s)))) s.

Lemma completes_step s a t u ch o pc :
  threads s !! u = Some pc → fixed_of pc = None → thread_step u (threads s) (node s) pc ch = Some o →
  delete a (active (connections (o_node o))) = delete a (active (connections (node s))) →
  completes (apply_out u o s) a t → completes s a t.
Proof.
  intros Ht Hf H Ha Hc. eapply leads_step; [done..|]. eapply leads_mono; [exact Hc|].
  intros s' [Hd E]. split; [done|]. rewrite E. exact Ha.
Qed.

(** Closing the writer's channel leaves the finalizer where it is. *)
Definition removing_of (pc : Pc) : option Pc := match pc with DsRemove _ _ _ => Some pc | _ => None end.

#[export] Instance removing_of_neutral : Neutral removing_of.
Proof. solve_neutral. Qed.

Section stages.
Context (c : Config) (a : SocketAddr) (g : N) (t : nat).

Lemma complete_drop s conn r :
  threads s !! t = Some (DsDrop conn r) → active (connections (node s)) !! a = None → completes s a t.
Proof.
  intros Ht Ha. eapply (leads_step _ s t Go _ _ Ht eq_refl eq_refl). apply leads_refl.
  destruct (apply_out_own fixed_of t (mkOut (node s) (Done r) [] (abort_conn conn) []) s _ Ht)
    as (pc'&E&Hp). apply fixed_of_eq in Hp as ->.
  split; [by eexists|]. simpl. by rewrite delete_id.
Qed.

Lemma complete_remove s r : threads s !! t = Some (DsRemove a g r) → completes s a t.
Proof.
  intros Ht. destruct (finalizer_remove (node s) a) as [[ok conn] n'] eqn:R.
  assert (∃ o, thread_step t (threads s) (node s) (DsRemove a g r) Go = Some o ∧ o_node o = n' ∧ o_effects o = [] ∧
    (o_pc o = Done r ∨ ∃ c, o_pc o = DsDrop c r)) as (o&E&Hn&He&Hpc).
  { simpl. rewrite R. destruct conn; eexists; split_and!; eauto. }
  apply finalizer_remove_inv in R as (_&Hact&_).
  pose proof (apply_out_self t o s _ Ht He) as Ht'.
  eapply (completes_step s a t t Go _ _ Ht eq_refl E); [by rewrite Hn, Hact, delete_delete_eq|].
  assert (active (connections (node (apply_out t o s))) !! a = None) as Hnone
    by (simpl; by rewrite Hn, Hact, lookup_delete_eq).
  destruct Hpc as [Hpc|[conn' Hpc]]; rewrite Hpc in Ht'; [|by eapply complete_drop].
  apply leads_refl. split; [by eexists|]. by rewrite delete_id.
Qed.

Lemma complete_senders s r : threads s !! t = Some (DsSenders a g r) → completes s a t.
Proof.
  intros Ht. eapply (completes_step s a t t Go _ _ Ht eq_refl eq_refl).
  - simpl. by rewrite finalizer_senders_connections.
  - destruct (apply_out_own removing_of t (mkOut (finalizer_senders (node s) a) (DsRemove a g r) []
      (EClose <$> fed_by (threads s) (node s) a) []) s _ Ht) as (pc'&E&Hp).
    apply (complete_remove _ r). rewrite E. by destruct pc'; simplify_eq/=.
Qed.

(** A step without effects on the way to the finalizer. *)
Lemma complete_skip s pc ch r lg :
  threads s !! t = Some pc → fixed_of pc = None →
  thread_step t (threads s) (node s) pc ch = Some (mkOut (node s) (DsSenders a g r) [] [] lg) → completes s a t.
Proof.
  intros Ht Hf H. eapply (completes_step s a t t ch _ _ Ht Hf H); [done|].
  apply (complete_senders _ r). by rewrite (apply_out_self t _ s _ Ht).
Qed.

Lemma complete_wait s u : threads s !! t = Some (DsWait a g u) → hook_over (threads s) u = true → completes s a t.
Proof.
  intros Ht Hu. eapply (complete_skip s _ Go); [exact Ht|done|]. simpl. by rewrite Hu.
Qed.

Lemma complete_waiting s u : reachable c s → threads s !! t = Some (DsWait a g u) → completes s a t.
Proof.
  intros Hr Ht. destruct (reachable_links hook_of hook_task _ _ Hr _ _ u Ht eq_refl) as (pc&Hu&Hh).
  destruct (hook_over (threads s) u) eqn:Ho; [by eapply complete_wait|].
  unfold hook_over in Ho. rewrite Hu in Ho. destruct pc; try done. destruct k; try done.
  assert (u ≠ t) by congruence.
  eapply (completes_step s a t u Go (mkOut (node s) (Unwind [] Dropped) [] [] [])); [done|done|done|done|].
  apply (complete_wait _ u); simpl; rewrite app_nil_r.
  - by rewrite list_lookup_insert_ne.
  - unfold hook_over. by rewrite list_lookup_insert_eq by (by apply lookup_lt_Some in Hu).
Qed.

Lemma complete_push s u : reachable c s → threads s !! t = Some (DsPush a g u) → completes s a t.
Proof.
  intros Hr Ht. destruct (inv_claim_id _ _ _ (inv_conn _ _ (reachable_inv _ _ Hr)) _ _ a g Ht eq_refl) as (conn&Ha&_).
  assert (∃ n', attach_task (node s) a None u = Some n') as [n' E] by (unfold attach_task; rewrite Ha; by eexists).
  assert (thread_step t (threads s) (node s) (DsPush a g u) Go = Some (mkOut n' (DsWait a g u) [] [] [])) as Hs
    by (simpl; by rewrite E).
  eapply (completes_step s a t t Go _ _ Ht eq_refl Hs).
  - apply attach_task_inv in E as (conn'&_&_&->). simpl. apply delete_insert_eq.
  - eapply complete_waiting; [exact (apply_out_reachable c s t Go _ _ Hr Ht Hs)|]. by rewrite (apply_out_self t _ s _ Ht).
Qed.

(** An accepted trigger is served, unless the handler is gone. *)
Lemma complete_await s : reachable c s → threads s !! t = Some (DsAwait a g) → completes s a t.
Proof.
  intros Hr Ht. destruct (handler_alive (threads s) TaskOnDisconnect) eqn:Hl.
  - assert (thread_step t (threads s) (node s) (DsAwait a g) Go = Some (mkOut (node s) (DsPush a g (length (threads s)))
      [TkRun HookOnDisconnect a g] [] [])) as Hs by (simpl; by rewrite Hl).
    eapply (completes_step s a t t Go _ _ Ht eq_refl Hs); [done|].
    eapply complete_push; [exact (apply_out_reachable c s t Go _ _ Hr Ht Hs)|]. by rewrite (apply_out_self t _ s _ Ht).
  - eapply (complete_skip s _ HandlerGone); [exact Ht|done|]. simpl. by rewrite Hl.
Qed.

Lemma complete_hook s o : reachable c s → threads s !! t = Some (DsHook a g o) → completes s a t.
Proof.
  intros Hr Ht. destruct (on_disconnect (protocols (node s))) eqn:E;
    [destruct (channel_open (threads s) (node s) TaskOnDisconnect) eqn:Ho|].
  - assert (thread_step t (threads s) (node s) (DsHook a g o) Go =
      Some (mkOut (node s) (DsAwait a g) [] [] [EvOnDisconnect g o])) as Hs by (simpl; by rewrite E, Ho).
    eapply (completes_step s a t t Go _ _ Ht eq_refl Hs); [done|].
    eapply complete_await; [exact (apply_out_reachable c s t Go _ _ Hr Ht Hs)|]. by rewrite (apply_out_self t _ s _ Ht).
  - eapply (complete_skip s _ Go); [exact Ht|done|]. simpl. by rewrite E, Ho.
  - eapply (complete_skip s _ Go); [exact Ht|done|]. simpl. by rewrite E.
Qed.
End stages.

Lemma claim_completes c s t pc a g :
  reachable c s → threads s !! t = Some pc → claim_of pc = Some (a, g) → completes s a t.
Proof.
  intros Hr Ht Hc. destruct pc; try done; simpl in Hc; injection Hc as -> ->.
  - by eapply complete_hook.
  - by eapply complete_await.
  - by eapply complete_push.
  - by eapply complete_waiting.
  - by eapply complete_senders.
  - by eapply complete_remove.
Qed.

(** A connection marked as disconnecting can be removed. *)
Lemma claimed_completes c s a conn :
  reachable c s → active (connections (node s)) !! a = Some conn → disconnecting conn = true →
  leads (λ s', active (connections (node s')) = delete a (active (connections (node s)))) s.
Proof.
  intros Hr Ha Hd. pose proof (inv_conn _ _ (reachable_inv _ _ Hr)) as Hinv.
  pose proof (inv_claims _ _ _ Hinv a) as E. unfold claimed_at in E. rewrite Ha, Hd in E.
  apply (sum_list_with_pos (n_claims a)) in E as (t&pc&Ht&Hp); [|done].
  unfold n_claims in Hp. destruct (claim_of pc) as [[a' g]|] eqn:Hc; [|done].
  case_bool_decide; [subst a'|done].
  eapply leads_mono; [exact (claim_completes c s t pc a g Hr Ht Hc)|]. by intros s' [_ ?].
Qed.

(** C10. A disconnect never gets stuck: in every reachable state, a connection whose disconnect has
    been claimed can be removed by steps of the node's own tasks alone (its [OnDisconnect] hook
    ending at the latest when it times out), leaving the other connections as they are. *)
Theorem disconnect_completes c s a conn :
  reachable c s → active (connections (node s)) !! a = Some conn → disconnecting conn = true →
  ∃ ls s', forallb is_run ls = true ∧ run ls s = Some s' ∧
    active (connections (node s')) = delete a (active (connections (node s))).
Proof.
  intros Hr Ha Hd. destruct (claimed_completes c s a conn Hr Ha Hd) as (ls&s'&L&R&_&E). eauto.
Qed.

Lemma disconnect_completes_witness :
  ∃ ls s', forallb is_run ls = true ∧ run ls demo_busy = Some s' ∧
    active (connections (node s')) = delete (peer 1 4000) (active (connections (node demo_busy))).
Proof.
  assert (∃ conn, active (connections (node demo_busy)) !! peer 1 4000 = Some conn ∧ disconnecting conn = true)
    as (conn&Ha&Hd) by (vm_compute; eauto).
  exact (disconnect_completes demo_config demo_busy (peer 1 4000) conn demo_busy_reachable Ha Hd).
Defined.
