(* ===== verification/Safety.v ===== *)
(** * Safety of the bookkeeping

    The properties of [Node] and [Connections] that hold in every reachable state, read off the
    invariant of [Lifecycle.v]: the per-IP accounting is exact, the configured limits are never
    exceeded, permits are conserved, reservations and disconnects are exclusive, the debug
    assertions of the crate never fail, and nothing is leaked. *)

From S2P Require Import Prelude Net Config Stats Connections Node Tasks Ownership Lifecycle Scenario.

Open Scope N_scope.

(** The active connections and the uncompleted reservations charged to an IP address. *)
Definition charged (s : Sys) (i : IpAddr) : N :=
  N.of_nat (active_on i (active (connections (node s))) + sum_list_with (n_charges i) (threads s)).

(** A thread owns nothing whose release is still due. *)
Definition owns_nothing (pc : Pc) : bool :=
  match guards_of pc, claim_of pc with
  | [], None => (n_permits pc =? 0)%nat && (n_scheds pc =? 0)%nat
  | _, _ => false
  end.

(** C3. Per-IP accounting is exact: in every reachable state, whatever setups, failures,
    cancellations and disconnects have been interleaved, the bucket of an IP address counts the
    active connections from it plus the connection attempts still pending, no more and no less, and
    a bucket is present only while it is positive. *)
Theorem ip_accounting_exact c s :
  reachable c s →
  ∀ i, ip_counts (limits (connections (node s))) !! i =
       if charged s i =? 0 then None else Some (charged s i).
Proof.
  intros [_ [_ _ I3 I4 _ _ _ _ _ _] _ _ _ _]%reachable_inv i. specialize (I3 i). unfold charged.
  rewrite Nat.add_comm, <-I3. destruct (N.eqb_spec (bucket (limits (connections (node s))) i) 0) as [E|E].
  - auto with pea.
  - unfold bucket in *. by destruct (ip_counts (limits (connections (node s))) !! i).
Qed.

Lemma ip_accounting_exact_witness :
  ip_counts (limits (connections (node demo_busy))) !! V4 (ipv4 10 0 0 1) = Some 1 ∧
  ip_counts (limits (connections (node demo_busy))) !! V4 (ipv4 10 0 0 2) = Some 1 ∧
  ip_counts (limits (connections (node demo_busy))) !! V4 (ipv4 10 0 0 3) = None.
Proof.
  rewrite !(ip_accounting_exact demo_config demo_busy demo_busy_reachable). vm_compute. done.
Defined.

(** C2. The configured limits hold in every reachable state: active connections together with the
    pending attempts that may still become active never exceed [max_connections], no IP address has
    more than [max_connections_per_ip] connections and pending attempts, and at most
    [max_connecting] (clamped to [max_connections]) attempts are pending at once. *)
Theorem limits_respected c s :
  reachable c s →
  num_connected (connections (node s)) + N.of_nat (sum_list_with n_setups (threads s)) ≤ max_connections c ∧
  (∀ i, charged s i ≤ max_connections_per_ip c) ∧
  N.of_nat (size (connecting (limits (connections (node s))))) ≤ N.min (max_connecting c) (max_connections c).
Proof.
  intros [(_&E1&E2&E3) [_ I2 I3 _ _ _ _ _ I9 I10] I _ Hc _]%reachable_inv.
  split_and!.
  - rewrite <-E1. unfold num_connected. lia.
  - intros i. rewrite <-E2. specialize (I3 i). specialize (I10 i). unfold charged. lia.
  - rewrite <-E3, <-I, <-I2.
    assert (sum_list_with n_all_guards (threads s) ≤ sum_list_with n_permits (threads s))%nat; [|lia].
    apply sum_list_with_le_elem. intros t pc Ht. apply covered_guards. by eapply all_threads_lookup.
Qed.

Lemma limits_respected_witness :
  num_connected (connections (node demo_busy)) + N.of_nat (sum_list_with n_setups (threads demo_busy)) = 2 ∧ 2 ≤ 100.
Proof.
  split; [vm_compute; done|].
  exact (proj1 (limits_respected demo_config demo_busy demo_busy_reachable)).
Defined.

(** The shared connection-setup budget is conserved: the permits left in the semaphore and the
    permits held by setups in progress always add up to the clamped [max_connecting]; so a setup
    that has its permit and is about to reserve never meets the pending-connections branch of
    [check_and_reserve]. *)
Theorem permits_conserved c s :
  reachable c s →
  connecting_permits (node s) + N.of_nat (sum_list_with n_permits (threads s)) =
    N.min (max_connecting c) (max_connections c) ∧
  ∀ t pc, threads s !! t = Some pc → n_permits pc = 1%nat → guards_of pc = [] →
    N.of_nat (size (connecting (limits (connections (node s))))) < max_connecting (config (node s)).
Proof.
  intros [(_&_&_&E3) [_ I2 _ _ _ _ _ _ _ _] I _ Hc _]%reachable_inv. split; [by rewrite I|].
  intros t pc Ht Hp Hg. rewrite <-I, <-I2.
  assert (sum_list_with n_all_guards (threads s) < sum_list_with n_permits (threads s))%nat; [|lia].
  apply sum_list_with_lt_elem with t pc; [|done|].
  - intros u pcu Hu. apply covered_guards. by eapply all_threads_lookup.
  - unfold n_all_guards. rewrite Hg, Hp. simpl. lia.
Qed.

Lemma permits_conserved_witness :
  connecting_permits (node demo_inbound) = 99 ∧
  N.of_nat (size (connecting (limits (connections (node demo_inbound))))) < 100.
Proof.
  split; [vm_compute; done|].
  refine (proj2 (permits_conserved demo_config demo_inbound _) 6%nat (RqReserve (peer 2 4001) 2) _ _ _);
    [apply demo_inbound_reachable|vm_compute; done..].
Defined.

(** Reservations are exclusive: an address is in [connecting] exactly while one thread owns its
    reservation, no two reservations are for the same address, and a connection about to be added
    never overwrites an active one. *)
Theorem reservations_exclusive c s :
  reachable c s →
  (∀ t u pc pcu a b b', threads s !! t = Some pc → threads s !! u = Some pcu →
     (a, b) ∈ guards_of pc → (a, b') ∈ guards_of pcu → t = u) ∧
  (∀ a, a ∈ connecting (limits (connections (node s))) ↔
     ∃ t pc b, threads s !! t = Some pc ∧ (a, b) ∈ guards_of pc) ∧
  (∀ t a conn own ready sched, threads s !! t = Some (AdAdd a conn own ready sched) →
     conn_addr conn = a ∧ active (connections (node s)) !! a = None).
Proof.
  intros Hr. pose proof (reachable_inv _ _ Hr) as [_ Hinv _ _ _ _].
  pose proof (inv_guards _ _ _ Hinv) as I1.
  split_and!.
  - intros t u pc pcu a b b' Ht Hu Hg Hg'. destruct (decide (t = u)); [done|].
    pose proof (sum_list_with_lookup2 (n_guards a) _ _ _ _ _ n Ht Hu) as L.
    pose proof (n_guards_pos _ _ _ Hg). pose proof (n_guards_pos _ _ _ Hg').
    specialize (I1 a). destruct (bool_decide _); simpl in I1; lia.
  - intros a. specialize (I1 a). case_bool_decide as Ha; simpl in I1.
    + split; [intros _|done]. apply (sum_list_with_pos (n_guards a)) in I1 as (t&pc&Ht&Hp); [|lia].
      apply n_guards_elem in Hp as [b Hb]. eauto.
    + split; [done|]. intros (t&pc&b&Ht&Hg). pose proof (n_guards_pos _ _ _ Hg).
      pose proof (sum_list_with_lookup (n_guards a) _ _ _ Ht). lia.
  - intros t a conn own ready sched Ht.
    by destruct (add_fresh _ _ _ _ _ _ _ _ (reachable_inv _ _ Hr) (reachable_addr_ok _ _ Hr) Ht) as (?&_&?).
Qed.

Lemma reservations_exclusive_witness :
  peer 2 4001 ∈ connecting (limits (connections (node demo_busy))).
Proof.
  apply (proj1 (proj2 (reservations_exclusive demo_config demo_busy demo_busy_reachable))).
  exists 15%nat. eexists. exists false. split; [vm_compute; done|]. vm_compute. by left.
Defined.

(** C4. Disconnects are exclusive: a thread that has claimed the disconnect of an address is the
    only one, and until it has run its finalizer the very connection it claimed stays registered at
    that address, marked as disconnecting; conversely, every connection marked as disconnecting has
    a thread committed to removing it, so none is stuck in the active set. *)
Theorem disconnects_exclusive c s :
  reachable c s →
  (∀ t u pc pcu a g g', threads s !! t = Some pc → threads s !! u = Some pcu →
     claim_of pc = Some (a, g) → claim_of pcu = Some (a, g') → t = u) ∧
  (∀ t pc a g, threads s !! t = Some pc → claim_of pc = Some (a, g) →
     ∃ conn, active (connections (node s)) !! a = Some conn ∧ id conn = g ∧ disconnecting conn = true) ∧
  (∀ a conn, active (connections (node s)) !! a = Some conn → disconnecting conn = true →
     ∃ t pc, threads s !! t = Some pc ∧ claim_of pc = Some (a, id conn)).
Proof.
  intros [_ Hinv _ _ _ _]%reachable_inv.
  pose proof (inv_claims _ _ _ Hinv) as I6. pose proof (inv_claim_id _ _ _ Hinv) as I7.
  split_and!.
  - intros t u pc pcu a g g' Ht Hu Hc Hc'. destruct (decide (t = u)); [done|].
    pose proof (sum_list_with_lookup2 (n_claims a) _ _ _ _ _ n Ht Hu) as L.
    rewrite (n_claims_of _ _ _ Hc), (n_claims_of _ _ _ Hc'), bool_decide_eq_true_2 in L by done.
    specialize (I6 a). destruct (claimed_at _ _); simpl in *; lia.
  - intros t pc a g Ht Hc. destruct (I7 _ _ _ _ Ht Hc) as (conn&Ha&Hid). exists conn.
    split_and!; [done..|]. specialize (I6 a). unfold claimed_at in I6. rewrite Ha in I6.
    pose proof (sum_list_with_lookup (n_claims a) _ _ _ Ht) as L.
    rewrite (n_claims_of _ _ _ Hc), bool_decide_eq_true_2 in L by done.
    destruct (disconnecting conn); simpl in *; [done|lia].
  - intros a conn Ha Hd. specialize (I6 a). unfold claimed_at in I6. rewrite Ha, Hd in I6.
    apply (sum_list_with_pos (n_claims a)) in I6 as (t&pc&Ht&Hp); [|done].
    exists t, pc. split; [done|]. unfold n_claims in Hp. destruct (claim_of pc) as [[a' g]|] eqn:Hc; [|lia].
    case_bool_decide; simpl in Hp; [subst a'|lia]. destruct (I7 _ _ _ _ Ht Hc) as (?&?&<-). congruence.
Qed.

Lemma disconnects_exclusive_witness :
  ∃ t pc, threads demo_busy !! t = Some pc ∧ claim_of pc = Some (peer 1 4000, 0).
Proof.
  destruct (active (connections (node demo_busy)) !! peer 1 4000) as [conn|] eqn:E; [|by vm_compute in E].
  assert (disconnecting conn = true ∧ id conn = 0) as [Hd <-] by (vm_compute in E; by simplify_eq).
  exact (proj2 (proj2 (disconnects_exclusive demo_config demo_busy demo_busy_reachable)) _ _ E Hd).
Defined.

(** The debug assertions of the bookkeeping never fail: whenever a guard or a finalizer
    releases an IP bucket there is one to release, and a claimed connection never vanishes before
    its [OnDisconnect] task has been registered with it. *)
Theorem assertions_hold c s : reachable c s → EvAssertFailed ∉ log s.
Proof. by intros [_ _ _ _ _ ?]%reachable_inv. Qed.

Lemma assertions_hold_witness : log demo_busy ≠ [] ∧ EvAssertFailed ∉ log demo_busy.
Proof. split; [by vm_compute|]. exact (assertions_hold demo_config demo_busy demo_busy_reachable). Defined.

(** C5. Nothing is leaked: once no thread owns a reservation, a permit, a claim or a scheduling
    guard any more (in particular once all have ended, however they ended), no address is left
    connecting, every setup permit is back, no scheduling is accounted for, every active connection
    can still be disconnected, and an IP address is charged for its active connections alone. *)
Theorem no_leaks c s :
  reachable c s → forallb owns_nothing (threads s) = true →
  connecting (limits (connections (node s))) = ∅ ∧
  connecting_permits (node s) = N.min (max_connecting c) (max_connections c) ∧
  sched_in_flight (shutdown (node s)) = 0 ∧
  (∀ a conn, active (connections (node s)) !! a = Some conn → disconnecting conn = false) ∧
  (∀ i, bucket (limits (connections (node s))) i = N.of_nat (active_on i (active (connections (node s))))).
Proof.
  intros [(_&_&_&E3) Hinv I4 I5 _ _]%reachable_inv Hn.
  assert (∀ t pc, threads s !! t = Some pc →
    guards_of pc = [] ∧ claim_of pc = None ∧ n_permits pc = 0%nat ∧ n_scheds pc = 0%nat) as H0.
  { intros t pc Ht. rewrite forallb_forall in Hn.
    assert (owns_nothing pc = true) as Ho by (apply Hn; by apply list_elem_of_In, list_elem_of_lookup_2 with t).
    unfold owns_nothing in Ho. destruct (guards_of pc), (claim_of pc); try done.
    apply andb_prop in Ho as [?%Nat.eqb_eq ?%Nat.eqb_eq]. done. }
  assert (∀ f : Pc → nat, (∀ t pc, threads s !! t = Some pc → f pc = 0%nat) → sum_list_with f (threads s) = 0%nat) as Hz.
  { intros f. apply sum_list_with_zero. }
  destruct Hinv as [_ I2 I3 _ _ I6 _ _ _ _]. split_and!.
  - apply leibniz_equiv, size_empty_inv. rewrite <-I2. apply Hz. intros t pc Ht. unfold n_all_guards.
    by destruct (H0 _ _ Ht) as (->&_).
  - rewrite <-E3, <-I4, Hz; [lia|]. intros t pc Ht. apply (H0 _ _ Ht).
  - rewrite I5, Hz; [done|]. intros t pc Ht. apply (H0 _ _ Ht).
  - intros a conn Ha. specialize (I6 a). unfold claimed_at in I6. rewrite Ha, Hz in I6.
    + by destruct (disconnecting conn).
    + intros t pc Ht. unfold n_claims. by destruct (H0 _ _ Ht) as (_&->&_).
  - intros i. rewrite I3, Hz; [done|]. intros t pc Ht. unfold n_charges. by destruct (H0 _ _ Ht) as (->&_).
Qed.

Lemma no_leaks_witness :
  connecting (limits (connections (node demo_up))) = ∅ ∧ connecting_permits (node demo_up) = 100.
Proof.
  destruct (no_leaks demo_config demo_up demo_up_reachable) as (H1&H2&_); [vm_compute; done|].
  split; [exact H1|]. rewrite H2. vm_compute. done.
Defined.
