(* ===== verification/Refinement.v ===== *)
(** * An abstract specification of the connection registry

    What the node promises about its connections, without tasks, guards, permits or locks: a set of
    pending attempts, a map of live connections (their id, and whether their disconnect has been
    claimed) and a flag that closes the registry.  Every step of the transition system of [Tasks.v]
    refines one abstract step or leaves the abstract state alone. *)

From S2P Require Import Prelude Net Config Stats Connections Node Tasks Ownership Lifecycle Scenario.

Open Scope N_scope.

(** ** The specification *)

Record Registry := mkRegistry {
  pending : gset SocketAddr;
  live : gmap SocketAddr (N * bool);
  closed : bool;
}.

(** The connections and pending attempts of an IP address. *)
Definition on_ip (r : Registry) (i : IpAddr) : nat :=
  map_countb (λ a _, bool_decide (canonical_ip a = i)) (live r) +
  size (filter (λ a, canonical_ip a = i) (pending r)).

Inductive registry_step (c : Config) (r : Registry) : Registry → Prop :=
| rs_reserve a :
    a ∉ pending r → live r !! a = None →
    N.of_nat (size (live r) + size (pending r)) < max_connections c →
    N.of_nat (on_ip r (canonical_ip a)) < max_connections_per_ip c →
    registry_step c r (mkRegistry ({[a]} ∪ pending r) (live r) (closed r))
| rs_rollback a :
    a ∈ pending r → registry_step c r (mkRegistry (pending r ∖ {[a]}) (live r) (closed r))
| rs_commit a i :
    a ∈ pending r → live r !! a = None → closed r = false →
    registry_step c r (mkRegistry (pending r ∖ {[a]}) (<[a := (i, false)]> (live r)) false)
| rs_claim a i :
    live r !! a = Some (i, false) →
    registry_step c r (mkRegistry (pending r) (<[a := (i, true)]> (live r)) (closed r))
| rs_remove a i :
    live r !! a = Some (i, true) →
    registry_step c r (mkRegistry (pending r) (delete a (live r)) (closed r))
| rs_close : registry_step c r (mkRegistry (pending r) (live r) true).

(** ** Abstraction *)

Definition n_pending_at (ts : list Pc) (a : SocketAddr) : nat := sum_list_with (n_pending a) ts.

Definition live_of (m : gmap SocketAddr Connection) : gmap SocketAddr (N * bool) :=
  (λ c, (id c, disconnecting c)) <$> m.

(** The registry a state stands for: pending are the addresses with an uncompleted reservation. *)
Definition registry (s : Sys) : Registry := {|
  pending := filter (λ a, n_pending_at (threads s) a ≠ 0%nat) (connecting (limits (connections (node s))));
  live := live_of (active (connections (node s)));
  closed := is_underway (node s);
|}.

(** ** Lemmas *)

Lemma elem_of_pending c s a : Inv c s → a ∈ pending (registry s) ↔ n_pending_at (threads s) a ≠ 0%nat.
Proof.
  intros [_ Hinv _ _ _ _]. simpl. rewrite elem_of_filter. split; [by intros [? _]|]. intros Hp. split; [done|].
  pose proof (inv_guards _ _ _ Hinv a) as E.
  pose proof (pending_le_guards (threads s) a).
  unfold n_pending_at in Hp. case_bool_decide; [done|]. simpl in E. lia.
Qed.

(** A set of addresses that each occur among the guards satisfying [p] is at most as large as the
    number of those guards. *)
Lemma size_le_guards (p : SocketAddr * bool → bool) (G : list (SocketAddr * bool)) (X : gset SocketAddr) :
  (∀ a, a ∈ X → ∃ g, g ∈ G ∧ p g = true ∧ g.1 = a) → (size X ≤ countb p G)%nat.
Proof.
  revert X. induction G as [|g G IH]; intros X HX; simpl.
  - assert (X = ∅) as -> by (apply set_eq; intros a; split; [|set_solver]; intros (?&Hg&_)%HX; by apply not_elem_of_nil in Hg).
    by rewrite size_empty.
  - destruct (p g) eqn:Hp; simpl.
    + assert (size (X ∖ {[g.1]}) ≤ countb p G)%nat.
      { apply IH. intros a [Ha Hn]%elem_of_difference. destruct (HX a Ha) as (g'&[->|Hg']%elem_of_cons&?&<-); [set_solver|eauto]. }
      destruct (decide (g.1 ∈ X)) as [Hin|Hin].
      * pose proof (size_difference_elem _ _ Hin). lia.
      * assert (X ∖ {[g.1]} = X) as E by (apply set_eq; intros a; destruct (decide (a = g.1)); set_solver).
        rewrite E in *. lia.
    + apply IH. intros a Ha. destruct (HX a Ha) as (g'&[->|Hg']%elem_of_cons&?&<-); [congruence|eauto].
Qed.

(** All reservations of the system. *)
Definition all_guards (ts : list Pc) : list (SocketAddr * bool) := ts ≫= guards_of.

Lemma pending_guard ts a :
  n_pending_at ts a ≠ 0%nat → ∃ g, g ∈ all_guards ts ∧ uncompleted g = true ∧ g.1 = a.
Proof.
  intros Hp. unfold n_pending_at, n_pending in Hp. rewrite <-countb_bind in Hp.
  apply countb_elem in Hp as (g&Hg&[E%bool_decide_eq_true ?]%andb_prop). by exists g.
Qed.

Lemma size_pending c s : Inv c s → (size (pending (registry s)) ≤ sum_list_with n_setups (threads s))%nat.
Proof.
  intros HI. unfold n_setups. rewrite <-countb_bind. apply size_le_guards. intros a Ha.
  apply pending_guard. by eapply elem_of_pending.
Qed.

Lemma size_pending_on c s i :
  Inv c s → (size (filter (λ a, canonical_ip a = i) (pending (registry s))) ≤ sum_list_with (n_charges i) (threads s))%nat.
Proof.
  intros HI. unfold n_charges. rewrite <-countb_bind. apply size_le_guards. intros a [Hi Ha]%elem_of_filter.
  apply (elem_of_pending _ _ _ HI) in Ha as (g&Hg&Hu&<-)%pending_guard. exists g. split_and!; try done.
  unfold charged_to, uncompleted in *. rewrite Hu. by rewrite bool_decide_eq_true_2.
Qed.

Lemma live_countb (p : SocketAddr → bool) (m : gmap SocketAddr Connection) :
  map_countb (λ a _, p a) (live_of m) = map_countb (λ a _, p a) m.
Proof.
  unfold live_of. induction m as [|a c m Ha IH] using map_ind; [by rewrite fmap_empty, !map_countb_empty|].
  rewrite fmap_insert, !map_countb_insert_None; [by rewrite IH|done|]. by rewrite lookup_fmap, Ha.
Qed.

(** The specification's count is bounded by the bucket of the accounting. *)
Lemma on_ip_bucket c s i :
  Inv c s → N.of_nat (on_ip (registry s) i) ≤ bucket (limits (connections (node s))) i.
Proof.
  intros HI. pose proof (size_pending_on c s i HI). destruct HI as [_ Hinv _ _ _ _].
  rewrite (inv_buckets _ _ _ Hinv). unfold on_ip.
  change (live (registry s)) with (live_of (active (connections (node s)))).
  rewrite (live_countb (λ a, bool_decide (canonical_ip a = i))).
  unfold active_on. lia.
Qed.

Lemma registry_ext r r' : pending r' = pending r → live r' = live r → closed r' = closed r → r' = r.
Proof. destruct r, r'; simpl. by intros -> -> ->. Qed.

Lemma thread_step_flag_eq t ts n pc ch o :
  thread_step t ts n pc ch = Some o → pc = SdBegin ∨ is_underway (o_node o) = is_underway n.
Proof.
  unfold is_underway. intros H. destruct pc; step_cases H; op_inv; simpl in *; auto; right; congruence.
Qed.

Lemma live_of_update m a c c' :
  m !! a = Some c → id c' = id c → disconnecting c' = disconnecting c → live_of (<[a := c']> m) = live_of m.
Proof.
  intros Ha Hi Hd. unfold live_of. rewrite fmap_insert, Hi, Hd. apply insert_id. by rewrite lookup_fmap, Ha.
Qed.

Section simulation.
Context (c : Config) (s s' : Sys) (t : nat) (pc pc' : Pc).
Context (HI : Inv c s) (HI' : Inv c s') (Hmv : moved t pc pc' (threads s) (threads s')).
Context (Hflag : is_underway (node s') = is_underway (node s)).

Lemma moved_pending l l' a :
  guards_of pc = l → guards_of pc' = l' →
  (n_pending_at (threads s') a + countb (pending_at a) l = n_pending_at (threads s) a + countb (pending_at a) l')%nat.
Proof. intros <- <-. exact (mv_pending _ _ _ _ _ Hmv a). Qed.

Lemma pending_same :
  guards_of pc' = guards_of pc → pending (registry s') = pending (registry s).
Proof.
  intros Hg. apply set_eq. intros a. rewrite (elem_of_pending c s'), (elem_of_pending c s) by done.
  pose proof (moved_pending _ _ a eq_refl Hg). lia.
Qed.

Lemma pending_le_one a : (n_pending_at (threads s) a ≤ 1)%nat.
Proof.
  pose proof (guards_le_one _ _ (inv_conn _ _ HI) a). pose proof (pending_le_guards (threads s) a). unfold n_pending_at. lia.
Qed.

Lemma pending_release a b l :
  guards_of pc = (a, b) :: l → guards_of pc' = l ∨ guards_of pc' = (a, true) :: l → b = false →
  a ∈ pending (registry s) ∧ pending (registry s') = pending (registry s) ∖ {[a]}.
Proof.
  intros Hg Hg' ->.
  assert (∀ x, n_pending_at (threads s') x + b2n (bool_decide (a = x)) = n_pending_at (threads s) x)%nat as E.
  { intros x. destruct Hg' as [Hg'|Hg']; pose proof (moved_pending _ _ x Hg Hg') as E; simpl in E;
      unfold pending_at in E at 1; simpl in E; rewrite ?andb_true_r, ?andb_false_r in E.
    - lia.
    - unfold pending_at in E at 2; simpl in E; rewrite ?andb_false_r in E; simpl in E. lia. }
  split.
  - apply (elem_of_pending c s a HI). specialize (E a). rewrite bool_decide_eq_true_2 in E by done. simpl in E. lia.
  - apply set_eq. intros x. rewrite elem_of_difference, elem_of_singleton.
    rewrite (elem_of_pending c s'), (elem_of_pending c s) by done.
    specialize (E x). pose proof (pending_le_one x). case_bool_decide; simpl in E; split; intros; destruct_and?; subst; try lia; auto with lia.
Qed.

Lemma simulate_reserve a n' :
  check_and_reserve (node s) a = Ok n' → connections (node s') = connections n' →
  guards_of pc = [] → guards_of pc' = [(a, false)] →
  registry_step c (registry s) (registry s').
Proof.
  intros (Ha & Hna & Hip & Hcg & Htot & ->)%check_and_reserve_inv Hcs Hg Hg'. simpl in Hcs.
  destruct (inv_ok _ _ HI) as (_&Hm1&Hm2&_).
  assert (Hp : a ∉ pending (registry s)) by (simpl; set_solver).
  replace (registry s') with (mkRegistry ({[a]} ∪ pending (registry s)) (live (registry s)) (closed (registry s))).
  - apply rs_reserve; [done|simpl; unfold live_of; by rewrite lookup_fmap, Ha| |].
    + rewrite <-Hm1. unfold num_connected in Htot. simpl live. unfold live_of. rewrite map_size_fmap.
      pose proof (size_pending c s HI). pose proof (inv_all_guards _ _ _ (inv_conn _ _ HI)).
      assert (sum_list_with n_setups (threads s) ≤ sum_list_with n_all_guards (threads s))%nat; [|lia].
      apply sum_list_with_le. intros x. apply countb_le_length.
    + rewrite <-Hm2. rewrite ip_count_bucket in Hip. pose proof (on_ip_bucket c s (canonical_ip a) HI). lia.
  - symmetry. apply registry_ext; [|simpl; by rewrite Hcs|simpl; done].
    apply set_eq. intros x. rewrite (elem_of_pending c s' x HI').
    simpl pending at 1. rewrite elem_of_union, elem_of_singleton, (elem_of_pending c s x HI).
    pose proof (moved_pending _ _ x Hg Hg') as E. simpl in E. unfold pending_at in E; simpl in E.
    rewrite andb_true_r in E. case_bool_decide; simpl in E; split; intros; subst; auto with lia.
    destruct_or!; subst; (done || lia).
Qed.

Lemma simulate :
  conn_step (node s) pc pc' (connections (node s')) → pc_addr_ok (threads s) pc →
  registry s' = registry s ∨ registry_step c (registry s) (registry s').
Proof.
  intros Hs [Hown _]. remember (connections (node s')) as cs' eqn:Hcs.
  destruct Hs as [Hg Hc|a n' Hr Hg Hg' _ _ _|a conn own ready sched Hpc Hpc' Hu
    |a b Hg Hc Hc'|a cid conn n' Hcl Ha Hg Hg' _ _|a cid u n' Hat Hg Hc|a g Hc Hc' Hg Hg'].
  - left. apply registry_ext; [by apply pending_same|simpl; by rewrite <-Hcs|done].
  - right. by eapply simulate_reserve.
  - right. assert (Hgs : guards_of pc = [(a, false)]) by (by subst).
    assert (Hgs' : guards_of pc' = [(a, true)]) by (by subst).
    destruct (pending_release _ _ _ Hgs (or_intror Hgs') eq_refl) as [Hin Hp].
    destruct (Hown a conn) as [Hca Hd]; [by subst|].
    replace (registry s') with (mkRegistry (pending (registry s) ∖ {[a]}) (<[a := (id conn, false)]> (live (registry s))) false).
    + apply rs_commit; [done| |done]. simpl. unfold live_of. rewrite lookup_fmap.
      rewrite (pending_inactive (node s) t pc pc' _ _ Hmv (inv_conn _ _ HI)); [done|].
      subst pc. unfold n_pending, pending_at; simpl. rewrite bool_decide_eq_true_2 by done. simpl. lia.
    + symmetry. apply registry_ext; [done|simpl; rewrite <-Hcs; simpl|simpl; by rewrite Hflag].
      unfold live_of. by rewrite fmap_insert, Hca, Hd.
  - assert (Hlive : live (registry s') = live (registry s)).
    { simpl. rewrite <-Hcs. unfold guard_drop. destruct b; [done|]. by destruct (release_ip _ _). }
    destruct b.
    + left. apply registry_ext; [|done|done]. apply set_eq. intros x.
      rewrite (elem_of_pending c s'), (elem_of_pending c s) by done.
      pose proof (moved_pending _ _ x Hg eq_refl) as E. simpl in E. unfold pending_at in E at 1. simpl in E.
      rewrite andb_false_r in E. simpl in E. lia.
    + right. destruct (pending_release _ _ _ Hg (or_introl eq_refl) eq_refl) as [Hin Hp].
      rewrite (registry_ext (mkRegistry (pending (registry s) ∖ {[a]}) (live (registry s)) (closed (registry s))) (registry s'))
        by done. by apply rs_rollback.
  - right. apply claim_disconnect_inv in Hcl as (conn'&Ha'&Hd&_&->). rewrite Ha in Ha'. injection Ha' as <-.
    rewrite (registry_ext (mkRegistry (pending (registry s)) (<[a := (id conn, true)]> (live (registry s))) (closed (registry s))) (registry s')).
    + apply rs_claim. simpl. unfold live_of. by rewrite lookup_fmap, Ha; simpl; rewrite Hd.
    + apply pending_same. congruence.
    + simpl. rewrite <-Hcs. simpl. unfold live_of. by rewrite fmap_insert.
    + done.
  - left. apply attach_task_inv in Hat as (conn&Ha&_&->).
    apply registry_ext; [by apply pending_same| |done]. simpl. rewrite <-Hcs. simpl. by eapply live_of_update.
  - right. destruct (claim_present (node s) t pc pc' _ _ Hmv (inv_conn _ _ HI) a g Hc) as [(conn&Ha&Hid&Hd) _].
    rewrite (registry_ext (mkRegistry (pending (registry s)) (delete a (live (registry s))) (closed (registry s))) (registry s')).
    + apply (rs_remove _ _ a g). simpl. unfold live_of. rewrite lookup_fmap, Ha; simpl. by rewrite Hid, Hd.
    + apply pending_same. congruence.
    + simpl. rewrite <-Hcs. destruct (finalizer_remove (node s) a) as [[ok conn'] n'] eqn:R.
      apply finalizer_remove_inv in R as (_&E&_). simpl. rewrite E. unfold live_of. by rewrite fmap_delete.
    + done.
Qed.
End simulation.

(** C1. The node refines the abstract connection registry: every step of the transition system, in
    every reachable state, either leaves the registry alone or is one of its six steps with all its
    conditions met (a reservation below both limits and for a free address, the rollback of a
    pending attempt, the commit of a pending attempt while the registry is open, the claim of an
    unclaimed connection, the removal of a claimed one, the closing of the registry). *)
Theorem node_refines_registry c s l s' :
  reachable c s → step l s = Some s' →
  registry s' = registry s ∨ registry_step c (registry s) (registry s').
Proof.
  intros Hr Hs. pose proof (reachable_inv _ _ Hr) as HI. pose proof (reachable_addr_ok _ _ Hr) as Hok.
  pose proof (reachable_inv _ _ (reach_step _ _ _ _ Hr Hs)) as HI'. revert HI'.
  apply step_inv in Hs as [t pc ch o Ht E|t pc o Ht E|n' l' ab [? Ec ? Esh] ? Hl|]; intros HI'.
  - destruct (thread_step_conn _ _ _ _ _ _ E) as [Hcs Hidle].
    pose proof (apply_out_moved t o s pc Ht Hidle) as Hmv.
    destruct (thread_step_flag_eq _ _ _ _ _ _ E) as [->|Hflag].
    + right. injection E as <-.
      rewrite (registry_ext (mkRegistry (pending (registry s)) (live (registry s)) true) (registry (apply_out t _ s)));
        [apply rs_close| |done|done].
      exact (pending_same c s _ t _ _ HI HI' Hmv eq_refl).
    + exact (simulate c s _ t pc (o_pc o) HI HI' Hmv Hflag Hcs (Hok _ _ Ht)).
  - left. destruct (cancel_conn _ _ _ E) as (Hg&_&Hn&Hsp&_).
    assert (Forall idle (o_spawn o)) as Hidle by (by rewrite Hsp).
    apply registry_ext; [|simpl; by rewrite Hn|simpl; by rewrite Hn].
    exact (pending_same c s _ t _ _ HI HI' (apply_out_moved t o s pc Ht Hidle) Hg).
  - left. apply registry_ext; [|simpl; by rewrite Ec|simpl; unfold is_underway; by rewrite Esh].
    apply set_eq. intros a. rewrite (elem_of_pending c _ a HI'), (elem_of_pending c s a HI).
    unfold n_pending_at; simpl. rewrite (user_threads_sum (n_pending a)); [done|].
    eapply Forall_impl; [done|]. intros pc ([Hg _]&_)%user_pc_idle. unfold n_pending. by rewrite Hg.
  - by left.
Qed.

Lemma node_refines_registry_witness :
  registry_step demo_config (registry demo_inbound) (registry demo_reserved).
Proof.
  assert (step (Run 6 Go) demo_inbound = Some demo_reserved) as E by (vm_compute; reflexivity).
  destruct (node_refines_registry demo_config _ _ _ demo_inbound_reachable E) as [Heq|H]; [|exact H].
  apply (f_equal (λ r, size (pending r))) in Heq. vm_compute in Heq. discriminate.
Defined.
