(* ===== verification/Shutdown.v ===== *)
(** * Shutting the node down

    What [Node::shut_down] relies on and achieves: the flag it sets is permanent and closes the
    active set to newcomers, the two waits ([wait_for_drain] on the active set and
    [ShutdownState::wait_sched_drained]) cannot miss their wake-up, and by the time the protocol
    handlers are signalled every [OnConnect] hook that is due has been triggered and spawned. *)

From S2P Require Import Prelude Net Config Stats Connections Node Tasks Ownership Lifecycle Scenario.

Open Scope N_scope.

(** ** Views *)

(** How far a [shut_down] has come. *)
Definition past_begin (pc : Pc) : bool :=
  match pc with
  | SdTake | SdSnapshot _ | SdFan _ _ | SdRegister _ | SdCheck _ _ | SdPark _ _ | SdSchedRegister _
  | SdSchedCheck _ _ | SdSchedPark _ _ | SdSignal _ | SdJoin _ | SdClear => true
  | _ => false
  end.

Definition past_drain (pc : Pc) : bool :=
  match pc with
  | SdSchedRegister _ | SdSchedCheck _ _ | SdSchedPark _ _ | SdSignal _ | SdJoin _ | SdClear => true
  | _ => false
  end.

Definition past_sched (pc : Pc) : bool :=
  match pc with SdSignal _ | SdJoin _ | SdClear => true | _ => false end.

Definition past_signal (pc : Pc) : bool := match pc with SdJoin _ | SdClear => true | _ => false end.

(** A thread that still has to trigger [OnConnect] for a connection that is already active, or whose
    trigger has not been served yet. *)
Definition untriggered (pc : Pc) : nat :=
  match pc with
  | AdGuard _ _ _ _ s | AdReady _ _ _ _ s | AdSpawn _ _ _ s => b2n s
  | ScTrigger _ _ | ScAwait _ _ => 1
  | _ => 0
  end%nat.

(** What a waiter in [wait_for_drain] relies on: it sleeps only while there is something to wait
    for, or its wake-up is already on its way. *)
Definition wakeable (n : Node) (pc : Pc) : Prop :=
  match pc with
  | SdCheck _ g => g ≤ drain_notify (connections n)
  | SdPark _ g =>
      g ≤ drain_notify (connections n) ∧
      (drain_notify (connections n) = g → active (connections n) ≠ ∅)
  | SdSchedCheck _ g => g ≤ sched_drained (shutdown n)
  | SdSchedPark _ g =>
      g ≤ sched_drained (shutdown n) ∧
      (sched_drained (shutdown n) = g → sched_in_flight (shutdown n) ≠ 0)
  | _ => True
  end.

#[export] Instance past_begin_neutral : Neutral past_begin.
Proof. solve_neutral. Qed.
#[export] Instance past_drain_neutral : Neutral past_drain.
Proof. solve_neutral. Qed.
#[export] Instance past_sched_neutral : Neutral past_sched.
Proof. solve_neutral. Qed.
#[export] Instance past_signal_neutral : Neutral past_signal.
Proof. solve_neutral. Qed.
#[export] Instance untriggered_neutral : Neutral untriggered.
Proof. solve_neutral. Qed.
#[export] Instance wakeable_neutral n : Neutral (wakeable n).
Proof. solve_neutral. Qed.

(** ** What a step does to the state a shutdown watches *)

(** The shutdown flags only go up, the notification counters only grow, the active set admits
    nobody once the flag is up, and neither the active set nor the scheduling count empties
    without a notification. *)
Record forward (n n' : Node) : Prop := {
  fw_flag : is_underway n = true → is_underway n' = true;
  fw_signal : handler_signal (shutdown n) = true → handler_signal (shutdown n') = true;
  fw_closed : is_underway n = true → ∀ a conn', active (connections n') !! a = Some conn' →
    ∃ conn, active (connections n) !! a = Some conn ∧ id conn = id conn';
  fw_drain : drain_notify (connections n) ≤ drain_notify (connections n') ∧
    (drain_notify (connections n') = drain_notify (connections n) →
     active (connections n) ≠ ∅ → active (connections n') ≠ ∅);
  fw_sched : sched_drained (shutdown n) ≤ sched_drained (shutdown n') ∧
    (sched_drained (shutdown n') = sched_drained (shutdown n) →
     sched_in_flight (shutdown n) ≠ 0 → sched_in_flight (shutdown n') ≠ 0);
}.

Lemma forward_core n n' : connections n' = connections n → shutdown n' = shutdown n → forward n n'.
Proof. intros E1 E2. unfold is_underway. split; unfold is_underway; rewrite ?E1, ?E2; eauto; split; auto; lia. Qed.

Lemma forward_connections n cs' :
  (is_underway n = true → ∀ a conn', active cs' !! a = Some conn' →
     ∃ conn, active (connections n) !! a = Some conn ∧ id conn = id conn') →
  drain_notify (connections n) ≤ drain_notify cs' →
  (drain_notify cs' = drain_notify (connections n) → active (connections n) ≠ ∅ → active cs' ≠ ∅) →
  forward n (set_connections n cs').
Proof. intros H1 H2 H3. split; simpl; auto. Qed.

Lemma forward_limits n l : forward n (set_connections n (set_limits (connections n) l)).
Proof. apply forward_connections; simpl; eauto; lia. Qed.

Lemma forward_update n a conn conn' :
  active (connections n) !! a = Some conn → id conn' = id conn →
  forward n (set_connections n (set_active (connections n) (<[a := conn']> (active (connections n))))).
Proof.
  intros Ha Hid. apply forward_connections; simpl; [|lia|intros _ _; apply insert_non_empty].
  intros _ b c. rewrite lookup_insert. case_decide; [|by eauto]. intros; simplify_eq. eauto.
Qed.

Lemma guard_drop_forward n a b : forward n (set_connections n (guard_drop (connections n) a b).2).
Proof.
  unfold guard_drop. destruct b; [apply forward_limits|].
  destruct (release_ip _ _). apply forward_limits.
Qed.

Lemma finalizer_remove_forward n a : forward n (finalizer_remove n a).2.
Proof.
  unfold finalizer_remove, remove. destruct (active (connections n) !! a) as [c|] eqn:E; simpl;
    destruct (release_ip (limits (connections n)) a) as [ok l]; simpl;
    apply forward_connections; simpl; eauto; try lia.
  intros _ x c'. rewrite lookup_delete. case_decide; [done|]. eauto.
Qed.

Lemma thread_step_forward t ts n pc ch o :
  thread_step t ts n pc ch = Some o → forward n (o_node o).
Proof.
  intros H. destruct pc; step_cases H;
    repeat match goal with
    | E : try_acquire _ = Some _ |- _ => apply try_acquire_inv in E as [? ->]
    | E : add_active _ _ _ = Some _ |- _ => apply add_active_inv in E as [? ->]
    | E : check_and_reserve _ _ = Ok _ |- _ => apply check_and_reserve_inv in E as (?&?&?&?&?&->)
    | E : attach_task _ _ _ _ = Some _ |- _ => apply attach_task_inv in E as (?&?&?&->)
    | E : claim_disconnect _ _ _ = Some _ |- _ => apply claim_disconnect_inv in E as (?&?&?&?&->)
    end; try (by apply forward_core); try (by apply forward_limits);
    try (by eapply forward_update).
  - split; simpl; eauto; split; lia.
  - apply forward_connections; simpl; [congruence|lia|intros _ _; apply insert_non_empty].
  - eapply forward_update; [done|simpl; congruence].
  - destruct (finalizer_senders_fields n addr) as (_&_&?&_).
    apply forward_core; [apply finalizer_senders_connections|done].
  - snd_of (finalizer_remove n addr). apply finalizer_remove_forward.
  - snd_of (finalizer_remove n addr). apply finalizer_remove_forward.
  - split; simpl; eauto; split; lia.
  - split; simpl; eauto; split; lia.
  - snd_of (guard_drop (connections n) addr completed). apply guard_drop_forward.
  - split; simpl; eauto.
    destruct (N.eqb_spec (sched_in_flight (shutdown n)) 1); split; lia.
Qed.

(** ** The invariant *)

Record ShutInv (s : Sys) : Prop := {
  sh_begun : ∀ t pc, threads s !! t = Some pc → past_begin pc = true → is_underway (node s) = true;
  sh_drained : ∀ t pc, threads s !! t = Some pc → past_drain pc = true → active (connections (node s)) = ∅;
  sh_signal : handler_signal (shutdown (node s)) = true → is_underway (node s) = true;
  sh_triggered : handler_signal (shutdown (node s)) = true ∨
      (∃ t pc, threads s !! t = Some pc ∧ past_sched pc = true) →
    sum_list_with untriggered (threads s) = 0%nat;
  sh_wakeable : ∀ t pc, threads s !! t = Some pc → wakeable (node s) pc;
  sh_empty : handler_signal (shutdown (node s)) = true → active (connections (node s)) = ∅;
  sh_joined : ∀ t pc, threads s !! t = Some pc → past_signal pc = true → handler_signal (shutdown (node s)) = true;
}.

(** Every thread after a step is the stepped one, a spawned one, or looks like before. *)
Lemma apply_out_lookup {B} (f : Pc → B) `{!Neutral f} t o s u pcu :
  threads (apply_out t o s) !! u = Some pcu →
  f pcu = f (o_pc o) ∨ (∃ pc, pc ∈ o_spawn o ∧ f pcu = f pc) ∨
  (∃ pc, threads s !! u = Some pc ∧ f pcu = f pc).
Proof.
  intros Hu. assert ((f <$> threads (apply_out t o s)) !! u = Some (f pcu)) as E
    by (by rewrite list_lookup_fmap, Hu).
  rewrite (apply_out_fmap f) in E. apply lookup_app_Some in E as [E|[_ E]].
  - apply list_lookup_insert_Some in E as [(_&->&_)|[_ E]]; [by left|].
    apply list_lookup_fmap_Some in E as (pc&->&Hpc). right; right. eauto.
  - apply list_lookup_fmap_Some in E as (pc&->&Hpc). right; left. exists pc.
    split; [by eapply list_elem_of_lookup_2|done].
Qed.

Lemma user_threads_lookup {B} (f : Pc → B) `{!Neutral f} ts l ab u pcu :
  foldl (λ ts t, abort_thread t ts) (ts ++ l) ab !! u = Some pcu →
  (∃ pc, pc ∈ l ∧ f pcu = f pc) ∨ (∃ pc, ts !! u = Some pc ∧ f pcu = f pc).
Proof.
  intros Hu. assert ((f <$> foldl (λ ts t, abort_thread t ts) (ts ++ l) ab) !! u = Some (f pcu)) as E
    by (by rewrite list_lookup_fmap, Hu).
  rewrite (user_threads_fmap f) in E. apply lookup_app_Some in E as [E|[_ E]];
    apply list_lookup_fmap_Some in E as (pc&->&Hpc); [by eauto|].
  left. exists pc. split; [by eapply list_elem_of_lookup_2|done].
Qed.

(** What a step of a thread does to its own progress through [shut_down]. *)
Record shut_step (n : Node) (pc pc' : Pc) (n' : Node) (sp : list Pc) : Prop := {
  ss_begun : past_begin pc' = true → past_begin pc = true ∨ is_underway n' = true;
  ss_drained : past_drain pc' = true →
    past_drain pc = true ∨ (past_begin pc = true ∧ active (connections n') = ∅);
  ss_sched : past_sched pc' = true →
    past_sched pc = true ∨ (past_begin pc = true ∧ sched_in_flight (shutdown n) = 0);
  ss_signal : handler_signal (shutdown n') = true →
    handler_signal (shutdown n) = true ∨ past_sched pc = true;
  ss_flag : past_sched pc = true → past_begin pc = true;
  ss_wakeable : wakeable n pc → wakeable n' pc';
  ss_untriggered : is_underway n = true →
    (untriggered pc' + sum_list_with untriggered sp ≤ untriggered pc)%nat;
  ss_spawn : Forall (λ pc, past_begin pc = false ∧ past_drain pc = false ∧ past_sched pc = false ∧ wakeable n' pc) sp;
  ss_joined : past_signal pc' = true → past_signal pc = true ∨ handler_signal (shutdown n') = true;
}.

Lemma thread_step_shut t ts n pc ch o :
  thread_step t ts n pc ch = Some o → shut_step n pc (o_pc o) (o_node o) (o_spawn o).
Proof.
  intros H. destruct pc; step_cases H; op_inv.
  all: split; simpl in *; intros; rewrite ?N.eqb_eq, ?bool_decide_eq_true, ?bool_decide_eq_false, ?N.eqb_neq in *;
    auto; try done; try lia; try congruence; try (by repeat constructor).
  all: try (by destruct k); try (left; congruence).
  - by rewrite sum_fan.
  - apply Forall_fmap, Forall_true. done.
Qed.

Lemma cancel_shut n pc o :
  cancel n pc = Some o →
  past_begin (o_pc o) = false ∧ past_drain (o_pc o) = false ∧ past_sched (o_pc o) = false ∧
  wakeable n (o_pc o) ∧ untriggered (o_pc o) = 0%nat ∧ past_signal (o_pc o) = false.
Proof. intros H. destruct pc; unfold cancel, next, abandon in H; repeat case_match; by simplify_eq/=. Qed.

Lemma wakeable_forward n n' pc : forward n n' → wakeable n pc → wakeable n' pc.
Proof.
  intros [_ _ _ [F1 F2] [F3 F4]]. destruct pc; simpl; try done.
  - lia.
  - intros [H1 H2]. split; [lia|]. intros E. apply F2; [lia|apply H2; lia].
  - lia.
  - intros [H1 H2]. split; [lia|]. intros E. apply F4; [lia|apply H2; lia].
Qed.

Lemma untriggered_le_scheds ts : (sum_list_with untriggered ts ≤ sum_list_with n_scheds ts)%nat.
Proof. apply sum_list_with_le. intros []; simpl; lia. Qed.

Lemma forward_empty n n' :
  forward n n' → is_underway n = true → active (connections n) = ∅ → active (connections n') = ∅.
Proof.
  intros Hf Hu He. apply map_empty. intros a. apply eq_None_not_Some. intros [conn' Ha].
  destruct (fw_closed _ _ Hf Hu a conn' Ha) as (conn&E&_). by rewrite He, lookup_empty in E.
Qed.

Lemma shut_inv_run c s t pc ch o :
  threads s !! t = Some pc → thread_step t (threads s) (node s) pc ch = Some o →
  Inv c s → ShutInv s → ShutInv (apply_out t o s).
Proof.
  intros Ht H HI [J1 J2 J3 J4 J5 J6 J7].
  pose proof (thread_step_forward _ _ _ _ _ _ H) as Hf.
  destruct (thread_step_shut _ _ _ _ _ _ H) as [S1 S2 S3 S4 S4' S5 S6 S7 S8].
  rewrite Forall_forall in S7.
  assert (J4' : past_sched pc = true → sum_list_with untriggered (threads s) = 0%nat)
    by (intros; apply J4; right; eauto).
  pose proof (apply_out_sum untriggered t o s pc Ht) as Eu.
  split.
  - intros u pcu Hu Hb. destruct (apply_out_lookup past_begin _ _ _ _ _ Hu) as [E|[(p&Hp&E)|(p&Hp&E)]];
      rewrite E in Hb.
    + destruct (S1 Hb) as [Hb'|?]; [|done]. apply (fw_flag _ _ Hf). eauto.
    + destruct (S7 _ Hp) as (?&_). congruence.
    + apply (fw_flag _ _ Hf). eauto.
  - intros u pcu Hu Hb. destruct (apply_out_lookup past_drain _ _ _ _ _ Hu) as [E|[(p&Hp&E)|(p&Hp&E)]];
      rewrite E in Hb.
    + destruct (S2 Hb) as [Hb'|[_ ?]]; [|done].
      apply (forward_empty _ _ Hf); [|by eauto]. eapply J1; [done|]. by destruct pc.
    + destruct (S7 _ Hp) as (_&?&_). congruence.
    + apply (forward_empty _ _ Hf); [|by eauto]. eapply J1; [done|]. by destruct p.
  - intros Hs. destruct (S4 Hs) as [Hs'|Hs']; apply (fw_flag _ _ Hf); eauto.
  - intros Hor.
    assert (is_underway (node s) = true ∧ sum_list_with untriggered (threads s) = 0%nat) as [Hfl Hz].
    { destruct Hor as [Hs|(u&pcu&Hu&Hb)].
      - destruct (S4 Hs) as [?|?]; eauto 6.
      - destruct (apply_out_lookup past_sched _ _ _ _ _ Hu) as [E|[(p&Hp&E)|(p&Hp&E)]]; rewrite E in Hb.
        + destruct (S3 Hb) as [?|[Hb' Hz]]; [by eauto 6|]. split; [by eauto|].
          pose proof (untriggered_le_scheds (threads s)). pose proof (inv_scheds _ _ HI). lia.
        + destruct (S7 _ Hp) as (_&_&?&_). congruence.
        + split; [|by eauto 6]. eapply J1; [done|]. by destruct p. }
    specialize (S6 Hfl). pose proof (sum_list_with_lookup untriggered _ _ _ Ht). lia.
  - intros u pcu Hu. destruct (apply_out_lookup (wakeable (o_node o)) _ _ _ _ _ Hu) as [E|[(p&Hp&E)|(p&Hp&E)]];
      simpl node; rewrite E.
    + eauto.
    + by destruct (S7 _ Hp) as (_&_&_&?).
    + apply (wakeable_forward _ _ _ Hf). eauto.
  - intros Hs. destruct (S4 Hs) as [Hs'|Hs']; apply (forward_empty _ _ Hf); eauto.
    eapply J2; [done|]. by destruct pc.
  - intros u pcu Hu Hb. destruct (apply_out_lookup past_signal _ _ _ _ _ Hu) as [E|[(p&Hp&E)|(p&Hp&E)]];
      rewrite E in Hb.
    + destruct (S8 Hb) as [?|?]; [|done]. apply (fw_signal _ _ Hf). eauto.
    + destruct (S7 _ Hp) as (_&_&?&_). by destruct p.
    + apply (fw_signal _ _ Hf). eauto.
Qed.

Lemma shut_inv_cancel s t pc o :
  threads s !! t = Some pc → cancel (node s) pc = Some o → ShutInv s → ShutInv (apply_out t o s).
Proof.
  intros Ht H [J1 J2 J3 J4 J5 J6 J7].
  destruct (cancel_shut _ _ _ H) as (C1&C2&C3&C4&C5&C6).
  destruct (cancel_conn _ _ _ H) as (_&_&Hn&Hs&_&_&Hl).
  assert (∀ (P : Pc → bool) (HP : Neutral P) u pcu, P (o_pc o) = false →
    threads (apply_out t o s) !! u = Some pcu → P pcu = true →
    ∃ p, threads s !! u = Some p ∧ P p = true) as Hlk.
  { intros P HP u pcu HPo Hu Hb.
    destruct (apply_out_lookup P _ _ _ _ _ Hu) as [E|[(p&Hp&E)|(p&Hp&E)]];
      [congruence|rewrite Hs in Hp; by apply not_elem_of_nil in Hp|exists p; split; congruence]. }
  pose proof (apply_out_sum untriggered t o s pc Ht) as Eu. rewrite Hs, C5 in Eu. simpl in Eu.
  split; simpl node; rewrite ?Hn; auto.
  - intros u pcu Hu Hb. apply (Hlk past_begin _) in Hu as (p&?&?); eauto.
  - intros u pcu Hu Hb. apply (Hlk past_drain _) in Hu as (p&?&?); eauto.
  - intros Hor. assert (sum_list_with untriggered (threads s) = 0%nat); [|simpl; lia].
    apply J4. destruct Hor as [?|(u&pcu&Hu&Hb)]; [by left|].
    apply (Hlk past_sched _) in Hu as (p&?&?); eauto.
  - intros u pcu Hu. destruct (apply_out_lookup (wakeable (node s)) _ _ _ _ _ Hu) as [E|[(p&Hp&E)|(p&Hp&E)]];
      rewrite E; [done|rewrite Hs in Hp; by apply not_elem_of_nil in Hp|by eauto].
  - intros u pcu Hu Hb. apply (Hlk past_signal _) in Hu as (p&?&?); eauto.
Qed.

Lemma user_pc_shut n pc :
  user_pc pc = true →
  past_begin pc = false ∧ past_drain pc = false ∧ past_sched pc = false ∧ wakeable n pc ∧
  untriggered pc = 0%nat ∧ past_signal pc = false.
Proof. by destruct pc. Qed.

Lemma shut_inv_user s n' l ab :
  same_core (node s) n' → Forall (λ pc, user_pc pc = true) l → ShutInv s →
  ShutInv (mkSys n' (foldl (λ ts t, abort_thread t ts) (threads s ++ l) ab) (log s)).
Proof.
  intros [_ E2 _ E4] Hl [J1 J2 J3 J4 J5 J6 J7].
  assert (Hfw : forward (node s) n') by (by apply forward_core).
  assert (Hl' := Hl). rewrite Forall_forall in Hl.
  assert (∀ (P : Pc → bool) (HP : Neutral P) u pcu, (∀ pc, user_pc pc = true → P pc = false) →
    foldl (λ ts t, abort_thread t ts) (threads s ++ l) ab !! u = Some pcu → P pcu = true →
    ∃ p, threads s !! u = Some p ∧ P p = true) as Hlk.
  { intros P HP u pcu HPo Hu Hb.
    destruct (user_threads_lookup P _ _ _ _ _ Hu) as [(p&Hp&E)|(p&Hp&E)]; [|exists p; split; congruence].
    specialize (HPo _ (Hl _ Hp)). congruence. }
  unfold is_underway in *. split; simpl; unfold is_underway; rewrite ?E2, ?E4; auto.
  - intros u pcu Hu Hb. apply (Hlk past_begin _) in Hu as (p&?&?); [by eauto| |done].
    by intros pc (?&_)%(user_pc_shut (node s)).
  - intros u pcu Hu Hb. apply (Hlk past_drain _) in Hu as (p&?&?); [by eauto| |done].
    by intros pc (_&?&_)%(user_pc_shut (node s)).
  - intros Hor. rewrite (user_threads_sum untriggered).
    + apply J4. destruct Hor as [?|(u&pcu&Hu&Hb)]; [by left|].
      apply (Hlk past_sched _) in Hu as (p&?&?); [by eauto| |done].
      by intros pc (_&_&?&_)%(user_pc_shut (node s)).
    + eapply Forall_impl; [done|]. by intros pc (_&_&_&_&?&_)%(user_pc_shut (node s)).
  - intros u pcu Hu. destruct (user_threads_lookup (wakeable n') _ _ _ _ _ Hu) as [(p&Hp&E)|(p&Hp&E)];
      rewrite E; [|apply (wakeable_forward _ _ _ Hfw); by eauto].
    apply user_pc_shut. by apply Hl.
  - intros u pcu Hu Hb. apply (Hlk past_signal _) in Hu as (p&?&?); [by eauto| |done].
    by intros pc (_&_&_&_&_&?)%(user_pc_shut (node s)).
Qed.

Lemma reachable_shut c s : reachable c s → ShutInv s.
Proof.
  induction 1 as [seq_id now conn_id seq_id' n _ Hn|s l s' Hr IH Hs].
  - unfold new_node in Hn. destruct (admit_config seq_id c) as [|[q c']]; simplify_eq/=.
    by split.
  - apply step_inv in Hs as [t pc ch o Ht E|t pc o Ht E|n' l' ab ? ? Hl|].
    + eapply shut_inv_run; eauto with pea.
    + by eapply shut_inv_cancel.
    + by apply shut_inv_user.
    + destruct IH as [J1 J2 J3 J4 J5 J6 J7]. by split.
Qed.

Lemma step_forward l s s' : step l s = Some s' → forward (node s) (node s').
Proof.
  intros [t pc ch o Ht E|t pc o Ht E|n' l' ab [? ? ? ?] ? Hl|]%step_inv; simpl; try (by apply forward_core).
  - by eapply thread_step_forward.
  - destruct (cancel_conn _ _ _ E) as (_&_&->&_). by apply forward_core.
Qed.

(** ** Properties *)

Lemma run_forward_closed ls s s' :
  run ls s = Some s' → is_underway (node s) = true →
  is_underway (node s') = true ∧
  ∀ a conn', active (connections (node s')) !! a = Some conn' →
    ∃ conn, active (connections (node s)) !! a = Some conn ∧ id conn = id conn'.
Proof.
  revert s. induction ls as [|l ls IH]; intros s H Hu; simplify_eq/=; [by eauto|].
  destruct (step l s) as [s1|] eqn:E; simplify_eq/=. pose proof (step_forward _ _ _ E) as Hf.
  destruct (IH _ H (fw_flag _ _ Hf Hu)) as [? Hc]. split; [done|]. intros a conn' Ha.
  destruct (Hc _ _ Ha) as (c1&Ha1&<-). by apply (fw_closed _ _ Hf Hu).
Qed.

(** Thread 18 shuts [demo_busy] down and waits for the active set to drain: the connection it
    finds there has already been claimed by thread 16, so its own disconnect (19) does nothing. *)
Definition run_shutdown : list Label := [ShutDown] ++ steps 3 18 ++ steps 1 19 ++ steps 3 18.
Definition demo_parked : Sys := after (run_enable ++ run_dial ++ run_add ++ run_busy ++ run_shutdown).

(** Thread 16's hook ends, and its finalizer removes the connection. *)
Definition run_drain : list Label := steps 1 17 ++ steps 4 16.
Definition demo_drained : Sys :=
  after (run_enable ++ run_dial ++ run_add ++ run_busy ++ run_shutdown ++ run_drain).

Lemma demo_parked_reachable : reachable demo_config demo_parked.
Proof. apply after_reachable. vm_compute. eauto. Qed.

Lemma demo_drained_reachable : reachable demo_config demo_drained.
Proof. apply after_reachable. vm_compute. eauto. Qed.

(** A shutdown is permanent and closes the node: once it has begun, no interleaving of
    setups, disconnects, cancellations and user calls takes it back or brings a new connection into
    the active set; the connections found there later are instances that were there before. *)
Theorem shutdown_closes ls s s' :
  run ls s = Some s' → is_underway (node s) = true →
  is_underway (node s') = true ∧
  ∀ a conn', active (connections (node s')) !! a = Some conn' →
    ∃ conn, active (connections (node s)) !! a = Some conn ∧ id conn = id conn'.
Proof. apply run_forward_closed. Qed.

Lemma shutdown_closes_witness :
  ∃ s', run run_drain demo_parked = Some s' ∧ is_underway (node s') = true.
Proof.
  destruct (run run_drain demo_parked) as [s'|] eqn:E; [|by vm_compute in E].
  exists s'. split; [done|]. apply (shutdown_closes run_drain demo_parked s' E). by vm_compute.
Defined.

(** C9. [shut_down] drains the node: from the moment its wait for the active set is over, the
    active set is empty, and it stays empty whatever happens next. *)
Theorem shutdown_drains c s t pc :
  reachable c s → threads s !! t = Some pc → past_drain pc = true →
  ∀ ls s', run ls s = Some s' → active (connections (node s')) = ∅.
Proof.
  intros Hr Ht Hp ls s' Hrun. pose proof (reachable_shut _ _ Hr) as J.
  pose proof (sh_drained _ J _ _ Ht Hp) as He.
  assert (is_underway (node s) = true) as Hu by (eapply (sh_begun _ J); [done|by destruct pc]).
  destruct (run_forward_closed _ _ _ Hrun Hu) as [_ Hc].
  apply map_empty. intros a. apply eq_None_not_Some. intros [conn' Ha].
  destruct (Hc _ _ Ha) as (conn&E&_). by rewrite He, lookup_empty in E.
Qed.

Lemma shutdown_drains_witness :
  ∃ s', run (steps 3 18) demo_drained = Some s' ∧ active (connections (node s')) = ∅.
Proof.
  destruct (run (steps 3 18) demo_drained) as [s'|] eqn:E; [|by vm_compute in E].
  exists s'. split; [done|].
  eapply (shutdown_drains demo_config s' 18%nat); [eapply run_reachable; [apply demo_drained_reachable|exact E]| | |];
    [vm_compute in E; injection E as <-; reflexivity|reflexivity|].
  by instantiate (1 := []).
Defined.

(** C7. No wake-up is lost: whenever the condition a [shut_down] is waiting for holds (the active
    set is empty; no [OnConnect] scheduling is in flight), the waiting thread is not asleep but able
    to take a step, because [wait_for_drain] registers for the notification before it checks. *)
Theorem no_lost_wakeup c s t hs g :
  reachable c s →
  (threads s !! t = Some (SdPark hs g) → active (connections (node s)) = ∅ →
     is_Some (step (Run t Go) s)) ∧
  (threads s !! t = Some (SdSchedPark hs g) → sched_in_flight (shutdown (node s)) = 0 →
     is_Some (step (Run t Go) s)).
Proof.
  intros J%reachable_shut. split; intros Ht Hz; destruct (sh_wakeable _ J _ _ Ht) as [_ Hw]; simpl;
    rewrite Ht; simpl.
  - destruct (N.eqb_spec (drain_notify (connections (node s))) g) as [E|]; [|by eexists]. by destruct (Hw E).
  - destruct (N.eqb_spec (sched_drained (shutdown (node s))) g) as [E|]; [|by eexists]. by destruct (Hw E).
Qed.

Lemma no_lost_wakeup_witness : is_Some (step (Run 18 Go) demo_drained).
Proof.
  assert (∃ hs g, threads demo_drained !! 18%nat = Some (SdPark hs g)) as (hs&g&E) by (vm_compute; eauto).
  apply (proj1 (no_lost_wakeup demo_config demo_drained 18%nat hs g demo_drained_reachable)); [exact E|].
  by vm_compute.
Defined.
