(* ===== verification/Hooks.v ===== *)
(** * No hook is lost

    The [OnConnect] and [OnDisconnect] triggers reach their handlers, and the handlers spawn the hooks,
    as long as no [shut_down] is dropped while it waits: the handlers are signalled to wind down only
    after the active set has drained and every [OnConnect] scheduling task has ended, and aborted only
    after that. *)

From S2P Require Import Prelude Net Config Stats Connections Node Tasks Ownership Lifecycle Scenario Links Progress Shutdown.

Open Scope N_scope.

(** ** The runs *)

(** Dropping a [shut_down] at one of its waits, which aborts the handlers it has taken over before
    they were signalled. *)
Definition drops_shutdown (s : Sys) (l : Label) : bool :=
  match l with
  | Cancel t =>
      match threads s !! t with
      | Some (SdFan _ _) | Some (SdPark _ _) | Some (SdSchedPark _ _) => true
      | _ => false
      end
  | _ => false
  end.

(** The states reachable without that. *)
Inductive graceful (c : Config) : Sys → Prop :=
| gr_init seq_id now conn_id seq_id' n :
    conn_id < u64_max → new_node seq_id now conn_id c = inr (seq_id', n) → graceful c (init_sys n)
| gr_step s l s' : graceful c s → drops_shutdown s l = false → step l s = Some s' → graceful c s'.

Lemma graceful_reachable c s : graceful c s → reachable c s.
Proof. induction 1; [by eapply reach_init|by eapply reach_step]. Qed.

(** ** Handlers that are running *)

Definition is_handler (k : NodeTask) (pc : Pc) : bool :=
  match pc with TkHandler k' => bool_decide (k' = k) | _ => false end.

Lemma handler_alive_exists ts k : handler_alive ts k = true ↔ ∃ t pc, ts !! t = Some pc ∧ is_handler k pc = true.
Proof.
  unfold handler_alive. rewrite existsb_exists. split.
  - intros (pc&Hin&H). apply list_elem_of_In, list_elem_of_lookup_1 in Hin as [t Ht]. eauto.
  - intros (t&pc&Ht&H). exists pc. split; [|done]. apply list_elem_of_In. by eapply list_elem_of_lookup_2.
Qed.

Lemma alive_app ts l k : handler_alive (ts ++ l) k = handler_alive ts k || handler_alive l k.
Proof. apply existsb_app. Qed.

Lemma alive_alter (f : Pc → Pc) (t : nat) ts k :
  (∀ pc, is_handler k pc = true → is_handler k (f pc) = true) →
  handler_alive ts k = true → handler_alive (alter f t ts) k = true.
Proof.
  intros Hf (u&pc&Hu&Hp)%handler_alive_exists. apply handler_alive_exists.
  destruct (decide (t = u)) as [->|Hne]; [exists u, (f pc)|exists u, pc]; split; auto.
  - by rewrite list_lookup_alter, decide_True, Hu.
  - by rewrite list_lookup_alter_ne.
Qed.

Lemma alive_insert t ts pc pc' k :
  ts !! t = Some pc → is_handler k pc = false → handler_alive ts k = true → handler_alive (<[t := pc']> ts) k = true.
Proof.
  intros Ht Hn (u&pcu&Hu&Hp)%handler_alive_exists. apply handler_alive_exists. exists u, pcu. split; [|done].
  rewrite list_lookup_insert_ne; [done|]. congruence.
Qed.

Lemma alive_aborts l ts k : handler_alive ts k = true → handler_alive (foldl (λ ts t, abort_thread t ts) ts l) k = true.
Proof. revert ts. induction l as [|t l IH]; intros ts H; simpl; [done|]. apply IH, alive_alter; [by intros []|done]. Qed.

(** Only [EStop] ends a handler. *)
Definition no_stop (e : Effect) : Prop := match e with EStop _ => False | _ => True end.

Lemma alive_effects es ts k :
  Forall no_stop es → handler_alive ts k = true → handler_alive (foldl apply_effect ts es) k = true.
Proof.
  intros He. revert ts. induction He as [|e es He Hes IH]; intros ts H; simpl; [done|]. apply IH.
  destruct e as [t|t|t|t|t r]; simpl in *; try done.
  - apply alive_alter; [by intros []|done].
  - apply alive_alter; [intros []; try done; by destruct k0|done].
  - apply alive_alter; [by intros []|done].
  - unfold reply_thread. destruct (ts !! t) as [pc|] eqn:Ht; [|destruct r; auto using alive_aborts].
    destruct pc, r; auto using alive_aborts; by eapply alive_insert.
Qed.

(** ** Who needs a handler *)

Definition hook_enabled (n : Node) (k : NodeTask) : bool :=
  match k with
  | TaskOnConnect => bool_decide (is_Some (on_connect (protocols n)))
  | TaskOnDisconnect => on_disconnect (protocols n)
  | _ => false
  end.

Definition needs (pc : Pc) : option NodeTask :=
  match pc with
  | AdAdd _ _ _ _ true | AdGuard _ _ _ _ true | AdReady _ _ _ _ true | AdSpawn _ _ _ true
  | ScTrigger _ _ | ScAwait _ _ => Some TaskOnConnect
  | DsAwait _ _ => Some TaskOnDisconnect
  | _ => None
  end.

#[export] Instance needs_neutral : Neutral needs.
Proof. solve_neutral. Qed.

Definition bad_event (e : Event) : bool :=
  match e with
  | EvSkippedOnConnect _ | EvSkippedOnDisconnect _ | EvLostOnConnect _ | EvLostOnDisconnect _ => true
  | _ => false
  end.

Record HookInv (s : Sys) : Prop := {
  hk_needs : ∀ t pc k, threads s !! t = Some pc → needs pc = Some k → hook_enabled (node s) k = true;
  hk_alive : ∀ k, hook_enabled (node s) k = true →
    handler_alive (threads s) k = true ∨ handler_signal (shutdown (node s)) = true;
  hk_log : Forall (λ e, bad_event e = false) (log s);
}.

(** What a step of a thread does to all this. *)
Record hook_step (t : nat) (ts : list Pc) (n : Node) (pc : Pc) (o : Out) : Prop := {
  hs_enabled k : hook_enabled (o_node o) k = hook_enabled n k;
  hs_needs k : needs (o_pc o) = Some k → needs pc = Some k ∨ hook_enabled n k = true;
  hs_spawn : Forall (λ pc', ∀ k, needs pc' = Some k → needs pc = Some k) (o_spawn o);
  hs_effects : Forall no_stop (o_effects o) ∨ past_signal pc = true ∨ past_signal (o_pc o) = true;
  hs_handler k : is_handler k pc = false;
  hs_log : Forall (λ e, bad_event e = false) (o_log o) ∨
    (∃ k, (needs pc = Some k ∨ hook_enabled n k = true) ∧
      channel_open ts n k = false ∧ (untriggered pc = 1%nat ∨ ∃ a g, claim_of pc = Some (a, g)));
}.

Lemma finalizer_senders_hooks n a k : hook_enabled (finalizer_senders n a) k = hook_enabled n k.
Proof. unfold finalizer_senders. destruct (writing (protocols n)); by destruct k. Qed.

Lemma finalizer_remove_protocols n a ok conn n' : finalizer_remove n a = (ok, conn, n') → protocols n' = protocols n.
Proof. unfold finalizer_remove. destruct (remove _ _), (release_ip _ _). intros; by simplify_eq. Qed.

Lemma hook_enabled_same n n' k : protocols n' = protocols n → hook_enabled n' k = hook_enabled n k.
Proof. intros E. unfold hook_enabled. by rewrite E. Qed.

Lemma thread_step_enabled t ts n pc ch o k :
  thread_step t ts n pc ch = Some o → hook_enabled (o_node o) k = hook_enabled n k.
Proof.
  intros H. destruct pc; step_cases H;
    try match goal with E : finalizer_remove _ _ = _ |- _ => apply finalizer_remove_protocols in E; by apply hook_enabled_same end;
    try apply finalizer_senders_hooks; op_inv; done.
Qed.

Lemma channel_gone ts n k : handler_alive ts k = false → channel_open ts n k = false.
Proof. unfold channel_open. by intros ->. Qed.

Lemma thread_step_hooks t ts n pc ch o : thread_step t ts n pc ch = Some o → hook_step t ts n pc o.
Proof.
  intros H. split.
  - intros k. by eapply thread_step_enabled.
  - intros k. destruct pc; step_cases H; intros; simplify_eq; auto; try (by destruct k0).
    right. unfold hook_enabled. by rewrite H0.
  - destruct pc; step_cases H; repeat constructor; try (by destruct k); auto. apply Forall_fmap, Forall_true. done.
  - destruct pc; step_cases H; auto; try (left; by repeat constructor); left; apply Forall_fmap, Forall_true; done.
  - intros k. by destruct pc.
  - destruct pc; step_cases H; auto; try (left; by repeat constructor); right.
    + exists TaskOnConnect. auto.
    + exists TaskOnConnect. auto using channel_gone.
    + exists TaskOnDisconnect. split; [by right|]. split; [done|]. right. by eexists _, _.
    + exists TaskOnDisconnect. split; [by left|]. split; [by apply channel_gone|]. right. by eexists _, _.
Qed.

(** Once the handlers have been signalled, nobody needs them any more. *)
Lemma nobody_after_signal c s t pc :
  Inv c s → ShutInv s → threads s !! t = Some pc → handler_signal (shutdown (node s)) = true →
  untriggered pc = 1%nat ∨ (∃ a g, claim_of pc = Some (a, g)) → False.
Proof.
  intros HI HS Ht Hs [Hu|(a&g&Hc)].
  - pose proof (sh_triggered _ HS (or_introl Hs)). pose proof (sum_list_with_lookup untriggered _ _ _ Ht). lia.
  - destruct (inv_claim_id _ _ _ (inv_conn _ _ HI) _ _ _ _ Ht Hc) as (conn&Ha&_).
    by rewrite (sh_empty _ HS Hs), lookup_empty in Ha.
Qed.

Lemma hook_inv_run c s t pc ch o :
  threads s !! t = Some pc → thread_step t (threads s) (node s) pc ch = Some o →
  Inv c s → ShutInv s → ShutInv (apply_out t o s) → HookInv s → HookInv (apply_out t o s).
Proof.
  intros Ht H HI HS HS' [K1 K2 K3]. destruct (thread_step_hooks _ _ _ _ _ _ H) as [S1 S2 S3 S4 S5 S6].
  pose proof (thread_step_forward _ _ _ _ _ _ H) as Hf. split.
  - intros u pcu k Hu Hk. simpl node. rewrite S1.
    destruct (apply_out_lookup needs _ _ _ _ _ Hu) as [E|[(p&Hp&E)|(p&Hp&E)]]; rewrite E in Hk.
    + destruct (S2 _ Hk); eauto.
    + rewrite Forall_forall in S3. eauto.
    + eauto.
  - intros k Hk. simpl node in *. rewrite S1 in Hk. destruct (K2 _ Hk) as [Ha|Hs]; [|right; by apply (fw_signal _ _ Hf)].
    destruct S4 as [He|He].
    + left. simpl. apply alive_effects; [done|]. rewrite alive_app. apply orb_true_intro. left. by eapply alive_insert.
    + right. destruct He as [He|He]; [apply (fw_signal _ _ Hf); by eapply (sh_joined _ HS)|].
      destruct (apply_out_own past_signal t o s pc Ht) as (pc'&Ht'&E). rewrite He in E. by apply (sh_joined _ HS' _ _ Ht' E).
  - simpl. apply Forall_app. split; [|done]. destruct S6 as [?|(k&Hk&Ho&Hn)]; [done|]. exfalso.
    assert (hook_enabled (node s) k = true) as He by (destruct Hk; eauto).
    unfold channel_open in Ho. destruct (K2 _ He) as [Ha|Hs]; [rewrite Ha in Ho; simpl in Ho; apply negb_false_iff in Ho|].
    all: by eapply nobody_after_signal.
Qed.

(** Dropping any other future leaves the handlers alone, or comes after the signal. *)
Lemma cancel_hooks n pc o :
  cancel n pc = Some o →
  needs (o_pc o) = None ∧ (∀ k, is_handler k pc = false) ∧
  (Forall no_stop (o_effects o) ∨ past_signal pc = true ∨
   match pc with SdFan _ _ | SdPark _ _ | SdSchedPark _ _ => True | _ => False end).
Proof.
  intros H. destruct pc; unfold cancel, next, abandon in H; repeat case_match; simplify_eq/=; split_and!; auto;
    left; by repeat constructor.
Qed.

Lemma hook_inv_cancel s t pc o :
  threads s !! t = Some pc → drops_shutdown s (Cancel t) = false → cancel (node s) pc = Some o →
  ShutInv s → HookInv s → HookInv (apply_out t o s).
Proof.
  intros Ht Hd H HS [K1 K2 K3]. destruct (cancel_conn _ _ _ H) as (_&_&Hn&Hs&_&_&Hl).
  destruct (cancel_hooks _ _ _ H) as (C1&C2&C3). split; simpl node; simpl log; rewrite ?Hn, ?Hl; [| |done].
  - intros u pcu k Hu Hk. destruct (apply_out_lookup needs _ _ _ _ _ Hu) as [E|[(p&Hp&E)|(p&Hp&E)]]; rewrite E in Hk;
      [congruence|rewrite Hs in Hp; by apply not_elem_of_nil in Hp|by eauto].
  - intros k Hk. destruct (K2 _ Hk) as [Ha|?]; [|by right]. destruct C3 as [He|[He|He]].
    + left. simpl. apply alive_effects; [done|]. rewrite Hs, app_nil_r. by eapply alive_insert.
    + right. by apply (sh_joined _ HS _ _ Ht).
    + simpl in Hd. rewrite Ht in Hd. by destruct pc.
Qed.

(** A call of the user's ends no handler, and enabling a protocol starts its handler. *)
Lemma user_hooks l s s' k :
  user_label l = true → step l s = Some s' →
  (hook_enabled (node s') k = true → hook_enabled (node s) k = true ∨ handler_alive (threads s') k = true) ∧
  (handler_alive (threads s) k = true → handler_alive (threads s') k = true) ∧
  (hook_enabled (node s) k = true → hook_enabled (node s') k = true).
Proof.
  intros Hl H.
  assert (handler_alive (threads s) k = true → handler_alive (threads s') k = true) as Ha.
  { apply user_step_inv in H as [n' l' ab _ _ _|]; [|done|done]. simpl. intros Ha. apply alive_aborts.
    rewrite alive_app. by rewrite Ha. }
  destruct l; try done; simpl in H; simplify_eq/=;
    try (rewrite (hook_enabled_same (node s)); [by auto|]; unfold toggle_listener, register_task;
      by repeat case_match; simplify_eq/=).
  all: try (split_and!; by auto).
  unfold enable_protocol, enable_handshake, enable_reading, enable_writing, enable_on_connect,
    enable_on_disconnect, install_protocol_handler, register_task in H. repeat case_match; simplify_eq/=;
    (split; [|split; [exact Ha|by destruct k]]); destruct k; simpl; auto;
    intros _; right; rewrite alive_app; apply orb_true_r.
Qed.

Lemma graceful_hooks c s : graceful c s → HookInv s.
Proof.
  induction 1 as [seq_id now conn_id seq_id' n _ Hn|s l s' Hg IH Hd Hs].
  { unfold new_node in Hn. destruct (admit_config seq_id c) as [|[q c']]; simplify_eq/=. split; simpl; [done| |constructor].
    by intros []. }
  pose proof (graceful_reachable _ _ Hg) as Hr. pose proof (reachable_inv _ _ Hr) as HI.
  pose proof (reachable_shut _ _ Hr) as HS. pose proof (reachable_shut _ _ (reach_step _ _ _ _ Hr Hs)) as HS'.
  destruct (user_label l) eqn:Hl.
  - destruct IH as [K1 K2 K3]. pose proof (λ k, user_hooks l s s' k Hl Hs) as Hu.
    apply user_step_inv in Hs as V; [|done]. split.
    + intros t pc k Ht Hk. apply Hu. destruct V as [n' l' ab _ _ Hf|]; [|by eapply K1].
      destruct (user_threads_lookup needs _ _ _ _ _ Ht) as [(p&Hp&E)|(p&Hp&E)]; [|eapply K1; [done|congruence]].
      rewrite Forall_forall in Hf. specialize (Hf _ Hp). rewrite E in Hk. by destruct p.
    + intros k Hk. assert (shutdown (node s') = shutdown (node s)) as -> by (by destruct V as [??? [] _ _|]).
      destruct (Hu k) as (U1&U2&_). destruct (U1 Hk) as [Hk'|?]; [|by left]. destruct (K2 _ Hk'); auto.
    + destruct V; simpl; [done|]. by constructor.
  - destruct l; try done; simpl in Hs; destruct (threads s !! t) as [pc|] eqn:Ht; simplify_eq/=.
    + destruct (thread_step _ _ _ _ _) as [o|] eqn:E; simplify_eq/=. by eapply hook_inv_run.
    + destruct (cancel _ _) as [o|] eqn:E; simplify_eq/=. eapply hook_inv_cancel; eauto.
Qed.

(** ** The theorem *)

Lemma run_graceful c ls s s' :
  forallb (λ l, match l with Cancel _ => false | _ => true end) ls = true →
  graceful c s → run ls s = Some s' → graceful c s'.
Proof.
  revert s. induction ls as [|l ls IH]; intros s Hl Hg H; simplify_eq/=; [done|].
  apply andb_prop in Hl as [Hl Hls]. destruct (step l s) as [s1|] eqn:E; simplify_eq/=.
  eapply IH; [done| |done]. eapply gr_step; [done| |done]. by destruct l.
Qed.

(** C8. No hook is lost.  As long as no [shut_down] is dropped while it waits for its disconnects, for
    the active set or for the scheduling tasks (which aborts the handlers on the spot), every [OnConnect]
    and every [OnDisconnect] trigger is sent into an open channel, and its handler lives to spawn the
    hook, whatever is dialed, accepted, disconnected, dropped and shut down in whatever order: a shutdown
    signals the handlers only once the active set has drained and the last scheduling task is done. *)
Theorem hooks_never_lost c s :
  graceful c s → ∀ g,
  (EvSkippedOnConnect g ∉ log s) ∧ (EvLostOnConnect g ∉ log s) ∧
  (EvSkippedOnDisconnect g ∉ log s) ∧ (EvLostOnDisconnect g ∉ log s).
Proof.
  intros H%graceful_hooks g. pose proof (hk_log _ H) as Hl. rewrite Forall_forall in Hl.
  split_and!; intros Hin%Hl; done.
Qed.

Lemma hooks_never_lost_witness :
  EvOnConnect 0 ∈ log demo_drained ∧ EvOnDisconnect 0 OriginUser ∈ log demo_drained ∧
  (EvSkippedOnConnect 0 ∉ log demo_drained) ∧ (EvLostOnDisconnect 0 ∉ log demo_drained).
Proof.
  assert (run (run_enable ++ run_dial ++ run_add ++ run_busy ++ run_shutdown ++ run_drain) (init_sys demo_node)
    = Some demo_drained) as R by (vm_compute; reflexivity).
  assert (graceful demo_config demo_drained) as Hg.
  { eapply run_graceful; [|  |exact R]; [vm_compute; reflexivity|]. exact (gr_init demo_config 0 0 0 1 demo_node eq_refl eq_refl). }
  destruct (hooks_never_lost demo_config demo_drained Hg 0) as (H1&_&_&H4).
  split; [vm_compute; repeat constructor|]. split; [vm_compute; repeat constructor|]. split; [exact H1|exact H4].
Defined.

(** With [OnConnect] enabled (thread 0), a connection (dialed by thread 1) is active and its scheduling
    task (thread 2) about to send the trigger, when a shutdown (thread 3) is dropped at its first wait. *)
Definition run_dropped : list Label :=
  [EnableProtocol (EnOnConnect true); Connect (peer 1 4000)] ++ steps 5 1 ++ [Run 1 (GotStream 1)] ++
  steps 9 1 ++ [ShutDown] ++ steps 3 3 ++ [Cancel 3; Run 2 Go].

(** The condition is needed: the shutdown has taken its handlers down with it, and the trigger goes
    nowhere. *)
Example dropped_shutdown_skips_hook :
  ∃ s, run run_dropped (init_sys demo_node) = Some s ∧ EvSkippedOnConnect 0 ∈ log s ∧ is_connected (connections (node s)) (peer 1 4000) = true.
Proof.
  destruct (run run_dropped (init_sys demo_node)) as [s|] eqn:E; [|by vm_compute in E].
  exists s. vm_compute in E. injection E as <-. split; [done|]. split; [repeat constructor|by vm_compute].
Qed.
