(* ===== verification/Setup.v ===== *)
(** * Connection setups conclude

    Whatever state the node is in, every connection attempt under way can run to its end: a setup
    that awaits a protocol handler has a setup task that answers it, or a shutdown that releases it;
    one that awaits its [OnConnect] scheduling task has such a task; every other step is always
    possible; and each of these steps uses up some of a bounded amount of work. *)

From S2P Require Import Prelude Net Config Stats Connections Node Tasks Ownership Lifecycle Scenario Links Progress Shutdown.

Open Scope N_scope.

(** ** The tasks of a connection setup *)

(** A connection attempt, a protocol's setup task, an [OnConnect] scheduling task, or any task that
    is releasing what it owns. *)
Definition pending (pc : Pc) : bool :=
  match pc with
  | CnStart _ | CnSelf _ | CnDup _ | CnPermit _ | CnReserve _ | CnDial _ | RqStart _ _ | RqReserve _ _
  | AdNew _ _ _ | AdProto _ _ _ _ | AdAwait _ _ _ | AdSched _ _ _ | AdAdd _ _ _ _ _
  | AdGuard _ _ _ _ _ | AdReady _ _ _ _ _ | AdSpawn _ _ _ _ | AdJoin _ _
  | StRun _ _ _ | StReading1 _ _ _ | StReading2 _ _ _ | StWriting1 _ _ _ | StReply _ _
  | ScTrigger _ _ | ScAwait _ _ | ScAttach _ _ _ _ | Unwind _ _ => true
  | _ => false
  end.

Definition settling (pc : Pc) : bool := match pc with Done _ => true | _ => pending pc end.

#[export] Instance settling_stable : Stable settling.
Proof.
  split; try done.
  - by intros [].
  - by intros [].
  - intros t ts n pc ch o H. destruct pc; step_cases H; try done. by destruct k.
  - intros n pc o H. destruct pc; unfold cancel, next, abandon in H; repeat case_match; by simplify_eq/=.
Qed.

(** The [OnConnect] scheduling task of a setup, and the handle by which the setup waits for it. *)
Definition scheduling (pc : Pc) : bool :=
  match pc with ScTrigger _ _ | ScAwait _ _ | ScAttach _ _ _ _ | Unwind _ _ | Done _ => true | _ => false end.

#[export] Instance scheduling_stable : Stable scheduling.
Proof.
  split; try done.
  - by intros [].
  - intros t ts n pc ch o H. destruct pc; step_cases H; done.
  - intros n pc o H. destruct pc; unfold cancel, next, abandon in H; repeat case_match; by simplify_eq/=.
Qed.

Definition join_of (pc : Pc) : option nat := match pc with AdJoin _ u => Some u | _ => None end.

#[export] Instance join_link : Link join_of scheduling.
Proof.
  split; [solve_neutral|apply _|..].
  - intros t ts n pc ch o H. destruct pc; step_cases H; auto; [by destruct k; left|]. right; right. eauto.
  - intros t ts n pc ch o H. destruct pc; step_cases H; repeat constructor. apply Forall_fmap, Forall_true. done.
  - intros n pc o H. destruct pc; unfold cancel, next, abandon in H; repeat case_match; by simplify_eq/=.
  - by intros [].
Qed.

(** ** Who answers a setup request *)

(** The setup request a protocol's setup task will answer. *)
Definition req_of (pc : Pc) : option nat :=
  match pc with
  | StRun _ _ r | StReading1 _ _ r | StReading2 _ _ r | StWriting1 _ _ r | StReply _ r => Some r
  | _ => None
  end.

#[export] Instance req_of_neutral : Neutral req_of.
Proof. solve_neutral. Qed.

Definition awaiting (pc : Pc) : bool := match pc with AdAwait _ _ _ => true | _ => false end.

(** No effect makes a thread wait. *)
Lemma awaiting_alter (f : Pc → Pc) ts t u :
  (∀ pc, awaiting (f pc) = true → awaiting pc = true) → kind_at awaiting (alter f u ts) t → kind_at awaiting ts t.
Proof.
  intros Hf (pc&Ht&Hp). rewrite list_lookup_alter in Ht. unfold kind_at. case_decide; [|by eauto].
  apply fmap_Some in Ht as (pc0&?&->). subst. exists pc0. auto.
Qed.

Lemma awaiting_aborts l ts t : kind_at awaiting (foldl (λ ts t, abort_thread t ts) ts l) t → kind_at awaiting ts t.
Proof.
  revert ts. induction l as [|u l IH]; intros ts; simpl; [done|].
  intros H%IH. revert H. apply awaiting_alter. by intros [].
Qed.

Lemma awaiting_insert ts t u pc :
  awaiting pc = false → kind_at awaiting (<[u := pc]> ts) t → t ≠ u ∧ kind_at awaiting ts t.
Proof.
  intros Hp (pct&Ht&Hw). apply list_lookup_insert_Some in Ht as [(->&->&_)|[? Ht]]; [congruence|].
  split; [done|]. by exists pct.
Qed.

Lemma awaiting_effect ts e t :
  kind_at awaiting (apply_effect ts e) t →
  kind_at awaiting ts t ∧ match e with EReply u _ => t ≠ u | _ => True end.
Proof.
  destruct e as [u|u|u|u|u r]; simpl; try (intros H; split; [|done]; revert H; apply awaiting_alter; intros []; try done;
    by destruct k).
  - intros H. unfold reply_thread in H. destruct (ts !! u) as [pcu|] eqn:Hu.
    + assert (kind_at awaiting ts t ∧ (awaiting pcu = true → t ≠ u)) as [H1 H2].
      { destruct pcu, r; try (split; [try by eapply awaiting_aborts|done]); try done;
          apply awaiting_insert in H as [??]; try done. by destruct k. }
      split; [done|]. intros ->. destruct H1 as (pc&E&Hp). simplify_eq. by apply H2.
    + assert (kind_at awaiting ts t) as H1 by (destruct r; [by eapply awaiting_aborts|done]).
      split; [done|]. intros ->. destruct H1 as (pc&E&_). congruence.
Qed.

Lemma awaiting_effects es ts t :
  kind_at awaiting (foldl apply_effect ts es) t → kind_at awaiting ts t ∧ ∀ u r, EReply u r ∈ es → t ≠ u.
Proof.
  revert ts. induction es as [|e es IH]; intros ts; simpl; [set_solver|].
  intros [[H He]%awaiting_effect Hes]%IH. split; [done|]. intros u r [<-|?]%elem_of_cons; [done|by eapply Hes].
Qed.

(** A request is sent as the thread starts to wait, and kept until it is answered. *)
Lemma thread_step_req t ts n pc ch o :
  thread_step t ts n pc ch = Some o →
  (awaiting (o_pc o) = true → ∃ pc', o_spawn o = [pc'] ∧ req_of pc' = Some t) ∧
  (∀ u, req_of pc = Some u → req_of (o_pc o) = Some u ∨ ∃ r, EReply u r ∈ o_effects o) ∧
  Forall (λ pc, awaiting pc = false) (o_spawn o).
Proof.
  intros H. split_and!.
  - destruct pc; step_cases H; try done; try (by destruct k). intros _. by eexists.
  - intros u Hu. destruct pc; try done; simpl in Hu; simplify_eq; step_cases H; auto;
      right; eexists; apply list_elem_of_singleton; reflexivity.
  - destruct pc; step_cases H; repeat constructor. apply Forall_fmap, Forall_true. done.
Qed.

Lemma cancel_req n pc o :
  cancel n pc = Some o → awaiting (o_pc o) = false ∧ (is_Some (req_of pc) → is_underway n = true).
Proof.
  intros H. destruct pc; unfold cancel, next, abandon in H; repeat case_match; simplify_eq/=; split; try done;
    by intros [??].
Qed.

(** Whoever waits for a protocol handler is waited upon, unless the node is shutting down. *)
Definition waits_ok (s : Sys) : Prop :=
  ∀ t, kind_at awaiting (threads s) t →
    is_underway (node s) = true ∨ ∃ u pc, threads s !! u = Some pc ∧ req_of pc = Some t.

(** The threads that wait after a step: the one that stepped, or one that did before. *)
Lemma awaiting_out t o s v :
  Forall (λ pc, awaiting pc = false) (o_spawn o) → kind_at awaiting (threads (apply_out t o s)) v →
  (∀ r, EReply v r ∉ o_effects o) ∧ (v = t ∧ awaiting (o_pc o) = true ∨ v ≠ t ∧ kind_at awaiting (threads s) v).
Proof.
  intros Hsp [H Hne]%awaiting_effects. split; [intros r Hr; by eapply Hne|].
  destruct H as (pc&[Ht|[_ Ht]]%lookup_app_Some&Hp).
  - apply list_lookup_insert_Some in Ht as [(->&->&_)|[? Ht]]; [by left|]. right. split; [done|]. by exists pc.
  - eapply Forall_lookup_1 in Hsp; [|done]. congruence.
Qed.

Lemma req_kept t o s u pc v :
  u ≠ t → threads s !! u = Some pc → req_of pc = Some v →
  ∃ u pc, threads (apply_out t o s) !! u = Some pc ∧ req_of pc = Some v.
Proof. intros Hne Hu Hp. destruct (apply_out_other req_of t o s u pc Hne Hu) as (pc'&?&?). exists u, pc'. split; congruence. Qed.

Lemma waits_ok_run t pc ch o s :
  threads s !! t = Some pc → thread_step t (threads s) (node s) pc ch = Some o →
  waits_ok s → waits_ok (apply_out t o s).
Proof.
  intros Ht E Hok v Hv. destruct (thread_step_req _ _ _ _ _ _ E) as (H1&H2&H3).
  apply awaiting_out in Hv as (Hne&[[-> Ho]|[Hvt Hv]]); [|..|done].
  - right. destruct (H1 Ho) as (pc'&Es&Hp).
    assert ((req_of <$> threads (apply_out t o s)) !! length (threads s) = Some (Some t)) as Eq.
    { rewrite (apply_out_fmap req_of), Es, lookup_app_r; rewrite length_insert, length_fmap; [|done].
      by rewrite Nat.sub_diag; simpl; rewrite Hp. }
    apply list_lookup_fmap_Some in Eq as (pcu&?&?). by exists (length (threads s)), pcu.
  - destruct (Hok v Hv) as [Hu|(u&pcu&Hu&Hq)].
    { left. by eapply fw_flag; [eapply thread_step_forward|]. }
    right. destruct (decide (u = t)) as [->|?]; [|by eapply req_kept]. simplify_eq.
    destruct (H2 v Hq) as [Hq'|[r Hr]]; [|by destruct (Hne r)].
    destruct (apply_out_own req_of t o s pc Ht) as (pc'&?&?). exists t, pc'. split; congruence.
Qed.

Lemma reachable_waits c s : reachable c s → waits_ok s.
Proof.
  induction 1 as [|s l s' Hr IH Hs]; [by intros t (?&?&_)|].
  apply step_inv in Hs as [t pc ch o Ht E|t pc o Ht E|n' l' ab Hc _ Hl|]; [by eapply waits_ok_run|..|done].
  - destruct (cancel_conn _ _ _ E) as (_&_&Hn&Hs&_). destruct (cancel_req _ _ _ E) as [C1 C2].
    intros v Hv. apply awaiting_out in Hv as (_&[[-> Ho]|[Hvt Hv]]); [congruence| |by rewrite Hs].
    simpl. rewrite Hn. destruct (IH v Hv) as [Hu|(u&pcu&Hu&Hq)]; [by left|].
    destruct (decide (u = t)) as [->|?]; [|right; by eapply req_kept]. simplify_eq. left. apply C2. eauto.
  - intros v Hv%awaiting_aborts. simpl. destruct Hc as [_ _ _ Esh]. unfold is_underway. rewrite Esh.
    destruct Hv as (pc&[Ht|[_ Ht]]%lookup_app_Some&Hp).
    + destruct (IH v) as [?|(u&pcu&Hu&Hq)]; [by exists pc|by left|right].
      assert ((req_of <$> foldl (λ ts t, abort_thread t ts) (threads s ++ l') ab) !! u = Some (Some v)) as Eq.
      { rewrite (user_threads_fmap req_of). apply lookup_app_l_Some. by rewrite list_lookup_fmap, Hu; simpl; rewrite Hq. }
      apply list_lookup_fmap_Some in Eq as (pcu'&?&?). eauto.
    + eapply Forall_lookup_1 in Hl; [|done]. by destruct pc.
Qed.

(** ** The work left *)

Definition owned_work (d : Owned) : nat := match d with DDisconnect _ _ _ => 11 | _ => 1 end.

(** An upper bound on the steps of a thread and of all the tasks that come of it.  The accept loop and
    [shut_down], which go on for as long as there is something to accept or to wait for, count only
    with the release of what they own. *)
Definition work (pc : Pc) : nat :=
  match pc with
  | Unwind ds _ => 1 + sum_list_with owned_work ds
  | DsDrop _ _ => 1 | DsRemove _ _ _ => 2 | DsSenders _ _ _ => 3 | DsWait _ _ _ => 4 | DsPush _ _ _ => 5
  | DsAwait _ _ => 8 | DsHook _ _ _ => 9 | DsClaim _ _ _ => 10
  | TkHandler _ | LsAccept | LsPermit _ _ => 1
  | TkRun HookOnDisconnect _ _ => 2 | TkRun _ _ _ => 14 | TkWaitReady _ _ => 15
  | AdJoin _ _ => 3
  | ScAttach _ _ _ _ => 3 | ScAwait _ _ => 18 | ScTrigger _ _ => 19
  | AdSpawn _ _ _ _ => 23 | AdReady _ _ _ _ _ => 24 | AdGuard _ _ _ _ _ => 25
  | AdAdd _ _ _ _ _ => 26 | AdSched _ _ _ => 27
  | StReply _ _ => 1
  | StWriting1 _ _ _ => 3 | StRun StWriting _ _ => 18
  | AdAwait StWriting _ _ => 28 | AdProto StWriting _ _ _ => 47
  | StReading2 _ _ _ => 3 | StReading1 _ _ _ => 19 | StRun StReading _ _ => 34
  | AdAwait StReading _ _ => 48 | AdProto StReading _ _ _ => 83
  | StRun StHandshake _ _ => 3
  | AdAwait StHandshake _ _ => 84 | AdProto StHandshake _ _ _ => 88
  | AdNew _ _ _ => 89
  | CnDial _ => 90 | CnReserve _ => 91 | CnPermit _ => 92 | CnDup _ => 93 | CnSelf _ => 94 | CnStart _ => 95
  | RqReserve _ _ => 90 | RqStart _ _ => 91
  | _ => 0
  end%nat.

Definition total_work (ts : list Pc) : nat := sum_list_with work ts.

Lemma work_alter (f : Pc → Pc) t ts :
  (∀ pc, work (f pc) ≤ work pc)%nat → (total_work (alter f t ts) ≤ total_work ts)%nat.
Proof.
  intros Hf. unfold total_work. revert t. induction ts as [|pc ts IH]; intros [|t]; simpl; [lia..| |].
  - pose proof (Hf pc). lia.
  - pose proof (IH t). unfold alter in *. lia.
Qed.

Lemma work_aborted pc : (work (aborted pc) ≤ work pc)%nat.
Proof. destruct pc; simpl; try lia. destruct k; simpl; lia. Qed.

Lemma work_aborts l ts : (total_work (foldl (λ ts t, abort_thread t ts) ts l) ≤ total_work ts)%nat.
Proof.
  revert ts. induction l as [|t l IH]; intros ts; simpl; [lia|].
  etrans; [apply IH|]. apply work_alter, work_aborted.
Qed.

Lemma work_insert ts t pc pc' :
  ts !! t = Some pc → (total_work (<[t := pc']> ts) + work pc = total_work ts + work pc')%nat.
Proof. apply sum_list_with_insert. Qed.

Lemma work_effect ts e : (total_work (apply_effect ts e) ≤ total_work ts)%nat.
Proof.
  destruct e as [t|t|t|t|t r]; simpl.
  - apply work_alter, work_aborted.
  - apply work_alter. intros []; simpl; lia.
  - apply work_alter. intros []; simpl; try lia. destruct k; simpl; lia.
  - apply work_alter. intros []; simpl; lia.
  - unfold reply_thread. destruct (ts !! t) as [pc|] eqn:Ht; [|destruct r; [apply work_aborts|lia]].
    destruct pc, r; try apply work_aborts; try lia;
      match goal with |- context [<[t := ?pc']> _] => pose proof (work_insert ts t _ pc' Ht) as E end;
      destruct k; simpl in *; lia.
Qed.

Lemma work_effects es ts : (total_work (foldl apply_effect ts es) ≤ total_work ts)%nat.
Proof. revert ts. induction es as [|e es IH]; intros ts; simpl; [lia|]. etrans; [apply IH|apply work_effect]. Qed.

Lemma work_out t o s pc :
  threads s !! t = Some pc →
  (total_work (threads (apply_out t o s)) + work pc ≤ total_work (threads s) + work (o_pc o) + total_work (o_spawn o))%nat.
Proof.
  intros Ht. simpl. pose proof (work_effects (o_effects o) (<[t := o_pc o]> (threads s) ++ o_spawn o)) as H.
  pose proof (work_insert _ _ _ (o_pc o) Ht). unfold total_work in *. rewrite sum_list_with_app in H. lia.
Qed.

(** Every task but the accept loop and [shut_down]. *)
Definition internal (pc : Pc) : bool :=
  match pc with LsAccept | LsPermit _ _ => false | _ => negb (is_shutdown pc) end.

(** A turn of the message loop of a connection's task, which goes on for as long as there are
    messages. *)
Definition serves (pc : Pc) (ch : Choice) : bool :=
  match pc, ch with TkRun _ _ _, Served _ _ => true | _, _ => false end.

(** Whatever else an internal task does next, and whatever the environment decides, there is less to do
    afterwards; dropping its future does not add work either. *)
Lemma work_step t ts n pc ch o :
  thread_step t ts n pc ch = Some o → internal pc = true → serves pc ch = false →
  (work (o_pc o) + total_work (o_spawn o) < work pc)%nat.
Proof.
  intros H Hi Hsv. unfold total_work. destruct pc; try done; step_cases H; try lia.
  all: try (by destruct k; simpl; lia).
  all: try (destruct (needs_recovery _ _ _); simpl; lia).
Qed.

Lemma work_cancel n pc o : cancel n pc = Some o → internal pc = true → (work (o_pc o) < work pc)%nat.
Proof.
  intros H Hi. destruct pc; try done; unfold cancel, next, abandon in H; repeat case_match; simplify_eq/=; try lia;
    destruct k; simpl; lia.
Qed.

(** Takes the step of the choice [ch], whichever way the code branches. *)
Ltac take_step ch := exists ch; simpl; repeat case_match; by eexists.

(** A setup thread that nothing holds up can take a step. *)
Lemma pending_step t ts n pc :
  pending pc = true → awaiting pc = false → join_of pc = None → ∃ ch o, thread_step t ts n pc ch = Some o.
Proof.
  intros Hp Ha Hj. destruct pc; try done; try take_step Go.
  - take_step (GotStream 0).
  - destruct k; [take_step (Handshaken (stream c) (reader c) (writer c))|take_step Go|take_step Go].
  - destruct (handler_alive ts TaskOnConnect) eqn:E; [exists Go|exists HandlerGone]; simpl; rewrite E; by eexists.
Qed.

(** As long as a setup is pending, some internal thread can take a step. *)
Definition can_step (s : Sys) : Prop :=
  ∃ u pc ch o, threads s !! u = Some pc ∧ internal pc = true ∧ fixed_of pc = None ∧
    serves pc ch = false ∧ thread_step u (threads s) (node s) pc ch = Some o.

Lemma setup_progress c s t pc :
  reachable c s → threads s !! t = Some pc → pending pc = true → can_step s.
Proof.
  intros Hr Ht Hp.
  assert (∀ u pcu, threads s !! u = Some pcu → pending pcu = true → awaiting pcu = false → join_of pcu = None →
    can_step s) as Hfree.
  { intros u pcu Hu H1 H2 H3. destruct (pending_step u (threads s) (node s) pcu H1 H2 H3) as (ch&o&Ho).
    exists u, pcu, ch, o. by destruct pcu. }
  destruct (awaiting pc) eqn:Ha; [|destruct (join_of pc) as [u|] eqn:Hj]; [..|by eapply Hfree].
  - destruct (reachable_waits _ _ Hr t) as [Hu|(u&pcu&Hu&Hq)]; [by exists pc| |].
    + destruct pc; try done. exists t, (AdAwait k addr own), HandlerGone. simpl. rewrite Hu. by eexists.
    + apply (Hfree u pcu Hu); by destruct pcu.
  - destruct pc; try done. simplify_eq/=. destruct (reachable_links join_of scheduling _ _ Hr _ _ u Ht eq_refl) as (pcu&Hu&Hk).
    destruct (finished (threads s) u) eqn:Hf.
    + exists t, (AdJoin own u), Go. simpl. rewrite Hf. by eexists.
    + apply (Hfree u pcu Hu); unfold finished in Hf; rewrite Hu in Hf; by destruct pcu.
Qed.

(** Nothing is left to set up or to release. *)
Definition settled (ts : list Pc) : Prop := ∀ t pc, ts !! t = Some pc → pending pc = false.

Lemma settled_dec ts : settled ts ∨ ∃ t pc, ts !! t = Some pc ∧ pending pc = true.
Proof.
  destruct (decide (Forall (λ pc, pending pc = false) ts)) as [H|H].
  - left. intros t pc Ht. by eapply Forall_lookup_1 in H.
  - right. apply not_Forall_Exists in H; [|apply _]. apply Exists_exists in H as (pc&[t Ht]%list_elem_of_lookup_1&Hp).
    exists t, pc. split; [done|]. simpl in Hp. by destruct (pending pc).
Qed.

Lemma setups_settle c s : reachable c s → leads (λ s', reachable c s' ∧ settled (threads s')) s.
Proof.
  remember (total_work (threads s)) as k eqn:Ek. revert s Ek. induction k as [k IH] using lt_wf_ind.
  intros s Ek Hr. destruct (settled_dec (threads s)) as [Hs|(t&pc&Ht&Hp)]; [by apply leads_refl|].
  destruct (setup_progress c s t pc Hr Ht Hp) as (u&pcu&ch&o&Hu&Hi&Hf&Hv&Ho).
  eapply (leads_step _ s u ch o pcu); [done..|]. pose proof (work_out u o s pcu Hu). pose proof (work_step _ _ _ _ _ _ Ho Hi Hv).
  eapply IH; [|reflexivity|by eapply apply_out_reachable]. lia.
Qed.

Lemma settled_idle pc : pending pc = false → n_all_guards pc = 0%nat ∧ n_permits pc = 0%nat ∧ n_scheds pc = 0%nat.
Proof. by destruct pc. Qed.

(** C13. No connection attempt hangs: in every reachable state, steps of the node's own tasks alone
    (protocol handlers answering or going away, peers answering or timing out, scheduling tasks)
    lead to a state in which every connection attempt, setup task and scheduling task has ended,
    no address is [connecting] any more, every permit of the connecting budget is available again
    and no [OnConnect] scheduling is in flight. *)
Theorem setups_complete c s :
  reachable c s →
  ∃ ls s', forallb is_run ls = true ∧ run ls s = Some s' ∧
    (∀ t pc, threads s !! t = Some pc → pending pc = true → ∃ r, threads s' !! t = Some (Done r)) ∧
    connecting (limits (connections (node s'))) = ∅ ∧
    connecting_permits (node s') = max_connecting (config (node s')) ∧
    sched_in_flight (shutdown (node s')) = 0.
Proof.
  intros Hr. destruct (setups_settle c s Hr) as (ls&s'&L&R&_&Hr'&Hs). exists ls, s'.
  pose proof (reachable_inv _ _ Hr') as Hinv.
  assert (∀ f : Pc → nat, (∀ pc, pending pc = false → f pc = 0%nat) → sum_list_with f (threads s') = 0%nat) as Hz.
  { intros f Hf. apply sum_list_with_zero. intros t pc Ht. by apply Hf, (Hs t). }
  split_and!; [done|done|..].
  - intros t pc Ht Hp. destruct (kind_at_run settling ls s s' t R) as (pc'&Ht'&Hk).
    { exists pc. split; [done|]. by destruct pc. }
    pose proof (Hs _ _ Ht'). destruct pc'; try done. eauto.
  - apply leibniz_equiv, size_empty_inv. rewrite <-(inv_all_guards _ _ _ (inv_conn _ _ Hinv)). apply Hz. apply settled_idle.
  - rewrite <-(inv_permits _ _ Hinv), Hz; [lia|apply settled_idle].
  - rewrite (inv_scheds _ _ Hinv), Hz; [done|apply settled_idle].
Qed.

Lemma setups_complete_witness :
  ∃ ls s', forallb is_run ls = true ∧ run ls demo_busy = Some s' ∧
    (∃ r, threads s' !! 15%nat = Some (Done r)) ∧
    connecting (limits (connections (node s'))) = ∅ ∧
    connecting_permits (node s') = max_connecting (config (node s')) ∧
    sched_in_flight (shutdown (node s')) = 0.
Proof.
  destruct (setups_complete demo_config demo_busy demo_busy_reachable) as (ls&s'&L&R&H&Hc&Hp&Hs).
  assert (∃ pc, threads demo_busy !! 15%nat = Some pc ∧ pending pc = true) as (pc&Ht&Hpd) by (vm_compute; eauto).
  exists ls, s'. split_and!; eauto.
Defined.
