(* ===== verification/Quiescence.v ===== *)
(** * The node comes to rest

    Left to itself (no new calls, no new inbound connections), the node finishes what it has begun
    under every schedule: each step of a task, other than a turn of a connection's message loop, uses up
    some of a bounded amount of work, and as long as a connection is being set up or torn down some task
    can take such a step. *)

From S2P Require Import Prelude Net Config Stats Connections Node Tasks Ownership Lifecycle Scenario Links Progress Shutdown Setup.

Open Scope N_scope.

(** A step of a task other than the accept loop and [shut_down], or the drop of its future. *)
Definition internal_label (s : Sys) (l : Label) : bool :=
  match l with
  | Run t _ | Cancel t => match threads s !! t with Some pc => internal pc | None => false end
  | _ => false
  end.

Fixpoint internal_run (ls : list Label) (s : Sys) : option Sys :=
  match ls with
  | [] => Some s
  | l :: ls => if internal_label s l then s ← step l s; internal_run ls s else None
  end.

(** A connection is being set up or torn down. *)
Definition busy (pc : Pc) : bool :=
  match pc with
  | DsClaim _ _ _ | DsHook _ _ _ | DsAwait _ _ | DsPush _ _ _ | DsWait _ _ _ | DsSenders _ _ _
  | DsRemove _ _ _ | DsDrop _ _ => true
  | _ => pending pc
  end.

(** A turn of a message loop. *)
Definition serving_label (s : Sys) (l : Label) : bool :=
  match l with
  | Run t ch => match threads s !! t with Some pc => serves pc ch | None => false end
  | _ => false
  end.

(** The steps of a run that are not turns of a message loop. *)
Fixpoint other_steps (ls : list Label) (s : Sys) : nat :=
  match ls with
  | [] => 0
  | l :: ls => (if serving_label s l then 0 else 1) + match step l s with Some s' => other_steps ls s' | None => 0 end
  end.

(** A turn of a message loop changes nothing but the statistics. *)
Lemma serving_step l s s' :
  serving_label s l = true → step l s = Some s' →
  threads s' = threads s ∧ log s' = log s ∧ ∃ st, node s' = set_stats (node s) st.
Proof.
  intros Hl H. destruct l; try done; simpl in Hl, H. destruct (threads s !! t) as [pc|] eqn:Ht; simplify_eq/=.
  destruct pc; try done. destruct ch; try done. destruct k; simplify_eq/=; rewrite app_nil_r, (list_insert_id _ _ _ Ht);
    (split_and!; [done|done|]); first [by eexists|exists (stats (node s)); by destruct (node s)].
Qed.

Lemma internal_step_work l s s' :
  internal_label s l = true → step l s = Some s' →
  ((if serving_label s l then 0 else 1) + total_work (threads s') ≤ total_work (threads s))%nat.
Proof.
  intros Hl H. destruct (serving_label s l) eqn:Hv.
  { by destruct (serving_step _ _ _ Hv H) as (->&_). }
  destruct l; try done; simpl in Hl, H, Hv; destruct (threads s !! t) as [pc|] eqn:Ht; simplify_eq/=.
  - destruct (thread_step _ _ _ _ _) as [o|] eqn:E; simplify_eq/=.
    pose proof (work_out t o s pc Ht) as Ho. pose proof (work_step _ _ _ _ _ _ E Hl Hv). simpl in Ho. lia.
  - destruct (cancel _ _) as [o|] eqn:E; simplify_eq/=. destruct (cancel_conn _ _ _ E) as (_&_&_&Hs&_).
    pose proof (work_out t o s pc Ht) as Ho. pose proof (work_cancel _ _ _ E Hl). rewrite Hs in Ho. simpl in *. lia.
Qed.

Lemma internal_run_work ls s s' :
  internal_run ls s = Some s' → (other_steps ls s + total_work (threads s') ≤ total_work (threads s))%nat.
Proof.
  revert s. induction ls as [|l ls IH]; intros s H; simplify_eq/=; [done|].
  destruct (internal_label s l) eqn:Hl; [|done]. destruct (step l s) as [s1|] eqn:E; simplify_eq/=.
  pose proof (internal_step_work _ _ _ Hl E). apply IH in H. lia.
Qed.

Lemma internal_run_reachable c ls s s' : reachable c s → internal_run ls s = Some s' → reachable c s'.
Proof.
  revert s. induction ls as [|l ls IH]; intros s Hr H; simplify_eq/=; [done|].
  destruct (internal_label s l); [|done]. destruct (step l s) as [s1|] eqn:E; simplify_eq/=.
  eapply IH; [|done]. by eapply reach_step.
Qed.

(** A disconnect, or the hook it waits for, can go on. *)
Lemma disconnect_progress c s t pc :
  reachable c s → threads s !! t = Some pc → busy pc = true → pending pc = false → can_step s.
Proof.
  intros Hr Ht Hb Hp. destruct pc; try done.
  - exists t, (DsClaim addr origin conn_id), Go. simpl. destruct (claim_disconnect _ _ _) as [n'|] eqn:E; [|by eexists].
    apply claim_disconnect_inv in E as (conn&->&_). by eexists.
  - exists t, (DsHook addr g origin), Go. simpl. by repeat case_match; eexists.
  - destruct (handler_alive (threads s) TaskOnDisconnect) eqn:E.
    + exists t, (DsAwait addr g), Go. simpl. rewrite E. by eexists.
    + exists t, (DsAwait addr g), HandlerGone. simpl. rewrite E. by eexists.
  - exists t, (DsPush addr g task), Go. simpl. by case_match; eexists.
  - destruct (reachable_links hook_of hook_task _ _ Hr _ _ task Ht eq_refl) as (pc&Hu&Hk).
    destruct (hook_over (threads s) task) eqn:Ho.
    + exists t, (DsWait addr g task), Go. simpl. rewrite Ho. by eexists.
    + unfold hook_over in Ho. rewrite Hu in Ho. exists task, pc, Go. destruct pc; try done. destruct k; try done. by eexists.
  - exists t, (DsSenders addr g r), Go. by eexists.
  - exists t, (DsRemove addr g r), Go. simpl. destruct (finalizer_remove _ _) as [[ok [conn|]] n']; by eexists.
  - exists t, (DsDrop c0 r), Go. by eexists.
Qed.

(** C12. The node comes to rest by itself, under every schedule.  From any reachable state, consider
    any run of steps and drops of the node's tasks (the accept loop and [shut_down] apart), in whatever
    order and with whatever outcomes.  However many messages the tasks of the connections read, process
    and write meanwhile, all its other steps are at most [total_work] in number, and those turns of the
    message loops leave everything but the statistics as it is; and wherever the run has led, as long as
    a connection is being set up or torn down, some task can take a step that is not such a turn.  So a
    schedule that does not starve the other tasks brings every setup and every disconnect to its end. *)
Theorem activity_terminates c s ls s' :
  reachable c s → internal_run ls s = Some s' →
  (other_steps ls s ≤ total_work (threads s))%nat ∧
  (∀ l s'', serving_label s' l = true → step l s' = Some s'' →
     threads s'' = threads s' ∧ log s'' = log s' ∧ ∃ st, node s'' = set_stats (node s') st) ∧
  ((∃ t pc, threads s' !! t = Some pc ∧ busy pc = true) →
     ∃ u ch s'', internal_run [Run u ch] s' = Some s'' ∧ serving_label s' (Run u ch) = false).
Proof.
  intros Hr H. split; [apply internal_run_work in H; lia|]. split; [intros l s'' Hv; by apply serving_step|].
  intros (t&pc&Ht&Hb). pose proof (internal_run_reachable c ls s s' Hr H) as Hr'.
  assert (can_step s') as (u&pcu&ch&o&Hu&Hi&_&Hv&Ho).
  { destruct (pending pc) eqn:Hp; [by eapply setup_progress|by eapply disconnect_progress]. }
  exists u, ch, (apply_out u o s'). simpl. rewrite Hu, Hi. simpl. by rewrite Ho.
Qed.

(** The scenario, two steps on: the reader (thread 10) has decoded a message of 8 bytes, and the
    [OnDisconnect] hook (thread 17) has ended. *)
Definition demo_hooked : Sys := default demo_busy (internal_run [Run 10 (Served 1 8); Run 17 Go] demo_busy).

Lemma activity_terminates_witness :
  (1 ≤ total_work (threads demo_busy))%nat ∧
  ∃ u ch s'', internal_run [Run u ch] demo_hooked = Some s'' ∧ serving_label demo_hooked (Run u ch) = false.
Proof.
  destruct (activity_terminates demo_config demo_busy [Run 10 (Served 1 8); Run 17 Go] demo_hooked demo_busy_reachable) as (H1&_&H2);
    [vm_compute; reflexivity|]. split; [exact H1|]. apply H2. exists 15%nat.
  assert (∃ pc, threads demo_hooked !! 15%nat = Some pc ∧ busy pc = true) as (pc&Ht&Hb) by (vm_compute; eauto).
  exists pc. split; [exact Ht|exact Hb].
Defined.
