(* ===== verification/Completion.v ===== *)
(** * A shutdown completes

    The disconnects a [shut_down] fans out reach every connection that is not already being
    disconnected, so the active set it waits for can be drained; the [OnConnect] scheduling tasks it
    waits for next can conclude; and with both waits over it runs to its end. *)

From S2P Require Import Prelude Net Config Stats Connections Node Tasks Ownership Lifecycle Scenario Progress Shutdown.

Open Scope N_scope.

(** ** The fan-out leaves no connection unclaimed *)

(** An active connection nobody has claimed the disconnect of. *)
Definition unclaimed (n : Node) (a : SocketAddr) : Prop :=
  ∃ conn, active (connections n) !! a = Some conn ∧ disconnecting conn = false.

(** The fan-out of a [shut_down] waits for the threads [ds], or is over. *)
Definition stage_of (pc : Pc) : option (option (list nat)) :=
  match pc with
  | SdFan _ ds => Some (Some ds)
  | SdRegister _ | SdCheck _ _ | SdPark _ _ => Some None
  | _ => None
  end.

(** A fanned-out disconnect that has not been polled yet. *)
Definition fanned (pc : Pc) : option SocketAddr :=
  match pc with DsClaim a OriginShutdown None => Some a | _ => None end.

(** A disconnect, from its claim to its end. *)
Definition is_disc (pc : Pc) : bool :=
  match pc with
  | DsClaim _ _ _ | DsHook _ _ _ | DsAwait _ _ | DsPush _ _ _ | DsWait _ _ _ | DsSenders _ _ _
  | DsRemove _ _ _ | DsDrop _ _ | Done _ => true
  | _ => false
  end.

Definition view : Type := option (option (list nat)) * option SocketAddr * bool.

Definition fan_view (pc : Pc) : view :=
  (stage_of pc, fanned pc, is_disc pc).

#[export] Instance fan_view_neutral : Neutral fan_view.
Proof. solve_neutral. Qed.

Record FanInv (n : Node) (vs : list view) : Prop := {
  fan_claims t ds x b a :
    vs !! t = Some (Some (Some ds), x, b) → unclaimed n a →
    ∃ d, d ∈ ds ∧ vs !! d = Some (None, Some a, true);
  fan_discs t ds x b d :
    vs !! t = Some (Some (Some ds), x, b) → d ∈ ds → ∃ y, vs !! d = Some (None, y, true);
  fan_over t x b a : vs !! t = Some (Some None, x, b) → ¬ unclaimed n a;
}.

(** What a step does to the unclaimed connections, the disconnects and the fan-out. *)
Record fan_step (ts : list Pc) (n : Node) (pc : Pc) (o : Out) : Prop := {
  fs_unclaimed : is_underway n = true → ∀ a, unclaimed (o_node o) a → unclaimed n a;
  fs_claim a : fanned pc = Some a → ¬ unclaimed (o_node o) a;
  fs_disc : is_disc pc = true → is_disc (o_pc o) = true ∧ stage_of (o_pc o) = None;
  fs_stage :
    stage_of (o_pc o) = None ∨
    (stage_of (o_pc o) = stage_of pc) ∨
    (stage_of (o_pc o) = Some None ∧ o_node o = n ∧
       ∃ ds, stage_of pc = Some (Some ds) ∧ all_finished ts ds = true) ∨
    (stage_of (o_pc o) = Some (Some (seq (length ts) (length (addrs (connections n))))) ∧ o_node o = n ∧
       o_spawn o = (λ a, DsClaim a OriginShutdown None) <$> addrs (connections n));
  fs_spawn : Forall (λ pc, stage_of pc = None) (o_spawn o);
}.

Lemma unclaimed_core n n' a : connections n' = connections n → unclaimed n' a → unclaimed n a.
Proof. unfold unclaimed. by intros ->. Qed.

Lemma unclaimed_insert n a conn conn' b :
  active (connections n) !! a = Some conn → (disconnecting conn' = false → disconnecting conn = false) →
  unclaimed (set_connections n (set_active (connections n) (<[a := conn']> (active (connections n))))) b →
  unclaimed n b.
Proof.
  intros Ha Hd (x&Hx&Hf). simpl in Hx. apply lookup_insert_Some in Hx as [[<- <-]|[_ Hx]]; [|by exists x].
  exists conn. auto.
Qed.

Lemma unclaimed_delete n n' a b :
  active (connections n') = delete a (active (connections n)) → unclaimed n' b → unclaimed n b.
Proof. intros E (x&Hx&Hf). rewrite E in Hx. apply lookup_delete_Some in Hx as [_ Hx]. by exists x. Qed.

Lemma unclaimed_active n n' a :
  active (connections n') = active (connections n) → unclaimed n' a → unclaimed n a.
Proof. unfold unclaimed. by intros ->. Qed.

Lemma unclaimed_guard n a b x : unclaimed (set_connections n (guard_drop (connections n) a b).2) x → unclaimed n x.
Proof. apply unclaimed_active. unfold guard_drop. destruct b; [done|]. by destruct (release_ip _ _). Qed.

Lemma thread_step_unclaimed t ts n pc ch o :
  thread_step t ts n pc ch = Some o → is_underway n = true → ∀ a, unclaimed (o_node o) a → unclaimed n a.
Proof.
  intros H Hu a. destruct pc; step_cases H; try done;
    repeat match goal with
    | E : try_acquire _ = Some _ |- _ => apply try_acquire_inv in E as [? ->]
    | E : add_active _ _ _ = Some _ |- _ => apply add_active_inv in E as [? ->]
    | E : check_and_reserve _ _ = Ok _ |- _ => apply check_and_reserve_inv in E as (?&?&?&?&?&->)
    | E : attach_task _ _ _ _ = Some _ |- _ => apply attach_task_inv in E as (?&?&?&->)
    | E : claim_disconnect _ _ _ = Some _ |- _ => apply claim_disconnect_inv in E as (?&?&?&?&->)
    | E : finalizer_remove _ _ = _ |- _ => apply finalizer_remove_inv in E as (?&?&?)
    end; try (by apply unclaimed_core); try (by apply unclaimed_active); try (by eapply unclaimed_delete);
    try (by eapply unclaimed_insert); try congruence.
  - by eapply unclaimed_core, finalizer_senders_connections.
  - snd_of (guard_drop (connections n) addr completed). apply unclaimed_guard.
Qed.

Lemma thread_step_fan t ts n pc ch o :
  thread_step t ts n pc ch = Some o → fan_step ts n pc o.
Proof.
  intros H. split; [by eapply thread_step_unclaimed|..].
  - intros a Ha. destruct pc; try done. simpl in Ha.
    destruct origin, conn_id; simplify_eq/=. destruct (claim_disconnect n a None) as [n'|] eqn:E.
    + apply claim_disconnect_inv in E as (conn&Hc&_&_&->). rewrite Hc in H. unfold next in H. simplify_eq/=.
      intros (x&Hx&Hf). simpl in Hx. by rewrite lookup_insert_eq in Hx; simplify_eq/=.
    + unfold next in H. simplify_eq/=. intros (x&Hx&Hf). unfold claim_disconnect in E. by rewrite Hx, Hf in E.
  - intros Hd. destruct pc; try done; step_cases H; done.
  - destruct pc; step_cases H; try (by left); try (by right; left).
    + left. by destruct k.
    + right; right; right. done.
    + right; right; left. eauto.
  - destruct pc; step_cases H; repeat constructor. apply Forall_fmap, Forall_true. done.
Qed.

Section fan_run.
Context (ts : list Pc) (n : Node) (t : nat) (pc : Pc) (o : Out).
Context (Ht : ts !! t = Some pc) (Hstep : fan_step ts n pc o) (Hinv : FanInv n (fan_view <$> ts)).
Context (Hu : ∀ u pcu, ts !! u = Some pcu → stage_of pcu ≠ None → is_underway n = true).

Local Definition vs := fan_view <$> ts.
Local Definition vs' := <[t := fan_view (o_pc o)]> vs ++ (fan_view <$> o_spawn o).

Lemma vs_lookup u v : vs !! u = Some v → ∃ pcu, ts !! u = Some pcu ∧ v = fan_view pcu.
Proof. intros (pcu&->&?)%list_lookup_fmap_Some. eauto. Qed.

Lemma vs'_old u v : u ≠ t → vs !! u = Some v → vs' !! u = Some v.
Proof. intros Hne Hv. apply lookup_app_l_Some. by rewrite list_lookup_insert_ne. Qed.

Lemma vs'_own : vs' !! t = Some (fan_view (o_pc o)).
Proof.
  apply lookup_app_l_Some, list_lookup_insert_eq. unfold vs. rewrite length_fmap. by eapply lookup_lt_Some.
Qed.

(** Who is at a stage of the fan-out after the step. *)
Lemma vs'_stage u st x b :
  vs' !! u = Some (Some st, x, b) →
  (u = t ∧ stage_of (o_pc o) = Some st) ∨ (u ≠ t ∧ vs !! u = Some (Some st, x, b)).
Proof.
  intros [Hv|[_ Hv]]%lookup_app_Some.
  - apply list_lookup_insert_Some in Hv as [(<-&E&_)|[? ?]]; [|by auto]. left. split; [done|]. unfold fan_view in E. congruence.
  - apply list_lookup_fmap_Some in Hv as (p&E&Hp). pose proof (fs_spawn _ _ _ _ Hstep) as Hs.
    eapply Forall_lookup_1 in Hs; [|done]. unfold fan_view in E. congruence.
Qed.

(** A thread at a stage before the step; the shutdown is under way then. *)
Lemma old_stage st : stage_of pc = Some st → vs !! t = Some (fan_view pc) ∧ is_underway n = true.
Proof. intros E. split; [unfold vs; by rewrite list_lookup_fmap, Ht|]. eapply Hu; [done|congruence]. Qed.

Lemma old_claims u ds x b a :
  vs !! u = Some (Some (Some ds), x, b) → unclaimed (o_node o) a →
  ∃ d, d ∈ ds ∧ vs' !! d = Some (None, Some a, true).
Proof.
  intros Hv Ha. destruct (vs_lookup _ _ Hv) as (pcu&Hpu&E). unfold fan_view in E. simplify_eq.
  assert (is_underway n = true) as Hund by (eapply Hu; [done|congruence]).
  pose proof (fs_unclaimed _ _ _ _ Hstep Hund _ Ha) as Ha'.
  destruct (fan_claims _ _ Hinv _ _ _ _ _ Hv Ha') as (d&Hd&Hvd). exists d. split; [done|].
  apply vs'_old; [|done]. intros ->. apply vs_lookup in Hvd as (p&Hp&E). unfold fan_view in E. simplify_eq.
  by apply (fs_claim _ _ _ _ Hstep a).
Qed.

Lemma old_discs u ds x b d :
  vs !! u = Some (Some (Some ds), x, b) → d ∈ ds → ∃ y, vs' !! d = Some (None, y, true).
Proof.
  intros Hv Hd. destruct (fan_discs _ _ Hinv _ _ _ _ _ Hv Hd) as (y&Hvd).
  destruct (decide (d = t)) as [->|Hne]; [|exists y; by apply vs'_old].
  apply vs_lookup in Hvd as (p&Hp&E). unfold fan_view in E. simplify_eq.
  destruct (fs_disc _ _ _ _ Hstep) as [E1 E2]; [done|]. exists (fanned (o_pc o)).
  etrans; [apply vs'_own|]. unfold fan_view. by rewrite E1, E2.
Qed.

Lemma new_fan i a :
  o_spawn o = (λ a, DsClaim a OriginShutdown None) <$> addrs (connections n) →
  addrs (connections n) !! i = Some a → vs' !! (length ts + i)%nat = Some (None, Some a, true).
Proof.
  intros Es Ha. unfold vs'. rewrite lookup_app_r; [|rewrite length_insert; unfold vs; rewrite length_fmap; lia].
  rewrite length_insert. unfold vs. rewrite length_fmap, Es, Nat.add_comm, Nat.add_sub.
  by rewrite !list_lookup_fmap, Ha.
Qed.

Lemma fan_inv_run : FanInv (o_node o) vs'.
Proof.
  split.
  - intros u ds x b a [[-> E]|[_ Hv]]%vs'_stage Ha; [|by eapply old_claims].
    destruct (fs_stage _ _ _ _ Hstep) as [?|[Es|[(?&_)|(Es&En&Esp)]]]; try congruence.
    + rewrite E in Es. symmetry in Es. destruct (old_stage _ Es) as [Hv _]. unfold fan_view in Hv. rewrite Es in Hv.
      by eapply old_claims.
    + rewrite En in Ha. destruct Ha as (conn&Ha&_).
      assert (a ∈ addrs (connections n)) as (i&Hi)%list_elem_of_lookup_1.
      { unfold addrs. apply list_elem_of_fmap. exists (a, conn). split; [done|]. by apply elem_of_map_to_list. }
      exists (length ts + i)%nat. split; [|by apply new_fan]. rewrite E in Es. injection Es as ->.
      apply elem_of_seq. apply lookup_lt_Some in Hi. lia.
  - intros u ds x b d [[-> E]|[_ Hv]]%vs'_stage Hd; [|by eapply old_discs].
    destruct (fs_stage _ _ _ _ Hstep) as [?|[Es|[(?&_)|(Es&En&Esp)]]]; try congruence.
    + rewrite E in Es. symmetry in Es. destruct (old_stage _ Es) as [Hv _]. unfold fan_view in Hv. rewrite Es in Hv.
      by eapply old_discs.
    + rewrite E in Es. injection Es as ->. apply elem_of_seq in Hd. destruct (lookup_lt_is_Some_2 (addrs (connections n)) (d - length ts)) as [a Ha]; [lia|].
      exists (Some a). rewrite <-(new_fan (d - length ts) a Esp Ha). f_equal. lia.
  - intros u x b a Hv Ha. apply vs'_stage in Hv as [[-> E]|[_ Hv]].
    + destruct (fs_stage _ _ _ _ Hstep) as [?|[Es|[(_&En&ds&Es&Hf)|(Es&_)]]]; try congruence.
      * rewrite E in Es. symmetry in Es. destruct (old_stage _ Es) as [Hv Hund]. unfold fan_view in Hv. rewrite Es in Hv.
        apply (fan_over _ _ Hinv _ _ _ a Hv). by apply (fs_unclaimed _ _ _ _ Hstep).
      * destruct (old_stage _ Es) as [Hv Hund]. unfold fan_view in Hv. rewrite Es in Hv. rewrite En in Ha.
        destruct (fan_claims _ _ Hinv _ _ _ _ _ Hv Ha) as (d&Hd&Hvd).
        apply vs_lookup in Hvd as (p&Hp&E'). unfold all_finished in Hf. rewrite forallb_forall in Hf.
        apply list_elem_of_In, Hf in Hd. unfold finished in Hd. rewrite Hp in Hd. by destruct p.
    + destruct (vs_lookup _ _ Hv) as (pcu&Hpu&E). unfold fan_view in E. simplify_eq.
      apply (fan_over _ _ Hinv _ _ _ a Hv). apply (fs_unclaimed _ _ _ _ Hstep); [|done].
      eapply Hu; [done|congruence].
Qed.
End fan_run.

Lemma fan_inv_mono n n' vs0 vs1 :
  FanInv n vs0 → (∀ a, unclaimed n' a → unclaimed n a) →
  (∀ u st x b, vs1 !! u = Some (Some st, x, b) → vs0 !! u = Some (Some st, x, b)) →
  (∀ u x, vs0 !! u = Some (None, x, true) → vs1 !! u = Some (None, x, true)
      ∨ (x = None ∧ ∃ y, vs1 !! u = Some (None, y, true))) →
  FanInv n' vs1.
Proof.
  intros [F1 F2 F3] Hu Hst Hd. split.
  - intros t ds x b a Hv%Hst Ha. destruct (F1 _ _ _ _ _ Hv (Hu _ Ha)) as (d&Hdd&Hvd).
    exists d. split; [done|]. by destruct (Hd d (Some a) Hvd) as [|[? _]].
  - intros t ds x b d Hv%Hst Hin. destruct (F2 _ _ _ _ _ Hv Hin) as (y&Hvd).
    destruct (Hd d y Hvd) as [|[_ ?]]; eauto.
  - intros t x b a Hv%Hst Ha. by apply (F3 _ _ _ a Hv), Hu.
Qed.

Lemma cancel_fan n pc o :
  cancel n pc = Some o →
  stage_of (o_pc o) = None ∧ fanned pc = None ∧ (is_disc pc = true → is_disc (o_pc o) = true).
Proof. intros H. destruct pc; unfold cancel, next, abandon in H; repeat case_match; by simplify_eq/=. Qed.

Lemma reachable_fan c s : reachable c s → FanInv (node s) (fan_view <$> threads s).
Proof.
  induction 1 as [|s l s' Hr IH Hs]; [split; by intros ? ? ? ?|].
  apply step_inv in Hs as [t pc ch o Ht E|t pc o Ht E|n' l' ab Hc _ Hl|].
  - rewrite (apply_out_fmap fan_view). eapply (fan_inv_run (threads s) (node s)); [done|by eapply thread_step_fan|done|].
    intros u pcu Hpu Hst. eapply (sh_begun _ (reachable_shut _ _ Hr)); [done|]. by destruct pcu.
  - destruct (cancel_fan _ _ _ E) as (C1&C2&C3). destruct (cancel_conn _ _ _ E) as (_&_&Hn&Hs&_).
    rewrite (apply_out_fmap fan_view), Hs, app_nil_r. simpl node.
    eapply fan_inv_mono; [exact IH|by rewrite Hn|..].
    + intros u st x b [(->&E'&_)|[_ ?]]%list_lookup_insert_Some; [|done]. unfold fan_view in E'. congruence.
    + intros u x Hv. destruct (decide (u = t)) as [->|Hne]; [|left; by rewrite list_lookup_insert_ne].
      rewrite list_lookup_fmap, Ht in Hv. unfold fan_view in Hv. simplify_eq/=. right. split; [done|].
      exists (fanned (o_pc o)). rewrite list_lookup_insert_eq.
      * unfold fan_view. by rewrite C1, C3.
      * rewrite length_fmap. by eapply lookup_lt_Some.
  - simpl. rewrite (user_threads_fmap fan_view). destruct Hc as [_ Ec _ _].
    eapply fan_inv_mono; [exact IH|intros a; by apply unclaimed_core|..].
    + intros u st x b [?|[_ Hv]]%lookup_app_Some; [done|]. apply list_lookup_fmap_Some in Hv as (p&E&Hp).
      eapply Forall_lookup_1 in Hl; [|done]. by destruct p.
    + intros u x Hv. left. by apply lookup_app_l_Some.
  - eapply fan_inv_mono; [exact IH|done|done|by left].
Qed.

(** ** Draining the active set *)

(** A run keeps reachability and every fixed thread. *)
Lemma leads_keep_all (P : Sys → Prop) c s :
  reachable c s → leads P s →
  leads (λ s', reachable c s' ∧
    (∀ w pc, threads s !! w = Some pc → fixed_of pc = Some pc → threads s' !! w = Some pc) ∧ P s') s.
Proof. intros Hr (ls&s'&L&R&K&H). exists ls, s'. split_and!; auto. by eapply run_reachable. Qed.

(** A disconnect can run to its end from wherever it is. *)
Lemma disc_done c s d pc :
  reachable c s → threads s !! d = Some pc → is_disc pc = true →
  leads (λ s', ∃ r, threads s' !! d = Some (Done r)) s.
Proof.
  intros Hr Hd Hi. destruct (claim_of pc) as [[a g]|] eqn:Hc.
  { eapply leads_mono; [by eapply claim_completes|]. by intros s' [? _]. }
  destruct pc; try done.
  - destruct (claim_disconnect (node s) addr conn_id) as [n'|] eqn:E.
    + pose proof E as (conn&Ha&_)%claim_disconnect_inv.
      assert (thread_step d (threads s) (node s) (DsClaim addr origin conn_id) Go =
        Some (mkOut n' (DsHook addr (id conn) origin) [] [] [])) as Hs by (simpl; by rewrite E, Ha).
      eapply (leads_step _ s d Go _ _ Hd eq_refl Hs). eapply leads_mono.
      * eapply (claim_completes c _ d); [by eapply apply_out_reachable|by apply apply_out_self with (pc := DsClaim addr origin conn_id)|done].
      * by intros s' [? _].
    + eapply (leads_step _ s d Go (mkOut (node s) (Done (RetBool false)) [] [] []) _ Hd eq_refl); [simpl; by rewrite E|].
      apply leads_refl. exists (RetBool false). by rewrite (apply_out_self d _ s _ Hd).
  - eapply (leads_step _ s d Go _ _ Hd eq_refl eq_refl). apply leads_refl.
    destruct (apply_out_own fixed_of d (mkOut (node s) (Done r) [] (abort_conn c0) []) s _ Hd)
      as (pc'&E&Hp). apply fixed_of_eq in Hp as ->. eauto.
  - apply leads_refl. eauto.
Qed.

Lemma finished_done ts d r : ts !! d = Some (Done r) → finished ts d = true.
Proof. unfold finished. by intros ->. Qed.

Lemma finished_inv ts d : finished ts d = true → ∃ r, ts !! d = Some (Done r).
Proof. unfold finished. destruct (ts !! d) as [[]|]; try done. eauto. Qed.

(** The fan-out of thread [t] comes to its end. *)
Lemma fan_done c s t hs ds ds' :
  reachable c s → threads s !! t = Some (SdFan hs ds) → ds' ⊆ ds →
  leads (λ s', reachable c s' ∧ threads s' !! t = Some (SdFan hs ds) ∧ all_finished (threads s') ds' = true) s.
Proof.
  revert s. induction ds' as [|d ds' IH]; intros s Hr Ht Hsub.
  { apply leads_refl. done. }
  eapply leads_trans; [apply (IH s Hr Ht); set_solver|]. intros s1 (Hr1&Ht1&Hf1).
  assert (∃ pc, threads s1 !! d = Some pc ∧ is_disc pc = true) as (pc&Hd&Hi).
  { destruct (fan_discs _ _ (reachable_fan _ _ Hr1) t ds None false d) as (y&Hy).
    - by rewrite list_lookup_fmap, Ht1.
    - set_solver.
    - apply list_lookup_fmap_Some in Hy as (p&E&Hp). exists p. unfold fan_view in E. split; congruence. }
  eapply leads_mono; [exact (leads_keep_all _ c s1 Hr1 (disc_done c s1 d pc Hr1 Hd Hi))|].
  intros s2 (Hr2&Hk&[r Hd2]). split; [done|]. split; [by apply Hk|].
  unfold all_finished in *. simpl. rewrite (finished_done _ _ _ Hd2). simpl.
  rewrite forallb_forall in Hf1 |- *. intros x Hx. apply Hf1, finished_inv in Hx as [r' Hx].
  eapply finished_done. by apply Hk.
Qed.

(** While a [shut_down] past its fan-out waits, the active set can be emptied. *)
Lemma drain_done c s t pc :
  reachable c s → threads s !! t = Some pc → stage_of pc = Some None →
  leads (λ s', reachable c s' ∧ threads s' !! t = Some pc ∧ active (connections (node s')) = ∅) s.
Proof.
  remember (size (active (connections (node s)))) as k eqn:Ek. revert s Ek.
  induction k as [|k IH]; intros s Ek Hr Ht Hst.
  { apply leads_refl. split_and!; [done|done|]. by apply map_size_empty_inv. }
  destruct (map_choose (active (connections (node s)))) as (a&conn&Ha).
  { intros E. rewrite E, map_size_empty in Ek. done. }
  assert (Hfx : fixed_of pc = Some pc) by (by destruct pc).
  assert (disconnecting conn = true) as Hd.
  { destruct (disconnecting conn) eqn:E; [done|]. exfalso.
    eapply (fan_over _ _ (reachable_fan _ _ Hr) t _ _ a); [rewrite list_lookup_fmap, Ht; unfold fan_view; simpl; by rewrite Hst|].
    by exists conn. }
  eapply leads_trans; [exact (leads_keep_all _ c s Hr (claimed_completes c s a conn Hr Ha Hd))|].
  intros s1 (Hr1&Hk&E1). apply IH; [|done|by apply Hk|done].
  rewrite E1, map_size_delete, Ha. lia.
Qed.

(** ** Draining the scheduling tasks *)

(** The steps a thread takes at most until it has released its [SchedulingGuard]. *)
Definition sched_weight (pc : Pc) : nat :=
  match pc with
  | AdAdd _ _ _ _ true => 10
  | AdGuard _ _ _ _ true => 9
  | AdReady _ _ _ _ true => 8
  | AdSpawn _ _ _ true => 7
  | ScTrigger _ _ => 6
  | ScAwait _ _ => 5
  | ScAttach _ _ _ _ => 4
  | Unwind ds _ => if bool_decide (Exists (λ d, owned_sched d = true) ds) then length ds else 0
  | _ => 0
  end%nat.

#[export] Instance sched_weight_neutral : Neutral sched_weight.
Proof. solve_neutral. Qed.

Lemma scheds_owned ds : countb owned_sched ds ≠ 0%nat → Exists (λ d, owned_sched d = true) ds.
Proof. intros (x&Hx&Hs)%countb_elem. apply Exists_exists. eauto. Qed.

Lemma unwind_weight d ds r r' :
  Exists (λ d, owned_sched d = true) (d :: ds) → (sched_weight (Unwind ds r') < sched_weight (Unwind (d :: ds) r))%nat.
Proof. intros He. unfold sched_weight. rewrite (bool_decide_eq_true_2 _ He). simpl. case_bool_decide; lia. Qed.

(** A thread that owns a [SchedulingGuard] can take a step towards releasing it. *)
Lemma sched_step t ts n pc :
  is_underway n = true → n_scheds pc ≠ 0%nat →
  ∃ ch o, thread_step t ts n pc ch = Some o ∧
    (sched_weight (o_pc o) + sum_list_with sched_weight (o_spawn o) < sched_weight pc)%nat.
Proof.
  intros Hu Hn. destruct pc; simpl in Hn; try done; try (destruct sched; [|done]).
  - exists Go. simpl. unfold add_active. rewrite Hu. eexists. split; [done|]. simpl. repeat case_match; simpl; lia.
  - eexists Go, _. split; [done|]. simpl. lia.
  - eexists Go, _. split; [done|]. simpl. lia.
  - eexists Go, _. split; [done|]. simpl. lia.
  - exists Go. simpl. destruct (channel_open _ _ _); (eexists; split; [done|]); simpl; lia.
  - destruct (handler_alive ts TaskOnConnect) eqn:E; [exists Go|exists HandlerGone]; simpl; rewrite E;
      (eexists; split; [done|]); simpl; lia.
  - exists Go. simpl. destruct abortable; simpl; [destruct (attach_task _ _ _ _)|]; (eexists; split; [done|]); simpl;
      repeat case_match; lia.
  - apply scheds_owned in Hn as He. destruct owned as [|d ds]; [done|]. exists Go.
    pose proof (unwind_weight d ds r r He) as Hw. simpl thread_step.
    destruct d; try (destruct (guard_drop _ _ _)); try (destruct (needs_recovery _ _ _));
      try (destruct (writing _)); (eexists; split; [done|]); simpl o_pc; simpl o_spawn;
      cbn [sum_list_with]; rewrite ?Nat.add_0_r; try exact Hw; simpl; lia.
Qed.

(** Once the active set is drained, the scheduling tasks in flight can all conclude. *)
Lemma sched_done c s t pc :
  reachable c s → threads s !! t = Some pc → past_drain pc = true →
  leads (λ s', reachable c s' ∧ threads s' !! t = Some pc ∧ sched_in_flight (shutdown (node s')) = 0) s.
Proof.
  remember (sum_list_with sched_weight (threads s)) as k eqn:Ek. revert s Ek.
  induction k as [k IH] using lt_wf_ind. intros s Ek Hr Ht Hp.
  pose proof (inv_scheds _ _ (reachable_inv _ _ Hr)) as Hs.
  destruct (decide (sum_list_with n_scheds (threads s) = 0%nat)) as [E|E].
  { apply leads_refl. split_and!; [done|done|]. rewrite Hs, E. done. }
  destruct (sum_list_with_pos n_scheds _ _ eq_refl E) as (u&pcu&Hu&Hn).
  assert (is_underway (node s) = true) as Hund.
  { eapply (sh_begun _ (reachable_shut _ _ Hr)); [exact Ht|]. by destruct pc. }
  destruct (sched_step u (threads s) (node s) pcu Hund Hn) as (ch&o&Ho&Hw).
  assert (fixed_of pcu = None) by (by destruct pcu).
  assert (fixed_of pc = Some pc) as Hfx by (by destruct pc).
  eapply (leads_step _ s u ch o pcu); [done|done|done|].
  pose proof (apply_out_sum sched_weight u o s pcu Hu) as Ew.
  pose proof (sum_list_with_lookup sched_weight _ _ _ Hu).
  eapply IH; [|reflexivity|by eapply apply_out_reachable| |done].
  - lia.
  - destruct (apply_out_other fixed_of u o s t pc) as (pc'&E'&Hp'); [congruence|done|].
    rewrite Hfx in Hp'. by rewrite <-(fixed_of_eq _ _ Hp').
Qed.

(** ** Running a shutdown to its end *)

(** Steps of threads alone can lead to a state in which thread [t] has completed its shutdown. *)
Definition shuts (t : nat) (s : Sys) : Prop :=
  ∃ ls s', forallb is_run ls = true ∧ run ls s = Some s' ∧
    threads s' !! t = Some (Done Dropped) ∧ active (connections (node s')) = ∅ ∧
    listening_addr (node s') = None.

Lemma shuts_leads t s P : leads P s → (∀ s', P s' → shuts t s') → shuts t s.
Proof.
  intros (ls&s1&L1&R1&_&H1) HQ. destruct (HQ s1 H1) as (ls'&s2&L2&R2&H2).
  exists (ls ++ ls'), s2. rewrite forallb_app, L1, L2, (run_app ls ls'), R1. done.
Qed.

(** A step of the shutdown itself. *)
Lemma shuts_step c t s pc o :
  reachable c s → threads s !! t = Some pc → thread_step t (threads s) (node s) pc Go = Some o →
  is_shutdown (o_pc o) = true →
  (reachable c (apply_out t o s) → threads (apply_out t o s) !! t = Some (o_pc o) → shuts t (apply_out t o s)) →
  shuts t s.
Proof.
  intros Hr Ht H Hf Hk. assert (fixed_of (o_pc o) = Some (o_pc o)) as Hf' by (unfold fixed_of; by rewrite Hf).
  destruct (apply_out_own fixed_of t o s pc Ht) as (pc'&E&Hp). rewrite Hf' in Hp. apply fixed_of_eq in Hp as ->.
  destruct Hk as (ls&s'&L&R&HP); [by eapply apply_out_reachable|done|].
  exists (Run t Go :: ls), s'. split; [done|]. split; [|done]. simpl. rewrite Ht. simpl. by rewrite H.
Qed.

Section shuts.
Context (c : Config) (t : nat).
Implicit Types (s : Sys).

(** The shutdown thread is at [pc]. *)
Local Definition at_pc s pc : Prop := reachable c s ∧ threads s !! t = Some pc.

Lemma shuts_clear s : at_pc s SdClear → shuts t s.
Proof.
  intros [Hr Ht]. pose proof (sh_drained _ (reachable_shut _ _ Hr) _ _ Ht eq_refl) as He.
  exists [Run t Go], (apply_out t (mkOut (set_listening_addr (node s) None) (Done Dropped) [] [] []) s).
  split; [done|]. split; [simpl; by rewrite Ht|]. by rewrite (apply_out_self t _ s _ Ht).
Qed.

Lemma shuts_join s hs : at_pc s (SdJoin hs) → shuts t s.
Proof.
  intros [Hr Ht]. eapply (shuts_step c t s _ _ Hr Ht); [done|done|]. intros Hr1 Ht1. by apply shuts_clear.
Qed.
Lemma shuts_signal s hs : at_pc s (SdSignal hs) → shuts t s.
Proof.
  intros [Hr Ht]. eapply (shuts_step c t s _ _ Hr Ht); [done|done|]. intros Hr1 Ht1. by eapply shuts_join.
Qed.

Lemma shuts_sched_check s hs g :
  at_pc s (SdSchedCheck hs g) → sched_in_flight (shutdown (node s)) = 0 → shuts t s.
Proof.
  intros [Hr Ht] Hz. eapply (shuts_step c t s _ (mkOut (node s) (SdSignal hs) [] [] []) Hr Ht); [simpl; by rewrite Hz|done|].
  intros Hr1 Ht1. by apply (shuts_signal _ hs).
Qed.

Lemma shuts_sched_register s hs :
  at_pc s (SdSchedRegister hs) → sched_in_flight (shutdown (node s)) = 0 → shuts t s.
Proof.
  intros [Hr Ht] Hz. eapply (shuts_step c t s _ _ Hr Ht); [done|done|]. intros Hr1 Ht1.
  by eapply (shuts_sched_check _ hs).
Qed.

Lemma shuts_sched_park s hs g :
  at_pc s (SdSchedPark hs g) → sched_in_flight (shutdown (node s)) = 0 → shuts t s.
Proof.
  intros [Hr Ht] Hz. destruct (sh_wakeable _ (reachable_shut _ _ Hr) _ _ Ht) as [_ Hw].
  eapply (shuts_step c t s _ (mkOut (node s) (SdSchedRegister hs) [] [] []) Hr Ht); [|done|].
  - simpl. destruct (N.eqb_spec (sched_drained (shutdown (node s))) g) as [E|]; [by destruct (Hw E)|done].
  - intros Hr1 Ht1. by apply (shuts_sched_register _ hs).
Qed.

(** The second wait, wherever it is. *)
Lemma shuts_scheds s pc hs :
  at_pc s pc → (pc = SdSchedRegister hs ∨ ∃ g, pc = SdSchedCheck hs g ∨ pc = SdSchedPark hs g) → shuts t s.
Proof.
  intros [Hr Ht] Hpc. eapply (shuts_leads t s); [apply (sched_done c s t pc Hr Ht)|].
  - by destruct Hpc as [->|[g [->| ->]]].
  - intros s1 (Hr1&Ht1&Hz). destruct Hpc as [->|[g [->| ->]]].
    + by eapply (shuts_sched_register s1 hs).
    + by eapply (shuts_sched_check s1 hs g).
    + by eapply (shuts_sched_park s1 hs g).
Qed.

Lemma shuts_check s hs g : at_pc s (SdCheck hs g) → active (connections (node s)) = ∅ → shuts t s.
Proof.
  intros [Hr Ht] He. eapply (shuts_step c t s _ (mkOut (node s) (SdSchedRegister hs) [] [] []) Hr Ht); [|done|].
  - simpl. by rewrite bool_decide_eq_true_2.
  - intros Hr1 Ht1. eapply shuts_scheds; [by split|by left].
Qed.

Lemma shuts_register s hs : at_pc s (SdRegister hs) → active (connections (node s)) = ∅ → shuts t s.
Proof.
  intros [Hr Ht] He. eapply (shuts_step c t s _ _ Hr Ht); [done|done|]. intros Hr1 Ht1.
  by eapply (shuts_check _ hs).
Qed.

Lemma shuts_park s hs g : at_pc s (SdPark hs g) → active (connections (node s)) = ∅ → shuts t s.
Proof.
  intros [Hr Ht] He. destruct (sh_wakeable _ (reachable_shut _ _ Hr) _ _ Ht) as [_ Hw].
  eapply (shuts_step c t s _ (mkOut (node s) (SdRegister hs) [] [] []) Hr Ht); [|done|].
  - simpl. destruct (N.eqb_spec (drain_notify (connections (node s))) g) as [E|]; [by destruct (Hw E)|done].
  - intros Hr1 Ht1. by apply (shuts_register _ hs).
Qed.

(** The first wait, wherever it is. *)
Lemma shuts_drain s pc hs :
  at_pc s pc → (pc = SdRegister hs ∨ ∃ g, pc = SdCheck hs g ∨ pc = SdPark hs g) → shuts t s.
Proof.
  intros [Hr Ht] Hpc. eapply (shuts_leads t s); [apply (drain_done c s t pc Hr Ht)|].
  - by destruct Hpc as [->|[g [->| ->]]].
  - intros s1 (Hr1&Ht1&Hz). destruct Hpc as [->|[g [->| ->]]].
    + by eapply (shuts_register s1 hs).
    + by eapply (shuts_check s1 hs g).
    + by eapply (shuts_park s1 hs g).
Qed.

Lemma shuts_fan s hs ds : at_pc s (SdFan hs ds) → shuts t s.
Proof.
  intros [Hr Ht]. eapply (shuts_leads t s); [by apply (fan_done c s t hs ds ds Hr Ht)|].
  intros s1 (Hr1&Ht1&Hf). eapply (shuts_step c t s1 _ (mkOut (node s1) (SdRegister hs) [] [] []) Hr1 Ht1); [|done|].
  - simpl. by rewrite Hf.
  - intros Hr2 Ht2. eapply shuts_drain; [by split|by left].
Qed.

Lemma shuts_snapshot s hs : at_pc s (SdSnapshot hs) → shuts t s.
Proof.
  intros [Hr Ht]. eapply (shuts_step c t s _ _ Hr Ht); [done|done|]. intros Hr1 Ht1. by eapply shuts_fan.
Qed.

Lemma shuts_take s : at_pc s SdTake → shuts t s.
Proof.
  intros [Hr Ht]. eapply (shuts_step c t s _ _ Hr Ht); [done|done|]. intros Hr1 Ht1. by eapply shuts_snapshot.
Qed.

End shuts.

(** C11. A shutdown never hangs: in every reachable state, wherever a [shut_down] is, steps of the
    node's own tasks alone (hooks ending or timing out, the disconnects it fanned out, scheduling
    tasks) let it run to its end, with no active connection and no listening address left. *)
Theorem shutdown_completes c s t pc :
  reachable c s → threads s !! t = Some pc → is_shutdown pc = true →
  ∃ ls s', forallb is_run ls = true ∧ run ls s = Some s' ∧
    threads s' !! t = Some (Done Dropped) ∧ active (connections (node s')) = ∅ ∧
    listening_addr (node s') = None.
Proof.
  intros Hr Ht Hs. change (shuts t s). assert (at_pc c t s pc) as Hp by done. destruct pc; try done.
  - eapply (shuts_step c t s _ _ Hr Ht); [done|done|]. intros Hr1 Ht1. by eapply shuts_take.
  - by eapply shuts_take.
  - by eapply shuts_snapshot.
  - by eapply shuts_fan.
  - eapply shuts_drain; eauto.
  - eapply shuts_drain; eauto.
  - eapply shuts_drain; eauto.
  - eapply shuts_scheds; eauto.
  - eapply shuts_scheds; eauto.
  - eapply shuts_scheds; eauto.
  - by eapply shuts_signal.
  - by eapply shuts_join.
  - by eapply shuts_clear.
Qed.

Lemma shutdown_completes_witness :
  ∃ ls s', forallb is_run ls = true ∧ run ls demo_parked = Some s' ∧
    threads s' !! 18%nat = Some (Done Dropped) ∧ active (connections (node s')) = ∅ ∧
    listening_addr (node s') = None.
Proof.
  assert (∃ hs g, threads demo_parked !! 18%nat = Some (SdPark hs g)) as (hs&g&E) by (vm_compute; eauto).
  exact (shutdown_completes demo_config demo_parked 18%nat _ demo_parked_reachable E eq_refl).
Defined.
