(* ===== verification/Dial.v ===== *)
(** * An admitted connection attempt can succeed

    The setup pipelines of [Node::connect_inner], of the accept loop with
    [Node::handle_connection_request], and of [Node::adapt_stream], followed from the call or the
    arrival of a request to the successful return, through whichever protocols are enabled: the handshake, the reading and
    writing setups with their tasks, the transition to the active set, and the [OnConnect]
    scheduling task. *)

From S2P Require Import Prelude Net Config Stats Connections Node Tasks Ownership Lifecycle Scenario Admission Links Progress.

Open Scope N_scope.

(** ** Steps whose effects are known *)

(** A step without effects: the stepped thread and its first spawned thread are where they should
    be, the others where they were. *)
Lemma leads_go (P : Sys → Prop) s t pc ch n' pc' sp lg :
  threads s !! t = Some pc → fixed_of pc = None →
  thread_step t (threads s) (node s) pc ch = Some (mkOut n' pc' sp [] lg) →
  (∀ s', node s' = n' → threads s' !! t = Some pc' →
     (∀ u x, u ≠ t → threads s !! u = Some x → threads s' !! u = Some x) →
     (∀ x, sp !! 0%nat = Some x → threads s' !! length (threads s) = Some x) → leads P s') →
  leads P s.
Proof.
  intros Ht Hf H HP. eapply (leads_step P s t ch _ pc Ht Hf H). apply HP; simpl; [done|..].
  - apply lookup_app_l_Some, list_lookup_insert_eq. by eapply lookup_lt_Some.
  - intros u x Hne Hu. apply lookup_app_l_Some. by rewrite list_lookup_insert_ne.
  - intros x Hx. rewrite lookup_app_r; rewrite length_insert; [|done]. by rewrite Nat.sub_diag.
Qed.

(** Thread [t] stays at [pct] while thread [u], at [pc], works for it; [Q] holds of the node. *)
Definition paired (t u : nat) (pct pc : Pc) (Q : Node → Prop) (s : Sys) : Prop :=
  u ≠ t ∧ threads s !! t = Some pct ∧ threads s !! u = Some pc ∧ Q (node s).

Lemma paired_go (P : Sys → Prop) t u pct pc Q ch pc' n' sp lg s :
  paired t u pct pc Q s → fixed_of pc = None →
  thread_step u (threads s) (node s) pc ch = Some (mkOut n' pc' sp [] lg) → Q n' →
  (∀ s', paired t u pct pc' Q s' → leads P s') → leads P s.
Proof.
  intros (Hne&Ht&Hu&HQ) Hf H Hn HP.
  eapply (leads_go P s u pc ch); [done..|]. intros s' En Hu' Hk _.
  apply HP. split_and!; [done|by apply Hk|done|congruence].
Qed.

(** The answer to a setup request reaches the thread that waits for it. *)
Lemma leads_reply (P : Sys → Prop) s t u k a own c :
  threads s !! t = Some (AdAwait k a own) → threads s !! u = Some (StReply (Ok c) t) →
  (∀ s', node s' = node s → threads s' !! t = Some (after_proto k a c own) → leads P s') → leads P s.
Proof.
  intros Ht Hu HP. assert (u ≠ t) by congruence.
  eapply (leads_step P s u Go _ _ Hu eq_refl eq_refl). apply HP; simpl; [done|].
  assert ((<[u := Done Dropped]> (threads s) ++ []) !! t = Some (AdAwait k a own)) as E
    by (rewrite app_nil_r; by rewrite list_lookup_insert_ne).
  unfold reply_thread. rewrite E. apply list_lookup_insert_eq. by eapply lookup_lt_Some.
Qed.

(** Publishing a sender closes at most the channel of another writer task. *)
Lemma closes_lookup l ts u pc :
  ts !! u = Some pc → channel_closed pc = pc → foldl apply_effect ts (EClose <$> l) !! u = Some pc.
Proof.
  intros Hu Hc. revert ts Hu. induction l as [|t l IH]; intros ts Hu; simpl; [done|]. apply IH.
  rewrite list_lookup_alter. case_decide; subst; rewrite Hu; simpl; by rewrite ?Hc.
Qed.

Lemma leads_publish (P : Sys → Prop) s t u k a own c task n' c' :
  threads s !! t = Some (AdAwait k a own) → threads s !! u = Some (StWriting1 c task t) →
  adopt_writer (node s) c task = (n', c') →
  (∀ s', node s' = n' → threads s' !! t = Some (AdAwait k a own) → threads s' !! u = Some (StReply (Ok c') t) → leads P s') →
  leads P s.
Proof.
  intros Ht Hu E HP. assert (u ≠ t) by congruence.
  assert (thread_step u (threads s) (node s) (StWriting1 c task t) Go =
    Some (mkOut n' (StReply (Ok c') t) [] (EClose <$> fed_by (threads s) (node s) (conn_addr c)) [])) as Hs
    by (cbn -[adopt_writer]; by rewrite E).
  eapply (leads_step P s u Go _ _ Hu eq_refl Hs). apply HP; cbn -[fed_by]; [done|..]; rewrite app_nil_r; apply closes_lookup; try done.
  - by rewrite list_lookup_insert_ne.
  - apply list_lookup_insert_eq. by eapply lookup_lt_Some.
Qed.

(** Notifying the reader leaves the notifying setup where it is. *)
Definition spawning_of (pc : Pc) : option Pc := match pc with AdSpawn _ _ _ _ => Some pc | _ => None end.

#[export] Instance spawning_of_neutral : Neutral spawning_of.
Proof. solve_neutral. Qed.

(** ** The stages of a successful setup, from the last to the first *)

Section dial.
Context (t : nat) (a : SocketAddr) (m : gmap SocketAddr Connection).

(** The connection is active under the id [i], next to those of [m]. *)
Definition up (n : Node) (i : N) : Prop :=
  delete a (active (connections n)) = m ∧
  ∃ conn, active (connections n) !! a = Some conn ∧ id conn = i ∧ disconnecting conn = false.

(** The call has returned [Ok(())] and the connection is active. *)
Definition connected (s : Sys) : Prop :=
  threads s !! t = Some (Done (RetIo (Ok ()))) ∧ ∃ i, up (node s) i.

Lemma dial_release s i :
  threads s !! t = Some (Unwind [DPermit] (RetIo (Ok ()))) → up (node s) i → leads connected s.
Proof.
  intros Ht Hu. eapply (leads_go _ s t _ Go); [done..|]. intros s1 E1 Ht1 _ _.
  eapply (leads_go _ s1 t _ Go); [done..|]. intros s2 E2 Ht2 _ _.
  apply leads_refl. split; [done|]. exists i. by rewrite E2, E1.
Qed.

Section schedule.
Context (own : ConnectionSide) (u : nat) (i : N).

(** The setup waits for its scheduling task, thread [u]. *)
Local Definition joined (pc : Pc) : Sys → Prop := paired t u (AdJoin own u) pc (λ n, up n i).

Lemma dial_join s : joined (Done Dropped) s → leads connected s.
Proof.
  intros (_&Ht&Hu&Hi). eapply (leads_go _ s t _ Go); [done..|simpl|].
  - unfold finished. by rewrite Hu.
  - intros s1 E1 Ht1 _ _. apply (dial_release s1 i Ht1). by rewrite E1.
Qed.

Lemma dial_sched_release s : joined (Unwind [DSched] Dropped) s → leads connected s.
Proof.
  intros Hj. eapply (paired_go _ _ _ _ _ _ Go _ _ _ _ s Hj); [done..| |]; [apply Hj|].
  intros s1 Hj1. eapply (paired_go _ _ _ _ _ _ Go _ _ _ _ s1 Hj1); [done..| |]; [apply Hj1|]. apply dial_join.
Qed.

Lemma up_attach n n' v : up n i → attach_task n a (Some i) v = Some n' → up n' i.
Proof.
  intros [Hm (conn&Hc&Hi&Hd)] (conn'&Hc'&_&->)%attach_task_inv. simplify_eq. split; simpl.
  - by rewrite delete_insert_eq.
  - rewrite lookup_insert_eq. by eexists.
Qed.

Lemma dial_attach s v b : joined (ScAttach a i v b) s → leads connected s.
Proof.
  intros Hj. pose proof Hj as (_&_&_&Hi). destruct b.
  - destruct (attach_task (node s) a (Some i) v) as [n'|] eqn:E.
    + eapply (paired_go _ _ _ _ _ _ Go _ n' [] [] s Hj); [done|simpl; by rewrite E|by eapply up_attach|]. apply dial_sched_release.
    + destruct Hi as [_ (conn&Hc&Hid&_)]. unfold attach_task in E. by rewrite Hc, Hid, N.eqb_refl in E.
  - eapply (paired_go _ _ _ _ _ _ Go _ _ _ _ s Hj); [done..|]. apply dial_sched_release.
Qed.

(** The trigger is served, if the handler is there to serve it. *)
Lemma dial_await s : joined (ScAwait a i) s → leads connected s.
Proof.
  intros Hj. pose proof Hj as (_&_&_&Hi). destruct (handler_alive (threads s) TaskOnConnect) eqn:E.
  - eapply (paired_go _ _ _ _ _ _ Go _ _ _ _ s Hj); [done|simpl; by rewrite E|done|]. intros s1. apply dial_attach.
  - eapply (paired_go _ _ _ _ _ _ HandlerGone _ _ _ _ s Hj); [done|simpl; by rewrite E|done|]. apply dial_sched_release.
Qed.

Lemma dial_trigger s : joined (ScTrigger a i) s → leads connected s.
Proof.
  intros Hj. pose proof Hj as (_&_&_&Hi). destruct (channel_open (threads s) (node s) TaskOnConnect) eqn:E.
  - eapply (paired_go _ _ _ _ _ _ Go _ _ _ _ s Hj); [done|simpl; by rewrite E|done|]. apply dial_await.
  - eapply (paired_go _ _ _ _ _ _ Go _ _ _ _ s Hj); [done|simpl; by rewrite E|done|]. apply dial_sched_release.
Qed.
End schedule.

Lemma dial_spawn s i own sched :
  threads s !! t = Some (AdSpawn a i own sched) → up (node s) i → leads connected s.
Proof.
  intros Ht Hi. destruct sched.
  - eapply (leads_go _ s t _ Go); [done..|]. intros s1 E1 Ht1 _ Hs1.
    apply (dial_trigger own (length (threads s)) i).
    split_and!; [apply lookup_lt_Some in Ht; lia|done|by apply Hs1|by rewrite E1].
  - eapply (leads_go _ s t _ Go); [done..|]. intros s1 E1 Ht1 _ _. apply (dial_release s1 i Ht1). by rewrite E1.
Qed.

Lemma dial_ready s i own ready sched :
  threads s !! t = Some (AdReady a i own ready sched) → up (node s) i → leads connected s.
Proof.
  intros Ht Hi. eapply (leads_step _ s t Go _ _ Ht eq_refl eq_refl).
  destruct (apply_out_own spawning_of t (mkOut (node s) (AdSpawn a i own sched) []
    (match ready with Some r => [EReady r] | None => [] end) []) s _ Ht) as (pc'&E&Hp).
  apply (dial_spawn _ i own sched); [|done]. rewrite E. by destruct pc'; simplify_eq/=.
Qed.

Lemma dial_guard s i own ready sched :
  threads s !! t = Some (AdGuard a i own ready sched) → up (node s) i → leads connected s.
Proof.
  intros Ht Hi. eapply (leads_go _ s t _ Go); [done..|]. intros s1 E1 Ht1 _ _.
  apply (dial_ready s1 i own ready sched Ht1). by rewrite E1.
Qed.

(** Before it is added, the connection to [a] is not there; the node is not shutting down. *)
Definition open (n : Node) : Prop := active (connections n) = m ∧ m !! a = None ∧ is_underway n = false.

Lemma dial_add s conn own ready sched :
  threads s !! t = Some (AdAdd a conn own ready sched) → open (node s) →
  conn_addr conn = a → disconnecting conn = false → leads connected s.
Proof.
  intros Ht (Hm&Ha&Hu) Hc Hd. eapply (leads_go _ s t _ Go); [done|done|simpl; by rewrite Hu|].
  intros s1 E1 Ht1 _ _. apply (dial_guard s1 (id conn) own ready sched Ht1).
  rewrite E1. split; simpl; rewrite Hc, Hm.
  - rewrite delete_insert_eq. by apply delete_id.
  - rewrite lookup_insert_eq. by eexists.
Qed.

Lemma dial_sched s conn own :
  threads s !! t = Some (AdSched a conn own) → open (node s) →
  conn_addr conn = a → disconnecting conn = false → leads connected s.
Proof.
  intros Ht Ho Hc Hd. destruct (on_connect (protocols (node s))) as [b|] eqn:E;
    (eapply (leads_go _ s t _ Go); [done|done|simpl; by rewrite E|]); intros s1 E1 Ht1 _ _;
    (eapply dial_add; [exact Ht1|by rewrite E1|done..]).
Qed.
(** What the protocols keep of the connection. *)
Definition fresh (conn : Connection) : Prop := conn_addr conn = a ∧ disconnecting conn = false.

(** The setup waits for the setup task [u] of protocol [k]. *)
Local Definition asked (k : SetupProto) (own : ConnectionSide) (u : nat) (pc : Pc) : Sys → Prop :=
  paired t u (AdAwait k a own) pc open.

(** A protocol is applied: its setup task, if it is enabled, turns the connection into one that the
    rest of the setup succeeds with. *)
Lemma dial_proto s k conn own :
  threads s !! t = Some (AdProto k a conn own) → open (node s) →
  (∀ s', threads s' !! t = Some (after_proto k a conn own) → open (node s') → leads connected s') →
  (∀ s' u, asked k own u (StRun k conn t) s' → leads connected s') →
  leads connected s.
Proof.
  intros Ht Ho Hoff Hon. destruct (protocol_enabled (node s) k) eqn:E;
    (eapply (leads_go _ s t _ Go); [done|done|cbn -[protocol_enabled]; by rewrite E|]); intros s1 E1 Ht1 _ Hs1.
  - apply (Hon s1 (length (threads s))). split_and!; [apply lookup_lt_Some in Ht; lia|done|by apply Hs1|by rewrite E1].
  - apply Hoff; [done|by rewrite E1].
Qed.

Lemma dial_reply s k own u conn :
  asked k own u (StReply (Ok conn) t) s →
  (∀ s', threads s' !! t = Some (after_proto k a conn own) → open (node s') → leads connected s') → leads connected s.
Proof.
  intros (Hne&Ht&Hu&Ho) HP. eapply (leads_reply _ s t u); [done..|]. intros s1 E1 Ht1. apply HP; [done|by rewrite E1].
Qed.

Lemma dial_writing s conn own :
  threads s !! t = Some (AdProto StWriting a conn own) → open (node s) → fresh conn → is_Some (writer conn) →
  leads connected s.
Proof.
  intros Ht Ho [Hc Hd] [w Hw]. eapply (dial_proto s); [done..| |].
  - intros s1 Ht1 Ho1. by eapply dial_sched.
  - intros s1 u Hs1. pose proof Hs1 as (_&_&_&Ho1).
    eapply (paired_go _ _ _ _ _ _ Go _ _ _ _ s1 Hs1); [done|simpl; by rewrite Hw|done|].
    intros s2 (Hne&Ht2&Hu2&Ho2).
    eapply (leads_publish _ s2 t u); [done|done|reflexivity|]. intros s3 E3 Ht3 Hu3.
    eapply (dial_reply s3); [split_and!; [done|exact Ht3|exact Hu3|]|].
    + rewrite E3. unfold open. by destruct (writing _).
    + intros s4 Ht4 Ho4. by eapply dial_sched.
Qed.

Lemma dial_reading s conn own :
  threads s !! t = Some (AdProto StReading a conn own) → open (node s) → fresh conn →
  is_Some (reader conn) → is_Some (writer conn) → leads connected s.
Proof.
  intros Ht Ho Hf [r Hrd] Hw. eapply (dial_proto s); [done..| |].
  - intros s1 Ht1 Ho1. by eapply dial_writing.
  - intros s1 u Hs1. pose proof Hs1 as (_&_&_&Ho1).
    eapply (paired_go _ _ _ _ _ _ Go _ _ _ _ s1 Hs1); [done|simpl; by rewrite Hrd|done|].
    intros s2 Hs2. pose proof Hs2 as (_&_&_&Ho2).
    eapply (paired_go _ _ _ _ _ _ Go _ _ _ _ s2 Hs2); [done|done|done|].
    intros s3 Hs3. pose proof Hs3 as (_&_&_&Ho3).
    eapply (paired_go _ _ _ _ _ _ Go _ _ _ _ s3 Hs3); [done|done|done|].
    intros s4 Hs4. eapply dial_reply; [done|]. intros s5 Ht5 Ho5. by eapply dial_writing.
Qed.

Lemma dial_handshake s conn own :
  threads s !! t = Some (AdProto StHandshake a conn own) → open (node s) → fresh conn →
  is_Some (stream conn) → leads connected s.
Proof.
  intros Ht Ho Hf [st Hst].
  assert (∀ c s', fresh c → stream c = Some st → threads s' !! t = Some (after_proto StHandshake a c own) →
    open (node s') → leads connected s') as Hnext.
  { intros c s' [Hc Hd] E Ht' Ho'. simpl in Ht'. unfold split_stream in Ht'. rewrite E in Ht'.
    by eapply (dial_reading s'). }
  eapply (dial_proto s); [done..| |].
  - intros s1 Ht1 Ho1. by eapply Hnext.
  - intros s1 u Hs1. pose proof Hs1 as (_&_&_&Ho1).
    eapply (paired_go _ _ _ _ _ _ (Handshaken (Some st) None None) _ _ _ _ s1 Hs1); [done..|].
    intros s2 Hs2. eapply dial_reply; [done|]. intros s3 Ht3 Ho3.
    eapply Hnext; [|..|exact Ht3|exact Ho3]; done.
Qed.

Lemma dial_stream s own sock :
  threads s !! t = Some (AdNew a sock own) → open (node s) → leads connected s.
Proof.
  intros Ht Ho. eapply (leads_go _ s t _ Go); [done..|]. intros s1 E1 Ht1 _ _.
  eapply dial_handshake; [exact Ht1|by rewrite E1|done|by eexists].
Qed.
End dial.

(** ** The call *)

Lemma verdict_admits n n' a :
  connections n' = connections n → config n' = config n → verdict n a = Admit →
  ∃ cs, check_and_reserve n' a = Ok (set_connections n' cs) ∧ active cs = active (connections n).
Proof.
  intros Ec Eg. unfold verdict, check_and_reserve, is_connected. rewrite Ec, Eg, ip_count_bucket.
  repeat (case_decide; [done|]). intros _. rewrite bool_decide_eq_false_2 by done.
  repeat match goal with |- context [?x <=? ?y] => destruct (N.leb_spec x y); [lia|] end.
  rewrite bool_decide_eq_false_2 by done. by eexists.
Qed.

(** An attempt that the node admits. *)
Record admissible (n : Node) (a : SocketAddr) : Prop := {
  ad_open : is_underway n = false;
  ad_budget : connecting_permits n ≠ 0;
  ad_verdict : verdict n a = Admit;
}.

Lemma admissible_fresh n a : admissible n a → active (connections n) !! a = None.
Proof. intros [_ _ H]. unfold verdict in H. case_decide; [done|]. by apply eq_None_not_Some. Qed.

(** An admitted attempt that holds its permit passes the checks, whichever of the two operations made
    it. *)
Lemma permit_admits s n a :
  admissible (node s) a → try_acquire (node s) = Some n →
  ∃ cs, check_and_reserve n a = Ok (set_connections n cs) ∧ open a (active (connections (node s))) (set_connections n cs).
Proof.
  intros Had H. pose proof (admissible_fresh _ _ Had) as Hfr. destruct Had as [Hop _ Hv].
  unfold try_acquire in H. destruct (_ =? 0); [done|]. simplify_eq.
  destruct (verdict_admits (node s) (set_permits (node s) (connecting_permits (node s) - 1)) a) as (cs&Ec&Ea); [done..|].
  exists cs. split; [done|]. by split_and!.
Qed.

Lemma permit_free n : connecting_permits n ≠ 0 → ∃ n', try_acquire n = Some n' ∧ is_underway n' = is_underway n.
Proof. intros H%N.eqb_neq. unfold try_acquire. rewrite H. by eexists. Qed.

Lemma dial_call s t a :
  threads s !! t = Some (CnStart a) → admissible (node s) a → self_connect (node s) a = false →
  leads (connected t a (active (connections (node s)))) s.
Proof.
  intros Ht Had Hself. pose proof (admissible_fresh _ _ Had) as Hfr. pose proof Had as [Hop Hb _].
  destruct (permit_free _ Hb) as (n&Hn&_). destruct (permit_admits s n a Had Hn) as (cs&Ec&Ho).
  eapply (leads_go _ s t _ Go); [done|done|simpl; by rewrite Hop|]. intros s1 E1 Ht1 _ _.
  eapply (leads_go _ s1 t _ Go); [done|done|simpl; by rewrite E1, Hself|]. intros s2 E2 Ht2 _ _.
  eapply (leads_go _ s2 t _ Go); [done|done| |].
  { simpl. unfold is_connected. rewrite E2, Hfr. rewrite bool_decide_eq_false_2 by (by intros [??]). done. }
  intros s3 E3 Ht3 _ _.
  eapply (leads_go _ s3 t _ Go); [done|done|simpl; by rewrite E3, Hn|]. intros s4 E4 Ht4 _ _.
  eapply (leads_go _ s4 t _ Go); [done|done|simpl; by rewrite E4, Ec|]. intros s5 E5 Ht5 _ _.
  eapply (leads_go _ s5 t _ (GotStream 0)); [done..|]. intros s6 E6 Ht6 _ _.
  eapply (dial_stream t a _ s6 Initiator 0 Ht6). by rewrite E6, E5.
Qed.

(** An accepted request, spawned with its permit by the accept loop. *)
Lemma request_served s t a sock m :
  threads s !! t = Some (RqStart a sock) → is_underway (node s) = false →
  (∃ cs, check_and_reserve (node s) a = Ok (set_connections (node s) cs) ∧ open a m (set_connections (node s) cs)) →
  leads (connected t a m) s.
Proof.
  intros Ht Hop (cs&Ec&Ho). eapply (leads_go _ s t _ Go); [done|done|simpl; by rewrite Hop|]. intros s1 E1 Ht1 _ _.
  eapply (leads_go _ s1 t _ Go); [done|done|simpl; by rewrite E1, Ec|]. intros s2 E2 Ht2 _ _.
  eapply (dial_stream t a _ s2 Responder sock Ht2). by rewrite E2.
Qed.

(** How an attempt comes about: by a call of [connect], or through the accept loop (thread [l]). *)
Inductive Attempt := Dialed | Accepted (l : nat) (sock : N).

Definition attempt_labels (at_ : Attempt) (a : SocketAddr) : list Label :=
  match at_ with Dialed => [Connect a] | Accepted l sock => [Run l (GotInbound a sock); Run l Go] end.

Definition attempt_ready (at_ : Attempt) (a : SocketAddr) (s : Sys) : Prop :=
  match at_ with
  | Dialed => self_connect (node s) a = false
  | Accepted l _ => threads s !! l = Some LsAccept
  end.

Lemma attempt_leads at_ a s :
  admissible (node s) a → attempt_ready at_ a s →
  ∃ s1, run (attempt_labels at_ a) s = Some s1 ∧
    leads (connected (length (threads s)) a (active (connections (node s)))) s1.
Proof.
  intros Had Hat. destruct at_ as [|l sock]; simpl in Hat.
  - exists (spawn (CnStart a) s). split; [done|]. apply (dial_call (spawn (CnStart a) s)); [|done..].
    simpl. by rewrite lookup_app_r, Nat.sub_diag.
  - pose proof Had as [Hop Hb _]. destruct (permit_free _ Hb) as (n&Hn&Hun).
    destruct (permit_admits s n a Had Hn) as (cs&Ec&Ho). pose proof (lookup_lt_Some _ _ _ Hat) as Hl.
    eexists. split.
    + simpl. rewrite Hat. simpl. rewrite app_nil_r, list_lookup_insert_eq by done. simpl. rewrite Hn. done.
    + apply (request_served _ _ a sock); simpl; [|congruence|by exists cs].
      rewrite app_nil_r, lookup_app_r; rewrite !length_insert; [|done]. by rewrite Nat.sub_diag.
Qed.

(** C14. An admitted attempt can succeed: in every reachable state, if the node is not shutting down, a
    permit of the connecting budget is free and the admission checks pass, then a call of [connect]
    (with an address that is not the node's own) or an inbound request that arrives at the listener
    can run to its successful end by steps of the node's own tasks alone, whichever protocols are
    enabled; the connection is then active and not being disconnected, and the other connections are
    as they were. *)
Theorem attempts_succeed c s at_ a :
  reachable c s → admissible (node s) a → attempt_ready at_ a s →
  ∃ ls s', forallb is_run ls = true ∧ run (attempt_labels at_ a ++ ls) s = Some s' ∧ reachable c s' ∧
    threads s' !! length (threads s) = Some (Done (RetIo (Ok ()))) ∧
    (∃ conn, active (connections (node s')) !! a = Some conn ∧ disconnecting conn = false) ∧
    delete a (active (connections (node s'))) = active (connections (node s)).
Proof.
  intros Hr Had Hat. destruct (attempt_leads at_ a s Had Hat) as (s1&R1&ls&s'&L&R&_&Hd&i&Hm&conn&Hc&_&Hdc).
  assert (run (attempt_labels at_ a ++ ls) s = Some s') as R' by (rewrite run_app, R1; exact R).
  exists ls, s'. split_and!; [done|done| |done|by eexists|done]. by eapply run_reachable.
Qed.

Lemma attempts_succeed_witness :
  (∃ ls s', forallb is_run ls = true ∧ run (attempt_labels Dialed (peer 3 4002) ++ ls) demo_busy = Some s' ∧
    threads s' !! length (threads demo_busy) = Some (Done (RetIo (Ok ())))) ∧
  (∃ ls s', forallb is_run ls = true ∧ run (attempt_labels (Accepted 5 7) (peer 3 4002) ++ ls) demo_busy = Some s' ∧
    threads s' !! length (threads demo_busy) = Some (Done (RetIo (Ok ())))).
Proof.
  assert (admissible (node demo_busy) (peer 3 4002)) as Had by (split; by vm_compute).
  assert (attempt_ready Dialed (peer 3 4002) demo_busy) as H1 by (vm_compute; reflexivity).
  assert (attempt_ready (Accepted 5 7) (peer 3 4002) demo_busy) as H2 by (vm_compute; reflexivity).
  destruct (attempts_succeed _ _ _ _ demo_busy_reachable Had H1) as (ls1&s1&L1&R1&_&D1&_).
  destruct (attempts_succeed _ _ _ _ demo_busy_reachable Had H2) as (ls2&s2&L2&R2&_&D2&_).
  exact (conj (ex_intro _ ls1 (ex_intro _ s1 (conj L1 (conj R1 D1))))
              (ex_intro _ ls2 (ex_intro _ s2 (conj L2 (conj R2 D2))))).
Defined.
