(* ===== verification/Cancel.v ===== *)
(** * Dropping a connection attempt

    The cancel safety of [Node::connect]: what happens, step by step, when its future is dropped at
    one of its awaits. *)

From S2P Require Import Prelude Net Config Stats Connections Node Tasks Ownership Lifecycle Links Scenario.

Open Scope N_scope.

(** ** Aborting tasks *)

Lemma aborted_idemp pc : aborted (aborted pc) = aborted pc.
Proof. by destruct pc. Qed.

(** What becomes of thread [u] when the tasks of [l] are aborted. *)
Definition abort_if (l : list nat) (u : nat) (x : option Pc) : option Pc :=
  if decide (u ∈ l) then aborted <$> x else x.

Lemma aborts_lookup l ts u : foldl apply_effect ts (EAbort <$> l) !! u = abort_if l u (ts !! u).
Proof.
  unfold abort_if. revert ts. induction l as [|t l IH]; intros ts.
  { by destruct (decide (u ∈ [])) as [?%elem_of_nil|]. }
  simpl. rewrite IH. unfold abort_thread. rewrite list_lookup_alter. destruct (decide (t = u)) as [->|Hne].
  - rewrite (decide_True (P := u ∈ u :: l)) by set_solver. case_decide; [|done].
    destruct (ts !! u); simpl; [|done]. by rewrite aborted_idemp.
  - destruct (decide (u ∈ l)); [rewrite decide_True by set_solver|rewrite decide_False by set_solver]; done.
Qed.

(** A thread leaving scope drops the first of the objects it owns. *)
Lemma drop_step s t d ds r n' l lg :
  threads s !! t = Some (Unwind (d :: ds) r) →
  unwind (node s) (Unwind (d :: ds) r) = Some (mkOut n' (Unwind ds r) [] (EAbort <$> l) lg) →
  ∃ s1, step (Run t Go) s = Some s1 ∧ node s1 = n' ∧ threads s1 !! t = Some (Unwind ds r) ∧
    (∀ u, u ≠ t → threads s1 !! u = abort_if l u (threads s !! u)) ∧ log s1 = lg ++ log s.
Proof.
  intros Ht H. exists (apply_out t (mkOut n' (Unwind ds r) [] (EAbort <$> l) lg) s).
  split; [cbn -[unwind]; rewrite Ht; cbn -[unwind]; by rewrite H|]. split; [done|]. simpl. rewrite app_nil_r. split.
  - rewrite aborts_lookup, list_lookup_insert_eq by (by eapply lookup_lt_Some). unfold abort_if. by case_decide.
  - split; [|done]. intros u Hne. by rewrite aborts_lookup, list_lookup_insert_ne.
Qed.

(** ** Rolling an attempt back *)

(** The attempt on [a] has been undone: its reservation, its charge to the IP address and its permit
    are back, the active connections are as they were, and so is everything else about the node. *)
Record rolled_back (a : SocketAddr) (n n' : Node) : Prop := {
  rb_active : active (connections n') = active (connections n);
  rb_connecting : a ∈ connecting (limits (connections n)) ∧
    connecting (limits (connections n')) = connecting (limits (connections n)) ∖ {[a]};
  rb_buckets i : bucket (limits (connections n)) i =
    bucket (limits (connections n')) i + (if decide (canonical_ip a = i) then 1 else 0);
  rb_permits : connecting_permits n' = connecting_permits n + 1;
  rb_rest : ∃ l, n' = set_permits (set_connections n (set_limits (connections n) l)) (connecting_permits n + 1);
}.

(** What a thread owns is in the books. *)
Lemma reservation_booked c s t pc a :
  reachable c s → threads s !! t = Some pc → (a, false) ∈ guards_of pc →
  a ∈ connecting (limits (connections (node s))) ∧ 0 < bucket (limits (connections (node s))) (canonical_ip a).
Proof.
  intros Hr Ht Hg. destruct (inv_conn _ _ (reachable_inv _ _ Hr)) as [I1 _ I3 _ _ _ _ _ _ _]. split.
  - pose proof (sum_list_with_lookup (n_guards a) _ _ _ Ht). pose proof (n_guards_pos a false pc Hg) as Hp.
    specialize (I1 a). case_bool_decide; [done|]. simpl in I1. lia.
  - pose proof (sum_list_with_lookup (n_charges (canonical_ip a)) _ _ _ Ht) as Hle.
    assert (0 < n_charges (canonical_ip a) pc)%nat as Hp.
    { unfold n_charges. apply list_elem_of_lookup_1 in Hg as [i Hi]. eapply countb_pos; [done|].
      unfold charged_to. by rewrite bool_decide_eq_true_2. }
    rewrite I3. lia.
Qed.

Lemma abandoned_releases c s t a r :
  reachable c s → threads s !! t = Some (Unwind [DGuard a false; DPermit] r) →
  ∃ s', run [Run t Go; Run t Go; Run t Go] s = Some s' ∧ threads s' !! t = Some (Done r) ∧
    (∀ u, u ≠ t → threads s' !! u = threads s !! u) ∧ rolled_back a (node s) (node s') ∧ log s' = log s.
Proof.
  intros Hr Ht. destruct (reservation_booked c s t _ a Hr Ht ltac:(simpl; set_solver)) as [Hin Hb].
  destruct (release_ip (clear_connecting (limits (connections (node s))) a) a) as [ok l] eqn:El.
  destruct (drop_step s t _ _ r _ [] _ Ht ltac:(simpl; unfold guard_drop; rewrite El; reflexivity)) as (s1&R1&N1&T1&U1&L1).
  destruct (drop_step s1 t _ _ r _ [] _ T1 ltac:(reflexivity)) as (s2&R2&N2&T2&U2&L2).
  exists (apply_out t (mkOut (node s2) (Done r) [] [] []) s2). split_and!.
  - change (run [Run t Go; Run t Go; Run t Go] s) with (s ← step (Run t Go) s; s ← step (Run t Go) s; step (Run t Go) s ≫= Some).
    rewrite R1. cbn [mbind option_bind]. rewrite R2. cbn [mbind option_bind]. simpl. by rewrite T2.
  - simpl. rewrite app_nil_r. apply list_lookup_insert_eq. by eapply lookup_lt_Some.
  - intros u Hne. simpl. rewrite app_nil_r, list_lookup_insert_ne, U2, U1 by done. by unfold abort_if.
  - simpl. rewrite N2, N1. split; simpl; [done| |intros i|done|].
    + split; [done|]. by destruct (release_ip_bucket _ _ _ _ (canonical_ip a) El Hb) as (_&->&_).
    + by destruct (release_ip_bucket _ _ _ _ i El Hb) as (_&_&?).
    + by exists l.
  - simpl. rewrite L2, L1. simpl. by destruct (release_ip_bucket _ _ _ _ (canonical_ip a) El Hb) as (->&_).
Qed.

(** ** The theorem *)

(** What a dropped [connect] leaves to be undone: nothing (it waits for the listening address), the
    attempt on an address, with the tasks of the connection it has in hand, or only its permit (the
    connection is finalized). *)
Inductive Held := HeldNothing | HeldAttempt (a : SocketAddr) (tasks : list nat) | HeldPermit.

(** An outbound [connect] at each of its awaits (and between two protocols). *)
Definition dialing (pc : Pc) : option Held :=
  match pc with
  | CnSelf _ => Some HeldNothing
  | CnDial a | AdAwait _ a Initiator => Some (HeldAttempt a [])
  | AdProto _ a c Initiator | AdSched a c Initiator => Some (HeldAttempt a (tasks c))
  | AdJoin Initiator _ => Some HeldPermit
  | _ => None
  end.

Definition held_tasks (h : Held) : list nat := match h with HeldAttempt _ l => l | _ => [] end.

Definition undone (h : Held) (n n' : Node) : Prop :=
  match h with
  | HeldNothing => n' = n
  | HeldAttempt a _ => rolled_back a n n'
  | HeldPermit => n' = release_permit n
  end.

Lemma cancel_at s t pc n' pc' :
  threads s !! t = Some pc → cancel (node s) pc = next n' pc' →
  ∃ s1, step (Cancel t) s = Some s1 ∧ node s1 = n' ∧ threads s1 !! t = Some pc' ∧
    (∀ u, u ≠ t → threads s1 !! u = threads s !! u) ∧ log s1 = log s.
Proof.
  intros Ht H. exists (apply_out t (mkOut n' pc' [] [] []) s).
  split; [simpl; rewrite Ht; simpl; by rewrite H|]. split; [done|]. simpl. rewrite app_nil_r. split.
  - apply list_lookup_insert_eq. by eapply lookup_lt_Some.
  - split; [|done]. intros u Hne. by rewrite list_lookup_insert_ne.
Qed.

Lemma abort_order_elem l u x c : l ≡ₚ tasks c → abort_if (abort_order c) u x = abort_if l u x.
Proof. intros E. unfold abort_if, abort_order. apply decide_ext. rewrite list_elem_of_In, <-in_rev, <-list_elem_of_In, E. done. Qed.

(** A connection in hand is dropped first, which aborts its tasks. *)
Lemma dropped_releases c s t a conn r :
  reachable c s → threads s !! t = Some (Unwind [DConn conn; DGuard a false; DPermit] r) →
  ∃ s', run (Run t Go :: [Run t Go; Run t Go; Run t Go]) s = Some s' ∧ threads s' !! t = Some (Done r) ∧
    (∀ u, u ≠ t → threads s' !! u = abort_if (tasks conn) u (threads s !! u)) ∧ rolled_back a (node s) (node s') ∧
    log s' = log s.
Proof.
  intros Hr Ht. destruct (drop_step s t _ _ r _ (abort_order conn) _ Ht ltac:(reflexivity)) as (s1&R1&N1&T1&U1&L1).
  destruct (abandoned_releases c s1 t a r) as (s'&R&T&U&RB&L); [by eapply reach_step|done|].
  exists s'. split_and!; [simpl in *; by rewrite R1|done| |by rewrite <-N1|by rewrite L, L1].
  intros u Hne. rewrite U, U1 by done. by apply abort_order_elem.
Qed.

Lemma abort_if_nil u x : abort_if [] u x = x.
Proof. unfold abort_if. by rewrite decide_False by set_solver. Qed.

(** Dropping the future, and what it then does by itself. *)
Lemma connect_dropped c s t pc h :
  reachable c s → threads s !! t = Some pc → dialing pc = Some h →
  ∃ s1 k s', step (Cancel t) s = Some s1 ∧ run (replicate k (Run t Go)) s1 = Some s' ∧
    threads s' !! t = Some (Done Dropped) ∧ (∀ u, u ≠ t → threads s' !! u = abort_if (held_tasks h) u (threads s !! u)) ∧
    undone h (node s) (node s') ∧ log s' = log s.
Proof.
  intros Hr Ht Hd.
  assert ((h = HeldNothing ∧ cancel (node s) pc = next (node s) (Done Dropped)) ∨
    (∃ a, h = HeldAttempt a [] ∧ cancel (node s) pc = next (node s) (abandon a Dropped)) ∨
    (∃ a conn, h = HeldAttempt a (tasks conn) ∧
       cancel (node s) pc = next (node s) (Unwind [DConn conn; DGuard a false; DPermit] Dropped)) ∨
    (h = HeldPermit ∧ cancel (node s) pc = next (node s) (Unwind [DPermit] Dropped)))
    as [[-> E]|[(a&->&E)|[(a&conn&->&E)|[-> E]]]].
  { destruct pc; try done; try destruct own; simplify_eq/=; eauto 10. }
  all: destruct (cancel_at s t pc _ _ Ht E) as (s1&R1&N1&T1&U1&L1).
  - exists s1, 0%nat, s1. split_and!; [done..| |done|done]. intros u Hne. by rewrite abort_if_nil, U1.
  - destruct (abandoned_releases c s1 t a Dropped) as (s'&R&T&U&RB&L); [by eapply reach_step|done|].
    exists s1, 3%nat, s'. split_and!; [done|exact R|done| |by simpl; rewrite <-N1|by rewrite L].
    intros u Hne. by rewrite abort_if_nil, U, U1.
  - destruct (dropped_releases c s1 t a conn Dropped) as (s'&R&T&U&RB&L); [by eapply reach_step|done|].
    exists s1, 4%nat, s'. split_and!; [done|exact R|done| |by simpl; rewrite <-N1|by rewrite L].
    intros u Hne. by rewrite U, U1.
  - destruct (drop_step s1 t _ _ Dropped _ [] _ T1 ltac:(reflexivity)) as (s2&R2&N2&T2&U2&L2).
    exists s1, 2%nat, (apply_out t (mkOut (node s2) (Done Dropped) [] [] []) s2). split_and!; [done|..].
    + simpl replicate. cbn [run]. rewrite R2. cbn [mbind option_bind]. simpl. by rewrite T2.
    + simpl. rewrite app_nil_r. apply list_lookup_insert_eq. by eapply lookup_lt_Some.
    + intros u Hne. simpl. by rewrite app_nil_r, list_lookup_insert_ne, U2, U1 by done.
    + simpl. by rewrite N2, N1.
    + simpl. by rewrite L2, L1.
Qed.

(** A setup task that answers a [connect] that is gone drops the connection it has in hand. *)
Lemma late_answer s t u conn r :
  threads s !! t = Some (Done r) → threads s !! u = Some (StReply (Ok conn) t) →
  ∃ s', step (Run u Go) s = Some s' ∧ node s' = node s ∧ log s' = log s ∧ threads s' !! u = Some (Done Dropped) ∧
    ∀ v, v ≠ u → threads s' !! v = abort_if (tasks conn) v (threads s !! v).
Proof.
  intros Ht Hu. eexists. split; [simpl; rewrite Hu; reflexivity|]. simpl. split; [done|]. split; [done|].
  assert (∀ ts l, foldl (λ ts t, abort_thread t ts) ts l = foldl apply_effect ts (EAbort <$> l)) as Hf.
  { intros ts l. revert ts. induction l as [|x l IH]; intros ts; simpl; [done|]. apply IH. }
  assert (reply_thread t (Ok conn) (<[u:=Done Dropped]> (threads s) ++ []) =
    foldl apply_effect (<[u:=Done Dropped]> (threads s)) (EAbort <$> abort_order conn)) as ->.
  { rewrite app_nil_r. unfold reply_thread. rewrite list_lookup_insert_ne by congruence. by rewrite Ht, Hf. }
  split.
  - rewrite aborts_lookup, list_lookup_insert_eq by (by eapply lookup_lt_Some). unfold abort_if. by case_decide.
  - intros v Hne. rewrite aborts_lookup, list_lookup_insert_ne by done. by apply abort_order_elem.
Qed.

(** A future that is gone stays gone. *)
Definition gone (pc : Pc) : bool := match pc with Done Dropped => true | _ => false end.

#[export] Instance gone_stable : Stable gone.
Proof. split; try done; by intros; destruct pc. Qed.

Lemma run_gone ls s s' t :
  run ls s = Some s' → threads s !! t = Some (Done Dropped) → threads s' !! t = Some (Done Dropped).
Proof.
  intros R Ht. destruct (kind_at_run gone ls s s' t R ltac:(by eexists)) as (pc&->&Hg).
  destruct pc; try done. by destruct r.
Qed.

(** C15. [connect] is cancel safe, as documented: at each of its awaits the future can be dropped, and
    then runs to its end by itself, which logs no event and touches no thread but the tasks of the
    connection in hand, which are aborted.  Before the attempt is admitted (while it waits to read the
    listening address) this changes nothing.  Until the connection is finalized it rolls the attempt back
    exactly: the address is no longer [connecting], one connection less is charged to its IP address, the
    permit is back, and nothing else about the node has changed.  Afterwards only the permit is released.
    A protocol's setup task that has the connection when the future is dropped aborts its tasks, and does
    nothing else, when it comes to answer. *)
Theorem connect_cancel_safe c s t pc h :
  reachable c s → threads s !! t = Some pc → dialing pc = Some h →
  ∃ s1 k s', step (Cancel t) s = Some s1 ∧ run (replicate k (Run t Go)) s1 = Some s' ∧
    threads s' !! t = Some (Done Dropped) ∧ (∀ u, u ≠ t → threads s' !! u = abort_if (held_tasks h) u (threads s !! u)) ∧
    undone h (node s) (node s') ∧ log s' = log s ∧
    (∀ ls s2 u conn, run ls s' = Some s2 → threads s2 !! u = Some (StReply (Ok conn) t) →
       ∃ s3, step (Run u Go) s2 = Some s3 ∧ node s3 = node s2 ∧ log s3 = log s2 ∧
         ∀ v, v ≠ u → threads s3 !! v = abort_if (tasks conn) v (threads s2 !! v)).
Proof.
  intros Hr Ht Hd. destruct (connect_dropped c s t pc h Hr Ht Hd) as (s1&k&s'&R1&R&T&U&D&L).
  exists s1, k, s'. split_and!; try done. intros ls s2 u conn R2 Hu.
  assert (threads s2 !! t = Some (Done Dropped)) as Ht2 by (by eapply run_gone).
  destruct (late_answer s2 t u conn Dropped Ht2 Hu) as (s3&?&?&?&_&?). by exists s3.
Qed.

(** The scenario, with the dial (thread 6) past its reading setup, which has spawned two tasks. *)
Definition demo_dialing : Sys := after (run_enable ++ take 16 run_dial).

Lemma demo_dialing_reachable : reachable demo_config demo_dialing.
Proof. apply after_reachable. vm_compute. eauto. Qed.

Lemma connect_cancel_safe_witness :
  ∃ s1 k s', step (Cancel 6) demo_dialing = Some s1 ∧ run (replicate k (Run 6 Go)) s1 = Some s' ∧
    threads s' !! 6%nat = Some (Done Dropped) ∧
    threads s' !! 9%nat = Some (Unwind [DDisconnect (peer 1 4000) 0 OriginReading] Dropped) ∧
    rolled_back (peer 1 4000) (node demo_dialing) (node s').
Proof.
  assert (∃ pc, threads demo_dialing !! 6%nat = Some pc ∧ dialing pc = Some (HeldAttempt (peer 1 4000) [9; 10]%nat))
    as (pc&Ht&Hd) by (vm_compute; eauto).
  destruct (connect_cancel_safe demo_config demo_dialing 6 pc _ demo_dialing_reachable Ht Hd)
    as (s1&k&s'&R1&R&T&U&RB&_).
  exists s1, k, s'. split; [exact R1|]. split; [exact R|]. split; [exact T|].
  split; [rewrite U by done; vm_compute; reflexivity|exact RB].
Defined.
