(* ===== verification/Results.v ===== *)
(** * The results of the node's operations

    What [Node::connect], an accepted request and [Node::disconnect] return, held against what has
    happened to the active set. *)

From S2P Require Import Prelude Net Config Stats Connections Node Tasks Ownership Lifecycle Scenario.

Open Scope N_scope.

(** ** Counting results and events *)

(** An attempt that has returned [Ok(())], or has nothing left that could make it return anything
    else. *)
Definition n_ok (pc : Pc) : nat :=
  match pc with
  | AdGuard _ _ _ _ _ | AdReady _ _ _ _ _ | AdSpawn _ _ _ _ | AdJoin _ _
  | Unwind _ (RetIo (Ok _)) | Done (RetIo (Ok _)) => 1
  | _ => 0
  end.

(** How a disconnect that has claimed its connection ends: it returns [true], or its future has been
    dropped and it returns nothing. *)
Definition claimed (r : Outcome) : bool := match r with RetBool true | Abandoned => true | _ => false end.

(** A disconnect that has removed its connection. *)
Definition n_true (pc : Pc) : nat := match pc with DsDrop _ r | Unwind _ r | Done r => b2n (claimed r) | _ => 0 end.

(** A finalizer that would end in any other way. *)
Definition n_odd (pc : Pc) : nat :=
  match pc with DsSenders _ _ r | DsRemove _ _ r | DsDrop _ r => b2n (negb (claimed r)) | _ => 0 end.

#[export] Instance n_ok_neutral : Neutral n_ok.
Proof. solve_neutral. Qed.
#[export] Instance n_true_neutral : Neutral n_true.
Proof. solve_neutral. Qed.
#[export] Instance n_odd_neutral : Neutral n_odd.
Proof. solve_neutral. Qed.

Definition ev_added (e : Event) : bool := match e with EvAdded _ => true | _ => false end.
Definition ev_removed (e : Event) : bool := match e with EvRemoved _ => true | _ => false end.

(** How the results and the events of a step match. *)
Record result_step (n : Node) (pc : Pc) (o : Out) : Prop := {
  rs_ok : (n_ok (o_pc o) + sum_list_with n_ok (o_spawn o) ≤ n_ok pc + countb ev_added (o_log o))%nat;
  rs_true : (n_true (o_pc o) + sum_list_with n_true (o_spawn o) = n_true pc + countb ev_removed (o_log o))%nat;
  rs_odd : (n_odd (o_pc o) + sum_list_with n_odd (o_spawn o) ≤ n_odd pc)%nat;
  rs_active : (size (active (connections n)) + countb ev_added (o_log o) =
    size (active (connections (o_node o))) + countb ev_removed (o_log o))%nat;
}.

Lemma n_true_fan (ds : list SocketAddr) :
  sum_list_with n_true ((λ a, DsClaim a OriginShutdown None) <$> ds) = 0%nat ∧
  sum_list_with n_ok ((λ a, DsClaim a OriginShutdown None) <$> ds) = 0%nat ∧
  sum_list_with n_odd ((λ a, DsClaim a OriginShutdown None) <$> ds) = 0%nat.
Proof. by induction ds. Qed.

(** A step that leaves the active set and the log alone. *)
Lemma result_step_quiet n pc o :
  (n_ok (o_pc o) + sum_list_with n_ok (o_spawn o) ≤ n_ok pc)%nat →
  (n_true (o_pc o) + sum_list_with n_true (o_spawn o) = n_true pc)%nat →
  (n_odd (o_pc o) + sum_list_with n_odd (o_spawn o) ≤ n_odd pc)%nat →
  countb ev_added (o_log o) = 0%nat → countb ev_removed (o_log o) = 0%nat →
  size (active (connections (o_node o))) = size (active (connections n)) → result_step n pc o.
Proof. intros H1 H2 H3 H4 H5 H6. split; lia. Qed.

Lemma result_step_remove c s t a g r ok conn n' :
  Inv c s → threads s !! t = Some (DsRemove a g r) → finalizer_remove (node s) a = (ok, conn, n') →
  is_Some conn ∧ size (active (connections (node s))) = S (size (active (connections n'))).
Proof.
  intros HI Ht (->&E&_)%finalizer_remove_inv.
  destruct (inv_claim_id _ _ _ (inv_conn _ _ HI) _ _ a g Ht eq_refl) as (x&Hx&_). split; [by eexists|].
  rewrite E, map_size_delete, Hx. assert (size (active (connections (node s))) ≠ 0%nat); [|lia].
  intros Hz%map_size_empty_inv. by rewrite Hz, lookup_empty in Hx.
Qed.

Lemma result_step_guard n a b ok cs ds r lg :
  guard_drop (connections n) a b = (ok, cs) → countb ev_added lg = 0%nat → countb ev_removed lg = 0%nat →
  result_step n (Unwind (DGuard a b :: ds) r) (mkOut (set_connections n cs) (Unwind ds r) [] [] lg).
Proof.
  intros E H1 H2. pose proof (guard_drop_active (connections n) a b) as Hg. rewrite E in Hg. simpl in Hg.
  apply result_step_quiet; simpl; [lia..|done|done|by rewrite Hg].
Qed.

Lemma claimed_inv r : b2n (negb (claimed r)) = 0%nat → r = RetBool true ∨ r = Abandoned.
Proof. destruct r as [|[]| |]; simpl; auto; done. Qed.

Lemma thread_step_results c s t pc ch o :
  threads s !! t = Some pc → thread_step t (threads s) (node s) pc ch = Some o →
  Inv c s → addr_ok (threads s) → n_odd pc = 0%nat → result_step (node s) pc o.
Proof.
  intros Ht H HI Hok Hodd.
  destruct pc; step_cases H;
    repeat match goal with
    | E : try_acquire _ = Some _ |- _ => apply try_acquire_inv in E as [? ->]
    | E : check_and_reserve _ _ = Ok _ |- _ => apply check_and_reserve_inv in E as (?&?&?&?&?&->)
    | E : attach_task _ _ _ _ = Some _ |- _ => apply attach_task_inv in E as (?&?&?&->)
    | E : claim_disconnect _ _ _ = Some _ |- _ => apply claim_disconnect_inv in E as (?&?&?&?&->)
    | E : finalizer_remove _ _ = _ |- _ => apply (result_step_remove c s t addr g _ _ _ _ HI Ht) in E as [[??] ?]
    end; try (apply claimed_inv in Hodd as [->| ->]); try (split; simpl; lia); try congruence;
    try (apply result_step_quiet; simpl; try done; by eapply size_update).
  - by destruct k.
  - match goal with E : add_active _ _ _ = Some _ |- _ => apply add_active_inv in E as [_ ->] end.
    destruct (add_fresh _ _ _ _ _ _ _ _ HI Hok Ht) as (->&_&Hf).
    split; simpl; rewrite ?map_size_insert, ?Hf; lia.
  - apply result_step_quiet; simpl; try done. by rewrite finalizer_senders_connections.
  - apply result_step_quiet; simpl; try done. by rewrite finalizer_senders_connections.
  - destruct (n_true_fan (addrs (connections (node s)))) as (E1&E2&E3).
    apply result_step_quiet; simpl; by rewrite ?E1, ?E2, ?E3.
  - by eapply result_step_guard.
  - by eapply result_step_guard.
Qed.

Lemma cancel_results n pc o :
  cancel n pc = Some o → (n_ok (o_pc o) ≤ n_ok pc)%nat ∧ n_true (o_pc o) = n_true pc ∧ n_odd (o_pc o) = 0%nat.
Proof. intros H. destruct pc; unfold cancel, next, abandon in H; repeat case_match; simplify_eq/=; split_and!; lia. Qed.

Record ResultInv (s : Sys) : Prop := {
  ri_ok : (sum_list_with n_ok (threads s) ≤ countb ev_added (log s))%nat;
  ri_true : sum_list_with n_true (threads s) = countb ev_removed (log s);
  ri_odd : sum_list_with n_odd (threads s) = 0%nat;
  ri_active : countb ev_added (log s) = (size (active (connections (node s))) + countb ev_removed (log s))%nat;
}.

Lemma reachable_results c s : reachable c s → ResultInv s.
Proof.
  induction 1 as [seq_id now conn_id seq_id' n _ Hn|s l s' Hr IH Hs].
  { unfold new_node in Hn. destruct (admit_config _ _) as [|[??]]; simplify_eq/=. by split. }
  pose proof (reachable_inv _ _ Hr) as HI. pose proof (reachable_addr_ok _ _ Hr) as Hok. destruct IH as [H1 H2 H4 H3].
  apply step_inv in Hs as [t pc ch o Ht E|t pc o Ht E|n' l' ab [_ Ec _ _] _ Hl|].
  - pose proof (sum_list_with_lookup n_odd _ _ _ Ht).
    destruct (thread_step_results _ _ _ _ _ _ Ht E HI Hok) as [R1 R2 R4 R3]; [lia|].
    pose proof (apply_out_sum n_odd t o s pc Ht).
    pose proof (apply_out_sum n_ok t o s pc Ht). pose proof (apply_out_sum n_true t o s pc Ht).
    split; simpl log; simpl node; rewrite ?countb_app; lia.
  - destruct (cancel_conn _ _ _ E) as (_&_&Hn&Hs&_&_&Hlg). destruct (cancel_results _ _ _ E) as (C1&C2&C3).
    pose proof (apply_out_sum n_ok t o s pc Ht) as E1. pose proof (apply_out_sum n_true t o s pc Ht) as E2.
    pose proof (apply_out_sum n_odd t o s pc Ht) as E3. rewrite Hs in E1, E2, E3. simpl in E1, E2, E3. split; simpl log; simpl node; rewrite ?Hlg, ?Hn; simpl; try done; lia.
  - split; simpl; rewrite ?Ec; [|rewrite <-H2|rewrite <-H4|done].
    + rewrite (user_threads_sum n_ok); [done|]. eapply Forall_impl; [done|]. intros []; try done. by destruct owned, r.
    + apply (user_threads_sum n_true). eapply Forall_impl; [done|]. intros []; try done. by destruct owned, r.
    + apply (user_threads_sum n_odd). eapply Forall_impl; [done|]. by intros [].
  - by split.
Qed.

(** ** The theorem *)

Definition returned_ok (pc : Pc) : bool := match pc with Done (RetIo (Ok _)) => true | _ => false end.
Definition returned_true (pc : Pc) : bool := match pc with Done (RetBool true) => true | _ => false end.

(** A disconnect whose future was dropped after it had claimed its connection: it returned nothing, its
    finalizer removed the connection. *)
Definition abandoned (pc : Pc) : bool := match pc with Done Abandoned => true | _ => false end.

(** A disconnect that has removed its connection and has yet to end. *)
Definition removing (pc : Pc) : bool := match pc with DsDrop _ r | Unwind _ r => claimed r | _ => false end.

Lemma returned_ok_sum ts : (countb returned_ok ts ≤ sum_list_with n_ok ts)%nat.
Proof. induction ts as [|pc ts IH]; simpl; [lia|]. destruct pc; simpl; try lia. destruct r as [[]| | |]; simpl; lia. Qed.

Lemma returned_true_sum ts :
  sum_list_with n_true ts = (countb returned_true ts + countb abandoned ts + countb removing ts)%nat.
Proof.
  induction ts as [|pc ts IH]; simpl; [done|]. rewrite IH.
  destruct pc; simpl; try lia; destruct r as [|[]| |]; simpl; lia.
Qed.

(** C17. The results of the operations are true.  In every reachable state, no more connection
    attempts (dials and accepted requests) have returned [Ok(())] than connections have become active.
    The connections that have been removed are as many as the disconnects that returned [true], those
    whose futures were dropped after they had claimed their connection (they returned nothing, and their
    finalizers removed it) and those that have removed theirs and are about to end; so a disconnect that
    returned [false] removed nothing.  The connections that became active are those still active and
    those removed. *)
Theorem results_truthful c s :
  reachable c s →
  (countb returned_ok (threads s) ≤ countb ev_added (log s))%nat ∧
  countb ev_removed (log s) =
    (countb returned_true (threads s) + countb abandoned (threads s) + countb removing (threads s))%nat ∧
  countb ev_added (log s) = (size (active (connections (node s))) + countb ev_removed (log s))%nat.
Proof.
  intros [H1 H2 _ H3]%reachable_results. pose proof (returned_ok_sum (threads s)).
  rewrite <-returned_true_sum. split_and!; [lia|done|done].
Qed.

Lemma results_truthful_witness :
  countb returned_ok (threads demo_busy) = 1%nat ∧ countb ev_added (log demo_busy) = 1%nat ∧
  countb ev_removed (log demo_busy) = 0%nat ∧
  countb ev_added (log demo_busy) = (size (active (connections (node demo_busy))) + countb ev_removed (log demo_busy))%nat.
Proof.
  destruct (results_truthful demo_config demo_busy demo_busy_reachable) as (_&_&H).
  split; [by vm_compute|]. split; [by vm_compute|]. split; [by vm_compute|exact H].
Defined.
