(* ===== verification/Recovery.v ===== *)
(** * A connection whose task ends is torn down

    The [DisconnectOnDrop] guards of a connection's tasks: when the reader, the processing or the
    writer task of an active connection concludes, or its [OnConnect] hook panics, the connection is
    disconnected. *)

From S2P Require Import Prelude Net Config Stats Connections Node Tasks Ownership Lifecycle Scenario Admission Links Progress Dial.

Open Scope N_scope.

(** The outcomes of a running task that end the connection: any of the tasks that serve it leaves its
    loop, or a hook panicked. *)
Definition fatal (k : TaskKind) (ch : Choice) : bool :=
  match k, ch with
  | _, Served _ _ | HookOnConnect, Go | HookOnDisconnect, _ => false
  | _, _ => true
  end.

Definition guard_origin (k : TaskKind) : DisconnectOrigin :=
  match k with
  | Processing | Reader => OriginReading
  | Writer => OriginWriting
  | HookOnConnect | HookOnDisconnect => OnConnectAbort
  end.

(** What is left of such a task starts with its guard. *)
Lemma fatal_step u ts n k a i ch o :
  thread_step u ts n (TkRun k a i) ch = Some o → fatal k ch = true →
  connections (o_node o) = connections n ∧ o_spawn o = [] ∧ o_effects o = [] ∧
  ∃ ds, o_pc o = Unwind (DDisconnect a i (guard_origin k) :: ds) Dropped.
Proof. intros H Hf. destruct k, ch; try done; step_cases H; split_and!; eauto. Qed.

(** A disconnect of one particular connection that is active and not being disconnected goes
    through. *)
Lemma claim_step_disconnects c s t a o i conn :
  reachable c s → threads s !! t = Some (DsClaim a o (Some i)) →
  active (connections (node s)) !! a = Some conn → id conn = i → disconnecting conn = false →
  leads (λ s', active (connections (node s')) = delete a (active (connections (node s)))) s.
Proof.
  intros Hr Ht Ha Hi Hd.
  set (n' := set_connections (node s) (set_active (connections (node s))
               (<[a := set_disconnecting conn]> (active (connections (node s)))))).
  assert (thread_step t (threads s) (node s) (DsClaim a o (Some i)) Go = next n' (DsHook a i o)) as Hs.
  { simpl. unfold claim_disconnect. by rewrite Ha, Hi, N.eqb_refl, Hd. }
  eapply (leads_step _ s t Go _ _ Ht eq_refl Hs).
  eapply leads_mono; [eapply (claimed_completes c _ a (set_disconnecting conn))|].
  - by eapply apply_out_reachable.
  - apply lookup_insert_eq.
  - done.
  - intros s' ->. simpl. apply delete_insert_eq.
Qed.

(** The guard of an active connection that nobody is disconnecting starts a disconnect of exactly that
    connection, which goes through. *)
Lemma guard_disconnects c s u a i o ds r conn :
  reachable c s → threads s !! u = Some (Unwind (DDisconnect a i o :: ds) r) →
  active (connections (node s)) !! a = Some conn → id conn = i →
  leads (λ s', active (connections (node s')) = delete a (active (connections (node s)))) s.
Proof.
  intros Hr Hu Ha Hi. destruct (disconnecting conn) eqn:Hd; [by eapply claimed_completes|].
  assert (needs_recovery (node s) a i = true) as Hn by (unfold needs_recovery; by rewrite Ha, Hi, N.eqb_refl, Hd).
  assert (thread_step u (threads s) (node s) (Unwind (DDisconnect a i o :: ds) r) Go =
    Some (mkOut (node s) (Unwind ds r) [DsClaim a o (Some i)] [] [])) as Hs by (simpl; by rewrite Hn).
  eapply (leads_step _ s u Go _ _ Hu eq_refl Hs).
  set (s1 := apply_out u _ s). assert (reachable c s1) as Hr1 by (by eapply apply_out_reachable).
  assert (threads s1 !! length (threads s) = Some (DsClaim a o (Some i))) as Ht1.
  { simpl. rewrite lookup_app_r; rewrite length_insert; [|done]. by rewrite Nat.sub_diag. }
  eapply leads_mono; [by eapply (claim_step_disconnects c s1)|done].
Qed.

(** C16. A connection does not outlive the tasks that serve it: when the reader, the processing or the
    writer task of an active connection ends in any way, or its [OnConnect] hook panics, steps of the
    node's own tasks alone remove the connection, leaving the other ones as they are. *)
Theorem task_end_disconnects c s u k a i ch conn s1 :
  reachable c s → threads s !! u = Some (TkRun k a i) → fatal k ch = true →
  active (connections (node s)) !! a = Some conn → id conn = i →
  step (Run u ch) s = Some s1 →
  ∃ ls s', forallb is_run ls = true ∧ run ls s1 = Some s' ∧
    active (connections (node s')) = delete a (active (connections (node s))).
Proof.
  intros Hr Hu Hf Ha Hi H. assert (reachable c s1) as Hr1 by (by eapply reach_step).
  remember (TkRun k a i) as pc eqn:Epc. simpl in H. rewrite Hu in H. simpl in H.
  destruct (thread_step u (threads s) (node s) pc ch) as [o|] eqn:E; [|done]. subst pc.
  destruct (fatal_step _ _ _ _ _ _ _ _ E Hf) as (En&Es&Ee&ds&Ep). simplify_eq/=.
  assert (threads (apply_out u o s) !! u = Some (Unwind (DDisconnect a (id conn) (guard_origin k) :: ds) Dropped)) as Hu1.
  { simpl. rewrite Es, Ee, Ep, app_nil_r. simpl. apply list_lookup_insert_eq. by eapply lookup_lt_Some. }
  destruct (guard_disconnects c _ u a (id conn) _ _ _ conn Hr1 Hu1) as (ls&s'&L&R&_&P); [by simpl; rewrite En|done|].
  exists ls, s'. split_and!; [done..|]. by rewrite P, <-En.
Qed.

(** The run of [Scenario] whose writer task (thread 12) ends with an I/O error. *)
Definition demo_writer_gone : Sys := after (run_enable ++ run_dial ++ run_add ++ [Run 12 Go]).

Lemma task_end_disconnects_witness :
  ∃ ls s', forallb is_run ls = true ∧ run ls demo_writer_gone = Some s' ∧
    active (connections (node s')) = delete (peer 1 4000) (active (connections (node demo_up))).
Proof.
  assert (∃ conn, active (connections (node demo_up)) !! peer 1 4000 = Some conn ∧ id conn = 0)
    as (conn&Ha&Hi) by (vm_compute; eauto).
  assert (step (Run 12 Go) demo_up = Some demo_writer_gone) as Hs by (vm_compute; reflexivity).
  assert (threads demo_up !! 12%nat = Some (TkRun Writer (peer 1 4000) 0)) as Ht by (vm_compute; reflexivity).
  exact (task_end_disconnects demo_config demo_up 12 Writer (peer 1 4000) 0 Go conn demo_writer_gone
           demo_up_reachable Ht eq_refl Ha Hi Hs).
Defined.
