(* ===== verification/History.v ===== *)
(** * The history of a connection

    Each connection instance carries a process-wide unique id.  The log of events shows that its
    life follows one pattern: it is created, it enters the active set at most once, then leaves it
    at most once; in between [OnDisconnect] is triggered at most once, and [OnConnect] is triggered
    at most once after it became active.  The proof counts, for each id, the places that still
    entitle some thread to the next event. *)

From S2P Require Import Prelude Net Config Stats Connections Node Tasks Ownership Lifecycle Scenario Shutdown.

Open Scope N_scope.

(** ** Counting events *)

Definition is_created (g : N) (e : Event) : bool :=
  match e with EvCreated i => i =? g | _ => false end.
Definition is_added (g : N) (e : Event) : bool := match e with EvAdded i => i =? g | _ => false end.
Definition is_removed (g : N) (e : Event) : bool := match e with EvRemoved i => i =? g | _ => false end.
Definition is_on_connect (g : N) (e : Event) : bool :=
  match e with EvOnConnect i | EvSkippedOnConnect i => i =? g | _ => false end.
Definition is_on_disconnect (g : N) (e : Event) : bool :=
  match e with EvOnDisconnect i _ | EvSkippedOnDisconnect i => i =? g | _ => false end.
Definition is_accepted (g : N) (e : Event) : bool :=
  match e with EvOnConnect i | EvOnDisconnect i _ => i =? g | _ => false end.
Definition is_lost (g : N) (e : Event) : bool :=
  match e with EvLostOnConnect i | EvLostOnDisconnect i => i =? g | _ => false end.

Definition created (g : N) := countb (is_created g).
Definition added (g : N) := countb (is_added g).
Definition removed (g : N) := countb (is_removed g).

(** The triggers sent to a handler, whether or not its channel was still open. *)
Definition connected_hook (g : N) := countb (is_on_connect g).
Definition disconnect_hook (g : N) := countb (is_on_disconnect g).

(** The triggers of either kind that a handler has accepted, and those of them it did not live to
    serve. *)
Definition accepted (g : N) := countb (is_accepted g).
Definition lost (g : N) := countb (is_lost g).

(** The ids drawn from [SEQUENTIAL_CONN_ID], newest first. *)
Definition drawn (l : list Event) : list N :=
  omap (λ e, match e with EvCreated i | EvForeignId i => Some i | _ => None end) l.

(** The protocol a log (newest event first) follows: each event is possible only after the events
    that precede it in a connection's life, and only once. *)
Fixpoint history_ok (l : list Event) : bool :=
  match l with
  | [] => true
  | e :: l =>
      history_ok l &&
      match e with
      | EvCreated g | EvForeignId g => bool_decide (g ∉ drawn l)
      | EvAdded g => (created g l =? 1)%nat && (added g l =? 0)%nat
      | EvOnConnect g | EvSkippedOnConnect g => (added g l =? 1)%nat && (connected_hook g l =? 0)%nat
      | EvOnDisconnect g _ | EvSkippedOnDisconnect g =>
          (added g l =? 1)%nat && (removed g l =? 0)%nat && (disconnect_hook g l =? 0)%nat
      | EvRemoved g => (added g l =? 1)%nat && (removed g l =? 0)%nat
      | EvLostOnConnect g | EvLostOnDisconnect g => (lost g l <? accepted g l)%nat
      | EvAssertFailed => false
      end
  end.

(** ** Entitlements *)

(** A connection that may still become active, held by its setup. *)
Definition tok_setup (g : N) (pc : Pc) : nat :=
  match own_conn pc, setup_of pc with
  | Some (_, c), _ => b2n (id c =? g)
  | None, Some (c, _) => b2n (id c =? g)
  | None, None => 0%nat
  end.

(** An answer on its way to the thread that awaits it. *)
Definition tok_reply (g : N) (e : Effect) : nat :=
  match e with EReply _ (Ok c) => b2n (id c =? g) | _ => 0%nat end.

(** A claimed disconnect that has not triggered its hook yet. *)
Definition tok_hook (g : N) (pc : Pc) : nat :=
  match pc with DsHook _ i _ => b2n (i =? g) | _ => 0%nat end.

(** An active connection whose [OnConnect] trigger is due. *)
Definition tok_sched (g : N) (pc : Pc) : nat :=
  match pc with
  | AdGuard _ i _ _ s | AdReady _ i _ _ s | AdSpawn _ i _ s => b2n ((i =? g) && s)
  | ScTrigger _ i => b2n (i =? g)
  | _ => 0%nat
  end.

(** A trigger that was accepted and not served yet. *)
Definition tok_await (g : N) (pc : Pc) : nat :=
  match pc with ScAwait _ i | DsAwait _ i => b2n (i =? g) | _ => 0%nat end.

Definition in_active (g : N) (m : gmap SocketAddr Connection) : nat := map_countb (λ _ c, id c =? g) m.
Definition unclaimed (g : N) (m : gmap SocketAddr Connection) : nat :=
  map_countb (λ _ c, (id c =? g) && negb (disconnecting c)) m.

#[export] Instance tok_setup_passive g : Passive (tok_setup g).
Proof. unfold tok_setup. solve_passive. Qed.
#[export] Instance tok_hook_neutral g : Neutral (tok_hook g).
Proof. solve_neutral. Qed.
#[export] Instance tok_sched_neutral g : Neutral (tok_sched g).
Proof. solve_neutral. Qed.
#[export] Instance tok_await_neutral g : Neutral (tok_await g).
Proof. solve_neutral. Qed.

Lemma tok_after_proto g k a c own : tok_setup g (after_proto k a c own) = b2n (id c =? g).
Proof.
  unfold tok_setup. destruct (after_proto_addr k a c own) as (_&(c'&->&_&_&->)&_). done.
Qed.

Lemma tok_awaiting g k a own : tok_setup g (AdAwait k a own) = 0%nat.
Proof. done. Qed.
Lemma tok_abandon g a r : tok_setup g (abandon a r) = 0%nat.
Proof. done. Qed.

Lemma apply_effect_tok g ts e :
  (sum_list_with (tok_setup g) (apply_effect ts e) ≤ sum_list_with (tok_setup g) ts + tok_reply g e)%nat.
Proof.
  assert (∀ ts ts', tok_setup g <$> ts' = tok_setup g <$> ts →
    sum_list_with (tok_setup g) ts' = sum_list_with (tok_setup g) ts) as Hf.
  { intros ts1 ts2 E. by rewrite (sum_fmap (tok_setup g)), E, <-sum_fmap. }
  destruct e as [t|t|t|t|t r]; simpl.
  - rewrite (Hf ts) by apply (abort_thread_fmap (tok_setup g)). lia.
  - rewrite (Hf ts) by (apply (alter_fmap_same (tok_setup g)), (neutral_stop (tok_setup g))). lia.
  - rewrite (Hf ts) by (apply (alter_fmap_same (tok_setup g)), (neutral_close (tok_setup g))). lia.
  - rewrite (Hf ts) by apply (ready_thread_fmap (tok_setup g)). lia.
  - unfold reply_thread. destruct (ts !! t) as [pc|] eqn:Ht; destruct r as [c|e];
      try (destruct pc; simpl; try lia); try (rewrite (Hf ts) by apply (aborts_fmap (tok_setup g)); lia);
      try lia.
    + pose proof (sum_list_with_insert (tok_setup g) _ _ _ (after_proto k addr c own) Ht) as E.
      rewrite tok_after_proto, tok_awaiting in E. simpl. lia.
    + pose proof (sum_list_with_insert (tok_setup g) _ _ _ (abandon addr (fail e)) Ht) as E.
      rewrite tok_awaiting, tok_abandon in E. lia.
Qed.

Lemma effects_tok g es ts :
  (sum_list_with (tok_setup g) (foldl apply_effect ts es) ≤
   sum_list_with (tok_setup g) ts + sum_list_with (tok_reply g) es)%nat.
Proof.
  revert ts. induction es as [|e es IH]; intros ts; simpl; [lia|].
  specialize (IH (apply_effect ts e)). pose proof (apply_effect_tok g ts e). lia.
Qed.

Lemma apply_out_tok g t o s pc :
  threads s !! t = Some pc →
  (sum_list_with (tok_setup g) (threads (apply_out t o s)) + tok_setup g pc ≤
   sum_list_with (tok_setup g) (threads s) + tok_setup g (o_pc o) +
   sum_list_with (tok_setup g) (o_spawn o) + sum_list_with (tok_reply g) (o_effects o))%nat.
Proof.
  intros Ht. simpl. pose proof (effects_tok g (o_effects o) (<[t:=o_pc o]> (threads s) ++ o_spawn o)) as L.
  rewrite sum_list_with_app in L.
  pose proof (sum_list_with_insert (tok_setup g) _ _ _ (o_pc o) Ht). lia.
Qed.

(** ** Steps *)

Lemma no_reply_sum g (f : nat → Effect) (l : list nat) :
  (∀ t, tok_reply g (f t) = 0%nat) → sum_list_with (tok_reply g) (f <$> l) = 0%nat.
Proof. intros Hf. induction l as [|x l IH]; [done|]. rewrite fmap_cons. simpl. by rewrite Hf, IH. Qed.

Lemma thread_step_tok_setup g t ts n pc ch o :
  thread_step t ts n pc ch = Some o →
  (added g (o_log o) + tok_setup g (o_pc o) + sum_list_with (tok_setup g) (o_spawn o) +
     sum_list_with (tok_reply g) (o_effects o) ≤ tok_setup g pc + created g (o_log o))%nat.
Proof.
  intros H. destruct pc; step_cases H; unfold abort_conn; rewrite ?no_reply_sum, ?sum_fan,
    ?tok_after_proto by done; try (cbn -[N.eqb]; lia).
Qed.

Lemma in_active_update g (m : gmap SocketAddr Connection) a c c' :
  m !! a = Some c → id c' = id c → in_active g (<[a := c']> m) = in_active g m.
Proof. intros Ha Hi. pose proof (map_countb_update (λ _ c, id c =? g) m a c c' Ha) as E. simpl in E. rewrite Hi in E. unfold in_active. lia. Qed.

Lemma unclaimed_update g (m : gmap SocketAddr Connection) a c c' :
  m !! a = Some c → id c' = id c → disconnecting c' = disconnecting c →
  unclaimed g (<[a := c']> m) = unclaimed g m.
Proof.
  intros Ha Hi Hd. pose proof (map_countb_update (λ _ c, (id c =? g) && negb (disconnecting c)) m a c c' Ha) as E.
  simpl in E. rewrite Hi, Hd in E. unfold unclaimed. lia.
Qed.

Lemma unclaimed_claim g (m : gmap SocketAddr Connection) a c :
  m !! a = Some c → disconnecting c = false →
  (unclaimed g (<[a := set_disconnecting c]> m) + b2n (id c =? g)%N = unclaimed g m)%nat.
Proof.
  intros Ha Hd.
  pose proof (map_countb_update (λ _ c, (id c =? g) && negb (disconnecting c)) m a c (set_disconnecting c) Ha) as E.
  simpl in E. rewrite Hd, andb_true_r, andb_false_r in E. simpl in E. unfold unclaimed. lia.
Qed.

(** The active set around a removal. *)
Lemma remove_counts g n a :
  let conn := active (connections n) !! a in
  let n' := (finalizer_remove n a).2 in
  (finalizer_remove n a).1.2 = conn ∧
  (in_active g (active (connections n')) + match conn with Some c => b2n (id c =? g)%N | None => 0 end =
   in_active g (active (connections n)))%nat ∧
  (unclaimed g (active (connections n')) ≤ unclaimed g (active (connections n)))%nat.
Proof.
  destruct (finalizer_remove n a) as [[ok conn] n'] eqn:R.
  apply finalizer_remove_inv in R as (->&E&_). simpl. rewrite E. split; [done|].
  destruct (active (connections n) !! a) as [c|] eqn:Ha.
  - pose proof (map_countb_delete (λ _ c, id c =? g) _ a c Ha) as E1.
    pose proof (map_countb_delete (λ _ c, (id c =? g) && negb (disconnecting c)) _ a c Ha) as E2.
    unfold in_active, unclaimed. simpl in *. lia.
  - rewrite delete_id by done. lia.
Qed.

Record hist_step (g : N) (n : Node) (pc : Pc) (o : Out) : Prop := {
  hs_active : (in_active g (active (connections (o_node o))) + removed g (o_log o) =
    in_active g (active (connections n)) + added g (o_log o))%nat;
  hs_hook : (disconnect_hook g (o_log o) + tok_hook g (o_pc o) + sum_list_with (tok_hook g) (o_spawn o) +
      unclaimed g (active (connections (o_node o))) ≤
    tok_hook g pc + unclaimed g (active (connections n)) + added g (o_log o))%nat;
  hs_sched : (connected_hook g (o_log o) + tok_sched g (o_pc o) + sum_list_with (tok_sched g) (o_spawn o) ≤
    tok_sched g pc + added g (o_log o))%nat;
  hs_await : (lost g (o_log o) + tok_await g (o_pc o) + sum_list_with (tok_await g) (o_spawn o) ≤
    tok_await g pc + accepted g (o_log o))%nat;
}.

(** A step without events that leaves the active set as it is, up to the fields counted here. *)
Lemma hist_step_quiet g n pc o :
  o_log o = [] → in_active g (active (connections (o_node o))) = in_active g (active (connections n)) →
  unclaimed g (active (connections (o_node o))) = unclaimed g (active (connections n)) →
  (tok_hook g (o_pc o) + sum_list_with (tok_hook g) (o_spawn o) ≤ tok_hook g pc)%nat →
  (tok_sched g (o_pc o) + sum_list_with (tok_sched g) (o_spawn o) ≤ tok_sched g pc)%nat →
  (tok_await g (o_pc o) + sum_list_with (tok_await g) (o_spawn o) ≤ tok_await g pc)%nat →
  hist_step g n pc o.
Proof. intros El E1 E2 H1 H2 H3. split; rewrite ?El, ?E1, ?E2; cbn; lia. Qed.

Lemma hist_step_add g c s t a conn own ready sched cs :
  threads s !! t = Some (AdAdd a conn own ready sched) → Inv c s → addr_ok (threads s) →
  add_active (connections (node s)) conn (is_underway (node s)) = Some cs →
  hist_step g (node s) (AdAdd a conn own ready sched)
    (mkOut (set_connections (node s) cs) (AdGuard a (id conn) own ready sched) [] [] [EvAdded (id conn)]).
Proof.
  intros Ht HI Hok [_ ->]%add_active_inv. destruct (add_fresh _ _ _ _ _ _ _ _ HI Hok Ht) as (Ha&Hd&Hf).
  rewrite <-Ha in Hf.
  split; cbn -[N.eqb in_active unclaimed]; unfold in_active, unclaimed;
    rewrite ?map_countb_insert_None by done; simpl; rewrite ?Hd, ?andb_true_r; try lia.
  destruct (id conn =? g), sched; simpl; lia.
Qed.

Lemma hist_step_remove g n a i r ok conn n' pc' lg :
  finalizer_remove n a = (ok, conn, n') → tok_hook g pc' = 0%nat → tok_sched g pc' = 0%nat →
  tok_await g pc' = 0%nat → lost g lg = 0%nat →
  added g lg = 0%nat → disconnect_hook g lg = 0%nat → connected_hook g lg = 0%nat →
  removed g lg = match conn with Some c => b2n (id c =? g) | None => 0%nat end →
  hist_step g n (DsRemove a i r) (mkOut n' pc' [] [] lg).
Proof.
  intros R H1 H2 H7 H8 H3 H4 H5 H6. destruct (remove_counts g n a) as (Hc&E1&E2). rewrite R in Hc, E1, E2.
  simpl in *. subst conn. split; simpl; rewrite ?H1, ?H2, ?H3, ?H4, ?H5, ?H6, ?H7, ?H8; simpl; lia.
Qed.

Lemma hist_step_guard g n a b ok cs ds r lg :
  guard_drop (connections n) a b = (ok, cs) → (lg = [] ∨ lg = [EvAssertFailed]) →
  hist_step g n (Unwind (DGuard a b :: ds) r) (mkOut (set_connections n cs) (Unwind ds r) [] [] lg).
Proof.
  intros R Hl. pose proof (guard_drop_active (connections n) a b) as E. rewrite R in E. simpl in E.
  destruct Hl; subst lg; split; simpl; rewrite ?E; cbn; lia.
Qed.

Lemma thread_step_hist g c s t pc ch o :
  threads s !! t = Some pc → thread_step t (threads s) (node s) pc ch = Some o →
  Inv c s → addr_ok (threads s) → hist_step g (node s) pc o.
Proof.
  intros Ht H HI Hok.
  destruct pc; step_cases H;
    repeat match goal with
    | E : try_acquire _ = Some _ |- _ => apply try_acquire_inv in E as [? ->]
    | E : check_and_reserve _ _ = Ok _ |- _ => apply check_and_reserve_inv in E as (?&?&?&?&?&->)
    | E : attach_task _ _ _ _ = Some _ |- _ => apply attach_task_inv in E as (?&?&?&->)
    end;
    try (apply hist_step_quiet; [done|done|done|cbn -[N.eqb]; try done; lia..]).
  all: try (split; cbn -[N.eqb in_active unclaimed]; lia).
  - destruct k; apply hist_step_quiet; done.
  - by eapply hist_step_add.
  - apply hist_step_quiet; try done. cbn -[N.eqb]. rewrite andb_true_r. lia.
  - apply hist_step_quiet; try done; [by eapply in_active_update|by eapply unclaimed_update].
  - match goal with E : claim_disconnect _ _ _ = Some _ |- _ =>
      apply claim_disconnect_inv in E as (x&Hx&Hd&_&->) end. simplify_eq.
    split; cbn -[N.eqb in_active unclaimed]; [|pose proof (unclaimed_claim g _ _ _ Hx Hd); lia|lia|lia].
    rewrite (in_active_update g _ _ _ (set_disconnecting x)) by done. lia.
  - apply hist_step_quiet; try done; [by eapply in_active_update|by eapply unclaimed_update].
  - apply hist_step_quiet; simpl; rewrite ?finalizer_senders_connections; done.
  - eapply hist_step_remove; [done|cbn -[N.eqb]; lia..].
  - eapply hist_step_remove; [done|cbn -[N.eqb]; lia..].
  - eapply hist_step_remove; [done|cbn -[N.eqb]; lia..].
  - eapply hist_step_remove; [done|cbn -[N.eqb]; lia..].
  - apply hist_step_quiet; try done; simpl; by rewrite sum_fan.
  - eapply hist_step_guard; [done|by auto].
  - eapply hist_step_guard; [done|by auto].
Qed.

(** ** Unique ids *)

(** The ids drawn since the node was created are consecutive modulo [2^64], [i0] first. *)
Definition consecutive (i0 : N) (l : list N) : Prop :=
  ∀ k x, l !! k = Some x → x = (i0 + N.of_nat (length l - 1 - k)) mod u64_max.

Lemma consecutive_cons i0 l x :
  consecutive i0 l → x = (i0 + N.of_nat (length l)) mod u64_max → consecutive i0 (x :: l).
Proof.
  intros Hl -> k y Hk. destruct k as [|k]; simplify_eq/=.
  - do 3 f_equal. lia.
  - rewrite (Hl _ _ Hk). do 3 f_equal. lia.
Qed.

Lemma consecutive_NoDup i0 l : consecutive i0 l → N.of_nat (length l) ≤ u64_max → NoDup l.
Proof.
  intros Hl Hle. apply NoDup_alt. intros i j x Hi Hj.
  pose proof (Hl _ _ Hi) as Ei. pose proof (Hl _ _ Hj) as Ej.
  apply lookup_lt_Some in Hi, Hj. rewrite Ei in Ej.
  remember (length l - 1 - i)%nat as u. remember (length l - 1 - j)%nat as v.
  assert (N.of_nat u = N.of_nat v) as E; [|lia].
  assert (u64_max ≠ 0) by done.
  pose proof (N.div_mod (i0 + N.of_nat u) u64_max) as D1. pose proof (N.div_mod (i0 + N.of_nat v) u64_max) as D2.
  specialize (D1 H). specialize (D2 H). rewrite Ej in D1.
  assert ((i0 + N.of_nat u) / u64_max = (i0 + N.of_nat v) / u64_max); [|nia]. nia.
Qed.

Lemma created_drawn g l : g ∉ drawn l → created g l = 0%nat.
Proof.
  unfold created, drawn. induction l as [|e l IH]; simpl; [done|].
  destruct e; simpl; try exact IH; rewrite ?not_elem_of_cons; intros; destruct_and?.
  - destruct (N.eqb_spec conn_id g); [congruence|]. simpl. by apply IH.
  - by apply IH.
Qed.

Lemma created_once g l : NoDup (drawn l) → (created g l ≤ 1)%nat.
Proof.
  induction l as [|e l IH]; [cbn; lia|]. unfold created, drawn in *.
  destruct e; simpl; try exact IH; rewrite NoDup_cons; intros [Hn Hd].
  - destruct (N.eqb_spec conn_id g); simpl; [|by apply IH].
    subst. pose proof (created_drawn g l Hn). unfold created in *. lia.
  - by apply IH.
Qed.

(** ** The invariant *)

Record HistInv (s : Sys) : Prop := {
  h_setup g : (added g (log s) + sum_list_with (tok_setup g) (threads s) ≤ created g (log s))%nat;
  h_active g : added g (log s) = (removed g (log s) + in_active g (active (connections (node s))))%nat;
  h_hook g : (disconnect_hook g (log s) + sum_list_with (tok_hook g) (threads s) +
    unclaimed g (active (connections (node s))) ≤ added g (log s))%nat;
  h_sched g : (connected_hook g (log s) + sum_list_with (tok_sched g) (threads s) ≤ added g (log s))%nat;
  h_await g : (lost g (log s) + sum_list_with (tok_await g) (threads s) ≤ accepted g (log s))%nat;
  h_drawn : ∃ i0, consecutive i0 (drawn (log s)) ∧
    sequential_conn_id (node s) = (i0 + N.of_nat (length (drawn (log s)))) mod u64_max;
}.

(** What entitles a thread to an event. *)
Definition entitled (n : Node) (pc : Pc) (e : Event) : Prop :=
  match e with
  | EvCreated g => True
  | EvAdded g => tok_setup g pc = 1%nat
  | EvOnConnect g | EvSkippedOnConnect g => tok_sched g pc = 1%nat
  | EvOnDisconnect g _ | EvSkippedOnDisconnect g => tok_hook g pc = 1%nat ∧ ∃ a, claim_of pc = Some (a, g)
  | EvRemoved g => ∃ a conn, active (connections n) !! a = Some conn ∧ id conn = g
  | EvLostOnConnect g | EvLostOnDisconnect g => tok_await g pc = 1%nat
  | EvForeignId _ | EvAssertFailed => False
  end.

Lemma thread_step_event t ts n pc ch o :
  thread_step t ts n pc ch = Some o →
  EvAssertFailed ∉ o_log o → o_log o = [] ∨ ∃ e, o_log o = [e] ∧ entitled n pc e.
Proof.
  intros H Ha. destruct pc; step_cases H; try (by left); try (exfalso; apply Ha; set_solver);
    right; eexists; (split; [done|]); simpl; rewrite ?N.eqb_refl; eauto.
  - unfold tok_setup; simpl. by rewrite N.eqb_refl.
  - match goal with E : finalizer_remove _ _ = _ |- _ => apply finalizer_remove_inv in E as (?&_&_) end. eauto.
Qed.

Lemma thread_step_drawn t ts n pc ch o :
  thread_step t ts n pc ch = Some o →
  (drawn (o_log o) = [] ∧ sequential_conn_id (o_node o) = sequential_conn_id n) ∨
  (drawn (o_log o) = [sequential_conn_id n] ∧
   sequential_conn_id (o_node o) = wrapping_add (sequential_conn_id n) 1).
Proof. intros H. destruct pc; step_cases H; op_inv; auto. Qed.

Lemma drawn_app l1 l2 : drawn (l1 ++ l2) = drawn l1 ++ drawn l2.
Proof. apply omap_app. Qed.

Lemma next_id i0 k : wrapping_add ((i0 + N.of_nat k) mod u64_max) 1 = (i0 + N.of_nat (S k)) mod u64_max.
Proof. unfold wrapping_add. rewrite N.Div0.add_mod_idemp_l. f_equal. lia. Qed.

Lemma hist_inv_run c s t pc ch o :
  threads s !! t = Some pc → thread_step t (threads s) (node s) pc ch = Some o →
  Inv c s → addr_ok (threads s) → HistInv s → HistInv (apply_out t o s).
Proof.
  intros Ht H HI Hok [H1 H2 H3 H4 H7 (i0&H5&H6)]. unfold added, created, removed, disconnect_hook, connected_hook, accepted, lost in *.
  split; simpl log; simpl node; try (intros g; unfold added, created, removed, disconnect_hook, connected_hook, accepted, lost;
    rewrite !countb_app;
    specialize (H1 g); specialize (H2 g); specialize (H3 g); specialize (H4 g); specialize (H7 g);
    pose proof (thread_step_tok_setup g _ _ _ _ _ _ H) as S1;
    destruct (thread_step_hist g _ _ _ _ _ _ Ht H HI Hok) as [S2 S3 S4 S5];
    unfold added, created, removed, disconnect_hook, connected_hook, accepted, lost in *).
  - pose proof (apply_out_tok g t o s pc Ht). lia.
  - lia.
  - pose proof (apply_out_sum (tok_hook g) t o s pc Ht). lia.
  - pose proof (apply_out_sum (tok_sched g) t o s pc Ht). lia.
  - pose proof (apply_out_sum (tok_await g) t o s pc Ht). lia.
  - exists i0. rewrite drawn_app.
    destruct (thread_step_drawn _ _ _ _ _ _ H) as [[-> ->]|[-> ->]]; simpl; [done|].
    split; [by apply consecutive_cons|]. by rewrite H6, next_id.
Qed.

Lemma hist_inv_cancel s t pc o :
  threads s !! t = Some pc → cancel (node s) pc = Some o → HistInv s → HistInv (apply_out t o s).
Proof.
  intros Ht H [H1 H2 H3 H4 H6 H5]. destruct (cancel_conn _ _ _ H) as (_&_&Hn&Hs&_&_&Hl).
  assert (∀ g, tok_setup g (o_pc o) = 0%nat ∧ tok_hook g (o_pc o) = 0%nat ∧ tok_sched g (o_pc o) = 0%nat ∧ tok_await g (o_pc o) = 0%nat ∧
    sum_list_with (tok_reply g) (o_effects o) = 0%nat) as Hz.
  { intros g. clear -H. destruct pc; unfold cancel, next, abandon in H; repeat case_match; simplify_eq/=;
      rewrite ?no_reply_sum; done. }
  split; simpl log; simpl node; rewrite ?Hn, ?Hl; auto; intros g; destruct (Hz g) as (Z1&Z2&Z3&Z5&Z4);
    specialize (H1 g); specialize (H3 g); specialize (H4 g); specialize (H6 g).
  - pose proof (apply_out_tok g t o s pc Ht) as E. rewrite Hs, Z1, Z4 in E. simpl in *. lia.
  - pose proof (apply_out_sum (tok_hook g) t o s pc Ht) as E. rewrite Hs, Z2 in E. simpl in *. lia.
  - pose proof (apply_out_sum (tok_sched g) t o s pc Ht) as E. rewrite Hs, Z3 in E. simpl in *. lia.
  - pose proof (apply_out_sum (tok_await g) t o s pc Ht) as E. rewrite Hs, Z5 in E. simpl in *. lia.
Qed.

Lemma user_pc_tok g pc : user_pc pc = true → tok_setup g pc = 0%nat ∧ tok_hook g pc = 0%nat ∧ tok_sched g pc = 0%nat ∧ tok_await g pc = 0%nat.
Proof. by destruct pc. Qed.

Lemma passive_user_sum (f : Pc → nat) `{!Passive f} ts l ab :
  Forall (λ pc, f pc = 0%nat) l →
  sum_list_with f (foldl (λ ts t, abort_thread t ts) (ts ++ l) ab) = sum_list_with f ts.
Proof.
  intros Hl. rewrite (sum_fmap f), (aborts_fmap f), <-sum_fmap, sum_list_with_app, (sum_idle f l) by done. lia.
Qed.

Lemma hist_inv_user s n' l ab :
  same_core (node s) n' → sequential_conn_id n' = sequential_conn_id (node s) →
  Forall (λ pc, user_pc pc = true) l → HistInv s →
  HistInv (mkSys n' (foldl (λ ts t, abort_thread t ts) (threads s ++ l) ab) (log s)).
Proof.
  intros [_ E2 _ _] Es Hl [H1 H2 H3 H4 H6 H5].
  split; simpl; rewrite ?E2, ?Es; auto; intros g; rewrite passive_user_sum; auto; try typeclasses eauto;
    (eapply Forall_impl; [done|]); by intros pc (?&?&?&?)%(user_pc_tok g).
Qed.

(** An entitled thread's event is the next of its connection's life. *)
Lemma trigger_connect_ok s t pc g :
  threads s !! t = Some pc → HistInv s → (created g (log s) ≤ 1)%nat → tok_sched g pc = 1%nat →
  (added g (log s) =? 1)%nat && (connected_hook g (log s) =? 0)%nat = true.
Proof.
  intros Ht [H1 _ _ H4 _ _] Hone He. specialize (H1 g). specialize (H4 g).
  pose proof (sum_list_with_lookup (tok_sched g) _ _ _ Ht). apply andb_true_intro. rewrite !Nat.eqb_eq. lia.
Qed.

Lemma in_active_pos (m : gmap SocketAddr Connection) a conn :
  m !! a = Some conn → (0 < in_active (id conn) m)%nat.
Proof. intros Ha. eapply map_countb_pos; [done|]. apply N.eqb_refl. Qed.

Lemma trigger_disconnect_ok c s t pc g :
  threads s !! t = Some pc → Inv c s → HistInv s → (created g (log s) ≤ 1)%nat →
  tok_hook g pc = 1%nat ∧ (∃ a, claim_of pc = Some (a, g)) →
  (added g (log s) =? 1)%nat && (removed g (log s) =? 0)%nat && (disconnect_hook g (log s) =? 0)%nat = true.
Proof.
  intros Ht HI [H1 H2 H3 _ _ _] Hone [He [a Hc]]. specialize (H1 g). specialize (H2 g). specialize (H3 g).
  pose proof (sum_list_with_lookup (tok_hook g) _ _ _ Ht).
  destruct (inv_claim_id _ _ _ (inv_conn _ _ HI) _ _ _ _ Ht Hc) as (conn&Ha&<-).
  pose proof (in_active_pos _ _ _ Ha). rewrite !andb_true_iff, !Nat.eqb_eq. lia.
Qed.

Lemma lose_ok s t pc g :
  threads s !! t = Some pc → HistInv s → tok_await g pc = 1%nat → (lost g (log s) <? accepted g (log s))%nat = true.
Proof.
  intros Ht [_ _ _ _ H5 _] He. specialize (H5 g). pose proof (sum_list_with_lookup (tok_await g) _ _ _ Ht).
  apply Nat.ltb_lt. lia.
Qed.

Lemma hist_ok_run c s t pc ch o :
  threads s !! t = Some pc → thread_step t (threads s) (node s) pc ch = Some o →
  Inv c s → addr_ok (threads s) → HistInv s →
  NoDup (drawn (log (apply_out t o s))) → history_ok (log s) = true →
  history_ok (log (apply_out t o s)) = true.
Proof.
  intros Ht H HI Hok HH Hnd Hh. pose proof HH as [H1 H2 _ _ _ _]. simpl in *.
  destruct (thread_step_event _ _ _ _ _ _ H) as [->|(e&E&He)]; [|done|].
  { eapply thread_step_asserts; eauto using inv_conn. }
  rewrite E in Hnd |- *. simpl. rewrite Hh. simpl.
  assert (∀ g, created g (log s) ≤ 1)%nat as Hone.
  { intros g. apply created_once. change (e :: log s) with ([e] ++ log s) in Hnd.
    rewrite drawn_app in Hnd. by apply NoDup_app in Hnd as (_&_&?). }
  destruct e as [g|g|g|g|g|g og| |g|g|g|g]; simpl in *; try done;
    eauto using trigger_connect_ok, trigger_disconnect_ok, lose_ok.
  - apply NoDup_cons in Hnd as [? _]. by apply bool_decide_eq_true_2.
  - specialize (H1 g). pose proof (sum_list_with_lookup (tok_setup g) _ _ _ Ht). specialize (Hone g).
    apply andb_true_intro. rewrite !Nat.eqb_eq. lia.
  - destruct He as (a&conn&Ha&<-). specialize (H1 (id conn)). specialize (H2 (id conn)). specialize (Hone (id conn)).
    pose proof (in_active_pos _ _ _ Ha). apply andb_true_intro. rewrite !Nat.eqb_eq. lia.
Qed.

Lemma reachable_history c s :
  reachable c s →
  HistInv s ∧ (N.of_nat (length (drawn (log s))) ≤ u64_max → history_ok (log s) = true).
Proof.
  induction 1 as [seq_id now conn_id seq_id' n Hid Hn|s l s' Hr [IH Hok] Hs].
  - unfold new_node in Hn. destruct (admit_config seq_id c) as [|[q c']]; simplify_eq/=. split; [|done].
    split; simpl; try done. exists conn_id. split; [done|]. rewrite N.add_0_r. by rewrite N.mod_small.
  - pose proof (reachable_inv _ _ Hr) as HI. pose proof (reachable_addr_ok _ _ Hr) as Ha.
    apply step_inv in Hs as [t pc ch o Ht E|t pc o Ht E|n' l' ab ? ? Hl|].
    + assert (HistInv (apply_out t o s)) as IH' by (by eapply hist_inv_run). split; [done|].
      intros Hlen. destruct (h_drawn _ IH') as (i0&Hc&_).
      eapply hist_ok_run; eauto using consecutive_NoDup. apply Hok.
      simpl in Hlen. rewrite drawn_app, length_app in Hlen. lia.
    + split; [by eapply hist_inv_cancel|]. simpl. by destruct (cancel_conn _ _ _ E) as (_&_&_&_&_&_&->).
    + split; [by apply hist_inv_user|done].
    + destruct IH as [H1 H2 H3 H4 H7 (i0&H5&H6)].
      assert (consecutive i0 (drawn (EvForeignId (sequential_conn_id (node s)) :: log s))) as Hc
        by (by apply consecutive_cons).
      split.
      * split; simpl; auto. exists i0. split; [done|]. by rewrite H6, next_id.
      * simpl log. intros Hlen. pose proof (consecutive_NoDup _ _ Hc Hlen) as Hnd. simpl in Hnd, Hlen |- *.
        apply NoDup_cons in Hnd as [? _]. rewrite Hok by lia. by apply bool_decide_eq_true_2.
Qed.

(** C6. The life of a connection follows one pattern.  In every reachable state (as long as the
    process has drawn at most [2^64] connection ids, after which the counter would wrap) the log is
    well-formed: ids are never drawn twice; a connection becomes active at most once, and only after
    its creation; it is removed at most once, and only while active; [OnDisconnect] is triggered at
    most once, while the connection is active, and [OnConnect] at most once, after it became active
    (counting the triggers sent in vain to a handler that was gone); only a trigger that was accepted can
    be lost with its handler; no debug assertion fails. *)
Theorem connection_history c s :
  reachable c s → N.of_nat (length (drawn (log s))) ≤ u64_max → history_ok (log s) = true.
Proof. intros Hr. apply (reachable_history _ _ Hr). Qed.

Lemma connection_history_witness :
  length (log demo_drained) = 6%nat ∧ history_ok (log demo_drained) = true.
Proof.
  split; [by vm_compute|].
  apply (connection_history demo_config demo_drained demo_drained_reachable). by vm_compute.
Defined.

(** Each id is in the active set as often as it was added and not yet removed; hence, with
    unique ids, exactly the connections whose last lifecycle event is their addition are active. *)
Theorem active_iff_history c s g :
  reachable c s → N.of_nat (length (drawn (log s))) ≤ u64_max →
  (∃ a conn, active (connections (node s)) !! a = Some conn ∧ id conn = g) ↔
  added g (log s) = 1%nat ∧ removed g (log s) = 0%nat.
Proof.
  intros Hr Hlen. destruct (reachable_history _ _ Hr) as [[H1 H2 _ _ _ (i0&H5&_)] _].
  specialize (H1 g). specialize (H2 g).
  pose proof (created_once g _ (consecutive_NoDup _ _ H5 Hlen)) as Hone. split.
  - intros (a&conn&Ha&<-). assert (0 < in_active (id conn) (active (connections (node s))))%nat; [|lia].
    eapply map_countb_pos; [done|]. apply N.eqb_refl.
  - intros [Ha Hrm]. assert (in_active g (active (connections (node s))) ≠ 0%nat) as Hin by lia.
    unfold in_active, map_countb in Hin. apply map_size_non_empty_iff, map_choose in Hin as (a&conn&Hf).
    apply map_lookup_filter_Some in Hf as [? ?%N.eqb_eq]. eauto.
Qed.

Lemma active_iff_history_witness :
  ∃ a conn, active (connections (node demo_up)) !! a = Some conn ∧ id conn = 0.
Proof.
  apply (active_iff_history demo_config demo_up 0 demo_up_reachable); by vm_compute.
Defined.
