(* ===== verification/Races.v ===== *)
(** * Three interleavings the sources do not account for

    A setup task that outlives the dial it belongs to, as a theorem about every reachable state in which
    it meets a newer connection to the same address; and two concrete runs of the transition system,
    evaluated by the kernel. *)

From S2P Require Import Prelude Net Config Stats Connections Node Tasks Scenario Links Progress Shutdown Dial Recovery.

Open Scope N_scope.

(** ** A stale setup task *)

(** The writer task of the connection whose sender is published is fed by it. *)
Lemma fed_by_writer ts n m a j w :
  writing (protocols n) = Some m → m !! a = Some j → ts !! w = Some (TkRun Writer a j) → w ∈ fed_by ts n a.
Proof.
  intros Hm Hj Hw. unfold fed_by. rewrite Hm. simpl. rewrite Hj. apply list_elem_of_omap. exists w. split.
  - apply elem_of_seq. apply lookup_lt_Some in Hw. lia.
  - by rewrite Hw, bool_decide_eq_true_2, N.eqb_refl.
Qed.

(** Closing the channels of some tasks ends the writers among them. *)
Lemma closes_writer l ts w a j :
  w ∈ l → ts !! w = Some (TkRun Writer a j) →
  foldl apply_effect ts (EClose <$> l) !! w = Some (Unwind (task_owned Writer a j) Dropped).
Proof.
  revert ts. induction l as [|t l IH]; intros ts Hin Hw; [by apply not_elem_of_nil in Hin|]. simpl.
  destruct (decide (t = w)) as [->|Hne].
  - apply closes_lookup; [|done]. by rewrite list_lookup_alter, decide_True, Hw.
  - apply IH; [set_solver|]. by rewrite list_lookup_alter_ne.
Qed.

(** C27. A setup task that publishes its sender late takes a newer connection to the same address down.
    Whenever the [Writing] setup task of one connection ([cn]) is about to publish its sender, and
    another connection at that address is active, published and served by its writer task, the step
    replaces the sender of the active connection, so that messages for the address go to the queue of
    [cn] from then on, and closes the channel of the active connection's writer, which leaves its loop;
    the connection, which nobody asked to disconnect, is then removed by steps of the node's own
    tasks alone, the other ones staying as they are. *)
Theorem stale_setup_evicts_successor c s u cn task req m w conn :
  reachable c s → threads s !! u = Some (StWriting1 cn task req) →
  active (connections (node s)) !! conn_addr cn = Some conn →
  writing (protocols (node s)) = Some m → m !! conn_addr cn = Some (id conn) →
  threads s !! w = Some (TkRun Writer (conn_addr cn) (id conn)) →
  ∃ s1, step (Run u Go) s = Some s1 ∧
    writing (protocols (node s1)) = Some (<[conn_addr cn := id cn]> m) ∧
    threads s1 !! w = Some (Unwind (task_owned Writer (conn_addr cn) (id conn)) Dropped) ∧
    active (connections (node s1)) = active (connections (node s)) ∧
    ∃ ls s', forallb is_run ls = true ∧ run ls s1 = Some s' ∧
      active (connections (node s')) = delete (conn_addr cn) (active (connections (node s))).
Proof.
  intros Hr Hu Ha Hm Hj Hw. destruct (adopt_writer (node s) cn task) as [n' c'] eqn:E.
  set (o := mkOut n' (StReply (Ok c') req) [] (EClose <$> fed_by (threads s) (node s) (conn_addr cn)) []).
  assert (thread_step u (threads s) (node s) (StWriting1 cn task req) Go = Some o) as Hs
    by (cbn -[adopt_writer]; by rewrite E).
  assert (step (Run u Go) s = Some (apply_out u o s)) as R by (cbn -[thread_step]; rewrite Hu; cbn -[thread_step]; by rewrite Hs).
  assert (n' = set_senders (node s) (<[conn_addr cn := id cn]> m)) as En by (unfold adopt_writer in E; rewrite Hm in E; congruence).
  assert (threads (apply_out u o s) !! w = Some (Unwind (task_owned Writer (conn_addr cn) (id conn)) Dropped)) as Hw1.
  { cbn -[fed_by]. rewrite app_nil_r. apply closes_writer; [by eapply fed_by_writer|].
    rewrite list_lookup_insert_ne; [done|congruence]. }
  exists (apply_out u o s). split; [done|]. split; [simpl; by rewrite En|]. split; [done|]. split; [simpl; by rewrite En|].
  destruct (guard_disconnects c (apply_out u o s) w (conn_addr cn) (id conn) OriginWriting [DSender (conn_addr cn) (id conn)] Dropped conn)
    as (ls&s'&L&R'&_&P); [by eapply reach_step|done|simpl; by rewrite En|done|].
  exists ls, s'. split_and!; [done|done|]. rewrite P. simpl. by rewrite En.
Qed.

(** A dial (thread 1) is dropped by its caller while its [Writing] setup task (thread 2) waits for
    the writer task (thread 3) to start; a second dial to the same address (thread 4, setup 5,
    writer 6) goes through. *)
Definition run_redial : list Label :=
  [EnableProtocol (EnWriting 64); Connect (peer 1 4000)] ++ steps 5 1 ++ [Run 1 (GotStream 1)] ++ steps 4 1 ++
  steps 1 2 ++ [Cancel 1] ++ steps 3 1 ++
  [Connect (peer 1 4000)] ++ steps 5 4 ++ [Run 4 (GotStream 2)] ++ steps 4 4 ++ steps 3 5 ++ steps 7 4.

Definition demo_redial : Sys := after run_redial.

Lemma demo_redial_reachable : reachable demo_config demo_redial.
Proof. apply after_reachable. vm_compute. eauto. Qed.

(** The connection the stale setup task holds, and the newer one. *)
Definition stale_conn : Connection :=
  match threads demo_redial !! 2%nat with Some (StWriting1 c _ _) => c | _ => new_connection 0 (peer 1 4000) 0 Initiator end.
Definition newer_conn : Connection :=
  default stale_conn (active (connections (node demo_redial)) !! peer 1 4000).
Definition newer_senders : gmap SocketAddr N := default ∅ (writing (protocols (node demo_redial))).

Lemma demo_redial_stale :
  threads demo_redial !! 2%nat = Some (StWriting1 stale_conn 3 1) ∧
  active (connections (node demo_redial)) !! conn_addr stale_conn = Some newer_conn.
Proof. split; vm_compute; reflexivity. Qed.

Lemma demo_redial_newer :
  writing (protocols (node demo_redial)) = Some newer_senders ∧
  newer_senders !! conn_addr stale_conn = Some (id newer_conn) ∧
  threads demo_redial !! 6%nat = Some (TkRun Writer (conn_addr stale_conn) (id newer_conn)).
Proof. split; [|split]; vm_compute; reflexivity. Qed.

Lemma stale_setup_evicts_successor_witness :
  ∃ s1 ls s', step (Run 2 Go) demo_redial = Some s1 ∧ forallb is_run ls = true ∧ run ls s1 = Some s' ∧
    active (connections (node s')) = delete (conn_addr stale_conn) (active (connections (node demo_redial))).
Proof.
  destruct demo_redial_stale as [Hu Ha]. destruct demo_redial_newer as (Hm&Hj&Hw).
  destruct (stale_setup_evicts_successor demo_config demo_redial 2 stale_conn 3 1 newer_senders 6 newer_conn
    demo_redial_reachable Hu Ha Hm Hj Hw) as (s1&R1&_&_&_&ls&s'&L&R&P).
  exists s1, ls, s'. split; [exact R1|]. split; [exact L|]. split; [exact R|exact P].
Defined.

(** ** Two concrete runs *)

(** With [OnConnect] enabled (thread 0), a dial (thread 1) is about to account for its scheduling
    when a shutdown (thread 2) has already seen the active set drained. *)
Definition run_doomed : list Label :=
  [EnableProtocol (EnOnConnect true); Connect (peer 1 4000)] ++ steps 5 1 ++ [Run 1 (GotStream 1)] ++
  steps 4 1 ++ [ShutDown] ++ steps 6 2.

(** The number of scheduling tasks in flight can still rise after the drain of the active set: a
    setup that [Connections::add] is about to refuse creates its [SchedulingGuard] first. *)
Theorem sched_count_can_rise :
  ∃ s s', run run_doomed (init_sys demo_node) = Some s ∧
    (∃ pc, threads s !! 2%nat = Some pc ∧ past_drain pc = true) ∧
    step (Run 1 Go) s = Some s' ∧
    sched_in_flight (shutdown (node s)) = 0 ∧ sched_in_flight (shutdown (node s')) = 1.
Proof.
  destruct (run run_doomed (init_sys demo_node)) as [s|] eqn:E; [|by vm_compute in E].
  exists s. vm_compute in E. injection E as <-. eexists. split; [done|].
  split; [eexists; by split|]. by repeat split.
Qed.

(** With only [Writing] enabled, the writer task (thread 3) of a dial (thread 1) ends, on a message
    queued as soon as its sender was published, before [Connections::add] is reached: thread 2 is the
    setup task that has published the sender. *)
Definition run_early : list Label :=
  [EnableProtocol (EnWriting 64); Connect (peer 1 4000)] ++ steps 5 1 ++ [Run 1 (GotStream 1)] ++ steps 4 1 ++
  steps 2 2.

Definition run_early_death : list Label := run_early ++ steps 4 3 ++ steps 1 2 ++ steps 7 1.

(** The guard of a task that ends before its connection is active finds nothing to disconnect, and
    nobody looks again: the connection then becomes active, is not being disconnected, and has neither
    a writer task nor an entry in the senders map; all other threads have ended as well. *)
Theorem early_writer_death_unnoticed :
  (∃ s, run run_early (init_sys demo_node) = Some s ∧
     threads s !! 3%nat = Some (TkRun Writer (peer 1 4000) 0) ∧
     active (connections (node s)) = ∅ ∧
     (default ∅ (writing (protocols (node s)))) !! peer 1 4000 = Some 0) ∧
  (∃ s conn, run run_early_death (init_sys demo_node) = Some s ∧
     active (connections (node s)) !! peer 1 4000 = Some conn ∧
     disconnecting conn = false ∧ tasks conn = [3]%nat ∧
     writing (protocols (node s)) = Some ∅ ∧
     threads s = [TkHandler TaskWriting; Done (RetIo (Ok tt)); Done Dropped; Done Dropped]).
Proof.
  split.
  - destruct (run run_early (init_sys demo_node)) as [s|] eqn:E; [|by vm_compute in E].
    exists s. vm_compute in E. injection E as <-. by repeat split.
  - destruct (run run_early_death (init_sys demo_node)) as [s|] eqn:E; [|by vm_compute in E].
    exists s. vm_compute in E. injection E as <-. eexists. by repeat split.
Qed.
