(* ===== verification/Handlers.v ===== *)
(** * Protocol handler tasks ([pea2pea/src/protocols/mod.rs], [handshake.rs])

    Each enabled protocol has a long-running task that serves requests from a bounded channel:
    [run_setup_handler_loop] for [Handshake], [Reading] and [Writing], [run_hook_handler_loop] for
    [OnConnect] and [OnDisconnect].  On the shutdown signal a loop closes its channel and drains it.
    The channel is modelled with sends that are under way, because a closed channel still accepts
    the messages of senders that had obtained their slot before. *)

From S2P Require Import Prelude Net Stats Connections Node Tasks.

Open Scope nat_scope.

(** ** The handler loops *)

Section handler.
Context {Req : Type}.
(** Whether this is a loop of the hook-oriented protocols (else of the setup-oriented ones), and the
    capacity of its channel. *)
Context (hook : bool) (capacity : nat).

(** [mid_send] are the requests whose sender owns a slot but has not written it yet, [queue] the
    written ones; [spawned] were handed to [spawn_setup] or [process], [failed] were dropped unserved
    by the draining setup loop, [refused] found the channel closed; [stranded] were in the channel, or
    entered it, when the task was aborted, and are dropped with it; [written] is the order in which
    requests entered the channel. *)
Record Handler := mkHandler {
  mid_send : list Req;
  queue : list Req;
  closed : bool;
  draining : bool;
  finished : bool;
  aborted : bool;
  spawned : list Req;
  failed : list Req;
  refused : list Req;
  stranded : list Req;
  written : list Req;
}.

Definition handler_init : Handler := mkHandler [] [] false false false false [] [] [] [] [].

(** A sender obtains a slot (or is refused), a sender writes its request, the loop's [select!] takes
    its [recv] branch, or its shutdown branch; or the task is aborted (by a [shut_down] that is dropped,
    or whose drain timed out), which drops the receiver. *)
Inductive HandlerEvent :=
| Acquire (r : Req)
| WriteSlot (k : nat)
| Recv
| ShutdownSignal
| HardAbort.

(** [recv] on a closed channel resolves to [None] only once no slot is taken any more. *)
Definition recv_none (h : Handler) : bool :=
  closed h && bool_decide (queue h = []) && bool_decide (mid_send h = []).

(** One event; [None] if it cannot happen.  The [select!] is biased: the shutdown branch is taken
    only while [recv] is pending. *)
Definition handler_step (h : Handler) (ev : HandlerEvent) : option Handler :=
  match ev with
  | Acquire r =>
      if closed h then
        Some (mkHandler (mid_send h) (queue h) (closed h) (draining h) (finished h) (aborted h) (spawned h) (failed h)
                (refused h ++ [r]) (stranded h) (written h))
      else if length (mid_send h) + length (queue h) <? capacity then
        Some (mkHandler (mid_send h ++ [r]) (queue h) (closed h) (draining h) (finished h) (aborted h) (spawned h)
                (failed h) (refused h) (stranded h) (written h))
      else None
  | WriteSlot k =>
      match mid_send h !! k with
      | Some r =>
          if aborted h then
            Some (mkHandler (delete k (mid_send h)) (queue h) (closed h) (draining h) (finished h) (aborted h)
                    (spawned h) (failed h) (refused h) (stranded h ++ [r]) (written h ++ [r]))
          else
            Some (mkHandler (delete k (mid_send h)) (queue h ++ [r]) (closed h) (draining h) (finished h) (aborted h)
                    (spawned h) (failed h) (refused h) (stranded h) (written h ++ [r]))
      | None => None
      end
  | Recv =>
      if finished h then None
      else match queue h with
           | r :: q =>
               if draining h && negb hook then
                 Some (mkHandler (mid_send h) q (closed h) (draining h) false (aborted h) (spawned h) (failed h ++ [r])
                         (refused h) (stranded h) (written h))
               else
                 Some (mkHandler (mid_send h) q (closed h) (draining h) false (aborted h) (spawned h ++ [r]) (failed h)
                         (refused h) (stranded h) (written h))
           | [] =>
               if recv_none h then
                 Some (mkHandler (mid_send h) [] (closed h) (draining h) true (aborted h) (spawned h) (failed h)
                         (refused h) (stranded h) (written h))
               else None
           end
  | ShutdownSignal =>
      if negb (finished h) && negb (draining h) && bool_decide (queue h = []) then
        Some (mkHandler (mid_send h) (queue h) true true false (aborted h) (spawned h) (failed h) (refused h)
                (stranded h) (written h))
      else None
  | HardAbort =>
      if finished h then None
      else Some (mkHandler (mid_send h) [] true (draining h) true true (spawned h) (failed h) (refused h)
                   (stranded h ++ queue h) (written h))
  end.

Fixpoint handler_run (h : Handler) (evs : list HandlerEvent) : option Handler :=
  match evs with
  | [] => Some h
  | ev :: evs => h ← handler_step h ev; handler_run h evs
  end.

Record HandlerInv (h : Handler) : Prop := {
  hi_written : written h = spawned h ++ failed h ++ queue h ++ stranded h;
  hi_closed : closed h = draining h || aborted h;
  hi_failed : failed h ≠ [] → draining h = true ∧ hook = false;
  hi_finished : finished h = true → aborted h = false → draining h = true ∧ queue h = [] ∧ mid_send h = [];
  hi_aborted : aborted h = true → finished h = true ∧ queue h = [];
  hi_stranded : stranded h ≠ [] → aborted h = true;
  hi_bound : length (mid_send h) + length (queue h) ≤ capacity;
}.

Lemma unstranded h : HandlerInv h → aborted h = false → stranded h = [].
Proof. intros [_ _ _ _ _ H6 _] Ha. destruct (stranded h); [done|]. by rewrite H6 in Ha. Qed.

Lemma unaborted h : HandlerInv h → finished h = false → aborted h = false.
Proof.
  intros [_ _ _ _ H5 _ _] Hf. destruct (aborted h); [|done]. destruct H5 as [? _]; [done|]. congruence.
Qed.

Lemma inv_acquire h r h' : handler_step h (Acquire r) = Some h' → HandlerInv h → HandlerInv h'.
Proof.
  simpl. intros E [H1 H2 H3 H4 H5 H6 H7]. destruct (closed h) eqn:Ec; [by simplify_eq; split|].
  destruct (Nat.ltb_spec (length (mid_send h) + length (queue h)) capacity); simplify_eq.
  split; simpl; auto; [|rewrite length_app; simpl; lia].
  intros Hf Ha. destruct (H4 Hf Ha) as [Hd _]. by rewrite Hd in H2.
Qed.

Lemma inv_write h k h' : handler_step h (WriteSlot k) = Some h' → HandlerInv h → HandlerInv h'.
Proof.
  simpl. intros E Hi. pose proof (unstranded h Hi) as Hs. destruct Hi as [H1 H2 H3 H4 H5 H6 H7].
  destruct (mid_send h !! k) as [r|] eqn:Ek; [|done].
  pose proof (length_delete (mid_send h) k (mk_is_Some _ _ Ek)) as L. pose proof (lookup_lt_Some _ _ _ Ek).
  destruct (aborted h) eqn:Ea; simplify_eq; split; simpl; auto; rewrite ?Ea in *; try done.
  - by rewrite H1, <-!app_assoc.
  - lia.
  - by rewrite H1, Hs, !app_nil_r, <-!app_assoc.
  - intros Hf _. destruct (H4 Hf eq_refl) as (_&_&Hm). by rewrite Hm in Ek.
  - rewrite length_app. simpl. lia.
Qed.

Lemma inv_recv h h' : handler_step h Recv = Some h' → HandlerInv h → HandlerInv h'.
Proof.
  cbn [handler_step]. intros E Hi. destruct (finished h) eqn:Ef; [done|].
  pose proof (unaborted h Hi Ef) as Ha. pose proof (unstranded h Hi Ha) as Hs.
  destruct Hi as [H1 H2 H3 H4 H5 H6 H7]. rewrite Ha, orb_false_r in H2. destruct (queue h) as [|r q] eqn:Eq.
  - destruct (recv_none h) eqn:En; simplify_eq. unfold recv_none in En.
    apply andb_prop in En as [[Ec _]%andb_prop Em]. apply bool_decide_eq_true in Em.
    split; simpl; rewrite ?Ha, ?orb_false_r in *; auto; try done. intros _ _. by rewrite <-H2.
  - simpl in H7. destruct (draining h && negb hook) eqn:Ed; simplify_eq.
    + apply andb_prop in Ed as [Ed Eh].
      split; simpl; rewrite ?Ha, ?orb_false_r in *; auto; try done; [by rewrite H1, <-!app_assoc| |lia].
      intros _. split; [done|by destruct hook].
    + assert (failed h = []) as Hf.
      { destruct (failed h); [done|]. destruct H3 as [Hd ->]; [done|]. by rewrite Hd in Ed. }
      split; simpl; rewrite ?Ha, ?orb_false_r in *; auto; try done; [by rewrite H1, Hf, <-!app_assoc|lia].
Qed.

Lemma handler_step_inv h ev h' : handler_step h ev = Some h' → HandlerInv h → HandlerInv h'.
Proof.
  destruct ev as [r|k| | |]; [apply inv_acquire|apply inv_write|apply inv_recv| |]; simpl; intros E Hi.
  - destruct (finished h) eqn:Ef, (draining h) eqn:Ed, (bool_decide _) eqn:Eq; simplify_eq/=.
    pose proof (unaborted h Hi Ef) as Ha. destruct Hi as [H1 H2 H3 H4 H5 H6 H7].
    split; simpl; rewrite ?Ha in *; auto; try done. intros Hf. by destruct (H3 Hf).
  - destruct (finished h) eqn:Ef; simplify_eq. pose proof (unstranded h Hi (unaborted h Hi Ef)) as Hs.
    destruct Hi as [H1 H2 H3 H4 H5 H6 H7]. split; simpl; rewrite ?orb_true_r; auto; try done; [|lia].
    by rewrite H1, Hs, app_nil_r.
Qed.

Lemma handler_init_inv : HandlerInv handler_init.
Proof. split; simpl; try done. lia. Qed.

Lemma handler_run_inv h evs h' : handler_run h evs = Some h' → HandlerInv h → HandlerInv h'.
Proof.
  revert h. induction evs as [|ev evs IH]; intros h E Hi; simplify_eq/=; [done|].
  destruct (handler_step h ev) eqn:Es; simplify_eq/=. by eapply IH, handler_step_inv.
Qed.

(** A task is aborted only by [HardAbort]. *)
Lemma handler_run_aborted h evs h' :
  handler_run h evs = Some h' → HardAbort ∉ evs → aborted h' = aborted h.
Proof.
  revert h. induction evs as [|ev evs IH]; intros h E Hn; simplify_eq/=; [done|].
  destruct (handler_step h ev) as [h1|] eqn:Es; simplify_eq/=. rewrite (IH h1) by set_solver.
  destruct ev; simpl in Es; repeat case_match; simplify_eq/=; try done. set_solver.
Qed.
End handler.
Arguments Handler : clear implicits.
Arguments HandlerEvent : clear implicits.
Arguments HardAbort {Req}.

Section drain.
Context {Req : Type} (hook : bool) (capacity : nat).
Implicit Types (h : Handler Req).

(** What remains to be served by a draining loop, in the order in which it would be. *)
Definition backlog (h : Handler Req) : list Req := queue h ++ mid_send h.

(** What a draining loop has done with the requests of [l]: a hook loop has served them, a setup loop
    has failed them. *)
Definition drained (h h' : Handler Req) (l : list Req) : Prop :=
  spawned h' = spawned h ++ (if hook then l else []) ∧ failed h' = failed h ++ (if hook then [] else l).

Lemma drained_app h h1 h2 l1 l2 : drained h h1 l1 → drained h1 h2 l2 → drained h h2 (l1 ++ l2).
Proof. intros [S1 F1] [S2 F2]. split; rewrite ?S2, ?F2, ?S1, ?F1, <-?app_assoc; by destruct hook. Qed.

Lemma handler_run_cons h ev evs h1 :
  handler_step hook capacity h ev = Some h1 →
  handler_run hook capacity h (ev :: evs) = handler_run hook capacity h1 evs.
Proof. cbn [handler_run]. by intros ->. Qed.

(** The loop takes a queued request. *)
Lemma drain_recv h r q :
  draining h = true → finished h = false → queue h = r :: q →
  ∃ h', handler_step hook capacity h Recv = Some h' ∧ draining h' = true ∧ finished h' = false ∧
    backlog h' = q ++ mid_send h ∧ drained h h' [r].
Proof.
  intros Hd Hf Eq. cbn [handler_step]. rewrite Hf, Eq, Hd.
  unfold drained, backlog. destruct hook; simpl; eexists; (split; [reflexivity|]); simpl; by rewrite ?app_nil_r.
Qed.

Lemma drain_step h :
  HandlerInv hook capacity h → draining h = true → finished h = false →
  (backlog h = [] ∧ ∃ h', handler_run hook capacity h [Recv] = Some h' ∧ finished h' = true ∧ drained h h' []) ∨
  (∃ r rest evs h', backlog h = r :: rest ∧ (HardAbort ∉ evs) ∧ handler_run hook capacity h evs = Some h' ∧
     HandlerInv hook capacity h' ∧ draining h' = true ∧ finished h' = false ∧ backlog h' = rest ∧ drained h h' [r]).
Proof.
  intros Hinv Hd Hf. pose proof (unaborted _ _ _ Hinv Hf) as Ha. destruct (queue h) as [|r q] eqn:Eq.
  - destruct (mid_send h) as [|r m] eqn:Em; [left|right].
    + unfold backlog, drained. split; [by rewrite Eq, Em|]. eexists. split.
      * cbn [handler_run handler_step]. rewrite Hf, Eq. unfold recv_none. rewrite Eq, Em, (hi_closed _ _ _ Hinv), Hd.
        reflexivity.
      * destruct hook; simpl; by rewrite !app_nil_r.
    + set (h1 := mkHandler m [r] (closed h) (draining h) (finished h) (aborted h) (spawned h) (failed h) (refused h)
                   (stranded h) (written h ++ [r])).
      assert (handler_step hook capacity h (WriteSlot 0) = Some h1) as E1 by (unfold h1; simpl; by rewrite Em, Ha, Eq).
      pose proof (handler_step_inv _ _ _ _ _ E1 Hinv) as Hinv1.
      destruct (drain_recv h1 r [] Hd Hf eq_refl) as (h'&E2&Hd'&Hf'&Hb'&HD).
      exists r, m, [WriteSlot 0; Recv], h'. rewrite (handler_run_cons _ _ _ _ E1), (handler_run_cons _ _ _ _ E2).
      split; [unfold backlog; by rewrite Eq, Em|]. split; [set_solver|]. split; [done|].
      split; [by eapply handler_step_inv|]. by split_and!.
  - right. destruct (drain_recv h r q Hd Hf Eq) as (h'&E&Hd'&Hf'&Hb'&HD).
    exists r, (q ++ mid_send h), [Recv], h'. rewrite (handler_run_cons _ _ _ _ E).
    split; [unfold backlog; by rewrite Eq|]. split; [set_solver|]. split; [done|].
    split; [by eapply handler_step_inv|]. by split_and!.
Qed.

Lemma handler_run_app h evs1 evs2 :
  handler_run hook capacity h (evs1 ++ evs2) = h' ← handler_run hook capacity h evs1; handler_run hook capacity h' evs2.
Proof.
  revert h. induction evs1 as [|ev evs IH]; intros h; simpl; [done|].
  destruct (handler_step hook capacity h ev); simpl; [apply IH|done].
Qed.

Lemma drain_finishes l h :
  backlog h = l → HandlerInv hook capacity h → draining h = true → finished h = false →
  ∃ evs h', (HardAbort ∉ evs) ∧ handler_run hook capacity h evs = Some h' ∧ finished h' = true ∧ drained h h' l.
Proof.
  revert h. induction l as [|r l IH]; intros h Hb Hinv Hd Hf;
    destruct (drain_step h Hinv Hd Hf) as [(Hb0&h'&E&Hf'&HD)|(r'&rest&evs&h'&Hb'&Hn&E&Hinv'&Hd'&Hf'&Hr&HD)];
    rewrite Hb in *; simplify_eq.
  - exists [Recv], h'. split; [set_solver|]. done.
  - destruct (IH h' eq_refl Hinv' Hd' Hf') as (evs2&h2&Hn2&E2&Hf2&HD2).
    exists (evs ++ evs2), h2. rewrite handler_run_app, E. split; [set_solver|]. split_and!; [done|done|].
    exact (drained_app _ _ _ _ _ HD HD2).
Qed.
End drain.

(** C22. The handler loops strand nothing, unless they are aborted.  Whatever the interleaving of
    senders, the loop, the shutdown signal and an abort of the task, the requests that entered the channel
    have been served, failed, are still queued, or were in the channel of an aborted task, in order; only
    a draining setup loop fails requests, a hook loop never does.  Without an abort nothing is stranded,
    and when a loop has ended, no request is left in the channel, not even one whose sender was still
    writing it when the channel was closed. *)
Theorem handlers_strand_nothing {Req} hook capacity evs (h : Handler Req) :
  handler_run hook capacity handler_init evs = Some h →
  written h = spawned h ++ failed h ++ queue h ++ stranded h ∧
  (failed h ≠ [] → draining h = true ∧ hook = false) ∧
  ((HardAbort ∉ evs) → written h = spawned h ++ failed h ++ queue h ∧
     (finished h = true → backlog h = [] ∧ written h = spawned h ++ failed h)).
Proof.
  intros E. pose proof (handler_run_inv _ _ _ _ _ E (handler_init_inv _ _)) as Hi.
  pose proof (unstranded _ _ _ Hi) as Hs. destruct Hi as [H1 _ H3 H4 _ _ _].
  split_and!; [done|done|]. intros Hn. pose proof (handler_run_aborted _ _ _ _ _ E Hn) as Ha. simpl in Ha.
  rewrite (Hs Ha), app_nil_r in H1. split; [done|]. intros Hf. destruct (H4 Hf Ha) as (_&Hq&Hm). unfold backlog.
  split; [by rewrite Hq, Hm|]. by rewrite H1, Hq, app_nil_r.
Qed.

Lemma handlers_strand_nothing_witness :
  ∃ h, handler_run true 3 handler_init [Acquire 1; Acquire 2; WriteSlot 1; Recv; ShutdownSignal; Acquire 9; WriteSlot 0; Recv; Recv]
      = Some h ∧ spawned h = [2; 1] ∧ backlog h = [].
Proof.
  destruct (handler_run true 3 handler_init
    [Acquire 1; Acquire 2; WriteSlot 1; Recv; ShutdownSignal; Acquire 9; WriteSlot 0; Recv; Recv]) as [h|] eqn:E;
    [|by vm_compute in E].
  exists h. destruct (handlers_strand_nothing _ _ _ _ E) as (_&_&H3).
  destruct H3 as [_ H3].
  { intros Hin. repeat (apply elem_of_cons in Hin as [?|Hin]; [done|]). by apply not_elem_of_nil in Hin. }
  vm_compute in E. injection E as <-. split; [done|]. split; [done|]. by apply H3.
Defined.

(** C23. A drain comes to an end, and completes the work: once a loop has seen the shutdown signal, it
    can always run to its end without being aborted; a hook loop has then served, and a setup loop has
    failed and not served, every request that was queued or whose sender still owned a slot, in order
    and exactly once. *)
Theorem handler_drain_completes {Req} hook capacity evs (h : Handler Req) :
  handler_run hook capacity handler_init evs = Some h → draining h = true → finished h = false →
  ∃ evs' h', (HardAbort ∉ evs') ∧ handler_run hook capacity h evs' = Some h' ∧ finished h' = true ∧
    if hook then spawned h' = spawned h ++ backlog h ∧ failed h' = failed h
    else spawned h' = spawned h ∧ failed h' = failed h ++ backlog h.
Proof.
  intros E Hd Hf. destruct (drain_finishes hook capacity (backlog h) h eq_refl) as (evs'&h'&Hn&R&Hf'&[HS HF]); auto.
  { eapply handler_run_inv; [exact E|apply handler_init_inv]. }
  exists evs', h'. split_and!; [done..|]. destruct hook; by rewrite app_nil_r in *.
Qed.

Lemma handler_drain_completes_witness :
  ∃ evs' h', handler_run false 2 (mkHandler [1; 2] [] true true false false [] [] [] [] []) evs' = Some h' ∧
    spawned h' = [] ∧ failed h' = [1; 2].
Proof.
  destruct (handler_drain_completes false 2 [Acquire 1; Acquire 2; ShutdownSignal]
    (mkHandler [1; 2] [] true true false false [] [] [] [] [])) as (evs'&h'&_&E&_&Hs); [done|done|done|].
  exists evs', h'. split; [exact E|]. exact Hs.
Defined.

(** ** Streams during a handshake *)

(** What an implementation of [Handshake::perform_handshake] may do with the connection's stream. *)
Inductive StreamOp := Borrow | Take | Return (sock : N).

(** [Handshake::borrow_stream], [take_stream] and [return_stream]; [None] is the panic of [expect]. *)
Definition stream_op (c : Connection) (op : StreamOp) : option Connection :=
  match op with
  | Borrow => match stream c with Some _ => Some c | None => None end
  | Take => match stream c with Some _ => Some (with_halves c None (reader c) (writer c)) | None => None end
  | Return s => Some (with_halves c (stream c) (Some s) (Some s))
  end.

Fixpoint stream_ops (c : Connection) (ops : list StreamOp) : option Connection :=
  match ops with
  | [] => Some c
  | op :: ops => c ← stream_op c op; stream_ops c ops
  end.

(** Every [take_stream] is followed by a [return_stream]. *)
Fixpoint returned (taken : bool) (ops : list StreamOp) : bool :=
  match ops with
  | [] => negb taken
  | Take :: ops => returned true ops
  | Return _ :: ops => returned false ops
  | Borrow :: ops => returned taken ops
  end.

Lemma stream_ops_halves ops c c' taken :
  stream_ops c ops = Some c' → returned taken ops = true →
  (taken = true ∨ is_Some (stream c) ∨ is_Some (reader c) ∧ is_Some (writer c)) →
  is_Some (stream c') ∨ is_Some (reader c') ∧ is_Some (writer c').
Proof.
  revert c taken. induction ops as [|op ops IH]; intros c taken E Hr Hor; simplify_eq/=.
  - destruct taken; [done|]. by destruct Hor as [?|?].
  - destruct op; simpl in E.
    + destruct (stream c) eqn:Es; simplify_eq/=. eapply IH; [done|done|]. rewrite Es. destruct Hor as [?|?]; eauto.
    + destruct (stream c) eqn:Es; simplify_eq/=. eapply IH; [done|done|]. by left.
    + eapply IH; [done|done|]. right; right. simpl. eauto.
Qed.

(** A handshake that plays by the rules hands a usable connection on: if its implementation does
    not panic and follows every [take_stream] with a [return_stream], then after
    [Node::enable_protocols] has split the stream both halves are there for [Reading] and [Writing],
    which therefore never report that the stream was not returned. *)
Theorem handshake_returns_stream i a sock side ops c :
  stream_ops (new_connection i a sock side) ops = Some c → returned false ops = true →
  is_Some (reader (split_stream c)) ∧ is_Some (writer (split_stream c)) ∧ stream (split_stream c) = None ∧
  id (split_stream c) = i ∧ conn_addr (split_stream c) = a.
Proof.
  intros E Hr.
  assert (id c = i ∧ conn_addr c = a) as [Hid Ha].
  { clear Hr. assert (∀ ops c c', stream_ops c ops = Some c' → id c' = id c ∧ info c' = info c) as H.
    { clear. induction ops as [|op ops IH]; intros c c' E; simplify_eq/=; [done|].
      destruct op; simpl in E; try destruct (stream c); simplify_eq/=; apply IH in E as [-> ->]; done. }
    destruct (H _ _ _ E) as [-> Hi]. unfold conn_addr. by rewrite Hi. }
  pose proof (stream_ops_halves _ _ _ _ E Hr ltac:(simpl; eauto)) as Hh.
  unfold split_stream. destruct (stream c) as [x|] eqn:Es; simpl.
  - split_and!; eauto.
  - destruct Hh as [[? ?]|[? ?]]; [done|]. split_and!; done.
Qed.

Lemma handshake_returns_stream_witness :
  ∃ c, stream_ops (new_connection 4 (SockV4 1 2) 7 Initiator) [Borrow; Take; Return 8] = Some c ∧
    is_Some (reader (split_stream c)).
Proof.
  eexists. split; [reflexivity|].
  eapply (handshake_returns_stream 4 (SockV4 1 2) 7 Initiator [Borrow; Take; Return 8]); reflexivity.
Defined.
