(* ===== verification/Reading.v ===== *)
(** * Receiving messages ([pea2pea/src/protocols/reading.rs])

    The [CountingCodec] that wraps the user's decoder, and the reader and processing tasks with the
    bounded queue between them.  The user's decoder is a parameter. *)

From S2P Require Import Prelude Net Stats.

Open Scope nat_scope.

(** A sublist of full length is the list itself. *)
Lemma sublist_full {A} (l k : list A) : l `sublist_of` k → length k ≤ length l → l = k.
Proof.
  induction 1 as [|x l k Hs IH|x l k Hs IH]; simpl; intros Hl; [done|f_equal; apply IH; lia|].
  apply sublist_length in Hs. lia.
Qed.

(** ** The counting decoder *)

Section counting.
Context {D Item : Type}.

(** A call of a [Decoder]: [true] is [decode_eof].  The result, the decoder and the buffer after
    the call. *)
Definition Decode (D Item : Type) : Type := bool → D → list N → IoResult (option Item) * D * list N.

(** The user's decoder. *)
Context (inner : Decode D Item).

(** [CountingCodec]; the statistics of the connection and of the node it registers with. *)
Record CountingCodec := mkCountingCodec {
  codec : D;
  cc_stats : Stats;
  cc_node_stats : Stats;
  acc : nat;
}.

(** [CountingCodec::account]. *)
Definition account (c : CountingCodec) (initial_len final_len : nat) (produced : bool) : CountingCodec :=
  let consumed := initial_len - final_len in
  let read_len := consumed + acc c in
  if read_len =? 0 then c
  else if produced then
    mkCountingCodec (codec c) (register_received_message (N.of_nat read_len) (cc_stats c))
      (register_received_message (N.of_nat read_len) (cc_node_stats c)) 0
  else mkCountingCodec (codec c) (cc_stats c) (cc_node_stats c) read_len.

Definition with_codec (c : CountingCodec) (d : D) : CountingCodec :=
  mkCountingCodec d (cc_stats c) (cc_node_stats c) (acc c).

Definition is_message (r : IoResult (option Item)) : bool :=
  match r with Ok (Some _) => true | _ => false end.

(** [impl Decoder for CountingCodec]: [decode] and [decode_eof]. *)
Definition counting_decode : Decode CountingCodec Item := λ eof c src,
  let '(ret, d, src') := inner eof (codec c) src in
  (ret, account (with_codec c d) (length src) (length src') (is_message ret), src').

(** A framed reader driving a decoder: before each call some bytes may arrive; an error ends it. *)
Fixpoint drive {C} (dec : Decode C Item) (c : C) (src : list N) (ins : list (list N * bool))
  : list (IoResult (option Item)) * C * list N :=
  match ins with
  | [] => ([], c, src)
  | (chunk, eof) :: ins =>
      let '(r, c, src) := dec eof c (src ++ chunk) in
      match r with
      | Err _ => ([r], c, src)
      | Ok _ => let '(rs, c, src) := drive dec c src ins in (r :: rs, c, src)
      end
  end.

(** The bytes a driven decoder has taken out of the buffer. *)
Fixpoint consumed {C} (dec : Decode C Item) (c : C) (src : list N) (ins : list (list N * bool)) : nat :=
  match ins with
  | [] => 0
  | (chunk, eof) :: ins =>
      let '(r, c, src') := dec eof c (src ++ chunk) in
      length (src ++ chunk) - length src' +
      match r with Err _ => 0 | Ok _ => consumed dec c src' ins end
  end.

Definition register_received (sizes : list nat) (s : Stats) : Stats :=
  foldl (λ s z, register_received_message (N.of_nat z) s) s sizes.

Lemma account_cases c i f p :
  let c' := account c i f p in
  codec c' = codec c ∧
  ((cc_stats c' = cc_stats c ∧ cc_node_stats c' = cc_node_stats c ∧ acc c' = i - f + acc c ∧
    (p = true → i - f + acc c = 0)) ∨
   (p = true ∧ 0 < i - f + acc c ∧ acc c' = 0 ∧
    cc_stats c' = register_received [i - f + acc c] (cc_stats c) ∧
    cc_node_stats c' = register_received [i - f + acc c] (cc_node_stats c))).
Proof.
  unfold account. destruct (Nat.eqb_spec (i - f + acc c) 0) as [E|E].
  - split; [done|]. left. split_and!; [done..|lia|done].
  - destruct p; split; try done; [right|left]; split_and!; done || lia.
Qed.

Lemma counting_decode_drive ins c src :
  ∃ sizes rs d c' src',
    drive inner (codec c) src ins = (rs, d, src') ∧ drive counting_decode c src ins = (rs, c', src') ∧
    codec c' = d ∧
    cc_stats c' = register_received sizes (cc_stats c) ∧
    cc_node_stats c' = register_received sizes (cc_node_stats c) ∧
    Forall (λ z, 0 < z) sizes ∧ length sizes ≤ countb is_message rs ∧
    sum_list sizes + acc c' = acc c + consumed inner (codec c) src ins ∧
    ((∀ eof d src m d' src', inner eof d src = (Ok (Some m), d', src') → length src' < length src) →
      length sizes = countb is_message rs).
Proof.
  revert c src. induction ins as [|[chunk eof] ins IH]; intros c src.
  { exists [], [], (codec c), c, src. simpl. split_and!; done. }
  simpl. unfold counting_decode at 1. destruct (inner eof (codec c) (src ++ chunk)) as [[r d] src1] eqn:Ei.
  set (c1 := account (with_codec c d) (length (src ++ chunk)) (length src1) (is_message r)).
  destruct (account_cases (with_codec c d) (length (src ++ chunk)) (length src1) (is_message r)) as [Hcod Hcase].
  fold c1 in Hcod, Hcase. simpl in Hcod, Hcase.
  assert (∃ sz, cc_stats c1 = register_received sz (cc_stats c) ∧
    cc_node_stats c1 = register_received sz (cc_node_stats c) ∧ Forall (λ z, 0 < z) sz ∧
    length sz ≤ b2n (is_message r) ∧
    sum_list sz + acc c1 = acc c + (length (src ++ chunk) - length src1) ∧
    ((∀ eof d src m d' src', inner eof d src = (Ok (Some m), d', src') → length src' < length src) →
      length sz = b2n (is_message r))) as (sz&S1&S2&S3&S4&S5&S6).
  { destruct Hcase as [(E1&E2&E3&E4)|(Hp&Hpos&E1&E2&E3)].
    - exists []. split_and!; [done|done|constructor|simpl; lia|simpl; lia|]. intros Hc.
      destruct (is_message r) eqn:Hm; [|done]. specialize (E4 eq_refl). destruct r as [[m|]|]; try done.
      apply Hc in Ei. lia.
    - exists [length (src ++ chunk) - length src1 + acc c]. rewrite Hp.
      split_and!; [done|done|by repeat constructor|simpl; lia|simpl; lia|done]. }
  destruct r as [o|e].
  - destruct (IH c1 src1) as (sizes&rs&d2&c2&src2&H1&H2&H3&H4&H5&H6&H7&H8&H9). rewrite Hcod in H1, H8.
    exists (sz ++ sizes), (Ok o :: rs), d2, c2, src2. rewrite H1, H2.
    split_and!; try done; unfold register_received in *.
    + by rewrite foldl_app, <-S1.
    + by rewrite foldl_app, <-S2.
    + by apply Forall_app.
    + rewrite length_app. cbn [countb]. lia.
    + count.
    + intros Hc. rewrite length_app. cbn [countb]. rewrite S6, H9 by done. done.
  - exists sz, [Err e], d, c1, src1. simpl in *. split_and!; try done; lia.
Qed.
End counting.
Arguments CountingCodec : clear implicits.
Arguments mkCountingCodec {D} _ _ _ _.
Arguments codec {D} _.
Arguments cc_stats {D} _.
Arguments cc_node_stats {D} _.
Arguments acc {D} _.

(** A decoder for length-prefixed messages that consumes the length as soon as it is there. *)
Definition prefix_decode : Decode (option nat) (list N) := λ _ d src,
  match d, src with
  | None, [] => (Ok None, None, src)
  | None, n :: src => (Ok None, Some (N.to_nat n), src)
  | Some n, _ => if n <=? length src then (Ok (Some (take n src)), None, drop n src) else (Ok None, d, src)
  end.

(** C21. The counting decoder is transparent and its accounting is exact.  However the bytes arrive,
    it returns what the user's decoder returns and leaves the buffer as that one leaves it; the
    sizes it registers, with the connection and the node alike, together with the bytes held back
    for a message still incomplete are exactly the bytes taken out of the buffer; and as long as a
    message is never produced from nothing, exactly the complete messages are counted. *)
Theorem counting_codec_exact {D Item} (inner : Decode D Item) c src ins :
  ∃ sizes rs d c' src',
    drive inner (codec c) src ins = (rs, d, src') ∧
    drive (counting_decode inner) c src ins = (rs, c', src') ∧ codec c' = d ∧
    cc_stats c' = register_received sizes (cc_stats c) ∧
    cc_node_stats c' = register_received sizes (cc_node_stats c) ∧
    Forall (λ z, 0 < z) sizes ∧ length sizes ≤ countb is_message rs ∧
    sum_list sizes + acc c' = acc c + consumed inner (codec c) src ins ∧
    ((∀ eof d src m d' src', inner eof d src = (Ok (Some m), d', src') → length src' < length src) →
      length sizes = countb is_message rs).
Proof. apply counting_decode_drive. Qed.

(** ** The reader and processing tasks *)

Section reader.
Context {Msg : Type}.
(** [Reading::BACKPRESSURE] and [Reading::MESSAGE_QUEUE_DEPTH]. *)
Context (BACKPRESSURE : bool) (MESSAGE_QUEUE_DEPTH : nat).

(** The reader task is in its loop, awaits room in the queue with a message in hand, or has ended. *)
Inductive ReaderPc := Looping | Sending (m : Msg) | ReaderDone.

(** The two tasks and the bounded channel between them: the queued messages, the messages handed to
    [process_message] so far (oldest first), the reader's counters and the counts it has warned
    about, and the messages the decoder produced so far. *)
Record ReadState := mkReadState {
  reader_pc : ReaderPc;
  processing : bool;
  inbound : list Msg;
  processed : list Msg;
  dropped_count : nat;
  warned : list nat;
  decoded : list Msg;
}.

(** What happens next: a frame (or the end of the stream, or an error) is read, with whether the last
    warning is at least a second old; the idle timeout fires; room is found for a blocked message;
    the processing task takes a message; the processing task ends. *)
Inductive ReadEvent :=
| ReadResult (r : option (IoResult Msg)) (log_due : bool)
| IdleTimeout
| Unblocked
| ProcessNext
| ProcessingEnds.

Definition set_reader (s : ReadState) (pc : ReaderPc) : ReadState :=
  mkReadState pc (processing s) (inbound s) (processed s) (dropped_count s) (warned s) (decoded s).

Definition enqueue (s : ReadState) (m : Msg) : ReadState :=
  mkReadState Looping (processing s) (inbound s ++ [m]) (processed s) (dropped_count s) (warned s) (decoded s).

Definition has_room (s : ReadState) : bool := length (inbound s) <? MESSAGE_QUEUE_DEPTH.

(** [warn_about_dropped_messages]. *)
Definition warn_about_dropped_messages (s : ReadState) : ReadState :=
  mkReadState (reader_pc s) (processing s) (inbound s) (processed s) 0 (warned s ++ [dropped_count s]) (decoded s).

Definition count_drop (s : ReadState) : ReadState :=
  mkReadState (reader_pc s) (processing s) (inbound s) (processed s) (S (dropped_count s)) (warned s) (decoded s).

(** A decoded message, in the reader's loop: [send] (which waits for room) or [try_send]. *)
Definition on_message (s : ReadState) (m : Msg) (log_due : bool) : ReadState :=
  let s := mkReadState (reader_pc s) (processing s) (inbound s) (processed s) (dropped_count s) (warned s)
             (decoded s ++ [m]) in
  if BACKPRESSURE then
    if negb (processing s) then set_reader s ReaderDone
    else if has_room s then enqueue s m else set_reader s (Sending m)
  else
    if negb (processing s) then set_reader s ReaderDone
    else if has_room s then
      let s := enqueue s m in
      if dropped_count s =? 0 then s else warn_about_dropped_messages s
    else
      let s := count_drop s in
      if log_due then warn_about_dropped_messages s else s.

(** One event; [None] if it cannot happen in this state. *)
Definition read_step (s : ReadState) (ev : ReadEvent) : option ReadState :=
  match ev, reader_pc s with
  | ReadResult (Some (Ok m)) log_due, Looping => Some (on_message s m log_due)
  | ReadResult _ _, Looping => Some (set_reader s ReaderDone)
  | IdleTimeout, Looping => Some (set_reader s ReaderDone)
  | Unblocked, Sending m =>
      if negb (processing s) then Some (set_reader s ReaderDone)
      else if has_room s then Some (enqueue s m) else None
  | ProcessNext, _ =>
      match inbound s with
      | m :: rest =>
          if processing s then
            Some (mkReadState (reader_pc s) true rest (processed s ++ [m]) (dropped_count s) (warned s) (decoded s))
          else None
      | [] => None
      end
  | ProcessingEnds, _ =>
      Some (mkReadState (reader_pc s) false (inbound s) (processed s) (dropped_count s) (warned s) (decoded s))
  | _, _ => None
  end.

Fixpoint read_run (s : ReadState) (evs : list ReadEvent) : option ReadState :=
  match evs with
  | [] => Some s
  | ev :: evs => s ← read_step s ev; read_run s evs
  end.

Definition read_init : ReadState := mkReadState Looping true [] [] 0 [] [].

(** The message the reader is blocked on, if any. *)
Definition in_hand (s : ReadState) : list Msg :=
  match reader_pc s with Sending m => [m] | _ => [] end.

(** While both tasks live: what was decoded is what was processed, is queued or in hand, in order
    (with gaps only when messages may be dropped, each of them counted). *)
Record ReadInv (s : ReadState) : Prop := {
  ri_bound : length (inbound s) ≤ MESSAGE_QUEUE_DEPTH;
  ri_order : (processed s ++ inbound s ++ in_hand s) `sublist_of` decoded s;
  ri_exact : reader_pc s ≠ ReaderDone →
    length (decoded s) = length (processed s ++ inbound s ++ in_hand s) + dropped_count s + sum_list (warned s);
  ri_backpressure : BACKPRESSURE = true → dropped_count s = 0 ∧ warned s = [];
  ri_no_backpressure : BACKPRESSURE = false → in_hand s = [];
}.

Lemma read_init_inv : ReadInv read_init.
Proof. split; simpl; try done. lia. Qed.

(** Replacing what is queued and in hand. *)
Lemma sublist_snoc (l k : list Msg) m : l `sublist_of` k → (l ++ [m]) `sublist_of` (k ++ [m]).
Proof. intros. by apply sublist_app. Qed.

Lemma sublist_drop_tail (l1 l2 k : list Msg) : (l1 ++ l2) `sublist_of` k → l1 `sublist_of` k.
Proof. intros. etrans; [|done]. by apply sublist_inserts_r. Qed.

Lemma on_message_inv s m due : reader_pc s = Looping → ReadInv s → ReadInv (on_message s m due).
Proof.
  intros Hpc [H1 H2 H3 H4 H5]. unfold on_message.
  assert (Hh : in_hand s = []) by (unfold in_hand; by rewrite Hpc).
  rewrite Hh, app_nil_r in *. specialize (H3 ltac:(congruence)). simpl.
  assert (Hsub : (processed s ++ inbound s) `sublist_of` (decoded s ++ [m]))
    by (etrans; [exact H2|by apply sublist_inserts_r]).
  assert (Hsnoc : (processed s ++ (inbound s ++ [m])) `sublist_of` (decoded s ++ [m]))
    by (rewrite app_assoc; by apply sublist_snoc).
  destruct BACKPRESSURE eqn:Hbp; destruct (processing s); simpl;
    try (unfold has_room; simpl; destruct (Nat.ltb_spec (length (inbound s)) MESSAGE_QUEUE_DEPTH));
    try (destruct (Nat.eqb_spec (dropped_count s) 0)); try destruct due;
    split; simpl; unfold in_hand; simpl; rewrite ?Hpc, ?app_nil_r; try done;
    rewrite ?length_app in *; simpl; rewrite ?sum_list_with_app; simpl; try lia; auto; congruence.
Qed.

Lemma read_step_inv s ev s' : read_step s ev = Some s' → ReadInv s → ReadInv s'.
Proof.
  intros E Hinv. destruct ev as [r due| | | |]; simpl in E.
  - destruct (reader_pc s) eqn:Hpc; [|by destruct r as [[]|]..].
    destruct r as [[m|e]|]; simplify_eq; [by apply on_message_inv|..];
      (destruct Hinv as [H1 H2 H3 H4 H5]; split; simpl; auto; unfold in_hand in *; simpl; rewrite Hpc in *; done).
  - destruct (reader_pc s) eqn:Hpc; simplify_eq. destruct Hinv as [H1 H2 H3 H4 H5]; split; simpl; auto;
      unfold in_hand in *; simpl; rewrite Hpc in *; done.
  - destruct (reader_pc s) eqn:Hpc; simplify_eq. destruct Hinv as [H1 H2 H3 H4 H5].
    unfold in_hand in *. rewrite Hpc in *. destruct (processing s); simpl in E.
    + unfold has_room in E. destruct (Nat.ltb_spec (length (inbound s)) MESSAGE_QUEUE_DEPTH); simplify_eq.
      split; simpl; unfold in_hand; simpl; rewrite ?app_nil_r; auto. rewrite length_app. simpl. lia.
    + simplify_eq. split; simpl; unfold in_hand; simpl; rewrite ?app_nil_r; auto; try done.
      rewrite app_assoc in H2. by eapply sublist_drop_tail.
  - destruct (inbound s) as [|m rest] eqn:Hin; [done|]. destruct (processing s); simplify_eq.
    destruct Hinv as [H1 H2 H3 H4 H5]. rewrite Hin in *. simpl in *.
    split; simpl; unfold in_hand in *; simpl; rewrite <-?app_assoc; auto; simpl in *; lia.
  - simplify_eq. destruct Hinv as [H1 H2 H3 H4 H5]. by split.
Qed.

Lemma read_run_inv s evs s' : read_run s evs = Some s' → ReadInv s → ReadInv s'.
Proof.
  revert s. induction evs as [|ev evs IH]; intros s E Hinv; simplify_eq/=; [done|].
  destruct (read_step s ev) eqn:Es; simplify_eq/=. by eapply IH, read_step_inv.
Qed.
End reader.

(** C20. Messages are processed in the order in which they were decoded, and none is lost silently.
    In every state the reader and processing tasks can reach, the queue is within its depth and the
    messages processed, queued or in hand are a subsequence of the decoded ones; with [BACKPRESSURE]
    they are all of them, without gaps, as long as the reader runs; without it, the reader never
    blocks and the missing ones are exactly those counted as dropped. *)
Theorem reading_in_order {Msg} (bp : bool) depth evs (s : ReadState (Msg := Msg)) :
  read_run bp depth read_init evs = Some s →
  length (inbound s) ≤ depth ∧
  (processed s ++ inbound s ++ in_hand s) `sublist_of` decoded s ∧
  (reader_pc s ≠ ReaderDone → bp = true → decoded s = processed s ++ inbound s ++ in_hand s) ∧
  (reader_pc s ≠ ReaderDone → bp = false →
     in_hand s = [] ∧
     length (decoded s) = length (processed s ++ inbound s) + (dropped_count s + sum_list (warned s))).
Proof.
  intros E. destruct (read_run_inv _ _ _ _ _ E (read_init_inv _ _)) as [H1 H2 H3 H4 H5].
  split_and!; [done|done| |].
  - intros Hr Hbp. specialize (H3 Hr). destruct (H4 Hbp) as [Hd Hw]. rewrite Hd, Hw in H3. simpl in H3.
    symmetry. apply sublist_full; [done|lia].
  - intros Hr Hbp. specialize (H3 Hr). split; [by apply H5|]. rewrite (H5 Hbp), app_nil_r in H3. lia.
Qed.

Lemma reading_in_order_witness :
  ∃ s : ReadState (Msg := nat),
    read_run true 1 read_init [ReadResult (Some (Ok 1)) false; ReadResult (Some (Ok 2)) false; ProcessNext; Unblocked]
      = Some s ∧ decoded s = processed s ++ inbound s ++ in_hand s.
Proof.
  destruct (read_run true 1 (read_init (Msg := nat))
    [ReadResult (Some (Ok 1)) false; ReadResult (Some (Ok 2)) false; ProcessNext; Unblocked]) as [s|] eqn:E;
    [|by vm_compute in E].
  exists s. split; [done|]. apply (reading_in_order _ _ _ _ E); [|done]. vm_compute in E. by simplify_eq.
Defined.
