(* ===== verification/Writing.v ===== *)
(** * Sending messages ([pea2pea/src/protocols/writing.rs])

    Queueing outbound messages ([queue_message], [unicast], [unicast_fast], [broadcast]) and the
    writer task: [write_batch] and the loop around it.  The codec and tokio's [FramedWrite] are not
    part of the repository; what the code relies on is the interface [FramedWrite] below. *)

From S2P Require Import Prelude Net Stats.

Open Scope nat_scope.

(** ** The framed sink *)

(** What running an operation of the sink under the write timeout leads to. *)
Inductive Awaited := Ready (r : IoResult ()) | Elapsed | Panicked.

(** [tokio_util]'s [FramedWrite] around a stream and a codec for messages [M]: [poll_ready] may
    flush the write buffer but loses nothing, [start_send] appends the encoded message to it, [flush]
    empties it into the stream.  [written] are the bytes the stream has taken so far; [encode] is the
    codec's [Encoder::encode], with its state in the sink. *)
Class FramedWrite (W M : Type) := {
  write_buffer : W → list N;
  written : W → list N;
  encode : W → M → IoResult (list N);
  poll_ready : W → Awaited * W;
  start_send : W → M → Awaited * W;
  flush : W → Awaited * W;
  poll_ready_ok w w' :
    poll_ready w = (Ready (Ok ()), w') → written w' ++ write_buffer w' = written w ++ write_buffer w;
  start_send_ok w w' m :
    start_send w m = (Ready (Ok ()), w') →
    written w' = written w ∧ ∃ bs, encode w m = Ok bs ∧ write_buffer w' = write_buffer w ++ bs;
  flush_ok w w' :
    flush w = (Ready (Ok ()), w') → written w' = written w ++ write_buffer w ∧ write_buffer w' = [];
}.

(** ** Messages and channels *)

(** [WrappedMessage]; the delivery notification is the handle of its oneshot channel. *)
Record WrappedMessage (M : Type) := wrap {
  msg : option M;
  delivery_notification : option nat;
}.
Arguments wrap {M} _ _.
Arguments msg {M} _.
Arguments delivery_notification {M} _.

(** A bounded [mpsc] channel: its capacity, the queued items and whether the receiver is alive. *)
Record Chan (M : Type) := mkChan {
  capacity : nat;
  queue : list (WrappedMessage M);
  rx_alive : bool;
}.
Arguments mkChan {M} _ _ _.
Arguments capacity {M} _.
Arguments queue {M} _.
Arguments rx_alive {M} _.

(** A sender as stored in the senders map: its connection id, the [TypeId] of its message type (the
    type is erased) and the channel it belongs to. *)
Record Sender := mkSender { conn_id : N; type_id : N; chan : nat }.

(** The state the writing calls act on: the [Writing] handler with its senders map (if enabled),
    all the channels, and the next oneshot handle. *)
Record WritingState (M : Type) := mkWritingState {
  senders : option (gmap SocketAddr Sender);
  chans : gmap nat (Chan M);
  next_oneshot : nat;
}.
Arguments mkWritingState {M} _ _ _.
Arguments senders {M} _.
Arguments chans {M} _.
Arguments next_oneshot {M} _.

Inductive TrySendError := Full | Closed.

(** [mpsc::Sender::try_send]. *)
Definition try_send {M} (c : Chan M) (m : WrappedMessage M) : TrySendError + Chan M :=
  if negb (rx_alive c) then inl Closed
  else if capacity c <=? length (queue c) then inl Full
  else inr (mkChan (capacity c) (queue c ++ [m]) (rx_alive c)).

(** [WrappedMessage::new]: the message, the receiver handle if a confirmation was requested, and
    the next free handle. *)
Definition new_wrapped {M} (m : M) (confirmation : bool) (fresh : nat)
  : WrappedMessage M * option nat * nat :=
  if confirmation then (wrap (Some m) (Some fresh), Some fresh, S fresh)
  else (wrap (Some m) None, None, fresh).

Section sending.
Context {M : Type}.
(** The [TypeId] of [Self::Message]. *)
Context (self_type : N).
Implicit Types (st : WritingState M).

(** [WritingInternal::queue_message]. *)
Definition queue_message (st : WritingState M) (addr : SocketAddr) (message : M)
  (confirm_delivery : bool) : IoResult (option nat) * WritingState M :=
  match senders st with
  | None => (Err (mkIoError Unsupported NoPayload), st)
  | Some ss =>
      match ss !! addr with
      | None => (Err (mkIoError NotConnected NoPayload), st)
      | Some s =>
          if negb (type_id s =? self_type)%N then (Err (mkIoError Unsupported NoPayload), st)
          else
            let '(m, delivery, fresh) := new_wrapped message confirm_delivery (next_oneshot st) in
            match try_send (default (mkChan 0 [] false) (chans st !! chan s)) m with
            | inl Full => (Err (mkIoError QuotaExceeded NoPayload), mkWritingState (senders st) (chans st) fresh)
            | inl Closed => (Err (mkIoError BrokenPipe NoPayload), mkWritingState (senders st) (chans st) fresh)
            | inr c => (Ok delivery, mkWritingState (senders st) (<[chan s := c]> (chans st)) fresh)
            end
      end
  end.

(** [Writing::unicast]; [None] is the panic of its [unwrap]. *)
Definition unicast (st : WritingState M) (addr : SocketAddr) (message : M)
  : option (IoResult nat) * WritingState M :=
  let '(r, st) := queue_message st addr message true in
  (match r with
   | Ok (Some d) => Some (Ok d)
   | Ok None => None
   | Err e => Some (Err e)
   end, st).

(** [Writing::unicast_fast]. *)
Definition unicast_fast (st : WritingState M) (addr : SocketAddr) (message : M)
  : IoResult () * WritingState M :=
  let '(r, st) := queue_message st addr message false in (io_map (λ _, ()) r, st).

(** The loop of [Writing::broadcast] over the addresses collected from the senders map. *)
Fixpoint broadcast_to (st : WritingState M) (addrs : list SocketAddr) (message : M)
  : IoResult () * WritingState M :=
  match addrs with
  | [] => (Ok (), st)
  | addr :: addrs =>
      match queue_message st addr message false with
      | (Err e, st) =>
          if bool_decide (kind e = Unsupported) then (Err e, st) else broadcast_to st addrs message
      | (Ok _, st) => broadcast_to st addrs message
      end
  end.

(** [Writing::broadcast]. *)
Definition broadcast (st : WritingState M) (message : M) : IoResult () * WritingState M :=
  match senders st with
  | None => (Err (mkIoError Unsupported NoPayload), st)
  | Some ss => broadcast_to st (map_to_list ss).*1 message
  end.
End sending.

(** ** The writer task *)

Section writer.
Context {W M : Type} `{FramedWrite W M}.

(** The messages of [write_batch]'s loop: [poll_ready], measure, [start_send], measure.  Returns the
    outcome with the byte count, the sink, and the batch with the messages taken so far. *)
Fixpoint feed_all (w : W) (messages : list (WrappedMessage M)) (bytes : nat)
  : (Awaited * nat) * W * list (WrappedMessage M) :=
  match messages with
  | [] => (Ready (Ok ()), bytes, w, [])
  | wrapped :: rest =>
      match msg wrapped with
      | None => (Panicked, bytes, w, messages)
      | Some m =>
          let taken := wrap None (delivery_notification wrapped) in
          match poll_ready w with
          | (Ready (Ok ()), w) =>
              let prev := length (write_buffer w) in
              match start_send w m with
              | (Ready (Ok ()), w) =>
                  let bytes := bytes + (length (write_buffer w) - prev) in
                  let '(r, w, rest) := feed_all w rest bytes in (r, w, taken :: rest)
              | (r, w) => (r, bytes, w, taken :: rest)
              end
          | (r, w) => (r, bytes, w, taken :: rest)
          end
      end
  end.

Definition write_timed_out : IoError := mkIoError TimedOut (Message "write timed out").

(** [WritingInternal::write_batch]: the number of messages and bytes written or the error ([None] if
    the codec panicked), the sink, the batch, and the heuristics. *)
Definition write_batch (w : W) (messages : list (WrappedMessage M)) (h : Heuristics)
  : option (IoResult (nat * nat)) * W * list (WrappedMessage M) * Heuristics :=
  let msgs := length messages in
  let '(r, bytes, w, messages) := feed_all w messages 0 in
  let '(r, w) := match r with Ready (Ok ()) => flush w | _ => (r, w) end in
  match r with
  | Ready (Ok ()) => (Some (Ok (msgs, bytes)), w, messages, h)
  | Ready (Err e) => (Some (Err e), w, messages, h)
  | Elapsed => (Some (Err write_timed_out), w, messages, register_write_timeout h)
  | Panicked => (None, w, messages, h)
  end.

(** The receivers that learn about the fate of a batch. *)
Definition notify (batch : list (WrappedMessage M)) (r : IoResult ()) : list (nat * IoResult ()) :=
  (λ d, (d, r)) <$> omap delivery_notification batch.

(** What the writer task changes: the sink, the statistics of the connection and of the node, the
    heuristics, and the delivery notifications sent, oldest first. *)
Record WriterState := mkWriterState {
  sink : W;
  conn_stats : Stats;
  node_stats : Stats;
  heur : Heuristics;
  notified : list (nat * IoResult ());
}.

(** One round of the loop on a received batch; the boolean tells whether the loop goes on.  A panic
    ends the task without notifying anybody (the senders of the notifications are dropped). *)
Definition writer_round (s : WriterState) (batch : list (WrappedMessage M)) : bool * WriterState :=
  let '(r, w, batch, h) := write_batch (sink s) batch (heur s) in
  match r with
  | Some (Ok (msgs, bytes)) =>
      let m := N.of_nat msgs in let b := N.of_nat bytes in
      (true, mkWriterState w (register_sent_messages m b (conn_stats s))
               (register_sent_messages m b (node_stats s)) h (notified s ++ notify batch (Ok ())))
  | Some (Err e) =>
      (false, mkWriterState w (conn_stats s) (node_stats s) h
                (notified s ++ notify batch (Err (mkIoError (kind e) (Message (to_string e))))))
  | None => (false, mkWriterState w (conn_stats s) (node_stats s) h (notified s))
  end.

(** The writer loop: [arrivals] are the messages that are queued before each [recv_many]; once they
    are used up the channel is closed, and what is still queued is drained.  Returns the final state
    and the messages left in the queue. *)
Fixpoint writer_loop (fuel depth : nat) (arrivals : list (list (WrappedMessage M)))
  (pending : list (WrappedMessage M)) (s : WriterState)
  : option (WriterState * list (WrappedMessage M)) :=
  match fuel with
  | 0 => None
  | S fuel =>
      match arrivals, pending with
      | [], [] => Some (s, [])
      | _, _ =>
          let pending := pending ++ default [] (head arrivals) in
          match take depth pending with
          | [] => writer_loop fuel depth (tail arrivals) pending s
          | batch =>
              match writer_round s batch with
              | (true, s) => writer_loop fuel depth (tail arrivals) (drop depth pending) s
              | (false, s) => Some (s, drop depth pending ++ mjoin (tail arrivals))
              end
          end
      end
  end.
End writer.

(** ** Lemmas on the writer *)

Section writer_lemmas.
Context {W M : Type} `{FramedWrite W M}.
Implicit Types (w : W) (ms : list (WrappedMessage M)).

(** The bytes a message was encoded to, by the codec in some state of the sink. *)
Definition encoded_as (wm : WrappedMessage M) (bs : list N) : Prop :=
  ∃ m (w : W), msg wm = Some m ∧ encode w m = Ok bs.

Definition take_msg (wm : WrappedMessage M) : WrappedMessage M := wrap None (delivery_notification wm).

(** Everything that has been handed to the sink. *)
Definition wire (w : W) : list N := written w ++ write_buffer w.

Lemma feed_all_ok w ms b b' w' ms' :
  feed_all w ms b = (Ready (Ok ()), b', w', ms') →
  ∃ bss, Forall2 encoded_as ms bss ∧ wire w' = wire w ++ mjoin bss ∧ b' = b + length (mjoin bss) ∧
    ms' = take_msg <$> ms.
Proof.
  revert w b b' w' ms'. induction ms as [|wm ms IH]; intros w b b' w' ms' E; simplify_eq/=.
  { exists []. rewrite app_nil_r, Nat.add_0_r. split_and!; by try constructor. }
  destruct (msg wm) as [m|] eqn:Em; [|done].
  destruct (poll_ready w) as [[[[]|]| |] w1] eqn:E1; try done.
  destruct (start_send w1 m) as [[[[]|]| |] w2] eqn:E2; try done.
  destruct (feed_all w2 ms _) as [[[r b2] w3] ms2] eqn:E3. simplify_eq.
  apply IH in E3 as (bss&Hf&Hw&->&->). apply poll_ready_ok in E1. apply start_send_ok in E2 as (Hw2&bs&He&Hb).
  exists (bs :: bss). split_and!.
  - constructor; [|done]. by exists m, w1.
  - rewrite Hw. unfold wire in *. rewrite Hw2, Hb. simpl. rewrite !app_assoc, E1. done.
  - rewrite Hb. simpl. rewrite !length_app. lia.
  - done.
Qed.

Lemma feed_all_notifications w ms b r b' w' ms' :
  feed_all w ms b = (r, b', w', ms') → delivery_notification <$> ms' = delivery_notification <$> ms.
Proof.
  revert w b b' w' ms'. induction ms as [|wm ms IH]; intros w b b' w' ms' E; simplify_eq/=; [done|].
  destruct (msg wm) as [m|]; [|by simplify_eq].
  destruct (poll_ready w) as [[[[]|]| |] w1]; simplify_eq/=; try done.
  destruct (start_send w1 m) as [[[[]|]| |] w2]; simplify_eq/=; try done.
  destruct (feed_all w2 ms _) as [[[r2 b2] w3] ms2] eqn:E3. simplify_eq/=. f_equal. by eapply IH.
Qed.

Lemma notify_ext ms ms' r :
  delivery_notification <$> ms' = delivery_notification <$> ms → notify ms' r = notify ms r.
Proof.
  intros E. unfold notify. f_equal.
  assert (∀ l : list (WrappedMessage M), omap delivery_notification l = omap (λ x, x) (delivery_notification <$> l)) as Ho.
  { intros l. induction l as [|x l IHl]; csimpl; [done|]. by destruct (delivery_notification x); rewrite IHl. }
  by rewrite (Ho ms'), E, <-Ho.
Qed.

Lemma notify_app ms ms' r : notify (ms ++ ms') r = notify ms r ++ notify ms' r.
Proof. unfold notify. by rewrite omap_app, fmap_app. Qed.

Lemma write_batch_spec w ms h r w' ms' h' :
  write_batch w ms h = (r, w', ms', h') →
  delivery_notification <$> ms' = delivery_notification <$> ms ∧
  (∀ msgs bytes, r = Some (Ok (msgs, bytes)) →
     msgs = length ms ∧ h' = h ∧ ms' = take_msg <$> ms ∧ write_buffer w' = [] ∧
     ∃ bss, Forall2 encoded_as ms bss ∧ written w' = wire w ++ mjoin bss ∧ bytes = length (mjoin bss)).
Proof.
  unfold write_batch. intros E. destruct (feed_all w ms 0) as [[[a b] w1] ms1] eqn:Ef.
  pose proof (feed_all_notifications _ _ _ _ _ _ _ Ef) as Hn.
  destruct a as [[[]|e]| |]; simplify_eq; try done.
  destruct (flush w1) as [[[[]|e]| |] w2] eqn:Efl; simplify_eq; try done.
  split; [done|]. intros msgs bytes [= <- <-].
  apply feed_all_ok in Ef as (bss&Hf&Hw&->&->). apply flush_ok in Efl as [Hw2 Hb2].
  split_and!; [done..|]. exists bss. split_and!; [done| |done]. by rewrite Hw2, <-Hw.
Qed.
End writer_lemmas.

Lemma register_sent_sum m1 b1 m2 b2 s :
  register_sent_messages m2 b2 (register_sent_messages m1 b1 s) = register_sent_messages (m1 + m2) (b1 + b2) s.
Proof. unfold register_sent_messages; simpl. by rewrite !wrapping_add_assoc. Qed.

Lemma register_sent_0 s : stats_wf s → register_sent_messages 0 0 s = s.
Proof.
  destruct s. unfold stats_wf, register_sent_messages. simpl. intros (?&?&?&?).
  by rewrite !wrapping_add_0_r.
Qed.

Section loop.
Context {W M : Type} `{FramedWrite W M}.
Implicit Types (s : WriterState (W := W)) (ms : list (WrappedMessage M)).

(** How writing a batch to a sink ends: message by message, then the flush, with the first outcome of
    an operation of the sink that is not a success (a message that is not there is a panic), or with
    the outcome of the flush. *)
Inductive batch_ends : W → list (WrappedMessage M) → Awaited → Prop :=
| ends_flush w : batch_ends w [] (flush w).1
| ends_absent w wm ms : msg wm = None → batch_ends w (wm :: ms) Panicked
| ends_not_ready w wm ms m r w1 :
    msg wm = Some m → poll_ready w = (r, w1) → r ≠ Ready (Ok ()) → batch_ends w (wm :: ms) r
| ends_refused w wm ms m w1 r w2 :
    msg wm = Some m → poll_ready w = (Ready (Ok ()), w1) → start_send w1 m = (r, w2) → r ≠ Ready (Ok ()) →
    batch_ends w (wm :: ms) r
| ends_next w wm ms m w1 w2 r :
    msg wm = Some m → poll_ready w = (Ready (Ok ()), w1) → start_send w1 m = (Ready (Ok ()), w2) →
    batch_ends w2 ms r → batch_ends w (wm :: ms) r.

(** What the receivers of a failed batch are told. *)
Definition told (failed : list (WrappedMessage M)) (r : Awaited) : option (list (nat * IoResult ())) :=
  let report e := notify failed (Err (mkIoError (kind e) (Message (to_string e)))) in
  match r with
  | Ready (Ok ()) => None
  | Ready (Err e) => Some (report e)
  | Elapsed => Some (report write_timed_out)
  | Panicked => Some []
  end.

(** The fate of the messages a writer task was given, in order: [delivered] were written, and [failed]
    were in the batch that could not be, with the sink as the delivered ones had left it. *)
Record fate (s s' : WriterState (W := W)) (delivered failed : list (WrappedMessage M)) : Prop := {
  ft_stats : ∃ bss, Forall2 (encoded_as (W := W)) delivered bss ∧
    let m := N.of_nat (length delivered) in let b := N.of_nat (length (mjoin bss)) in
    conn_stats s' = register_sent_messages m b (conn_stats s) ∧
    node_stats s' = register_sent_messages m b (node_stats s) ∧
    (failed = [] → notified s' = notified s ++ notify delivered (Ok ()) ∧
       wire (sink s') = wire (sink s) ++ mjoin bss) ∧
    (failed ≠ [] → ∃ w r l, wire w = wire (sink s) ++ mjoin bss ∧ batch_ends w failed r ∧ told failed r = Some l ∧
       notified s' = notified s ++ notify delivered (Ok ()) ++ l);
  ft_flushed : failed = [] → write_buffer (sink s) = [] → write_buffer (sink s') = [];
}.

Lemma fate_nil s : stats_wf (conn_stats s) → stats_wf (node_stats s) → fate s s [] [].
Proof.
  intros H1 H2. split; [|done]. exists []. split; [constructor|]. simpl.
  rewrite !register_sent_0, !app_nil_r by done. by split_and!.
Qed.

Lemma writer_round_true s batch s' :
  writer_round s batch = (true, s') →
  ∃ bss, Forall2 (encoded_as (W := W)) batch bss ∧
    let m := N.of_nat (length batch) in let b := N.of_nat (length (mjoin bss)) in
    conn_stats s' = register_sent_messages m b (conn_stats s) ∧
    node_stats s' = register_sent_messages m b (node_stats s) ∧
    wire (sink s') = wire (sink s) ++ mjoin bss ∧ write_buffer (sink s') = [] ∧
    notified s' = notified s ++ notify batch (Ok ()).
Proof.
  unfold writer_round. intros E. destruct (write_batch _ _ _) as [[[r w] ms] h] eqn:Ew.
  apply write_batch_spec in Ew as [Hn Hok]. destruct r as [[[msgs bytes]|e]|]; simplify_eq/=.
  destruct (Hok _ _ eq_refl) as (->&->&_&Hb&bss&Hf&Hw&->). exists bss. split_and!; try done.
  - unfold wire at 1. by rewrite Hb, Hw, app_nil_r.
  - by rewrite (notify_ext _ _ _ Hn).
Qed.

Lemma feed_all_ends w ms b r b' w' ms' :
  feed_all w ms b = (r, b', w', ms') → batch_ends w ms (match r with Ready (Ok ()) => (flush w').1 | _ => r end).
Proof.
  revert w b b' w' ms'. induction ms as [|wm ms IH]; intros w b b' w' ms' E; simplify_eq/=; [constructor|].
  destruct (msg wm) as [m|] eqn:Em; [|simplify_eq; by constructor].
  destruct (poll_ready w) as [[[[]|e]| |] w1] eqn:E1; [|simplify_eq; by eapply ends_not_ready..].
  destruct (start_send w1 m) as [[[[]|e]| |] w2] eqn:E2; [|simplify_eq; by eapply ends_refused..].
  destruct (feed_all w2 ms _) as [[[r3 b3] w3] ms3] eqn:E3. simplify_eq. eapply ends_next; eauto.
Qed.

Lemma writer_round_false s batch s' :
  writer_round s batch = (false, s') →
  conn_stats s' = conn_stats s ∧ node_stats s' = node_stats s ∧
  ∃ r l, batch_ends (sink s) batch r ∧ told batch r = Some l ∧ notified s' = notified s ++ l.
Proof.
  unfold writer_round. intros E. destruct (write_batch _ _ _) as [[[r w] ms] h] eqn:Ew.
  pose proof (write_batch_spec _ _ _ _ _ _ _ Ew) as [Hn _]. unfold write_batch in Ew.
  destruct (feed_all (sink s) batch 0) as [[[a b] w1] ms1] eqn:Ef. apply feed_all_ends in Ef.
  destruct (match a with Ready (Ok ()) => flush w1 | _ => (a, w1) end) as [a' w2] eqn:Ea.
  assert (match a with Ready (Ok ()) => (flush w1).1 | _ => a end = a') as Ha
    by (destruct a as [[[]|]| |]; by rewrite ?Ea; simplify_eq).
  rewrite Ha in Ef. destruct a' as [[[]|e]| |]; simplify_eq/=; split_and!; try done;
    (eexists _, _; split_and!; [exact Ef|reflexivity|]; rewrite ?app_nil_r; try done; by rewrite (notify_ext _ _ _ Hn)).
Qed.

Lemma fate_step s s1 s' batch delivered failed :
  writer_round s batch = (true, s1) → fate s1 s' delivered failed → fate s s' (batch ++ delivered) failed.
Proof.
  intros (bss&Hf&Hc&Hn&Hw&Hfl&Hno)%writer_round_true [(bss'&Hf'&Hc'&Hn'&Hz&Hb) Hfl']. split; [|by intros ? _; apply Hfl'].
  exists (bss ++ bss'). split; [by apply Forall2_app|].
  assert (mjoin (bss ++ bss') = mjoin bss ++ mjoin bss') as -> by apply join_app.
  rewrite Hc', Hn', Hc, Hn, !register_sent_sum, !length_app, !Nat2N.inj_add, notify_app. split_and!; [done..| |].
  - intros [E1 E2]%Hz. by rewrite E1, E2, Hno, Hw, !app_assoc.
  - intros (w&r&l&E1&E2&E3&E4)%Hb. exists w, r, l. rewrite E1, E4, Hno, Hw, <-!app_assoc. done.
Qed.

Lemma fate_failed s s' batch :
  stats_wf (conn_stats s) → stats_wf (node_stats s) → batch ≠ [] →
  writer_round s batch = (false, s') → fate s s' [] batch.
Proof.
  intros H1 H2 Hb (Hc&Hn&r&l&He&Ht&Hno)%writer_round_false. split; [|done].
  exists []. split; [constructor|]. simpl. rewrite Hc, Hn, !register_sent_0 by done. split_and!; [done..|].
  intros _. exists (sink s), r, l. by rewrite app_nil_r.
Qed.

Lemma stats_wf_register m b st : stats_wf st → stats_wf (register_sent_messages m b st).
Proof. exact (register_wf (Sent m b) st). Qed.

Lemma writer_loop_fate fuel depth arrivals pending s s' left :
  stats_wf (conn_stats s) → stats_wf (node_stats s) → 
  writer_loop fuel depth arrivals pending s = Some (s', left) →
  ∃ delivered failed, pending ++ mjoin arrivals = delivered ++ failed ++ left ∧
    (failed = [] → left = []) ∧ fate s s' delivered failed.
Proof.
  revert arrivals pending s. induction fuel as [|fuel IH]; intros arrivals pending s H1 H2 E; [done|].
  assert (arrivals = [] ∧ pending = [] ∧ Some (s, []) = Some (s', left) ∨
    ∃ p rest, p = pending ++ default [] (head arrivals) ∧ rest = tail arrivals ∧
      pending ++ mjoin arrivals = p ++ mjoin rest ∧
      match take depth p with
      | [] => writer_loop fuel depth rest p s
      | batch =>
          match writer_round s batch with
          | (true, s) => writer_loop fuel depth rest (drop depth p) s
          | (false, s) => Some (s, drop depth p ++ mjoin rest)
          end
      end = Some (s', left)) as [(->&->&?)|(p&rest&Hp&Hr&Hall&E')].
  { simpl in E. destruct arrivals as [|a arrivals], pending as [|x pending]; simpl in E; [by left|right..];
      (eexists _, _; split_and!; [done|done| |exact E]; simpl; by rewrite ?app_nil_r, <-?app_assoc). }
  { simplify_eq. exists [], []. split_and!; [done|done|]. by apply fate_nil. }
  rewrite Hall. clear E Hall Hp Hr. destruct (take depth p) as [|x batch] eqn:Et.
  { by apply IH. }
  destruct (writer_round s (x :: batch)) as [[] s1] eqn:Er.
  - destruct (writer_round_true _ _ _ Er) as (bss&_&Hc&Hn&_).
    apply IH in E' as (delivered&failed&Hall&Hz&Hft);
      [|rewrite Hc; by apply stats_wf_register|rewrite Hn; by apply stats_wf_register].
    exists ((x :: batch) ++ delivered), failed. split_and!; [|done|by eapply fate_step].
    rewrite <-(take_drop depth p), Et, <-!app_assoc. f_equal. done.
  - simplify_eq. exists [], (x :: batch). split_and!; [|done|by apply fate_failed].
    by rewrite <-(take_drop depth p) at 1; rewrite Et, <-app_assoc.
Qed.

Lemma writer_loop_total fuel depth arrivals pending s :
  0 < depth → length arrivals + length (pending ++ mjoin arrivals) < fuel →
  is_Some (writer_loop fuel depth arrivals pending s).
Proof.
  intros Hd. revert arrivals pending s. induction fuel as [|fuel IH]; intros arrivals pending s Hf; [lia|].
  assert (∀ rest p s, length rest + length (p ++ mjoin rest) < fuel + (if decide (p = []) then 0 else 1) →
    (p = [] → length rest + length (p ++ mjoin rest) < fuel) →
    is_Some match take depth p with
      | [] => writer_loop fuel depth rest p s
      | batch =>
          match writer_round s batch with
          | (true, s) => writer_loop fuel depth rest (drop depth p) s
          | (false, s) => Some (s, drop depth p ++ mjoin rest)
          end
      end) as Hgo.
  { intros rest p s0 Hlt Hnil. destruct (take depth p) as [|x batch] eqn:Et.
    - apply IH. apply Hnil. destruct p; [done|]. destruct depth; [lia|done].
    - destruct (writer_round s0 (x :: batch)) as [[] s1]; [|by eexists]. apply IH.
      rewrite length_app in *. rewrite length_drop. destruct p; [by rewrite take_nil in Et|].
      simpl in Hlt |- *. lia. }
  destruct arrivals as [|a arrivals], pending as [|x pending]; simpl; [by eexists|apply Hgo..];
    rewrite ?app_nil_r in *; simpl in *; rewrite ?length_app in *; try case_decide; simpl in *; try done; try lia.
Qed.
End loop.

(** ** A concrete sink *)

(** A sink around a stream that takes everything: the buffer, the stream, and the backpressure
    boundary; a message is a list of bytes sent after its length, and empty messages are refused. *)
Record DemoSink := mkDemoSink { dm_buffer : list N; dm_stream : list N; dm_boundary : nat }.

Definition demo_encode (m : list N) : IoResult (list N) :=
  match m with [] => Err (mkIoError InvalidData NoPayload) | _ => Ok (N.of_nat (length m) :: m) end.

#[export, program] Instance demo_framed : FramedWrite DemoSink (list N) := {
  write_buffer := dm_buffer;
  written := dm_stream;
  encode := λ _, demo_encode;
  poll_ready := λ w,
    (Ready (Ok ()), if dm_boundary w <=? length (dm_buffer w)
                    then mkDemoSink [] (dm_stream w ++ dm_buffer w) (dm_boundary w) else w);
  start_send := λ w m,
    match demo_encode m with
    | Ok bs => (Ready (Ok ()), mkDemoSink (dm_buffer w ++ bs) (dm_stream w) (dm_boundary w))
    | Err e => (Ready (Err e), w)
    end;
  flush := λ w, (Ready (Ok ()), mkDemoSink [] (dm_stream w ++ dm_buffer w) (dm_boundary w));
}.
Next Obligation. intros w w'. simpl. case_match; intros; simplify_eq/=; by rewrite ?app_nil_r. Qed.
Next Obligation. intros w w' m. simpl. destruct (demo_encode m); intros; simplify_eq/=. eauto. Qed.
Next Obligation. intros w w'. simpl. intros; by simplify_eq/=. Qed.

Definition demo_writer : WriterState (W := DemoSink) :=
  mkWriterState (mkDemoSink [] [] 3) (default_stats 0) (default_stats 0) default_heuristics [].

Definition demo_message (k d : nat) : WrappedMessage (list N) := wrap (Some (replicate k 7%N)) (Some d).

(** ** Properties *)

(** The byte accounting of [write_batch] is exact: when it succeeds, the whole batch has been
    handed to the stream, as the concatenation of the messages' encodings in order, nothing is left
    in the write buffer, and the reported numbers are those of the batch's messages and of exactly
    the bytes these encodings added, no matter how often the sink flushed in between. *)
Theorem write_batch_exact {W M} `{FramedWrite W M} (w : W) (batch : list (WrappedMessage M)) h msgs bytes w' batch' h' :
  write_batch w batch h = (Some (Ok (msgs, bytes)), w', batch', h') →
  ∃ bss, Forall2 (encoded_as (W := W)) batch bss ∧
    written w' = written w ++ write_buffer w ++ mjoin bss ∧ write_buffer w' = [] ∧
    msgs = length batch ∧ bytes = length (mjoin bss) ∧ h' = h.
Proof.
  intros [_ Hok]%write_batch_spec. destruct (Hok _ _ eq_refl) as (->&->&_&Hb&bss&Hf&Hw&->).
  exists bss. split_and!; try done. rewrite Hw. unfold wire. by rewrite app_assoc.
Qed.

Lemma write_batch_exact_witness :
  ∃ w' b' h', write_batch (mkDemoSink [1%N] [] 3) [demo_message 2 0; demo_message 3 1; demo_message 1 2] default_heuristics
      = (Some (Ok (3, 9)), w', b', h') ∧ 9 = length (dm_stream w') - 1.
Proof.
  destruct (write_batch (mkDemoSink [1%N] [] 3) [demo_message 2 0; demo_message 3 1; demo_message 1 2] default_heuristics)
    as [[[r w'] b'] h'] eqn:E. exists w', b', h'.
  assert (r = Some (Ok (3, 9))) as -> by (vm_compute in E; by simplify_eq).
  split; [done|]. destruct (write_batch_exact _ _ _ _ _ _ _ _ E) as (bss&_&Hw&_&_&Hl&_).
  change (dm_stream w' = [] ++ [1%N] ++ mjoin bss) in Hw. rewrite Hw. simpl. lia.
Defined.

(** C19. The writer task settles the fate of every message it was given.  The loop ends as soon as
    the channel is closed and drained; the messages then split, in the order in which they were
    queued, into those delivered (each confirmed with success, exactly once), those of one failed
    batch, and those still queued behind it (whose confirmations are dropped).  The failed batch was
    ended by an operation of the sink: each of its messages is told that operation's error, or that
    the write timed out, exactly once, and none is told anything only if the codec panicked.  The
    statistics of the connection and the node count exactly the delivered messages and their bytes on
    the wire. *)
Theorem writer_task_delivers {W M} `{FramedWrite W M} fuel depth (arrivals : list (list (WrappedMessage M))) (s : WriterState (W := W)) :
  0 < depth → length arrivals + length (mjoin arrivals) < fuel →
  stats_wf (conn_stats s) → stats_wf (node_stats s) →
  ∃ s' left delivered failed,
    writer_loop fuel depth arrivals [] s = Some (s', left) ∧
    mjoin arrivals = delivered ++ failed ++ left ∧ (failed = [] → left = []) ∧
    fate s s' delivered failed.
Proof.
  intros Hd Hf H1 H2. destruct (writer_loop_total fuel depth arrivals [] s Hd Hf) as [[s' left] E].
  destruct (writer_loop_fate _ _ _ _ _ _ _ H1 H2 E) as (delivered&failed&?&?&?).
  by exists s', left, delivered, failed.
Qed.

Lemma writer_task_delivers_witness :
  ∃ s' left delivered failed,
    writer_loop 20 2 [[demo_message 2 0]; []; [demo_message 1 1; demo_message 0 2; demo_message 1 3]] [] demo_writer
      = Some (s', left) ∧ fate demo_writer s' delivered failed ∧
    msgs_sent (conn_stats s') = 1%N ∧ length left = 1 ∧ length (notified s') = 3.
Proof.
  destruct (writer_task_delivers 20 2
    [[demo_message 2 0]; []; [demo_message 1 1; demo_message 0 2; demo_message 1 3]] demo_writer)
    as (s'&left&delivered&failed&E&_&_&Hft); [lia|simpl; lia|by vm_compute|by vm_compute|].
  exists s', left, delivered, failed. split; [exact E|]. split; [exact Hft|].
  vm_compute in E. injection E as <- <-. by vm_compute.
Defined.

(** C24. [queue_message] follows the error contract of [Writing::unicast]: it is refused as
    unsupported without an enabled protocol (or with another message type), as not connected
    without a sender for the address, with [BrokenPipe] when the writer task is gone and with
    [QuotaExceeded] when its queue is full; a refused message is queued nowhere.  Otherwise the
    message is appended to the queue of that very address and no other, with a notification
    exactly if one was requested (so [unicast]'s [unwrap] cannot panic), and the queue never exceeds
    its depth. *)
Theorem queue_message_contract {M} self_type (st : WritingState M) addr (m : M) confirm :
  let '(r, st') := queue_message self_type st addr m confirm in
  senders st' = senders st ∧
  match r with
  | Err e =>
      chans st' = chans st ∧
      match senders st with
      | None => kind e = Unsupported
      | Some ss =>
          match ss !! addr with
          | None => kind e = NotConnected
          | Some s =>
              if (type_id s =? self_type)%N then
                match chans st !! chan s with
                | Some c => kind e = (if rx_alive c then QuotaExceeded else BrokenPipe) ∧
                            (rx_alive c = true → capacity c ≤ length (queue c))
                | None => kind e = BrokenPipe
                end
              else kind e = Unsupported
          end
      end
  | Ok d =>
      (is_Some d ↔ confirm = true) ∧
      ∃ s c, (ss ← senders st; ss !! addr) = Some s ∧ chans st !! chan s = Some c ∧ rx_alive c = true ∧
        length (queue c) < capacity c ∧
        chans st' = <[chan s := mkChan (capacity c) (queue c ++ [wrap (Some m) d]) true]> (chans st)
  end.
Proof.
  unfold queue_message. destruct (senders st) as [ss|] eqn:Es; [|done].
  destruct (ss !! addr) as [s|] eqn:Ea; [|by rewrite Es].
  destruct (type_id s =? self_type)%N eqn:Et; simpl; [|by rewrite Es].
  destruct (chans st !! chan s) as [[cap q []]|] eqn:Ec; unfold try_send; simpl.
  - destruct (Nat.leb_spec cap (length q)); destruct confirm; simpl;
      (split; [done|]); try done; (split; [naive_solver|]); eexists s, _; rewrite Ea; by split_and!.
  - destruct confirm; by simpl.
  - destruct confirm; by simpl.
Qed.

(** The messages a channel holds after a broadcast. *)
Definition broadcast_result {M} (m : M) (c : Chan M) : Chan M :=
  if rx_alive c && (length (queue c) <? capacity c)
  then mkChan (capacity c) (queue c ++ [wrap (Some m) None]) (rx_alive c) else c.

Section broadcasting.
Context {M : Type} (self_type : N) (ss : gmap SocketAddr Sender).
(** Senders of the node's own message type, each with a channel of its own. *)
Context (Htype : ∀ a s, ss !! a = Some s → type_id s = self_type).
Context (Hinj : ∀ a a' s s', ss !! a = Some s → ss !! a' = Some s' → chan s = chan s' → a = a').
Implicit Types (st : WritingState M).

Lemma queue_message_fast st a s c (m : M) :
  senders st = Some ss → ss !! a = Some s → chans st !! chan s = Some c →
  ∃ r st', queue_message self_type st a m false = (r, st') ∧
    (∀ e, r = Err e → kind e ≠ Unsupported) ∧ senders st' = Some ss ∧
    chans st' = <[chan s := broadcast_result m c]> (chans st).
Proof.
  intros Hs Ha Hc. unfold queue_message. rewrite Hs, Ha, (Htype _ _ Ha), N.eqb_refl. simpl.
  rewrite Hc. simpl. unfold try_send, broadcast_result. destruct c as [cap q []]; simpl in *.
  - destruct (Nat.leb_spec cap (length q)), (Nat.ltb_spec (length q) cap); try lia;
      eexists _, _; split_and!; try done; [by intros ? [= <-]| simpl; by rewrite insert_id].
  - eexists _, _; split_and!; try done; [by intros ? [= <-]| simpl; by rewrite insert_id].
Qed.

Lemma broadcast_to_spec st addrs (m : M) :
  senders st = Some ss → NoDup addrs → (∀ a, a ∈ addrs → ∃ s, ss !! a = Some s) →
  (∀ a s, ss !! a = Some s → is_Some (chans st !! chan s)) →
  ∃ st', broadcast_to self_type st addrs m = (Ok (), st') ∧ senders st' = Some ss ∧
    (∀ k, (∀ a s, a ∈ addrs → ss !! a = Some s → chan s ≠ k) → chans st' !! k = chans st !! k) ∧
    (∀ a s c, a ∈ addrs → ss !! a = Some s → chans st !! chan s = Some c →
       chans st' !! chan s = Some (broadcast_result m c)).
Proof.
  intros Hs Hnd. revert st Hs. induction Hnd as [|a addrs Ha Hnd IH]; intros st Hs Hin Hch; simpl.
  { exists st. split_and!; try done. by intros ??? ?%not_elem_of_nil. }
  destruct (Hin a) as [s Hsa]; [by left|]. destruct (Hch _ _ Hsa) as [c Hc].
  destruct (queue_message_fast st a s c m Hs Hsa Hc) as (r&st1&->&Hr&Hs1&Hc1).
  assert (∃ st', broadcast_to self_type st1 addrs m = (Ok (), st') ∧ senders st' = Some ss ∧
    (∀ k, (∀ a s, a ∈ addrs → ss !! a = Some s → chan s ≠ k) → chans st' !! k = chans st1 !! k) ∧
    (∀ a s c, a ∈ addrs → ss !! a = Some s → chans st1 !! chan s = Some c →
       chans st' !! chan s = Some (broadcast_result m c))) as (st'&Hb&Hs'&Hk&Hq).
  { apply IH; [done|intros; apply Hin; by right|]. intros a' s' Ha'. rewrite Hc1, lookup_insert.
    case_decide; [by eexists|]. by eapply Hch. }
  exists st'. split_and!; [|done|..].
  - destruct r as [d|e]; [done|]. rewrite bool_decide_eq_false_2; [done|]. by apply Hr.
  - intros k Hno. rewrite Hk; [|intros a' s' Ha'; apply Hno; by right].
    rewrite Hc1, lookup_insert_ne; [done|]. apply (Hno a s); [by left|done].
  - intros a' s' c' Ha' Hsa' Hc'. apply elem_of_cons in Ha' as [->|Ha'].
    + simplify_eq. rewrite Hk, Hc1, lookup_insert_eq; [done|].
      intros a'' s'' Ha'' Hs'' E. pose proof (Hinj _ _ _ _ Hs'' Hsa E). by subst.
    + eapply Hq; [done..|]. rewrite Hc1, lookup_insert_ne; [done|]. intros E.
      pose proof (Hinj _ _ _ _ Hsa Hsa' E). by subst.
Qed.
End broadcasting.

(** C25. [broadcast] reaches every connected peer: with senders of the node's own message type, it
    returns [Ok], appends the message exactly once to every queue that is open and has room, leaves
    the full and the closed ones alone, and touches no channel that is not in the senders map. *)
Theorem broadcast_reaches_all {M} self_type (st : WritingState M) ss (m : M) :
  senders st = Some ss →
  (∀ a s, ss !! a = Some s → type_id s = self_type) →
  (∀ a a' s s', ss !! a = Some s → ss !! a' = Some s' → chan s = chan s' → a = a') →
  (∀ a s, ss !! a = Some s → is_Some (chans st !! chan s)) →
  ∃ st', broadcast self_type st m = (Ok (), st') ∧
    (∀ a s c, ss !! a = Some s → chans st !! chan s = Some c →
       chans st' !! chan s = Some (broadcast_result m c)) ∧
    (∀ k, (∀ a s, ss !! a = Some s → chan s ≠ k) → chans st' !! k = chans st !! k).
Proof.
  intros Hs Ht Hi Hc. unfold broadcast. rewrite Hs.
  assert (∀ a, a ∈ (map_to_list ss).*1 ↔ ∃ s, ss !! a = Some s) as Hel.
  { intros a. rewrite list_elem_of_fmap. split.
    - intros ([a' s]&->&Hin). exists s. by apply elem_of_map_to_list.
    - intros [s Ha]. exists (a, s). split; [done|]. by apply elem_of_map_to_list. }
  destruct (broadcast_to_spec self_type ss Ht Hi st (map_to_list ss).*1 m Hs) as (st'&Hb&_&Hk&Hq).
  - apply NoDup_fst_map_to_list.
  - intros a Ha. by apply Hel.
  - done.
  - exists st'. split_and!; [done| |].
    + intros a s c Ha Hch. eapply Hq; [|done..]. apply Hel. eauto.
    + intros k Hno. apply Hk. intros a s _. apply Hno.
Qed.

Lemma broadcast_reaches_all_witness :
  ∃ st', broadcast 5 (mkWritingState (Some {[SockV4 1 1 := mkSender 0 5 0]}) {[0 := mkChan 2 [] true]} 0) 9 = (Ok (), st') ∧
    chans st' !! 0 = Some (mkChan 2 [wrap (Some 9) None] true).
Proof.
  destruct (broadcast_reaches_all 5
    (mkWritingState (Some {[SockV4 1 1 := mkSender 0 5 0]}) {[0 := mkChan 2 [] true]} 0)
    {[SockV4 1 1 := mkSender 0 5 0]} 9) as (st'&Hb&Hq&_).
  - reflexivity.
  - intros a s [_ <-]%lookup_singleton_Some. reflexivity.
  - intros a a' s s' [<- _]%lookup_singleton_Some [<- _]%lookup_singleton_Some _. reflexivity.
  - intros a s [_ <-]%lookup_singleton_Some. eexists. reflexivity.
  - exists st'. split; [exact Hb|].
    exact (Hq (SockV4 1 1) (mkSender 0 5 0) (mkChan 2 [] true) eq_refl eq_refl).
Defined.
