(* ===== verification/Topology.v ===== *)
(** * Test topologies ([pea2pea/src/topology.rs])

    [Topology], [Topology::num_expected_connections] and [connect_nodes], which dials the edges of
    a topology one by one.  Node indices are natural numbers; the target mixer of
    [Topology::Random] works on [u64]s. *)

From S2P Require Import Prelude.

Inductive Topology :=
| Line
| Ring
| Mesh
| Star
| Grid (width height : nat)
| Tree
| Random (degree : nat) (seed : N).

(** [Topology::num_expected_connections]; [nat] subtraction is the [saturating_sub] of the source,
    and the plain subtractions do not underflow. *)
Definition num_expected_connections (topology : Topology) (num_nodes : nat) : nat :=
  if num_nodes =? 0 then 0
  else match topology with
       | Line => (num_nodes - 1) * 2
       | Ring => num_nodes * 2
       | Mesh => (num_nodes - 1) * num_nodes
       | Star => (num_nodes - 1) * 2
       | Grid width height => ((width - 1) * height + width * (height - 1)) * 2
       | Tree => (num_nodes - 1) * 2
       | Random degree _ => num_nodes * degree * 2
       end.

(** The target mixer of [Topology::Random]. *)
Definition mix (i seed attempt : N) : N :=
  let x := wrapping_add (wrapping_add i seed) attempt in
  let x := wrapping_mul x 0x517cc1b727220a95 in
  N.lxor x (N.shiftr x 32).

Definition target (count : nat) (i : nat) (seed attempt : N) : nat :=
  N.to_nat (mix (N.of_nat i) seed attempt mod N.of_nat count).

(** The [while] loop that picks the targets of node [i]: [chosen] are the targets so far, newest
    first, [fuel] bounds the remaining attempts. *)
Fixpoint pick_targets (fuel : nat) (count i degree : nat) (seed attempt : N) (chosen : list nat)
  : option (list nat) :=
  if length chosen <? degree then
    match fuel with
    | 0 => None
    | S fuel =>
        let attempt := (attempt + 1)%N in
        let tg := target count i seed attempt in
        if bool_decide (tg ≠ i) && bool_decide (tg ∉ chosen)
        then pick_targets fuel count i degree seed attempt (tg :: chosen)
        else pick_targets fuel count i degree seed attempt chosen
    end
  else Some (rev chosen).

Definition fan_out (i : nat) (targets : list nat) : list (nat * nat) := (λ j, (i, j)) <$> targets.

Definition random_edges (fuel count degree : nat) (seed : N) : option (list (nat * nat)) :=
  mjoin <$> mapM (λ i, fan_out i <$> pick_targets fuel count i degree seed 0 []) (seq 0 count).

Definition line_edges (count : nat) : list (nat * nat) := (λ i, (i, i + 1)) <$> seq 0 (count - 1).

Definition mesh_edges (count : nat) : list (nat * nat) :=
  i ← seq 0 count; (λ j, (i, j)) <$> seq (i + 1) (count - (i + 1)).

Definition star_edges (count : nat) : list (nat * nat) := (λ i, (i, 0)) <$> seq 1 (count - 1).

Definition grid_edges (width height : nat) : list (nat * nat) :=
  row ← seq 0 height; col ← seq 0 width;
  let i := row * width + col in
  (if col + 1 <? width then [(i, i + 1)] else []) ++
  (if row + 1 <? height then [(i, i + width)] else []).

Definition tree_edges (count : nat) : list (nat * nat) :=
  i ← seq 0 count;
  (if 2 * i + 1 <? count then [(i, 2 * i + 1)] else []) ++
  (if 2 * i + 2 <? count then [(i, 2 * i + 2)] else []).

Definition invalid_input : IoError := mkIoError InvalidInput NoPayload.

Definition grid_mismatch (width height count : nat) : IoError :=
  mkIoError InvalidInput (Message ("Grid topology dimensions (" +:+ pretty width +:+ "x" +:+
    pretty height +:+ " = " +:+ pretty (width * height) +:+
    ") do not match the number of nodes (" +:+ pretty count +:+ ")")).

Definition degree_too_large : IoError :=
  mkIoError InvalidInput (Message "Random topology degree cannot exceed N-1").

(** The dials [connect_nodes] makes, in order; [None] if the fuel for [Topology::Random] ran out. *)
Definition edges (fuel count : nat) (topology : Topology) : option (IoResult (list (nat * nat))) :=
  if count <? 2 then Some (Err invalid_input)
  else match topology with
       | Line => Some (Ok (line_edges count))
       | Ring => Some (Ok (line_edges count ++ [(count - 1, 0)]))
       | Mesh => Some (Ok (mesh_edges count))
       | Star => Some (Ok (star_edges count))
       | Grid width height =>
           if width * height =? count then Some (Ok (grid_edges width height))
           else Some (Err (grid_mismatch width height count))
       | Tree => Some (Ok (tree_edges count))
       | Random degree seed =>
           if count <=? degree then Some (Err degree_too_large)
           else Ok <$> random_edges fuel count degree seed
       end.

(** Dialing edge after edge with [?]: the first failure ends it. *)
Fixpoint dial_all {S} (dial : nat → nat → S → IoResult S) (es : list (nat * nat)) (st : S) : IoResult S :=
  match es with
  | [] => Ok st
  | (i, j) :: es => let? st := dial i j st in dial_all dial es st
  end.

(** [connect_nodes]; [dial i j] is [nodes[j].node().listening_addr()] followed by
    [nodes[i].node().connect(..)], acting on a state [S] of the nodes. *)
Definition connect_nodes {S} (fuel : nat) (dial : nat → nat → S → IoResult S) (count : nat)
  (topology : Topology) (st : S) : option (IoResult S) :=
  (λ r, let? es := r in dial_all dial es st) <$> edges fuel count topology.

(** ** Counting edges *)

Definition sums (f : nat → nat) (n : nat) : nat := sum_list_with f (seq 0 n).

Lemma sums_S f n : sums f (S n) = sums f n + f n.
Proof. unfold sums. rewrite seq_S, sum_list_with_app. simpl. lia. Qed.

Lemma length_bind {A B} (f : A → list B) (l : list A) :
  length (l ≫= f) = sum_list_with (λ x, length (f x)) l.
Proof. induction l as [|x l IH]; csimpl; [done|]. by rewrite length_app, IH. Qed.

Lemma mesh_edges_length n : 2 * length (mesh_edges n) = (n - 1) * n.
Proof.
  unfold mesh_edges. rewrite length_bind.
  assert (∀ m, m ≤ n → 2 * sums (λ i, n - (i + 1)) m + m * m + m = 2 * m * n) as H.
  { induction m as [|m IH]; intros Hm; [done|]. rewrite sums_S. specialize (IH ltac:(lia)). nia. }
  specialize (H n ltac:(lia)). unfold sums in H.
  erewrite (sum_list_with_ext _ (λ i, n - (i + 1))) by (intros; by rewrite length_fmap, length_seq).
  destruct n; [done|]. nia.
Qed.

Lemma tree_edges_length n : length (tree_edges (S n)) = n.
Proof.
  unfold tree_edges. rewrite length_bind.
  assert (∀ m, sums (λ i, (if 2 * i + 1 <? S n then 1 else 0) + (if 2 * i + 2 <? S n then 1 else 0)) m = min (2 * m) n) as H.
  { induction m as [|m IH]; [done|]. rewrite sums_S, IH.
    destruct (Nat.ltb_spec (2 * m + 1) (S n)), (Nat.ltb_spec (2 * m + 2) (S n)); lia. }
  specialize (H (S n)). unfold sums in H.
  etrans; [apply sum_list_with_ext; intros i|etrans; [exact H|lia]].
  rewrite length_app. by destruct (2 * i + 1 <? S n), (2 * i + 2 <? S n).
Qed.

Lemma grid_edges_length w h : length (grid_edges w h) = (w - 1) * h + w * (h - 1).
Proof.
  unfold grid_edges. rewrite length_bind.
  assert (∀ b m, sums (λ col, (if col + 1 <? w then 1 else 0) + b2n b) m = min m (w - 1) + b2n b * m) as Hrow.
  { intros b. induction m as [|m IH]; [by rewrite Nat.mul_0_r|]. rewrite sums_S, IH.
    destruct (Nat.ltb_spec (m + 1) w), b; simpl b2n; lia. }
  assert (∀ m, sums (λ row, (w - 1) + b2n (row + 1 <? h) * w) m = m * (w - 1) + min m (h - 1) * w) as Hcol.
  { induction m as [|m IH]; [done|]. rewrite sums_S, IH.
    destruct (Nat.ltb_spec (m + 1) h); simpl b2n; nia. }
  specialize (Hcol h). unfold sums in *.
  etrans; [apply sum_list_with_ext; intros row|etrans; [exact Hcol|]].
  - rewrite length_bind. specialize (Hrow (row + 1 <? h) w).
    etrans; [apply sum_list_with_ext; intros col|etrans; [exact Hrow|lia]].
    rewrite length_app. by destruct (col + 1 <? w), (row + 1 <? h).
  - nia.
Qed.

(** ** The random targets *)

Section mixer.
Local Open Scope N_scope.

(** The modular inverse of the mixer's odd constant. *)
Definition mix_inverse : N := 2323857671730065597.

Lemma wrapping_mul_inverse x :
  x < u64_max → wrapping_mul (wrapping_mul x 0x517cc1b727220a95) mix_inverse = x.
Proof.
  intros Hx. unfold wrapping_mul. rewrite N.Div0.mul_mod_idemp_l, <-N.mul_assoc.
  rewrite <-N.Div0.mul_mod_idemp_r. assert ((0x517cc1b727220a95 * mix_inverse) mod u64_max = 1) as -> by (by vm_compute).
  rewrite N.mul_1_r. by apply N.mod_small.
Qed.

Lemma wrapping_mul_inverse' x :
  x < u64_max → wrapping_mul (wrapping_mul x mix_inverse) 0x517cc1b727220a95 = x.
Proof.
  intros Hx. unfold wrapping_mul. rewrite N.Div0.mul_mod_idemp_l, <-N.mul_assoc.
  rewrite <-N.Div0.mul_mod_idemp_r. assert ((mix_inverse * 0x517cc1b727220a95) mod u64_max = 1) as -> by (by vm_compute).
  rewrite N.mul_1_r. by apply N.mod_small.
Qed.

Lemma wrapping_mul_lt a b : wrapping_mul a b < u64_max.
Proof. unfold wrapping_mul. by apply N.mod_lt. Qed.

(** Xoring a 64-bit word with its upper half is an involution. *)
Lemma xorshift_involutive x :
  x < u64_max → N.lxor (N.lxor x (N.shiftr x 32)) (N.shiftr (N.lxor x (N.shiftr x 32)) 32) = x.
Proof.
  intros Hx. rewrite N.shiftr_lxor, N.shiftr_shiftr.
  replace (N.shiftr x (32 + 32)) with 0.
  - rewrite N.lxor_0_r, N.lxor_assoc, N.lxor_nilpotent. apply N.lxor_0_r.
  - rewrite N.shiftr_div_pow2. symmetry. by apply N.div_small.
Qed.

Lemma xorshift_lt x : x < u64_max → N.lxor x (N.shiftr x 32) < u64_max.
Proof.
  intros Hx. destruct (N.eq_dec (N.lxor x (N.shiftr x 32)) 0) as [->|Hne]; [done|].
  apply N.log2_lt_pow2; [lia|].
  assert (∀ y, y < u64_max → N.log2 y < 64) as Hlog.
  { intros y Hy. destruct (N.eq_dec y 0) as [->|]; [done|]. apply N.log2_lt_pow2; [lia|done]. }
  eapply N.le_lt_trans; [apply N.log2_lxor|]. apply N.max_lub_lt; [by apply Hlog|].
  apply Hlog. rewrite N.shiftr_div_pow2. eapply N.le_lt_trans; [|done].
  apply N.Div0.div_le_upper_bound. change (2 ^ 32) with 4294967296. lia.
Qed.

(** Every 64-bit value is produced by exactly one attempt number. *)
Lemma mix_surjective i seed y :
  y < u64_max → ∃ attempt, attempt < u64_max ∧ mix i seed attempt = y.
Proof.
  intros Hy.
  set (x := N.lxor y (N.shiftr y 32)). set (u := wrapping_mul x mix_inverse).
  set (b := wrapping_add i seed).
  assert (b < u64_max) as Hb by (unfold b, wrapping_add; by apply N.mod_lt).
  assert (u < u64_max) as Hu by apply wrapping_mul_lt.
  exists ((u + (u64_max - b)) mod u64_max). split; [by apply N.mod_lt|].
  unfold mix. fold b. replace (wrapping_add b _) with u.
  - unfold u. rewrite wrapping_mul_inverse' by (by apply xorshift_lt). by apply xorshift_involutive.
  - unfold wrapping_add. rewrite N.Div0.add_mod_idemp_r.
    replace (b + (u + (u64_max - b))) with (u + 1 * u64_max) by lia.
    rewrite N.Div0.mod_add. symmetry. by apply N.mod_small.
Qed.

(** Some attempt number from 1 on, below the overflow of the [u64] counter, hits a given target. *)
Lemma target_hit count i seed (r : nat) :
  N.of_nat count ≤ 2 ^ 63 → (r < count)%nat →
  ∃ attempt, 0 < attempt < u64_max ∧ target count i seed attempt = r.
Proof.
  intros Hc Hr. change (2 ^ 63) with 9223372036854775808 in Hc.
  assert (∀ y, y < u64_max → y mod N.of_nat count = N.of_nat r → ∀ attempt, mix (N.of_nat i) seed attempt = y →
    target count i seed attempt = r) as Ht.
  { intros y _ Hm att E. unfold target. rewrite E, Hm. lia. }
  assert (N.of_nat r mod N.of_nat count = N.of_nat r) as E1 by (apply N.mod_small; lia).
  assert ((N.of_nat r + 1 * N.of_nat count) mod N.of_nat count = N.of_nat r) as E2
    by (rewrite N.Div0.mod_add; exact E1).
  assert (N.of_nat r < u64_max) as L1 by (unfold u64_max; change (2 ^ 64) with 18446744073709551616; lia).
  assert (N.of_nat r + 1 * N.of_nat count < u64_max) as L2 by (unfold u64_max; change (2 ^ 64) with 18446744073709551616; lia).
  destruct (mix_surjective (N.of_nat i) seed _ L1) as (a1&Ha1&M1).
  destruct (mix_surjective (N.of_nat i) seed _ L2) as (a2&Ha2&M2).
  destruct (N.eq_dec a1 0) as [->|]; [|exists a1; split; [lia|exact (Ht _ L1 E1 _ M1)]].
  destruct (N.eq_dec a2 0) as [->|]; [|exists a2; split; [lia|exact (Ht _ L2 E2 _ M2)]].
  exfalso. rewrite M1 in M2. lia.
Qed.
End mixer.

(** If the picking loop is still unsatisfied when its fuel is used up, it has collected every
    target it came across. *)
Lemma pick_targets_None fuel count i degree seed attempt chosen :
  pick_targets fuel count i degree seed attempt chosen = None →
  ∃ chosen', length chosen' < degree ∧
    ∀ m, (attempt < m ≤ attempt + N.of_nat fuel)%N →
      target count i seed m = i ∨ target count i seed m ∈ chosen'.
Proof.
  revert attempt chosen.
  assert (∀ fuel attempt chosen, pick_targets fuel count i degree seed attempt chosen = None →
    ∃ chosen', length chosen' < degree ∧ chosen ⊆ chosen' ∧
    ∀ m, (attempt < m ≤ attempt + N.of_nat fuel)%N →
      target count i seed m = i ∨ target count i seed m ∈ chosen') as H.
  { clear fuel. induction fuel as [|fuel IH]; intros attempt chosen; simpl;
      destruct (Nat.ltb_spec (length chosen) degree) as [Hl|]; try done.
    - intros _. exists chosen. split_and!; [done|done|lia].
    - set (tg := target count i seed (attempt + 1)).
      case_bool_decide as Hi; [case_bool_decide as Hc|]; simpl; intros (ch&H1&H2&H3)%IH; exists ch;
        (split_and!; [done|set_solver|]); intros m Hm;
        (destruct (N.eq_dec m (attempt + 1)) as [->|]; [fold tg|apply H3; lia]).
      + right. apply H2. by left.
      + right. apply H2. destruct (decide (tg ∈ chosen)); tauto.
      + left. destruct (decide (tg = i)); tauto. }
  intros attempt chosen (ch&?&_&?)%H. eauto.
Qed.

Lemma pick_targets_Some fuel count i degree seed attempt chosen ts :
  pick_targets fuel count i degree seed attempt chosen = Some ts →
  0 < count → length chosen ≤ degree → NoDup chosen → (∀ j, j ∈ chosen → j < count ∧ j ≠ i) →
  length ts = degree ∧ NoDup ts ∧ (∀ j, j ∈ ts → j < count ∧ j ≠ i).
Proof.
  revert attempt chosen. induction fuel as [|fuel IH]; intros attempt chosen; simpl;
    destruct (Nat.ltb_spec (length chosen) degree) as [Hl|]; try done.
  1, 3: intros; simplify_eq; rewrite length_rev; split_and!;
    [lia|by rewrite <-Permutation_rev|intros j; rewrite <-Permutation_rev; auto].
  intros Hp Hc Hle Hnd Hin.
  assert (target count i seed (attempt + 1) < count).
  { unfold target. pose proof (N.mod_lt (mix (N.of_nat i) seed (attempt + 1)) (N.of_nat count)). lia. }
  case_bool_decide as Hi; [case_bool_decide as Hn|]; simpl in Hp; eapply IH in Hp; eauto.
  - by constructor.
  - intros j [->|Hj]%elem_of_cons; [done|by apply Hin].
Qed.

Lemma filter_all {A} (P : A → Prop) `{∀ x, Decision (P x)} (l : list A) :
  (∀ x, x ∈ l → P x) → filter P l = l.
Proof.
  induction l as [|x l IH]; intros Hl; [done|]. rewrite filter_cons, decide_True by (apply Hl; by left).
  f_equal. apply IH. intros y Hy. apply Hl. by right.
Qed.

(** All indices but one. *)
Lemma covering_length (ch : list nat) count i :
  (∀ r, r < count → r = i ∨ r ∈ ch) → count - 1 ≤ length ch.
Proof.
  intros H. assert (length (filter (λ r, r ≠ i) (seq 0 count)) ≤ length ch) as L.
  { apply submseteq_length, NoDup_submseteq; [apply NoDup_filter, NoDup_seq|].
    intros r. rewrite list_elem_of_filter, elem_of_seq. intros [? ?]. destruct (H r); [lia|done|done]. }
  etrans; [|exact L]. clear. assert (∀ k m, m ≤ S (length (filter (λ r, r ≠ i) (seq k m)))) as G; [|specialize (G 0 count); lia].
  intros k m. revert k. induction m as [|m IH]; intros k; simpl; [lia|].
  rewrite filter_cons. case_decide as Hk; [simpl; specialize (IH (S k)); lia|].
  destruct (decide (k = i)) as [<-|]; [|done].
  assert (filter (λ r, r ≠ k) (seq (S k) m) = seq (S k) m) as ->; [|rewrite length_seq; lia].
  apply filter_all. intros x [? ?]%elem_of_seq. lia.
Qed.

(** The attempt counter is a [u64] starting at zero: it may grow [2^64 - 1] times. *)
Definition max_attempts : nat := N.to_nat (u64_max - 1).

#[global] Opaque max_attempts.

Lemma max_attempts_spec : N.of_nat max_attempts = (u64_max - 1)%N.
Proof. Transparent max_attempts. unfold max_attempts. apply N2Nat.id. Qed.
#[global] Opaque max_attempts.

Lemma pick_targets_total count i degree seed :
  (N.of_nat count ≤ 2 ^ 63)%N → i < count → degree < count →
  ∃ ts, pick_targets max_attempts count i degree seed 0 [] = Some ts ∧
    length ts = degree ∧ NoDup ts ∧ (∀ j, j ∈ ts → j < count ∧ j ≠ i).
Proof.
  intros Hc Hi Hd. destruct (pick_targets max_attempts count i degree seed 0 []) as [ts|] eqn:E.
  - exists ts. split; [done|]. eapply pick_targets_Some; [done|lia|simpl; lia|constructor|set_solver].
  - exfalso. apply pick_targets_None in E as (ch&Hl&Hch).
    assert (count - 1 ≤ length ch); [|lia]. apply covering_length with i. intros r Hr.
    destruct (target_hit count i seed r Hc Hr) as (m&Hm&<-). apply Hch. rewrite max_attempts_spec. lia.
Qed.

Lemma random_edges_total count degree seed :
  (N.of_nat count ≤ 2 ^ 63)%N → degree < count →
  ∃ tss, random_edges max_attempts count degree seed =
      Some (mjoin (zip_with fan_out (seq 0 count) tss)) ∧ length tss = count ∧
    ∀ i ts, tss !! i = Some ts → length ts = degree ∧ NoDup ts ∧ (∀ j, j ∈ ts → j < count ∧ j ≠ i).
Proof.
  intros Hc Hd. unfold random_edges.
  assert (∀ k m, k + m ≤ count →
    ∃ tss, mapM (λ i, fan_out i <$> pick_targets max_attempts count i degree seed 0 []) (seq k m) =
        Some (zip_with fan_out (seq k m) tss) ∧ length tss = m ∧
      ∀ i ts, tss !! i = Some ts → length ts = degree ∧ NoDup ts ∧ (∀ j, j ∈ ts → j < count ∧ j ≠ k + i)) as H.
  { intros k m. revert k. induction m as [|m IH]; intros k Hk.
    - exists []. by split_and!.
    - destruct (pick_targets_total count k degree seed) as (ts&E&Hts); [done|lia|done|].
      destruct (IH (S k)) as (tss&E'&Hl&Htss); [lia|]. exists (ts :: tss). split_and!.
      + simpl. rewrite E. simpl. by rewrite E'.
      + simpl. by rewrite Hl.
      + intros [|i] ts' Hi; simplify_eq/=.
        * rewrite Nat.add_0_r. done.
        * replace (k + S i) with (S k + i) by lia. by apply Htss. }
  destruct (H 0 count) as (tss&->&Hl&Htss); [lia|]. exists tss. by split_and!.
Qed.

(** ** Well-formed edge lists *)

(** Distinct edges between different nodes. *)
Definition edges_ok (count : nat) (es : list (nat * nat)) : Prop :=
  NoDup es ∧ ∀ i j, (i, j) ∈ es → i < count ∧ j < count ∧ i ≠ j.

Lemma NoDup_bind_key {A B} (g : B → A) (f : A → list B) (l : list A) :
  NoDup l → (∀ x, x ∈ l → NoDup (f x) ∧ ∀ e, e ∈ f x → g e = x) → NoDup (l ≫= f).
Proof.
  induction 1 as [|x l Hx Hl IH]; intros H; csimpl; [constructor|].
  destruct (H x) as [Hn Hk]; [by left|]. apply NoDup_app. split_and!; [done| |].
  - intros e He (y&Hy&Hyl)%list_elem_of_bind. destruct (H y) as [_ Hk']; [by right|].
    apply Hk in He. apply Hk' in Hy. congruence.
  - apply IH. intros y Hy. apply H. by right.
Qed.

Lemma NoDup_seq_fmap (f : nat → nat * nat) k m : Inj (=) (=) f → NoDup (f <$> seq k m).
Proof. intros. apply NoDup_fmap_2; [done|]. apply NoDup_seq. Qed.

Lemma line_edges_ok n : edges_ok n (line_edges n).
Proof.
  split; [apply NoDup_seq_fmap; by intros ?? [=]|]. intros i j (k&[=]&Hk)%list_elem_of_fmap.
  apply elem_of_seq in Hk. lia.
Qed.

Lemma ring_edges_ok n : 2 ≤ n → edges_ok n (line_edges n ++ [(n - 1, 0)]).
Proof.
  intros Hn. destruct (line_edges_ok n) as [H1 H2]. split.
  - apply NoDup_app. split_and!; [done| |apply NoDup_singleton].
    intros [i j] (k&[=]&Hk)%list_elem_of_fmap. apply elem_of_seq in Hk.
    rewrite list_elem_of_singleton. intros [=]. lia.
  - intros i j [Hij|[= -> ->]%list_elem_of_singleton]%elem_of_app; [by apply H2|lia].
Qed.

Lemma mesh_edges_ok n : edges_ok n (mesh_edges n).
Proof.
  split.
  - apply (NoDup_bind_key fst); [apply NoDup_seq|]. intros i Hi. split; [apply NoDup_seq_fmap; by intros ?? [=]|].
    by intros e (j&->&_)%list_elem_of_fmap.
  - intros i j (k&Hk&Hkn)%list_elem_of_bind. apply list_elem_of_fmap in Hk as (m&[=]&Hm).
    apply elem_of_seq in Hm, Hkn. lia.
Qed.

Lemma star_edges_ok n : edges_ok n (star_edges n).
Proof.
  split; [apply NoDup_seq_fmap; by intros ?? [=]|]. intros i j (k&[=]&Hk)%list_elem_of_fmap.
  apply elem_of_seq in Hk. lia.
Qed.

Lemma elem_of_if {A} (b : bool) (x y : A) : x ∈ (if b then [y] else []) ↔ b = true ∧ x = y.
Proof. destruct b; [rewrite list_elem_of_singleton; naive_solver|]. split; [by intros ?%not_elem_of_nil|by intros []]. Qed.

Lemma NoDup_two_ifs {A} (b b' : bool) (x y : A) :
  x ≠ y → NoDup ((if b then [x] else []) ++ (if b' then [y] else [])).
Proof.
  intros Hxy. destruct b, b'; simpl; try constructor; try apply NoDup_singleton; try apply not_elem_of_nil; try constructor.
  by rewrite list_elem_of_singleton.
Qed.

Lemma tree_edges_ok n : edges_ok n (tree_edges n).
Proof.
  split.
  - apply (NoDup_bind_key fst); [apply NoDup_seq|]. intros i Hi. split.
    + apply NoDup_two_ifs. intros [=]. lia.
    + intros e. rewrite elem_of_app, !elem_of_if. by intros [[_ ->]|[_ ->]].
  - intros i j (k&Hk&Hkn)%list_elem_of_bind. apply elem_of_seq in Hkn.
    rewrite elem_of_app, !elem_of_if, !Nat.ltb_lt in Hk. destruct Hk as [[? [=]]|[? [=]]]; lia.
Qed.

Lemma elem_of_grid w h i j :
  (i, j) ∈ grid_edges w h ↔
  ∃ row col, row < h ∧ col < w ∧ i = row * w + col ∧
    (col + 1 < w ∧ j = i + 1 ∨ row + 1 < h ∧ j = i + w).
Proof.
  unfold grid_edges. rewrite list_elem_of_bind. setoid_rewrite list_elem_of_bind.
  setoid_rewrite elem_of_app. setoid_rewrite elem_of_if. setoid_rewrite elem_of_seq. setoid_rewrite Nat.ltb_lt.
  split.
  - intros (row&(col&[[? [=]]|[? [=]]]&?)&?); exists row, col; subst; split_and!; lia || auto with lia.
  - intros (row&col&?&?&->&Hj). exists row. split; [|lia]. exists col. split; [|lia]. naive_solver.
Qed.

Lemma grid_edges_ok w h : edges_ok (w * h) (grid_edges w h).
Proof.
  split.
  - apply (NoDup_bind_key (λ e, e.1 / w)); [apply NoDup_seq|]. intros row Hrow. split.
    + apply (NoDup_bind_key (λ e, e.1 - row * w)); [apply NoDup_seq|]. intros col Hcol%elem_of_seq. split.
      * destruct (decide (w = 1)) as [->|].
        -- replace (col + 1 <? 1) with false by (symmetry; apply Nat.ltb_ge; lia).
           simpl. destruct (_ <? _); [apply NoDup_singleton|constructor].
        -- apply NoDup_two_ifs. intros [=]. lia.
      * intros e. rewrite elem_of_app, !elem_of_if. intros [[_ ->]|[_ ->]]; simpl; lia.
    + intros e (col&He&Hcol)%list_elem_of_bind. apply elem_of_seq in Hcol.
      rewrite elem_of_app, !elem_of_if in He.
      assert (e.1 = row * w + col) as -> by (by destruct He as [[_ ->]|[_ ->]]).
      rewrite Nat.div_add_l by lia. rewrite Nat.div_small by lia. lia.
  - intros i j (row&col&?&?&->&[[? ->]|[? ->]])%elem_of_grid; nia.
Qed.

Lemma zip_fan_out_length k tss degree :
  (∀ i ts, tss !! i = Some ts → length ts = degree) →
  length (mjoin (zip_with fan_out (seq k (length tss)) tss)) = length tss * degree.
Proof.
  revert k. induction tss as [|ts tss IH]; intros k H; simpl; [done|].
  rewrite length_app, (IH (S k)) by (intros i ts' Hi; exact (H (S i) ts' Hi)).
  unfold fan_out. by rewrite length_fmap, (H 0 ts).
Qed.

Lemma elem_of_zip_fan_out k tss i j :
  (i, j) ∈ mjoin (zip_with fan_out (seq k (length tss)) tss) →
  ∃ m ts, tss !! m = Some ts ∧ i = k + m ∧ j ∈ ts.
Proof.
  revert k. induction tss as [|ts tss IH]; intros k; simpl; [by intros ?%not_elem_of_nil|].
  intros [(j'&[=]&Hj)%list_elem_of_fmap|(m&ts'&Hm&->&Hj)%IH]%elem_of_app; subst.
  - exists 0, ts. split_and!; [done|lia|done].
  - exists (S m), ts'. split_and!; [done|lia|done].
Qed.

Lemma zip_fan_out_NoDup k tss :
  (∀ i ts, tss !! i = Some ts → NoDup ts) → NoDup (mjoin (zip_with fan_out (seq k (length tss)) tss)).
Proof.
  revert k. induction tss as [|ts tss IH]; intros k H; simpl; [constructor|].
  apply NoDup_app. split_and!.
  - apply NoDup_fmap_2; [by intros ?? [=]|]. by apply (H 0).
  - intros [i j] (j'&[=]&Hj)%list_elem_of_fmap (m&?&_&?&_)%elem_of_zip_fan_out. lia.
  - apply IH. intros i ts' Hi. exact (H (S i) ts' Hi).
Qed.

(** Which topologies [connect_nodes] accepts. *)
Definition admissible (topology : Topology) (count : nat) : Prop :=
  2 ≤ count ∧
  match topology with
  | Grid width height => width * height = count
  | Random degree _ => degree < count ∧ (N.of_nat count ≤ 2 ^ 63)%N
  | _ => True
  end.

(** The picking loop of [Topology::Random] terminates: for up to [2^63] nodes and a degree
    below their number, every node finds its [degree] distinct peers, none of them itself, before
    the [u64] attempt counter could overflow, because the mixer runs through every 64-bit value. *)
Theorem random_terminates count i degree seed :
  (N.of_nat count ≤ 2 ^ 63)%N → i < count → degree < count →
  ∃ ts, pick_targets max_attempts count i degree seed 0 [] = Some ts ∧
    length ts = degree ∧ NoDup ts ∧ (∀ j, j ∈ ts → j < count ∧ j ≠ i).
Proof. apply pick_targets_total. Qed.

Lemma random_terminates_witness :
  ∃ ts, pick_targets max_attempts 10 3 4 42 0 [] = Some ts ∧ length ts = 4.
Proof.
  destruct (random_terminates 10 3 4 42) as (ts&H&Hl&_); [by vm_compute|lia|lia|].
  exists ts. split; [exact H|exact Hl].
Defined.

Lemma edges_admissible count topology :
  admissible topology count →
  ∃ es, edges max_attempts count topology = Some (Ok es) ∧ edges_ok count es ∧
    2 * length es = num_expected_connections topology count.
Proof.
  intros [H2 Ht]. unfold edges, num_expected_connections.
  destruct (Nat.ltb_spec count 2); [lia|]. destruct (Nat.eqb_spec count 0); [lia|].
  destruct topology; simpl in Ht.
  - eexists. split_and!; [done|apply line_edges_ok|]. unfold line_edges. rewrite length_fmap, length_seq. lia.
  - eexists. split_and!; [done|by apply ring_edges_ok|]. unfold line_edges.
    rewrite length_app, length_fmap, length_seq. simpl. lia.
  - eexists. split_and!; [done|apply mesh_edges_ok|apply mesh_edges_length].
  - eexists. split_and!; [done|apply star_edges_ok|]. unfold star_edges. rewrite length_fmap, length_seq. lia.
  - rewrite (proj2 (Nat.eqb_eq _ _) Ht). eexists. split_and!; [done|subst; apply grid_edges_ok|].
    rewrite grid_edges_length. lia.
  - eexists. split_and!; [done|apply tree_edges_ok|]. destruct count; [lia|]. rewrite tree_edges_length. lia.
  - destruct Ht as [Hd Hc]. destruct (Nat.leb_spec count degree); [lia|].
    destruct (random_edges_total count degree seed Hc Hd) as (tss&->&Hl&Hts). simpl. eexists. split; [done|].
    rewrite <-Hl. split; [split|].
    + apply zip_fan_out_NoDup. intros i ts Hi. by apply (Hts i).
    + intros i j (m&ts&Hm&->&Hj)%elem_of_zip_fan_out. destruct (Hts _ _ Hm) as (_&_&Hr).
      destruct (Hr j Hj). apply lookup_lt_Some in Hm. simpl. lia.
    + rewrite (zip_fan_out_length 0 tss degree); [lia|]. intros i ts Hi. by apply (Hts i).
Qed.

(** Dialing that always succeeds, and remembers what was dialed. *)
Definition dial_ok (i j : nat) (dialed : list (nat * nat)) : IoResult (list (nat * nat)) :=
  Ok (dialed ++ [(i, j)]).

Lemma dial_all_ok es st : dial_all dial_ok es st = Ok (st ++ es).
Proof.
  revert st. induction es as [|[i j] es IH]; intros st; simpl; [by rewrite app_nil_r|].
  by rewrite IH, <-app_assoc.
Qed.

(** C28. [connect_nodes] makes exactly the connections [num_expected_connections] announces: with
    nodes that accept every dial, an admissible topology is dialed to the end, no node dials itself,
    no ordered pair is dialed twice, every index is in range (so the slice accesses cannot panic),
    and the number of dials is half the expected number of connections (each is registered at both
    of its ends). *)
Theorem connect_nodes_expected count topology :
  admissible topology count →
  ∃ es, connect_nodes max_attempts dial_ok count topology [] = Some (Ok es) ∧ edges_ok count es ∧
    2 * length es = num_expected_connections topology count.
Proof.
  intros (es&E&Hok&Hl)%edges_admissible. exists es. split; [|done].
  unfold connect_nodes. rewrite E. simpl. by rewrite dial_all_ok.
Qed.

Lemma connect_nodes_expected_witness :
  ∃ es, connect_nodes max_attempts dial_ok 6 (Grid 2 3) [] = Some (Ok es) ∧ length es = 7.
Proof.
  destruct (connect_nodes_expected 6 (Grid 2 3)) as (es&H&_&Hl); [split; [lia|done]|].
  exists es. split; [exact H|]. change (2 * length es = 14) in Hl. lia.
Defined.

(** [connect_nodes] fails cleanly: with fewer than two nodes, grid dimensions that do not match
    or a degree that is too large it returns [InvalidInput] without dialing anything; and when a
    dial fails, that error is returned, after exactly the dials before it in the list were made. *)
Theorem connect_nodes_errors {S} (dial : nat → nat → S → IoResult S) fuel count topology st :
  (count < 2 ∨ (∃ w h, topology = Grid w h ∧ w * h ≠ count) ∨ (∃ d seed, topology = Random d seed ∧ count ≤ d) →
     ∃ e, connect_nodes fuel dial count topology st = Some (Err e) ∧ kind e = InvalidInput) ∧
  (∀ es1 es2 i j st' e, edges fuel count topology = Some (Ok (es1 ++ (i, j) :: es2)) →
     dial_all dial es1 st = Ok st' → dial i j st' = Err e →
     connect_nodes fuel dial count topology st = Some (Err e)).
Proof.
  unfold connect_nodes. split.
  - unfold edges. intros H. destruct (Nat.ltb_spec count 2); [by eexists|].
    destruct H as [?|[(w&h&->&Hne)|(d&seed&->&Hd)]]; [lia| |].
    + destruct (Nat.eqb_spec (w * h) count); [done|]. by eexists.
    + destruct (Nat.leb_spec count d); [by eexists|lia].
  - intros es1 es2 i j st' e -> H1 H2. simpl. f_equal. revert st H1.
    induction es1 as [|[i' j'] es1 IH]; intros st H1; simplify_eq/=; [by rewrite H2|].
    destruct (dial i' j' st) as [st1|]; simplify_eq/=. by apply IH.
Qed.

Lemma connect_nodes_errors_witness :
  (∃ e, connect_nodes 0 dial_ok 5 (Grid 2 3) [] = Some (Err e) ∧ kind e = InvalidInput) ∧
  connect_nodes 0 (λ i j st, if j =? 2 then Err invalid_input else dial_ok i j st) 3 Line [] = Some (Err invalid_input).
Proof.
  split.
  - apply (proj1 (connect_nodes_errors dial_ok 0 5 (Grid 2 3) [])). right; left. exists 2, 3. split; [done|lia].
  - apply (proj2 (connect_nodes_errors (λ i j st, if j =? 2 then Err invalid_input else dial_ok i j st) 0 3 Line [])
      [(0, 1)] [] 1 2 [(0, 1)]); done.
Defined.

(** ** Connectivity *)

Definition linked (es : list (nat * nat)) (i j : nat) : Prop := (i, j) ∈ es ∨ (j, i) ∈ es.

Lemma connected_from_smaller n es :
  (∀ j, 0 < j < n → ∃ i, i < j ∧ linked es i j) → ∀ j, j < n → rtc (linked es) 0 j.
Proof.
  intros H j. induction (lt_wf j) as [j _ IH]. intros Hj. destruct (decide (j = 0)) as [->|]; [done|].
  destruct (H j) as (i&Hi&Hl); [lia|]. apply (rtc_r _ i); [apply IH; lia|done].
Qed.

(** The regular topologies connect all the nodes: in a line, ring, mesh, star, grid or tree,
    every node can be reached from the first one along the connections made. *)
Theorem topology_connected fuel count topology es :
  admissible topology count → (∀ d seed, topology ≠ Random d seed) →
  edges fuel count topology = Some (Ok es) →
  ∀ j, j < count → rtc (linked es) 0 j.
Proof.
  intros [H2 Ht] Hnr He. apply connected_from_smaller. intros j Hj.
  unfold edges in He. destruct (Nat.ltb_spec count 2); [lia|]. unfold linked.
  destruct topology; simplify_eq/=.
  - exists (j - 1). split; [lia|]. left. apply list_elem_of_fmap. exists (j - 1). rewrite elem_of_seq. split; [f_equal; lia|lia].
  - exists (j - 1). split; [lia|]. left. apply elem_of_app. left. apply list_elem_of_fmap. exists (j - 1).
    rewrite elem_of_seq. split; [f_equal; lia|lia].
  - exists 0. split; [lia|]. left. apply list_elem_of_bind. exists 0. rewrite elem_of_seq. split; [|lia].
    apply list_elem_of_fmap. exists j. rewrite elem_of_seq. split; [done|lia].
  - exists 0. split; [lia|]. right. apply list_elem_of_fmap. exists j. rewrite elem_of_seq. split; [done|lia].
  - rewrite Nat.eqb_refl in He. simplify_eq.
    pose proof (Nat.div_mod j width ltac:(nia)) as D. pose proof (Nat.mod_upper_bound j width ltac:(nia)).
    destruct (decide (j mod width = 0)) as [E|E].
    + exists (j - width). split; [nia|]. left. apply elem_of_grid. exists (j / width - 1), 0.
      assert (0 < j / width < height) by nia. split_and!; [nia|nia|nia|right; nia].
    + exists (j - 1). split; [lia|]. left. apply elem_of_grid. exists (j / width), (j mod width - 1).
      split_and!; [nia|lia|nia|left; lia].
  - exists ((j - 1) / 2). pose proof (Nat.div_mod (j - 1) 2 ltac:(lia)). pose proof (Nat.mod_upper_bound (j - 1) 2 ltac:(lia)).
    split; [lia|]. left. apply list_elem_of_bind. exists ((j - 1) / 2). rewrite elem_of_seq. split; [|lia].
    rewrite elem_of_app, !elem_of_if, !Nat.ltb_lt. destruct (decide ((j - 1) mod 2 = 0)).
    + left. split; [lia|f_equal; lia].
    + right. split; [lia|f_equal; lia].
  - by destruct (Hnr degree seed).
Qed.

Lemma topology_connected_witness : rtc (linked (tree_edges 7)) 0 6.
Proof.
  apply (topology_connected 0 7 Tree); [split; [lia|done]|done|done|lia].
Defined.
