(* ===== verification/Text.v ===== *)
(** * Text: bytes, UTF-8 and strings

    What the examples use of the standard library's integers and strings: big-endian bytes,
    [str::from_utf8] and [str::split_once], with the lemmas their clients share. *)

From S2P Require Import Prelude.
From Stdlib Require Import Ascii.
From Stdlib Require String.

Open Scope nat_scope.

(** ** Big-endian integers *)

(** [u64::to_be_bytes] and its like: the [n] low bytes, most significant first. *)
Fixpoint to_be_bytes (n : nat) (v : N) : list N :=
  match n with
  | O => []
  | S n => to_be_bytes n (v / 256)%N ++ [v mod 256]%N
  end.

Definition from_be_bytes (bs : list N) : N := fold_left (λ acc b, acc * 256 + b)%N bs 0%N.

Lemma length_to_be_bytes n v : length (to_be_bytes n v) = n.
Proof. revert v. induction n as [|n IH]; intros v; simpl; [done|]. rewrite length_app, IH. simpl. lia. Qed.

Lemma to_be_bytes_bound n v : Forall (λ b, b < 256)%N (to_be_bytes n v).
Proof.
  revert v. induction n as [|n IH]; intros v; simpl; [constructor|]. apply Forall_app. split; [apply IH|].
  repeat constructor. by apply N.mod_lt.
Qed.

Lemma from_to_be_bytes n v : (v < 256 ^ N.of_nat n)%N → from_be_bytes (to_be_bytes n v) = v.
Proof.
  unfold from_be_bytes. revert v. induction n as [|n IH]; intros v Hv; simpl.
  { simpl in Hv. lia. }
  rewrite Nat2N.inj_succ, N.pow_succ_r' in Hv. rewrite fold_left_app, IH.
  - simpl. rewrite (N.div_mod v 256) at 3 by lia. lia.
  - apply N.Div0.div_lt_upper_bound. lia.
Qed.

Lemma to_from_be_bytes bs : Forall (λ b, b < 256)%N bs → to_be_bytes (length bs) (from_be_bytes bs) = bs.
Proof.
  unfold from_be_bytes. induction bs as [|b bs IH] using rev_ind; [done|]. intros [Hbs Hb]%Forall_app.
  apply List.Forall_inv in Hb. rewrite length_app, Nat.add_1_r, fold_left_app. cbn [to_be_bytes fold_left].
  set (v := fold_left _ bs 0%N) in *. rewrite N.div_add_l by lia. rewrite N.div_small, N.add_0_r by done. rewrite IH by done.
  by rewrite N.add_comm, N.Div0.mod_add, N.mod_small.
Qed.

Lemma from_be_bytes_bound bs : Forall (λ b, b < 256)%N bs → (from_be_bytes bs < 256 ^ N.of_nat (length bs))%N.
Proof.
  unfold from_be_bytes. induction bs as [|b bs IH] using rev_ind; [intros; simpl; lia|]. intros [Hbs Hb]%Forall_app.
  apply List.Forall_inv in Hb. specialize (IH Hbs). rewrite length_app, Nat.add_1_r, fold_left_app, Nat2N.inj_succ.
  rewrite N.pow_succ_r'. simpl. lia.
Qed.

(** ** Strings *)

(** [str::split_once] with a character. *)
Fixpoint split_once (c : ascii) (s : string) : option (string * string) :=
  match s with
  | EmptyString => None
  | String.String a s =>
      if decide (a = c) then Some (EmptyString, s)
      else '(l, r) ← split_once c s; Some (String.String a l, r)
  end.

(** [str::from_utf8] accepts the sequences of table 3-7 of the Unicode standard. *)
Definition in_range (lo hi b : N) : bool := ((lo <=? b) && (b <=? hi))%N.
Definition tail_byte (b : N) : bool := in_range 128 191 b.

(** The length of the well-formed sequence at the front of the bytes. *)
Definition utf8_char (bs : list N) : option nat :=
  match bs with
  | b1 :: bs =>
      if (b1 <? 128)%N then Some 1
      else match bs with
      | b2 :: bs =>
          if in_range 194 223 b1 then (if tail_byte b2 then Some 2 else None)
          else match bs with
          | b3 :: bs =>
              if in_range 224 239 b1 then
                let lo := if (b1 =? 224)%N then 160%N else 128%N in
                let hi := if (b1 =? 237)%N then 159%N else 191%N in
                if in_range lo hi b2 && tail_byte b3 then Some 3 else None
              else match bs with
              | b4 :: _ =>
                  let lo := if (b1 =? 240)%N then 144%N else 128%N in
                  let hi := if (b1 =? 244)%N then 143%N else 191%N in
                  if in_range 240 244 b1 && in_range lo hi b2 && tail_byte b3 && tail_byte b4
                  then Some 4 else None
              | [] => None
              end
          | [] => None
          end
      | [] => None
      end
  | [] => None
  end.

(** As many rounds as there are bytes are enough. *)
Fixpoint utf8_fuel (fuel : nat) (bs : list N) : bool :=
  match bs with
  | [] => true
  | _ =>
      match fuel, utf8_char bs with
      | S fuel, Some k => utf8_fuel fuel (drop k bs)
      | _, _ => false
      end
  end.

Definition utf8_bytes (bs : list N) : bool := utf8_fuel (length bs) bs.
Definition bytes_of (s : string) : list N := N_of_ascii <$> String.list_ascii_of_string s.
Definition from_utf8 (s : string) : bool := utf8_bytes (bytes_of s).

(** ** Strings: lemmas *)

Lemma bytes_of_app s t : bytes_of (s +:+ t) = bytes_of s ++ bytes_of t.
Proof.
  induction s as [|c s IH]; [done|]. change (String.String c s +:+ t) with (String.String c (s +:+ t)).
  unfold bytes_of in *. cbn [String.list_ascii_of_string]. rewrite !fmap_cons, IH. done.
Qed.

Lemma utf8_char_app bs more k : utf8_char bs = Some k → utf8_char (bs ++ more) = Some k ∧ 0 < k ≤ length bs.
Proof.
  destruct bs as [|b1 bs]; [done|]. cbn [utf8_char app]. destruct (b1 <? 128)%N; [intros [= <-]; simpl; auto with lia|].
  destruct bs as [|b2 bs]; [done|]. cbn [app]. destruct (in_range 194 223 b1).
  { destruct (tail_byte b2); [intros [= <-]; simpl; auto with lia|done]. }
  destruct bs as [|b3 bs]; [done|]. cbn [app]. destruct (in_range 224 239 b1).
  { destruct (_ && _); [intros [= <-]; simpl; auto with lia|done]. }
  destruct bs as [|b4 bs]; [done|]. cbn [app]. destruct (_ && _ && _ && _); [intros [= <-]; simpl; auto with lia|done].
Qed.

Lemma utf8_fuel_mono f g l : utf8_fuel f l = true → f ≤ g → utf8_fuel g l = true.
Proof.
  revert g l. induction f as [|f IH]; intros g [|x l] Hl Hg; destruct g as [|g]; try done; [lia|].
  cbn [utf8_fuel] in *. destruct (utf8_char (x :: l)); [|done]. apply IH; [done|lia].
Qed.

Lemma utf8_fuel_app fuel bs fuel' cs :
  utf8_fuel fuel bs = true → utf8_fuel fuel' cs = true → utf8_fuel (fuel + fuel') (bs ++ cs) = true.
Proof.
  revert bs. induction fuel as [|fuel IH]; intros [|b bs] Hb Hc; try done.
  - eapply utf8_fuel_mono; [exact Hc|lia].
  - cbn [utf8_fuel] in Hb. destruct (utf8_char (b :: bs)) as [k|] eqn:Ek; [|done].
    apply (utf8_char_app _ cs) in Ek as [Ek Hk]. cbn [app] in Ek. cbn [app Nat.add utf8_fuel]. rewrite Ek.
    rewrite app_comm_cons, drop_app_le by lia. by apply IH.
Qed.

Lemma from_utf8_app s t : from_utf8 s = true → from_utf8 t = true → from_utf8 (s +:+ t) = true.
Proof.
  unfold from_utf8, utf8_bytes. intros Hs Ht. rewrite bytes_of_app, length_app. by apply utf8_fuel_app.
Qed.

Lemma from_utf8_ascii s : Forall (λ c, (N_of_ascii c < 128)%N) (String.list_ascii_of_string s) → from_utf8 s = true.
Proof.
  induction s as [|c s IH]; [done|]. cbn [String.list_ascii_of_string]. intros [Hc Hs]%Forall_cons.
  change (String.String c s) with (String.String c EmptyString +:+ s). apply from_utf8_app; [|by apply IH].
  unfold from_utf8, utf8_bytes. simpl. by rewrite (proj2 (N.ltb_lt _ _) Hc).
Qed.

(** A string without the separator. *)
Definition free_of (c : ascii) (s : string) : Prop := c ∉ String.list_ascii_of_string s.

Lemma split_once_app c s t : free_of c s → split_once c (s +:+ String.String c t) = Some (s, t).
Proof.
  unfold free_of. induction s as [|a s IH]; simpl; intros Hs; [by rewrite decide_True|].
  rewrite decide_False by set_solver. rewrite IH by set_solver. done.
Qed.

Lemma split_once_inv c s l r : split_once c s = Some (l, r) → s = l +:+ String.String c r ∧ free_of c l.
Proof.
  unfold free_of. revert l. induction s as [|a s IH]; intros l; simpl; [done|].
  destruct (decide (a = c)) as [->|Hne]; [intros [= <- <-]; simpl; set_solver|].
  destruct (split_once c s) as [[l' r']|]; [|done]. intros [= <- <-].
  destruct (IH l' eq_refl) as [-> Hf]. simpl. split; [done|set_solver].
Qed.

(** The parts of a UTF-8 string around an ASCII character are UTF-8 strings. *)
Lemma utf8_char_before bs c cs k :
  (c < 128)%N → bs ≠ [] → utf8_char (bs ++ c :: cs) = Some k → utf8_char bs = Some k.
Proof.
  intros Hc Hne. assert (Ht : ∀ lo hi, (128 ≤ lo)%N → in_range lo hi c = false).
  { intros lo hi Hlo. unfold in_range. apply andb_false_iff. left. apply N.leb_gt. lia. }
  assert (Htb : tail_byte c = false) by (apply Ht; lia).
  destruct bs as [|b1 bs]; [done|]. cbn [utf8_char app]. destruct (b1 <? 128)%N; [done|].
  destruct bs as [|b2 bs]; cbn [app].
  { rewrite Htb. destruct (in_range 194 223 b1); [done|]. destruct cs as [|c2 cs]; [done|].
    rewrite !Ht by (case_match; lia). simpl. destruct (in_range 224 239 b1); [done|]. rewrite andb_false_r.
    by destruct cs. }
  destruct (in_range 194 223 b1); [done|]. destruct bs as [|b3 bs]; cbn [app].
  { rewrite Htb, !andb_false_r. destruct (in_range 224 239 b1); [done|]. by destruct cs. }
  destruct (in_range 224 239 b1); [done|]. destruct bs as [|b4 bs]; cbn [app]; [|done].
  by rewrite Htb, !andb_false_r.
Qed.

Lemma utf8_fuel_before fuel bs c cs :
  (c < 128)%N → utf8_fuel fuel (bs ++ c :: cs) = true → utf8_bytes bs = true ∧ utf8_bytes cs = true.
Proof.
  intros Hc. unfold utf8_bytes.
  assert (∀ fuel bs, utf8_fuel fuel (bs ++ c :: cs) = true →
    utf8_fuel (length bs) bs = true ∧ ∃ f, utf8_fuel f cs = true) as Hgen.
  { clear fuel bs. induction fuel as [|fuel IH]; intros bs Hb; [by destruct bs|].
    destruct bs as [|b bs].
    - cbn [app utf8_fuel] in Hb. unfold utf8_char in Hb. rewrite (proj2 (N.ltb_lt _ _) Hc) in Hb. simpl in Hb. eauto.
    - cbn [app utf8_fuel] in Hb. rewrite app_comm_cons in Hb.
      destruct (utf8_char ((b :: bs) ++ c :: cs)) as [k|] eqn:Ek; [|done].
      apply utf8_char_before in Ek; [|done|done]. pose proof (utf8_char_app _ [] _ Ek) as [_ Hk].
      rewrite drop_app_le in Hb by lia. destruct (IH _ Hb) as [Hf Hrest]. split; [|done].
      cbn [length utf8_fuel]. rewrite Ek. eapply utf8_fuel_mono; [exact Hf|]. rewrite length_drop. simpl. lia. }
  intros Hb. destruct (Hgen _ _ Hb) as [? [f Hf]]. split; [done|].
  (* as many rounds as there are bytes suffice *)
  clear -Hf. revert cs Hf. induction f as [|f IH]; intros [|x l] Hl; try done. cbn [length utf8_fuel] in *.
  destruct (utf8_char (x :: l)) as [k|] eqn:Ek; [|done]. pose proof (utf8_char_app _ [] _ Ek) as [_ Hk].
  eapply utf8_fuel_mono; [by apply IH|]. rewrite length_drop. simpl. lia.
Qed.

Lemma from_utf8_split s c l r :
  (N_of_ascii c < 128)%N → split_once c s = Some (l, r) → from_utf8 s = true → from_utf8 l = true ∧ from_utf8 r = true.
Proof.
  intros Hc [-> _]%split_once_inv. unfold from_utf8 at 1, utf8_bytes. rewrite bytes_of_app.
  change (bytes_of (String.String c r)) with (N_of_ascii c :: bytes_of r). by apply utf8_fuel_before.
Qed.
