(* ===== verification/Yamux.v ===== *)
(** * The Yamux codec of the examples ([examples/src/yamux.rs])

    Frames of the minimal Yamux multiplexer, their encoding and decoding.  Bytes are numbers below
    256; [get_u8] and its siblings of the [bytes] crate panic on a short buffer, which is [None]. *)

From S2P Require Import Prelude.

Open Scope N_scope.

(** ** Data *)

Definition VERSION : N := 0.
Definition HEADER_LEN : nat := 12.

Inductive Ty := Data | WindowUpdate | Ping | GoAway.

Inductive Flag := Syn | Ack | Fin | Rst.

#[global] Instance Ty_eq_dec : EqDecision Ty.
Proof. solve_decision. Defined.
#[global] Instance Flag_eq_dec : EqDecision Flag.
Proof. solve_decision. Defined.

Record Header := mkHeader {
  version : N;
  ty : Ty;
  flags : list Flag;
  stream_id : N;
  length_field : N;
}.

Record Frame := mkFrame { header : Header; payload : list N }.

Definition ty_u8 (t : Ty) : N :=
  match t with Data => 0 | WindowUpdate => 1 | Ping => 2 | GoAway => 3 end.

(** [impl TryFrom<u8> for Ty]. *)
Definition ty_try_from (t : N) : IoResult Ty :=
  if t =? 0 then Ok Data
  else if t =? 1 then Ok WindowUpdate
  else if t =? 2 then Ok Ping
  else if t =? 3 then Ok GoAway
  else Err (mkIoError InvalidData NoPayload).

Definition flag_u16 (f : Flag) : N :=
  match f with Syn => 1 | Ack => 2 | Fin => 4 | Rst => 8 end.

Inductive Termination := Normal | ProtocolError | InternalError.

Definition termination_u32 (t : Termination) : N :=
  match t with Normal => 0 | ProtocolError => 1 | InternalError => 2 end.

(** ** Constructors *)

(** [Frame::data]. *)
Definition frame_data (sid : N) (fs : list Flag) (data : option (list N)) : Frame :=
  let payload := default [] data in
  mkFrame (mkHeader VERSION Data fs sid (N.of_nat (length payload) mod 2 ^ 32)) payload.

(** [Frame::ping]. *)
Definition frame_ping (fs : list Flag) (opaque : N) : Frame :=
  mkFrame (mkHeader VERSION Ping fs 0 opaque) [].

(** [Frame::terminate]. *)
Definition frame_terminate (sid : N) : Frame :=
  mkFrame (mkHeader VERSION GoAway [] sid (termination_u32 Normal)) [].

(** ** Flags *)

Definition all_flags : list Flag := [Syn; Ack; Fin; Rst].

(** [decode_flags]; [0xfff0] is [!0xf] on [u16]. *)
Definition decode_flags (fl : N) : IoResult (list Flag) :=
  if negb (N.land fl 0xfff0 =? 0) then Err (mkIoError InvalidData NoPayload)
  else Ok (filter (λ f, N.land fl (flag_u16 f) ≠ 0) all_flags).

(** [encode_flags]. *)
Definition encode_flags (fs : list Flag) : N := foldl (λ ret f, N.lor ret (flag_u16 f)) 0 fs.

(** ** Bytes *)

Definition be16 (n : N) : list N := [n / 2 ^ 8 mod 256; n mod 256].
Definition be32 (n : N) : list N :=
  [n / 2 ^ 24 mod 256; n / 2 ^ 16 mod 256; n / 2 ^ 8 mod 256; n mod 256].

Definition get_u8 (src : list N) : option (N * list N) :=
  match src with a :: src => Some (a, src) | _ => None end.
Definition get_u16 (src : list N) : option (N * list N) :=
  match src with a :: b :: src => Some (a * 2 ^ 8 + b, src) | _ => None end.
Definition get_u32 (src : list N) : option (N * list N) :=
  match src with
  | a :: b :: c :: d :: src => Some (a * 2 ^ 24 + b * 2 ^ 16 + c * 2 ^ 8 + d, src)
  | _ => None
  end.

(** ** The codec *)

(** [impl Encoder<Frame> for Codec]: the bytes appended to the buffer. *)
Definition encode (f : Frame) : list N :=
  version (header f) :: ty_u8 (ty (header f)) :: be16 (encode_flags (flags (header f))) ++
  be32 (stream_id (header f)) ++ be32 (length_field (header f)) ++ payload f.

(** The part of [decode] after the length check: the result and the remaining buffer, or [None] if
    one of the reads panics. *)
Definition decode_frame (src : list N) : option (IoResult Frame * list N) :=
  '(v, src) ← get_u8 src;
  '(t, src) ← get_u8 src;
  match ty_try_from t with
  | Err e => Some (Err e, src)
  | Ok t =>
      '(fl, src) ← get_u16 src;
      match decode_flags fl with
      | Err e => Some (Err e, src)
      | Ok fs =>
          '(sid, src) ← get_u32 src;
          '(len, src) ← get_u32 src;
          let h := mkHeader v t fs sid len in
          Some match t with
               | Data => (Ok (mkFrame h src), [])
               | Ping => (Ok (mkFrame h (be32 len)), src)
               | WindowUpdate | GoAway => (Ok (mkFrame h []), src)
               end
      end
  end.

(** [impl Decoder for Codec]; every [Ok] of the source is [Ok(Some(_))]. *)
Definition decode (src : list N) : option (IoResult Frame * list N) :=
  if (length src <? HEADER_LEN)%nat
  then Some (Err (mkIoError InvalidData (Message "truncated Yamux header")), src)
  else decode_frame src.

(** ** Lemmas *)

Definition is_byte (b : N) : Prop := b < 256.

(** The fields of a frame fit their widths, and its flags are in canonical order. *)
Record frame_wf (f : Frame) : Prop := {
  wf_version : is_byte (version (header f));
  wf_stream : stream_id (header f) < 2 ^ 32;
  wf_length : length_field (header f) < 2 ^ 32;
  wf_flags : flags (header f) = filter (λ g, g ∈ flags (header f)) all_flags;
}.

Lemma flag_u16_testbit f i : N.testbit (flag_u16 f) i = bool_decide (flag_u16 f = 2 ^ i).
Proof.
  assert (∃ k, flag_u16 f = 2 ^ k) as [k ->].
  { destruct f; [exists 0|exists 1|exists 2|exists 3]; done. }
  rewrite N.pow2_bits_eqb. destruct (N.eqb_spec k i) as [->|Hne]; case_bool_decide as E; try done.
  apply N.pow_inj_r in E; [done|lia].
Qed.

Lemma encode_flags_testbit fs i :
  N.testbit (encode_flags fs) i = existsb (λ f, bool_decide (flag_u16 f = 2 ^ i)) fs.
Proof.
  assert (∀ acc, N.testbit (foldl (λ ret f, N.lor ret (flag_u16 f)) acc fs) i =
    N.testbit acc i || existsb (λ f, bool_decide (flag_u16 f = 2 ^ i)) fs) as H.
  { induction fs as [|f fs IH]; intros acc; simpl; [by rewrite orb_false_r|].
    by rewrite IH, N.lor_spec, flag_u16_testbit, orb_assoc. }
  unfold encode_flags. by rewrite H, N.bits_0.
Qed.

Lemma land_pow2 x k : N.land x (2 ^ k) ≠ 0 ↔ N.testbit x k = true.
Proof.
  split.
  - intros H. destruct (N.testbit x k) eqn:E; [done|]. destruct H. apply N.bits_inj. intros i.
    rewrite N.land_spec, N.pow2_bits_eqb, N.bits_0. destruct (N.eqb_spec k i); [by subst; rewrite E|apply andb_false_r].
  - intros Hb H. assert (N.testbit (N.land x (2 ^ k)) k = true) as E; [|by rewrite H, N.bits_0 in E].
    by rewrite N.land_spec, Hb, N.pow2_bits_eqb, N.eqb_refl.
Qed.

Lemma flag_index f : ∃ k, k < 4 ∧ flag_u16 f = 2 ^ k ∧ ∀ g, flag_u16 g = 2 ^ k → g = f.
Proof.
  destruct f; [exists 0|exists 1|exists 2|exists 3]; (split_and!; [done|done|]); by intros [].
Qed.

Lemma encode_flags_mem fs f : N.land (encode_flags fs) (flag_u16 f) ≠ 0 ↔ f ∈ fs.
Proof.
  destruct (flag_index f) as (k&_&E&Huniq). rewrite E, land_pow2, encode_flags_testbit, existsb_exists.
  split.
  - intros (g&Hg&Hk%bool_decide_eq_true). apply list_elem_of_In in Hg. by rewrite <-(Huniq g Hk).
  - intros Hf. exists f. split; [by apply list_elem_of_In|]. by apply bool_decide_eq_true.
Qed.

Lemma encode_flags_small fs : encode_flags fs < 16 ∧ N.land (encode_flags fs) 0xfff0 = 0.
Proof.
  assert (∀ i, 4 ≤ i → N.testbit (encode_flags fs) i = false) as H.
  { intros i Hi. rewrite encode_flags_testbit. destruct (existsb _ fs) eqn:E; [|done].
    apply existsb_exists in E as (f&_&Hf%bool_decide_eq_true).
    destruct (flag_index f) as (k&Hk&Ek&_). rewrite Ek in Hf. apply N.pow_inj_r in Hf; lia. }
  split.
  - destruct (N.eq_dec (encode_flags fs) 0) as [->|Hne]; [done|].
    change 16 with (2 ^ 4). apply N.log2_lt_pow2; [lia|].
    destruct (N.lt_ge_cases (N.log2 (encode_flags fs)) 4) as [?|Hge]; [done|].
    apply H in Hge. by rewrite N.bit_log2 in Hge.
  - apply N.bits_inj. intros i. rewrite N.land_spec, N.bits_0.
    destruct (N.lt_ge_cases i 4) as [Hi|Hi]; [|by rewrite H].
    assert (i = 0 ∨ i = 1 ∨ i = 2 ∨ i = 3) as [-> | [-> | [-> | -> ]]] by lia; apply andb_false_r.
Qed.

Lemma decode_encode_flags fs : decode_flags (encode_flags fs) = Ok (filter (λ f, f ∈ fs) all_flags).
Proof.
  unfold decode_flags. destruct (encode_flags_small fs) as [_ ->]. simpl negb. cbv iota. f_equal.
  apply list_filter_iff. intros f. apply encode_flags_mem.
Qed.

Lemma get_be16 n src : n < 2 ^ 16 → get_u16 (be16 n ++ src) = Some (n, src).
Proof.
  intros Hn. unfold be16. cbn [get_u16 app]. do 2 f_equal.
  change (2 ^ 16) with 65536 in Hn. change (2 ^ 8) with 256.
  pose proof (N.div_mod' n 256). assert (n / 256 < 256) by (apply N.Div0.div_lt_upper_bound; lia).
  rewrite (N.mod_small (n / 256)) by done. lia.
Qed.

Lemma get_be32 n src : n < 2 ^ 32 → get_u32 (be32 n ++ src) = Some (n, src).
Proof.
  intros Hn. unfold be32. cbn [get_u32 app]. do 2 f_equal.
  change (2 ^ 32) with 4294967296 in Hn. change (2 ^ 24) with (256 * 256 * 256). change (2 ^ 16) with (256 * 256). change (2 ^ 8) with 256.
  rewrite <-!N.Div0.div_div.
  pose proof (N.div_mod' n 256). pose proof (N.div_mod' (n / 256) 256). pose proof (N.div_mod' (n / 256 / 256) 256).
  assert (n / 256 / 256 / 256 < 256) by (repeat (apply N.Div0.div_lt_upper_bound); lia).
  rewrite (N.mod_small (n / 256 / 256 / 256)) by done. lia.
Qed.

Lemma get_u32_be32 src n rest :
  Forall is_byte src → get_u32 src = Some (n, rest) → src = be32 n ++ rest ∧ n < 2 ^ 32 ∧ Forall is_byte rest.
Proof.
  destruct src as [|a [|b [|c [|d src]]]]; try done. intros Hb [= <- <-].
  repeat (apply Forall_cons_1 in Hb as [? Hb]). unfold is_byte in *.
  change (2 ^ 32) with 4294967296. change (2 ^ 24) with 16777216. change (2 ^ 16) with 65536. change (2 ^ 8) with 256.
  split_and!; [|lia|done]. unfold be32. simpl.
  change (2 ^ 24) with 16777216. change (2 ^ 16) with 65536. change (2 ^ 8) with 256.
  set (n := a * 16777216 + b * 65536 + c * 256 + d).
  assert (n / 16777216 = a) as -> by (symmetry; apply (N.div_unique _ _ _ (b * 65536 + c * 256 + d)); unfold n; lia).
  assert (n / 65536 = a * 256 + b) as -> by (symmetry; apply (N.div_unique _ _ _ (c * 256 + d)); unfold n; lia).
  assert (n / 256 = (a * 256 + b) * 256 + c) as -> by (symmetry; apply (N.div_unique _ _ _ d); unfold n; lia).
  assert (n mod 256 = d) as -> by (symmetry; apply (N.mod_unique _ _ ((a * 256 + b) * 256 + c)); unfold n; lia).
  rewrite !(N.add_comm (_ * 256)), !N.Div0.mod_add, !N.mod_small by done. done.
Qed.

Lemma get_u16_be16 src n rest :
  Forall is_byte src → get_u16 src = Some (n, rest) → src = be16 n ++ rest ∧ n < 2 ^ 16 ∧ Forall is_byte rest.
Proof.
  destruct src as [|a [|b src]]; try done. intros Hb [= <- <-].
  repeat (apply Forall_cons_1 in Hb as [? Hb]). unfold is_byte in *.
  change (2 ^ 16) with 65536. change (2 ^ 8) with 256.
  split_and!; [|lia|done]. unfold be16. simpl. change (2 ^ 8) with 256.
  rewrite N.div_add_l by done. rewrite (N.div_small b), N.add_0_r, (N.mod_small a) by done.
  rewrite (N.add_comm (a * 256)), N.Div0.mod_add, N.mod_small by done. done.
Qed.

Lemma ty_round_trip t : ty_try_from (ty_u8 t) = Ok t.
Proof. by destruct t. Qed.

Lemma ty_try_from_ok b t : ty_try_from b = Ok t → b = ty_u8 t.
Proof. unfold ty_try_from. repeat case_match; intros; simplify_eq; by apply N.eqb_eq. Qed.

(** The flags word of an accepted header is determined by the flags it decodes to. *)
Lemma encode_decode_flags fl fs : fl < 2 ^ 16 → decode_flags fl = Ok fs → encode_flags fs = fl.
Proof.
  intros Hfl. unfold decode_flags. destruct (N.eqb_spec (N.land fl 65520) 0) as [Hz|]; [|done]. intros [= <-].
  assert (fl < 16) as Hlt.
  { destruct (N.eq_dec fl 0) as [->|Hne]; [done|]. change 16 with (2 ^ 4). apply N.log2_lt_pow2; [lia|].
    destruct (N.lt_ge_cases (N.log2 fl) 4) as [?|Hge]; [done|].
    assert (N.log2 fl < 16) by (apply N.log2_lt_pow2; [lia|done]).
    assert (N.testbit (N.land fl 65520) (N.log2 fl) = true) as E; [|by rewrite Hz, N.bits_0 in E].
    rewrite N.land_spec, N.bit_log2 by done. rewrite andb_true_l.
    assert (∃ k, k < 12 ∧ N.log2 fl = 4 + k) as (k&Hk&->) by (exists (N.log2 fl - 4); lia).
    change 65520 with (N.shiftl 4095 4). rewrite N.shiftl_spec_high' by lia. replace (4 + k - 4) with k by lia.
    change 4095 with (N.ones 12). by apply N.ones_spec_low. }
  assert (N.to_nat fl ∈ seq 0 16) as Hin by (apply elem_of_seq; lia).
  rewrite <-(N2Nat.id fl). revert Hin. generalize (N.to_nat fl). clear.
  intros k Hk. apply elem_of_seq in Hk.
  do 16 (destruct k as [|k]; [by vm_compute|]). lia.
Qed.

(** ** Properties *)

(** The payload [decode] gives a frame: a ping's is the opaque value of its length field. *)
Definition decoded_payload (f : Frame) : list N :=
  match ty (header f) with
  | Data => payload f
  | Ping => be32 (length_field (header f))
  | WindowUpdate | GoAway => []
  end.

Lemma decode_encode f :
  frame_wf f →
  decode (encode f) =
    Some (Ok (mkFrame (header f) (decoded_payload f)), match ty (header f) with Data => [] | _ => payload f end).
Proof.
  intros [Hv Hs Hl Hf]. unfold decode.
  destruct (Nat.ltb_spec (length (encode f)) HEADER_LEN) as [H|_].
  { unfold encode, HEADER_LEN, be16, be32 in H. simpl in H. lia. }
  unfold decode_frame, encode. cbn [get_u8 mbind option_bind].
  rewrite ty_round_trip. destruct (encode_flags_small (flags (header f))) as [Hsm _].
  rewrite get_be16 by (change (2 ^ 16) with 65536; lia). cbn [mbind option_bind].
  rewrite decode_encode_flags, <-Hf. rewrite get_be32 by done. cbn [mbind option_bind].
  rewrite get_be32 by done. cbn [mbind option_bind]. unfold decoded_payload.
  destruct f as [[v t fs sid len] pl]; simpl. by destruct t.
Qed.

(** Yamux frames survive the wire: decoding the encoding of a well-formed frame gives back its
    header, and its payload if it is a data frame (the payload of a ping is the opaque value from
    the length field, that of the header-only frames is empty and what follows stays in the buffer);
    the reads of the decoder never panic. *)
Theorem yamux_round_trip f :
  frame_wf f →
  decode (encode f) =
    Some (Ok (mkFrame (header f) (decoded_payload f)), match ty (header f) with Data => [] | _ => payload f end).
Proof. apply decode_encode. Qed.

Lemma yamux_round_trip_witness :
  decode (encode (frame_data 3 [Syn; Fin] (Some [104; 105]))) =
    Some (Ok (frame_data 3 [Syn; Fin] (Some [104; 105])), []).
Proof. apply (yamux_round_trip (frame_data 3 [Syn; Fin] (Some [104; 105]))). by split. Defined.

(** The decoder never panics and never accepts garbage: a buffer shorter than a header, an
    unknown frame type and undefined flag bits are [InvalidData] errors; any other buffer of bytes is
    a frame whose header re-encodes to exactly the twelve bytes read, and a data frame re-encodes to
    the whole buffer. *)
Theorem yamux_decode_sound src :
  Forall is_byte src →
  ∃ r rest, decode src = Some (r, rest) ∧
    match r with
    | Err e => kind e = InvalidData
    | Ok f =>
        encode (mkFrame (header f) []) ++ drop HEADER_LEN src = src ∧
        (ty (header f) = Data → encode f = src ∧ rest = []) ∧
        (ty (header f) ≠ Data → rest = drop HEADER_LEN src ∧ payload f = decoded_payload f)
    end.
Proof.
  intros Hb. unfold decode. destruct (Nat.ltb_spec (length src) HEADER_LEN) as [?|Hlen]; [eexists _, _; by split|].
  unfold HEADER_LEN in Hlen. unfold decode_frame.
  destruct src as [|v [|t src]]; simpl in Hlen; try lia. cbn [get_u8 mbind option_bind].
  repeat (apply Forall_cons_1 in Hb as [? Hb]).
  destruct (ty_try_from t) as [ty|e] eqn:Et.
  2: { eexists _, _. split; [done|]. revert Et. unfold ty_try_from. by repeat case_match; intros; simplify_eq. }
  apply ty_try_from_ok in Et as ->.
  destruct (get_u16 src) as [[fl s1]|] eqn:E1; [|by destruct src as [|? [|? src]]; simpl in *; try lia].
  apply get_u16_be16 in E1 as (->&Hfl&Hb1); [|done]. cbn [mbind option_bind].
  destruct (decode_flags fl) as [fs|e] eqn:Ef.
  2: { eexists _, _. split; [done|]. revert Ef. unfold decode_flags. by case_match; intros; simplify_eq. }
  apply encode_decode_flags in Ef; [|done]. simpl in Hlen.
  destruct (get_u32 s1) as [[sid s2]|] eqn:E2; [|by destruct s1 as [|? [|? [|? [|? s1]]]]; simpl in *; try lia].
  apply get_u32_be32 in E2 as (->&Hsid&Hb2); [|done]. cbn [mbind option_bind]. simpl in Hlen.
  destruct (get_u32 s2) as [[len s3]|] eqn:E3; [|by destruct s2 as [|? [|? [|? [|? s2]]]]; simpl in *; try lia].
  apply get_u32_be32 in E3 as (->&Hl&Hb3); [|done]. cbn [mbind option_bind].
  eexists _, _. split; [rewrite (surjective_pairing (match ty with Data => _ | _ => _ end)); done|].
  unfold HEADER_LEN, encode, be16, be32, decoded_payload, be32.
  destruct ty; cbn -[N.div N.modulo N.pow encode_flags]; rewrite ?Ef; split_and!; done.
Qed.

Lemma yamux_decode_sound_witness :
  ∃ r rest, decode [0; 2; 0; 1; 0; 0; 0; 0; 0; 0; 0; 7] = Some (r, rest) ∧ r = Ok (mkFrame (header (frame_ping [Syn] 7)) [0; 0; 0; 7]).
Proof.
  destruct (yamux_decode_sound [0; 2; 0; 1; 0; 0; 0; 0; 0; 0; 0; 7]) as (r&rest&E&_); [by repeat constructor|].
  exists r, rest. split; [exact E|]. vm_compute in E. by simplify_eq.
Defined.

(** [Frame::ping] documents a frame without payload, but a decoded ping carries its opaque value as
    a payload as well, so decoding does not give the encoded ping back. *)
Theorem ping_gains_payload fs opaque :
  opaque < 2 ^ 32 → fs = filter (λ g, g ∈ fs) all_flags →
  ∃ f, decode (encode (frame_ping fs opaque)) = Some (Ok f, []) ∧ header f = header (frame_ping fs opaque) ∧
    f ≠ frame_ping fs opaque.
Proof.
  intros Ho Hf. rewrite decode_encode by (by split). eexists. split_and!; done.
Qed.
