(* ===== verification/Framing.v ===== *)
(** * Framing: length-delimited frames and the reader

    The length-delimited framing of [tokio_util] is a parameter ([LengthDelimited], with its
    documented behaviour as [LengthDelimitedSpec]).  [drain] and [receive] are the loop of
    [FramedRead] over any decoder; a decoder that loses nothing while it waits returns the messages
    of the frames it is given, however their bytes are split into reads ([receive_frames]). *)

From S2P Require Import Prelude Text.

Open Scope nat_scope.

(** ** The library *)

(** [LengthDelimitedCodec] with a [length_field_length] and a [max_frame_length]: the frame an
    encoding appends, and a decoder with a state of its own.  [ld_max] is the [max_frame_length] the
    builder settles on, for a [length_field_length], if none is asked for. *)
Class LengthDelimited (D : Type) := {
  ld_new : D;
  ld_max : nat → nat;
  ld_encode : nat → nat → list N → IoResult (list N);
  ld_decode : nat → nat → D → list N → IoResult (option (list N)) * D * list N;
}.

(** What its documentation says: a payload within the maximum (and the length field) has a frame, a
    longer one is refused; the builder's own maximum is one the length field can express; a decoder between frames finds the payload of the frame at the front of
    its buffer; it waits while the frame is incomplete, and waiting loses nothing; it only takes
    bytes out of its buffer. *)
Class LengthDelimitedSpec (D : Type) `{LengthDelimited D} : Prop := {
  ld_encode_fits p m bs :
    length bs ≤ m → (N.of_nat (length bs) < 256 ^ N.of_nat p)%N → ∃ f, ld_encode p m bs = Ok f;
  ld_max_fits p : 0 < p → (N.of_nat (ld_max p) < 256 ^ N.of_nat p)%N;
  ld_encode_too_long p m bs : m < length bs → ∃ e, ld_encode p m bs = Err e;
  ld_decode_frame p m bs f rest :
    ld_encode p m bs = Ok f → ld_decode p m ld_new (f ++ rest) = (Ok (Some bs), ld_new, rest);
  ld_decode_partial p m bs src more :
    0 < p → ld_encode p m bs = Ok (src ++ more) → more ≠ [] →
    ∃ d' src', ld_decode p m ld_new src = (Ok None, d', src');
  ld_decode_empty p m : 0 < p → ∃ d', ld_decode p m ld_new [] = (Ok None, d', []);
  ld_decode_resume p m d src d' src' more :
    ld_decode p m d src = (Ok None, d', src') →
    ld_decode p m d' (src' ++ more) = ld_decode p m d (src ++ more);
  ld_decode_shrinks p m d src r d' src' : ld_decode p m d src = (r, d', src') → length src' ≤ length src;
}.

(** ** The reader *)

Section framed_read.
Context {C M : Type} (dec : C → list N → IoResult (option M) * C * list N).

(** After each read, messages are decoded until one is incomplete ([FramedRead]). The fuel bounds
    the messages decoded after one read. *)
Fixpoint drain (fuel : nat) (c : C) (src : list N) : option (list M * option IoError * C * list N) :=
  match fuel with
  | 0 => None
  | S fuel =>
      match dec c src with
      | (Ok (Some m), c, src) => '(ms, e, c, src) ← drain fuel c src; Some (m :: ms, e, c, src)
      | (Ok None, c, src) => Some ([], None, c, src)
      | (Err e, c, src) => Some ([], Some e, c, src)
      end
  end.

Fixpoint receive (fuel : nat) (c : C) (src : list N) (reads : list (list N))
  : option (list M * option IoError * C * list N) :=
  match reads with
  | [] => Some ([], None, c, src)
  | r :: reads =>
      '(ms, e, c, src) ← drain fuel c (src ++ r);
      match e with
      | Some e => Some (ms, Some e, c, src)
      | None => '(ms', e, c, src) ← receive fuel c src reads; Some (ms ++ ms', e, c, src)
      end
  end.

(** The decoder [b] turns the bytes of the frames into the messages, one frame at a time; waiting
    for more bytes does not change what [view] shows of it. *)
Context {V : Type} (view : C → V).

Inductive decodes : C → list (list N) → list M → C → Prop :=
| decodes_nil b :
    (∃ c' src', dec b [] = (Ok None, c', src') ∧ view c' = view b) → decodes b [] [] b
| decodes_cons b f fs m ms b1 b2 :
    (∀ rest, dec b (f ++ rest) = (Ok (Some m), b1, rest)) →
    (∀ src more, f = src ++ more → more ≠ [] →
       ∃ c' src', dec b src = (Ok None, c', src') ∧ view c' = view b) →
    decodes b1 fs ms b2 → decodes b (f :: fs) (m :: ms) b2.

(** Waiting for more bytes loses none. *)
Context (dec_resume : ∀ c src c' src' more,
  dec c src = (Ok None, c', src') → dec c' (src' ++ more) = dec c (src ++ more)).

(** The decoder [c] with the buffer [src] behaves like [b] with the bytes [w]. *)
Definition behaves c src (b : C) (w : list N) : Prop :=
  ∀ more, dec c (src ++ more) = dec b (w ++ more).

Lemma behaves_refl c src : behaves c src c src.
Proof. done. Qed.

Lemma behaves_wait c src b w c' src' :
  behaves c src b w → dec b w = (Ok None, c', src') →
  dec c src = (Ok None, c', src') ∧ behaves c' src' b w.
Proof.
  intros Hb E. pose proof (Hb []) as E0. rewrite !app_nil_r, E in E0. split; [done|].
  intros more. by apply dec_resume.
Qed.

(** One read: the complete frames among the bytes at hand are decoded, and what is left is the
    beginning of the next one. *)
Lemma drain_frames b fs ms b2 :
  decodes b fs ms b2 → ∀ fuel c src w tl,
  behaves c src b w → w ++ tl = mjoin fs → length ms < fuel →
  ∃ ms1 ms2 fs2 b1 w1 c1 src1,
    drain fuel c src = Some (ms1, None, c1, src1) ∧ ms = ms1 ++ ms2 ∧ decodes b1 fs2 ms2 b2 ∧
    w1 ++ tl = mjoin fs2 ∧ behaves c1 src1 b1 w1 ∧ view c1 = view b1 ∧ (tl = [] → ms2 = []).
Proof.
  induction 1 as [b (c'&src'&E&Hn)|b f fs m ms b1 b2 Hf Hp Hd IH]; intros fuel c src w tl Hb Hw Hfuel;
    csimpl in *; (destruct fuel as [|fuel]; [lia|]).
  - apply app_nil in Hw as [-> ->]. destruct (behaves_wait _ _ _ _ _ _ Hb E) as [Ec Hb'].
    exists [], [], [], b, [], c', src'. simpl. rewrite Ec. split_and!; try done. constructor. eauto.
  - destruct (decide (length w < length f)) as [Hlt|Hge].
    + assert (∃ more, f = w ++ more ∧ more ≠ []) as (more&->&Hne).
      { exists (take (length f - length w) tl). apply (f_equal (take (length f))) in Hw.
        rewrite take_app_ge, take_app_length in Hw by lia. split; [done|].
        intros E. rewrite E, app_nil_r in Hw. subst. lia. }
      destruct (Hp w more eq_refl Hne) as (c'&src'&E&Hn).
      destruct (behaves_wait _ _ _ _ _ _ Hb E) as [Ec Hb'].
      exists [], (m :: ms), ((w ++ more) :: fs), b, w, c', src'. simpl. rewrite Ec. csimpl. split_and!; try done.
      * by econstructor.
      * intros ->. rewrite app_nil_r, <-app_assoc in Hw. apply (f_equal length) in Hw.
        rewrite !length_app in Hw. destruct more; [done|simpl in *; lia].
    + assert (∃ w', w = f ++ w' ∧ w' ++ tl = mjoin fs) as (w'&->&Hw').
      { exists (drop (length f) w). apply (f_equal (drop (length f))) in Hw as Hd'.
        rewrite drop_app_length, drop_app_le in Hd' by lia. split; [|done].
        apply (f_equal (take (length f))) in Hw. rewrite take_app_length, take_app_le in Hw by lia.
        rewrite <-Hw at 1. by rewrite take_drop. }
      pose proof (Hb []) as E0. rewrite app_nil_r, app_nil_r, Hf in E0.
      destruct (IH fuel b1 w' w' tl (behaves_refl _ _) Hw' ltac:(simpl in *; lia))
        as (ms1&ms2&fs2&b1'&w1&c1&src1&E1&->&Hd1&Hw1&Hb1&Hn1&Htl).
      exists (m :: ms1), ms2, fs2, b1', w1, c1, src1. simpl. rewrite E0, E1. by split_and!.
Qed.

(** Any sequence of reads that delivers the frames delivers the messages. *)
Lemma receive_frames reads : ∀ b fs ms b2 fuel c src w,
  decodes b fs ms b2 → behaves c src b w → w ++ mjoin reads = mjoin fs → length ms < fuel → reads ≠ [] →
  ∃ c' src', receive fuel c src reads = Some (ms, None, c', src') ∧ view c' = view b2.
Proof.
  induction reads as [|r reads IH]; intros b fs ms b2 fuel c src w Hd Hb Hw Hfuel Hne; [done|]. csimpl in *.
  rewrite app_assoc in Hw.
  assert (behaves c (src ++ r) b (w ++ r)) as Hb' by (intros more; rewrite <-!app_assoc; apply Hb).
  destruct (drain_frames _ _ _ _ Hd fuel c (src ++ r) (w ++ r) _ Hb' Hw Hfuel)
    as (ms1&ms2&fs2&b1&w1&c1&src1&E1&->&Hd1&Hw1&Hb1&Hn1&Htl). rewrite E1.
  destruct reads as [|r' reads].
  - simpl. rewrite (Htl eq_refl) in *. inversion Hd1; subst. eexists _, _. rewrite !app_nil_r. by split.
  - rewrite length_app in Hfuel.
    destruct (IH b1 fs2 ms2 b2 fuel c1 src1 w1 Hd1 Hb1 Hw1 ltac:(lia) ltac:(done)) as (c'&src'&E&Hn).
    cbn [mbind option_bind]. rewrite E. eexists _, _. by split.
Qed.
End framed_read.

(** ** An instance that satisfies the laws *)

(** A length-delimited codec: the state is the length of the frame whose prefix has been read. *)
#[export] Instance demo_framing : LengthDelimited (option nat) := {
  ld_new := None;
  ld_max p := N.to_nat (N.min (8 * 1024 * 1024) (256 ^ N.of_nat p - 1));
  ld_encode p m bs :=
    if (m <? length bs) || (256 ^ N.of_nat p <=? N.of_nat (length bs))%N
    then Err (mkIoError InvalidInput NoPayload)
    else Ok (to_be_bytes p (N.of_nat (length bs)) ++ bs);
  ld_decode p m d src :=
    let body n src := if length src <? n then (Ok None, Some n, src) else (Ok (Some (take n src)), None, drop n src) in
    match d with
    | Some n => body n src
    | None =>
        if length src <? p then (Ok None, None, src)
        else let n := N.to_nat (from_be_bytes (take p src)) in
             if m <? n then (Err (mkIoError InvalidData NoPayload), None, src) else body n (drop p src)
    end;
}.

Lemma demo_frame p m bs f :
  ld_encode p m bs = Ok f →
  f = to_be_bytes p (N.of_nat (length bs)) ++ bs ∧ length bs ≤ m ∧
  ∀ src, take p (to_be_bytes p (N.of_nat (length bs)) ++ src) = to_be_bytes p (N.of_nat (length bs)) ∧
    N.to_nat (from_be_bytes (to_be_bytes p (N.of_nat (length bs)))) = length bs.
Proof.
  simpl. destruct (Nat.ltb_spec m (length bs)); [done|].
  destruct (N.leb_spec (256 ^ N.of_nat p) (N.of_nat (length bs))); [done|]. intros; simplify_eq/=.
  split_and!; [done|lia|]. intros src. rewrite take_app_length' by (by rewrite length_to_be_bytes).
  split; [done|]. rewrite from_to_be_bytes by done. lia.
Qed.

#[export] Instance demo_framing_spec : LengthDelimitedSpec (option nat).
Proof.
  split.
  - intros p m bs Hl Hp. simpl. destruct (Nat.ltb_spec m (length bs)); [lia|].
    destruct (N.leb_spec (256 ^ N.of_nat p) (N.of_nat (length bs))); [lia|]. by eexists.
  - intros p Hp. cbn -[N.mul]. assert (0 < 256 ^ N.of_nat p)%N by (by apply N.neq_0_lt_0, N.pow_nonzero). lia.
  - intros p m bs Hl. simpl. destruct (Nat.ltb_spec m (length bs)); [by eexists|lia].
  - intros p m bs f rest E. destruct (demo_frame _ _ _ _ E) as (->&Hm&Ht). rewrite <-app_assoc.
    destruct (Ht (bs ++ rest)) as [Ht1 Ht2]. cbn -[to_be_bytes Nat.ltb take drop].
    destruct (Nat.ltb_spec (length (to_be_bytes p (N.of_nat (length bs)) ++ bs ++ rest)) p) as [Hlt|_].
    { rewrite length_app, length_to_be_bytes in Hlt. lia. }
    rewrite Ht1, Ht2. destruct (Nat.ltb_spec m (length bs)); [lia|].
    rewrite drop_app_length' by (by rewrite length_to_be_bytes).
    destruct (Nat.ltb_spec (length (bs ++ rest)) (length bs)) as [Hlt|_]; [rewrite length_app in Hlt; lia|].
    by rewrite take_app_length, drop_app_length.
  - intros p m bs src more Hp E Hne. destruct (demo_frame _ _ _ _ E) as (Ef&Hm&Ht). cbn -[to_be_bytes Nat.ltb take drop].
    destruct (Nat.ltb_spec (length src) p) as [_|Hge]; [by eexists _, _|].
    assert (∃ w, src = to_be_bytes p (N.of_nat (length bs)) ++ w ∧ length w < length bs) as (w&->&Hw).
    { exists (drop p src). apply (f_equal (take p)) in Ef as Et. rewrite (proj1 (Ht bs)), take_app_le in Et by lia.
      rewrite <-Et, take_drop. split; [done|]. apply (f_equal length) in Ef. rewrite !length_app, length_to_be_bytes in Ef.
      rewrite length_drop. destruct more; [done|simpl in Ef; lia]. }
    destruct (Ht w) as [Ht1 Ht2]. rewrite Ht1, Ht2. destruct (Nat.ltb_spec m (length bs)); [lia|].
    rewrite drop_app_length' by (by rewrite length_to_be_bytes).
    destruct (Nat.ltb_spec (length w) (length bs)); [by eexists _, _|lia].
  - intros p m Hp. cbn -[Nat.ltb]. destruct (Nat.ltb_spec 0 p); [by eexists|lia].
  - intros p m d src d' src' more. cbn -[to_be_bytes Nat.ltb take drop]. destruct d as [n|].
    + destruct (Nat.ltb_spec (length src) n); intros; by simplify_eq.
    + destruct (Nat.ltb_spec (length src) p) as [?|Hge]; [intros; by simplify_eq|].
      destruct (Nat.ltb_spec m (N.to_nat (from_be_bytes (take p src)))) as [?|Hm]; [done|].
      destruct (Nat.ltb_spec (length (drop p src)) (N.to_nat (from_be_bytes (take p src)))); [|done].
      intros; simplify_eq. destruct (Nat.ltb_spec (length (src ++ more)) p) as [Hlt|_]; [rewrite length_app in Hlt; lia|].
      rewrite (take_app_le src), (drop_app_le src) by lia. destruct (Nat.ltb_spec m (N.to_nat (from_be_bytes (take p src)))); [lia|done].
  - intros p m d src r d' src'. cbn -[to_be_bytes Nat.ltb take drop]. destruct d as [n|]; repeat case_match;
      intros; simplify_eq; rewrite ?length_drop; lia.
Qed.
