(* ===== verification/Codecs.v ===== *)
(** * The codecs of the examples ([examples/src/lib.rs])

    [SimpleCodec] and [PostcardCodec]: a payload format over length-delimited frames ([Framing]).
    The format is a type class: plain bytes, UTF-8 strings, or what [postcard] makes of a message
    type, which is a parameter ([to_stdvec], [from_bytes]). *)

From S2P Require Import Prelude Text Framing.
From Stdlib Require Import Eqdep_dec.

Open Scope nat_scope.

(** ** Payload formats *)

(** The payload of a message, if it can be serialized, and the message of a payload. *)
Class Format (M : Type) := {
  to_payload : M → option (list N);
  from_payload : list N → option M;
}.

Class FormatSpec (M : Type) `{Format M} : Prop := {
  from_to_payload m bs : to_payload m = Some bs → from_payload bs = Some m;
}.

(** [Bytes] and [BytesMut]. *)
#[export] Instance bytes_format : Format (list N) := { to_payload := Some; from_payload := Some }.

(** A [String] is UTF-8. *)
Record Str := mkStr { str_bytes : list N; str_valid : utf8_bytes str_bytes = true }.

(** [String::from_utf8]. *)
Definition string_from_utf8 (bs : list N) : option Str :=
  match decide (utf8_bytes bs = true) with
  | left valid => Some (mkStr bs valid)
  | right _ => None
  end.

#[export] Instance string_format : Format Str :=
  { to_payload s := Some (str_bytes s); from_payload := string_from_utf8 }.

(** ** The codecs *)

Section codecs.
Context {D : Type} `{LengthDelimited D}.

Record Codec := mkCodec { length_field_len : nat; inner : D }.

(** [PostcardCodec::new]; [Default] of both codecs. *)
Definition codec_new (length_field_len : nat) : Codec := mkCodec length_field_len ld_new.
Definition codec_default : Codec := codec_new 2.

Definition inner_decode (c : Codec) (src : list N) : IoResult (option (list N)) * Codec * list N :=
  let '(r, d, src) := ld_decode (length_field_len c) (ld_max (length_field_len c)) (inner c) src in
  (r, mkCodec (length_field_len c) d, src).

(** [decode] of [SimpleCodec<BytesMut>]. *)
Definition simple_decode (c : Codec) (src : list N) : IoResult (option (list N)) * Codec * list N :=
  inner_decode c src.

(** [decode] of [SimpleCodec<String>]. *)
Definition simple_decode_string (c : Codec) (src : list N) : IoResult (option Str) * Codec * list N :=
  let '(r, c, src) := inner_decode c src in
  (match r with
   | Err e => Err e
   | Ok None => Ok None
   | Ok (Some bs) =>
       match string_from_utf8 bs with Some s => Ok (Some s) | None => Err (mkIoError InvalidData NoPayload) end
   end, c, src).

(** [encode] of [SimpleCodec]; what is encoded converts into [Bytes]. *)
Definition simple_encode (c : Codec) (item dst : list N) : IoResult () * list N :=
  match ld_encode (length_field_len c) (ld_max (length_field_len c)) item with
  | Ok f => (Ok (), dst ++ f)
  | Err e => (Err e, dst)
  end.

(** [decode] of [PostcardCodec]: a payload that is not a message is [InvalidData]. *)
Definition format_decode {M} `{Format M} (c : Codec) (src : list N) : IoResult (option M) * Codec * list N :=
  match inner_decode c src with
  | (Ok (Some bytes), c, src) =>
      match from_payload bytes with
      | Some m => (Ok (Some m), c, src)
      | None => (Err (mkIoError InvalidData NoPayload), c, src)
      end
  | (Ok None, c, src) => (Ok None, c, src)
  | (Err e, c, src) => (Err e, c, src)
  end.

(** [encode] of [PostcardCodec]. *)
Definition format_encode {M} `{Format M} (c : Codec) (item : M) (dst : list N) : IoResult () * list N :=
  match to_payload item with
  | None => (Err (mkIoError InvalidData NoPayload), dst)
  | Some bytes =>
      match ld_encode (length_field_len c) (ld_max (length_field_len c)) bytes with
      | Ok f => (Ok (), dst ++ f)
      | Err e => (Err e, dst)
      end
  end.

(** Messages encoded one after the other into a buffer, as the writer task does. *)
Fixpoint encode_items {M} `{Format M} (c : Codec) (items : list M) (dst : list N) : IoResult () * list N :=
  match items with
  | [] => (Ok (), dst)
  | item :: items =>
      match format_encode c item dst with
      | (Ok _, dst) => encode_items c items dst
      | r => r
      end
  end.
End codecs.

Arguments Codec : clear implicits.

(** ** Lemmas *)

#[export] Instance bytes_format_spec : FormatSpec (list N).
Proof. split. by intros m bs [= <-]. Qed.

#[export] Instance string_format_spec : FormatSpec Str.
Proof.
  split. intros [bs valid] ? [= <-]. simpl. unfold string_from_utf8.
  destruct (decide _) as [valid'|]; [|done]. do 2 f_equal. apply UIP_dec, bool_eq_dec.
Qed.

(** [SimpleCodec] is the codec with the plain format, or with the string format. *)
Section simple.
Context {D : Type} `{LengthDelimited D}.
Implicit Types (c : Codec D).

Lemma simple_decode_format c src :
  simple_decode c src = format_decode (M := list N) c src ∧
  simple_decode_string c src = format_decode (M := Str) c src.
Proof.
  unfold simple_decode, simple_decode_string, format_decode.
  destruct (inner_decode c src) as [[[[bs|]|e] c'] s]; split; try done. simpl. by destruct (string_from_utf8 bs).
Qed.

Lemma simple_encode_format c item dst (s : Str) :
  simple_encode c item dst = format_encode c item dst ∧ simple_encode c (str_bytes s) dst = format_encode c s dst.
Proof. done. Qed.
End simple.

Section lemmas.
Context {D M : Type} `{LengthDelimitedSpec D} `{FormatSpec M}.
Implicit Types (c : Codec D) (m : M).

Lemma inner_decode_resume c src c' src' more :
  inner_decode c src = (Ok None, c', src') → inner_decode c' (src' ++ more) = inner_decode c (src ++ more).
Proof.
  unfold inner_decode. destruct (ld_decode _ _ (inner c) src) as [[r d] s] eqn:E. intros; simplify_eq/=.
  by rewrite (ld_decode_resume _ _ _ _ _ _ more E).
Qed.

Lemma format_decode_resume c src c' src' more :
  format_decode (M := M) c src = (Ok None, c', src') →
  format_decode (M := M) c' (src' ++ more) = format_decode c (src ++ more).
Proof.
  unfold format_decode. destruct (inner_decode c src) as [[[[bs|]|e] c1] s] eqn:E; [by destruct (from_payload bs)| |done].
  intros; simplify_eq. by rewrite (inner_decode_resume _ _ _ _ more E).
Qed.

(** A codec that is between two frames. *)
Definition between c : Prop := inner c = ld_new ∧ 0 < length_field_len c.

Lemma encode_item_decodes c m dst dst' :
  between c → format_encode c m dst = (Ok (), dst') →
  ∃ f, dst' = dst ++ f ∧ ∀ fs ms c', decodes format_decode length_field_len c fs ms c' →
    decodes format_decode length_field_len c (f :: fs) (m :: ms) c'.
Proof.
  destruct c as [p d]. intros [Hn Hp]. simpl in Hn, Hp. subst d. unfold format_encode. cbn [length_field_len].
  destruct (to_payload m) as [bs|] eqn:Em; [|done].
  destruct (ld_encode _ _ _) as [f|e] eqn:Ef; intros; simplify_eq. exists f. split; [done|].
  intros fs ms c' Hd. econstructor; [| |exact Hd].
  - intros rest. unfold format_decode, inner_decode. cbn [inner length_field_len].
    by rewrite (ld_decode_frame _ _ _ _ rest Ef), (from_to_payload _ _ Em).
  - intros src more -> Hne. destruct (ld_decode_partial _ _ _ _ _ Hp Ef Hne) as (d&src'&E).
    exists (mkCodec p d), src'. unfold format_decode, inner_decode. cbn [inner length_field_len]. by rewrite E.
Qed.

Lemma encode_items_decodes c items dst dst' :
  between c → encode_items c items dst = (Ok (), dst') →
  ∃ fs, dst' = dst ++ mjoin fs ∧ decodes format_decode length_field_len c fs items c.
Proof.
  intros Hc. revert dst. induction items as [|m items IH]; intros dst; cbn [encode_items].
  - intros [= <-]. exists []. csimpl. rewrite app_nil_r. split; [done|]. constructor.
    destruct c as [p d], Hc as [Hn Hp]. simpl in Hn, Hp. subst d.
    destruct (ld_decode_empty p (ld_max p) Hp) as [d' E].
    exists (mkCodec p d'), []. unfold format_decode, inner_decode. cbn [inner length_field_len]. by rewrite E.
  - destruct (format_encode c m dst) as [[[]|e] dst1] eqn:E; [|done]. intros E2.
    destruct (encode_item_decodes _ _ _ _ Hc E) as (f&->&Hd). destruct (IH _ E2) as (fs&->&Hds).
    exists (f :: fs). csimpl. rewrite <- app_assoc. auto.
Qed.

Lemma format_encode_ok c m dst bs :
  0 < length_field_len c → to_payload m = Some bs → length bs ≤ ld_max (length_field_len c) →
  (format_encode c m dst).1 = Ok ().
Proof.
  intros Hp Em Hl. unfold format_encode. rewrite Em.
  destruct (ld_encode_fits (length_field_len c) _ bs Hl) as [f ->]; [|done]. eapply N.le_lt_trans, ld_max_fits, Hp. lia.
Qed.

Lemma format_encode_err c m dst :
  (∀ bs, to_payload m = Some bs → ld_max (length_field_len c) < length bs) →
  ∃ e, format_encode c m dst = (Err e, dst).
Proof.
  intros Hl. unfold format_encode. destruct (to_payload m) as [bs|]; [|by eexists].
  destruct (ld_encode_too_long (length_field_len c) _ _ (Hl bs eq_refl)) as [e ->]. by eexists.
Qed.
End lemmas.

(** A string that is not UTF-8 is consumed and reported. *)
Lemma invalid_payload_reported {D M : Type} `{LengthDelimitedSpec D} `{Format M} (c : Codec D) bs f rest :
  between c → ld_encode (length_field_len c) (ld_max (length_field_len c)) bs = Ok f →
  from_payload (M := M) bs = None →
  format_decode (M := M) c (f ++ rest) = (Err (mkIoError InvalidData NoPayload), c, rest).
Proof.
  destruct c as [p d]. intros [Hn Hp] Ef Eb. simpl in *. subst d. unfold format_decode, inner_decode.
  cbn [inner length_field_len]. by rewrite (ld_decode_frame _ _ _ _ rest Ef), Eb.
Qed.

(** ** Theorems *)

Section theorems.
Context {D M : Type} `{LengthDelimitedSpec D} `{FormatSpec M}.

(** The message has a payload, and it fits into a frame of the library. *)
Definition fits (length_field_len : nat) (m : M) : Prop :=
  ∃ bs, to_payload m = Some bs ∧ length bs ≤ ld_max (D := D) length_field_len.

Lemma encode_items_fit p items dst :
  0 < p → is_ok (encode_items (codec_new p) items dst).1 = true ↔ Forall (fits p) items.
Proof.
  intros Hp. revert dst. induction items as [|m items IH]; intros dst; cbn [encode_items]; [by split|].
  rewrite Forall_cons. destruct (to_payload m) as [bs|] eqn:Em;
    [destruct (decide (length bs ≤ ld_max p)) as [Hl|Hl]|].
  - pose proof (format_encode_ok (codec_new p) m dst bs Hp Em Hl) as Ho.
    destruct (format_encode (codec_new p) m dst) as [r dst1]. simpl in Ho. subst r. rewrite IH.
    split; [|tauto]. split; [by exists bs|done].
  - destruct (format_encode_err (codec_new p) m dst) as [e ->]; [intros bs' E; rewrite E in Em; simplify_eq/=; lia|].
    simpl. split; [done|]. intros [(bs'&E&Hl') _]. rewrite E in Em. simplify_eq. lia.
  - destruct (format_encode_err (codec_new p) m dst) as [e ->]; [by rewrite Em|]. simpl. split; [done|].
    intros [(bs'&E&_) _]. by rewrite E in Em.
Qed.

(** C36. The codecs of the examples deliver. With any width of the length field, encoding a sequence of
    messages succeeds exactly if each can be serialized into a payload the framing library takes for that
    width; then, however the bytes are split into reads, decoding returns exactly these messages in
    order, without an error. A frame whose payload is not a message is reported as [InvalidData], and
    consumed: the codec is ready for the frame behind it. *)
Theorem codec_delivers p (items : list M) :
  0 < p →
  (is_ok (encode_items (codec_new (D := D) p) items []).1 = true ↔ Forall (fits p) items) ∧
  (∀ wire reads, encode_items (codec_new (D := D) p) items [] = (Ok (), wire) → mjoin reads = wire → reads ≠ [] →
     ∃ c src, receive format_decode (S (length items)) (codec_new (D := D) p) [] reads = Some (items, None, c, src)) ∧
  (∀ bs f rest, ld_encode p (ld_max (D := D) p) bs = Ok f → from_payload (M := M) bs = None →
     format_decode (M := M) (codec_new (D := D) p) (f ++ rest) =
       (Err (mkIoError InvalidData NoPayload), codec_new p, rest)).
Proof.
  intros Hp. split; [by apply encode_items_fit|]. split.
  - intros wire reads E Hw Hne.
    destruct (encode_items_decodes (codec_new p) items [] wire) as (fs&Ew&Hd); [by split|done|].
    destruct (receive_frames format_decode length_field_len format_decode_resume reads
      (codec_new p) fs items (codec_new p) (S (length items)) (codec_new p) [] []) as (c&src&Er&_);
      [done|done|simpl in *; congruence|lia|done|]. eauto.
  - intros bs f rest Ef Eb. by apply (invalid_payload_reported (codec_new p) bs).
Qed.
End theorems.

(** ** Witnesses *)

(** [SimpleCodec<String>] is the default codec with the string format; two strings whose bytes
    arrive in three reads, one of them in the middle of the second character. *)
Definition demo_strings : list Str := [mkStr [104; 195; 169]%N eq_refl; mkStr [33]%N eq_refl].

Lemma codec_delivers_witness :
  encode_items (D := option nat) codec_default demo_strings [] = (Ok (), [0; 3; 104; 195; 169; 0; 1; 33]%N) ∧
  ∃ c src, receive format_decode 3 (codec_default (D := option nat)) []
    [[0; 3; 104; 195]; [169; 0]; [1; 33]]%N = Some (demo_strings, None, c, src).
Proof.
  destruct (codec_delivers (D := option nat) 2 demo_strings ltac:(lia)) as (_&Hr&_).
  split; [vm_compute; reflexivity|].
  apply (Hr [0; 3; 104; 195; 169; 0; 1; 33]%N); [vm_compute; reflexivity|reflexivity|done].
Defined.

(** A frame that is not UTF-8 is consumed and reported. *)
Example invalid_string :
  (format_decode (M := Str) (codec_default (D := option nat)) [0; 1; 255; 7]%N).1.1 = Err (mkIoError InvalidData NoPayload) ∧
  (format_decode (M := Str) (codec_default (D := option nat)) [0; 1; 255; 7]%N).2 = [7]%N.
Proof. split; vm_compute; reflexivity. Qed.
