(* ===== verification/Delivery.v ===== *)
(** * From [unicast] to [process_message]

    The writer task of one node, the bytes on the wire, and the counting decoder and the reader of
    the node at the other end, composed.  What they rely on of the user's codec is the interface
    [FrameCodec]; the codecs of the examples implement it. *)

From S2P Require Import Prelude Net Stats Reading Writing Text Framing Codecs.

Open Scope nat_scope.

(** ** The interface *)

(** A decoder, its state between two messages, and the frames its encoder makes of a message: a
    frame at the front of the buffer is decoded and taken out; an incomplete one is waited for;
    waiting loses nothing, and the buffer never grows. *)
Class FrameCodec (C M : Type) := {
  fc_decode : C → list N → IoResult (option M) * C * list N;
  fc_idle : C;
  fc_frame : M → list N → Prop;
  fc_decode_frame m f rest : fc_frame m f → fc_decode fc_idle (f ++ rest) = (Ok (Some m), fc_idle, rest);
  fc_decode_partial m src more :
    fc_frame m (src ++ more) → more ≠ [] → ∃ c src', fc_decode fc_idle src = (Ok None, c, src');
  fc_decode_empty : ∃ c src', fc_decode fc_idle [] = (Ok None, c, src');
  fc_decode_resume c src c' src' more :
    fc_decode c src = (Ok None, c', src') → fc_decode c' (src' ++ more) = fc_decode c (src ++ more);
  fc_decode_shrinks c src r c' src' : fc_decode c src = (r, c', src') → length src' ≤ length src;
}.

(** ** The counting decoder *)

Section counting.
Context {C M : Type} `{FrameCodec C M}.
Implicit Types (c : CountingCodec C).

(** [CountingCodec::decode] around the codec. *)
Definition counted : CountingCodec C → list N → IoResult (option M) * CountingCodec C * list N :=
  counting_decode (λ _, fc_decode) false.

Lemma counted_resume c src c' src' more :
  counted c src = (Ok None, c', src') → counted c' (src' ++ more) = counted c (src ++ more).
Proof.
  unfold counted, counting_decode. destruct (fc_decode (codec c) src) as [[r d] s1] eqn:E1. intros [= -> <- <-].
  cbn [is_message]. pose proof (fc_decode_shrinks _ _ _ _ _ E1) as Hs.
  destruct (account_cases (with_codec c d) (length src) (length s1) false) as [Hc Hcase].
  destruct Hcase as [(Hs1&Hn1&Ha1&_)|(?&_)]; [|done].
  set (c1 := account _ _ _ _) in *. clearbody c1. cbn in Hc, Hs1, Hn1, Ha1. rewrite Hc.
  rewrite (fc_decode_resume _ _ _ _ more E1). destruct (fc_decode (codec c) (src ++ more)) as [[r2 d2] s2] eqn:E2.
  pose proof E2 as E2'. rewrite <- (fc_decode_resume _ _ _ _ more E1) in E2'.
  pose proof (fc_decode_shrinks _ _ _ _ _ E2') as Hs2. rewrite length_app in Hs2.
  f_equal. f_equal. unfold account, with_codec. cbn [codec acc cc_stats cc_node_stats].
  rewrite !length_app, Ha1, Hs1, Hn1.
  replace (length s1 + length more - length s2 + (length src - length s1 + acc c))
    with (length src + length more - length s2 + acc c) by lia.
  destruct (Nat.eqb_spec (length src + length more - length s2 + acc c) 0) as [Hz|]; [|by destruct (is_message r2)].
  replace (length src - length s1 + acc c) with (acc c) by lia. done.
Qed.

Lemma frame_nonempty m f : fc_frame m f → 0 < length f.
Proof.
  intros Hf. destruct f; [|simpl; lia]. destruct fc_decode_empty as (c&src&E).
  pose proof (fc_decode_frame m [] [] Hf) as E'. simpl in E'. congruence.
Qed.

(** Between two messages: nothing has been held back. *)
Definition at_rest c : Prop := codec c = fc_idle ∧ acc c = 0.

Definition counts c : Stats * Stats := (cc_stats c, cc_node_stats c).

(** Waiting for the rest of a message counts nothing. *)
Lemma counted_waits c src d src' :
  fc_decode (codec c) src = (Ok None, d, src') → ∃ c', counted c src = (Ok None, c', src') ∧ counts c' = counts c.
Proof.
  intros E. unfold counted, counting_decode. rewrite E. eexists. split; [done|]. cbn [is_message].
  destruct (account_cases (with_codec c d) (length src) (length src') false) as [_ [(Hs&Hn&_)|(?&_)]]; [|done].
  unfold counts. by rewrite Hs, Hn.
Qed.

(** A frame is decoded and counted. *)
Lemma counted_frame c m f :
  at_rest c → fc_frame m f →
  ∃ c1, (∀ rest, counted c (f ++ rest) = (Ok (Some m), c1, rest)) ∧ at_rest c1 ∧
    cc_stats c1 = register_received [length f] (cc_stats c) ∧
    cc_node_stats c1 = register_received [length f] (cc_node_stats c).
Proof.
  intros [Hc Ha] Hf. pose proof (frame_nonempty _ _ Hf) as Hl.
  exists (mkCountingCodec fc_idle (register_received [length f] (cc_stats c)) (register_received [length f] (cc_node_stats c)) 0).
  split; [|by split_and!]. intros rest. unfold counted, counting_decode. rewrite Hc, (fc_decode_frame _ _ rest Hf).
  f_equal. f_equal. unfold account. cbn [acc with_codec is_message].
  rewrite length_app, Ha. replace (length f + length rest - length rest + 0) with (length f) by lia.
  destruct (Nat.eqb_spec (length f) 0); [lia|done].
Qed.

Lemma counted_frames ms fs : Forall2 fc_frame ms fs → ∀ c, at_rest c →
  ∃ c2, decodes counted counts c fs ms c2 ∧
    cc_stats c2 = register_received (length <$> fs) (cc_stats c) ∧
    cc_node_stats c2 = register_received (length <$> fs) (cc_node_stats c).
Proof.
  induction 1 as [|m f ms fs Hf Hfs IH]; intros c Hc.
  - exists c. split; [|done]. constructor. destruct fc_decode_empty as (d&src&E). pose proof Hc as [Hi _].
    rewrite <- Hi in E. destruct (counted_waits _ _ _ _ E) as (c'&?&?). eauto.
  - destruct (counted_frame c m f Hc Hf) as (c1&E1&Hc1&Hs1&Hn1). destruct (IH c1 Hc1) as (c2&Hd&Hs2&Hn2).
    exists c2. split; [|by rewrite Hs2, Hn2, Hs1, Hn1]. econstructor; [exact E1| |exact Hd].
    intros src more -> Hne. destruct (fc_decode_partial _ _ _ Hf Hne) as (d&src'&E). pose proof Hc as [Hi _].
    rewrite <- Hi in E. destruct (counted_waits _ _ _ _ E) as (c'&?&?). eauto.
Qed.
End counting.

(** The totals of a received sequence. *)
Lemma register_received_totals sizes st :
  stats_wf st → received (register_received sizes st) =
    (wrapping_add (msgs_received st) (N.of_nat (length sizes)), wrapping_add (bytes_received st) (N.of_nat (sum_list sizes))).
Proof.
  revert st. induction sizes as [|z sizes IH]; intros st Hwf.
  - pose proof Hwf as (?&?&?&?). unfold received. simpl. by rewrite !wrapping_add_0_r.
  - cbn [register_received foldl]. change (foldl _ ?x sizes) with (register_received sizes x). rewrite IH.
    + unfold register_received_message. cbn [msgs_received bytes_received length sum_list sum_list_with].
      rewrite !wrapping_add_assoc. f_equal; f_equal; [lia|]. simpl. lia.
    + exact (register_wf (Received (N.of_nat z)) st Hwf).
Qed.

(** With back-pressure, what has been processed is a prefix of what was decoded. *)
Lemma processed_prefix {Msg} queue_depth evs (st : ReadState (Msg := Msg)) ms :
  read_run true queue_depth read_init evs = Some st → reader_pc st ≠ ReaderDone → decoded st `prefix_of` ms →
  processed st `prefix_of` ms.
Proof.
  intros Hr Hpc Hpre. destruct (read_run_inv _ _ _ _ _ Hr (read_init_inv _ _)) as [_ H2 H3 H4 _].
  specialize (H3 Hpc). destruct (H4 eq_refl) as [Hd0 Hwn]. rewrite Hd0, Hwn in H3. simpl in H3.
  apply sublist_full in H2; [|lia]. etrans; [|exact Hpre]. rewrite <- H2. by apply prefix_app_r.
Qed.

(** ** Theorems *)

Section delivery.
Context {W C M : Type} `{FramedWrite W M} `{FrameCodec C M}.
(** The sink encodes messages as the codec's frames. *)
Context (sink_frames : ∀ (w : W) m f, Writing.encode w m = Ok f → fc_frame m f).

Lemma delivered_frames (delivered : list (WrappedMessage M)) fs :
  Forall2 (encoded_as (W := W)) delivered fs → Forall2 fc_frame (omap msg delivered) fs.
Proof.
  induction 1 as [|wm f ms fs (m&w&Hm&He) _ IH]; [constructor|]. cbn [omap list_omap]. rewrite Hm.
  constructor; [by eapply sink_frames|done].
Qed.

Lemma length_mjoin (fs : list (list N)) : length (mjoin fs) = sum_list (length <$> fs).
Proof. induction fs as [|f fs IH]; [done|]. csimpl. by rewrite length_app, IH. Qed.

(** C18. What is sent is what is processed. Whatever messages are queued for a connection and
    whenever they arrive: once the writer task has counted all of them as sent then, however the
    stream splits the bytes it has taken into reads, the reader at the other end decodes exactly the
    queued messages, in order and without an error; the numbers of messages and bytes its connection
    counts as received are those the sender's counts as sent; and with back-pressure the messages
    handed to [process_message] while the reader runs are always a prefix of them. *)
Theorem sent_is_processed fuel depth arrivals (s s' : WriterState (W := W)) left now reads (c : CountingCodec C) :
  writer_loop fuel depth arrivals [] s = Some (s', left) →
  wire (sink s) = [] → stats_wf (conn_stats s) → stats_wf (node_stats s) → sent (conn_stats s) = (0, 0)%N →
  (N.of_nat (length (mjoin arrivals)) < u64_max)%N →
  msgs_sent (conn_stats s') = N.of_nat (length (mjoin arrivals)) →
  mjoin reads = written (sink s') → reads ≠ [] → at_rest c → cc_stats c = default_stats now →
  left = [] ∧
  ∃ c' src, receive counted (S (length (mjoin arrivals))) c [] reads =
      Some (omap msg (mjoin arrivals), None, c', src) ∧
    received (cc_stats c') = sent (conn_stats s') ∧
    ∀ queue_depth evs st, read_run true queue_depth read_init evs = Some st →
      reader_pc st ≠ ReaderDone → decoded st `prefix_of` omap msg (mjoin arrivals) →
      processed st `prefix_of` omap msg (mjoin arrivals).
Proof.
  intros Hrun Hw0 Hwf1 Hwf2 Hs0 Hlt Hsent Hreads Hne Hc Hcs.
  destruct (writer_loop_fate _ _ _ _ _ _ _ Hwf1 Hwf2 Hrun) as (delivered&failed&Hall&Hleft&Hft).
  destruct Hft as [(fs&Hf&Hst&_&Hwire&_) Hfl]. injection Hs0 as Hs0 Hb0.
  assert (failed = []) as ->.
  { rewrite Hst in Hsent. cbn [register_sent_messages msgs_sent] in Hsent. rewrite Hs0 in Hsent.
    simpl in Hall. rewrite Hall, !length_app in Hsent, Hlt. unfold wrapping_add in Hsent.
    rewrite N.mod_small in Hsent by lia. apply nil_length_inv. lia. }
  rewrite (Hleft eq_refl), !app_nil_r in Hall. simpl in Hall. rewrite Hall in *. split; [by apply Hleft|].
  destruct (Hwire eq_refl) as [_ Hw]. clear Hwire. rename Hw into Hwire. unfold wire in Hwire, Hw0. apply app_nil in Hw0 as [Hw0 Hbuf].
  rewrite (Hfl eq_refl Hbuf), Hw0, Hbuf, !app_nil_r in Hwire. simpl in Hwire.
  pose proof (Forall2_length _ _ _ Hf) as Hlen. apply delivered_frames in Hf as Hfr.
  destruct (counted_frames _ _ Hfr c Hc) as (c2&Hd&Hs2&_). pose proof (Forall2_length _ _ _ Hfr) as Hlen2.
  destruct (receive_frames counted counts counted_resume reads c fs (omap msg delivered) c2 (S (length delivered)) c [] [])
    as (c'&src&Er&Hv); [done|done|simpl; congruence|rewrite Hlen2; lia|done|].
  exists c', src. split; [done|]. split; [|intros; by eapply processed_prefix].
  injection Hv as Hv _. rewrite Hv, Hs2, register_received_totals by (rewrite Hcs; by vm_compute).
  rewrite Hst, Hcs. unfold sent, register_sent_messages in *. cbn. rewrite Hs0, Hb0.
  by rewrite length_fmap, <- Hlen, length_mjoin.
Qed.
End delivery.

(** ** The codecs of the examples *)

Section example_codecs.
Context {D M : Type} `{LengthDelimitedSpec D} `{FormatSpec M}.

(** The frames of the codec with a length field of [p] bytes. *)
Definition framed_as (p : nat) (m : M) (f : list N) : Prop := format_encode (D := D) (codec_new p) m [] = (Ok (), f).

Lemma framed_as_inv p m f :
  framed_as p m f → ∃ bs, to_payload m = Some bs ∧ ld_encode p (ld_max (D := D) p) bs = Ok f.
Proof.
  unfold framed_as, format_encode. destruct (to_payload m) as [bs|]; [|done]. cbn [length_field_len codec_new].
  destruct (ld_encode _ _ _) as [f'|e] eqn:E; [|done]. intros [= <-]. eauto.
Qed.

Lemma format_decode_shrinks (c : Codec D) src (r : IoResult (option M)) c' src' :
  format_decode c src = (r, c', src') → length src' ≤ length src.
Proof.
  unfold format_decode, inner_decode. destruct (ld_decode _ _ _ _) as [[r1 d] s1] eqn:E.
  apply ld_decode_shrinks in E. destruct r1 as [[bs|]|e]; [destruct (from_payload bs)|..]; intros; by simplify_eq.
Qed.

Lemma format_decode_frame p m f rest :
  framed_as p m f → format_decode (D := D) (codec_new p) (f ++ rest) = (Ok (Some m), codec_new p, rest).
Proof.
  intros (bs&Em&Ef)%framed_as_inv. unfold format_decode, inner_decode. cbn [inner length_field_len codec_new].
  by rewrite (ld_decode_frame _ _ _ _ rest Ef), (from_to_payload _ _ Em).
Qed.

Lemma format_decode_partial p m src more :
  0 < p → framed_as p m (src ++ more) → more ≠ [] →
  ∃ c src', format_decode (M := M) (D := D) (codec_new p) src = (Ok None, c, src').
Proof.
  intros Hp (bs&_&Ef)%framed_as_inv Hne. destruct (ld_decode_partial _ _ _ _ _ Hp Ef Hne) as (d&src'&E).
  exists (mkCodec p d), src'. unfold format_decode, inner_decode. cbn [inner length_field_len codec_new]. by rewrite E.
Qed.

Lemma format_decode_empty p :
  0 < p → ∃ c src', format_decode (M := M) (D := D) (codec_new p) [] = (Ok None, c, src').
Proof.
  intros Hp. destruct (ld_decode_empty p (ld_max (D := D) p) Hp) as [d E].
  exists (mkCodec p d), []. unfold format_decode, inner_decode. cbn [inner length_field_len codec_new]. by rewrite E.
Qed.

Definition format_codec (p : nat) (Hp : 0 < p) : FrameCodec (Codec D) M := {|
  fc_decode := format_decode;
  fc_idle := codec_new p;
  fc_frame := framed_as p;
  fc_decode_frame m f rest := format_decode_frame p m f rest;
  fc_decode_partial m src more := format_decode_partial p m src more Hp;
  fc_decode_empty := format_decode_empty p Hp;
  fc_decode_resume := format_decode_resume;
  fc_decode_shrinks := format_decode_shrinks;
|}.

(** A sink around a stream that takes everything, with the codec inside. *)
Record CodecSink := mkCodecSink { cs_buffer : list N; cs_stream : list N; cs_boundary : nat }.

Definition sink_encode (p : nat) (m : M) : IoResult (list N) :=
  match format_encode (D := D) (codec_new p) m [] with (Ok _, f) => Ok f | (Err e, _) => Err e end.

#[program] Definition codec_sink (p : nat) : FramedWrite CodecSink M := {|
  write_buffer := cs_buffer;
  written := cs_stream;
  Writing.encode := λ _, sink_encode p;
  poll_ready := λ w,
    (Ready (Ok ()), if cs_boundary w <=? length (cs_buffer w)
                    then mkCodecSink [] (cs_stream w ++ cs_buffer w) (cs_boundary w) else w);
  start_send := λ w m,
    match sink_encode p m with
    | Ok f => (Ready (Ok ()), mkCodecSink (cs_buffer w ++ f) (cs_stream w) (cs_boundary w))
    | Err e => (Ready (Err e), w)
    end;
  flush := λ w, (Ready (Ok ()), mkCodecSink [] (cs_stream w ++ cs_buffer w) (cs_boundary w));
|}.
Next Obligation. intros p w w'. simpl. case_match; intros; simplify_eq/=; by rewrite ?app_nil_r. Qed.
Next Obligation. intros p w w' m. simpl. destruct (sink_encode p m); intros; simplify_eq/=. eauto. Qed.
Next Obligation. intros p w w'. simpl. intros; by simplify_eq/=. Qed.

Lemma sink_encode_frames p m f : sink_encode p m = Ok f → framed_as p m f.
Proof. unfold sink_encode, framed_as. destruct (format_encode _ m []) as [[[]|e] f']; [|done]. by intros [= <-]. Qed.
End example_codecs.

Arguments CodecSink : clear implicits.

(** ** Witness *)

(** Three strings, queued two and one, sent with the default codec through a sink that flushes
    early; they arrive in two reads. *)
#[local] Instance demo_codec : FrameCodec (Codec (option nat)) Str := format_codec 2 (Nat.lt_0_succ 1).
#[local] Instance demo_sink : FramedWrite CodecSink Str := codec_sink (D := option nat) 2.

Definition demo_string (bs : list N) (valid : utf8_bytes bs = true) (d : nat) : WrappedMessage Str :=
  wrap (Some (mkStr bs valid)) (Some d).
Definition demo_arrivals : list (list (WrappedMessage Str)) :=
  [[demo_string [104; 105]%N eq_refl 0; demo_string [] eq_refl 1]; [demo_string [33]%N eq_refl 2]].
Definition demo_writer_state : WriterState (W := CodecSink) :=
  mkWriterState (mkCodecSink [] [] 3) (default_stats 0) (default_stats 0) default_heuristics [].
Definition demo_counting : CountingCodec (Codec (option nat)) :=
  mkCountingCodec (codec_new 2) (default_stats 0) (default_stats 0) 0.

Lemma demo_sink_frames (w : CodecSink) (m : Str) f : Writing.encode w m = Ok f → fc_frame m f.
Proof. apply sink_encode_frames. Qed.

Lemma sent_is_processed_witness :
  ∃ s' c' src, writer_loop 10 4 demo_arrivals [] demo_writer_state = Some (s', []) ∧
    receive (counted (M := Str)) 4 demo_counting [] [[0; 2; 104]; [105; 0; 0; 0; 1; 33]]%N =
      Some (omap msg (mjoin demo_arrivals), None, c', src) ∧
    received (cc_stats c') = sent (conn_stats s').
Proof.
  destruct (writer_loop 10 4 demo_arrivals [] demo_writer_state) as [[s' left]|] eqn:E; [|vm_compute in E; discriminate E].
  assert (msgs_sent (conn_stats s') = 3%N ∧ [0; 2; 104; 105; 0; 0; 0; 1; 33]%N = written (sink s')) as [Hm Hw].
  { vm_compute in E. injection E as <- <-. split; reflexivity. }
  destruct (sent_is_processed demo_sink_frames 10 4 demo_arrivals demo_writer_state s' left 0%N
    [[0; 2; 104]; [105; 0; 0; 0; 1; 33]]%N demo_counting) as (->&c'&src&Hr&Hs&_);
    [exact E|reflexivity|by vm_compute|by vm_compute|reflexivity|reflexivity|exact Hm|exact Hw|done|split; reflexivity|reflexivity|].
  exists s', c', src. split; [reflexivity|]. split; [exact Hr|exact Hs].
Defined.
