(* ===== verification/Crusaders.v ===== *)
(** * The fixed-length messages example ([examples/examples/fixed_length_crusaders.rs])

    Its codec of single-byte messages, as an instance of the interface under which delivery is proved,
    and the exchange of battle cries between its two nodes. *)

From S2P Require Import Prelude Net Stats Reading Writing Text Framing Codecs Delivery.

Open Scope N_scope.

Inductive BattleCry := Ora | Muda.

#[global] Instance BattleCry_eq_dec : EqDecision BattleCry.
Proof. solve_decision. Defined.

(** [item as u8], and [BattleCry::try_from]. *)
Definition as_u8 (cry : BattleCry) : N := match cry with Ora => 0 | Muda => 1 end.

Definition try_from (byte : N) : IoResult BattleCry :=
  match byte with
  | 0 => Ok Ora
  | 1 => Ok Muda
  | _ => Err (mkIoError InvalidData NoPayload)
  end.

(** [SingleByteCodec], which has no state. *)
Definition cry_decode (c : unit) (src : list N) : IoResult (option BattleCry) * unit * list N :=
  match src with
  | [] => (Ok None, c, [])
  | byte :: src => (io_map Some (try_from byte), c, src)
  end.

Definition cry_encode (item : BattleCry) (dst : list N) : IoResult () * list N := (Ok (), dst ++ [as_u8 item]).

(** The reply [process_message] sends back to the source. *)
Definition cry_reply (cry : BattleCry) : BattleCry := match cry with Ora => Muda | Muda => Ora end.

(** The first [k] messages of an exchange that begins with [cry], each node replying to the other. *)
Fixpoint exchange (k : nat) (cry : BattleCry) : list BattleCry :=
  match k with O => [] | S k => cry :: exchange k (cry_reply cry) end.

Definition cry_frame (m : BattleCry) (f : list N) : Prop := cry_encode m [] = (Ok (), f).

Lemma try_from_as_u8 m : try_from (as_u8 m) = Ok m.
Proof. by destruct m. Qed.

#[program] Definition cry_codec : FrameCodec unit BattleCry := {|
  fc_decode := cry_decode;
  fc_idle := tt;
  fc_frame := cry_frame;
|}.
Next Obligation. intros m f rest [= <-]. simpl. by rewrite try_from_as_u8. Qed.
Next Obligation.
  intros m [|b src] more [= E] Hne; [by eexists _, _|]. destruct src, more; simplify_eq/=.
Qed.
Next Obligation. by eexists _, _. Qed.
Next Obligation. intros [] [|b src] [] src' more E; simplify_eq/=; [done|]. by destruct (try_from b). Qed.
Next Obligation. intros [] [|b src] r [] src' E; simplify_eq/=; lia. Qed.

(** The codec is exact: a byte is decoded exactly if it is the encoding of a battle cry, any other
    byte is refused as invalid data, and each message takes one byte. *)
Theorem cry_codec_exact b src :
  (∀ m dst, cry_encode m dst = (Ok (), dst ++ [as_u8 m])) ∧
  match try_from b with
  | Ok m => as_u8 m = b ∧ cry_decode tt (b :: src) = (Ok (Some m), tt, src)
  | Err e => kind e = InvalidData ∧ cry_decode tt (b :: src) = (Err e, tt, src) ∧ ∀ m, as_u8 m ≠ b
  end.
Proof.
  split; [done|]. destruct (try_from b) as [m|e] eqn:E; simpl; rewrite E; unfold try_from in E;
    (destruct b as [|[p|p|]]; simplify_eq/=; split; try done).
  all: split; [done|]. all: by intros [].
Qed.

(** In an exchange that Jotaro opens with [Ora], he only ever says [Ora] and Dio only ever [Muda]. *)
Theorem exchange_alternates k i m :
  exchange k Ora !! i = Some m → m = (if Nat.even i then Ora else Muda).
Proof.
  assert (∀ cry, exchange k cry !! i = Some m → m = (if Nat.even i then cry else cry_reply cry)) as H; [|by apply H].
  revert i. induction k as [|k IH]; intros [|i] cry Hm; [done|done|by injection Hm as <-|].
  change (exchange k (cry_reply cry) !! i = Some m) in Hm. apply IH in Hm as ->. rewrite Nat.even_succ, <-Nat.negb_even. destruct (Nat.even i); simpl; [done|by destruct cry].
Qed.
