(* ===== verification/Rpc.v ===== *)
(** * Request and response ([examples/examples/simple_rpc.rs])

    The messages and their encoding, and the [RpcNode] as a transition system: calls of [rpc] in
    progress, with their oneshot channels, interleaved with the messages that arrive.  Whether
    [unicast_fast] succeeds and whether the second of a call has passed are inputs of the steps.
    [str::to_uppercase], which the server applies to a request, is a parameter. *)

From S2P Require Import Prelude Net Text Codecs.

Open Scope nat_scope.

(** ** Messages *)

Inductive Message := Request (id : N) (data : Str) | Response (id : N) (data : Str).

Definition encode (m : Message) : list N :=
  match m with
  | Request id data => [0%N] ++ to_be_bytes 8 id ++ str_bytes data
  | Response id data => [1%N] ++ to_be_bytes 8 id ++ str_bytes data
  end.

Definition decode (buf : list N) : option Message :=
  if length buf <? 9 then None
  else match buf with
  | [] => None
  | msg_type :: buf =>
      let id := from_be_bytes (take 8 buf) in
      data ← string_from_utf8 (drop 8 buf);
      match msg_type with
      | 0%N => Some (Request id data)
      | 1%N => Some (Response id data)
      | _ => None
      end
  end.

Definition msg_id (m : Message) : N := match m with Request id _ | Response id _ => id end.

(** ** The node *)

(** The receiving half of a call's channel, or what the call has returned. *)
Inductive Call := Waiting | Replied (data : Str) | SenderDropped | Returned (r : IoResult Str).

(** The node and its calls, each with its id; the pending map holds the calls' positions. *)
Record RpcNode := mkRpcNode {
  next_request_id : N;
  pending_requests : gmap N nat;
  calls : list (N * Call);
}.

Definition new_rpc_node : RpcNode := mkRpcNode 0 ∅ [].

Definition drop_sender (c : N * Call) : N * Call :=
  match c with (id, Waiting) => (id, SenderDropped) | _ => c end.
Definition deliver (data : Str) (c : N * Call) : N * Call :=
  match c with (id, Waiting) => (id, Replied data) | _ => c end.

Definition rpc_timed_out : IoError := mkIoError TimedOut (Prelude.Message "RPC timed out").
Definition sender_gone : IoError := mkIoError BrokenPipe (Prelude.Message "Sender dropped").

(** [rpc] up to its wait: the bytes handed to [unicast_fast], whose outcome is [sent]. An entry that
    [insert] replaces, or the one removed after a failure, drops its sender. *)
Definition rpc_start (n : RpcNode) (data : Str) (sent : IoResult ()) : RpcNode * list N :=
  let id := next_request_id n in
  let c := length (calls n) in
  let calls := match pending_requests n !! id with
               | Some old => alter drop_sender old (calls n)
               | None => calls n
               end in
  let pending := <[id := c]> (pending_requests n) in
  (match sent with
   | Ok _ => mkRpcNode (wrapping_add id 1) pending (calls ++ [(id, Waiting)])
   | Err e => mkRpcNode (wrapping_add id 1) (delete id pending) (calls ++ [(id, Returned (Err e))])
   end, encode (Request id data)).

(** The end of [rpc]: an answer, a dropped sender or the timeout. *)
Definition rpc_finish (n : RpcNode) (c : nat) (elapsed : bool) : option RpcNode :=
  '(id, st) ← calls n !! c;
  let return_ r := Some (mkRpcNode (next_request_id n) (pending_requests n) (<[c := (id, Returned r)]> (calls n))) in
  match st with
  | Replied data => return_ (Ok data)
  | SenderDropped => return_ (Err sender_gone)
  | Waiting => if elapsed then return_ (Err rpc_timed_out) else None
  | Returned _ => None
  end.

Section server.
Context (to_uppercase : Str → Str).

Lemma utf8_bytes_app bs cs : utf8_bytes bs = true → utf8_bytes cs = true → utf8_bytes (bs ++ cs) = true.
Proof. unfold utf8_bytes. rewrite length_app. apply utf8_fuel_app. Qed.

Definition str_app (s t : Str) : Str :=
  mkStr (str_bytes s ++ str_bytes t) (utf8_bytes_app _ _ (str_valid s) (str_valid t)).

(** [format!("processed: {}", data.to_uppercase())]. *)
Definition processed : Str := mkStr (bytes_of "processed: ") eq_refl.
Definition reply_to (data : Str) : Str := str_app processed (to_uppercase data).

(** [process_message]: the node, and the bytes sent back to the source, if any. *)
Definition process_message (n : RpcNode) (source : SocketAddr) (message : list N)
  : RpcNode * option (SocketAddr * list N) :=
  match decode message with
  | None => (n, None)
  | Some (Request id data) => (n, Some (source, encode (Response id (reply_to data))))
  | Some (Response id data) =>
      (match pending_requests n !! id with
       | Some c => mkRpcNode (next_request_id n) (delete id (pending_requests n)) (alter (deliver data) c (calls n))
       | None => n
       end, None)
  end.

(** ** Runs *)

Inductive Event :=
| CallRpc (data : Str) (sent : IoResult ())
| Arrives (source : SocketAddr) (message : list N)
| Finish (c : nat) (elapsed : bool).

Definition rpc_step (e : Event) (n : RpcNode) : option RpcNode :=
  match e with
  | CallRpc data sent => Some (rpc_start n data sent).1
  | Arrives source message => Some (process_message n source message).1
  | Finish c elapsed => rpc_finish n c elapsed
  end.

Fixpoint rpc_run (es : list Event) (n : RpcNode) : option RpcNode :=
  match es with
  | [] => Some n
  | e :: es => n ← rpc_step e n; rpc_run es n
  end.

(** The messages that have arrived. *)
Definition arrived (es : list Event) : list Message :=
  omap (λ e, match e with Arrives _ message => decode message | _ => None end) es.
End server.

(** ** Messages: lemmas *)

Lemma string_from_utf8_str s : string_from_utf8 (str_bytes s) = Some s.
Proof. exact (@from_to_payload Str string_format string_format_spec s (str_bytes s) eq_refl). Qed.

Lemma string_from_utf8_inv bs s : string_from_utf8 bs = Some s → str_bytes s = bs.
Proof. unfold string_from_utf8. destruct (decide _); [|done]. by intros [= <-]. Qed.

Lemma decode_encoded t id s :
  (id < 2 ^ 64)%N →
  decode ([t] ++ to_be_bytes 8 id ++ str_bytes s) =
    match t with 0%N => Some (Request id s) | 1%N => Some (Response id s) | _ => None end.
Proof.
  intros Hid. unfold decode. cbn [app]. change (length (t :: ?l)) with (S (length l)).
  rewrite length_app, length_to_be_bytes. destruct (Nat.ltb_spec (S (8 + length (str_bytes s))) 9); [lia|].
  rewrite take_app_length', drop_app_length' by (by rewrite length_to_be_bytes).
  rewrite from_to_be_bytes by done. by rewrite string_from_utf8_str.
Qed.

Lemma message_decodes m : (msg_id m < 2 ^ 64)%N → decode (encode m) = Some m.
Proof. intros Hid. destruct m; unfold encode; by rewrite decode_encoded. Qed.

Lemma message_encodes bs m : Forall (λ b, b < 256)%N bs → decode bs = Some m → encode m = bs ∧ (msg_id m < 2 ^ 64)%N.
Proof.
  unfold decode. destruct (Nat.ltb_spec (length bs) 9) as [|Hl]; [done|]. destruct bs as [|t bs]; [done|].
  intros [Ht Hbs]%Forall_cons. simpl in Hl. destruct (string_from_utf8 (drop 8 bs)) as [s|] eqn:Es; [|done].
  cbn [mbind option_bind]. apply string_from_utf8_inv in Es.
  assert (Forall (λ b, b < 256)%N (take 8 bs)) as Ht8 by (by apply Forall_take).
  assert (length (take 8 bs) = 8) as Hl8 by (rewrite length_take; lia).
  pose proof (to_from_be_bytes _ Ht8) as Eb. pose proof (from_be_bytes_bound _ Ht8) as Hb. rewrite Hl8 in Eb, Hb.
  intros E. assert ((t = 0%N ∧ m = Request (from_be_bytes (take 8 bs)) s) ∨
    (t = 1%N ∧ m = Response (from_be_bytes (take 8 bs)) s)) as [[-> ->]|[-> ->]].
  { destruct t as [|[p|p|]]; simplify_eq; auto. }
  all: unfold encode; rewrite Eb, Es; cbn [app msg_id]; by rewrite take_drop.
Qed.

(** ** Calls: lemmas *)

Section calls.
Context (to_uppercase : Str → Str).

(** What is known of a call, [ms] being the messages that have arrived. *)
Definition call_ok (ms : list Message) (pending : gmap N nat) (c : nat) (call : N * Call) : Prop :=
  call.1 = N.of_nat c ∧
  match call.2 with
  | Waiting => pending !! call.1 = Some c
  | Replied data | Returned (Ok data) => Response call.1 data ∈ ms ∧ pending !! call.1 = None
  | SenderDropped => False
  | Returned (Err _) => True
  end.

Record rpc_inv (ms : list Message) (n : RpcNode) : Prop := {
  ids_follow : next_request_id n = (N.of_nat (length (calls n)) mod u64_max)%N;
  calls_ok c call : calls n !! c = Some call → call_ok ms (pending_requests n) c call;
  pending_ok id c :
    pending_requests n !! id = Some c →
    id = N.of_nat c ∧ (calls n !! c = Some (id, Waiting) ∨ calls n !! c = Some (id, Returned (Err rpc_timed_out)));
}.

Lemma call_ok_mono ms ms' pending c call : ms ⊆ ms' → call_ok ms pending c call → call_ok ms' pending c call.
Proof. intros Hms [Hid Hc]. split; [done|]. destruct call as [id [|d| |[d|e]]]; simpl in *; naive_solver. Qed.

Lemma next_id_fresh ms n :
  rpc_inv ms n → (N.of_nat (length (calls n)) < u64_max)%N →
  next_request_id n = N.of_nat (length (calls n)) ∧ pending_requests n !! next_request_id n = None.
Proof.
  intros [Hn _ Hp] Hlt. rewrite N.mod_small in Hn by done. split; [done|].
  destruct (_ !! _) as [c|] eqn:E; [|done]. apply Hp in E as [Hid Hc]. rewrite Hn in Hid. apply Nat2N.inj in Hid.
  destruct Hc as [Hc|Hc]; apply lookup_lt_Some in Hc; lia.
Qed.

(** A call leaves the pending entries of the others alone. *)
Lemma call_ok_pending ms pending pending' c call :
  pending' !! N.of_nat c = pending !! N.of_nat c → call_ok ms pending c call → call_ok ms pending' c call.
Proof. intros E [Hid Hc]. split; [done|]. by destruct call as [id [|d| |[d|e]]]; simpl in *; subst; rewrite ?E. Qed.

Lemma rpc_start_inv ms n data sent :
  rpc_inv ms n → (N.of_nat (length (calls n)) < u64_max)%N → rpc_inv ms (rpc_start n data sent).1.
Proof.
  intros Hinv Hlt. destruct (next_id_fresh _ _ Hinv Hlt) as [Hid Hfresh]. pose proof Hinv as [Hn Hc Hp].
  unfold rpc_start. rewrite Hfresh. cbn [fst]. rewrite Hid in *.
  assert (wrapping_add (N.of_nat (length (calls n))) 1 = N.of_nat (length (calls n) + 1) mod u64_max)%N as Hnext.
  { unfold wrapping_add. f_equal. lia. }
  assert (∀ c call pending', calls n !! c = Some call →
    (∀ i, i ≠ N.of_nat (length (calls n)) → pending' !! i = pending_requests n !! i) → call_ok ms pending' c call) as Hold.
  { intros c call pending' E Hpend. apply (call_ok_pending ms (pending_requests n)); [|by apply Hc].
    apply Hpend. apply lookup_lt_Some in E. lia. }
  destruct sent as [[]|e]; split; cbn [next_request_id pending_requests calls]; rewrite ?length_app; try done.
  - intros c call [E|[Hl E]]%lookup_app_Some.
    + apply (Hold c); [done|]. intros i Hi. by rewrite lookup_insert_ne.
    + apply list_lookup_singleton_Some in E as [E <-]. replace c with (length (calls n)) by lia.
      split; [done|]. simpl. by rewrite lookup_insert_eq.
  - intros id c. rewrite lookup_insert_Some. intros [[<- <-]|[Hne E]].
    + split; [done|]. left. by rewrite lookup_app_r, Nat.sub_diag.
    + apply Hp in E as [-> E]. split; [done|]. by destruct E as [E|E]; [left|right]; apply lookup_app_l_Some.
  - intros c call [E|[Hl E]]%lookup_app_Some.
    + apply (Hold c); [done|]. intros i Hi. by rewrite lookup_delete_ne, lookup_insert_ne.
    + apply list_lookup_singleton_Some in E as [E <-]. replace c with (length (calls n)) by lia. done.
  - intros id c. rewrite lookup_delete_Some, lookup_insert_Some. intros [Hne [[? _]|[_ E]]]; [done|].
    apply Hp in E as [-> E]. split; [done|]. by destruct E as [E|E]; [left|right]; apply lookup_app_l_Some.
Qed.

Lemma rpc_finish_inv ms n c elapsed n' :
  rpc_inv ms n → rpc_finish n c elapsed = Some n' → rpc_inv ms n'.
Proof.
  intros [Hn Hc Hp]. unfold rpc_finish. destruct (calls n !! c) as [[id st]|] eqn:E; [|done]. cbn [mbind option_bind].
  pose proof (Hc c _ E) as [Hid Hst]. simpl in Hid, Hst.
  assert (∀ r, call_ok ms (pending_requests n) c (id, Returned r) →
    (pending_requests n !! id = Some c → r = Err rpc_timed_out) →
    rpc_inv ms (mkRpcNode (next_request_id n) (pending_requests n) (<[c:=(id, Returned r)]> (calls n)))) as Hgo.
  { intros r Hok Hr. split; cbn [next_request_id pending_requests calls]; rewrite ?length_insert; [done| |].
    - intros c' call. rewrite list_lookup_insert_Some. intros [(<-&<-&_)|[_ E']]; [done|by apply Hc].
    - intros i c' Hpd. pose proof (Hp i c' Hpd) as [-> H]. split; [done|].
      destruct (decide (c = c')) as [<-|Hne].
      + right. rewrite list_lookup_insert_eq by (by eapply lookup_lt_Some). subst id. by rewrite Hr.
      + by rewrite list_lookup_insert_ne. }
  destruct st as [|d| |r]; [|intros [= <-]|done|done].
  - destruct elapsed; [|done]. intros [= <-]. by apply Hgo.
  - destruct Hst as [Hin Hnone]. apply Hgo; [by split|]. by rewrite Hnone.
Qed.

Lemma process_message_inv ms n source message :
  rpc_inv ms n →
  rpc_inv (option_list (decode message) ++ ms) (process_message to_uppercase n source message).1.
Proof.
  intros Hinv.
  assert (∀ ms', ms ⊆ ms' → rpc_inv ms' n) as Hsame.
  { intros ms' Hsub. destruct Hinv as [Hn Hc Hp]. split; [done| |done]. intros c call E.
    eapply call_ok_mono; [done|by apply Hc]. }
  unfold process_message. destruct (decode message) as [[id data|id data]|]; [apply Hsame; set_solver| |by apply Hsame].
  cbn [fst]. destruct (pending_requests n !! id) as [c|] eqn:E; [|apply Hsame; set_solver].
  destruct Hinv as [Hn Hc Hp]. destruct (Hp _ _ E) as [-> HE].
  split; cbn [next_request_id pending_requests calls]; rewrite ?length_alter; [done| |].
  - intros c' call. destruct (decide (c = c')) as [<-|Hne].
    + rewrite list_lookup_alter_eq. destruct HE as [-> | ->]; simpl; intros [= <-]; (split; [done|]); simpl; [|done].
      split; [set_solver|]. apply lookup_delete_eq.
    + rewrite list_lookup_alter_ne by done. intros E'. eapply call_ok_mono; [by apply list_subseteq_app_r|]. apply (call_ok_pending ms (pending_requests n)); [|by apply Hc].
      apply lookup_delete_ne. intros ?%Nat2N.inj. done.
  - intros i c'. rewrite lookup_delete_Some. intros [Hne E']. destruct (Hp _ _ E') as [-> H]. split; [done|].
    rewrite list_lookup_alter_ne; [done|]. intros ->. done.
Qed.

Lemma rpc_calls_grow es n n' : rpc_run to_uppercase es n = Some n' → length (calls n) ≤ length (calls n').
Proof.
  revert n. induction es as [|e es IH]; intros n; cbn [rpc_run]; [by intros [= <-]|].
  destruct (rpc_step to_uppercase e n) as [n1|] eqn:E; [|done]. cbn [mbind option_bind]. intros Hrun.
  etransitivity; [|by apply IH]. destruct e as [data sent|source message|c elapsed]; simpl in E.
  - injection E as <-. unfold rpc_start. simpl. destruct sent, (_ !! _); simpl; rewrite length_app, ?length_alter; lia.
  - injection E as <-. unfold process_message. destruct (decode message) as [[|]|]; simpl; try done.
    destruct (_ !! _); simpl; by rewrite ?length_alter.
  - revert E. unfold rpc_finish. destruct (calls n !! c) as [[id [|d| |r]]|]; simpl; try done.
    2-3: intros [= <-]; simpl; by rewrite length_insert.
    destruct elapsed; [|done]. intros [= <-]. simpl. by rewrite length_insert.
Qed.

Lemma rpc_run_inv es ms n n' :
  rpc_inv ms n → (N.of_nat (length (calls n')) ≤ u64_max)%N → rpc_run to_uppercase es n = Some n' →
  rpc_inv (reverse (arrived es) ++ ms) n'.
Proof.
  revert ms n. induction es as [|e es IH]; intros ms n Hinv Hlt; cbn [rpc_run]; [by intros [= <-]|].
  destruct (rpc_step to_uppercase e n) as [n1|] eqn:E; [|done]. cbn [mbind option_bind]. intros Hrun.
  destruct e as [data sent|source message|c elapsed]; simpl in E.
  - apply (IH ms n1); [|done|done]. injection E as <-. apply (rpc_start_inv ms n data sent); [done|].
    apply rpc_calls_grow in Hrun. revert Hrun. unfold rpc_start. simpl.
    destruct sent, (_ !! _); simpl; rewrite length_app, ?length_alter; simpl; lia.
  - injection E as <-. pose proof (process_message_inv ms n source message Hinv) as Hinv1.
    specialize (IH _ _ Hinv1 Hlt Hrun). unfold arrived in *. cbn [omap list_omap].
    destruct (decode message) as [m|]; [|done]. by rewrite reverse_cons, <- app_assoc.
  - apply (IH ms n1); [|done|done]. by eapply rpc_finish_inv.
Qed.

Lemma new_rpc_inv : rpc_inv [] new_rpc_node.
Proof. split; [done|by intros ? ?|by intros ? ?]. Qed.

(** ** Theorems *)

(** C37. Requests and responses are correlated. Over any run of a node with fewer than 2^64 calls,
    whatever arrives and whenever: a call that has returned data did so because a response with its
    own id and this data has arrived; no call sees its sender dropped; the pending map holds exactly
    the calls that wait and calls that have timed out. And a new call is answered: its request makes
    a server reply, and once the reply arrives the call returns what the server made of the data. *)
Theorem rpc_correlates es n data server at_server at_client :
  rpc_run to_uppercase es new_rpc_node = Some n → (N.of_nat (length (calls n)) < u64_max)%N →
  (∀ c id st, calls n !! c = Some (id, st) →
    id = N.of_nat c ∧ st ≠ SenderDropped ∧
    (st = Waiting → pending_requests n !! id = Some c) ∧
    (∀ d, st = Returned (Ok d) → Response id d ∈ arrived es)) ∧
  (∀ id c, pending_requests n !! id = Some c →
    calls n !! c = Some (id, Waiting) ∨ calls n !! c = Some (id, Returned (Err rpc_timed_out))) ∧
  let '(n1, request) := rpc_start n data (Ok ()) in
  ∃ reply n2 id,
    process_message to_uppercase server at_server request = (server, Some (at_server, reply)) ∧
    rpc_finish (process_message to_uppercase n1 at_client reply).1 (length (calls n)) false = Some n2 ∧
    calls n2 !! length (calls n) = Some (id, Returned (Ok (reply_to to_uppercase data))).
Proof.
  intros Hrun Hlt. pose proof (rpc_run_inv es [] _ _ new_rpc_inv (N.lt_le_incl _ _ Hlt) Hrun) as Hinv.
  rewrite app_nil_r in Hinv. split; [|split].
  - intros c id st E. destruct (calls_ok _ _ Hinv _ _ E) as [Hid Hst]. simpl in Hid, Hst.
    split_and!; [done|by intros ->|by intros ->|]. intros d ->. destruct Hst as [Hst _].
    by rewrite elem_of_reverse in Hst.
  - intros id c E. by apply (pending_ok _ _ Hinv).
  - destruct (next_id_fresh _ _ Hinv Hlt) as [Hid Hfresh]. unfold rpc_start. rewrite Hfresh. cbn [fst snd].
    assert (next_request_id n < 2 ^ 64)%N as Hb by (rewrite Hid; exact Hlt).
    unfold process_message at 1. rewrite message_decodes by done. eexists _, _, (next_request_id n). split; [done|].
    unfold process_message. rewrite message_decodes by done. cbn [fst pending_requests calls next_request_id].
    rewrite lookup_insert_eq. unfold rpc_finish. cbn [calls].
    rewrite list_lookup_alter_eq, lookup_app_r, Nat.sub_diag by done. cbn [fmap option_fmap option_map lookup list_lookup].
    cbn [deliver mbind option_bind]. split; [done|]. cbn [calls]. apply list_lookup_insert_eq.
    rewrite length_alter, length_app. simpl. lia.
Qed.

End calls.

(** The encoding of the messages is exact: decoding what was encoded gives the message back, for
    every 64-bit id and every string; and a buffer that decodes to a message is its encoding, so
    anything else (fewer than nine bytes, an unknown type, a payload that is not UTF-8) is refused. *)
Theorem message_round_trip m bs :
  ((msg_id m < 2 ^ 64)%N → decode (encode m) = Some m) ∧
  (Forall (λ b, b < 256)%N bs → decode bs = Some m → encode m = bs).
Proof. split; [apply message_decodes|]. intros Hb Hd. by apply (message_encodes bs m). Qed.

(** ** Examples *)

Definition hello : Str := mkStr (bytes_of "hello") eq_refl.
Definition shout : Str := mkStr (bytes_of "processed: HELLO") eq_refl.

Lemma message_round_trip_witness :
  decode (encode (Request 7 hello)) = Some (Request 7 hello) ∧
  encode (Response 7 hello) = [1; 0; 0; 0; 0; 0; 0; 0; 7; 104; 101; 108; 108; 111]%N.
Proof.
  split.
  - apply (message_round_trip (Request 7 hello) []). reflexivity.
  - apply (message_round_trip (Response 7 hello)); [|vm_compute; reflexivity].
    repeat constructor.
Defined.

(** A call that times out, and a call that is answered. *)
Definition demo_events : list Event :=
  [CallRpc hello (Ok ()); Finish 0 true; CallRpc hello (Ok ());
   Arrives (SockV4 1 80) (encode (Response 1 shout)); Finish 1 false].

(** A call that times out leaves its entry in the pending map. *)
Lemma timed_out_entry_stays :
  (λ n, (calls n, map_to_list (pending_requests n))) <$> rpc_run id demo_events new_rpc_node =
  Some ([(0%N, Returned (Err rpc_timed_out)); (1%N, Returned (Ok shout))], [(0%N, 0)]).
Proof. vm_compute. reflexivity. Qed.

Lemma rpc_correlates_witness :
  ∃ n, rpc_run id demo_events new_rpc_node = Some n ∧
    calls n !! 1 = Some (1%N, Returned (Ok shout)) ∧ Response 1 shout ∈ arrived demo_events.
Proof.
  destruct (rpc_run id demo_events new_rpc_node) as [n|] eqn:E; [|vm_compute in E; discriminate E].
  exists n. split; [reflexivity|].
  destruct (rpc_correlates id demo_events n hello new_rpc_node (SockV4 2 80) (SockV4 1 80) E) as [Hc _].
  { vm_compute in E. injection E as <-. vm_compute. reflexivity. }
  assert (calls n !! 1 = Some (1%N, Returned (Ok shout))) as H1.
  { vm_compute in E. injection E as <-. reflexivity. }
  split; [exact H1|]. destruct (Hc _ _ _ H1) as (_&_&_&Hd). apply Hd. reflexivity.
Defined.
