(* ===== verification/Noise.v ===== *)
(** * The noise codec of the examples ([examples/src/noise.rs])

    [noise::Codec] over two libraries that are parameters here: the length-delimited framing of
    [tokio_util] ([Framing]) and the noise implementation [snow] ([Snow], [SnowSpec]).  Bytes are [N].  A [None] is a panic (one of
    the [unwrap]s).  The scratch buffer of the codec has no state of its own and is left out. *)

From S2P Require Import Prelude Framing.

Open Scope nat_scope.

(** ** The libraries *)

(** [snow::HandshakeState] and [snow::StatelessTransportState]; [None] is an error. *)
Class Snow (HS TS : Type) := {
  hs_write : HS → list N → option (list N * HS);
  hs_read : HS → list N → option (list N * HS);
  into_transport : HS → option TS;
  ts_write : TS → N → list N → option (list N);
  ts_read : TS → N → list N → option (list N);
}.

(** [noise::MAX_MESSAGE_LEN], and the tag each encrypted chunk carries. *)
Definition MAX_MESSAGE_LEN : nat := N.to_nat 65535.
Definition TAG_LEN : nat := 16.

(** The nonce the noise protocol reserves: no transport message is encrypted under it. *)
Definition RESERVED_NONCE : N := (u64_max - 1)%N.

(** What the noise protocol promises of two matching parties: a transport message of a length that
    leaves room for the tag can be encrypted under any nonce below the reserved one; it decrypts under
    its nonce and has grown by the tag; [hs_turn k a b] are handshake states with [k] messages to go,
    [a] being the next to write, and a completed handshake gives matching transports. The payload
    of a handshake message may have up to [hs_room] bytes. *)
Class SnowSpec (HS TS : Type) `{Snow HS TS} := {
  ts_paired : TS → TS → Prop;
  hs_turn : nat → HS → HS → Prop;
  hs_room : nat;
  ts_write_ok a nonce bs :
    (nonce < RESERVED_NONCE)%N → length bs ≤ MAX_MESSAGE_LEN - TAG_LEN → is_Some (ts_write a nonce bs);
  ts_write_length a nonce bs ct : ts_write a nonce bs = Some ct → length ct = length bs + TAG_LEN;
  ts_read_ok a b nonce bs ct :
    ts_paired a b → ts_write a nonce bs = Some ct → ts_read b nonce ct = Some bs;
  hs_exchange k a b bs :
    hs_turn (S k) a b → length bs ≤ hs_room →
    ∃ ct a' b', hs_write a bs = Some (ct, a') ∧ length ct ≤ MAX_MESSAGE_LEN ∧
      hs_read b ct = Some (bs, b') ∧ hs_turn k b' a';
  hs_finished a b :
    hs_turn 0 a b →
    ∃ ta tb, into_transport a = Some ta ∧ into_transport b = Some tb ∧
      ts_paired ta tb ∧ ts_paired tb ta;
}.

(** ** Chunks of a byte string *)

Fixpoint chunks_fuel (fuel n : nat) (l : list N) : list (list N) :=
  match fuel, l with
  | S fuel, _ :: _ => take n l :: chunks_fuel fuel n (drop n l)
  | _, _ => []
  end.

(** [slice::chunks]; as many steps as there are bytes are enough. *)
Definition chunks (n : nat) (l : list N) : list (list N) := chunks_fuel (length l) n l.

(** ** The codec *)

Section codec.
Context {D HS TS : Type} `{LengthDelimited D} `{Snow HS TS}.

Record PostHandshakeState := mkPost {
  state : TS;
  rx_carryover : option (list N);
  rx_nonce : N;
  tx_nonce : N;
}.

Inductive State := Handshake (h : HS) | PostHandshake (ph : PostHandshakeState).

(** [State::into_post_handshake]. *)
Definition into_post_handshake (s : State) : option State :=
  match s with
  | Handshake h => t ← into_transport h; Some (PostHandshake (mkPost t None 0 0))
  | PostHandshake _ => None
  end.

(** [State::save_buffer]. *)
Definition save_buffer (s : State) (buf : list N) : option State :=
  match s with
  | Handshake _ => None
  | PostHandshake ph => Some (PostHandshake (mkPost (state ph) (Some buf) (rx_nonce ph) (tx_nonce ph)))
  end.

Record Codec := mkCodec {
  prefix_len : nat;
  max_frame_len : nat;
  ld_state : D;
  noise : State;
}.

(** [Codec::new] and [Codec::standard]. *)
Definition new_codec (prefix_len max_frame_len : nat) (s : State) : Codec :=
  mkCodec prefix_len max_frame_len ld_new s.
Definition standard (s : State) : Codec := new_codec 2 MAX_MESSAGE_LEN s.

Definition with_noise (c : Codec) (s : State) : Codec :=
  mkCodec (prefix_len c) (max_frame_len c) (ld_state c) s.
Definition with_ld (c : Codec) (d : D) : Codec :=
  mkCodec (prefix_len c) (max_frame_len c) d (noise c).
Definition with_tx (ph : PostHandshakeState) (nonce : N) : PostHandshakeState :=
  mkPost (state ph) (rx_carryover ph) (rx_nonce ph) nonce.
Definition with_rx (ph : PostHandshakeState) (nonce : N) : PostHandshakeState :=
  mkPost (state ph) (rx_carryover ph) nonce (tx_nonce ph).

(** The loop over the chunks of an outbound message: the ciphertexts in order, and the nonce. *)
Fixpoint seal (t : TS) (nonce : N) (cs : list (list N)) : option (list (list N) * N) :=
  match cs with
  | [] => Some ([], nonce)
  | c :: cs =>
      ct ← ts_write t nonce c;
      '(cts, nonce) ← seal t (wrapping_add nonce 1) cs;
      Some (ct :: cts, nonce)
  end.

(** The loop over the chunks of an inbound message; the nonce advances past those decrypted. *)
Fixpoint unseal (t : TS) (nonce : N) (cs : list (list N)) : IoResult (list N) * N :=
  match cs with
  | [] => (Ok [], nonce)
  | c :: cs =>
      match ts_read t nonce c with
      | None => (Err (mkIoError InvalidData NoPayload), nonce)
      | Some bs =>
          let '(r, nonce) := unseal t (wrapping_add nonce 1) cs in (io_map (app bs) r, nonce)
      end
  end.

(** [Encoder::encode]: the result, the codec and the output buffer; [None] if it panicked. *)
Definition noise_encode (c : Codec) (msg dst : list N) : option (IoResult () * Codec * list N) :=
  let finish c out :=
    match ld_encode (prefix_len c) (max_frame_len c) out with
    | Ok f => (Ok (), c, dst ++ f)
    | Err e => (Err e, c, dst)
    end in
  match noise c with
  | Handshake h => '(out, h) ← hs_write h msg; Some (finish (with_noise c (Handshake h)) out)
  | PostHandshake ph =>
      '(cts, nonce) ← seal (state ph) (tx_nonce ph) (chunks (MAX_MESSAGE_LEN - TAG_LEN) msg);
      Some (finish (with_noise c (PostHandshake (with_tx ph nonce))) (mjoin cts))
  end.

(** Bytes carried over from the handshake are put before the buffer, once. *)
Definition take_carryover (c : Codec) (src : list N) : Codec * list N :=
  match noise c with
  | PostHandshake ph =>
      match rx_carryover ph with
      | Some pre =>
          (with_noise c (PostHandshake (mkPost (state ph) None (rx_nonce ph) (tx_nonce ph))), pre ++ src)
      | None => (c, src)
      end
  | Handshake _ => (c, src)
  end.

(** [Decoder::decode]: the result, the codec and the rest of the buffer. *)
Definition noise_decode (c : Codec) (src : list N) : IoResult (option (list N)) * Codec * list N :=
  let '(c, src) := take_carryover c src in
  let '(r, d, src) := ld_decode (prefix_len c) (max_frame_len c) (ld_state c) src in
  let c := with_ld c d in
  match r with
  | Err e => (Err e, c, src)
  | Ok None => (Ok None, c, src)
  | Ok (Some bytes) =>
      match noise c with
      | Handshake h =>
          match hs_read h bytes with
          | None => (Err (mkIoError InvalidData NoPayload), c, src)
          | Some (msg, h) => (Ok (Some msg), with_noise c (Handshake h), src)
          end
      | PostHandshake ph =>
          let '(r, nonce) := unseal (state ph) (rx_nonce ph) (chunks MAX_MESSAGE_LEN bytes) in
          (io_map Some r, with_noise c (PostHandshake (with_rx ph nonce)), src)
      end
  end.

(** A sender encoding several messages into one buffer, as the writer task does. *)
Fixpoint encode_all (c : Codec) (msgs : list (list N)) (dst : list N) : option (IoResult () * Codec * list N) :=
  match msgs with
  | [] => Some (Ok (), c, dst)
  | m :: msgs =>
      match noise_encode c m dst with
      | Some (Ok (), c, dst) => encode_all c msgs dst
      | r => r
      end
  end.
End codec.

Arguments PostHandshakeState : clear implicits.
Arguments State : clear implicits.
Arguments Codec : clear implicits.

(** ** Lemmas on chunks *)

Lemma chunks_fuel_more fuel n l :
  0 < n → length l ≤ fuel → chunks_fuel fuel n l = chunks n l.
Proof.
  intros Hn. unfold chunks. remember (length l) as k eqn:Hk. revert fuel l Hk.
  induction k as [k IH] using lt_wf_ind. intros fuel l -> Hf.
  destruct l as [|x l]; [by destruct fuel|]. simpl in Hf. destruct fuel as [|fuel]; [lia|]. simpl.
  f_equal. assert (length (drop n (x :: l)) < length (x :: l)) by (rewrite length_drop; simpl; lia).
  rewrite (IH _ H fuel _ eq_refl) by (simpl in *; lia).
  symmetry. apply (IH _ H _ _ eq_refl). simpl in *. lia.
Qed.

Lemma chunks_cons n l : 0 < n → l ≠ [] → chunks n l = take n l :: chunks n (drop n l).
Proof.
  intros Hn Hl. destruct l as [|x l]; [done|]. unfold chunks at 1. simpl. f_equal.
  apply chunks_fuel_more; [done|]. rewrite length_drop. simpl. lia.
Qed.

Lemma chunks_join n l : 0 < n → mjoin (chunks n l) = l.
Proof.
  intros Hn. remember (length l) as k eqn:Hk. revert l Hk.
  induction k as [k IH] using lt_wf_ind. intros l ->. destruct (decide (l = [])) as [->|Hl]; [done|].
  rewrite chunks_cons by done. csimpl. rewrite (IH (length (drop n l))); [apply take_drop| |done].
  rewrite length_drop. destruct l; simpl; [done|lia].
Qed.

(** All chunks but the last have exactly [n] bytes, and none is empty. *)
Fixpoint chunked (n : nat) (cs : list (list N)) : Prop :=
  match cs with
  | [] => True
  | [c] => 0 < length c ≤ n
  | c :: cs => length c = n ∧ chunked n cs
  end.

Lemma chunked_cons n c cs : chunked n (c :: cs) ↔ (cs = [] ∧ 0 < length c ≤ n) ∨ (cs ≠ [] ∧ length c = n ∧ chunked n cs).
Proof. destruct cs; simpl; naive_solver. Qed.

Lemma chunks_chunked n l : 0 < n → chunked n (chunks n l).
Proof.
  intros Hn. remember (length l) as k eqn:Hk. revert l Hk.
  induction k as [k IH] using lt_wf_ind. intros l ->. destruct (decide (l = [])) as [->|Hl]; [done|].
  assert (0 < length l) by (destruct l; simpl; [done|lia]).
  rewrite chunks_cons by done. apply chunked_cons.
  destruct (decide (length l ≤ n)) as [Hle|Hgt].
  - left. rewrite drop_ge, length_take by done. split; [done|lia].
  - right. split_and!.
    + rewrite chunks_cons; [done..|]. intros E%(f_equal length). rewrite length_drop in E. simpl in E. lia.
    + rewrite length_take. lia.
    + apply (IH (length (drop n l))); [rewrite length_drop; lia|done].
Qed.

Lemma chunked_chunks n cs : 0 < n → chunked n cs → chunks n (mjoin cs) = cs.
Proof.
  intros Hn. induction cs as [|c cs IH]; [done|]. rewrite chunked_cons. csimpl.
  intros [[-> Hc]|(Hne&Hc&Hcs)].
  - csimpl. rewrite app_nil_r, chunks_cons, take_ge, drop_ge; [done|lia..|]. intros ->. simpl in Hc. lia.
  - rewrite chunks_cons; [|done|].
    + rewrite take_app_length', drop_app_length' by done. by rewrite IH.
    + intros E%(f_equal length). rewrite length_app in E. simpl in E. lia.
Qed.

Lemma chunked_le n cs : 0 < n → chunked n cs → Forall (λ c, length c ≤ n) cs.
Proof.
  intros Hn. induction cs as [|c cs IH]; [by constructor|]. rewrite chunked_cons.
  intros [[-> ?]|(?&?&?)]; constructor; auto; lia.
Qed.

Lemma chunks_single n l : 0 < length l ≤ n → chunks n l = [l].
Proof. intros Hl. rewrite chunks_cons, take_ge, drop_ge; [done|lia..|]. intros ->. simpl in Hl. lia. Qed.

(** ** Lemmas on the codec *)

Lemma max_message_len : MAX_MESSAGE_LEN - TAG_LEN + TAG_LEN = MAX_MESSAGE_LEN.
Proof. unfold MAX_MESSAGE_LEN, TAG_LEN. lia. Qed.
Lemma max_message_pos : 0 < MAX_MESSAGE_LEN.
Proof. unfold MAX_MESSAGE_LEN. lia. Qed.
Lemma max_message_tag : 2 * TAG_LEN < MAX_MESSAGE_LEN.
Proof. unfold MAX_MESSAGE_LEN, TAG_LEN. lia. Qed.
Lemma max_chunk_pos : 0 < MAX_MESSAGE_LEN - TAG_LEN.
Proof. unfold MAX_MESSAGE_LEN, TAG_LEN. lia. Qed.
Lemma max_message_fits : (N.of_nat MAX_MESSAGE_LEN < 256 ^ N.of_nat 2)%N.
Proof. unfold MAX_MESSAGE_LEN. rewrite N2Nat.id. done. Qed.
#[global] Opaque MAX_MESSAGE_LEN.

Section codec_lemmas.
Context {D HS TS : Type} `{LengthDelimitedSpec D} `{SnowSpec HS TS}.
Implicit Types (c : Codec D HS TS) (ph : PostHandshakeState TS).

(** The nonces left suffice for the chunks. *)
Lemma seal_ok t nonce cs :
  (nonce + N.of_nat (length cs) ≤ RESERVED_NONCE)%N →
  Forall (λ x : list N, length x ≤ MAX_MESSAGE_LEN - TAG_LEN) cs → is_Some (seal t nonce cs).
Proof.
  intros Hn Hcs. revert nonce Hn. induction Hcs as [|c cs Hc Hcs IH]; intros nonce Hn; simpl; [by eexists|].
  simpl in Hn. destruct (ts_write_ok t nonce c) as [ct ->]; [lia|done|]. simpl.
  assert (wrapping_add nonce 1 = nonce + 1)%N as E by (apply N.mod_small; unfold RESERVED_NONCE in Hn; lia).
  destruct (IH (wrapping_add nonce 1)) as [[cts n'] ->]; [rewrite E; lia|]. by eexists.
Qed.

Lemma seal_length t nonce cs cts nonce' :
  seal t nonce cs = Some (cts, nonce') → Forall2 (λ x ct : list N, length ct = length x + TAG_LEN) cs cts.
Proof.
  revert nonce cts. induction cs as [|c cs IH]; intros nonce cts E; simplify_eq/=; [constructor|].
  destruct (ts_write t nonce c) as [ct|] eqn:E1; [|done]. simpl in E.
  destruct (seal t (wrapping_add nonce 1) cs) as [[cts' n']|] eqn:E2; simplify_eq/=.
  constructor; [by eapply ts_write_length|by eapply IH].
Qed.

Lemma seal_unseal a b nonce cs cts nonce' :
  ts_paired a b → seal a nonce cs = Some (cts, nonce') → unseal b nonce cts = (Ok (mjoin cs), nonce').
Proof.
  intros Hp. revert nonce cts. induction cs as [|c cs IH]; intros nonce cts; simpl; [by intros; simplify_eq|].
  destruct (ts_write a nonce c) as [ct|] eqn:E; [|done]. simpl.
  destruct (seal a (wrapping_add nonce 1) cs) as [[cts' n']|] eqn:E'; [|done]. intros; simplify_eq/=.
  rewrite (ts_read_ok _ _ _ _ _ Hp E), (IH _ _ E'). done.
Qed.

Lemma chunked_sealed cs cts :
  chunked (MAX_MESSAGE_LEN - TAG_LEN) cs → Forall2 (λ x ct : list N, length ct = length x + TAG_LEN) cs cts →
  chunked MAX_MESSAGE_LEN cts.
Proof.
  pose proof max_message_len as Hmax. intros Hch Hf. induction Hf as [|c ct cs cts Hl Hf IH]; [done|].
  apply chunked_cons in Hch as [[-> Hc]|(Hne&Hc&Hcs)]; apply chunked_cons.
  - left. apply Forall2_nil_inv_l in Hf as ->. split; [done|lia].
  - right. split_and!; [|lia|exact (IH Hcs)]. intros ->. exact (Hne (Forall2_nil_inv_r _ _ Hf)).
Qed.

(** What the codec sends for a message, unless it panics: its sealed chunks, in one frame. *)
Lemma noise_encode_post c ph msg dst :
  noise c = PostHandshake ph → is_Some (seal (state ph) (tx_nonce ph) (chunks (MAX_MESSAGE_LEN - TAG_LEN) msg)) →
  ∃ cts nonce,
    seal (state ph) (tx_nonce ph) (chunks (MAX_MESSAGE_LEN - TAG_LEN) msg) = Some (cts, nonce) ∧
    chunked MAX_MESSAGE_LEN cts ∧
    length (mjoin cts) = length msg + TAG_LEN * length (chunks (MAX_MESSAGE_LEN - TAG_LEN) msg) ∧
    noise_encode c msg dst =
      Some (match ld_encode (prefix_len c) (max_frame_len c) (mjoin cts) with
            | Ok f => (Ok (), with_noise c (PostHandshake (with_tx ph nonce)), dst ++ f)
            | Err e => (Err e, with_noise c (PostHandshake (with_tx ph nonce)), dst)
            end).
Proof.
  intros Hn [[cts nonce] E]. pose proof max_chunk_pos as Hpos. pose proof (seal_length _ _ _ _ _ E) as Hf.
  exists cts, nonce. split_and!; [done|eapply chunked_sealed, Hf; by apply chunks_chunked| |].
  - rewrite <-(chunks_join _ msg Hpos) at 1. clear -Hf.
    induction Hf as [|x ct cs cts Hl Hf IH]; csimpl; [done|]. rewrite !length_app, IH, Hl. unfold TAG_LEN. lia.
  - unfold noise_encode. rewrite Hn, E. done.
Qed.

(** Waiting for more bytes loses none. *)
Lemma noise_decode_resume c src c' src' more :
  noise_decode c src = (Ok None, c', src') →
  noise_decode c' (src' ++ more) = noise_decode c (src ++ more).
Proof.
  unfold noise_decode. destruct (take_carryover c src) as [c1 src1] eqn:E.
  assert (take_carryover c (src ++ more) = (c1, src1 ++ more) ∧ ∀ d s, take_carryover (with_ld c1 d) s = (with_ld c1 d, s))
    as [-> Hid].
  { revert E. unfold take_carryover. destruct (noise c) as [h|ph] eqn:En; [|destruct (rx_carryover ph) eqn:Er];
      intros; simplify_eq/=; rewrite ?En, ?Er, <-?app_assoc; by split. }
  destruct (ld_decode _ _ (ld_state c1) src1) as [[r d] src2] eqn:El.
  destruct r as [[bytes|]|e]; [|intros; simplify_eq|done].
  - simpl. destruct (noise c1) as [h|ph]; [by destruct (hs_read h bytes) as [[]|]|].
    destruct (unseal _ _ _) as [[]]; done.
  - rewrite Hid. simpl. by rewrite (ld_decode_resume _ _ _ _ _ _ more El).
Qed.

(** A message of the standard framing has at most [MAX_MESSAGE_LEN - 16] bytes: while nonces are left
    for its chunks encoding does not panic; it succeeds for exactly the messages up to that length (one encrypted chunk with its tag
    fills a frame of the maximum size), and a longer one is refused with nothing added to the buffer. *)
Lemma noise_message_bound c ph msg dst :
  noise c = PostHandshake ph → prefix_len c = 2 → max_frame_len c = MAX_MESSAGE_LEN →
  (tx_nonce ph + N.of_nat (length (chunks (MAX_MESSAGE_LEN - TAG_LEN) msg)) ≤ RESERVED_NONCE)%N →
  ∃ r c' dst', noise_encode c msg dst = Some (r, c', dst') ∧
    (is_ok r = true ↔ length msg ≤ MAX_MESSAGE_LEN - TAG_LEN) ∧ (is_ok r = false → dst' = dst).
Proof.
  intros Hn Hp Hm Hnon. destruct (noise_encode_post c ph msg dst Hn) as (cts&nonce&_&_&Hl&->).
  { apply seal_ok; [done|]. apply chunked_le, chunks_chunked; apply max_chunk_pos. }
  pose proof (Nat.eq_le_incl _ _ max_message_len). pose proof max_chunk_pos.
  destruct (decide (length msg ≤ MAX_MESSAGE_LEN - TAG_LEN)) as [Hle|Hgt].
  - assert (length (mjoin cts) ≤ MAX_MESSAGE_LEN) as Hfit.
    { rewrite Hl. destruct msg as [|x msg]; [simpl; lia|]. rewrite chunks_single by (simpl in *; lia).
      simpl in *. unfold TAG_LEN in *. lia. }
    destruct (ld_encode_fits (prefix_len c) (max_frame_len c) (mjoin cts)) as [f ->]; [by rewrite Hm| |].
    { rewrite Hp. eapply N.le_lt_trans, max_message_fits. lia. }
    eexists _, _, _. split; [reflexivity|]. by split.
  - destruct (ld_encode_too_long (prefix_len c) (max_frame_len c) (mjoin cts)) as [e ->].
    { rewrite Hm, Hl. rewrite chunks_cons by (first [done|intros ->; simpl in *; lia]).
      rewrite chunks_cons; [simpl; unfold TAG_LEN in *; lia|done|].
      intros E%(f_equal length). rewrite length_drop in E. simpl in E. lia. }
    eexists _, _, _. split; [reflexivity|]. split; [|done]. simpl. split; [done|lia].
Qed.

(** The two ends of one direction of a channel, the receiver's decoder between two frames. *)
Record linked (a b : Codec D HS TS) (pa pb : PostHandshakeState TS) : Prop := {
  lk_noise_a : noise a = PostHandshake pa;
  lk_noise_b : noise b = PostHandshake pb;
  lk_paired : ts_paired (state pa) (state pb);
  lk_nonce : tx_nonce pa = rx_nonce pb;
  lk_carry : rx_carryover pb = None;
  lk_ld : ld_state b = ld_new;
  lk_prefix : prefix_len a = prefix_len b;
  lk_max : max_frame_len a = max_frame_len b;
  lk_prefix_pos : 0 < prefix_len b;
}.

Lemma linked_waits a b pa pb src d src' :
  linked a b pa pb → ld_decode (prefix_len b) (max_frame_len b) ld_new src = (Ok None, d, src') →
  noise_decode b src = (Ok None, with_ld b d, src').
Proof.
  intros [Ha Hb Hp Hn Hc Hl Hpr Hm Hpp] E. unfold noise_decode, take_carryover. by rewrite Hb, Hc, Hl, E.
Qed.

Lemma linked_encode a b pa pb msg dst a' dst' :
  linked a b pa pb → noise_encode a msg dst = Some (Ok (), a', dst') →
  ∃ f b' pa' pb', dst' = dst ++ f ∧ linked a' b' pa' pb' ∧
    (∀ rest, noise_decode b (f ++ rest) = (Ok (Some msg), b', rest)) ∧
    ∀ fs ms b'', decodes noise_decode noise b' fs ms b'' → decodes noise_decode noise b (f :: fs) (msg :: ms) b''.
Proof.
  intros L Henc. pose proof L as [Ha Hb Hp Hn Hc Hl Hpr Hm Hpp].
  destruct (noise_encode_post a pa msg dst Ha) as (cts&nonce&Hs&Hch&_&E).
  { unfold noise_encode in Henc. rewrite Ha in Henc. destruct (seal _ _ _); [by eexists|done]. }
  rewrite Henc in E.
  destruct (ld_encode _ _ _) as [f|e] eqn:Ef; simplify_eq. rewrite Hpr, Hm in Ef.
  exists f, (with_noise b (PostHandshake (with_rx pb nonce))), (with_tx pa nonce), (with_rx pb nonce).
  assert (Hdec : ∀ rest, noise_decode b (f ++ rest) =
    (Ok (Some msg), with_noise b (PostHandshake (with_rx pb nonce)), rest)).
  { intros rest. unfold noise_decode, take_carryover. rewrite Hb, Hc, Hl, (ld_decode_frame _ _ _ _ rest Ef).
    simpl. rewrite Hb, chunked_chunks, <-Hn, (seal_unseal _ _ _ _ _ _ Hp Hs), chunks_join; [|apply max_chunk_pos|apply max_message_pos|done].
    unfold with_noise, with_ld. simpl. by rewrite Hl. }
  split_and!; [done|by split|done|]. intros fs ms b'' Hd. eapply decodes_cons; [done| |done].
  intros src more -> Hne. destruct (ld_decode_partial _ _ _ _ _ Hpp Ef Hne) as (d&src'&Ed).
  eexists _, _. split; [by eapply linked_waits|done].
Qed.

Lemma linked_encode_all a b pa pb msgs dst a' dst' :
  linked a b pa pb → encode_all a msgs dst = Some (Ok (), a', dst') →
  ∃ fs b' pa' pb', dst' = dst ++ mjoin fs ∧ linked a' b' pa' pb' ∧ decodes noise_decode noise b fs msgs b'.
Proof.
  revert a b pa pb dst. induction msgs as [|m msgs IH]; intros a b pa pb dst L; simpl; intros E.
  - simplify_eq. exists [], b, pa, pb. csimpl. rewrite app_nil_r. split_and!; [done..|]. constructor.
    destruct (ld_decode_empty (prefix_len b) (max_frame_len b) (lk_prefix_pos _ _ _ _ L)) as [d Ed].
    eexists _, _. split; [by eapply linked_waits|done].
  - destruct (noise_encode a m dst) as [[[[[]|e] a1] dst1]|] eqn:E1; simplify_eq.
    destruct (linked_encode _ _ _ _ _ _ _ _ L E1) as (f&b1&pa1&pb1&->&L1&_&Hd).
    destruct (IH _ _ _ _ _ L1 E) as (fs&b'&pa'&pb'&->&L'&Hds).
    exists (f :: fs), b', pa', pb'. csimpl. rewrite <-app_assoc. auto.
Qed.

End codec_lemmas.


(** ** Instances that satisfy the laws *)

(** A stand-in for [snow]: the tag repeats the nonce, and handshake messages are sent as they are. *)
#[export] Instance demo_snow : Snow nat unit := {
  hs_write k bs := if k <? 3 then Some (bs, S k) else None;
  hs_read k ct := if k <? 3 then Some (ct, S k) else None;
  into_transport k := if k =? 3 then Some tt else None;
  ts_write _ nonce bs :=
    if (nonce <? RESERVED_NONCE)%N && (length bs <=? MAX_MESSAGE_LEN - TAG_LEN) then Some (bs ++ replicate TAG_LEN (nonce mod 256)%N) else None;
  ts_read _ nonce ct :=
    if bool_decide (drop (length ct - TAG_LEN) ct = replicate TAG_LEN (nonce mod 256)%N)
    then Some (take (length ct - TAG_LEN) ct) else None;
}.

#[export] Instance demo_snow_spec : SnowSpec nat unit.
Proof.
  refine (Build_SnowSpec nat unit _ (λ _ _, True) (λ k a b, a = b ∧ a + k = 3) MAX_MESSAGE_LEN _ _ _ _ _).
  - intros [] nonce bs Hn%N.ltb_lt Hl%Nat.leb_le. cbn [ts_write demo_snow]. rewrite Hn, Hl. by eexists.
  - intros [] nonce bs ct. cbn [ts_write demo_snow]. destruct (_ && _); [|done]. intros; simplify_eq.
    by rewrite length_app, length_replicate.
  - intros [] [] nonce bs ct _. cbn [ts_write ts_read demo_snow]. destruct (_ && _); [|done]. intros; simplify_eq.
    rewrite length_app, length_replicate, Nat.add_sub, drop_app_length, take_app_length.
    by rewrite bool_decide_eq_true_2.
  - intros k a b bs [-> Hk] Hl. simpl. destruct (Nat.ltb_spec b 3); [|lia].
    exists bs, (S b), (S b). split_and!; try done. lia.
  - intros a b [-> Hk]. simpl. rewrite Nat.add_0_r in Hk. subst. by exists tt, tt.
Defined.

(** ** Theorems *)

Section theorems.
Context {D HS TS : Type} `{LengthDelimitedSpec D} `{SnowSpec HS TS}.

(** C33. An encrypted stream delivers its messages: whatever messages a codec has encoded, and however
    their bytes are split into reads (the first of them possibly carried over from the handshake),
    the codec at the other end returns exactly these messages in order, without an error, and its
    receive nonce is again the sender's transmit nonce; messages of several chunks included. *)
Theorem noise_stream_delivered (a b : Codec D HS TS) pa pb carry msgs a' wire reads :
  linked a b pa pb → encode_all a msgs [] = Some (Ok (), a', wire) →
  default [] carry ++ mjoin reads = wire → reads ≠ [] →
  ∃ b' src pa' pb',
    receive noise_decode (S (length msgs))
      (with_noise b (PostHandshake (mkPost (state pb) carry (rx_nonce pb) (tx_nonce pb)))) [] reads =
      Some (msgs, None, b', src) ∧
    noise a' = PostHandshake pa' ∧ noise b' = PostHandshake pb' ∧ rx_nonce pb' = tx_nonce pa'.
Proof.
  intros L E Hw Hne. destruct (linked_encode_all _ _ _ _ _ _ _ _ L E) as (fs&b2&pa'&pb'&->&L'&Hd).
  pose proof L as [_ Hb _ _ Hc _ _ _ _].
  destruct (receive_frames noise_decode noise noise_decode_resume reads b fs msgs b2 (S (length msgs))
    (with_noise b (PostHandshake (mkPost (state pb) carry (rx_nonce pb) (tx_nonce pb)))) [] (default [] carry))
    as (c'&src&Er&Hn); [done| |done|lia|done|].
  - intros more. simpl. unfold noise_decode, take_carryover. rewrite Hb, Hc. simpl.
    destruct b as [p m d st], pb as [t cr rx tx]; simpl in *; subst. by destruct carry.
  - exists c', src, pa', pb'. destruct L' as [Ha' Hb' _ Hnn _ _ _ _ _]. rewrite Hn. by split_and!.
Qed.

End theorems.

(** ** Witnesses *)

Definition demo_codec (tx : N) : Codec (option nat) nat unit :=
  new_codec 2 1000 (PostHandshake (mkPost tt None 0 tx)).
Definition demo_messages : list (list N) := [[104; 105]; []; [33]]%N.
Definition demo_wire : list N :=
  ([0; 18; 104; 105] ++ replicate 16 0 ++ [0; 0] ++ [0; 17; 33] ++ replicate 16 1)%N.

Lemma demo_encoded : encode_all (demo_codec 0) demo_messages [] = Some (Ok (), demo_codec 2, demo_wire).
Proof. vm_compute. reflexivity. Qed.

Lemma noise_stream_delivered_witness :
  ∃ b' src,
    receive noise_decode 4 (new_codec 2 1000 (PostHandshake (mkPost tt (Some (take 3 demo_wire)) 0 0))) []
      [take 4 (drop 3 demo_wire); drop 7 demo_wire] = Some (demo_messages, None, b', src).
Proof.
  destruct (noise_stream_delivered (demo_codec 0) (demo_codec 0) (mkPost tt None 0 0) (mkPost tt None 0 0)
    (Some (take 3 demo_wire)) demo_messages (demo_codec 2) demo_wire [take 4 (drop 3 demo_wire); drop 7 demo_wire])
    as (b'&src&_&_&Hr&_); [by split; try done; simpl; lia|exact demo_encoded|reflexivity|done|].
  exists b', src. exact Hr.
Defined.
