(* ===== verification/Handshake.v ===== *)
(** * The noise XX handshake of the examples ([examples/src/noise.rs], [handshake_xx])

    The two sides of [handshake_xx] as step functions over their [Framed] (the codec of [Noise.v] and
    a read buffer), and the pair of them with the bytes under way in both directions.  A step is a
    send, or one poll for the next message. *)

From S2P Require Import Prelude Connections Framing Noise.

Open Scope nat_scope.

(** ** The XX handshake *)

Section handshake.
Context {D HS TS : Type} `{LengthDelimited D} `{Snow HS TS}.

(** Where [handshake_xx] is: the initiator's three messages, the responder's three messages, the
    end with its result, or a panic. *)
Inductive XxPc :=
| InitSend1
| InitRecv2
| InitSend3 (secure : list N)
| RespRecv1
| RespSend2
| RespRecv3
| XxDone (r : IoResult (State HS TS * list N))
| XxPanicked.

(** The [Framed] of one party: the codec and the read buffer. *)
Record Xx := mkXx { xx_pc : XxPc; xx_codec : Codec D HS TS; xx_read : list N }.

Definition xx_start (side : ConnectionSide) (h : HS) : Xx :=
  mkXx (match side with Initiator => InitSend1 | Responder => RespRecv1 end) (standard (Handshake h)) [].

(** The end: the noise state leaves the handshake; what the [Framed] has read beyond it is dropped
    with the [FramedParts]. *)
Definition xx_finish (c : Codec D HS TS) (secure : list N) : XxPc :=
  match into_post_handshake (noise c) with
  | Some st => XxDone (Ok (st, secure))
  | None => XxPanicked
  end.

(** [framed.send(msg).await?], giving the bytes for the stream. *)
Definition xx_send (x : Xx) (msg : list N) (k : Codec D HS TS → XxPc) : Xx * list N :=
  match noise_encode (xx_codec x) msg [] with
  | None => (mkXx XxPanicked (xx_codec x) (xx_read x), [])
  | Some (Err e, c, _) => (mkXx (XxDone (Err e)) c (xx_read x), [])
  | Some (Ok (), c, out) => (mkXx (k c) c (xx_read x), out)
  end.

(** A poll of [framed.try_next()]: it stays where it is while the message is incomplete. *)
Definition xx_recv (x : Xx) (k : Codec D HS TS → list N → XxPc) : Xx * list N :=
  match noise_decode (xx_codec x) (xx_read x) with
  | (Ok (Some m), c, src) => (mkXx (k c m) c src, [])
  | (Ok None, c, src) => (mkXx (xx_pc x) c src, [])
  | (Err e, c, src) => (mkXx (XxDone (Err e)) c src, [])
  end.

(** One step of [handshake_xx] with the party's own payload; [None] once it has ended. *)
Definition xx_step (payload : list N) (x : Xx) : option (Xx * list N) :=
  match xx_pc x with
  | InitSend1 => Some (xx_send x [] (λ _, InitRecv2))
  | InitRecv2 => Some (xx_recv x (λ _, InitSend3))
  | InitSend3 secure => Some (xx_send x payload (λ c, xx_finish c secure))
  | RespRecv1 => Some (xx_recv x (λ _ _, RespSend2))
  | RespSend2 => Some (xx_send x payload (λ _, RespRecv3))
  | RespRecv3 => Some (xx_recv x xx_finish)
  | XxDone _ | XxPanicked => None
  end.

(** The stream ends ([try_next] gives [None]): an empty message is taken for granted, unless an
    incomplete one is left in the buffer. *)
Definition xx_eof (x : Xx) : option Xx :=
  let k pc := match noise_decode (xx_codec x) (xx_read x) with
    | (Ok (Some m), c, src) => None
    | (Ok None, c, src) =>
        Some (if bool_decide (src = []) then mkXx (pc c) c src
              else mkXx (XxDone (Err (mkIoError OtherKind (Message "bytes remaining on stream")))) c src)
    | (Err e, c, src) => Some (mkXx (XxDone (Err e)) c src)
    end in
  match xx_pc x with
  | InitRecv2 => k (λ _, InitSend3 [])
  | RespRecv1 => k (λ _, RespSend2)
  | RespRecv3 => k (λ c, xx_finish c [])
  | _ => None
  end.

(** Two parties and the bytes under way between them; TCP may deliver any part of them at a time. *)
Record Duplex := mkDuplex { dx_init : Xx; dx_resp : Xx; to_resp : list N; to_init : list N }.

Inductive DxLabel := StepInit | StepResp | DeliverInit (k : nat) | DeliverResp (k : nat).

Definition deliver (x : Xx) (bs : list N) : Xx := mkXx (xx_pc x) (xx_codec x) (xx_read x ++ bs).

Definition dx_step (pi pr : list N) (d : Duplex) (l : DxLabel) : option Duplex :=
  match l with
  | StepInit => '(x, out) ← xx_step pi (dx_init d); Some (mkDuplex x (dx_resp d) (to_resp d ++ out) (to_init d))
  | StepResp => '(x, out) ← xx_step pr (dx_resp d); Some (mkDuplex (dx_init d) x (to_resp d) (to_init d ++ out))
  | DeliverInit k => Some (mkDuplex (deliver (dx_init d) (take k (to_init d))) (dx_resp d) (to_resp d) (drop k (to_init d)))
  | DeliverResp k => Some (mkDuplex (dx_init d) (deliver (dx_resp d) (take k (to_resp d))) (drop k (to_resp d)) (to_init d))
  end.

Definition dx_start (hi hr : HS) : Duplex := mkDuplex (xx_start Initiator hi) (xx_start Responder hr) [] [].

Fixpoint dx_run (pi pr : list N) (d : Duplex) (ls : list DxLabel) : option Duplex :=
  match ls with
  | [] => Some d
  | l :: ls => d ← dx_step pi pr d l; dx_run pi pr d ls
  end.
End handshake.

Arguments XxPc : clear implicits.
Arguments Xx : clear implicits.
Arguments Duplex : clear implicits.

Section handshake_lemmas.
Context {D HS TS : Type} `{LengthDelimitedSpec D} `{SnowSpec HS TS}.
Implicit Types (x : Xx D HS TS) (d : Duplex D HS TS).

(** A party with handshake state [h] that has not received anything of the next message. *)
Definition listening x (h : HS) : Prop := behaves noise_decode (xx_codec x) (xx_read x) (standard (Handshake h)) [].

(** A party with handshake state [h] to whom a frame is under way, [tl] being the part that is still
    in flight; decoding it gives [m] and the state [h']. *)
Definition expecting x (h : HS) (tl m : list N) (h' : HS) : Prop :=
  ∃ ct f w, behaves noise_decode (xx_codec x) (xx_read x) (standard (Handshake h)) w ∧ w ++ tl = f ∧
    ld_encode 2 MAX_MESSAGE_LEN ct = Ok f ∧ hs_read h ct = Some (m, h').

Lemma handshake_send (h : HS) m ct h' :
  hs_write h m = Some (ct, h') → length ct ≤ MAX_MESSAGE_LEN →
  ∃ f, ld_encode 2 MAX_MESSAGE_LEN ct = Ok f ∧
    noise_encode (standard (D := D) (Handshake h)) m [] = Some (Ok (), standard (Handshake h'), f).
Proof.
  intros E Hl. destruct (ld_encode_fits 2 MAX_MESSAGE_LEN ct Hl) as [f Ef].
  { eapply N.le_lt_trans, max_message_fits. lia. }
  exists f. split; [done|]. unfold noise_encode. simpl. rewrite E. simpl. by rewrite Ef.
Qed.

Lemma listening_poll x h k : listening x h → ∃ x', xx_recv x k = (x', []) ∧ xx_pc x' = xx_pc x ∧ listening x' h.
Proof.
  intros Hl. destruct (ld_decode_empty (D := D) 2 MAX_MESSAGE_LEN ltac:(lia)) as [d E].
  assert (noise_decode (standard (Handshake h)) [] = (Ok None, with_ld (standard (Handshake h)) d, [])) as E'.
  { unfold noise_decode. simpl. by rewrite E. }
  destruct (behaves_wait noise_decode noise_decode_resume _ _ _ _ _ _ Hl E') as [Ex Hb]. unfold xx_recv. rewrite Ex. eauto.
Qed.

(** A poll of an expecting party: it stays, or everything has arrived and the message is there. *)
Lemma expecting_poll x h tl m h' k :
  expecting x h tl m h' →
  tl ≠ [] ∧ (∃ x', xx_recv x k = (x', []) ∧ xx_pc x' = xx_pc x ∧ expecting x' h tl m h') ∨
  tl = [] ∧ xx_recv x k = (mkXx (k (standard (Handshake h')) m) (standard (Handshake h')) [], []).
Proof.
  intros (ct&f&w&Hb&Hw&Ef&Er). destruct tl as [|b tl].
  - right. split; [done|]. rewrite app_nil_r in Hw. subst w. unfold xx_recv.
    pose proof (Hb []) as E. rewrite app_nil_r in E. rewrite E.
    unfold noise_decode. simpl. rewrite (ld_decode_frame _ _ _ _ [] Ef). simpl. by rewrite Er.
  - left. split; [done|]. rewrite <-Hw in Ef.
    destruct (ld_decode_partial (D := D) 2 MAX_MESSAGE_LEN ct w (b :: tl) ltac:(lia) Ef ltac:(done)) as (d&src&E).
    assert (noise_decode (standard (Handshake h)) w = (Ok None, with_ld (standard (Handshake h)) d, src)) as E'.
    { unfold noise_decode. simpl. by rewrite E. }
    destruct (behaves_wait noise_decode noise_decode_resume _ _ _ _ _ _ Hb E') as [Ex Hb']. unfold xx_recv. rewrite Ex.
    eexists. split_and!; [done..|]. exists ct, f, w. rewrite Hw in Ef. eauto.
Qed.

Lemma deliver_expecting x h tl m h' k :
  expecting x h tl m h' → expecting (deliver x (take k tl)) h (drop k tl) m h'.
Proof.
  intros (ct&f&w&Hb&Hw&Ef&Er). exists ct, f, (w ++ take k tl). split_and!; try done.
  - intros more. unfold deliver. simpl. rewrite <-!app_assoc. apply Hb.
  - by rewrite <-app_assoc, take_drop.
Qed.

Lemma deliver_nil x k : deliver x (take k []) = x.
Proof. destruct x. unfold deliver. simpl. by rewrite take_nil, app_nil_r. Qed.

(** The phases of a handshake between two parties with matching states and payloads [pi], [pr]. *)
Inductive DxInv (pi pr : list N) : Duplex D HS TS → Prop :=
| dx_0 hi hr r :
    xx_pc r = RespRecv1 → listening r hr → hs_turn 3 hi hr →
    DxInv pi pr (mkDuplex (mkXx InitSend1 (standard (Handshake hi)) []) r [] [])
| dx_1 hi hr hr' i r tl :
    xx_pc i = InitRecv2 → listening i hi → xx_pc r = RespRecv1 → expecting r hr tl [] hr' →
    hs_turn 2 hr' hi → DxInv pi pr (mkDuplex i r tl [])
| dx_2 hi hr i :
    xx_pc i = InitRecv2 → listening i hi → hs_turn 2 hr hi →
    DxInv pi pr (mkDuplex i (mkXx RespSend2 (standard (Handshake hr)) []) [] [])
| dx_3 hi hi' hr i r tl :
    xx_pc i = InitRecv2 → expecting i hi tl pr hi' → xx_pc r = RespRecv3 → listening r hr →
    hs_turn 1 hi' hr → DxInv pi pr (mkDuplex i r [] tl)
| dx_4 hi hr r :
    xx_pc r = RespRecv3 → listening r hr → hs_turn 1 hi hr →
    DxInv pi pr (mkDuplex (mkXx (InitSend3 pr) (standard (Handshake hi)) []) r [] [])
| dx_5 hr hr' ti tr i r tl :
    xx_pc i = XxDone (Ok (PostHandshake (mkPost ti None 0 0), pr)) →
    xx_pc r = RespRecv3 → expecting r hr tl pi hr' → into_transport hr' = Some tr →
    ts_paired ti tr → ts_paired tr ti → DxInv pi pr (mkDuplex i r tl [])
| dx_6 ti tr i r :
    xx_pc i = XxDone (Ok (PostHandshake (mkPost ti None 0 0), pr)) →
    xx_pc r = XxDone (Ok (PostHandshake (mkPost tr None 0 0), pi)) →
    ts_paired ti tr → ts_paired tr ti → DxInv pi pr (mkDuplex i r [] []).

Section parties.
Context (pi pr : list N) (Hpi : length pi ≤ hs_room) (Hpr : length pr ≤ hs_room).

Lemma dx_deliver d l d' :
  DxInv pi pr d → dx_step pi pr d l = Some d' →
  match l with DeliverInit _ | DeliverResp _ => DxInv pi pr d' | _ => True end.
Proof.
  intros Hd Hs. destruct l as [| |k|k]; [done..| |]; simpl in Hs; simplify_eq;
    destruct Hd; simpl; rewrite ?deliver_nil, ?drop_nil; try (by econstructor).
  - eapply dx_3; try done. by apply deliver_expecting.
  - eapply dx_1; try done. by apply deliver_expecting.
  - eapply dx_5; try done. by apply deliver_expecting.
Qed.

Lemma dx_step_init d d' : DxInv pi pr d → dx_step pi pr d StepInit = Some d' → DxInv pi pr d'.
Proof.
  intros Hd Hs. destruct Hd as [hi hr r Hr Hl Ht|hi hr hr' i r tl Hi Hli Hr He Ht|hi hr i Hi Hli Ht
    |hi hi' hr i r tl Hi He Hr Hl Ht|hi hr r Hr Hl Ht|hr hr' ti tr i r tl Hi Hr He Hin P1 P2|ti tr i r Hi Hr P1 P2];
    unfold dx_step, xx_step in Hs; simpl in Hs; try rewrite Hi in Hs; simplify_eq/=.
  - destruct (hs_exchange _ _ _ [] Ht ltac:(simpl; lia)) as (ct&a'&b'&Hw&Hlen&Hrd&Ht').
    destruct (handshake_send _ _ _ _ Hw Hlen) as (f&Ef&E). unfold xx_send in Hs. simpl in Hs. rewrite E in Hs.
    simplify_eq/=. eapply dx_1; [done|apply behaves_refl|done| |done]. exists ct, f, []. by rewrite Ef.
  - destruct (listening_poll i hi (λ _, InitSend3) Hli) as (x'&E&Hpc&Hl'). rewrite E in Hs. simplify_eq/=.
    rewrite app_nil_r. eapply dx_1; try done. by rewrite Hpc.
  - destruct (listening_poll i hi (λ _, InitSend3) Hli) as (x'&E&Hpc&Hl'). rewrite E in Hs. simplify_eq/=.
    eapply dx_2; try done. by rewrite Hpc.
  - destruct (expecting_poll i _ _ _ _ (λ _, InitSend3) He) as [(_&x'&E&Hpc&He')|[-> E]]; rewrite E in Hs; simplify_eq/=.
    + eapply dx_3; try done. by rewrite Hpc.
    + by eapply dx_4.
  - destruct (hs_exchange _ _ _ pi Ht Hpi) as (ct&a'&b'&Hw&Hlen&Hrd&Ht').
    destruct (hs_finished _ _ Ht') as (tr&ti&Hb&Ha&P1&P2).
    destruct (handshake_send _ _ _ _ Hw Hlen) as (f&Ef&E). unfold xx_send in Hs. simpl in Hs. rewrite E in Hs.
    unfold xx_finish in Hs. simpl in Hs. rewrite Ha in Hs. simplify_eq/=.
    eapply (dx_5 pi pr hr b' ti tr); try done. exists ct, f, []. rewrite Ef. by split_and!; [apply Hl|..].
Qed.

Lemma dx_step_resp d d' : DxInv pi pr d → dx_step pi pr d StepResp = Some d' → DxInv pi pr d'.
Proof.
  intros Hd Hs. destruct Hd as [hi hr r Hr Hl Ht|hi hr hr' i r tl Hi Hli Hr He Ht|hi hr i Hi Hli Ht
    |hi hi' hr i r tl Hi He Hr Hl Ht|hi hr r Hr Hl Ht|hr hr' ti tr i r tl Hi Hr He Hin P1 P2|ti tr i r Hi Hr P1 P2];
    unfold dx_step, xx_step in Hs; simpl in Hs; try rewrite Hr in Hs; simplify_eq/=.
  - destruct (listening_poll r hr (λ _ _, RespSend2) Hl) as (x'&E&Hpc&Hl'). rewrite E in Hs. simplify_eq/=.
    eapply dx_0; try done. by rewrite Hpc.
  - destruct (expecting_poll r _ _ _ _ (λ _ _, RespSend2) He) as [(_&x'&E&Hpc&He')|[-> E]]; rewrite E in Hs; simplify_eq/=.
    + eapply dx_1; try done. by rewrite Hpc.
    + by eapply dx_2.
  - destruct (hs_exchange _ _ _ pr Ht Hpr) as (ct&a'&b'&Hw&Hlen&Hrd&Ht').
    destruct (handshake_send _ _ _ _ Hw Hlen) as (f&Ef&E). unfold xx_send in Hs. simpl in Hs. rewrite E in Hs.
    simplify_eq/=. eapply dx_3; [done| |done|apply behaves_refl|done]. exists ct, f, []. by rewrite Ef.
  - destruct (listening_poll r hr xx_finish Hl) as (x'&E&Hpc&Hl'). rewrite E in Hs. simplify_eq/=.
    rewrite app_nil_r. eapply dx_3; try done. by rewrite Hpc.
  - destruct (listening_poll r hr xx_finish Hl) as (x'&E&Hpc&Hl'). rewrite E in Hs. simplify_eq/=.
    eapply dx_4; try done. by rewrite Hpc.
  - destruct (expecting_poll r _ _ _ _ xx_finish He) as [(_&x'&E&Hpc&He')|[-> E]]; rewrite E in Hs; simplify_eq/=.
    + eapply dx_5; try done. by rewrite Hpc.
    + eapply dx_6; [done| |done..]. simpl. unfold xx_finish. simpl. by rewrite Hin.
Qed.

Lemma dx_run_inv ls d d' : DxInv pi pr d → dx_run pi pr d ls = Some d' → DxInv pi pr d'.
Proof.
  revert d. induction ls as [|l ls IH]; intros d Hd; simpl; [by intros; simplify_eq|].
  destruct (dx_step pi pr d l) as [d1|] eqn:E; [|done]. simpl. intros Hr. eapply IH, Hr.
  destruct l; [by eapply dx_step_init|by eapply dx_step_resp|exact (dx_deliver _ _ _ Hd E)..].
Qed.

(** The handshake has run to its end, with matching transport states. *)
Definition dx_ends d : Prop :=
  ∃ ls d' ti tr, dx_run pi pr d ls = Some d' ∧
    xx_pc (dx_init d') = XxDone (Ok (PostHandshake (mkPost ti None 0 0), pr)) ∧
    xx_pc (dx_resp d') = XxDone (Ok (PostHandshake (mkPost tr None 0 0), pi)) ∧
    ts_paired ti tr ∧ ts_paired tr ti.

Lemma dx_ends_step d l d1 : dx_step pi pr d l = Some d1 → dx_ends d1 → dx_ends d.
Proof. intros E (ls&d'&ti&tr&Hr&Hrest). exists (l :: ls), d', ti, tr. simpl. by rewrite E. Qed.

(** The number of phases to go. *)
Definition dx_left d : nat :=
  match xx_pc (dx_init d), xx_pc (dx_resp d) with
  | InitSend1, _ => 6
  | InitRecv2, RespRecv1 => 5
  | InitRecv2, RespSend2 => 4
  | InitRecv2, _ => 3
  | InitSend3 _, _ => 2
  | _, RespRecv3 => 1
  | _, _ => 0
  end.

(** The next phase is one delivery and one step away. *)
Lemma dx_advance d :
  DxInv pi pr d → dx_left d ≠ 0 →
  ∃ l1 l2 d1 d2, dx_step pi pr d l1 = Some d1 ∧ dx_step pi pr d1 l2 = Some d2 ∧ dx_left d2 < dx_left d.
Proof.
  intros Hd Hl. destruct Hd as [hi hr r Hr Hl' Ht|hi hr hr' i r tl Hi Hli Hr He Ht|hi hr i Hi Hli Ht
    |hi hi' hr i r tl Hi He Hr Hl' Ht|hi hr r Hr Hl' Ht|hr hr' ti tr i r tl Hi Hr He Hin P1 P2|ti tr i r Hi Hr P1 P2].
  - destruct (hs_exchange _ _ _ [] Ht ltac:(simpl; lia)) as (ct&a'&b'&Hw&Hlen&_&_).
    destruct (handshake_send _ _ _ _ Hw Hlen) as (f&_&E). exists (DeliverInit 0), StepInit. eexists _, _.
    split; [done|]. unfold dx_step, xx_step, xx_send. simpl. rewrite E. split; [done|]. unfold dx_left. simpl.
    rewrite Hr. lia.
  - exists (DeliverResp (length tl)), StepResp. apply (deliver_expecting _ _ _ _ _ (length tl)) in He.
    rewrite firstn_all, drop_all in He.
    destruct (expecting_poll _ _ _ _ _ (λ _ _, RespSend2) He) as [[]|[_ E]]; [done|]. eexists _, _.
    split; [done|]. unfold dx_step, xx_step. simpl. rewrite Hr, firstn_all. simpl in E |- *. rewrite E. split; [done|].
    unfold dx_left. simpl. rewrite Hi, Hr. lia.
  - destruct (hs_exchange _ _ _ pr Ht Hpr) as (ct&a'&b'&Hw&Hlen&_&_).
    destruct (handshake_send _ _ _ _ Hw Hlen) as (f&_&E). exists (DeliverInit 0), StepResp. eexists _, _.
    split; [done|]. unfold dx_step, xx_step, xx_send. simpl. rewrite E. split; [done|]. unfold dx_left. simpl.
    rewrite Hi. lia.
  - exists (DeliverInit (length tl)), StepInit. apply (deliver_expecting _ _ _ _ _ (length tl)) in He.
    rewrite firstn_all, drop_all in He.
    destruct (expecting_poll _ _ _ _ _ (λ _, InitSend3) He) as [[]|[_ E]]; [done|]. eexists _, _.
    split; [done|]. unfold dx_step, xx_step. simpl. rewrite Hi, firstn_all. simpl in E |- *. rewrite E. split; [done|].
    unfold dx_left. simpl. rewrite Hi, Hr. lia.
  - destruct (hs_exchange _ _ _ pi Ht Hpi) as (ct&a'&b'&Hw&Hlen&_&Ht').
    destruct (hs_finished _ _ Ht') as (tr&ti&Hb&Ha&P1&P2).
    destruct (handshake_send _ _ _ _ Hw Hlen) as (f&_&E). exists (DeliverInit 0), StepInit. eexists _, _.
    split; [done|]. unfold dx_step, xx_step, xx_send, xx_finish. simpl. rewrite E. simpl. rewrite Ha.
    split; [done|]. unfold dx_left. simpl. rewrite Hr. lia.
  - exists (DeliverResp (length tl)), StepResp. apply (deliver_expecting _ _ _ _ _ (length tl)) in He.
    rewrite firstn_all, drop_all in He.
    destruct (expecting_poll _ _ _ _ _ xx_finish He) as [[]|[_ E]]; [done|]. eexists _, _.
    split; [done|]. unfold dx_step, xx_step. simpl. rewrite Hr, firstn_all. simpl in E |- *. rewrite E. split; [done|].
    unfold dx_left. simpl. unfold xx_finish. simpl. rewrite Hi, Hr, Hin. simpl. lia.
  - unfold dx_left in Hl. simpl in Hl. by rewrite Hi, Hr in Hl.
Qed.

Lemma dx_completes d : DxInv pi pr d → dx_ends d.
Proof.
  remember (dx_left d) as n eqn:Hn. revert d Hn. induction n as [n IH] using lt_wf_ind. intros d -> Hd.
  destruct (decide (dx_left d = 0)) as [Hz|Hnz].
  - destruct Hd; unfold dx_left in Hz; simpl in Hz;
      repeat match goal with E : xx_pc _ = _ |- _ => rewrite E in Hz end; try done.
    exists [], (mkDuplex i r [] []), ti, tr. done.
  - destruct (dx_advance d Hd Hnz) as (l1&l2&d1&d2&E1&E2&Hlt).
    eapply dx_ends_step, dx_ends_step; [done..|]. eapply IH; [exact Hlt|done|].
    eapply (dx_run_inv [l1; l2]); [exact Hd|]. cbn [dx_run mbind option_bind]. rewrite E1. cbn [mbind option_bind]. by rewrite E2.
Qed.
End parties.
End handshake_lemmas.

(** ** The theorem *)

Section theorems.
Context {D HS TS : Type} `{LengthDelimitedSpec D} `{SnowSpec HS TS}.

(** C34. The XX handshake comes to an agreement: with matching [snow] states and payloads that fit
    their messages, whatever the interleaving of the two parties and however TCP splits their
    messages, neither party fails or panics; a party that has ended holds the other's payload and a
    transport state with fresh nonces and nothing carried over; and from every point the handshake
    can run to its end, where the two transport states match in both directions. *)
Theorem xx_handshake_agrees (hi hr : HS) pi pr ls (d : Duplex D HS TS) :
  hs_turn 3 hi hr → length pi ≤ hs_room → length pr ≤ hs_room →
  dx_run pi pr (dx_start hi hr) ls = Some d →
  (∀ pc, pc = xx_pc (dx_init d) ∨ pc = xx_pc (dx_resp d) → pc ≠ XxPanicked ∧ ∀ e, pc ≠ XxDone (Err e)) ∧
  (∀ r, xx_pc (dx_init d) = XxDone r → ∃ t, r = Ok (PostHandshake (mkPost t None 0 0), pr)) ∧
  (∀ r, xx_pc (dx_resp d) = XxDone r → ∃ t, r = Ok (PostHandshake (mkPost t None 0 0), pi)) ∧
  ∃ ls' d' ti tr, dx_run pi pr d ls' = Some d' ∧
    xx_pc (dx_init d') = XxDone (Ok (PostHandshake (mkPost ti None 0 0), pr)) ∧
    xx_pc (dx_resp d') = XxDone (Ok (PostHandshake (mkPost tr None 0 0), pi)) ∧
    ts_paired ti tr ∧ ts_paired tr ti.
Proof.
  intros Ht Hpi Hpr Hrun. assert (DxInv pi pr d) as Hd.
  { eapply dx_run_inv; [done..| |exact Hrun]. eapply dx_0; [done|apply behaves_refl|done]. }
  split_and!.
  - intros pc [-> | ->]; destruct Hd; simpl; split; congruence.
  - intros r E. destruct Hd; simpl in *; try congruence; rewrite E in *; simplify_eq; eauto.
  - intros r E. destruct Hd; simpl in *; try congruence; rewrite E in *; simplify_eq; eauto.
  - by apply dx_completes.
Qed.
End theorems.

Lemma xx_handshake_agrees_witness :
  ∃ ls d', dx_run [1%N] [2%N] (dx_start 0 0 : Duplex (option nat) nat unit) ls = Some d' ∧
    xx_pc (dx_init d') = XxDone (Ok (PostHandshake (mkPost tt None 0 0), [2%N])).
Proof.
  destruct (xx_handshake_agrees 0 0 [1%N] [2%N] [] (dx_start 0 0 : Duplex (option nat) nat unit))
    as (_&_&_&ls&d'&[]&tr&Hr&Hi&_); [done|simpl; apply max_message_pos..|done|].
  by exists ls, d'.
Defined.

(** The handshake drops what it has read beyond its last message: bytes that arrive together with
    the third message stay in the read buffer of the [Framed], and the noise state it returns has
    nothing carried over, so a message the initiator sent right after the handshake is lost to the
    responder. *)
Theorem xx_discards_surplus :
  let surplus := [0; 17; 33]%N ++ replicate 16 0%N in
  option_map (λ d,
      (xx_pc (dx_init d),
       option_map (λ '(x, _), (xx_pc x, xx_read x)) (xx_step [2%N] (deliver (dx_resp d) (to_resp d ++ surplus)))))
    (dx_run [1%N] [2%N] (dx_start 0 0 : Duplex (option nat) nat unit)
       [StepInit; DeliverResp 2; StepResp; StepResp; DeliverInit 3; StepInit; StepInit]) =
  Some (XxDone (Ok (PostHandshake (mkPost tt None 0 0), [2%N])),
        Some (XxDone (Ok (PostHandshake (mkPost tt None 0 0), [1%N])), surplus)).
Proof. vm_compute. reflexivity. Qed.
