(* ===== verification/Libp2p.v ===== *)
(** * The libp2p node of the examples ([examples/examples/libp2p.rs])

    Its codec, yamux frames over the noise codec, and its stream bookkeeping: the streams of each
    peer, what [process_message] makes of a frame, and the replies of [process_event]. *)

From S2P Require Import Prelude Net Text Yamux Framing Noise.
From Stdlib Require Import Ascii.
From Stdlib Require String.

Open Scope nat_scope.

(** ** The codec *)

Section codec.
Context {D HS TS : Type} `{LengthDelimited D} `{Snow HS TS}.

(** The loop of [encode]: chunks of at most [MAX_MESSAGE_LEN] bytes, each a noise message. As many
    rounds as there are bytes are enough; [None] is a panic. *)
Fixpoint encode_chunks (fuel : nat) (c : Codec D HS TS) (bytes dst : list N)
  : option (IoResult () * Codec D HS TS * list N) :=
  match bytes with
  | [] => Some (Ok (), c, dst)
  | _ =>
      match fuel with
      | 0 => None
      | S fuel =>
          let k := length bytes `min` MAX_MESSAGE_LEN in
          match noise_encode c (take k bytes) dst with
          | Some (Ok (), c, dst) => encode_chunks fuel c (drop k bytes) dst
          | r => r
          end
      end
  end.

Definition lp_encode (c : Codec D HS TS) (f : Frame) (dst : list N)
  : option (IoResult () * Codec D HS TS * list N) :=
  let plaintext := encode f in encode_chunks (length plaintext) c plaintext dst.

Definition lp_decode (c : Codec D HS TS) (src : list N)
  : option (IoResult (option Frame) * Codec D HS TS * list N) :=
  match noise_decode c src with
  | (Err e, c, src) => Some (Err e, c, src)
  | (Ok None, c, src) => Some (Ok None, c, src)
  | (Ok (Some bytes), c, src) => '(r, _) ← decode bytes; Some (io_map Some r, c, src)
  end.
End codec.

(** ** Streams *)

Definition PROTOCOL_PING : list N :=
  [19%N] ++ bytes_of "/multistream/1.0.0" ++ [10%N; 17%N] ++ bytes_of "/ipfs/ping/1.0.0" ++ [10%N].

(** [PeerState]: the bytes of the [PeerId], and the protocol of each stream; and [peer_states]. *)
Record PeerState := mkPeerState { peer_id : list N; streams : gmap N (list N) }.
Abbreviation Peers := (gmap SocketAddr PeerState).

Definition with_streams (st : PeerState) (m : gmap N (list N)) : PeerState := mkPeerState (peer_id st) m.

Inductive Event :=
| NewStream (stream : N) (protocol_info : list N)
| StreamHalfClosed (stream : N)
| StreamTerminated (stream : N)
| ReceivedPing (stream : N) (data : list N)
| SessionPing (opaque : N)
| Unknown (f : Frame).

(** [process_event]: the reply it hands to [unicast_fast]. *)
Definition process_event (e : Event) : option Frame :=
  match e with
  | NewStream sid protocol_info => Some (frame_data sid [Ack] (Some protocol_info))
  | StreamHalfClosed sid => Some (frame_data sid [Fin] None)
  | ReceivedPing sid data => Some (frame_data sid [] (Some data))
  | SessionPing opaque => Some (frame_ping [Ack] opaque)
  | StreamTerminated _ | Unknown _ => None
  end.

(** [streams.insert] and [streams.remove] through [get_streams_mut!]: the old value, if the peer is
    known and had one. *)
Definition insert_stream (ps : Peers) (source : SocketAddr) (sid : N) (p : list N) : option (list N) * Peers :=
  match ps !! source with
  | Some st => (streams st !! sid, <[source := with_streams st (<[sid := p]> (streams st))]> ps)
  | None => (None, ps)
  end.

Definition remove_stream (ps : Peers) (source : SocketAddr) (sid : N) : option (list N) * Peers :=
  match ps !! source with
  | Some st => (streams st !! sid, <[source := with_streams st (delete sid (streams st))]> ps)
  | None => (None, ps)
  end.

(** [process_message]: the peers' streams after it, and the event it found, if any. *)
Definition process_message (ps : Peers) (source : SocketAddr) (f : Frame) : Peers * option Event :=
  let h := header f in
  let sid := stream_id h in
  if bool_decide (ty h = Ping)
  then (ps, if bool_decide (Syn ∈ flags h) then Some (SessionPing (length_field h)) else None)
  else
    match flags h with
    | [Syn] =>
        let '(old, ps) := insert_stream ps source sid (payload f) in
        (ps, match old with None => Some (NewStream sid (payload f)) | Some _ => None end)
    | [Rst] =>
        let '(old, ps) := remove_stream ps source sid in
        (ps, match old with Some _ => Some (StreamTerminated sid) | None => None end)
    | [Fin] =>
        let '(old, ps) := remove_stream ps source sid in
        (ps, match old with Some _ => Some (StreamHalfClosed sid) | None => None end)
    | [] =>
        let protocol := default [] (st ← ps !! source; streams st !! sid) in
        (ps, Some (if bool_decide (protocol = PROTOCOL_PING) then ReceivedPing sid (payload f) else Unknown f))
    | _ => (ps, None)
    end.

Definition lp_on_disconnect (ps : Peers) (addr : SocketAddr) : Peers := delete addr ps.

(** The frames of all peers, in the order in which they are processed: the events found. *)
Fixpoint process_all (ps : Peers) (msgs : list (SocketAddr * Frame)) : Peers * list (SocketAddr * Event) :=
  match msgs with
  | [] => (ps, [])
  | (source, f) :: msgs =>
      let '(ps, e) := process_message ps source f in
      let '(ps, es) := process_all ps msgs in
      (ps, match e with Some e => (source, e) :: es | None => es end)
  end.

(** ** The codec round trip *)

Section codec_proofs.
Context {D HS TS : Type} `{LengthDelimitedSpec D} `{SnowSpec HS TS}.
Implicit Types (c : Codec D HS TS).

(** A frame that fits one noise message is one call of the noise codec. *)
Lemma lp_encode_one c f dst c' dst' :
  length (encode f) ≤ MAX_MESSAGE_LEN →
  noise_encode c (encode f) dst = Some (Ok (), c', dst') → lp_encode c f dst = Some (Ok (), c', dst').
Proof.
  intros Hl He. unfold lp_encode. assert (∃ x l, encode f = x :: l) as (x&l&E) by (unfold encode; eauto).
  rewrite E in *. cbn [length encode_chunks]. rewrite Nat.min_l by exact Hl.
  change (S (length l)) with (length (x :: l)). rewrite take_ge, drop_ge by done. rewrite He. by destruct (length l).
Qed.

(** A longer one fails with its first chunk. *)
Lemma lp_encode_long c f dst e c' :
  noise_encode c (take (length (encode f) `min` MAX_MESSAGE_LEN) (encode f)) dst = Some (Err e, c', dst) →
  lp_encode c f dst = Some (Err e, c', dst).
Proof.
  intros He. unfold lp_encode. assert (∃ x l, encode f = x :: l) as (x&l&E) by (unfold encode; eauto).
  rewrite E in *. cbn [length encode_chunks] in *. by rewrite He.
Qed.

(** The nonces a chunk of a frame takes: one if it fits a noise message with its tag, and two if it
    does not. *)
Lemma chunk_nonces l :
  0 < length l ≤ MAX_MESSAGE_LEN →
  length (chunks (MAX_MESSAGE_LEN - TAG_LEN) l) = if decide (length l ≤ MAX_MESSAGE_LEN - TAG_LEN) then 1 else 2.
Proof.
  pose proof max_message_len. pose proof max_message_tag. intros Hl. case_decide.
  { rewrite chunks_single by lia. reflexivity. }
  assert (l ≠ []) by (intros ->; simpl in Hl; lia).
  rewrite chunks_cons; [|apply max_chunk_pos|assumption]. cbn [length]. f_equal.
  rewrite chunks_single; [reflexivity|]. rewrite length_drop. unfold TAG_LEN in *. lia.
Qed.

(** C35. The libp2p codec carries exactly the frames of up to [MAX_MESSAGE_LEN - 16] bytes. Between two
    ends whose noise states match, while the sender has nonces left (two below the reserved one are
    enough), a well-formed yamux frame of at most that size is encoded after what the buffer already
    holds, and the other end decodes from those bytes, whatever follows them, a frame with the same
    header, after which the two ends match again. The payload it decodes is that of the frame if it is a
    data frame; a decoded ping carries the four bytes of the opaque value in its length field, and the
    other frames, which consist of a header only, have an empty one. A larger frame is always refused and
    leaves the buffer as it was: the split into chunks of [MAX_MESSAGE_LEN] does not leave room for the
    tag. *)
Theorem libp2p_frames_delivered (a b : Codec D HS TS) pa pb f dst :
  linked a b pa pb → prefix_len b = 2 → max_frame_len b = MAX_MESSAGE_LEN → frame_wf f →
  (tx_nonce pa + 2 ≤ RESERVED_NONCE)%N →
  (length (encode f) ≤ MAX_MESSAGE_LEN - TAG_LEN →
     ∃ a' b' pa' pb' wire g, lp_encode a f dst = Some (Ok (), a', dst ++ wire) ∧ linked a' b' pa' pb' ∧
       (∀ rest, lp_decode b (wire ++ rest) = Some (Ok (Some g), b', rest)) ∧
       header g = header f ∧
       match ty (header f) with
       | Data => payload g = payload f
       | Ping => payload g = be32 (length_field (header f))
       | WindowUpdate | GoAway => payload g = []
       end) ∧
  (MAX_MESSAGE_LEN - TAG_LEN < length (encode f) → ∃ e a', lp_encode a f dst = Some (Err e, a', dst)).
Proof.
  intros L Hp Hm Hwf Hnon. pose proof L as [Ha Hb _ _ _ _ Epr Emx _]. rewrite <-Epr in Hp. rewrite <-Emx in Hm.
  assert (0 < length (encode f)) as Hpos by (unfold encode; simpl; lia).
  pose proof max_message_len as Hmax. split; intros Hlen.
  - destruct (noise_message_bound a pa (encode f) dst Ha Hp Hm) as ([[]|e]&a'&dst'&E&Hok&_);
      [rewrite chunk_nonces, decide_True by lia; lia| |by destruct Hok as [_ Hok]; specialize (Hok Hlen)].
    destruct (linked_encode _ _ _ _ _ _ _ _ L E) as (w&b'&pa'&pb'&->&L'&Hdec&_).
    exists a', b', pa', pb', w, (mkFrame (header f) (decoded_payload f)).
    split; [apply lp_encode_one; [lia|done]|]. split; [done|]. split.
    + intros rest. unfold lp_decode. by rewrite Hdec, (decode_encode f Hwf).
    + split; [done|]. unfold decoded_payload. simpl. by destruct (ty (header f)).
  - set (k := length (encode f) `min` MAX_MESSAGE_LEN). pose proof max_message_tag.
    assert (MAX_MESSAGE_LEN - TAG_LEN < length (take k (encode f)) ≤ MAX_MESSAGE_LEN) as Hk
      by (rewrite length_take; unfold TAG_LEN in *; lia).
    destruct (noise_message_bound a pa (take k (encode f)) dst Ha Hp Hm) as ([[]|e]&a'&dst'&E&[Hok _]&Hd);
      [rewrite chunk_nonces, decide_False by lia; lia|specialize (Hok eq_refl); lia|].
    specialize (Hd eq_refl) as ->. exists e, a'. by apply lp_encode_long.
Qed.
End codec_proofs.

(** ** Streams: what a peer's frames amount to *)

(** The protocol of a stream after one more frame: a [Syn] opens it, a [Fin] or [Rst] ends it. *)
Definition replay (source : SocketAddr) (sid : N) (p : option (list N)) (m : SocketAddr * Frame) : option (list N) :=
  let '(src, f) := m in
  if bool_decide (src = source ∧ ty (header f) ≠ Ping ∧ stream_id (header f) = sid)
  then match flags (header f) with
       | [Syn] => Some (payload f)
       | [Fin] | [Rst] => None
       | _ => p
       end
  else p.

(** The protocol of a registered stream. *)
Definition stream_at (ps : Peers) (source : SocketAddr) (sid : N) : option (list N) :=
  st ← ps !! source; streams st !! sid.

Definition opens (source : SocketAddr) (sid : N) (e : SocketAddr * Event) : bool :=
  match e with (src, NewStream i _) => bool_decide (src = source ∧ i = sid) | _ => false end.
Definition closes (source : SocketAddr) (sid : N) (e : SocketAddr * Event) : bool :=
  match e with
  | (src, StreamHalfClosed i) | (src, StreamTerminated i) => bool_decide (src = source ∧ i = sid)
  | _ => false
  end.

Definition event_list (source : SocketAddr) (e : option Event) : list (SocketAddr * Event) :=
  match e with Some e => [(source, e)] | None => [] end.

Lemma stream_at_insert ps src st source sid :
  stream_at (<[src := st]> ps) source sid =
    if bool_decide (src = source) then streams st !! sid else stream_at ps source sid.
Proof.
  unfold stream_at. case_bool_decide as E; [subst|].
  - by rewrite lookup_insert_eq.
  - by rewrite lookup_insert_ne.
Qed.

Definition open_count (p : option (list N)) : nat := b2n (bool_decide (is_Some p)).

(** A message that leaves the streams alone, or is about another stream. *)
Lemma stream_kept ps src f source sid e :
  (∀ p, replay source sid p (src, f) = p) →
  countb (opens source sid) (event_list src e) = 0 → countb (closes source sid) (event_list src e) = 0 →
  stream_at ps source sid = replay source sid (stream_at ps source sid) (src, f) ∧
  open_count (stream_at ps source sid) + countb (opens source sid) (event_list src e) =
    countb (closes source sid) (event_list src e) + open_count (stream_at ps source sid).
Proof. intros Hr Ho Hc. split; [by rewrite Hr|]. rewrite Ho, Hc. lia. Qed.

Lemma replay_other source sid p src f :
  ¬ (src = source ∧ stream_id (header f) = sid) → replay source sid p (src, f) = p.
Proof. intros H. unfold replay. rewrite bool_decide_eq_false_2; [done|]. naive_solver. Qed.

Lemma replay_this source f p :
  ty (header f) ≠ Ping →
  replay source (stream_id (header f)) p (source, f) =
    match flags (header f) with [Syn] => Some (payload f) | [Fin] | [Rst] => None | _ => p end.
Proof. intros H. unfold replay. by rewrite bool_decide_eq_true_2. Qed.

(** Changing one stream of one peer. *)
Lemma stream_at_other ps src st st' source sid sid' :
  ps !! src = Some st → (∀ j, j ≠ sid' → streams st' !! j = streams st !! j) → ¬ (src = source ∧ sid' = sid) →
  is_Some (ps !! source) →
  is_Some (<[src := st']> ps !! source) ∧ stream_at (<[src := st']> ps) source sid = stream_at ps source sid.
Proof.
  intros Hp Hs Hne Hsome. split.
  - destruct (decide (src = source)) as [->|]; [rewrite lookup_insert_eq; by eexists|by rewrite lookup_insert_ne].
  - rewrite stream_at_insert. case_bool_decide; [|done]. subst.
    unfold stream_at. rewrite Hp. simpl. apply Hs. naive_solver.
Qed.

(** One message: the stream's new state is what the frame says, and the events balance it. *)
Lemma process_message_stream ps src f ps' e source sid :
  process_message ps src f = (ps', e) → is_Some (ps !! source) →
  is_Some (ps' !! source) ∧
  stream_at ps' source sid = replay source sid (stream_at ps source sid) (src, f) ∧
  open_count (stream_at ps source sid) + countb (opens source sid) (event_list src e) =
    countb (closes source sid) (event_list src e) + open_count (stream_at ps' source sid).
Proof.
  intros H Hs. unfold process_message in H. destruct (decide (ty (header f) = Ping)) as [Hty|Hty].
  { rewrite bool_decide_eq_true_2 in H by done. simplify_eq. split; [done|]. apply stream_kept; [|by case_bool_decide..].
    intros p. unfold replay. rewrite bool_decide_eq_false_2; [done|]. naive_solver. }
  rewrite bool_decide_eq_false_2 in H by done.
  destruct (decide (src = source ∧ stream_id (header f) = sid)) as [[-> <-]|Hother].
  - destruct Hs as [st Hst]. rewrite replay_this by done. unfold insert_stream, remove_stream in H. rewrite Hst in H.
    assert (stream_at ps source (stream_id (header f)) = streams st !! stream_id (header f)) as Hat
      by (unfold stream_at; by rewrite Hst).
    destruct (flags (header f)) as [|[] [|? ?]]; simplify_eq; rewrite ?lookup_insert_eq, ?Hst;
      (split; [by eexists|]);
      rewrite ?stream_at_insert, ?bool_decide_eq_true_2 by done; cbn [streams with_streams];
      rewrite ?lookup_insert_eq, ?lookup_delete_eq;
      rewrite ?Hat; (split; [done|]); try lia;
      try (case_bool_decide; simpl; lia);
      destruct (streams st !! stream_id (header f)); unfold open_count; simpl;
      rewrite ?bool_decide_eq_true_2 by done; simpl; lia.
  - assert (is_Some (ps' !! source) ∧ stream_at ps' source sid = stream_at ps source sid) as [? ->].
    { unfold insert_stream, remove_stream in H. destruct (ps !! src) as [st|] eqn:Hst;
        destruct (flags (header f)) as [|[] [|? ?]]; simplify_eq; try done;
        eapply stream_at_other; try done; intros j Hj; cbn [streams with_streams]; by rewrite ?lookup_insert_ne, ?lookup_delete_ne by done. }
    split; [done|]. apply stream_kept; [intros p; by apply replay_other|..].
    all: destruct (insert_stream ps src (stream_id (header f)) (payload f)) as [o1 p1],
           (remove_stream ps src (stream_id (header f))) as [o2 p2].
    all: destruct (flags (header f)) as [|[] [|? ?]]; simplify_eq; try done; try (by case_bool_decide);
         destruct o1, o2; simpl; by rewrite ?(bool_decide_eq_false_2 _ Hother).
Qed.

(** The stream table of the libp2p node is the peers' own doing. For a registered peer, whatever
    frames it and the other peers have sent, a stream is registered with protocol [p] exactly if the
    last frame of that peer for it that opened or ended it was a [Syn] with payload [p] (so no peer
    affects the streams of another); and the streams answered with an [Ack] are those that have since
    been half-closed or terminated, plus one if the stream is open. *)
Theorem libp2p_streams ps msgs ps' es source pid sid :
  process_all ps msgs = (ps', es) → ps !! source = Some (mkPeerState pid ∅) →
  stream_at ps' source sid = foldl (replay source sid) None msgs ∧
  countb (opens source sid) es = countb (closes source sid) es + open_count (stream_at ps' source sid).
Proof.
  intros H Hp. assert (is_Some (ps !! source)) as Hs by (by eexists).
  assert (stream_at ps source sid = None) as E by (unfold stream_at; rewrite Hp; apply lookup_empty).
  change None with (None : option (list N)). rewrite <-E.
  cut (stream_at ps' source sid = foldl (replay source sid) (stream_at ps source sid) msgs ∧
    open_count (stream_at ps source sid) + countb (opens source sid) es =
      countb (closes source sid) es + open_count (stream_at ps' source sid)); [rewrite E; simpl; tauto|].
  clear Hp E. revert ps es H Hs. induction msgs as [|[src f] msgs IH]; intros ps es H Hs; cbn [process_all foldl] in *.
  { simplify_eq. split; [done|]. simpl. lia. }
  destruct (process_message ps src f) as [ps1 e] eqn:E1. destruct (process_all ps1 msgs) as [ps2 es1] eqn:E2. simplify_eq.
  destruct (process_message_stream _ _ _ _ _ source sid E1 Hs) as (Hs1&Hr&Hc).
  destruct (IH ps1 es1 E2 Hs1) as [Ha Hb]. rewrite Hr in Ha. split; [done|]. destruct e; simpl in *; lia.
Qed.

(** ** Examples *)

Definition demo_noise : Codec (option nat) nat unit := standard (PostHandshake (mkPost tt None 0 0)).
Definition demo_syn : Frame := frame_data 1 [Syn] (Some PROTOCOL_PING).

Lemma libp2p_frames_delivered_witness :
  ∃ a' b' wire g, lp_encode demo_noise demo_syn [] = Some (Ok (), a', wire) ∧
    lp_decode demo_noise (wire ++ [1%N]) = Some (Ok (Some g), b', [1%N]) ∧ payload g = PROTOCOL_PING.
Proof.
  destruct (libp2p_frames_delivered demo_noise demo_noise (mkPost tt None 0 0) (mkPost tt None 0 0) demo_syn [])
    as [Hs _].
  - split; try reflexivity; [exact I || (simpl; lia)].
  - reflexivity.
  - reflexivity.
  - split; vm_compute; reflexivity.
  - vm_compute. discriminate.
  - destruct Hs as (a'&b'&pa'&pb'&wire&g&He&_&Hd&_&Hg); [apply Nat.leb_le; vm_compute; reflexivity|].
    exists a', b', wire, g. split; [exact He|]. split; [apply Hd|exact Hg].
Defined.

Definition demo_peer_a : SocketAddr := SockV4 (ipv4 10 0 0 1) 4001.
Definition demo_peer_b : SocketAddr := SockV4 (ipv4 10 0 0 2) 4001.

(** A ping stream is opened, used, opened again with another protocol (which is reported as an error,
    but replaces the protocol), and half-closed; meanwhile another peer opens its own. *)
Definition demo_frames : list (SocketAddr * Frame) :=
  [(demo_peer_a, demo_syn); (demo_peer_b, demo_syn); (demo_peer_a, frame_data 1 [] (Some [7%N]));
   (demo_peer_a, frame_data 1 [Syn] (Some [9%N])); (demo_peer_a, frame_data 1 [] (Some [7%N]));
   (demo_peer_a, frame_data 1 [Fin] None)].

Definition demo_peers : Peers :=
  <[demo_peer_a := mkPeerState [1%N] ∅]> (<[demo_peer_b := mkPeerState [2%N] ∅]> ∅).

Lemma libp2p_streams_witness :
  let '(ps, es) := process_all demo_peers demo_frames in
  stream_at ps demo_peer_b 1 = Some PROTOCOL_PING ∧
  countb (opens demo_peer_b 1) es = countb (closes demo_peer_b 1) es + open_count (stream_at ps demo_peer_b 1).
Proof.
  destruct (process_all demo_peers demo_frames) as [ps es] eqn:E.
  exact (libp2p_streams _ demo_frames ps es demo_peer_b [2%N] 1 E eq_refl).
Defined.
