(* ===== verification/HandOver.v ===== *)
(** * The end of the libp2p handshake ([examples/examples/libp2p.rs], [perform_handshake])

    What [perform_handshake] leaves behind for the two codecs of a connection: the noise state, kept
    until [Reading::codec] and [Writing::codec] pick it up. *)

From S2P Require Import Prelude Net Framing Noise Libp2p.

Open Scope nat_scope.

Section hand_over.
Context {D HS TS : Type} `{LengthDelimited D} `{Snow HS TS}.

(** The end of [perform_handshake]: the state is kept with the bytes read beyond the handshake, and
    the peer is registered without streams. *)
Definition finish_handshake (states : gmap SocketAddr (State HS TS)) (peers : Peers) (addr : SocketAddr)
    (id : list N) (s : State HS TS) (read_buf : list N) : option (gmap SocketAddr (State HS TS) * Peers) :=
  s ← save_buffer s read_buf; Some (<[addr := s]> states, <[addr := mkPeerState id ∅]> peers).

(** [Reading::codec] clones the state, [Writing::codec] removes it. *)
Definition reading_codec (states : gmap SocketAddr (State HS TS)) (addr : SocketAddr) : option (Codec D HS TS) :=
  standard <$> states !! addr.
Definition writing_codec (states : gmap SocketAddr (State HS TS)) (addr : SocketAddr)
  : option (Codec D HS TS * gmap SocketAddr (State HS TS)) :=
  s ← states !! addr; Some (standard s, delete addr states).
End hand_over.

(** The codecs of a connection get the state of its handshake, and nothing is left behind. *)
Lemma codec_hand_over {D HS TS} `{LengthDelimited D} `{Snow HS TS} (states : gmap SocketAddr (State HS TS))
    peers addr id ph read_buf :
  ∃ states', finish_handshake states peers addr id (PostHandshake ph) read_buf = Some (states', <[addr := mkPeerState id ∅]> peers) ∧
  ∃ c, reading_codec (D := D) states' addr = Some c ∧
    writing_codec (D := D) states' addr = Some (c, delete addr states) ∧
    take_carryover c [] = (standard (PostHandshake (mkPost (state ph) None (rx_nonce ph) (tx_nonce ph))), read_buf).
Proof.
  eexists. split; [reflexivity|]. unfold reading_codec, writing_codec. rewrite lookup_insert_eq. cbn.
  eexists. split; [reflexivity|]. rewrite delete_insert_eq. split; [done|]. unfold take_carryover. simpl.
  by rewrite app_nil_r.
Qed.
