(* ===== verification/Kademlia.v ===== *)
(** * The Kademlia DHT of the examples ([examples/examples/kademlia_dht.rs])

    One [DhtNode] as a transition system.  Its shared state is [Dht]; a lookup ([iterative_find_node],
    [find_value]) or a [store] in progress is a task with a program counter at its await points, so
    any number of them interleave with each other, with the hooks and with [process_message].  The
    code between two awaits is one step.  A oneshot channel is an entry of [chans]; the map of
    pending RPCs holds the indices of the sending halves.  What the node below does (whether an
    address is connected, whether a dial or [unicast_fast] succeeds) is a choice of the step.

    The text form of a [SocketAddr] is a parameter ([AddrText]); the results hold for any. *)

From S2P Require Import Prelude Net Text.
From stdpp Require Import sorting.

Open Scope N_scope.

(** [K], the replication factor. *)
Definition K : nat := 4.

Record Contact := mkContact { c_id : N; c_addr : SocketAddr }.

#[global] Instance Contact_eq_dec : EqDecision Contact.
Proof. solve_decision. Defined.

Inductive FindValueOutcome :=
| Found (value : list N)
| Contacts (contacts : list (N * string)).

Inductive KademliaMessage :=
| FindNode (rpc_id sender_id target : N)
| FindNodeResult (rpc_id : N) (contacts : list (N * string))
| Store (rpc_id key : N) (value : list N)
| StoreResult (rpc_id : N)
| FindValue (rpc_id key : N)
| FindValueResult (rpc_id : N) (result : FindValueOutcome).

Definition rpc_id (m : KademliaMessage) : N :=
  match m with
  | FindNode r _ _ | FindNodeResult r _ | Store r _ _ | StoreResult r
  | FindValue r _ | FindValueResult r _ => r
  end.

Inductive KademliaRequest :=
| ReqFindNode (sender_id target : N)
| ReqStore (key : N) (value : list N)
| ReqFindValue (key : N).

Definition into_message (q : KademliaRequest) (r : N) : KademliaMessage :=
  match q with
  | ReqFindNode sender_id target => FindNode r sender_id target
  | ReqStore key value => Store r key value
  | ReqFindValue key => FindValue r key
  end.

(** The shared state of a [DhtNode]. *)
Record Dht := mkDht {
  dht_id : N;
  peer_info : gmap SocketAddr (N * SocketAddr);
  routing_table : list Contact;
  storage : gmap N (list N);
  next_rpc_id : N;
  pending_rpcs : gmap N nat;
}.

Definition new_dht (i : N) : Dht := mkDht i ∅ [] ∅ 0 ∅.

Definition with_table (d : Dht) (t : list Contact) : Dht :=
  mkDht (dht_id d) (peer_info d) t (storage d) (next_rpc_id d) (pending_rpcs d).
Definition with_peers (d : Dht) (p : gmap SocketAddr (N * SocketAddr)) : Dht :=
  mkDht (dht_id d) p (routing_table d) (storage d) (next_rpc_id d) (pending_rpcs d).
Definition with_storage (d : Dht) (m : gmap N (list N)) : Dht :=
  mkDht (dht_id d) (peer_info d) (routing_table d) m (next_rpc_id d) (pending_rpcs d).
Definition with_rpcs (d : Dht) (n : N) (p : gmap N nat) : Dht :=
  mkDht (dht_id d) (peer_info d) (routing_table d) (storage d) n p.

(** ** The routing table *)

Definition distance (a b : N) : N := N.lxor a b.

Definition closer (target : N) (a b : Contact) : Prop :=
  distance (c_id a) target ≤ distance (c_id b) target.
#[global] Instance closer_dec target a b : Decision (closer target a b).
Proof. unfold closer. apply _. Defined.

(** [sort_by_key(|c| distance(c.id, target))], a stable sort. *)
Definition sort_by_distance (target : N) (l : list Contact) : list Contact :=
  merge_sort (closer target) l.

Definition closest_contacts (d : Dht) (target : N) (k : nat) : list Contact :=
  take k (sort_by_distance target (routing_table d)).

(** [iter().any(|c| c.id == id)]. *)
Definition knows (l : list Contact) (i : N) : bool := existsb (λ c, c_id c =? i) l.

Definition add_contact (d : Dht) (i : N) (addr : SocketAddr) : Dht :=
  if i =? dht_id d then d
  else if knows (routing_table d) i then d
  else with_table d (routing_table d ++ [mkContact i addr]).

Section dht.
Context `{AddrText}.

(** [absorb_contacts]: the shared table and the caller's shortlist. *)
Definition absorb_one (ds : Dht * list Contact) (p : N * string) : Dht * list Contact :=
  let '(d, shortlist) := ds in
  let '(i, addr_str) := p in
  if i =? dht_id d then (d, shortlist)
  else match addr_parse addr_str with
       | None => (d, shortlist)
       | Some addr =>
           (add_contact d i addr,
            if knows shortlist i then shortlist else shortlist ++ [mkContact i addr])
       end.

Definition absorb_contacts (d : Dht) (contacts : list (N * string)) (shortlist : list Contact)
  : Dht * list Contact := fold_left absorb_one contacts (d, shortlist).

Definition describe (c : Contact) : N * string := (c_id c, addr_to_string (c_addr c)).

(** ** Handshake and hooks *)

(** The ten bytes [perform_handshake] sends: the id and the listening port. *)
Definition introduction (i my_port : N) : list N := to_be_bytes 8 i ++ to_be_bytes 2 my_port.

(** The end of [perform_handshake], once the peer's ten bytes have been read. *)
Definition record_peer (d : Dht) (conn_addr : SocketAddr) (buf : list N) : Dht :=
  let peer_id := from_be_bytes (take 8 buf) in
  let peer_port := from_be_bytes (drop 8 buf) in
  with_peers d (<[conn_addr := (peer_id, socket_addr (ip conn_addr) peer_port)]> (peer_info d)).

(** [on_connect], and the end of [ensure_connected] after a dial. *)
Definition on_connect (d : Dht) (addr : SocketAddr) : Dht :=
  match peer_info d !! addr with
  | Some (peer_id, peer_listening_addr) => add_contact d peer_id peer_listening_addr
  | None => d
  end.

Definition on_disconnect (d : Dht) (addr : SocketAddr) : Dht :=
  match peer_info d !! addr with
  | Some (peer_id, _) =>
      with_table (with_peers d (delete addr (peer_info d)))
        (filter (λ c, c_id c ≠ peer_id) (routing_table d))
  | None => d
  end.

(** ** Messages and RPCs *)

(** A oneshot channel as its receiver sees it: nothing sent yet, a value, or the sender dropped; and
    [Closed] once the receiver is gone. *)
Inductive Chan := Waiting | Ready (m : KademliaMessage) | SenderDropped | Closed.

(** Dropping a sender closes a channel that still waits for its value. *)
Definition drop_sender (c : Chan) : Chan := match c with Waiting => SenderDropped | _ => c end.

(** [oneshot::Sender::send]; it fails, and the result is ignored, once the receiver is gone. *)
Definition oneshot_send (m : KademliaMessage) (c : Chan) : Chan :=
  match c with Waiting => Ready m | _ => c end.

(** [pending_rpcs.remove(&r)], with the sender in it dropped. *)
Definition reclaim (d : Dht) (chans : list Chan) (r : N) : Dht * list Chan :=
  match pending_rpcs d !! r with
  | Some ch => (with_rpcs d (next_rpc_id d) (delete r (pending_rpcs d)), alter drop_sender ch chans)
  | None => (d, chans)
  end.

(** The start of [rpc], up to the call of [unicast_fast]: the id and the channel are new. Inserting
    over a pending RPC of the same id (after [2^64] calls) drops that one's sender. *)
Definition rpc_begin (d : Dht) (chans : list Chan) : N * nat * Dht * list Chan :=
  let r := next_rpc_id d in
  let ch := length chans in
  let chans' := match pending_rpcs d !! r with
                | Some old => alter drop_sender old chans
                | None => chans
                end in
  (r, ch, with_rpcs d (wrapping_add r 1) (<[r := ch]> (pending_rpcs d)), chans' ++ [Waiting]).

(** [process_message]: the new state, and the reply handed to [unicast_fast]. *)
Definition process_message (d : Dht) (chans : list Chan) (source : SocketAddr) (m : KademliaMessage)
  : Dht * list Chan * option KademliaMessage :=
  match m with
  | FindNode r sender_id target =>
      let sender_addr := match peer_info d !! source with Some (_, addr) => addr | None => source end in
      let d := add_contact d sender_id sender_addr in
      (d, chans, Some (FindNodeResult r (describe <$> closest_contacts d target K)))
  | Store r key value =>
      (with_storage d (<[key := value]> (storage d)), chans, Some (StoreResult r))
  | FindValue r key =>
      let result := match storage d !! key with
                    | Some v => Found v
                    | None => Contacts (describe <$> closest_contacts d key K)
                    end in
      (d, chans, Some (FindValueResult r result))
  | response =>
      let r := rpc_id response in
      match pending_rpcs d !! r with
      | Some ch =>
          (with_rpcs d (next_rpc_id d) (delete r (pending_rpcs d)),
           alter (oneshot_send response) ch chans, None)
      | None => (d, chans, None)
      end
  end.

(** ** Lookups *)

Inductive Goal :=
| IterativeFindNode (target : N)
| DhtFindValue (key : N)
| DhtStore (key : N) (value : list N).

Inductive Outcome :=
| Nodes (contacts : list Contact)
| Value (value : option (list N))
| Stored.

(** The await points: at the head of the loop of a lookup, in [ensure_connected], before the RPC and
    in it; the same for the loop of [store]; returned. *)
Inductive Pc :=
| Pick (shortlist : list Contact) (queried : gset N)
| Ensure (contact : Contact) (shortlist : list Contact) (queried : gset N)
| Call (contact : Contact) (shortlist : list Contact) (queried : gset N)
| Await (r : N) (ch : nat) (shortlist : list Contact) (queried : gset N)
| StoreEnsure (contacts : list Contact)
| StoreCall (contact : Contact) (contacts : list Contact)
| StoreAwait (r : N) (ch : nat) (contacts : list Contact)
| Return (o : Outcome).

Record Task := mkTask { goal : Goal; pc : Pc }.

Record Sys := mkSys {
  dht : Dht;
  chans : list Chan;
  tasks : list Task;
  outbox : list (SocketAddr * KademliaMessage);
}.

Definition boot (i : N) : Sys := mkSys (new_dht i) [] [] [].

(** The id a lookup is about. *)
Definition goal_key (g : Goal) : N :=
  match g with IterativeFindNode t => t | DhtFindValue k => k | DhtStore k _ => k end.

Definition lookup_request (g : Goal) (self : N) : KademliaRequest :=
  match g with
  | DhtFindValue key => ReqFindValue key
  | g => ReqFindNode self (goal_key g)
  end.

Definition unqueried (queried : gset N) (l : list Contact) : option Contact :=
  find (λ c, negb (bool_decide (c_id c ∈ queried))) l.

(** What the world answers to a step of a task. *)
Inductive Choice :=
| Go
| Connected
| Dialed (ok : bool)
| SendFails
| Elapsed.

(** After the loop of a lookup: [iterative_find_node] sorts and truncates, [find_value] gives up,
    [store] goes on with the contacts found. *)
Definition lookup_over (g : Goal) (shortlist : list Contact) : Pc :=
  let nodes := take K (sort_by_distance (goal_key g) shortlist) in
  match g with
  | IterativeFindNode _ => Return (Nodes nodes)
  | DhtFindValue _ => Return (Value None)
  | DhtStore _ _ => StoreEnsure nodes
  end.

(** What a lookup does with the message its RPC returned. *)
Definition lookup_reply (g : Goal) (d : Dht) (shortlist : list Contact) (queried : gset N)
    (m : KademliaMessage) : Dht * Pc :=
  match g, m with
  | DhtFindValue _, FindValueResult _ (Found v) => (d, Return (Value (Some v)))
  | DhtFindValue _, FindValueResult _ (Contacts cs) =>
      let '(d, sl) := absorb_contacts d cs shortlist in (d, Pick sl queried)
  | DhtFindValue _, _ => (d, Pick shortlist queried)
  | _, FindNodeResult _ cs =>
      let '(d, sl) := absorb_contacts d cs shortlist in (d, Pick sl queried)
  | _, _ => (d, Pick shortlist queried)
  end.

(** The end of [rpc]: what the wait gave (if it is over), with the id reclaimed and the receiver
    dropped. *)
Definition rpc_wait (c : Chan) (w : Choice) : option (IoResult KademliaMessage) :=
  match c, w with
  | Ready m, Go => Some (Ok m)
  | SenderDropped, Go => Some (Err (mkIoError BrokenPipe (Message "RPC peer dropped")))
  | Waiting, Elapsed => Some (Err (mkIoError TimedOut (Message "RPC timed out")))
  | _, _ => None
  end.

Definition rpc_end (d : Dht) (chans : list Chan) (r : N) (ch : nat) (w : Choice)
  : option (IoResult KademliaMessage * Dht * list Chan) :=
  c ← chans !! ch;
  res ← rpc_wait c w;
  let '(d, chans) := reclaim d chans r in
  Some (res, d, <[ch := Closed]> chans).

(** The call of [unicast_fast] in [rpc], and the return when it fails. *)
Definition rpc_call (d : Dht) (chans : list Chan) (w : Choice)
  : option (Dht * list Chan * N * nat * bool) :=
  let '(r, ch, d, chans) := rpc_begin d chans in
  match w with
  | Go => Some (d, chans, r, ch, true)
  | SendFails => let '(d, chans) := reclaim d chans r in Some (d, <[ch := Closed]> chans, r, ch, false)
  | _ => None
  end.

(** [ensure_connected]: whether the RPC can be made, and the routing table after it. *)
Definition ensure_connected (d : Dht) (addr : SocketAddr) (w : Choice) : option (Dht * bool) :=
  match w with
  | Connected => Some (d, true)
  | Dialed true => Some (on_connect d addr, true)
  | Dialed false => Some (d, false)
  | _ => None
  end.

(** The step of a task: [iterative_find_node], [find_value] and [store]. *)
Definition task_step (s : Sys) (t : Task) (w : Choice)
  : option (Dht * list Chan * list (SocketAddr * KademliaMessage) * Pc) :=
  let d := dht s in
  let g := goal t in
  match pc t with
  | Pick shortlist queried =>
      let shortlist := sort_by_distance (goal_key g) shortlist in
      match w, unqueried queried shortlist with
      | Go, None => Some (d, chans s, [], lookup_over g shortlist)
      | Go, Some c => Some (d, chans s, [], Ensure c shortlist ({[c_id c]} ∪ queried))
      | _, _ => None
      end
  | Ensure c shortlist queried =>
      '(d, ok) ← ensure_connected d (c_addr c) w;
      Some (d, chans s, [], if ok : bool then Call c shortlist queried else Pick shortlist queried)
  | Call c shortlist queried =>
      '(d, chs, r, ch, ok) ← rpc_call d (chans s) w;
      Some (if ok : bool
            then (d, chs, [(c_addr c, into_message (lookup_request g (dht_id d)) r)],
                  Await r ch shortlist queried)
            else (d, chs, [], Pick shortlist queried))
  | Await r ch shortlist queried =>
      '(res, d, chs) ← rpc_end d (chans s) r ch w;
      let '(d, p) := match res with
                     | Ok m => lookup_reply g d shortlist queried m
                     | Err _ => (d, Pick shortlist queried)
                     end in
      Some (d, chs, [], p)
  | StoreEnsure [] => match w with Go => Some (d, chans s, [], Return Stored) | _ => None end
  | StoreEnsure (c :: rest) =>
      '(d, ok) ← ensure_connected d (c_addr c) w;
      Some (d, chans s, [], if ok : bool then StoreCall c rest else StoreEnsure rest)
  | StoreCall c rest =>
      '(d, chs, r, ch, ok) ← rpc_call d (chans s) w;
      let value := match g with DhtStore _ v => v | _ => [] end in
      Some (if ok : bool
            then (d, chs, [(c_addr c, into_message (ReqStore (goal_key g) value) r)], StoreAwait r ch rest)
            else (d, chs, [], StoreEnsure rest))
  | StoreAwait r ch rest =>
      '(_, d, chs) ← rpc_end d (chans s) r ch w;
      Some (d, chs, [], StoreEnsure rest)
  | Return _ => None
  end.

Inductive Label :=
| Handshaken (conn_addr : SocketAddr) (buf : list N)
| OnConnect (addr : SocketAddr)
| OnDisconnect (addr : SocketAddr)
| Received (source : SocketAddr) (m : KademliaMessage) (accepted : bool)
| Spawn (g : Goal)
| Run (i : nat) (w : Choice).

Definition with_dht (s : Sys) (d : Dht) : Sys := mkSys d (chans s) (tasks s) (outbox s).

Definition step (l : Label) (s : Sys) : option Sys :=
  match l with
  | Handshaken conn_addr buf => Some (with_dht s (record_peer (dht s) conn_addr buf))
  | OnConnect addr => Some (with_dht s (on_connect (dht s) addr))
  | OnDisconnect addr => Some (with_dht s (on_disconnect (dht s) addr))
  | Received source m accepted =>
      let '(d, chs, reply) := process_message (dht s) (chans s) source m in
      Some (mkSys d chs (tasks s)
              (outbox s ++ match reply with
                         | Some r => if accepted : bool then [(source, r)] else []
                         | None => []
                         end))
  | Spawn g =>
      Some (mkSys (dht s) (chans s)
              (tasks s ++ [mkTask g (Pick (closest_contacts (dht s) (goal_key g) K) ∅)]) (outbox s))
  | Run i w =>
      t ← tasks s !! i;
      '(d, chs, out, p) ← task_step s t w;
      Some (mkSys d chs (<[i := mkTask (goal t) p]> (tasks s)) (outbox s ++ out))
  end.

Fixpoint run (ls : list Label) (s : Sys) : option Sys :=
  match ls with
  | [] => Some s
  | l :: ls => s ← step l s; run ls s
  end.
End dht.

(** ** The routing table: lemmas *)

(** No two contacts with the same id, and never the node itself. *)
Definition table_ok (self : N) (l : list Contact) : Prop :=
  NoDup (c_id <$> l) ∧ self ∉ c_id <$> l.

Lemma knows_false l i : knows l i = false → i ∉ c_id <$> l.
Proof.
  intros Hk (c&->&Hc)%list_elem_of_fmap. apply not_true_iff_false in Hk. apply Hk.
  apply existsb_exists. exists c. rewrite <-list_elem_of_In. split; [done|]. apply N.eqb_refl.
Qed.

Lemma table_ok_nil self : table_ok self [].
Proof. split; [constructor|set_solver]. Qed.

Lemma table_ok_push self l i a :
  table_ok self l → i ≠ self → knows l i = false → table_ok self (l ++ [mkContact i a]).
Proof.
  intros [Hn Hs] Hi Hk%knows_false. unfold table_ok. rewrite fmap_app. split; [|set_solver].
  apply NoDup_app. split; [done|]. split; [set_solver|]. apply NoDup_singleton.
Qed.

Lemma table_ok_sub self l l' : l' ⊆+ l → table_ok self l → table_ok self l'.
Proof.
  intros (k&Hk)%submseteq_Permutation [Hn Hs]. unfold table_ok. rewrite Hk, fmap_app in Hn, Hs.
  split; [by apply NoDup_app in Hn as (?&_)|set_solver].
Qed.

Lemma table_ok_filter self l (P : Contact → Prop) `{!∀ c, Decision (P c)} :
  table_ok self l → table_ok self (filter P l).
Proof. apply table_ok_sub, sublist_submseteq, sublist_filter. Qed.

#[export] Hint Resolve table_ok_nil table_ok_push table_ok_filter : pea.

(** *** Sorting by distance *)

Lemma distance_inj t a b : distance a t = distance b t → a = b.
Proof.
  unfold distance. intros E. rewrite <-(N.lxor_0_r a), <-(N.lxor_0_r b), <-(N.lxor_nilpotent t).
  by rewrite <-!N.lxor_assoc, E.
Qed.

#[global] Instance closer_total t : Total (closer t).
Proof. intros a b. unfold closer. lia. Qed.
#[global] Instance closer_trans t : Transitive (closer t).
Proof. intros a b c. unfold closer. lia. Qed.

Lemma sort_permutation t l : sort_by_distance t l ≡ₚ l.
Proof. apply merge_sort_Permutation. Qed.

Lemma table_ok_sort self t l : table_ok self l → table_ok self (sort_by_distance t l).
Proof. apply table_ok_sub. by rewrite sort_permutation. Qed.

Lemma table_ok_take self k l : table_ok self l → table_ok self (take k l).
Proof. apply table_ok_sub, sublist_submseteq, sublist_take. Qed.
#[export] Hint Resolve table_ok_sort table_ok_take : pea.

(** [l] lists contacts in the order of their distance, without ties. *)
Definition ordered (t : N) (l : list Contact) : Prop :=
  StronglySorted (λ a b, distance (c_id a) t < distance (c_id b) t) l.

Lemma ordered_sort self t l : table_ok self l → ordered t (sort_by_distance t l).
Proof.
  intros [Hn _]. unfold ordered.
  assert (Hs : StronglySorted (closer t) (sort_by_distance t l)) by (apply StronglySorted_merge_sort; apply _).
  rewrite <-(sort_permutation t l) in Hn.
  induction Hs as [|c l' _ IH Hc]; [constructor|]. csimpl in *. apply NoDup_cons in Hn as [Hni Hn].
  constructor; [by apply IH|]. rewrite Forall_forall in *. intros x Hx.
  specialize (Hc x Hx). unfold closer in Hc. apply N.le_neq. split; [done|].
  intros E%distance_inj. apply Hni. rewrite E. by apply list_elem_of_fmap_2.
Qed.

(** [near] holds the [k] contacts of [l] closest to [t], in order. *)
Definition nearest (t : N) (k : nat) (l near : list Contact) : Prop :=
  ordered t near ∧ length near = (k `min` length l)%nat ∧ near ⊆ l ∧
  ∀ c x, c ∈ l → c ∉ near → x ∈ near → distance (c_id x) t < distance (c_id c) t.

Lemma nearest_take self t k l :
  table_ok self l → nearest t k l (take k (sort_by_distance t l)).
Proof.
  intros Hl. pose proof (ordered_sort self t l Hl) as Ho. unfold ordered in Ho.
  rewrite <-(take_drop k (sort_by_distance t l)) in Ho.
  apply StronglySorted_app in Ho as (Hlt&Ht&_). split; [done|]. split.
  { rewrite length_take. by rewrite (Permutation_length (sort_permutation t l)). }
  split.
  - intros c Hc. rewrite <-(sort_permutation t l). by eapply elem_of_take in Hc as (i&?%list_elem_of_lookup_2&_).
  - intros c x Hc Hn Hx. apply Hlt; [done|].
    rewrite <-(sort_permutation t l), <-(take_drop k (sort_by_distance t l)), elem_of_app in Hc. tauto.
Qed.

(** ** Steps of the system *)

Section proofs.
Context `{AddrText}.

Lemma run_ind (P : Sys → Prop) ls s s' :
  (∀ l s s', l ∈ ls → P s → step l s = Some s' → P s') → P s → run ls s = Some s' → P s'.
Proof.
  revert s. induction ls as [|l ls IH]; intros s Hstep Hs Hr; simplify_eq/=; [done|].
  destruct (step l s) as [s1|] eqn:E; simplify_eq/=. apply (IH s1); [|exact (Hstep l s s1 (list_elem_of_here _ _) Hs E)|done].
  intros l1 s2 s3 Hin Hp He. exact (Hstep l1 s2 s3 (list_elem_of_further _ _ _ Hin) Hp He).
Qed.

(** A task is touched by its own steps only. *)
Lemma step_task l s s' i t :
  step l s = Some s' → tasks s !! i = Some t →
  (∃ w d chs out p, l = Run i w ∧ task_step s t w = Some (d, chs, out, p) ∧ dht s' = d ∧
     tasks s' !! i = Some (mkTask (goal t) p)) ∨
  ((∀ w, l ≠ Run i w) ∧ tasks s' !! i = Some t).
Proof.
  intros Hs Ht. pose proof (lookup_lt_Some _ _ _ Ht) as Hlt.
  destruct l as [a b|a|a|a m acc|g|j w]; simplify_eq/=; try (right; by split).
  - destruct (process_message _ _ _ _) as [[??]?]. simplify_eq/=. right. by split.
  - right. split; [done|]. by apply lookup_app_l_Some.
  - destruct (tasks s !! j) as [u|] eqn:Hu; simplify_eq/=.
    destruct (task_step s u w) as [[[[d chs] out] p]|] eqn:Hw; simplify_eq/=.
    destruct (decide (j = i)) as [->|Hne].
    + left. simplify_eq/=. exists w, d, chs, out, p. repeat split; [done|]. by rewrite list_lookup_insert_eq.
    + right. split; [congruence|]. by rewrite list_lookup_insert_ne.
Qed.

(** *** What the operations keep of the shared state *)

Lemma add_contact_id d i a : dht_id (add_contact d i a) = dht_id d.
Proof. unfold add_contact. by repeat case_match. Qed.

Lemma add_contact_ok d i a :
  table_ok (dht_id d) (routing_table d) → table_ok (dht_id d) (routing_table (add_contact d i a)).
Proof.
  unfold add_contact. intros. destruct (i =? dht_id d) eqn:E; [done|]. apply N.eqb_neq in E.
  destruct (knows _ _) eqn:Ek; simpl; auto with pea.
Qed.

(** The node keeps its id, and its routing table stays well-formed. *)
Definition keeps (d d' : Dht) : Prop :=
  dht_id d' = dht_id d ∧
  (table_ok (dht_id d) (routing_table d) → table_ok (dht_id d) (routing_table d')).

Lemma keeps_refl d : keeps d d.
Proof. by split. Qed.
Lemma keeps_trans d1 d2 d3 : keeps d1 d2 → keeps d2 d3 → keeps d1 d3.
Proof. unfold keeps. intros [-> ?] [-> ?]. auto. Qed.
Lemma keeps_add_contact d i a : keeps d (add_contact d i a).
Proof. split; [apply add_contact_id|apply add_contact_ok]. Qed.
Lemma keeps_with_rpcs d n p : keeps d (with_rpcs d n p).
Proof. by split. Qed.
Lemma keeps_with_storage d m : keeps d (with_storage d m).
Proof. by split. Qed.
Lemma keeps_on_connect d a : keeps d (on_connect d a).
Proof. unfold on_connect. repeat case_match; auto using keeps_refl, keeps_add_contact. Qed.
Lemma keeps_on_disconnect d a : keeps d (on_disconnect d a).
Proof.
  unfold on_disconnect. repeat case_match; [|apply keeps_refl].
  split; [done|]. simpl. eauto with pea.
Qed.
Hint Resolve keeps_refl keeps_add_contact keeps_with_rpcs keeps_with_storage keeps_on_connect
  keeps_on_disconnect : pea.

Lemma absorb_one_ok d sl p d' sl' :
  absorb_one (d, sl) p = (d', sl') →
  keeps d d' ∧ sl ⊆ sl' ∧ (table_ok (dht_id d) sl → table_ok (dht_id d) sl').
Proof.
  destruct p as [i a]. simpl. destruct (i =? dht_id d) eqn:E.
  { intros [= <- <-]. auto with pea. }
  apply N.eqb_neq in E. destruct (addr_parse a) as [addr|]; intros [= <- <-]; [|auto with pea].
  split; [auto with pea|]. destruct (knows sl i) eqn:Ek; [done|]. split; [set_solver|auto with pea].
Qed.

Lemma absorb_contacts_ok cs d sl d' sl' :
  absorb_contacts d cs sl = (d', sl') →
  keeps d d' ∧ sl ⊆ sl' ∧ (table_ok (dht_id d) sl → table_ok (dht_id d) sl').
Proof.
  unfold absorb_contacts. revert d sl. induction cs as [|p cs IH]; intros d sl; cbn [fold_left].
  { intros [= <- <-]. auto with pea. }
  destruct (absorb_one (d, sl) p) as [d1 sl1] eqn:E1.
  intros (Hk&Hsub&Hok)%IH. apply absorb_one_ok in E1 as (Hk1&Hsub1&Hok1).
  split; [by eapply keeps_trans|]. split; [by etrans|]. destruct Hk1 as [E _]. rewrite E in Hok. auto.
Qed.

Lemma reclaim_keeps d chs r d' chs' : reclaim d chs r = (d', chs') → keeps d d'.
Proof. unfold reclaim. intros. repeat case_match; simplify_eq; auto with pea. Qed.

Lemma rpc_call_keeps d chs w d' chs' r ch ok : rpc_call d chs w = Some (d', chs', r, ch, ok) → keeps d d'.
Proof.
  unfold rpc_call, rpc_begin. intros. repeat case_match; simplify_eq; auto with pea.
  all: eapply keeps_trans; [|by eapply reclaim_keeps]; auto with pea.
Qed.

Lemma rpc_end_keeps d chs r ch w res d' chs' : rpc_end d chs r ch w = Some (res, d', chs') → keeps d d'.
Proof.
  unfold rpc_end. intros Hr. simplify_option_eq. destruct (reclaim d chs r) eqn:E. simplify_eq/=.
  by eapply reclaim_keeps.
Qed.

Lemma ensure_connected_keeps d a w d' ok : ensure_connected d a w = Some (d', ok) → keeps d d'.
Proof. unfold ensure_connected. intros. repeat case_match; simplify_eq; auto with pea. Qed.
Hint Resolve rpc_call_keeps rpc_end_keeps ensure_connected_keeps : pea.

Lemma process_message_keeps d chs a m d' chs' o : process_message d chs a m = (d', chs', o) → keeps d d'.
Proof. unfold process_message. intros. repeat case_match; simplify_eq; auto with pea. Qed.

(** *** The shortlists of the lookups *)

Definition shortlist_of (p : Pc) : list Contact :=
  match p with
  | Pick sl _ | Ensure _ sl _ | Call _ sl _ | Await _ _ sl _ => sl
  | _ => []
  end.

Lemma lookup_reply_ok g d sl q m d' p :
  lookup_reply g d sl q m = (d', p) →
  keeps d d' ∧ (table_ok (dht_id d) sl → table_ok (dht_id d) (shortlist_of p)) ∧
  (sl ⊆ shortlist_of p ∨ ∃ v, g = DhtFindValue v).
Proof.
  intros E.
  destruct g, m; simpl in E; repeat case_match; simplify_eq; simpl;
    try match goal with E : absorb_contacts _ _ _ = _ |- _ => apply absorb_contacts_ok in E as (?&?&?) end;
    auto 6 with pea; split_and!; eauto with pea.
Qed.

(** A step of a task keeps the shared state and the shortlists well-formed. *)
Lemma task_step_keeps s t w d chs out p :
  task_step s t w = Some (d, chs, out, p) →
  keeps (dht s) d ∧
  (table_ok (dht_id (dht s)) (shortlist_of (pc t)) → table_ok (dht_id (dht s)) (shortlist_of p)).
Proof.
  unfold task_step. intros E. destruct (pc t) as [sl q|c sl q|c sl q|r ch sl q|[|c rest]|c rest|r ch rest|o].
  - repeat case_match; simplify_eq; simpl; split; auto with pea. intros ?. destruct (goal t); simpl; auto with pea.
  - destruct (ensure_connected _ _ _) as [[d1 []]|] eqn:Ee; simplify_eq/=; split; eauto with pea.
  - destruct (rpc_call _ _ _) as [[[[[d1 c1] r] ch] []]|] eqn:Ee; simplify_eq/=; split; eauto with pea.
  - destruct (rpc_end _ _ _ _ _) as [[[res d1] c1]|] eqn:Ee; simplify_eq/=.
    apply rpc_end_keeps in Ee as Hk. destruct res as [m|e]; simplify_eq/=; [|by auto].
    destruct (lookup_reply _ _ _ _ _) as [d2 p2] eqn:El. simplify_eq/=.
    apply lookup_reply_ok in El as (?&Hok&_). destruct Hk as [Eid ?]. rewrite Eid in Hok.
    split; [|done]. eapply keeps_trans; [by split|done].
  - repeat case_match; simplify_eq; auto with pea.
  - destruct (ensure_connected _ _ _) as [[d1 []]|] eqn:Ee; simplify_eq/=; split; eauto with pea.
  - destruct (rpc_call _ _ _) as [[[[[d1 c1] r] ch] []]|] eqn:Ee; simplify_eq/=; split; eauto with pea.
  - destruct (rpc_end _ _ _ _ _) as [[[res d1] c1]|] eqn:Ee; simplify_eq/=; split; eauto with pea.
  - done.
Qed.

Record Inv (self : N) (s : Sys) : Prop := {
  inv_id : dht_id (dht s) = self;
  inv_table : table_ok self (routing_table (dht s));
  inv_shortlists i t : tasks s !! i = Some t → table_ok self (shortlist_of (pc t));
}.

Lemma Inv_dht self s s' : Inv self s → keeps (dht s) (dht s') → tasks s' = tasks s → Inv self s'.
Proof.
  intros [Hid Ht Hsl] [Hid' Ht'] E. rewrite Hid in *. split; [done|by apply Ht'|]. rewrite E. apply Hsl.
Qed.

Lemma step_Inv self l s s' : Inv self s → step l s = Some s' → Inv self s'.
Proof.
  intros HI Hs. destruct l as [a b|a|a|a m acc|g|j w]; simplify_eq/=.
  - by eapply Inv_dht.
  - eapply Inv_dht; [done| |done]. simpl. auto with pea.
  - eapply Inv_dht; [done| |done]. simpl. auto with pea.
  - destruct (process_message _ _ _ _) as [[??]?] eqn:E. simplify_eq/=.
    eapply Inv_dht; [done| |done]. by eapply process_message_keeps.
  - destruct HI as [Hid Ht Hsl]. split; simpl; [done|done|].
    intros i t [Hi|[_ Hi]]%lookup_app_Some; [by eapply Hsl|].
    apply list_lookup_singleton_Some in Hi as [_ <-]. simpl. unfold closest_contacts. auto with pea.
  - destruct (tasks s !! j) as [t|] eqn:Ht; simplify_eq/=.
    destruct (task_step s t w) as [[[[d chs] out] p]|] eqn:Hw; simplify_eq/=.
    destruct HI as [Hid Htab Hsl]. apply task_step_keeps in Hw as [[Hid' Htab'] Hsl']. rewrite Hid in *.
    split; simpl; [done|by apply Htab'|]. intros i u. destruct (decide (i = j)) as [->|Hne].
    + rewrite list_lookup_insert_eq by (by eapply lookup_lt_Some). intros [= <-]. simpl. eauto.
    + rewrite list_lookup_insert_ne by done. apply Hsl.
Qed.

Lemma boot_Inv self : Inv self (boot self).
Proof. split; simpl; [done|apply table_ok_nil|done]. Qed.

Lemma run_Inv self ls s s' : Inv self s → run ls s = Some s' → Inv self s'.
Proof. intros Hi Hr. eapply (run_ind (Inv self)); [|done|done]. intros. by eapply step_Inv. Qed.

(** C32. The routing table of a DHT node is well-formed after any interleaving of handshakes, hooks,
    messages and lookups: it never lists the node itself and never lists an id twice; so
    [closest_contacts] returns exactly the [k] nearest contacts (all of them, if there are fewer), in
    strictly increasing XOR distance, each of them nearer than every contact left out. *)
Theorem routing_table_sound self ls s target k :
  run ls (boot self) = Some s →
  table_ok self (routing_table (dht s)) ∧
  nearest target k (routing_table (dht s)) (closest_contacts (dht s) target k).
Proof.
  intros [_ Ht _]%(run_Inv self); [|apply boot_Inv]. split; [done|]. by eapply nearest_take.
Qed.

(** A lookup for nodes that has heard of the contacts [known] still knows them, or has returned the
    nearest of a list that contains them. *)
Definition remembers (self target : N) (known : list Contact) (t : Task) : Prop :=
  goal t = IterativeFindNode target ∧
  match pc t with
  | Return (Nodes l) =>
      ∃ sl, table_ok self sl ∧ known ⊆ sl ∧ l = take K (sort_by_distance target sl)
  | Pick sl _ | Ensure _ sl _ | Call _ sl _ | Await _ _ sl _ => known ⊆ sl
  | _ => True
  end.

Lemma task_step_remembers self target known s t w d chs out p :
  table_ok self (shortlist_of (pc t)) → remembers self target known t →
  task_step s t w = Some (d, chs, out, p) → remembers self target known (mkTask (goal t) p).
Proof.
  intros Hok [Hg Hr] E. split; [done|]. unfold task_step in E.
  destruct (pc t) as [sl q|c sl q|c sl q|r ch sl q|[|c rest]|c rest|r ch rest|o] eqn:Hp; simpl in *; try done.
  - assert (known ⊆ sort_by_distance target sl) by (intros x Hx; rewrite sort_permutation; by apply Hr).
    rewrite Hg in E. repeat case_match; simplify_eq; [done|].
    exists (sort_by_distance target sl). by split_and!; [auto with pea|done|simplify_eq/=].
  - destruct (ensure_connected _ _ _) as [[d1 []]|]; simplify_eq/=; done.
  - destruct (rpc_call _ _ _) as [[[[[d1 c1] r] ch] []]|]; simplify_eq/=; done.
  - destruct (rpc_end _ _ _ _ _) as [[[[m|e] d1] c1]|]; simplify_eq/=; [|done].
    rewrite Hg in E. destruct (lookup_reply _ _ _ _ _) as [d2 p2] eqn:El. simplify_eq/=.
    pose proof (lookup_reply_ok (IterativeFindNode target) _ _ _ _ _ _ El) as (_&_&[Hsub|[? ?]]); [|done].
    assert (∃ sl', p = Pick sl' q) as [sl' ->].
    { simpl in El. repeat case_match; simplify_eq; eauto. }
    by etrans.
  - by repeat case_match; simplify_eq.
  - destruct (ensure_connected _ _ _) as [[d1 []]|]; simplify_eq/=; done.
  - destruct (rpc_call _ _ _) as [[[[[d1 c1] r] ch] []]|]; simplify_eq/=; done.
  - destruct (rpc_end _ _ _ _ _) as [[[[m|e] d1] c1]|]; simplify_eq/=; done.
Qed.

(** C31. [iterative_find_node] forgets nothing it hears. Whatever happens around it, when a lookup
    returns, its contacts are at most [K], distinct, none of them the node itself, in strictly
    increasing distance from the target; and every contact that was in its shortlist at any earlier
    moment (from the routing table, or absorbed from an answer) is either among them, or lost to [K]
    contacts that are all strictly nearer to the target. *)
Theorem lookup_keeps_nearest self ls s i target p ls' s' g l :
  run ls (boot self) = Some s → tasks s !! i = Some (mkTask (IterativeFindNode target) p) →
  (∀ o, p ≠ Return o) →
  run ls' s = Some s' → tasks s' !! i = Some (mkTask g (Return (Nodes l))) →
  (length l ≤ K)%nat ∧ table_ok self l ∧ ordered target l ∧
  ∀ c, c ∈ shortlist_of p →
    c ∈ l ∨ (length l = K ∧ ∀ x, x ∈ l → distance (c_id x) target < distance (c_id c) target).
Proof.
  intros Hr Hi Hp Hr' Hi'.
  set (P s := Inv self s ∧ ∃ t, tasks s !! i = Some t ∧ remembers self target (shortlist_of p) t).
  assert (P s') as (_&t&Ht&[_ Hrem]).
  { eapply (run_ind P); [|split|exact Hr'].
    - intros l0 s0 s1 _ (HI&t&Ht&Hrem) Hs. split; [by eapply step_Inv|].
      destruct (step_task _ _ _ _ _ Hs Ht) as [(w&d&chs&out&p'&_&Hw&_&Ht')|[_ Ht']]; [|eauto].
      eexists. split; [done|]. eapply task_step_remembers; [by eapply inv_shortlists|done|done].
    - eapply run_Inv; [apply boot_Inv|done].
    - eexists. split; [done|]. split; [done|]. simpl. destruct p; try done. by destruct (Hp o). }
  simplify_eq. destruct Hrem as (sl&Hok&Hsub&->).
  pose proof (nearest_take self target K sl Hok) as (Ho&Hlen&_&Hnear).
  split; [lia|]. split; [auto with pea|]. split; [done|]. intros c Hc.
  destruct (decide (c ∈ take K (sort_by_distance target sl))) as [|Hn]; [by left|right].
  split; [|intros x Hx; by apply Hnear; [apply Hsub| |]].
  destruct (decide (length sl ≤ K)%nat); [|lia]. destruct Hn. rewrite take_ge; [rewrite sort_permutation; by apply Hsub|].
  by rewrite (Permutation_length (sort_permutation target sl)).
Qed.
End proofs.

(** ** An example: node 5 knows node 1, which tells it about node 4 *)

(** Addresses as text: enough of it for the example. *)
#[local] Instance demo_text : AddrText := {
  addr_to_string a := match a with SockV4 b p => if port a =? 4004 then "four" else "other" | _ => "v6" end;
  addr_parse t := if decide (t = "four") then Some (SockV4 (ipv4 10 0 0 4) 4004) else None;
}.

Definition demo_peer : SocketAddr := SockV4 (ipv4 10 0 0 1) 4001.

(** Node 1 connects; a lookup of id 4 queries it, learns of node 4 (and of an unreadable address),
    queries that as well and hears nothing from it. *)
Definition demo_before : list Label :=
  [Handshaken demo_peer (introduction 1 4001); OnConnect demo_peer; Spawn (IterativeFindNode 4);
   Run 0 Go; Run 0 Connected; Run 0 Go;
   Received demo_peer (FindNodeResult 0 [(4, "four"); (5, "four"); (7, "?")]) true; Run 0 Go].
Definition demo_after : list Label :=
  [Run 0 Go; Run 0 (Dialed true); Run 0 Go; Run 0 Elapsed; Run 0 Go].

Definition demo_s1 : Sys := default (boot 5) (run demo_before (boot 5)).
Definition demo_s2 : Sys := default (boot 5) (run demo_after demo_s1).
Definition demo_found : list Contact :=
  [mkContact 4 (SockV4 (ipv4 10 0 0 4) 4004); mkContact 1 demo_peer].

Lemma routing_table_sound_witness :
  table_ok 5 (routing_table (dht demo_s1)) ∧
  nearest 4 1 (routing_table (dht demo_s1)) (closest_contacts (dht demo_s1) 4 1).
Proof. apply (routing_table_sound 5 demo_before demo_s1 4 1). vm_compute. reflexivity. Defined.

Lemma lookup_keeps_nearest_witness :
  mkContact 1 demo_peer ∈ demo_found ∨
  (length demo_found = K ∧ ∀ x, x ∈ demo_found → distance (c_id x) 4 < distance 1 4).
Proof.
  eapply (lookup_keeps_nearest 5 demo_before demo_s1 0%nat 4 _ demo_after demo_s2
            (IterativeFindNode 4) demo_found).
  - vm_compute. reflexivity.
  - vm_compute. reflexivity.
  - discriminate.
  - vm_compute. reflexivity.
  - vm_compute. reflexivity.
  - left.
Defined.
