(* ===== verification/Exchange.v ===== *)
(** * The handshake of the DHT node ([examples/examples/kademlia_dht.rs], [perform_handshake])

    Both ends of a new connection exchange ten bytes, the node id and the listening port, in an
    order that depends on their [ConnectionSide].  The two ends are run together over a stream that
    delivers bytes in order and in pieces of any size. *)

From S2P Require Import Prelude Net Text Connections Kademlia.

Open Scope nat_scope.

Inductive HsOp := WriteOut | ReadIn.

#[global] Instance HsOp_eq_dec : EqDecision HsOp.
Proof. solve_decision. Defined.

(** The order of [write_all] and [read_exact], from the [side] of the connection. *)
Definition hs_script (side : ConnectionSide) : list HsOp :=
  match side_not side with
  | Initiator => [WriteOut; ReadIn]
  | Responder => [ReadIn; WriteOut]
  end.

(** One end: what it has still to do, its ten bytes, the bytes that have arrived but are not yet
    consumed, and the buffer it has read. *)
Record End := mkEnd {
  script : list HsOp;
  out : list N;
  arrived : list N;
  buf : option (list N);
}.

Definition hs_start (side : ConnectionSide) (i my_port : N) : End :=
  mkEnd (hs_script side) (introduction i my_port) [] None.

(** The next operation of an end, with the bytes it puts on the stream: [read_exact] waits for ten
    bytes. *)
Definition hs_step (e : End) : option (End * list N) :=
  match script e with
  | WriteOut :: ops => Some (mkEnd ops (out e) (arrived e) (buf e), out e)
  | ReadIn :: ops =>
      if decide (10 ≤ length (arrived e))
      then Some (mkEnd ops (out e) (drop 10 (arrived e)) (Some (take 10 (arrived e))), [])
      else None
  | [] => None
  end.

Definition hs_deliver (e : End) (bs : list N) : End :=
  mkEnd (script e) (out e) (arrived e ++ bs) (buf e).

(** Both ends, and the bytes in flight to each. *)
Record Link := mkLink { end_a : End; end_b : End; fly_a : list N; fly_b : list N }.

Inductive LinkLabel := OpA | OpB | ArriveA (k : nat) | ArriveB (k : nat).

Definition link_step (l : LinkLabel) (x : Link) : option Link :=
  match l with
  | OpA => '(e, bs) ← hs_step (end_a x); Some (mkLink e (end_b x) (fly_a x) (fly_b x ++ bs))
  | OpB => '(e, bs) ← hs_step (end_b x); Some (mkLink (end_a x) e (fly_a x ++ bs) (fly_b x))
  | ArriveA k =>
      if decide (0 < k ≤ length (fly_a x))
      then Some (mkLink (hs_deliver (end_a x) (take k (fly_a x))) (end_b x) (drop k (fly_a x)) (fly_b x))
      else None
  | ArriveB k =>
      if decide (0 < k ≤ length (fly_b x))
      then Some (mkLink (end_a x) (hs_deliver (end_b x) (take k (fly_b x))) (fly_a x) (drop k (fly_b x)))
      else None
  end.

Fixpoint link_run (ls : list LinkLabel) (x : Link) : option Link :=
  match ls with
  | [] => Some x
  | l :: ls => x ← link_step l x; link_run ls x
  end.

Lemma length_introduction i p : length (introduction i p) = 10.
Proof. unfold introduction. rewrite length_app, !length_to_be_bytes. lia. Qed.

(** The bytes of an introduction tell its id and its port. *)
Lemma record_introduction d addr i p :
  (i < 2 ^ 64)%N → (p < 2 ^ 16)%N →
  peer_info (record_peer d addr (introduction i p)) !! addr = Some (i, socket_addr (ip addr) p).
Proof.
  intros Hi Hp. unfold record_peer, introduction. cbn [peer_info with_peers]. rewrite lookup_insert_eq.
  rewrite take_app_length', drop_app_length' by (by rewrite length_to_be_bytes).
  rewrite !from_to_be_bytes by done. done.
Qed.

(** ** The exchange *)

(** One direction of the stream: what the reader has consumed, what has arrived and what is in
    flight add up to what the writer has written. *)
Definition flow_ok (w r : End) (fly : list N) : Prop :=
  length (out w) = 10 ∧
  if decide (ReadIn ∈ script r)
  then buf r = None ∧ arrived r ++ fly = (if decide (WriteOut ∈ script w) then [] else out w)
  else buf r = Some (out w) ∧ arrived r ++ fly = [] ∧ WriteOut ∉ script w.

(** Both directions, with the scripts of opposite sides. *)
Record LinkOk (side : ConnectionSide) (oa ob : list N) (x : Link) : Prop := {
  lk_outs : out (end_a x) = oa ∧ out (end_b x) = ob;
  lk_to_b : flow_ok (end_a x) (end_b x) (fly_b x);
  lk_to_a : flow_ok (end_b x) (end_a x) (fly_a x);
  lk_script_a : script (end_a x) `suffix_of` hs_script side;
  lk_script_b : script (end_b x) `suffix_of` hs_script (side_not side);
}.

Lemma flow_step e r w fly fly' e' bs :
  hs_step e = Some (e', bs) → NoDup (script e) → flow_ok e r fly → flow_ok w e fly' →
  out e' = out e ∧ flow_ok e' r (fly ++ bs) ∧ flow_ok w e' fly'.
Proof.
  unfold hs_step. destruct (script e) as [|[] ops] eqn:Es; [done|..].
  - intros [= <- <-] [Hn _]%NoDup_cons [Hl Hw] [Hl' Hr]. rewrite Es in Hw, Hr. unfold flow_ok. simpl.
    split; [done|]. split; (split; [done|]).
    + rewrite (decide_False (P := WriteOut ∈ ops)) by done. rewrite (decide_True (P := WriteOut ∈ WriteOut :: ops)) in Hw by left.
      destruct (decide (ReadIn ∈ script r)).
      * destruct Hw as [? Hf]. split; [done|]. by rewrite assoc, Hf by apply _.
      * destruct Hw as (_&_&Hw). destruct Hw. left.
    + destruct (decide (ReadIn ∈ WriteOut :: ops)), (decide (ReadIn ∈ ops)); set_solver.
  - case_decide as Hlen; [|done]. intros [= <- <-] [Hn _]%NoDup_cons [Hl Hw] [Hl' Hr].
    rewrite Es in Hw, Hr. unfold flow_ok. simpl. split; [done|]. split; (split; [done|]).
    + rewrite app_nil_r.
      destruct (decide (ReadIn ∈ script r)); [|set_solver].
      destruct (decide (WriteOut ∈ ReadIn :: ops)), (decide (WriteOut ∈ ops)); set_solver.
    + rewrite (decide_True (P := ReadIn ∈ ReadIn :: ops)) in Hr by left. rewrite (decide_False (P := ReadIn ∈ ops)) by done.
      destruct Hr as [_ Hf]. destruct (decide (WriteOut ∈ script w)).
      { apply app_eq_nil in Hf as [Hf _]. rewrite Hf in Hlen. simpl in Hlen. lia. }
      assert (length (arrived e) + length fly' = 10) as Hlen' by (by rewrite <-length_app, Hf).
      assert (fly' = []) as -> by (apply nil_length_inv; lia). rewrite app_nil_r in Hf |- *.
      rewrite Hf, take_ge, drop_ge by lia. done.
Qed.

Lemma flow_deliver w e fly k :
  flow_ok w e fly → flow_ok w (hs_deliver e (take k fly)) (drop k fly).
Proof. unfold flow_ok. simpl. by rewrite <-app_assoc, take_drop. Qed.

Lemma flow_deliver_l e r fly bs : flow_ok e r fly → flow_ok (hs_deliver e bs) r fly.
Proof. done. Qed.

(** Something an end waits for is in flight, or it can be read. *)
Lemma flow_progress w r fly ops :
  flow_ok w r fly → script r = ReadIn :: ops → WriteOut ∉ script w →
  0 < length fly ∨ is_Some (hs_step r).
Proof.
  intros [Hl Hr] Es Hw. rewrite Es in Hr. rewrite decide_True in Hr by left.
  rewrite decide_False in Hr by done. destruct Hr as [_ Hf].
  destruct fly as [|b fly]; [right|left; simpl; lia]. unfold hs_step. rewrite Es.
  rewrite app_nil_r in Hf. rewrite decide_True by (rewrite Hf; lia). by eexists.
Qed.

Lemma script_nodup e o : script e `suffix_of` hs_script o → NoDup (script e).
Proof.
  intros [k E]. assert (NoDup (hs_script o)) as Hn by (destruct o; vm_compute; repeat constructor; set_solver).
  rewrite E in Hn. by apply NoDup_app in Hn as (_&_&?).
Qed.

Lemma hs_step_script e e' bs : hs_step e = Some (e', bs) → ∃ op, script e = op :: script e'.
Proof. unfold hs_step. destruct (script e) as [|[] ops]; intros; simplify_option_eq; eauto. Qed.

Lemma suffix_tail {A} (op : A) l l' : op :: l `suffix_of` l' → l `suffix_of` l'.
Proof. intros Hs. etrans; [|exact Hs]. by apply suffix_cons_r. Qed.

Lemma link_step_ok side oa ob l x x' :
  LinkOk side oa ob x → link_step l x = Some x' → LinkOk side oa ob x'.
Proof.
  intros [[Hoa Hob] Hb Ha Hsa Hsb] Hs. destruct l as [| |k|k]; simpl in Hs.
  - destruct (hs_step (end_a x)) as [[e bs]|] eqn:He; simplify_eq/=.
    pose proof (hs_step_script _ _ _ He) as [op Eop].
    eapply (flow_step _ (end_b x) (end_b x)) in He as (Ho&?&?); [|by eapply script_nodup|done|done].
    split; simpl; try (split; congruence); try done; rewrite Eop in Hsa; by eapply suffix_tail.
  - destruct (hs_step (end_b x)) as [[e bs]|] eqn:He; simplify_eq/=.
    pose proof (hs_step_script _ _ _ He) as [op Eop].
    eapply (flow_step _ (end_a x) (end_a x)) in He as (Ho&?&?); [|by eapply script_nodup|done|done].
    split; simpl; try (split; congruence); try done; rewrite Eop in Hsb; by eapply suffix_tail.
  - case_decide; simplify_eq. split; simpl; try done. by apply flow_deliver.
  - case_decide; simplify_eq. split; simpl; try done. by apply flow_deliver.
Qed.

Lemma link_run_ok side oa ob ls x x' :
  LinkOk side oa ob x → link_run ls x = Some x' → LinkOk side oa ob x'.
Proof.
  revert x. induction ls as [|l ls IH]; intros x Hx Hr; simplify_eq/=; [done|].
  destruct (link_step l x) as [x1|] eqn:E; simplify_eq/=. eapply IH; [by eapply link_step_ok|done].
Qed.

(** What is left to do: operations, and bytes to deliver. *)
Definition hs_work (e : End) : nat := sum_list_with (λ op, match op with WriteOut => 11 | ReadIn => 1 end) (script e).
Definition link_work (x : Link) : nat :=
  hs_work (end_a x) + hs_work (end_b x) + length (fly_a x) + length (fly_b x).

Lemma hs_step_work e e' bs :
  hs_step e = Some (e', bs) → length (out e) = 10 → hs_work e' + length bs < hs_work e.
Proof.
  unfold hs_step, hs_work. destruct (script e) as [|[] ops]; [done|..]; intros Hs Hl; simplify_option_eq; simpl; lia.
Qed.

Lemma link_step_work side oa ob l x x' :
  LinkOk side oa ob x → link_step l x = Some x' → link_work x' < link_work x.
Proof.
  intros [_ [Hla _] [Hlb _] _ _] Hs. unfold link_work. destruct l as [| |k|k]; simpl in Hs.
  - destruct (hs_step (end_a x)) as [[e bs]|] eqn:He; simplify_eq/=.
    apply hs_step_work in He; [|done]. rewrite length_app. lia.
  - destruct (hs_step (end_b x)) as [[e bs]|] eqn:He; simplify_eq/=.
    apply hs_step_work in He; [|done]. rewrite length_app. lia.
  - case_decide; simplify_eq/=. unfold hs_work. simpl. rewrite length_drop. lia.
  - case_decide; simplify_eq/=. unfold hs_work. simpl. rewrite length_drop. lia.
Qed.

Lemma link_run_work side oa ob ls x x' :
  LinkOk side oa ob x → link_run ls x = Some x' → length ls + link_work x' ≤ link_work x.
Proof.
  revert x. induction ls as [|l ls IH]; intros x Hx Hr; simplify_eq/=; [lia|].
  destruct (link_step l x) as [x1|] eqn:E; simplify_eq/=.
  pose proof (link_step_work _ _ _ _ _ _ Hx E). specialize (IH _ (link_step_ok _ _ _ _ _ _ Hx E) Hr). lia.
Qed.

(** What the labels can do. *)
Lemma link_moves x :
  (0 < length (fly_a x) ∨ is_Some (hs_step (end_a x)) ∨ 0 < length (fly_b x) ∨ is_Some (hs_step (end_b x))) →
  ∃ l, is_Some (link_step l x).
Proof.
  intros [Ha|[[[e bs] Ha]|[Hb|[[e bs] Hb]]]].
  - exists (ArriveA 1). simpl. rewrite decide_True by lia. by eexists.
  - exists OpA. simpl. rewrite Ha. by eexists.
  - exists (ArriveB 1). simpl. rewrite decide_True by lia. by eexists.
  - exists OpB. simpl. rewrite Hb. by eexists.
Qed.

Lemma hs_step_write e ops : script e = WriteOut :: ops → is_Some (hs_step e).
Proof. intros E. unfold hs_step. rewrite E. by eexists. Qed.

Lemma suffix_of_two {A} (l : list A) (a b : A) : l `suffix_of` [a; b] → l = [a; b] ∨ l = [b] ∨ l = [].
Proof.
  intros [k E]. destruct k as [|x [|y [|z k]]]; simplify_eq/=; auto.
Qed.

(** While an end has something to do, a step is possible: no deadlock. *)
Lemma link_progress side oa ob x :
  LinkOk side oa ob x → ¬ (script (end_a x) = [] ∧ script (end_b x) = []) → ∃ l, is_Some (link_step l x).
Proof.
  intros [_ Hb Ha Hsa Hsb] Hne. apply link_moves.
  assert (Hwr : ∀ p q fly_p fly_q,
    flow_ok p q fly_q → flow_ok q p fly_p → ¬ (script p = [] ∧ script q = []) →
    script p `suffix_of` [WriteOut; ReadIn] → script q `suffix_of` [ReadIn; WriteOut] →
    0 < length fly_p ∨ is_Some (hs_step p) ∨ 0 < length fly_q ∨ is_Some (hs_step q)).
  { intros p q fp fq Hq Hp Hn Hsp Hsq.
    apply suffix_of_two in Hsp as [Ep|[Ep|Ep]]; [by eauto using hs_step_write|..];
      apply suffix_of_two in Hsq as [Eq|[Eq|Eq]]; try by eauto 6 using hs_step_write.
    - destruct (flow_progress _ _ _ _ Hq Eq); [rewrite Ep; set_solver|auto..].
    - destruct (flow_progress _ _ _ _ Hp Ep); [rewrite Eq; set_solver|auto..].
    - destruct (flow_progress _ _ _ _ Hq Eq); [rewrite Ep; set_solver|auto..].
    - by destruct Hn. }
  destruct side; unfold hs_script in Hsa, Hsb; simpl in Hsa, Hsb.
  - destruct (Hwr (end_b x) (end_a x) (fly_b x) (fly_a x)) as [|[|[|]]]; tauto.
  - apply Hwr; tauto.
Qed.

Lemma link_start_ok side ia pa ib pb :
  LinkOk side (introduction ia pa) (introduction ib pb)
    (mkLink (hs_start side ia pa) (hs_start (side_not side) ib pb) [] []).
Proof. destruct side; (split; [done|split; [apply length_introduction|done]|split; [apply length_introduction|done]|done|done]). Qed.

(** The DHT handshake always completes and tells the truth. Two ends of a connection, of
    opposite sides, run [perform_handshake] over a stream that delivers in order and in pieces of any
    size: the exchange never deadlocks and takes at most 24 steps, and in every state an end that has
    finished has recorded the other's node id, and the other's listening port at the address of the
    connection. *)
Theorem handshake_introduces side ia pa ib pb ls x :
  (ia < 2 ^ 64)%N → (ib < 2 ^ 64)%N → (pa < 2 ^ 16)%N → (pb < 2 ^ 16)%N →
  link_run ls (mkLink (hs_start side ia pa) (hs_start (side_not side) ib pb) [] []) = Some x →
  length ls ≤ 24 ∧
  (script (end_a x) = [] ∧ script (end_b x) = [] ∨ ∃ l, is_Some (link_step l x)) ∧
  (script (end_a x) = [] → ∃ b, buf (end_a x) = Some b ∧
     ∀ d addr, peer_info (record_peer d addr b) !! addr = Some (ib, socket_addr (ip addr) pb)) ∧
  (script (end_b x) = [] → ∃ b, buf (end_b x) = Some b ∧
     ∀ d addr, peer_info (record_peer d addr b) !! addr = Some (ia, socket_addr (ip addr) pa)).
Proof.
  intros Hia Hib Hpa Hpb Hr. pose proof (link_start_ok side ia pa ib pb) as H0.
  pose proof (link_run_ok _ _ _ _ _ _ H0 Hr) as Hx. split_and!.
  - pose proof (link_run_work _ _ _ _ _ _ H0 Hr) as Hw. unfold link_work at 2 in Hw.
    destruct side; unfold hs_work in Hw; simpl in Hw; lia.
  - destruct (decide (script (end_a x) = [] ∧ script (end_b x) = [])); [by left|right].
    by eapply link_progress.
  - intros E. destruct Hx as [[_ Ho] _ [_ Hf] _ _]. rewrite E, decide_False, Ho in Hf by set_solver.
    eexists. split; [apply Hf|]. intros. by apply record_introduction.
  - intros E. destruct Hx as [[Ho _] [_ Hf] _ _ _]. rewrite E, decide_False, Ho in Hf by set_solver.
    eexists. split; [apply Hf|]. intros. by apply record_introduction.
Qed.

Lemma handshake_introduces_witness :
  ∃ ls x, link_run ls (mkLink (hs_start Responder 7 4000) (hs_start Initiator 9 5000) [] []) = Some x ∧
    script (end_a x) = [] ∧ length ls ≤ 24.
Proof.
  eexists [OpA; ArriveB 3; ArriveB 7; OpB; OpB; ArriveA 10; OpA], _. split; [vm_compute; reflexivity|].
  split; [reflexivity|].
  eapply (handshake_introduces Responder 7 4000 9 5000); [reflexivity..|vm_compute; reflexivity].
Defined.
