(* ===== verification/Lookup.v ===== *)
(** * Lookups and RPCs of the DHT node

    Over the transition system of [Kademlia]: the pending-RPC map and the oneshot channels agree
    with the calls that are waiting, so answers are correlated and nothing is leaked; and every
    lookup comes to an end, because it never queries an id twice. *)

From S2P Require Import Prelude Net Text Kademlia.

Open Scope nat_scope.

(** ** RPCs *)

(** The RPC a task is waiting for: its id and its channel. *)
Definition awaiting (p : Pc) : option (N * nat) :=
  match p with
  | Await r ch _ _ | StoreAwait r ch _ => Some (r, ch)
  | _ => None
  end.

Definition is_response (m : KademliaMessage) : bool :=
  match m with FindNodeResult _ _ | StoreResult _ | FindValueResult _ _ => true | _ => false end.

(** The state of the channel of a waiting call: its sender is pending, or the response with its id
    has arrived. *)
Definition answered (pend : gmap N nat) (r : N) (ch : nat) (c : Chan) : Prop :=
  match c with
  | Waiting => pend !! r = Some ch
  | Ready m => rpc_id m = r ∧ is_response m = true
  | SenderDropped | Closed => False
  end.

Abbreviation awaits aw i r ch := (aw !! i = Some (Some (r, ch))).

(** The RPC part of the state, [aw] being what each task waits for. *)
Record RpcInv (next : N) (pend : gmap N nat) (chs : list Chan) (aw : list (option (N * nat))) : Prop := {
  ri_next : next = (N.of_nat (length chs) mod u64_max)%N;
  ri_await i r ch :
    awaits aw i r ch → r = N.of_nat ch ∧ ∃ c, chs !! ch = Some c ∧ answered pend r ch c;
  ri_distinct i j r r' ch : awaits aw i r ch → awaits aw j r' ch → i = j;
  ri_pending r ch : pend !! r = Some ch → chs !! ch = Some Waiting ∧ ∃ i, awaits aw i r ch;
}.

Section rpc_inv.
Implicit Types (next : N) (pend : gmap N nat) (chs : list Chan) (aw : list (option (N * nat))).

Lemma ri_next_fresh next pend chs aw :
  RpcInv next pend chs aw → (N.of_nat (length chs) < u64_max)%N →
  next = N.of_nat (length chs) ∧ pend !! next = None.
Proof.
  intros [Hn Ha _ Hp] Hlt. assert (E : next = N.of_nat (length chs)) by (rewrite Hn; by apply N.mod_small).
  split; [done|]. destruct (pend !! next) as [ch|] eqn:Hc; [|done].
  apply Hp in Hc as [Hch [i Hi]]. apply Ha in Hi as [Hr _]. apply lookup_lt_Some in Hch. lia.
Qed.

(** The waiting calls change by appending a task, or at one position. *)
Lemma rpc_inv_spawn next pend chs aw :
  RpcInv next pend chs aw → RpcInv next pend chs (aw ++ [None]).
Proof.
  assert (Hsn : ∀ i r ch, awaits (aw ++ [None]) i r ch → awaits aw i r ch).
  { intros i r ch [Hi|[_ Hi]]%lookup_app_Some; [done|]. by apply list_lookup_singleton_Some in Hi as [_ ?]. }
  intros [Hn Ha Hd Hp]. split; [done|eauto|eauto|].
  intros r ch (Hc&i&Hi)%Hp. split; [done|]. exists i. by apply lookup_app_l_Some.
Qed.

Lemma rpc_inv_begin next pend chs aw i :
  RpcInv next pend chs aw → (N.of_nat (length chs) < u64_max)%N → aw !! i = Some None →
  RpcInv (wrapping_add next 1) (<[next := length chs]> pend) (chs ++ [Waiting])
    (<[i := Some (next, length chs)]> aw).
Proof.
  intros HI Hlt Hi. destruct (ri_next_fresh _ _ _ _ HI Hlt) as [Hnx Hfresh]. destruct HI as [Hn Ha Hd Hp].
  assert (Hil : i < length aw) by (by eapply lookup_lt_Some).
  assert (Hold : ∀ j r ch, awaits aw j r ch → ch < length chs ∧ r ≠ next).
  { intros j r ch (->&c&Hc%lookup_lt_Some&_)%Ha. lia. }
  split.
  - rewrite length_app, Hnx. unfold wrapping_add. simpl. f_equal. lia.
  - intros j r ch. destruct (decide (i = j)) as [<-|Hne].
    + rewrite list_lookup_insert_eq by done. intros [= <- <-]. split; [done|]. exists Waiting.
      split; [by apply list_lookup_middle|]. apply lookup_insert_eq.
    + rewrite list_lookup_insert_ne by done. intros Hj. destruct (Hold _ _ _ Hj) as [_ Hr].
      apply Ha in Hj as (E&c&Hc&Hans). split; [done|]. exists c. split; [by apply lookup_app_l_Some|].
      destruct c; simpl in *; try done. by rewrite lookup_insert_ne.
  - intros j k r r' ch. rewrite !list_lookup_insert_Some.
    intros [(<-&[= <- <-]&_)|[Hne Hj]] [(<-&[= <-]&_)|[Hne' Hk]]; [done|..].
    + apply Hold in Hk. lia.
    + subst. apply Hold in Hj. lia.
    + by eapply Hd.
  - intros r ch. rewrite lookup_insert_Some. intros [[<- <-]|[Hne Hr]].
    + split; [by apply list_lookup_middle|]. exists i. by rewrite list_lookup_insert_eq.
    + apply Hp in Hr as [Hc [j Hj]]. split; [by apply lookup_app_l_Some|]. exists j.
      rewrite list_lookup_insert_ne; [done|]. intros ->. congruence.
Qed.

(** A call whose message was refused by [unicast_fast]: its channel is never used. *)
Lemma rpc_inv_refused next pend chs aw :
  RpcInv next pend chs aw → (N.of_nat (length chs) < u64_max)%N →
  RpcInv (wrapping_add next 1) pend (chs ++ [Closed]) aw.
Proof.
  intros HI Hlt. destruct (ri_next_fresh _ _ _ _ HI Hlt) as [Hnx _]. destruct HI as [Hn Ha Hd Hp]. split.
  - rewrite length_app, Hnx. unfold wrapping_add. simpl. f_equal. lia.
  - intros j r ch (E&c&Hc&Hans)%Ha. split; [done|]. exists c. split; [by apply lookup_app_l_Some|done].
  - done.
  - intros r ch (Hc&j&Hj)%Hp. split; [by apply lookup_app_l_Some|eauto].
Qed.

Lemma rpc_inv_response next pend chs aw m ch :
  RpcInv next pend chs aw → pend !! rpc_id m = Some ch → is_response m = true →
  RpcInv next (delete (rpc_id m) pend) (alter (oneshot_send m) ch chs) aw.
Proof.
  intros [Hn Ha Hd Hp] Hm Hresp. destruct (Hp _ _ Hm) as [Hc [i Hi]]. split.
  - by rewrite length_alter.
  - intros j r ch' Hj. destruct (Ha _ _ _ Hj) as (E&c&Hc'&Hans). split; [done|].
    destruct (decide (ch' = ch)) as [->|Hne].
    + exists (Ready m). rewrite list_lookup_alter_eq, Hc. split; [done|]. split; [|done].
      assert (i = j) as -> by (by eapply Hd). congruence.
    + exists c. rewrite list_lookup_alter_ne by done. split; [done|]. destruct c; simpl in *; try done.
      rewrite lookup_delete_ne; [done|]. intros E'. congruence.
  - done.
  - intros r ch' [Hne (Hc'&j&Hj)%Hp]%lookup_delete_Some. split; [|eauto].
    rewrite list_lookup_alter_ne; [done|]. intros ->. apply Hne. assert (i = j) as -> by (by eapply Hd). congruence.
Qed.

Lemma rpc_inv_end next pend chs chs' aw i r ch :
  RpcInv next pend chs aw → awaits aw i r ch →
  length chs' = length chs → (∀ k, k ≠ ch → chs' !! k = chs !! k) →
  RpcInv next (delete r pend) chs' (<[i := None]> aw).
Proof.
  intros [Hn Ha Hd Hp] Hi Hlen Hsame. assert (i < length aw) by (by eapply lookup_lt_Some).
  assert (Hoth : ∀ j r' ch', awaits (<[i := None]> aw) j r' ch' → awaits aw j r' ch' ∧ ch' ≠ ch).
  { intros j r' ch' [(->&?&_)|[Hne Hj]]%list_lookup_insert_Some; [done|]. split; [done|].
    intros ->. apply Hne. by eapply Hd. }
  split.
  - by rewrite Hlen.
  - intros j r' ch' [Hj Hne]%Hoth. destruct (Ha _ _ _ Hi) as [Er _].
    apply Ha in Hj as (E&c&Hc&Hans). split; [done|]. exists c. rewrite Hsame by done. split; [done|].
    destruct c; simpl in *; try done. rewrite lookup_delete_ne; [done|]. intros ->. lia.
  - intros j k r' r'' ch' [Hj _]%Hoth [Hk _]%Hoth. by eapply Hd.
  - intros r' ch' [Hne (Hc&j&Hj)%Hp]%lookup_delete_Some.
    assert (j ≠ i) by (intros ->; congruence).
    split; [|exists j; by rewrite list_lookup_insert_ne].
    rewrite Hsame; [done|]. intros ->. assert (i = j) by (by eapply Hd). congruence.
Qed.
End rpc_inv.

(** *** The system *)

Section system.
Context `{AddrText}.

Definition waits (s : Sys) : list (option (N * nat)) := (λ t, awaiting (pc t)) <$> tasks s.

Definition rpcs_ok (s : Sys) : Prop :=
  RpcInv (next_rpc_id (dht s)) (pending_rpcs (dht s)) (chans s) (waits s).

(** Operations that leave the RPC bookkeeping alone. *)
Definition same_rpcs (d d' : Dht) : Prop :=
  next_rpc_id d' = next_rpc_id d ∧ pending_rpcs d' = pending_rpcs d.

Lemma same_rpcs_add d i a : same_rpcs d (add_contact d i a).
Proof. unfold add_contact. by repeat case_match. Qed.
Lemma same_rpcs_on_connect d a : same_rpcs d (on_connect d a).
Proof. unfold on_connect. repeat case_match; [apply same_rpcs_add|done]. Qed.
Lemma same_rpcs_on_disconnect d a : same_rpcs d (on_disconnect d a).
Proof. unfold on_disconnect. by repeat case_match. Qed.
Lemma same_rpcs_ensure d a w d' ok : ensure_connected d a w = Some (d', ok) → same_rpcs d d'.
Proof. unfold ensure_connected. intros. repeat case_match; simplify_eq; auto using same_rpcs_on_connect. all: done. Qed.

Lemma same_rpcs_absorb cs d sl d' sl' : absorb_contacts d cs sl = (d', sl') → same_rpcs d d'.
Proof.
  unfold absorb_contacts. revert d sl. induction cs as [|[i a] cs IH]; intros d sl; cbn [fold_left absorb_one].
  { by intros [= <- _]. }
  destruct (i =? dht_id d)%N; [apply IH|]. destruct (addr_parse a) as [addr|]; [|apply IH].
  intros [E1 E2]%IH. destruct (same_rpcs_add d i addr). unfold same_rpcs. split; congruence.
Qed.

Lemma same_rpcs_reply g d sl q m d' p :
  lookup_reply g d sl q m = (d', p) → same_rpcs d d' ∧ awaiting p = None.
Proof.
  intros E. destruct g, m; simpl in E; repeat case_match; simplify_eq;
    (split; [|done]); try done; by eapply same_rpcs_absorb.
Qed.

Lemma rpcs_ok_same s s' :
  rpcs_ok s → same_rpcs (dht s) (dht s') → chans s' = chans s → waits s' = waits s → rpcs_ok s'.
Proof. unfold rpcs_ok, same_rpcs. intros ? [-> ->] -> ->. done. Qed.

Lemma reclaim_spec next pend chs aw d i r ch :
  RpcInv next pend chs aw → next_rpc_id d = next → pending_rpcs d = pend → awaits aw i r ch →
  ∃ d' chs', reclaim d chs r = (d', chs') ∧ next_rpc_id d' = next ∧
    pending_rpcs d' = delete r pend ∧ length chs' = length chs ∧ ∀ k, k ≠ ch → chs' !! k = chs !! k.
Proof.
  intros HI Hn <- Hi. unfold reclaim. destruct (pending_rpcs d !! r) as [ch'|] eqn:Hr.
  - do 2 eexists. split; [done|]. rewrite length_alter. split_and!; [done|done|done|].
    intros k Hk. rewrite list_lookup_alter_ne; [done|]. intros ->.
    apply (ri_pending _ _ _ _ HI) in Hr as [_ [j Hj]].
    apply (ri_await _ _ _ _ HI) in Hj as [E1 _], Hi as [E2 _]. lia.
  - do 2 eexists. split; [done|]. by rewrite delete_id.
Qed.

(** The two ways a call can begin. *)
Lemma rpc_call_spec d chs aw w d' chs' r ch ok i :
  RpcInv (next_rpc_id d) (pending_rpcs d) chs aw → (N.of_nat (length chs) < u64_max)%N →
  aw !! i = Some None → rpc_call d chs w = Some (d', chs', r, ch, ok) →
  RpcInv (next_rpc_id d') (pending_rpcs d') chs' (<[i := if ok : bool then Some (r, ch) else None]> aw).
Proof.
  intros HI Hlt Hi Hc. destruct (ri_next_fresh _ _ _ _ HI Hlt) as [_ Hfresh].
  unfold rpc_call, rpc_begin in Hc. rewrite Hfresh in Hc. destruct w; simplify_eq/=.
  - by apply rpc_inv_begin.
  - unfold reclaim in Hc. simpl in Hc. rewrite lookup_insert_eq in Hc. simplify_eq/=.
    rewrite delete_insert_id by done. rewrite (list_insert_id aw i None) by done.
    rewrite alter_app_r_alt, Nat.sub_diag by done. rewrite insert_app_r_alt, Nat.sub_diag by done.
    by apply rpc_inv_refused.
Qed.

Lemma rpc_end_spec d chs aw r ch w res d' chs' i :
  RpcInv (next_rpc_id d) (pending_rpcs d) chs aw → awaits aw i r ch →
  rpc_end d chs r ch w = Some (res, d', chs') →
  RpcInv (next_rpc_id d') (pending_rpcs d') chs' (<[i := None]> aw).
Proof.
  intros HI Hi He. unfold rpc_end in He. destruct (chs !! ch) as [c|]; simplify_eq/=.
  destruct (rpc_wait c w) as [o|]; simplify_eq/=.
  destruct (reclaim_spec _ _ _ _ d i r ch HI eq_refl eq_refl Hi) as (d1&chs1&Er&En&Ep&Hlen&Hsame).
  rewrite Er in He. simplify_eq/=. rewrite En, Ep. eapply rpc_inv_end; [done|done|by rewrite length_insert|].
  intros k Hk. rewrite list_lookup_insert_ne by done. by apply Hsame.
Qed.

Lemma waits_insert s i g p :
  (λ t, awaiting (pc t)) <$> <[i := mkTask g p]> (tasks s) = <[i := awaiting p]> (waits s).
Proof. unfold waits. by rewrite list_fmap_insert. Qed.

Lemma waits_lookup s i t : tasks s !! i = Some t → waits s !! i = Some (awaiting (pc t)).
Proof. intros Hi. unfold waits. by rewrite list_lookup_fmap, Hi. Qed.

Lemma rpc_call_length d chs w d' chs' r ch ok :
  rpc_call d chs w = Some (d', chs', r, ch, ok) → length chs < length chs'.
Proof.
  unfold rpc_call, rpc_begin, reclaim. intros. repeat case_match; simplify_eq/=;
    rewrite ?length_insert, ?length_alter, length_app, ?length_alter; simpl; lia.
Qed.

Lemma task_step_rpcs s t w d chs out p i :
  rpcs_ok s → tasks s !! i = Some t → task_step s t w = Some (d, chs, out, p) →
  (N.of_nat (length chs) ≤ u64_max)%N →
  RpcInv (next_rpc_id d) (pending_rpcs d) chs (<[i := awaiting p]> (waits s)).
Proof.
  intros HI Hi E Hlen. apply waits_lookup in Hi. unfold rpcs_ok in HI. unfold task_step in E.
  destruct (pc t) as [sl q|c sl q|c sl q|r ch sl q|[|c rest]|c rest|r ch rest|o] eqn:Hp; simpl in Hi.
  - assert (awaiting p = None ∧ d = dht s ∧ chs = chans s) as (->&->&->).
    { repeat case_match; simplify_eq; auto. by destruct (goal t). }
    by rewrite list_insert_id.
  - destruct (ensure_connected _ _ _) as [[d1 ok]|] eqn:Ee; simplify_eq/=.
    apply same_rpcs_ensure in Ee as [-> ->]. destruct ok; simpl; by rewrite list_insert_id.
  - destruct (rpc_call _ _ _) as [[[[[d1 c1] r] ch] ok]|] eqn:Ee; simplify_eq/=.
    pose proof (rpc_call_length _ _ _ _ _ _ _ _ Ee).
    eapply (rpc_call_spec _ _ _ _ _ _ _ _ _ i) in Ee; [|done| |done]; destruct ok; simplify_eq/=; try done; lia.
  - destruct (rpc_end _ _ _ _ _) as [[[res d1] c1]|] eqn:Ee; simplify_eq/=.
    eapply (rpc_end_spec _ _ _ _ _ _ _ _ _ i) in Ee; [|done|done]. destruct res as [m|e]; simplify_eq/=; [|done].
    destruct (lookup_reply _ _ _ _ _) as [d2 p2] eqn:El. simplify_eq/=.
    apply same_rpcs_reply in El as [[-> ->] ->]. done.
  - repeat case_match; simplify_eq. simpl. by rewrite list_insert_id.
  - destruct (ensure_connected _ _ _) as [[d1 ok]|] eqn:Ee; simplify_eq/=.
    apply same_rpcs_ensure in Ee as [-> ->]. destruct ok; simpl; by rewrite list_insert_id.
  - destruct (rpc_call _ _ _) as [[[[[d1 c1] r] ch] ok]|] eqn:Ee; simplify_eq/=.
    pose proof (rpc_call_length _ _ _ _ _ _ _ _ Ee).
    eapply (rpc_call_spec _ _ _ _ _ _ _ _ _ i) in Ee; [|done| |done]; destruct ok; simplify_eq/=; try done; lia.
  - destruct (rpc_end _ _ _ _ _) as [[[res d1] c1]|] eqn:Ee; simplify_eq/=.
    by eapply (rpc_end_spec _ _ _ _ _ _ _ _ _ i) in Ee.
  - done.
Qed.

Lemma rpcs_ok_received s a m d chs o :
  rpcs_ok s → process_message (dht s) (chans s) a m = (d, chs, o) →
  RpcInv (next_rpc_id d) (pending_rpcs d) chs (waits s).
Proof.
  intros HI E. unfold rpcs_ok in HI. destruct m as [r i t|r cs|r k v|r|r k|r o']; simplify_eq/=; try done.
  - by destruct (same_rpcs_add (dht s) i (match peer_info (dht s) !! a with Some (_, x) => x | None => a end)) as [-> ->].
  - destruct (pending_rpcs (dht s) !! r) as [ch|] eqn:Hr; simplify_eq/=; [|done].
    by apply (rpc_inv_response _ _ _ _ (FindNodeResult r cs)).
  - destruct (pending_rpcs (dht s) !! r) as [ch|] eqn:Hr; simplify_eq/=; [|done].
    by apply (rpc_inv_response _ _ _ _ (StoreResult r)).
  - destruct (pending_rpcs (dht s) !! r) as [ch|] eqn:Hr; simplify_eq/=; [|done].
    by apply (rpc_inv_response _ _ _ _ (FindValueResult r o')).
Qed.

Lemma step_rpcs_ok l s s' :
  rpcs_ok s → step l s = Some s' → (N.of_nat (length (chans s')) ≤ u64_max)%N → rpcs_ok s'.
Proof.
  intros HI Hs Hlen. destruct l as [a b|a|a|a m acc|g|j w]; simplify_eq/=.
  - by eapply rpcs_ok_same.
  - eapply rpcs_ok_same; [done|apply same_rpcs_on_connect|done|done].
  - eapply rpcs_ok_same; [done|apply same_rpcs_on_disconnect|done|done].
  - destruct (process_message _ _ _ _) as [[d chs] o] eqn:E. simplify_eq/=.
    exact (rpcs_ok_received _ _ _ _ _ _ HI E).
  - unfold rpcs_ok, waits. simpl. rewrite fmap_app. by apply rpc_inv_spawn.
  - destruct (tasks s !! j) as [t|] eqn:Ht; simplify_eq/=.
    destruct (task_step s t w) as [[[[d chs] out] p]|] eqn:Hw; simplify_eq/=.
    unfold rpcs_ok, waits. cbn [tasks dht chans]. rewrite waits_insert. by eapply task_step_rpcs.
Qed.
Lemma process_message_chans d chs a m d' chs' o :
  process_message d chs a m = (d', chs', o) → length chs' = length chs.
Proof. unfold process_message. intros. repeat case_match; simplify_eq; by rewrite ?length_alter. Qed.

Lemma rpc_end_length d chs r ch w res d' chs' :
  rpc_end d chs r ch w = Some (res, d', chs') → length chs' = length chs.
Proof.
  unfold rpc_end, reclaim. intros E. simplify_option_eq.
  repeat case_match; simplify_eq/=; by rewrite ?length_insert, ?length_alter.
Qed.

Lemma step_chans l s s' : step l s = Some s' → length (chans s) ≤ length (chans s').
Proof.
  intros Hs. destruct l as [a b|a|a|a m acc|g|j w]; simplify_eq/=; try done.
  - destruct (process_message _ _ _ _) as [[d chs] o] eqn:E. simplify_eq/=.
    by rewrite (process_message_chans _ _ _ _ _ _ _ E).
  - destruct (tasks s !! j) as [t|]; simplify_eq/=.
    destruct (task_step s t w) as [[[[d chs] out] p]|] eqn:Hw; simplify_eq/=. unfold task_step in Hw.
    destruct (pc t) as [sl q|c sl q|c sl q|r ch sl q|[|c rest]|c rest|r ch rest|o]; simpl in Hw;
      try (by repeat case_match; simplify_eq).
    all: try (destruct (ensure_connected _ _ _) as [[? ?]|]; by simplify_eq/=).
    all: try (destruct (rpc_call _ _ _) as [[[[[d1 c1] r] ch] []]|] eqn:Ee; simplify_eq/=;
              apply rpc_call_length in Ee; lia).
    all: destruct (rpc_end _ _ _ _ _) as [[[res d1] c1]|] eqn:Ee; simplify_eq/=;
         apply rpc_end_length in Ee; repeat case_match; simplify_eq; lia.
Qed.

Lemma run_chans ls s s' : run ls s = Some s' → length (chans s) ≤ length (chans s').
Proof.
  intros Hr. eapply (run_ind (λ x, length (chans s) ≤ length (chans x))); [|done|done].
  intros l s1 s2 _ ? Hs%step_chans. lia.
Qed.

Lemma run_rpcs_ok ls s s' :
  rpcs_ok s → run ls s = Some s' → (N.of_nat (length (chans s')) ≤ u64_max)%N → rpcs_ok s'.
Proof.
  revert s. induction ls as [|l ls IH]; intros s HI Hr Hlen; simplify_eq/=; [done|].
  destruct (step l s) as [s1|] eqn:E; simplify_eq/=. apply (IH s1); [|done|done].
  eapply step_rpcs_ok; [done|done|]. apply run_chans in Hr. lia.
Qed.

Lemma boot_rpcs_ok self : rpcs_ok (boot self).
Proof. by split. Qed.

(** C30. RPCs are correlated and reclaimed. As long as a node has made at most [2^64] calls (after
    which the ids would repeat), an id is pending exactly while one call with that id waits for its
    answer, so nothing is leaked, whatever order answers, late answers, timeouts and send failures
    come in; and when a call ends, its id is no longer pending and it has either the response that
    carries its own id, or its two seconds had elapsed: it never sees the answer to another call, a
    request, or a dropped channel. *)
Theorem rpc_correlated self ls s :
  run ls (boot self) = Some s → (N.of_nat (length (chans s)) ≤ u64_max)%N →
  (∀ r, is_Some (pending_rpcs (dht s) !! r) ↔
     ∃ i t ch, tasks s !! i = Some t ∧ awaiting (pc t) = Some (r, ch) ∧ chans s !! ch = Some Waiting) ∧
  (∀ i t r ch w res d chs,
     tasks s !! i = Some t → awaiting (pc t) = Some (r, ch) →
     rpc_end (dht s) (chans s) r ch w = Some (res, d, chs) →
     pending_rpcs d !! r = None ∧
     ((∃ m, res = Ok m ∧ rpc_id m = r ∧ is_response m = true) ∨
      (w = Elapsed ∧ err_kind res = Some TimedOut))).
Proof.
  intros Hr Hlen. pose proof (run_rpcs_ok _ _ _ (boot_rpcs_ok self) Hr Hlen) as HI.
  assert (Hw : ∀ i t r ch, tasks s !! i = Some t → awaiting (pc t) = Some (r, ch) → awaits (waits s) i r ch).
  { intros i t r ch Ht E. by rewrite (waits_lookup _ _ _ Ht), E. }
  unfold rpcs_ok in HI. split.
  - intros r. split.
    + intros [ch Hp]. apply (ri_pending _ _ _ _ HI) in Hp as [Hc [i Hi]].
      unfold waits in Hi. rewrite list_lookup_fmap in Hi. destruct (tasks s !! i) as [t|] eqn:Ht; simplify_eq/=.
      by exists i, t, ch.
    + intros (i&t&ch&Ht&Ha&Hc). destruct (ri_await _ _ _ _ HI _ _ _ (Hw _ _ _ _ Ht Ha)) as (_&c&Hc'&Hans).
      simplify_eq. by exists ch.
  - intros i t r ch w res d chs Ht Ha He. specialize (Hw _ _ _ _ Ht Ha).
    destruct (ri_await _ _ _ _ HI _ _ _ Hw) as (_&c&Hc&Hans).
    destruct (reclaim_spec _ _ _ _ (dht s) i r ch HI eq_refl eq_refl Hw) as (d1&chs1&Er&_&Ep&_).
    unfold rpc_end in He. rewrite Hc in He. simpl in He. destruct c, w; simplify_eq/=; try done;
      rewrite Er in He; simplify_eq/=; rewrite Ep, lookup_delete_eq; (split; [done|]).
    + right. done.
    + left. destruct Hans. by eexists.
Qed.

(** ** Termination *)

(** The contact ids a message, and a step from outside, bring to the node. *)
Definition msg_ids (m : KademliaMessage) : gset N :=
  match m with
  | FindNode _ sender_id _ => {[sender_id]}
  | FindNodeResult _ cs | FindValueResult _ (Contacts cs) => list_to_set cs.*1
  | _ => ∅
  end.

Definition label_ids (l : Label) : gset N :=
  match l with
  | Handshaken _ buf => {[from_be_bytes (take 8 buf)]}
  | Received _ m _ => msg_ids m
  | _ => ∅
  end.

Definition heard (ls : list Label) : gset N := ⋃ (label_ids <$> ls).

(** Contacts whose ids are in [U]. *)
Definition within (U : gset N) (l : list Contact) : Prop := ∀ c, c ∈ l → c_id c ∈ U.

Definition queried_of (p : Pc) : gset N :=
  match p with
  | Pick _ q | Ensure _ _ q | Call _ _ q | Await _ _ _ q => q
  | _ => ∅
  end.

(** Everything the node knows has an id in [U]. *)
Record Known (U : gset N) (s : Sys) : Prop := {
  kn_table : within U (routing_table (dht s));
  kn_peers a p : peer_info (dht s) !! a = Some p → p.1 ∈ U;
  kn_chans m : Ready m ∈ chans s → msg_ids m ⊆ U;
  kn_tasks i t : tasks s !! i = Some t → within U (shortlist_of (pc t)) ∧ queried_of (pc t) ⊆ U;
}.

Definition known_dht (U : gset N) (d : Dht) : Prop :=
  within U (routing_table d) ∧ ∀ a p, peer_info d !! a = Some p → p.1 ∈ U.

Definition known_chans (U : gset N) (chs : list Chan) : Prop := ∀ m, Ready m ∈ chs → msg_ids m ⊆ U.

Lemma known_add U d i a : known_dht U d → i ∈ U → known_dht U (add_contact d i a).
Proof.
  intros [Ht Hp] Hi. unfold add_contact. repeat case_match; [done|done|]. split; [|done].
  intros c [Hc|Hc%list_elem_of_singleton]%elem_of_app; [by apply Ht|]. by subst.
Qed.

Lemma known_on_connect U d a : known_dht U d → known_dht U (on_connect d a).
Proof.
  intros Hd. unfold on_connect. destruct (peer_info d !! a) as [[i x]|] eqn:E; [|done].
  apply known_add; [done|]. by apply (proj2 Hd) in E.
Qed.

Lemma known_on_disconnect U d a : known_dht U d → known_dht U (on_disconnect d a).
Proof.
  intros [Ht Hp]. unfold on_disconnect. destruct (peer_info d !! a) as [[i x]|] eqn:E; [|done].
  split; simpl.
  - intros c [_ Hc]%list_elem_of_filter. by apply Ht.
  - intros b p [_ Hb]%lookup_delete_Some. by eapply Hp.
Qed.

Lemma known_ensure U d a w d' ok : known_dht U d → ensure_connected d a w = Some (d', ok) → known_dht U d'.
Proof. unfold ensure_connected. intros. repeat case_match; simplify_eq; auto using known_on_connect. Qed.

Lemma known_absorb U cs d sl d' sl' :
  known_dht U d → within U sl → list_to_set cs.*1 ⊆ U →
  absorb_contacts d cs sl = (d', sl') → known_dht U d' ∧ within U sl'.
Proof.
  unfold absorb_contacts. revert d sl. induction cs as [|[i a] cs IH]; intros d sl Hd Hsl Hcs; cbn [fold_left absorb_one].
  { by intros [= <- <-]. }
  csimpl in Hcs. assert (i ∈ U ∧ (list_to_set cs.*1 : gset N) ⊆ U) as [Hi Hcs'] by set_solver. clear Hcs.
  destruct (i =? dht_id d)%N; [by apply IH|]. destruct (addr_parse a) as [addr|]; [|by apply IH].
  apply IH; [by apply known_add| |done]. destruct (knows sl i); [done|].
  intros c [Hc|Hc%list_elem_of_singleton]%elem_of_app; [by apply Hsl|]. by subst.
Qed.

Lemma known_same U d d' :
  known_dht U d → routing_table d' = routing_table d → peer_info d' = peer_info d → known_dht U d'.
Proof. unfold known_dht. by intros ? -> ->. Qed.

Lemma known_chans_alter U f chs k :
  (∀ c m, f c = Ready m → c = Ready m ∨ msg_ids m ⊆ U) → known_chans U chs → known_chans U (alter f k chs).
Proof.
  intros Hf Hc m (i&Hi)%list_elem_of_lookup_1. destruct (decide (k = i)) as [->|Hne].
  - rewrite list_lookup_alter_eq in Hi. destruct (chs !! i) as [c|] eqn:E; simplify_eq/=.
    apply Hf in Hi as [->|]; [|done]. by apply Hc, (list_elem_of_lookup_2 _ i).
  - rewrite list_lookup_alter_ne in Hi by done. by apply Hc, (list_elem_of_lookup_2 _ i).
Qed.

Lemma known_chans_drop U chs k : known_chans U chs → known_chans U (alter drop_sender k chs).
Proof. apply known_chans_alter. intros []; simpl; by auto. Qed.

Lemma known_chans_close U chs k : known_chans U chs → known_chans U (<[k := Closed]> chs).
Proof.
  intros Hc m (i&Hi)%list_elem_of_lookup_1. apply list_lookup_insert_Some in Hi as [(_&?&_)|[_ Hi]]; [done|].
  by apply Hc, (list_elem_of_lookup_2 _ i).
Qed.

Lemma known_reclaim U d chs r d' chs' :
  known_dht U d → known_chans U chs → reclaim d chs r = (d', chs') → known_dht U d' ∧ known_chans U chs'.
Proof. unfold reclaim. intros. repeat case_match; simplify_eq; auto using known_chans_drop. Qed.

Lemma known_begin U chs : known_chans U chs → known_chans U (chs ++ [Waiting]).
Proof. intros Hc m [Hm|Hm%list_elem_of_singleton]%elem_of_app; [by apply Hc|done]. Qed.

Lemma known_call U d chs w d' chs' r ch ok :
  known_dht U d → known_chans U chs → rpc_call d chs w = Some (d', chs', r, ch, ok) →
  known_dht U d' ∧ known_chans U chs'.
Proof.
  intros Hd Hc. unfold rpc_call, rpc_begin.
  set (chs1 := match pending_rpcs d !! next_rpc_id d with Some old => alter drop_sender old chs | None => chs end).
  assert (Hc1 : known_chans U (chs1 ++ [Waiting])).
  { apply known_begin. subst chs1. case_match; [by apply known_chans_drop|done]. }
  destruct w; intros E; simplify_eq; [done|].
  destruct (reclaim _ _ _) as [d2 chs2] eqn:Er. simplify_eq.
  eapply known_reclaim in Er as [? ?]; [|done|exact Hc1]. auto using known_chans_close.
Qed.

Lemma known_end U d chs r ch w res d' chs' :
  known_dht U d → known_chans U chs → rpc_end d chs r ch w = Some (res, d', chs') →
  known_dht U d' ∧ known_chans U chs' ∧ ∀ m, res = Ok m → msg_ids m ⊆ U.
Proof.
  intros Hd Hc. unfold rpc_end. destruct (chs !! ch) as [c|] eqn:Ec; [|done]. simpl.
  destruct (rpc_wait c w) as [o|] eqn:Ew; [|done]. simpl. destruct (reclaim d chs r) as [d2 chs2] eqn:Er.
  intros [= <- <- <-]. eapply known_reclaim in Er as [? ?]; [|done|done].
  split; [done|]. split; [by apply known_chans_close|]. intros m ->.
  destruct c, w; simplify_eq/=. by apply Hc, (list_elem_of_lookup_2 _ ch).
Qed.

Lemma known_reply U g d sl q m d' p :
  known_dht U d → within U sl → q ⊆ U → msg_ids m ⊆ U → lookup_reply g d sl q m = (d', p) →
  known_dht U d' ∧ within U (shortlist_of p) ∧ queried_of p ⊆ U.
Proof.
  intros Hd Hsl Hq Hm E.
  assert (Hnil : within U []) by (intros c; set_solver).
  destruct g, m; simpl in E; repeat case_match; simplify_eq; simpl in *;
    try match goal with E : absorb_contacts _ _ _ = _ |- _ => eapply known_absorb in E as [? ?]; [|done..] end;
    split_and!; try done; apply empty_subseteq.
Qed.

Lemma within_perm U l l' : l ≡ₚ l' → within U l' → within U l.
Proof. intros E Hl c. rewrite E. apply Hl. Qed.
Lemma within_take U k l : within U l → within U (take k l).
Proof. intros Hl c (i&Hi%list_elem_of_lookup_2&_)%elem_of_take. by apply Hl. Qed.
Lemma within_nil U : within U [].
Proof. intros c Hc. by apply not_elem_of_nil in Hc. Qed.

Lemma unqueried_spec q l c : unqueried q l = Some c → c ∈ l ∧ c_id c ∉ q.
Proof.
  unfold unqueried. intros [Hin Hq]%find_some. apply list_elem_of_In in Hin. split; [done|].
  apply negb_true_iff in Hq. by apply bool_decide_eq_false in Hq.
Qed.

Lemma task_step_known U s i t w d chs out p :
  Known U s → tasks s !! i = Some t → task_step s t w = Some (d, chs, out, p) →
  known_dht U d ∧ known_chans U chs ∧ within U (shortlist_of p) ∧ queried_of p ⊆ U.
Proof.
  intros [Ht Hp Hc Hk] Hi E. destruct (Hk _ _ Hi) as [Hsl Hq]. clear Hk Hi.
  assert (Hd : known_dht U (dht s)) by done. change (known_chans U (chans s)) in Hc.
  pose proof (within_nil U). pose proof (empty_subseteq U).
  unfold task_step in E.
  destruct (pc t) as [sl q|c sl q|c sl q|r ch sl q|[|c rest]|c rest|r ch rest|o]; simpl in *.
  - pose proof (within_perm U _ _ (sort_permutation (goal_key (goal t)) sl) Hsl) as Hss.
    destruct w; try done. destruct (unqueried _ _) as [c|] eqn:Eu; simplify_eq; simpl.
    + apply unqueried_spec in Eu as [Hin _]. split_and!; [done..|]. apply Hss in Hin. set_solver.
    + split_and!; [done|done|..]; by destruct (goal t).
  - destruct (ensure_connected _ _ _) as [[d1 []]|] eqn:Ee; simplify_eq/=;
      apply (known_ensure U) in Ee; by auto.
  - destruct (rpc_call _ _ _) as [[[[[d1 c1] r] ch] []]|] eqn:Ee; simplify_eq/=;
      apply (known_call U) in Ee as [? ?]; by auto.
  - destruct (rpc_end _ _ _ _ _) as [[[res d1] c1]|] eqn:Ee; simplify_eq/=.
    apply (known_end U) in Ee as (?&?&Hm); [|done|done]. destruct res as [m|e]; simplify_eq/=; [|done].
    destruct (lookup_reply _ _ _ _ _) as [d2 p2] eqn:El. simplify_eq/=.
    apply (known_reply U) in El as (?&?&?); auto.
  - repeat case_match; by simplify_eq.
  - destruct (ensure_connected _ _ _) as [[d1 []]|] eqn:Ee; simplify_eq/=;
      apply (known_ensure U) in Ee; by auto.
  - destruct (rpc_call _ _ _) as [[[[[d1 c1] r] ch] []]|] eqn:Ee; simplify_eq/=;
      apply (known_call U) in Ee as [? ?]; by auto.
  - destruct (rpc_end _ _ _ _ _) as [[[res d1] c1]|] eqn:Ee; simplify_eq/=.
    apply (known_end U) in Ee as (?&?&_); by auto.
  - done.
Qed.

Lemma known_message U d chs a m d' chs' o :
  known_dht U d → known_chans U chs → msg_ids m ⊆ U → process_message d chs a m = (d', chs', o) →
  known_dht U d' ∧ known_chans U chs'.
Proof.
  intros Hd Hc Hm E.
  assert (Hsend : ∀ k, known_chans U (alter (oneshot_send m) k chs)).
  { intros k. apply known_chans_alter; [|done]. intros [] m'; simpl; intros; simplify_eq; auto. }
  destruct m as [r i t|r cs|r k v|r|r k|r o']; simpl in E; try (repeat case_match; simplify_eq; by auto).
  simplify_eq. split; [|done]. apply known_add; [done|]. simpl in Hm. set_solver.
Qed.

Lemma Known_dht U s s' :
  Known U s → known_dht U (dht s') → known_chans U (chans s') → tasks s' = tasks s → Known U s'.
Proof. intros [_ _ _ Hk] [Ht Hp] Hc E. split; [done|done|done|]. by rewrite E. Qed.

Lemma step_Known U l s s' : Known U s → label_ids l ⊆ U → step l s = Some s' → Known U s'.
Proof.
  intros HK Hl Hs. pose proof HK as [Ht Hp Hc Hk]. assert (Hd : known_dht U (dht s)) by done.
  destruct l as [a b|a|a|a m acc|g|j w]; simpl in Hl, Hs.
  - simplify_eq. eapply Known_dht; [done| |done|done]. split; [done|]. intros x p. simpl.
    rewrite lookup_insert_Some. intros [[_ <-]|[_ Hx]]; [|by eapply Hp]. set_solver.
  - simplify_eq. eapply Known_dht; [done|by apply known_on_connect|done|done].
  - simplify_eq. eapply Known_dht; [done|by apply known_on_disconnect|done|done].
  - destruct (process_message _ _ _ _) as [[d chs] o] eqn:E. simplify_eq.
    eapply known_message in E as [? ?]; [|done..]. by eapply Known_dht.
  - simplify_eq. split; [done|done|done|]. intros i t [Hi|[_ Hi]]%lookup_app_Some; [by eapply Hk|].
    apply list_lookup_singleton_Some in Hi as [_ <-]. simpl. split; [|apply empty_subseteq].
    apply within_take. by eapply within_perm, Ht; apply sort_permutation.
  - destruct (tasks s !! j) as [t|] eqn:Hj; simplify_eq/=.
    destruct (task_step s t w) as [[[[d chs] out] p]|] eqn:Hw; simplify_eq/=.
    eapply task_step_known in Hw as ([? ?]&?&?&?); [|done|done]. split; [done|done|done|].
    intros i u [(<-&<-&_)|[_ Hi]]%list_lookup_insert_Some; [done|]. by eapply Hk.
Qed.

(** The steps a task can still take: each round of a lookup queries an id it has not queried
    before, and takes at most four steps; [store] then makes at most [K] calls. *)
Definition rounds (U q : gset N) : nat := 4 * (size U - size q) + (3 * K + 2).

Definition fuel (U : gset N) (p : Pc) : nat :=
  match p with
  | Pick _ q => rounds U q
  | Ensure _ _ q => rounds U q + 3
  | Call _ _ q => rounds U q + 2
  | Await _ _ _ q => rounds U q + 1
  | StoreEnsure cs => 3 * length cs + 1
  | StoreCall _ cs => 3 * length cs + 3
  | StoreAwait _ _ cs => 3 * length cs + 2
  | Return _ => 0
  end.

Lemma fuel_lookup_over U g sl q : fuel U (lookup_over g sl) < rounds U q.
Proof.
  destruct g as [?|?|key value]; unfold rounds, K; cbn [fuel lookup_over goal_key]; [lia|lia|].
  rewrite length_take. unfold K. lia.
Qed.

Lemma fuel_lookup_reply U g d sl q m d' p : lookup_reply g d sl q m = (d', p) → fuel U p ≤ rounds U q.
Proof. intros E. destruct g, m; simpl in E; repeat case_match; simplify_eq; simpl; lia. Qed.

Lemma task_step_fuel U s i t w d chs out p :
  Known U s → tasks s !! i = Some t → task_step s t w = Some (d, chs, out, p) →
  fuel U p < fuel U (pc t).
Proof.
  intros HK Hi E. destruct (kn_tasks _ _ HK _ _ Hi) as [Hsl Hq]. unfold task_step in E.
  destruct (pc t) as [sl q|c sl q|c sl q|r ch sl q|[|c rest]|c rest|r ch rest|o]; simpl in Hsl, Hq, E.
  - destruct w; try done. destruct (unqueried _ _) as [c|] eqn:Eu; simplify_eq; [|apply fuel_lookup_over].
    apply unqueried_spec in Eu as [Hin Hnq]. rewrite sort_permutation in Hin. apply Hsl in Hin.
    assert (size ({[c_id c]} ∪ q) ≤ size U) as Hle by (apply subseteq_size; set_solver).
    rewrite size_union_fresh in Hle by done.
    unfold fuel, rounds. rewrite size_union_fresh by done. lia.
  - destruct (ensure_connected _ _ _) as [[d1 []]|]; simplify_eq/=; lia.
  - destruct (rpc_call _ _ _) as [[[[[d1 c1] r] ch] []]|]; simplify_eq/=; lia.
  - destruct (rpc_end _ _ _ _ _) as [[[[m|e] d1] c1]|]; simplify_eq/=; [|lia].
    destruct (lookup_reply _ _ _ _ _) as [d2 p2] eqn:El. simplify_eq/=.
    apply (fuel_lookup_reply U) in El. lia.
  - repeat case_match; simplify_eq/=; lia.
  - destruct (ensure_connected _ _ _) as [[d1 []]|]; simplify_eq/=; lia.
  - destruct (rpc_call _ _ _) as [[[[[d1 c1] r] ch] []]|]; simplify_eq/=; lia.
  - destruct (rpc_end _ _ _ _ _) as [[[[m|e] d1] c1]|]; simplify_eq/=; lia.
  - done.
Qed.

Definition is_own (i : nat) (l : Label) : bool := match l with Run j _ => Nat.eqb j i | _ => false end.

Lemma own_steps_bounded U ls s s' i :
  Known U s → heard ls ⊆ U → run ls s = Some s' →
  countb (is_own i) ls ≤ match tasks s !! i with Some t => fuel U (pc t) | None => rounds U ∅ end.
Proof.
  revert s. induction ls as [|l ls IH]; intros s HK Hh Hr; simplify_eq/=; [apply Nat.le_0_l|].
  destruct (step l s) as [s1|] eqn:Es; simplify_eq/=. unfold heard in Hh. simpl in Hh.
  assert (HK1 : Known U s1) by (eapply step_Known; [done| |done]; set_solver).
  assert (Hh1 : heard ls ⊆ U) by (unfold heard; set_solver).
  specialize (IH s1 HK1 Hh1 Hr). clear Hh Hh1 Hr HK1. destruct (tasks s !! i) as [t|] eqn:Hi.
  - destruct (step_task _ _ _ _ _ Es Hi) as [(w&d&chs&out&p&->&Hw&_&Hi1)|[Hne Hi1]]; rewrite Hi1 in IH; simpl in *.
    + apply (task_step_fuel U _ i) in Hw; [|done|done]. rewrite Nat.eqb_refl. simpl. lia.
    + destruct l as [| | | | |j w]; simpl; try lia. destruct (Nat.eqb_spec j i) as [->|]; [|simpl; lia].
      by destruct (Hne w).
  - assert (is_own i l = false) as ->.
    { destruct l as [| | | | |j w]; simpl; try done. apply Nat.eqb_neq. intros ->. simpl in Es. by rewrite Hi in Es. }
    simpl. etrans; [exact IH|]. destruct (tasks s1 !! i) as [t|] eqn:Hi1; [|done].
    assert (∃ g sl, t = mkTask g (Pick sl ∅)) as (g&sl&->); [|done].
    destruct l as [a b|a|a|a m acc|g|j w]; simpl in Es.
    1-3: simplify_eq/=.
    + destruct (process_message _ _ _ _) as [[? ?] ?]. simplify_eq/=.
    + simplify_eq/=. apply lookup_app_Some in Hi1 as [|[_ Hi1]]; [congruence|].
      apply list_lookup_singleton_Some in Hi1 as [_ <-]. eauto.
    + destruct (tasks s !! j) as [u|] eqn:Hj; simplify_eq/=.
      destruct (task_step s u w) as [[[[d chs] out] p]|]; simplify_eq/=.
      apply list_lookup_insert_Some in Hi1 as [(<-&_&_)|[_ Hi1]]; congruence.
Qed.

Lemma rpc_end_enabled s i t r ch :
  rpcs_ok s → tasks s !! i = Some t → awaiting (pc t) = Some (r, ch) →
  ∃ w, is_Some (rpc_end (dht s) (chans s) r ch w).
Proof.
  intros HI Hi Ha. apply waits_lookup in Hi. rewrite Ha in Hi.
  destruct (ri_await _ _ _ _ HI _ _ _ Hi) as (_&c&Hc&Hans). unfold rpc_end. rewrite Hc. simpl.
  destruct (reclaim _ _ _). destruct c; try done; [exists Elapsed|exists Go]; simpl; by eexists.
Qed.

(** A task that has not returned can take a step. *)
Lemma task_enabled s i t :
  rpcs_ok s → tasks s !! i = Some t → (∀ o, pc t ≠ Return o) → ∃ w, is_Some (step (Run i w) s).
Proof.
  intros HI Hi Hp. cut (∃ w, is_Some (task_step s t w)).
  { intros (w&[[[d chs] out] p]&E). exists w. simpl. rewrite Hi. simpl. rewrite E. by eexists. }
  pose proof (rpc_end_enabled s i t) as Hend. unfold task_step.
  destruct (pc t) as [sl q|c sl q|c sl q|r ch sl q|[|c rest]|c rest|r ch rest|o].
  - exists Go. destruct (unqueried _ _); by eexists.
  - exists Connected. by eexists.
  - exists Go. simpl. by eexists.
  - destruct (Hend r ch HI Hi eq_refl) as (w&[[res d] chs]&E). exists w. rewrite E. simpl.
    destruct res; [destruct (lookup_reply _ _ _ _ _)|]; by eexists.
  - exists Go. by eexists.
  - exists Connected. by eexists.
  - exists Go. simpl. by eexists.
  - destruct (Hend r ch HI Hi eq_refl) as (w&[[res d] chs]&E). exists w. rewrite E. by eexists.
  - by destruct (Hp o).
Qed.

(** C29. Every lookup comes to an end. Whatever answers arrive and whatever else the node does
    meanwhile, [iterative_find_node], [find_value] or [store] takes at most four steps for every
    distinct id the node has ever heard of (no id is queried twice), and [3 K + 2] more; and as long
    as it has not returned it can take its next step, the RPC timeout being one if no answer comes. *)
Theorem lookup_terminates self ls s i :
  run ls (boot self) = Some s →
  countb (is_own i) ls ≤ 4 * size (heard ls) + (3 * K + 2) ∧
  ((N.of_nat (length (chans s)) ≤ u64_max)%N →
   ∀ t, tasks s !! i = Some t → (∀ o, pc t ≠ Return o) → ∃ w, is_Some (step (Run i w) s)).
Proof.
  intros Hr. split.
  - etrans; [apply (own_steps_bounded (heard ls) ls (boot self) s i)|]; [|done|done|].
    + split; simpl; [apply within_nil|done|set_solver|done].
    + cbn [boot tasks]. rewrite lookup_nil. unfold rounds. lia.
  - intros Hlen t Hi Hp. eapply task_enabled; [|done|done]. eapply run_rpcs_ok; [apply boot_rpcs_ok|done|done].
Qed.
End system.

(** ** The example of [Kademlia] *)

(** The lookup has sent its first call. *)
Definition demo_called : Sys := default (boot 5) (run (H := demo_text) (take 6 demo_before) (boot 5)).

Lemma rpc_correlated_witness :
  is_Some (pending_rpcs (dht demo_called) !! 0%N) ∧
  ∃ i t ch, tasks demo_called !! i = Some t ∧ awaiting (pc t) = Some (0%N, ch) ∧
    chans demo_called !! ch = Some Waiting.
Proof.
  assert (is_Some (pending_rpcs (dht demo_called) !! 0%N)) as Hp by (vm_compute; eauto).
  split; [exact Hp|].
  apply (rpc_correlated (H := demo_text) 5 (take 6 demo_before) demo_called).
  - vm_compute. reflexivity.
  - vm_compute. discriminate.
  - exact Hp.
Defined.

Lemma lookup_terminates_witness :
  countb (is_own 0) demo_before ≤ 4 * size (heard demo_before) + (3 * K + 2).
Proof. apply (lookup_terminates (H := demo_text) 5 demo_before demo_s1 0). vm_compute. reflexivity. Defined.
