(* ===== verification/HolePunch.v ===== *)
(** * The hole-punching example ([examples/examples/hole_punching.rs])

    The signaling between the peers and the rendezvous server, the pairing done by the server, and
    the retry loop of a peer.  Messages are byte strings.  Whether a bind or a dial succeeds is an input
    of the retry loop. *)

From S2P Require Import Prelude Net Text.
From Stdlib Require Import Ascii.
From Stdlib Require String.

Open Scope nat_scope.

(** ** Signaling *)

Section signaling.
Context `{AddrText}.

Definition parse_signal (text : string) : option (string * string * SocketAddr) :=
  '(tag, rest) ← split_once "|"%char text;
  '(name, addr_str) ← split_once "|"%char rest;
  addr ← addr_parse addr_str;
  Some (tag, name, addr).

Definition encode_register (name : string) (punch_addr : SocketAddr) : string :=
  "register|" +:+ name +:+ "|" +:+ addr_to_string punch_addr.

Definition encode_peer (name : string) (addr : SocketAddr) : string :=
  "peer|" +:+ name +:+ "|" +:+ addr_to_string addr.

(** ** The rendezvous server *)

Record PendingPeer := mkPending { p_conn : SocketAddr; p_name : string; p_punch : SocketAddr }.

(** [Rendezvous::pair]: the peer left waiting, and the messages handed to [unicast_fast] (whose
    failure is only logged). *)
Definition rv_pair (pending : option PendingPeer) (peer : PendingPeer)
  : option PendingPeer * list (SocketAddr * string) :=
  match pending with
  | Some other =>
      (None, [(p_conn other, encode_peer (p_name peer) (p_punch peer));
              (p_conn peer, encode_peer (p_name other) (p_punch other))])
  | None => (Some peer, [])
  end.

(** [process_message] of the rendezvous: what is not a registration is ignored. *)
Definition registration (source : SocketAddr) (message : string) : option PendingPeer :=
  if from_utf8 message then
    '(tag, name, addr) ← parse_signal message;
    if decide (tag = "register") then Some (mkPending source name addr) else None
  else None.

Definition rendezvous (pending : option PendingPeer) (source : SocketAddr) (message : string)
  : option PendingPeer * list (SocketAddr * string) :=
  match registration source message with
  | Some peer => rv_pair pending peer
  | None => (pending, [])
  end.

Fixpoint rendezvous_all (pending : option PendingPeer) (msgs : list (SocketAddr * string))
  : option PendingPeer * list (SocketAddr * string) :=
  match msgs with
  | [] => (pending, [])
  | (source, m) :: msgs =>
      let '(pending, out) := rendezvous pending source m in
      let '(pending, out') := rendezvous_all pending msgs in
      (pending, out ++ out')
  end.

(** ** The peer *)

Definition HOLE_PUNCH_ATTEMPTS : nat := 500.

Inductive Attempt := BindFailed | DialFailed | Established.

(** [punch_to]: the remaining attempts, numbered from [n]; the attempt that succeeded, if any, and
    how many were made. *)
Fixpoint punch (remaining n : nat) (world : nat → Attempt) : option nat * nat :=
  match remaining with
  | 0 => (None, n - 1)
  | S remaining =>
      match world n with
      | BindFailed | DialFailed => punch remaining (S n) world
      | Established => (Some n, n)
      end
  end.

Definition punch_to (world : nat → Attempt) : option nat * nat := punch HOLE_PUNCH_ATTEMPTS 1 world.

Inductive PeerAction :=
| PunchTo (addr : SocketAddr)
| Greet (addr : SocketAddr) (greeting : string)
| DisconnectFrom (addr : SocketAddr).

(** [process_message] of a peer: what it does, in order. *)
Definition peer_process (name : string) (rendezvous_addr source : SocketAddr) (message : string)
    (world : nat → Attempt) : list PeerAction :=
  if decide (source = rendezvous_addr) then
    if from_utf8 message then
      match parse_signal message with
      | Some (tag, _, addr) =>
          if decide (tag = "peer") then
            [PunchTo addr] ++
            (match (punch_to world).1 with
             | Some _ => [Greet addr ("hello from " +:+ name)]
             | None => []
             end) ++ [DisconnectFrom rendezvous_addr]
          else []
      | None => []
      end
    else []
  else [].
End signaling.

(** ** Signaling: theorems *)

Section theorems.
Context `{AddrTextSpec}.

(** The address survives being printed and read. *)
Definition readable (a : SocketAddr) : Prop := addr_parse (addr_to_string a) = Some a.

Lemma parse_encoded tag name a :
  free_of "|"%char tag → readable a →
  parse_signal (tag +:+ "|" +:+ name +:+ "|" +:+ addr_to_string a) = Some (tag, name, a) ↔ free_of "|"%char name.
Proof.
  intros Ht Ha. unfold parse_signal.
  change (tag +:+ "|" +:+ name +:+ "|" +:+ addr_to_string a)
    with (tag +:+ String.String "|"%char (name +:+ String.String "|"%char (addr_to_string a))).
  rewrite (split_once_app _ tag) by done. cbn [mbind option_bind]. split.
  - destruct (split_once "|"%char (name +:+ String.String "|"%char (addr_to_string a))) as [[n r]|] eqn:E; [|done]. simpl.
    destruct (addr_parse r); [|done]. intros [= <- _]. by apply split_once_inv in E as [_ ?].
  - intros Hn. rewrite split_once_app by done. simpl. unfold readable in Ha. by rewrite Ha.
Qed.

Lemma free_peer : free_of "|"%char "peer".
Proof. unfold free_of. apply (bool_decide_unpack _). vm_compute. done. Qed.

Lemma from_utf8_signal tag name a :
  from_utf8 tag = true → from_utf8 name = true →
  from_utf8 (tag +:+ "|" +:+ name +:+ "|" +:+ addr_to_string a) = true.
Proof. intros. repeat apply from_utf8_app; try done. apply from_utf8_ascii, addr_print_ascii. Qed.

(** What the server takes from a registration can be passed on. *)
Lemma registration_inv source m p :
  registration source m = Some p →
  p_conn p = source ∧ from_utf8 (p_name p) = true ∧ free_of "|"%char (p_name p) ∧ readable (p_punch p).
Proof.
  unfold registration. destruct (from_utf8 m) eqn:Eu; [|done]. unfold parse_signal.
  destruct (split_once "|"%char m) as [[tag rest]|] eqn:E1; [|done]. cbn [mbind option_bind].
  destruct (split_once "|"%char rest) as [[name addr_str]|] eqn:E2; [|done]. cbn [mbind option_bind].
  destruct (addr_parse addr_str) as [addr|] eqn:Ea; [|done]. simpl. case_decide; [|done]. intros [= <-]. simpl.
  destruct (from_utf8_split _ "|"%char _ _ eq_refl E1 Eu) as [_ Hr].
  destruct (from_utf8_split _ "|"%char _ _ eq_refl E2 Hr) as [Hn _].
  apply split_once_inv in E2 as [_ Hf]. split_and!; try done. by eapply addr_parse_print.
Qed.

(** The two messages that introduce a pair to each other. *)
Definition introductions (c : PendingPeer * PendingPeer) : list (SocketAddr * string) :=
  let '(p, q) := c in
  [(p_conn p, encode_peer (p_name q) (p_punch q)); (p_conn q, encode_peer (p_name p) (p_punch p))].

Definition registrations (msgs : list (SocketAddr * string)) : list PendingPeer :=
  omap (λ m, registration m.1 m.2) msgs.

Lemma rendezvous_all_pairs msgs pending :
  ∃ cs w, rendezvous_all pending msgs = (w, cs ≫= introductions) ∧
    option_list pending ++ registrations msgs = (cs ≫= λ c, [c.1; c.2]) ++ option_list w.
Proof.
  revert pending. induction msgs as [|[source m] msgs IH]; intros pending.
  { exists [], pending. split; [done|]. by rewrite app_nil_r. }
  cbn [rendezvous_all]. unfold rendezvous, registrations. cbn [omap list_omap fst snd].
  destruct (registration source m) as [p|] eqn:Er.
  - destruct pending as [o|]; simpl rv_pair.
    + destruct (IH None) as (cs&w&E&Hw). exists ((o, p) :: cs), w. rewrite E. split; [done|].
      csimpl. unfold registrations in Hw. simpl in Hw. by rewrite Hw.
    + destruct (IH (Some p)) as (cs&w&E&Hw). exists cs, w. by rewrite E.
  - destruct (IH pending) as (cs&w&E&Hw). exists cs, w. by rewrite E.
Qed.

(** A peer told about another punches to its address. *)
Lemma peer_told name rv p world :
  from_utf8 (p_name p) = true → free_of "|"%char (p_name p) → readable (p_punch p) →
  ∃ acts, peer_process name rv rv (encode_peer (p_name p) (p_punch p)) world = PunchTo (p_punch p) :: acts.
Proof.
  intros Hu Hf Ha. unfold peer_process. rewrite decide_True by done.
  change (encode_peer (p_name p) (p_punch p)) with ("peer" +:+ "|" +:+ p_name p +:+ "|" +:+ addr_to_string (p_punch p)).
  rewrite from_utf8_signal by done. rewrite (proj2 (parse_encoded "peer" (p_name p) (p_punch p) free_peer Ha) Hf).
  rewrite decide_True by done. simpl. eauto.
Qed.

(** C39. The rendezvous server pairs the peers up, and the pairs find each other. Whatever messages
    arrive, those that are not well-formed registrations change nothing, and the registrations, in
    order, are matched two by two, the last one waiting if their number is odd; the server sends
    exactly two messages for each pair, and a peer that receives its one starts punching to the
    address the other has registered. *)
Theorem rendezvous_pairs msgs :
  ∃ cs w, rendezvous_all None msgs = (w, cs ≫= introductions) ∧
    registrations msgs = (cs ≫= λ c, [c.1; c.2]) ++ option_list w ∧
    ∀ p q name rv world, (p, q) ∈ cs →
      (∃ acts, peer_process name rv rv (encode_peer (p_name q) (p_punch q)) world = PunchTo (p_punch q) :: acts) ∧
      (∃ acts, peer_process name rv rv (encode_peer (p_name p) (p_punch p)) world = PunchTo (p_punch p) :: acts).
Proof.
  destruct (rendezvous_all_pairs msgs None) as (cs&w&E&Hw). exists cs, w. split; [done|]. split; [done|].
  intros p q name rv world Hin.
  assert (∀ x, x = p ∨ x = q → from_utf8 (p_name x) = true ∧ free_of "|"%char (p_name x) ∧ readable (p_punch x)) as Hok.
  { intros x Hx. assert (x ∈ registrations msgs) as (m&_&Hm%registration_inv)%list_elem_of_omap; [|tauto].
    simpl in Hw. rewrite Hw. apply elem_of_app. left. apply list_elem_of_bind. exists (p, q). split; [|done].
    simpl. destruct Hx as [-> | ->]; set_solver. }
  destruct (Hok p (or_introl eq_refl)) as (?&?&?), (Hok q (or_intror eq_refl)) as (?&?&?). split; by apply peer_told.
Qed.

End theorems.

(** [punch_to] makes at most [HOLE_PUNCH_ATTEMPTS] attempts and stops at the first that succeeds. *)
Lemma punch_first remaining n world :
  0 < n →
  match punch remaining n world with
  | (Some k, made) => made = k ∧ n ≤ k < n + remaining ∧ world k = Established ∧ ∀ i, n ≤ i < k → world i ≠ Established
  | (None, made) => made = n + remaining - 1 ∧ ∀ i, n ≤ i < n + remaining → world i ≠ Established
  end.
Proof.
  revert n. induction remaining as [|m IH]; intros n Hn; simpl; [split; [lia|intros; lia]|].
  assert (∀ P, (∀ i, S n ≤ i < P → world i ≠ Established) → world n ≠ Established →
    ∀ i, n ≤ i < P → world i ≠ Established) as Hext.
  { intros P HP Hw i Hi. destruct (decide (i = n)) as [->|]; [done|]. apply HP. lia. }
  specialize (IH (S n) ltac:(lia)). destruct (world n) eqn:E.
  1-2: destruct (punch m (S n) world) as [[k|] made].
  1,3: destruct IH as (->&Hk&Hw&Hi); split_and!; [done|lia|lia|done|]; apply Hext; done.
  1-2: destruct IH as (->&Hi); split; [lia|]; apply Hext; [intros; apply Hi; lia|done].
  split_and!; [done|lia|lia|done|intros; lia].
Qed.

(** ** Examples *)

(** A text form of addresses that satisfies the laws: the bits of their encoding. *)
Fixpoint bits (p : positive) : string :=
  match p with
  | xH => EmptyString
  | xO p => String.String "0"%char (bits p)
  | xI p => String.String "1"%char (bits p)
  end.

Fixpoint unbits (s : string) : positive :=
  match s with
  | EmptyString => xH
  | String.String c s => if decide (c = "0"%char) then xO (unbits s) else xI (unbits s)
  end.

(** The text of an address does not mention its [flowinfo]. *)
Definition unlabelled (a : SocketAddr) : SocketAddr :=
  match a with SockV6 b p _ s => SockV6 b p 0 s | SockV4 _ _ => a end.

#[export] Instance bits_text : AddrText := {
  addr_to_string a := bits (encode (unlabelled a));
  addr_parse s := unlabelled <$> decode (unbits s);
}.

#[export] Instance bits_text_spec : AddrTextSpec.
Proof.
  assert (∀ p, unbits (bits p) = p) as Hb by (induction p as [p IH|p IH|]; simpl; by rewrite ?IH).
  assert (∀ a, unlabelled (unlabelled a) = unlabelled a) as Hu by (by intros []).
  split.
  - intros s a. simpl. destruct (decode (unbits s)) as [a0|]; [|done]. intros [= <-].
    rewrite Hb, Hu, decode_encode. simpl. by rewrite Hu.
  - intros a. simpl. induction (encode (unlabelled a)) as [p IH|p IH|]; simpl; by repeat constructor.
Qed.

(** Two peers meet; a message that is not a registration is ignored; and a peer that registers twice
    in a row is paired with itself. *)
Definition demo_signals : list (SocketAddr * string) :=
  [(SockV4 0 10, encode_register "alice" (SockV4 0 1)); (SockV4 0 11, "hello");
   (SockV4 0 12, encode_register "bob" (SockV4 0 2));
   (SockV4 0 13, encode_register "eve" (SockV4 0 3)); (SockV4 0 13, encode_register "eve" (SockV4 0 3))].

Lemma rendezvous_self_pair :
  rendezvous_all None demo_signals =
    (None, [(SockV4 0 10, encode_peer "bob" (SockV4 0 2)); (SockV4 0 12, encode_peer "alice" (SockV4 0 1));
            (SockV4 0 13, encode_peer "eve" (SockV4 0 3)); (SockV4 0 13, encode_peer "eve" (SockV4 0 3))]).
Proof. vm_compute. reflexivity. Qed.

Lemma rendezvous_pairs_witness :
  length (registrations demo_signals) = 4 ∧
  ∃ cs w, rendezvous_all None demo_signals = (w, cs ≫= introductions) ∧
    registrations demo_signals = (cs ≫= λ c, [c.1; c.2]) ++ option_list w ∧
    ∀ p q name rv world, (p, q) ∈ cs →
      (∃ acts, peer_process name rv rv (encode_peer (p_name q) (p_punch q)) world = PunchTo (p_punch q) :: acts) ∧
      (∃ acts, peer_process name rv rv (encode_peer (p_name p) (p_punch p)) world = PunchTo (p_punch p) :: acts).
Proof. split; [vm_compute; reflexivity|]. exact (rendezvous_pairs demo_signals). Defined.
