(* ===== verification/Dining.v ===== *)
(** * The dining philosophers ([examples/examples/dining_philosophers.rs])

    The table as a transition system: the dining loop of every philosopher, the handlers of its two
    connections (each handles one message at a time), the messages in flight on every connection, and
    the read-write lock around the state, which a philosopher keeps locked while it thinks or eats.
    Sleeps last arbitrarily long; the condition under which the 250 ms pause between two requests is
    long enough is [timely]. *)

From S2P Require Import Prelude.
From stdpp Require Import functions.

Open Scope nat_scope.

(** ** Data *)

Definition MIN_EATING_TIME_MS : N := 500.
Definition MAX_EATING_TIME_MS : N := 1000.

Inductive State := Thinking | Hungry (has_left_fork : bool) | Eating (duration : N).

Inductive Message := AreYouUsingTheSharedFork | Yes (duration : option N) | No.

Inductive Side := Lft | Rgt.

#[export] Instance state_eq_dec : EqDecision State.
Proof. solve_decision. Defined.
#[export] Instance message_eq_dec : EqDecision Message.
Proof. solve_decision. Defined.
#[export] Instance side_eq_dec : EqDecision Side.
Proof. solve_decision. Defined.

(** Where the dining loop is: at the top; asleep with the state locked for reading, thinking or
    eating; about to write the next state; about to ask a neighbor; pausing; over. *)
Inductive Loop :=
| Top | Thinks | GetsHungry | Asks (has_left_fork : bool) | Pauses | Eats | Finishes | Over.

(** Where the handler of a connection is: idle; with an answer to send; about to return to
    [Thinking]; asleep with the state locked for reading. *)
Inductive Handler := Idle | Answers (m : Message) | Resets | Naps.

(** One end of a connection: a philosopher and the side on which it has the connection. *)
Definition End : Type := nat * Side.

Record Table := mkTable {
  state : nat → State;
  loop : nat → Loop;
  handler : End → Handler;
  inbox : End → list Message;
}.

(** ** The ring *)

Definition opposite (s : Side) : Side := match s with Lft => Rgt | Rgt => Lft end.

(** [main]: the neighbors of philosopher [i] among [count]. *)
Definition neighbor (count : nat) (s : Side) (i : nat) : nat :=
  match s with Rgt => (i + 1) mod count | Lft => (i + count - 1) mod count end.

Definition peer (count : nat) (k : End) : End := (neighbor count k.2 k.1, opposite k.2).

(** All think, and nothing is in flight. *)
Definition laid : Table := mkTable (λ _, Thinking) (λ _, Top) (λ _, Idle) (λ _, []).

Definition set_state (i : nat) (s : State) (t : Table) : Table :=
  mkTable (<[i:=s]> (state t)) (loop t) (handler t) (inbox t).
Definition set_loop (i : nat) (l : Loop) (t : Table) : Table :=
  mkTable (state t) (<[i:=l]> (loop t)) (handler t) (inbox t).
Definition set_handler (k : End) (h : Handler) (t : Table) : Table :=
  mkTable (state t) (loop t) (<[k:=h]> (handler t)) (inbox t).
Definition set_inbox (k : End) (ms : list Message) (t : Table) : Table :=
  mkTable (state t) (loop t) (handler t) (<[k:=ms]> (inbox t)).

(** A message sent on a connection arrives at its other end. *)
Definition send (count : nat) (k : End) (m : Message) (t : Table) : Table :=
  set_inbox (peer count k) (inbox t (peer count k) ++ [m]) t.

(** The state can be written: nobody sleeps on a read guard. *)
Definition writable (t : Table) (i : nat) : bool :=
  match loop t i with Thinks | Eats => false | _ => true end &&
  match handler t (i, Lft) with Naps => false | _ => true end &&
  match handler t (i, Rgt) with Naps => false | _ => true end.

(** ** The dining loop *)

(** The left fork first, then the right one. *)
Definition wanted (has_left_fork : bool) : Side := if has_left_fork then Rgt else Lft.

(** [start_dining], one step; [ok] is the outcome of [unicast_fast]. *)
Definition start_dining (count : nat) (i : nat) (ok : bool) (t : Table) : option Table :=
  match loop t i with
  | Top =>
      Some (set_loop i (match state t i with
                        | Thinking => Thinks
                        | Hungry has_left_fork => Asks has_left_fork
                        | Eating _ => Eats
                        end) t)
  | Thinks => Some (set_loop i GetsHungry t)
  | GetsHungry => if writable t i then Some (set_loop i Top (set_state i (Hungry false) t)) else None
  | Asks has_left_fork =>
      Some (if ok then set_loop i Pauses (send count (i, wanted has_left_fork) AreYouUsingTheSharedFork t)
            else set_loop i Over t)
  | Pauses => Some (set_loop i Top t)
  | Eats => Some (set_loop i Finishes t)
  | Finishes => if writable t i then Some (set_loop i Top (set_state i Thinking t)) else None
  | Over => None
  end.

(** ** The handler of a connection *)

(** [process_message], as far as the first await that gives up the state; [eating_time] is the
    random number. *)
Definition process_message (k : End) (m : Message) (eating_time : N) (t : Table) : option Table :=
  let i := k.1 in
  match m with
  | AreYouUsingTheSharedFork =>
      Some (set_handler k (Answers (if decide (state t i = Thinking) then No else Yes None)) t)
  | Yes duration =>
      if decide (state t i = Hungry true) then
        Some (match duration with Some _ => set_handler k Naps t | None => t end)
      else Some (set_handler k Resets t)
  | No =>
      if writable t i && (MIN_EATING_TIME_MS <=? eating_time)%N && (eating_time <=? MAX_EATING_TIME_MS)%N then
        Some (if decide (state t i = Hungry false) then set_state i (Hungry true) t
              else if decide (state t i = Hungry true) then set_state i (Eating eating_time) t
              else t)
      else None
  end.

(** The rest of a message. *)
Definition resume (count : nat) (k : End) (t : Table) : option Table :=
  match handler t k with
  | Idle => None
  | Answers answer => Some (set_handler k Idle (send count k answer t))
  | Resets => if writable t k.1 then Some (set_handler k Idle (set_state k.1 Thinking t)) else None
  | Naps => Some (set_handler k Idle t)
  end.

(** ** Runs *)

Inductive Event := Dine (i : nat) (ok : bool) | Receive (k : End) (eating_time : N) | Resume (k : End).

Definition actor (e : Event) : nat :=
  match e with Dine i _ => i | Receive k _ => k.1 | Resume k => k.1 end.

Definition dining_step (count : nat) (e : Event) (t : Table) : option Table :=
  if actor e <? count then
    match e with
    | Dine i ok => start_dining count i ok t
    | Receive k eating_time =>
        match handler t k, inbox t k with
        | Idle, m :: ms => process_message k m eating_time (set_inbox k ms t)
        | _, _ => None
        end
    | Resume k => resume count k t
    end
  else None.

(** What is under way for the request a philosopher has made on a connection: asked, on its way,
    being answered, answered, or the answer being handled. *)
Definition is_request (m : Message) : bool := match m with AreYouUsingTheSharedFork => true | _ => false end.

Definition requests (ms : list Message) : nat := length (List.filter is_request ms).
Definition replies (ms : list Message) : nat := length (List.filter (λ m, negb (is_request m)) ms).

Definition asking (l : Loop) (s : Side) : nat :=
  match l with Asks b => if decide (wanted b = s) then 1 else 0 | _ => 0 end.
Definition answering (h : Handler) : nat := match h with Answers _ => 1 | _ => 0 end.
Definition reacting (h : Handler) : nat := match h with Resets | Naps => 1 | _ => 0 end.

Definition outstanding (count : nat) (t : Table) (k : End) : nat :=
  asking (loop t k.1) k.2 + requests (inbox t (peer count k)) + answering (handler t (peer count k)) +
  replies (inbox t k) + reacting (handler t k).

(** The pause was long enough: whoever is about to ask has no request outstanding. *)
Definition timely (count : nat) (e : Event) (t : Table) : bool :=
  match e with
  | Dine i _ =>
      match loop t i, state t i with
      | Top, Hungry _ => (outstanding count t (i, Lft) + outstanding count t (i, Rgt) =? 0)
      | _, _ => true
      end
  | _ => true
  end.

(** A run, in which every pause is long enough if [prompt]. *)
Fixpoint dining (count : nat) (prompt : bool) (es : list Event) (t : Table) : option Table :=
  match es with
  | [] => Some t
  | e :: es =>
      if negb prompt || timely count e t then t' ← dining_step count e t; dining count prompt es t' else None
  end.

(** ** The ring: lemmas *)

Definition seated (count : nat) (k : End) : Prop := k.1 < count.

Lemma neighbor_seated count s i : i < count → neighbor count s i < count.
Proof. intros Hi. unfold neighbor. destruct s; apply Nat.mod_upper_bound; lia. Qed.

Lemma peer_seated count k : seated count k → seated count (peer count k).
Proof. apply neighbor_seated. Qed.

Lemma neighbor_back count s i : i < count → neighbor count (opposite s) (neighbor count s i) = i.
Proof.
  intros Hi. unfold neighbor. destruct s; cbn [opposite].
  - destruct (decide (i = 0)) as [->|].
    + rewrite (Nat.mod_small (0 + count - 1)) by lia. replace (0 + count - 1 + 1) with count by lia.
      apply Nat.Div0.mod_same.
    + replace (i + count - 1) with (i - 1 + 1 * count) by lia. rewrite Nat.Div0.mod_add, (Nat.mod_small (i - 1)) by lia.
      rewrite Nat.mod_small; lia.
  - destruct (decide (i + 1 = count)) as [<-|].
    + rewrite Nat.Div0.mod_same, Nat.mod_small; lia.
    + rewrite (Nat.mod_small (i + 1)) by lia. replace (i + 1 + count - 1) with (i + 1 * count) by lia.
      rewrite Nat.Div0.mod_add, Nat.mod_small; lia.
Qed.

Lemma peer_peer count k : seated count k → peer count (peer count k) = k.
Proof.
  destruct k as [i s]. intros Hi. unfold peer. cbn [fst snd]. rewrite neighbor_back by done. by destruct s.
Qed.

Lemma peer_ne count k : peer count k ≠ k.
Proof. destruct k as [i s]. intros [= _ Hs]. by destruct s. Qed.

Lemma peer_inj count k k' : seated count k → seated count k' → peer count k = peer count k' → k = k'.
Proof. intros Hk Hk' E. by rewrite <- (peer_peer count k), <- (peer_peer count k'), E. Qed.

(** ** The forks *)

(** A fork has been granted to this end, and the grant is on its way. *)
Definition granted (count : nat) (t : Table) (k : End) : Prop :=
  No ∈ inbox t k ∨ handler t (peer count k) = Answers No.

Definition owns (s : State) (side : Side) : bool :=
  match s, side with Eating _, _ | Hungry true, Lft => true | _, _ => false end.

(** The end has the fork of its connection. *)
Definition has_fork (count : nat) (t : Table) (k : End) : Prop :=
  owns (state t k.1) k.2 = true ∨ granted count t k.

Definition loop_fits (l : Loop) (s : State) : Prop :=
  match l with
  | Thinks | GetsHungry => s = Thinking
  | Eats | Finishes => ∃ d, s = Eating d
  | _ => True
  end.

(** The fork a hungry philosopher is asking for. *)
Definition has_left (s : Side) : bool := match s with Lft => false | Rgt => true end.

Record dining_inv (count : nat) (t : Table) : Prop := {
  one_request i : i < count → outstanding count t (i, Lft) + outstanding count t (i, Rgt) ≤ 1;
  request_hungry i s : i < count → 0 < outstanding count t (i, s) → state t i = Hungry (has_left s);
  loop_follows i : i < count → loop_fits (loop t i) (state t i);
  answers_only k m : seated count k → handler t k = Answers m → is_request m = false;
  forks_split k : seated count k → has_fork count t k → ¬ has_fork count t (peer count k);
}.

Lemma requests_app ms m : requests (ms ++ [m]) = requests ms + if is_request m then 1 else 0.
Proof. unfold requests. rewrite List.filter_app, length_app. simpl. by destruct (is_request m). Qed.
Lemma replies_app ms m : replies (ms ++ [m]) = replies ms + if is_request m then 0 else 1.
Proof. unfold replies. rewrite List.filter_app, length_app. simpl. by destruct (is_request m). Qed.
Lemma requests_cons m ms : requests (m :: ms) = (if is_request m then 1 else 0) + requests ms.
Proof. unfold requests. simpl. by destruct (is_request m). Qed.
Lemma replies_cons m ms : replies (m :: ms) = (if is_request m then 0 else 1) + replies ms.
Proof. unfold replies. simpl. by destruct (is_request m). Qed.

Lemma replies_elem m ms : is_request m = false → m ∈ ms → 0 < replies ms.
Proof.
  intros Hm. induction ms as [|m' ms IH]; [by intros ?%elem_of_nil|]. rewrite replies_cons.
  intros [<-|Hin]%elem_of_cons; [rewrite Hm; lia|]. specialize (IH Hin). lia.
Qed.

Lemma granted_outstanding count t k : granted count t k → 0 < outstanding count t k.
Proof.
  unfold outstanding. intros [Hin|Hh].
  - apply (replies_elem No) in Hin; [lia|done].
  - rewrite Hh. simpl. lia.
Qed.

(** A step that starts no request and grants no fork. *)
Lemma dining_inv_quiet count t t' :
  dining_inv count t →
  (∀ k, seated count k → outstanding count t' k ≤ outstanding count t k) →
  (∀ k, seated count k → 0 < outstanding count t' k → state t' k.1 = state t k.1) →
  (∀ k, seated count k → has_fork count t' k → has_fork count t k) →
  (∀ i, i < count → loop_fits (loop t' i) (state t' i)) →
  (∀ k m, seated count k → handler t' k = Answers m → is_request m = false) →
  dining_inv count t'.
Proof.
  intros [H1 H2 H3 H4 H5] Hout Hst Hfork Hl Ha. split; [|  |done|done|].
  - intros i Hi. specialize (H1 i Hi). pose proof (Hout (i, Lft) Hi). pose proof (Hout (i, Rgt) Hi). lia.
  - intros i s Hi Ho. rewrite (Hst (i, s) Hi Ho : state t' i = state t i). apply H2; [done|]. pose proof (Hout (i, s) Hi). lia.
  - intros k Hk F1 F2. apply (H5 k Hk); [by apply Hfork|]. apply Hfork; [by apply peer_seated|done].
Qed.

(** ** Every step keeps the invariant *)

Ltac table :=
  unfold send, set_state, set_loop, set_handler, set_inbox in *; cbn [state loop handler inbox] in *.

Lemma insert_at {A} `{EqDecision A} {B} (f : A → B) a b a' :
  (<[a:=b]> f) a' = if decide (a = a') then b else f a'.
Proof. done. Qed.

Section steps.
Context (count : nat).

(** A change of the loop only, that does not ask. *)
Lemma loop_step t i l :
  dining_inv count t → (∀ s, asking l s ≤ asking (loop t i) s) → loop_fits l (state t i) →
  dining_inv count (set_loop i l t).
Proof.
  intros Hinv Hl Hf. apply (dining_inv_quiet count t); [done| | | | |]; table; try done.
  - intros k Hk. unfold outstanding. table. rewrite insert_at. case_decide; [|lia]. subst. specialize (Hl k.2). lia.
  - intros j Hj. rewrite insert_at. case_decide; [by subst|]. by apply Hinv.
  - intros k m Hk. by apply Hinv.
Qed.

(** A philosopher with nothing outstanding changes its state without acquiring a fork. *)
Lemma state_step t i s l :
  dining_inv count t → (∀ side, outstanding count t (i, side) = 0) →
  (∀ side, owns s side = true → owns (state t i) side = true) →
  (∀ side, asking l side = 0) → loop_fits l s →
  dining_inv count (set_loop i l (set_state i s t)).
Proof.
  intros Hinv Ho Hs Ha Hf.
  assert (∀ k, seated count k → outstanding count (set_loop i l (set_state i s t)) k ≤ outstanding count t k) as Hout.
  { intros k Hk. unfold outstanding. table. rewrite insert_at. case_decide; [|lia]. rewrite Ha. lia. }
  apply (dining_inv_quiet count t); [done|done| | | |]; table.
  - intros k Hk H0. rewrite insert_at. case_decide as E; [|done]. specialize (Hout k Hk).
    destruct k as [j side]; simpl in E; subst. rewrite (Ho side) in Hout. table. lia.
  - intros k Hk [Hown|Hg]; [|by right]. table. rewrite insert_at in Hown. left. case_decide as E; [|done].
    rewrite <- E. by apply Hs.
  - intros j Hj. rewrite !insert_at. case_decide; [by subst|]. by apply Hinv.
  - intros k m Hk. by apply Hinv.
Qed.

(** Starting to ask, with nothing outstanding. *)
Lemma asks_step t i b :
  dining_inv count t → (∀ side, outstanding count t (i, side) = 0) → state t i = Hungry b →
  dining_inv count (set_loop i (Asks b) t).
Proof.
  intros Hinv Ho Es.
  assert (∀ k, seated count k → outstanding count (set_loop i (Asks b) t) k =
    if decide (k.1 = i) then (if decide (wanted b = k.2) then 1 else 0) else outstanding count t k) as Hout.
  { intros k Hk. unfold outstanding. table. rewrite insert_at. destruct k as [j s]; cbn [fst snd].
    destruct (decide (i = j)) as [->|]; [|by rewrite decide_False by congruence].
    rewrite (decide_True (P := j = j)) by done. specialize (Ho s). unfold outstanding in Ho.
    cbn [fst snd asking] in *. case_decide; lia. }
  split.
  - intros j Hj. rewrite !Hout by done. cbn [fst snd]. case_decide; [|by apply Hinv]. destruct b; simpl; lia.
  - intros j s Hj. rewrite Hout by done. cbn [fst snd]. case_decide; [|by apply Hinv]. subst j. simpl. rewrite Es.
    case_decide; [|lia]. destruct b, s; done.
  - intros j Hj. table. rewrite insert_at. case_decide; [done|]. by apply Hinv.
  - intros k m Hk. by apply Hinv.
  - intros k Hk. by apply Hinv.
Qed.

(** Sending a request that was being asked. *)
Lemma ask_step t i b :
  dining_inv count t → i < count → loop t i = Asks b →
  dining_inv count (set_loop i Pauses (send count (i, wanted b) AreYouUsingTheSharedFork t)).
Proof.
  intros Hinv Hi El. set (q := (i, wanted b)).
  apply (dining_inv_quiet count t); [done| | | | |]; table; try done.
  - intros k Hk. unfold outstanding. table. rewrite !insert_at. fold q.
    destruct (decide (peer count q = peer count k)) as [E|Hne].
    + apply peer_inj in E as <-; [|done|done]. rewrite requests_app, (decide_False (P := peer count q = q)) by apply peer_ne.
      rewrite decide_True by done. unfold q. cbn [fst snd is_request]. rewrite El. cbn [asking].
      rewrite decide_True by done. lia.
    + assert (asking (if decide (i = k.1) then Pauses else loop t k.1) k.2 ≤ asking (loop t k.1) k.2)
        by (case_decide; simpl; lia).
      destruct (decide (peer count q = k)) as [<-|]; [|lia]. rewrite replies_app. cbn [is_request]. lia.
  - intros k Hk [Hown|[Hin|Hh]]; [by left| |by right; right]. right; left. table. rewrite insert_at in Hin.
    case_decide as E; [|done]. rewrite <- E. apply elem_of_app in Hin as [?|Hin]; [done|set_solver].
  - intros j Hj. rewrite insert_at. case_decide; [done|]. by apply Hinv.
  - intros k m Hk. by apply Hinv.
Qed.

(** The effect of a handler that takes a message on what is outstanding. *)
Lemma receive_outstanding t t' k m ms h k' :
  seated count k → seated count k' → handler t k = Idle → inbox t k = m :: ms → (∀ i, loop t' i = loop t i) →
  (∀ q, handler t' q = if decide (k = q) then h else handler t q) →
  (∀ q, inbox t' q = if decide (k = q) then ms else inbox t q) →
  outstanding count t' k' +
    (if decide (k' = k) then if is_request m then 0 else 1 else 0) +
    (if decide (k' = peer count k) then if is_request m then 1 else 0 else 0) =
  outstanding count t k' +
    (if decide (k' = k) then reacting h else 0) + (if decide (k' = peer count k) then answering h else 0).
Proof.
  intros Hk Hk' Hh Hi Hl Hh' Hi'. unfold outstanding. rewrite Hl, !Hh', !Hi'.
  destruct (decide (k' = k)) as [->|Hne].
  - rewrite !(decide_False (P := k = peer count k)), !(decide_True (P := k = k)) by (done || by intros ?%eq_sym%peer_ne).
    rewrite Hi, Hh, replies_cons. simpl. lia.
  - rewrite !(decide_False (P := k = k')) by congruence. destruct (decide (k' = peer count k)) as [->|Hne2].
    + rewrite !peer_peer, !decide_True by done. rewrite Hi, Hh, requests_cons. simpl. lia.
    + rewrite !(decide_False (P := k = peer count k')); [lia| |]; intros ->; by rewrite peer_peer in Hne2.
Qed.

(** Nothing but the handler, the inbox and perhaps the state of one end changes. *)
Lemma receive_quiet t t' k m ms h :
  dining_inv count t → seated count k → handler t k = Idle → inbox t k = m :: ms →
  is_request m = false → answering h = 0 →
  (∀ i, loop t' i = loop t i) →
  (∀ q, handler t' q = if decide (k = q) then h else handler t q) →
  (∀ q, inbox t' q = if decide (k = q) then ms else inbox t q) →
  (∀ i, i ≠ k.1 → state t' i = state t i) →
  (state t' k.1 = state t k.1 ∨
   reacting h = 0 ∧ (∀ side, owns (state t' k.1) side = true → owns (state t k.1) side = true ∨ side = k.2 ∧ m = No)) →
  loop_fits (loop t k.1) (state t' k.1) →
  dining_inv count t'.
Proof.
  intros Hinv Hk Hh Hi Hm Ha Hl Hh' Hi' Hs Hst Hf.
  assert (∀ k', seated count k' → outstanding count t' k' + (if decide (k' = k) then 1 else 0) =
    outstanding count t k' + (if decide (k' = k) then reacting h else 0)) as Hout.
  { intros k' Hk'. pose proof (receive_outstanding t t' k m ms h k' Hk Hk' Hh Hi Hl Hh' Hi') as Ho.
    rewrite Hm, Ha in Ho. destruct (decide (k' = peer count k)), (decide (k' = k)); lia. }
  assert (reacting h ≤ 1) by (destruct h; simpl; lia).
  apply (dining_inv_quiet count t); [done| | | | |].
  - intros k' Hk'. specialize (Hout k' Hk'). destruct (decide (k' = k)); lia.
  - intros k' Hk' H0. destruct (decide (k'.1 = k.1)) as [E|]; [|by apply Hs]. rewrite E.
    destruct Hst as [->|[Hr _]]; [done|]. exfalso. rewrite Hr in Hout.
    assert (outstanding count t k' + outstanding count t k ≤ 1 ∨ k' = k) as Hone.
    { destruct k as [i s], k' as [i' s']. simpl in E. subst i'. pose proof (one_request _ _ Hinv i Hk).
      destruct s, s'; auto; left; lia. }
    pose proof (Hout k' Hk') as Ho. pose proof (Hout k Hk) as Ho2. rewrite !(decide_True (P := k = k)) in Ho2 by done.
    destruct (decide (k' = k)) as [->|].
    + destruct k as [i s]. pose proof (one_request _ _ Hinv i Hk). destruct s; lia.
    + destruct Hone; [lia|done].
  - intros k' Hk' [Hown|[Hin|Hg]].
    + destruct (decide (k'.1 = k.1)) as [E|]; [|by left; rewrite <- Hs]. rewrite E in Hown. unfold has_fork. rewrite E.
      destruct Hst as [Est|[_ Hst]]; [by left; rewrite <- Est|].
      destruct (Hst _ Hown) as [?|[E2 ->]]; [by left|]. right. left.
      destruct k as [i s], k' as [i' s']; simpl in *; subst. rewrite Hi. constructor.
    + right; left. rewrite Hi' in Hin. case_decide; [|done]. subst. rewrite Hi. by constructor.
    + right; right. rewrite Hh' in Hg. case_decide; [|done]. subst h. simpl in Ha. lia.
  - intros i Hi2. rewrite Hl. destruct (decide (i = k.1)) as [->|]; [done|]. rewrite Hs by done. by apply Hinv.
  - intros q m' Hq. rewrite Hh'. case_decide; [intros ->; by simpl in Ha|]. by apply Hinv.
Qed.

(** Answering a request: the fork is given away only by a philosopher that thinks. *)
Lemma answer_step t k ms :
  dining_inv count t → seated count k → handler t k = Idle → inbox t k = AreYouUsingTheSharedFork :: ms →
  dining_inv count
    (set_handler k (Answers (if decide (state t k.1 = Thinking) then No else Yes None)) (set_inbox k ms t)).
Proof.
  intros Hinv Hk Hh Hi. set (a := if decide _ then _ else _). set (t' := set_handler _ _ _).
  assert (is_request a = false) as Ha by (unfold a; by case_decide).
  assert (∀ k', seated count k' → outstanding count t' k' = outstanding count t k') as Hout.
  { intros k' Hk'. pose proof (receive_outstanding t t' k _ ms (Answers a) k' Hk Hk' Hh Hi) as Ho.
    specialize (Ho (λ _, eq_refl) (λ _, eq_refl) (λ _, eq_refl)). cbn [is_request reacting answering] in Ho.
    destruct (decide (k' = peer count k)), (decide (k' = k)); lia. }
  assert (∀ k', seated count k' → has_fork count t' k' →
    has_fork count t k' ∨ k' = peer count k ∧ state t k.1 = Thinking) as Hfork.
  { intros k' Hk' [Hown|[Hin|Hg]].
    - by left; left.
    - left; right; left. unfold t' in Hin. table. rewrite insert_at in Hin. case_decide; [|done]. subst. rewrite Hi.
      by constructor.
    - unfold t' in Hg. table. rewrite insert_at in Hg. case_decide as E; [|by left; right; right].
      right. subst k. rewrite peer_peer by done. split; [done|]. injection Hg as Hg. unfold a in Hg. by case_decide. }
  assert (state t k.1 = Thinking → ¬ has_fork count t k) as Hthink.
  { intros E [Hown|Hg%granted_outstanding]; [by rewrite E in Hown|]. destruct k as [i s].
    apply (request_hungry _ _ Hinv) in Hg; [simpl in E; congruence|done]. }
  split.
  - intros i Hi2. rewrite !Hout by done. by apply Hinv.
  - intros i s Hi2. rewrite Hout by done. by apply Hinv.
  - intros i Hi2. by apply Hinv.
  - intros q m Hq. unfold t'. table. rewrite insert_at. case_decide; [by intros [= <-]|by apply Hinv].
  - intros q Hq F1 F2. pose proof (peer_seated count q Hq) as Hpq.
    apply Hfork in F1; [|done]. apply Hfork in F2; [|done].
    destruct F1 as [F1|[-> E]], F2 as [F2|[E2 E']].
    + by apply (forks_split _ _ Hinv q Hq).
    + apply (peer_inj count) in E2 as ->; [|done|done]. by apply Hthink.
    + rewrite peer_peer in F2 by done. by apply Hthink.
    + rewrite peer_peer in E2 by done. by apply (peer_ne count k).
Qed.

(** The end of a reaction, which may send the philosopher back to thinking. *)
Lemma release_step t t' k :
  dining_inv count t → seated count k → reacting (handler t k) = 1 →
  (∀ i, loop t' i = loop t i) → (∀ q, inbox t' q = inbox t q) →
  (∀ q, handler t' q = if decide (k = q) then Idle else handler t q) →
  (∀ i, state t' i = state t i ∨ i = k.1 ∧ state t' i = Thinking) → dining_inv count t'.
Proof.
  intros Hinv Hk Hr Hl Hi Hh Hs.
  assert (∀ q, seated count q → outstanding count t' q + (if decide (k = q) then 1 else 0) = outstanding count t q) as Hout.
  { intros q Hq. unfold outstanding. rewrite Hl, !Hi, !Hh.
    assert (answering (if decide (k = peer count q) then Idle else handler t (peer count q)) =
      answering (handler t (peer count q))) as ->; [|case_decide; subst; simpl; lia].
    case_decide; [|done]. subst. by destruct (handler t (peer count q)). }
  assert (∀ q, seated count q → q.1 = k.1 → outstanding count t' q = 0) as Hnone.
  { intros q Hq E. pose proof (Hout q Hq) as H1. pose proof (Hout k Hk) as H2. rewrite decide_True in H2 by done.
    destruct k as [i s], q as [j s']. simpl in E. subst j. pose proof (one_request _ _ Hinv i Hk).
    destruct s, s'; repeat case_decide; simplify_eq; lia. }
  assert (state t k.1 = Hungry (has_left k.2)) as Est.
  { destruct k as [i s]. apply (request_hungry _ _ Hinv i s Hk). unfold outstanding. rewrite Hr. lia. }
  apply (dining_inv_quiet count t); [done| | | | |].
  - intros q Hq. specialize (Hout q Hq). lia.
  - intros q Hq H0. destruct (Hs q.1) as [?|[E _]]; [done|]. rewrite (Hnone q Hq E) in H0. lia.
  - intros q Hq [Hown|[Hin|Hg]].
    + left. destruct (Hs q.1) as [<-|[_ E]]; [done|]. by rewrite E in Hown.
    + right; left. by rewrite <- Hi.
    + right; right. rewrite Hh in Hg. by case_decide.
  - intros i Hi2. rewrite Hl. pose proof (loop_follows _ _ Hinv i Hi2) as Hf. destruct (Hs i) as [->|[-> ->]]; [done|].
    rewrite Est in Hf. destruct (loop t k.1); simpl in *; try done; by destruct Hf.
  - intros q m Hq. rewrite Hh. case_decide; [done|]. by apply Hinv.
Qed.

(** The rest of a message. *)
Lemma resume_step t k t' :
  dining_inv count t → seated count k → resume count k t = Some t' → dining_inv count t'.
Proof.
  intros Hinv Hk. unfold resume. destruct (handler t k) as [|m| |] eqn:Eh; [done| | |].
  - pose proof (answers_only _ _ Hinv k m Hk Eh) as Hm. intros [= <-].
    apply (dining_inv_quiet count t); [done| | | | |]; table; try done.
    + intros q Hq. unfold outstanding. table. rewrite !insert_at.
      destruct (decide (q = peer count k)) as [->|Hne].
      * rewrite peer_peer, !(decide_True (P := k = k)), (decide_True (P := peer count k = peer count k)) by done.
        rewrite (decide_False (P := peer count k = k)) by apply peer_ne.
        rewrite !(decide_False (P := k = peer count k)) by (by intros ?%eq_sym%peer_ne).
        rewrite Eh, replies_app, Hm. simpl. lia.
      * rewrite (decide_False (P := k = peer count q)) by (intros ->; by rewrite peer_peer in Hne).
        rewrite (decide_False (P := peer count k = q)) by congruence.
        assert (reacting (if decide (k = q) then Idle else handler t q) ≤ reacting (handler t q)) by (case_decide; simpl; lia).
        destruct (decide (peer count k = peer count q)) as [E|]; [|lia].
        apply peer_inj in E as <-; [|done|done]. rewrite requests_app, Hm. lia.
    + intros q Hq [Hown|[Hin|Hg]]; [by left| |]; right; table.
      * rewrite insert_at in Hin. case_decide as E; [|by left]. subst q.
        apply elem_of_app in Hin as [?|E2%list_elem_of_singleton]; [by left|]. subst m. right. by rewrite peer_peer.
      * rewrite insert_at in Hg. case_decide; [done|]. by right.
    + intros i Hi. by apply Hinv.
    + intros q m' Hq. rewrite insert_at. case_decide; [done|]. by apply Hinv.
  - destruct (writable t k.1); [|done]. intros [= <-].
    apply (release_step t _ k); try done; [by rewrite Eh|]. table. intros i. rewrite insert_at. case_decide; auto.
  - intros [= <-]. apply (release_step t _ k); try done; [by rewrite Eh|]. table. auto.
Qed.

(** Handling a message. *)
Lemma receive_step t k m ms time t' :
  dining_inv count t → seated count k → handler t k = Idle → inbox t k = m :: ms →
  process_message k m time (set_inbox k ms t) = Some t' → dining_inv count t'.
Proof.
  intros Hinv Hk Hh Hi. unfold process_message.
  assert (is_request m = false → state t k.1 = Hungry (has_left k.2)) as Hst.
  { intros Hm. destruct k as [i s]. apply (request_hungry _ _ Hinv i s Hk). unfold outstanding.
    rewrite Hi, replies_cons, Hm. lia. }
  assert (∀ q, handler t q = if decide (k = q) then Idle else handler t q) as Hidle.
  { intros q. case_decide; by subst. }
  pose proof (loop_follows _ _ Hinv _ Hk) as Hf.
  destruct m as [|d|].
  - intros [= <-]. by apply answer_step.
  - specialize (Hst eq_refl). assert (∀ h, answering h = 0 → dining_inv count (set_handler k h (set_inbox k ms t))) as Hgo.
    { intros h Ha. by apply (receive_quiet t _ k (Yes d) ms h); auto. }
    destruct (decide _) as [E|]; [destruct d|]; intros [= <-]; [by apply Hgo| |by apply Hgo].
    apply (receive_quiet t _ k (Yes None) ms Idle); auto.
  - specialize (Hst eq_refl). destruct (_ && _); [|done]. intros [= <-]. table. rewrite Hst in *.
    assert (∀ s, loop_fits (loop t k.1) s) as Hfits.
    { intros s. destruct (loop t k.1); simpl in *; try done; by destruct Hf. }
    destruct (has_left k.2) eqn:El; [rewrite decide_False, decide_True by done|rewrite decide_True by done].
    all: apply (receive_quiet t _ k No ms Idle); auto; table.
    all: try (intros i Hne; rewrite insert_at; by rewrite decide_False).
    all: right; split; [done|]; intros side; rewrite insert_at, Hst, decide_True by done; destruct side, (k.2); auto.
Qed.

End steps.

(** A step of the dining loop. *)
Lemma dine_step count t i ok t' :
  dining_inv count t → i < count → timely count (Dine i ok) t = true → start_dining count i ok t = Some t' →
  dining_inv count t'.
Proof.
  intros Hinv Hi Ht. unfold start_dining. pose proof (loop_follows _ _ Hinv i Hi) as Hf.
  assert (∀ s, (∀ side, state t i ≠ Hungry (has_left side)) → outstanding count t (i, s) = 0) as Hnone.
  { intros s Hs. destruct (outstanding count t (i, s)) eqn:E; [done|]. exfalso. apply (Hs s).
    apply (request_hungry _ _ Hinv); [done|lia]. }
  destruct (loop t i) as [| | |b| | | |] eqn:El.
  - unfold timely in Ht. rewrite El in Ht. intros [= <-]. destruct (state t i) as [|b|d] eqn:Es.
    + apply loop_step; [done|rewrite El; simpl; lia|done].
    + apply Nat.eqb_eq in Ht. apply asks_step; auto; intros []; lia.
    + apply loop_step; [done|rewrite El; simpl; lia|rewrite Es; simpl; eauto].
  - intros [= <-]. apply loop_step; [done|rewrite El; simpl; lia|done].
  - case_match; [|done]. intros [= <-]. simpl in Hf. apply state_step; try done.
    intros s. apply Hnone. rewrite Hf. done.
  - intros [= <-]. destruct ok; [by apply ask_step|]. apply loop_step; [done|simpl; lia|done].
  - intros [= <-]. apply loop_step; [done|rewrite El; simpl; lia|done].
  - intros [= <-]. apply loop_step; [done|rewrite El; simpl; lia|done].
  - case_match; [|done]. intros [= <-]. destruct Hf as [d Hf]. apply state_step; try done.
    intros s. apply Hnone. rewrite Hf. done.
  - done.
Qed.

Lemma dining_step_inv count e t t' :
  dining_inv count t → timely count e t = true → dining_step count e t = Some t' → dining_inv count t'.
Proof.
  intros Hinv Ht. unfold dining_step. destruct (Nat.ltb_spec (actor e) count) as [Ha|]; [|done].
  destruct e as [i ok|k time|k]; simpl in Ha.
  - by apply dine_step.
  - destruct (handler t k) eqn:Eh; [|done..]. destruct (inbox t k) as [|m ms] eqn:Ei; [done|].
    by apply receive_step.
  - by apply resume_step.
Qed.

Lemma laid_inv count : dining_inv count laid.
Proof.
  split; try done; [intros; unfold outstanding; simpl; lia|intros i s _; unfold outstanding; simpl; lia|].
  intros k _ [Hown|[Hin|Hg]]; [done|by apply elem_of_nil in Hin|done].
Qed.

Lemma dining_run_inv count es t t' :
  dining_inv count t → dining count true es t = Some t' → dining_inv count t'.
Proof.
  revert t. induction es as [|e es IH]; intros t Hinv; cbn [dining]; [by intros [= <-]|].
  simpl negb. cbn [orb]. destruct (timely count e t) eqn:Et; [|done].
  destruct (dining_step count e t) as [t1|] eqn:Es; [|done]. simpl. apply IH. by eapply dining_step_inv.
Qed.

(** ** Theorems *)

Definition eating (t : Table) (i : nat) : bool := match state t i with Eating _ => true | _ => false end.

(** C38. Neighbors never eat at the same time, as long as the pause between two requests of a
    philosopher is long enough for the first to be dealt with: in every such run, in any interleaving
    of the dining loops and the message handlers, a philosopher that eats has the fork of each of its
    connections, and the neighbor at the other end of it does not have it. *)
Theorem forks_exclusive count es t k :
  dining count true es laid = Some t → k.1 < count →
  ¬ (has_fork count t k ∧ has_fork count t (peer count k)) ∧
  (eating t k.1 = true → has_fork count t k ∧ eating t (neighbor count k.2 k.1) = false).
Proof.
  intros Hrun Hk. pose proof (dining_run_inv _ _ _ _ (laid_inv count) Hrun) as Hinv.
  assert (∀ q, eating t q.1 = true → has_fork count t q) as Heat.
  { intros q Hq. left. unfold eating in Hq. by destruct (state t q.1). }
  assert (¬ (has_fork count t k ∧ has_fork count t (peer count k))) as Hno.
  { intros [F1 F2]. by apply (forks_split _ _ Hinv k Hk). }
  split; [done|]. intros E. split; [by apply Heat|]. apply not_true_is_false. intros E2. apply Hno.
  split; [by apply Heat|by apply (Heat (peer count k))].
Qed.

(** ** Examples *)

(** Philosopher [i] gets hungry; asks its neighbor, is answered and takes note. *)
Definition starve (i : nat) : list Event := [Dine i true; Dine i true; Dine i true].
Definition ask (i : nat) : list Event := [Dine i true; Dine i true; Dine i true].
Definition answer (count i : nat) (s : Side) : list Event :=
  [Receive (peer count (i, s)) 500; Resume (peer count (i, s)); Receive (i, s) 500].

Definition meal (count i : nat) : list Event :=
  starve i ++ ask i ++ answer count i Lft ++ ask i ++ answer count i Rgt.

Definition diners (count : nat) (t : option Table) : option (list bool) :=
  (λ t, eating t <$> seq 0 count) <$> t.

(** Two philosophers that do not sit next to each other eat together. *)
Example two_diners :
  diners 5 (dining 5 true (meal 5 0 ++ meal 5 2) laid) = Some [true; false; true; false; false].
Proof. vm_compute. reflexivity. Qed.

(** If the answer takes longer than the pause, the request is repeated, and the two answers of the
    left neighbor count as the left and the right fork: philosopher 1 eats while its right neighbor
    does. *)
Lemma late_answers_share_a_fork :
  diners 5 (dining 5 false (meal 5 2 ++ starve 1 ++ ask 1 ++ ask 1 ++ answer 5 1 Lft ++ answer 5 1 Lft) laid) =
  Some [false; true; true; false; false].
Proof. vm_compute. reflexivity. Qed.

Lemma forks_exclusive_witness :
  ∃ t, dining 5 true (meal 5 0 ++ meal 5 2) laid = Some t ∧ eating t 2 = true ∧
    ¬ (has_fork 5 t (2, Rgt) ∧ has_fork 5 t (3, Lft)) ∧ eating t 3 = false.
Proof.
  destruct (dining 5 true (meal 5 0 ++ meal 5 2) laid) as [t|] eqn:E; [|vm_compute in E; discriminate E].
  exists t. assert (eating t 2 = true) as He.
  { pose proof two_diners as H. rewrite E in H. vm_compute in E. injection E as <-. reflexivity. }
  destruct (forks_exclusive 5 (meal 5 0 ++ meal 5 2) t (2, Rgt) E ltac:(simpl; lia)) as [H1 H2].
  split; [reflexivity|]. split; [exact He|]. split; [exact H1|]. apply (proj2 (H2 He)).
Defined.
