(* ===== verification/HotPotato.v ===== *)
(** * The hot potato game ([examples/examples/hot_potato_game.rs])

    The players of the game as one transition system: what each knows of the others, the potatoes and
    announcements on the wire, and the throws in progress.  Messages may be delivered in any order,
    processed concurrently, or lost; which player a throw picks, and the order in which a [HashMap]
    is iterated, are decided by the environment. *)

From S2P Require Import Prelude Net.

Open Scope N_scope.

(** ** The players *)

Record PlayerInfo := mkPlayerInfo { pi_addr : SocketAddr; is_carrier : bool }.

(** [Player]; [links] are the node's connections, by the player at the other end. *)
Record Player := mkPlayer {
  pl_name : string;
  other_players : gmap string PlayerInfo;
  potato_count : N;
  links : gmap SocketAddr nat;
}.

Inductive PotatoMessage := HotPotato | IHaveThePotato (carrier : string).

Definition set_carrier (b : bool) (p : PlayerInfo) : PlayerInfo := mkPlayerInfo (pi_addr p) b.

Definition carries (m : gmap string PlayerInfo) (name : string) : bool :=
  match m !! name with Some p => is_carrier p | None => false end.

(** [clear_carrier], iterating in the given order; whether its assertion holds, and the map. *)
Definition clear_carrier (order : list string) (m : gmap string PlayerInfo) : bool * gmap string PlayerInfo :=
  let m := match list_find (λ name, carries m name = true) order with
           | Some (_, name) => alter (set_carrier false) name m
           | None => m
           end in
  (bool_decide (map_Forall (λ _ p, is_carrier p = false) m), m).

Definition set_others (p : Player) (m : gmap string PlayerInfo) : Player :=
  mkPlayer (pl_name p) m (potato_count p) (links p).
Definition add_potato (p : Player) : Player :=
  mkPlayer (pl_name p) (other_players p) (wrapping_add (potato_count p) 1) (links p).
Definition set_links (p : Player) (l : gmap SocketAddr nat) : Player :=
  mkPlayer (pl_name p) (other_players p) (potato_count p) l.

(** The end of [perform_handshake], with the name read from the stream. *)
Definition introduce (peer_name : string) (addr : SocketAddr) (p : Player) : Player :=
  set_others p (<[peer_name := mkPlayerInfo addr false]> (other_players p)).

(** What [process_message] does before it throws the potato on: the player, whether the assertion
    holds, and whether there is a potato to throw. *)
Definition process_potato (order : list string) (p : Player) (m : PotatoMessage) : bool * Player * bool :=
  let '(ok, others) := clear_carrier order (other_players p) in
  let p := set_others p others in
  if ok then
    match m with
    | HotPotato => (true, add_potato p, true)
    | IHaveThePotato carrier =>
        (true, set_others p (alter (set_carrier true) carrier (other_players p)), false)
    end
  else (false, p, false).

(** ** The game *)

(** [throw_potato]: announcing to the remaining peers, then picking a player, then throwing. *)
Inductive ThrowPc := Announcing (peers : list SocketAddr) | Throwing (addr : SocketAddr).

Record Game := mkGame {
  players : list Player;
  wire : list (nat * PotatoMessage);
  throws : list (nat * ThrowPc);
  lost : nat;
  asserts_ok : bool;
}.

(** The start of [throw_potato] by player [i]. *)
Definition start_throw (i : nat) (p : Player) : nat * ThrowPc := (i, Announcing (map_to_list (links p)).*1).

Definition is_potato (m : nat * PotatoMessage) : bool := match m.2 with HotPotato => true | _ => false end.

(** Handing a message for [addr] to the node of [p]; if it is not [sent], it never arrives. *)
Definition post (p : Player) (addr : SocketAddr) (m : PotatoMessage) (sent : bool) (w : list (nat * PotatoMessage))
  : bool * list (nat * PotatoMessage) :=
  match links p !! addr with
  | Some j => if sent then (true, w ++ [(j, m)]) else (false, w)
  | None => (false, w)
  end.

(** What happens next: two players meet (a handshake completes, a connection opens or closes), a
    message arrives or is dropped, or a throw takes its next step. *)
Inductive GameEvent :=
| Introduced (i : nat) (peer_name : string) (addr : SocketAddr)
| Linked (i : nat) (addr : SocketAddr) (j : nat)
| Unlinked (i : nat) (addr : SocketAddr)
| Delivered (k : nat) (order : list string)
| Vanished (k : nat)
| Announced (k : nat) (sent : bool)
| Picked (k : nat) (name : string)
| NobodyThere (k : nat)
| Thrown (k : nat) (sent : bool).

Definition update_player (i : nat) (f : Player → Player) (g : Game) : option Game :=
  p ← players g !! i;
  Some (mkGame (<[i := f p]> (players g)) (wire g) (throws g) (lost g) (asserts_ok g)).

Definition deliver (k : nat) (order : list string) (g : Game) : option Game :=
  '(i, m) ← wire g !! k;
  p ← players g !! i;
  let '(ok, p', throw) := process_potato order p m in
  Some (mkGame (<[i := p']> (players g)) (delete k (wire g))
          (throws g ++ (if throw then [start_throw i p'] else []))
          (lost g + b2n (is_potato (i, m) && negb throw)) (asserts_ok g && ok)).

(** The steps of [throw_potato]. *)
Definition throw_potato (k : nat) (e : GameEvent) (g : Game) : option Game :=
  '(i, pc) ← throws g !! k;
  p ← players g !! i;
  match pc, e with
  | Announcing (a :: peers), Announced _ sent =>
      let '(_, w) := post p a (IHaveThePotato (pl_name p)) sent (wire g) in
      Some (mkGame (players g) w (<[k := (i, Announcing peers)]> (throws g)) (lost g) (asserts_ok g))
  | Announcing [], Picked _ name =>
      info ← other_players p !! name;
      Some (mkGame (players g) (wire g) (<[k := (i, Throwing (pi_addr info))]> (throws g)) (lost g) (asserts_ok g))
  | Announcing [], NobodyThere _ =>
      (* [choose] finds nobody, and the [unwrap] panics *)
      if decide (other_players p = ∅)
      then Some (mkGame (players g) (wire g) (delete k (throws g)) (S (lost g)) (asserts_ok g))
      else None
  | Throwing a, Thrown _ sent =>
      let '(there, w) := post p a HotPotato sent (wire g) in
      Some (mkGame (players g) w (delete k (throws g)) (lost g + b2n (negb there)) (asserts_ok g))
  | _, _ => None
  end.

Definition game_step (e : GameEvent) (g : Game) : option Game :=
  match e with
  | Introduced i name addr => update_player i (introduce name addr) g
  | Linked i addr j => update_player i (λ p, set_links p (<[addr := j]> (links p))) g
  | Unlinked i addr => update_player i (λ p, set_links p (delete addr (links p))) g
  | Delivered k order =>
      '(i, _) ← wire g !! k;
      p ← players g !! i;
      if decide (order ≡ₚ (map_to_list (other_players p)).*1) then deliver k order g else None
  | Vanished k =>
      m ← wire g !! k;
      Some (mkGame (players g) (delete k (wire g)) (throws g) (lost g + b2n (is_potato m)) (asserts_ok g))
  | Announced k _ | Picked k _ | NobodyThere k | Thrown k _ => throw_potato k e g
  end.

Fixpoint game_run (es : list GameEvent) (g : Game) : option Game :=
  match es with
  | [] => Some g
  | e :: es => g ← game_step e g; game_run es g
  end.

(** The players before they meet. *)
Definition new_player (name : string) : Player := mkPlayer name ∅ 0 ∅.
Definition lobby (names : list string) : Game := mkGame (new_player <$> names) [] [] 0 true.

(** [main] hands the potato to the first carrier. *)
Definition kick_off (i : nat) (g : Game) : option Game :=
  p ← players g !! i;
  let p := add_potato p in
  Some (mkGame (<[i := p]> (players g)) (wire g) (throws g ++ [start_throw i p]) (lost g) (asserts_ok g)).

(** ** One carrier at a time *)

Definition one_carrier (m : gmap string PlayerInfo) : Prop :=
  ∀ a b, carries m a = true → carries m b = true → a = b.

Lemma carries_alter b name m a :
  carries (alter (set_carrier b) name m) a =
    if decide (a = name) then bool_decide (is_Some (m !! a)) && b else carries m a.
Proof.
  unfold carries. rewrite lookup_alter. case_decide as E; [|by rewrite decide_False by congruence].
  subst. rewrite decide_True by done. by destruct (m !! a), b.
Qed.

(** With one carrier at most, clearing clears, whatever the order. *)
Lemma clear_carrier_clears order m :
  order ≡ₚ (map_to_list m).*1 → one_carrier m →
  (clear_carrier order m).1 = true ∧ (∀ a, carries (clear_carrier order m).2 a = false) ∧
  ∀ a, is_Some ((clear_carrier order m).2 !! a) ↔ is_Some (m !! a).
Proof.
  intros Ho Hm. unfold clear_carrier. cbn [fst snd].
  set (m' := match list_find _ _ with Some _ => _ | None => _ end).
  assert ((∀ a, carries m' a = false) ∧ ∀ a, is_Some (m' !! a) ↔ is_Some (m !! a)) as [Hc Hd].
  { unfold m'. destruct (list_find _ order) as [[i name]|] eqn:E.
    - apply list_find_Some in E as (_&Hn&_). split.
      + intros a. rewrite carries_alter. case_decide; [by rewrite andb_false_r|].
        destruct (carries m a) eqn:Ha; [|done]. by destruct (Hm a name Ha Hn).
      + intros a. apply lookup_alter_is_Some.
    - split; [|done]. intros a. destruct (carries m a) eqn:Ha; [|done]. exfalso.
      apply list_find_None in E. rewrite Forall_forall in E. apply (E a); [|done].
      rewrite Ho. unfold carries in Ha. destruct (m !! a) as [p|] eqn:Hp; [|done].
      apply list_elem_of_fmap. exists (a, p). split; [done|]. by apply elem_of_map_to_list. }
  split_and!; [|done..]. apply bool_decide_eq_true_2. intros a p Hp. specialize (Hc a).
  unfold carries in Hc. by rewrite Hp in Hc.
Qed.

(** ** The invariant of the game *)

(** A player of that name has had the potato. *)
Definition had_potato (ps : list Player) (name : string) : Prop :=
  ∃ j p, ps !! j = Some p ∧ pl_name p = name ∧ 0 < potato_count p.

Definition potatoes (g : Game) : nat := (countb is_potato (wire g) + length (throws g))%nat.

(** [n] potatoes are in play, and no player has had the potato more than [k] times. *)
Record GameInv (n : nat) (k : N) (g : Game) : Prop := {
  gi_potatoes : (potatoes g + lost g = n)%nat;
  gi_asserts : asserts_ok g = true;
  gi_carriers i p : players g !! i = Some p → one_carrier (other_players p);
  gi_counts i p : players g !! i = Some p → potato_count p ≤ k;
  gi_flags i p a : players g !! i = Some p → carries (other_players p) a = true → had_potato (players g) a;
  gi_wire i a : (i, IHaveThePotato a) ∈ wire g → had_potato (players g) a;
  gi_throws i pc p : (i, pc) ∈ throws g → players g !! i = Some p → 0 < potato_count p;
}.

(** Updating a player keeps what is known about who has had the potato. *)
Lemma had_potato_insert ps i p p' a :
  ps !! i = Some p → pl_name p' = pl_name p → potato_count p ≤ potato_count p' →
  had_potato ps a → had_potato (<[i := p']> ps) a.
Proof.
  intros Hi Hn Hc (j&q&Hj&Hq&Hp). destruct (decide (i = j)) as [->|Hne].
  - exists j, p'. rewrite list_lookup_insert_eq by (by eapply lookup_lt_Some). simplify_eq. split_and!; [done|done|lia].
  - exists j, q. by rewrite list_lookup_insert_ne.
Qed.

(** A player is updated, messages and throws are taken away or added by the way. *)
Lemma game_inv_update n k k' g i p p' w ths l :
  GameInv n k g → players g !! i = Some p → pl_name p' = pl_name p → k ≤ k' →
  potato_count p ≤ potato_count p' ≤ k' →
  (countb is_potato w + length ths + l = n)%nat → one_carrier (other_players p') →
  (∀ a, carries (other_players p') a = true → had_potato (<[i := p']> (players g)) a) →
  (∀ m, m ∈ w → m ∈ wire g) →
  (∀ j pc, (j, pc) ∈ ths → (∃ pc, (j, pc) ∈ throws g) ∨ j = i ∧ 0 < potato_count p') →
  GameInv n k' (mkGame (<[i := p']> (players g)) w ths l true).
Proof.
  intros [I1 I2 I3 I4 I5 I6 I7] Hi Hn Hk [Hc Hc'] Hp Ho Hf Hw Ht.
  assert (∀ j q, <[i := p']> (players g) !! j = Some q → j = i ∧ q = p' ∨ j ≠ i ∧ players g !! j = Some q) as Hcase.
  { intros j q [(->&->&_)|[? ?]]%list_lookup_insert_Some; auto. }
  split; simpl; [done|done|..].
  - intros j q [[-> ->]|[_ Hj]]%Hcase; [done|by eapply I3].
  - intros j q [[-> ->]|[_ Hj]]%Hcase; [done|]. apply I4 in Hj. lia.
  - intros j q a [[-> ->]|[_ Hj]]%Hcase Ha; [by apply Hf|]. eapply had_potato_insert; [done..|by eapply I5].
  - intros j a Hj%Hw. eapply had_potato_insert; [done..|by eapply I6].
  - intros j pc q Hj [[-> ->]|[Hne Hq]]%Hcase.
    + apply Ht in Hj as [[pc' Hj]|[_ ?]]; [|done]. apply (I7 _ _ p) in Hj; [lia|done].
    + apply Ht in Hj as [[pc' Hj]|[-> _]]; [|done]. by apply (I7 _ _ q) in Hj.
Qed.

(** The players stay as they are. *)
Lemma game_inv_same n k g w ths l :
  GameInv n k g → (countb is_potato w + length ths + l = n)%nat →
  (∀ i a, (i, IHaveThePotato a) ∈ w → had_potato (players g) a) →
  (∀ i pc, (i, pc) ∈ ths → ∃ pc, (i, pc) ∈ throws g) →
  GameInv n k (mkGame (players g) w ths l (asserts_ok g)).
Proof.
  intros [I1 I2 I3 I4 I5 I6 I7] Hp Hw Ht. split; simpl; try done.
  intros i pc p [pc' Hi]%Ht. by eapply I7.
Qed.

Lemma potatoes_delete k (w : list (nat * PotatoMessage)) m :
  w !! k = Some m → (countb is_potato (delete k w) + b2n (is_potato m) = countb is_potato w)%nat.
Proof.
  revert k. induction w as [|x w IH]; intros [|k] H; simplify_eq/=; [lia|]. pose proof (IH k H).
  unfold delete in *. lia.
Qed.

Lemma elem_of_list_delete {A} (k : nat) (l : list A) x : x ∈ delete k l → x ∈ l.
Proof. intros [i Hi]%list_elem_of_lookup_1. rewrite list_lookup_delete in Hi. case_match; by eapply list_elem_of_lookup_2. Qed.

Lemma game_inv_mono n k k' g : GameInv n k g → k ≤ k' → GameInv n k' g.
Proof. intros [I1 I2 I3 I4 I5 I6 I7] Hk. split; try done. intros i p Hi. apply I4 in Hi. lia. Qed.

(** The handshake and the connections. *)
Lemma update_player_inv n k g i f g' :
  update_player i f g = Some g' → GameInv n k g →
  (∀ p, pl_name (f p) = pl_name p ∧ potato_count (f p) = potato_count p ∧
        ∀ a, carries (other_players (f p)) a = true → carries (other_players p) a = true) →
  GameInv n k g'.
Proof.
  intros H Hinv Hf. unfold update_player in H. destruct (players g !! i) as [p|] eqn:Hi; simplify_eq/=.
  destruct (Hf p) as (Hn&Hc&Hca). pose proof Hinv as [I1 I2 I3 I4 I5 I6 I7]. rewrite I2.
  eapply game_inv_update; [done|done|done|lia| |done| | |done|].
  - rewrite Hc. apply I4 in Hi. lia.
  - intros a b Ha%Hca Hb%Hca. by eapply I3.
  - intros a Ha%Hca. eapply had_potato_insert; [done|done|lia|by eapply I5].
  - eauto.
Qed.

Lemma deliver_inv n k g m order g' :
  deliver m order g = Some g' → GameInv n k g → k + 1 < u64_max →
  (∀ i x p, wire g !! m = Some (i, x) → players g !! i = Some p → order ≡ₚ (map_to_list (other_players p)).*1) →
  GameInv n (k + 1) g'.
Proof.
  intros H Hinv Hk Ho. unfold deliver in H. destruct (wire g !! m) as [[i x]|] eqn:Hm; simplify_eq/=.
  destruct (players g !! i) as [p|] eqn:Hi; simplify_eq/=. specialize (Ho i x p eq_refl Hi).
  pose proof Hinv as [I1 I2 I3 I4 I5 I6 I7]. unfold process_potato in H.
  destruct (clear_carrier_clears order (other_players p) Ho (I3 _ _ Hi)) as (C1&C2&C3).
  destruct (clear_carrier order (other_players p)) as [ok others]. simpl in C1, C2, C3. subst ok.
  pose proof (potatoes_delete _ _ _ Hm) as Hd. pose proof (I4 _ _ Hi) as Hcount.
  assert (∀ y, y ∈ delete m (wire g) → y ∈ wire g) as Hsub by apply elem_of_list_delete.
  destruct x as [|carrier]; simplify_eq/=; rewrite I2; simpl.
  - assert (wrapping_add (potato_count p) 1 = potato_count p + 1) as Ew by (apply N.mod_small; lia).
    eapply game_inv_update; [done|done|done|lia|simpl; rewrite Ew; lia| | | |done|]; simpl.
    + unfold potatoes in *. rewrite length_app. simpl in *. lia.
    + intros a b Ha. by rewrite C2 in Ha.
    + intros a Ha. by rewrite C2 in Ha.
    + intros j pc [?|[= -> _]%list_elem_of_singleton]%elem_of_app; [by eauto|]. right. split; [done|]. rewrite Ew. lia.
  - assert (∀ a, carries (alter (set_carrier true) carrier others) a = true → a = carrier) as Hone.
    { intros a. rewrite carries_alter. case_decide; [done|]. by rewrite C2. }
    eapply game_inv_update; [done|done|done|lia|simpl; lia| | | |done|]; simpl.
    + unfold potatoes in *. rewrite app_nil_r. simpl in *. lia.
    + intros a b Ha%Hone Hb%Hone. congruence.
    + intros a Ha%Hone. subst a. eapply had_potato_insert; [done|done|simpl; lia|]. eapply I6. by eapply list_elem_of_lookup_2.
    + intros j pc [?|?%elem_of_nil]%elem_of_app; [by eauto|done].
Qed.

Lemma post_inv p a m sent w ok w' :
  post p a m sent w = (ok, w') → (ok = false ∧ w' = w) ∨ (ok = true ∧ ∃ j, w' = w ++ [(j, m)]).
Proof. unfold post. intros. repeat case_match; simplify_eq; eauto. Qed.

Lemma elem_of_insert_throw (k : nat) i pc pc' j q (l : list (nat * ThrowPc)) :
  l !! k = Some (i, pc) → (j, q) ∈ <[k := (i, pc')]> l → ∃ q, (j, q) ∈ l.
Proof.
  intros Hk [x Hx]%list_elem_of_lookup_1. apply list_lookup_insert_Some in Hx as [(_&[= -> ->]&_)|[_ Hx]];
    eexists; by eapply list_elem_of_lookup_2.
Qed.

Lemma throw_potato_inv n k g m e g' : throw_potato m e g = Some g' → GameInv n k g → GameInv n k g'.
Proof.
  intros H Hinv. unfold throw_potato in H. destruct (throws g !! m) as [[i pc]|] eqn:Hm; simplify_eq/=.
  destruct (players g !! i) as [p|] eqn:Hi; simplify_eq/=. pose proof Hinv as [I1 I2 I3 I4 I5 I6 I7].
  pose proof (lookup_lt_Some _ _ _ Hm) as Hl. pose proof (length_delete (throws g) m ltac:(eauto)) as Hd.
  assert (∀ j q, (j, q) ∈ delete m (throws g) → ∃ q, (j, q) ∈ throws g) as Hdel
    by (intros j q ?%elem_of_list_delete; eauto).
  destruct pc as [[|a peers]|a], e; simplify_eq/=.
  - destruct (other_players p !! name) as [info|]; simplify_eq/=. eapply game_inv_same; [done| |done|].
    + unfold potatoes in *. by rewrite length_insert.
    + intros j q. by eapply elem_of_insert_throw.
  - case_decide; simplify_eq. eapply game_inv_same; [done| |done|done]. unfold potatoes in *. lia.
  - destruct (post _ _ _ _ _) as [ok w] eqn:Ep; simplify_eq/=. eapply game_inv_same; [done|..].
    + unfold potatoes in *. rewrite length_insert. apply post_inv in Ep as [[_ ->]|[_ [j ->]]]; [done|].
      rewrite countb_app. simpl. lia.
    + intros j x Hx. apply post_inv in Ep as [[_ ->]|[_ [j' ->]]]; [by eapply I6|].
      apply elem_of_app in Hx as [Hx|[= _ ->]%list_elem_of_singleton]; [by eapply I6|].
      exists i, p. split_and!; [done..|]. eapply I7; [|done]. by eapply list_elem_of_lookup_2.
    + intros j q. by eapply elem_of_insert_throw.
  - destruct (post _ _ _ _ _) as [ok w] eqn:Ep; simplify_eq/=. apply post_inv in Ep as [[-> ->]|[-> [j ->]]]; simpl.
    + eapply game_inv_same; [done| |done|done]. unfold potatoes in *. lia.
    + eapply game_inv_same; [done| | |done].
      * unfold potatoes in *. rewrite countb_app. simpl. lia.
      * intros j' x [Hx|[= ?]%list_elem_of_singleton]%elem_of_app. by eapply I6.
Qed.

Lemma game_step_inv n k e g g' :
  game_step e g = Some g' → GameInv n k g → k + 1 < u64_max → GameInv n (k + 1) g'.
Proof.
  intros H Hinv Hk. destruct e; simpl in H.
  - eapply game_inv_mono; [|by apply N.le_add_r]. eapply update_player_inv; [done..|]. intros p. split_and!; [done..|].
    intros a. unfold carries. simpl. rewrite lookup_insert. by case_decide.
  - eapply game_inv_mono; [|by apply N.le_add_r]. by eapply update_player_inv.
  - eapply game_inv_mono; [|by apply N.le_add_r]. by eapply update_player_inv.
  - destruct (wire g !! k0) as [[i x]|] eqn:Hw; simplify_eq/=. destruct (players g !! i) as [p|] eqn:Hi; simplify_eq/=.
    case_decide; simplify_eq. eapply deliver_inv; [done..|]. intros j y q Hj Hq. rewrite Hw in Hj. by simplify_eq.
  - destruct (wire g !! k0) as [m|] eqn:Hw; simplify_eq/=. eapply game_inv_mono; [|by apply N.le_add_r].
    pose proof (potatoes_delete _ _ _ Hw). pose proof Hinv as [I1 _ _ _ _ I6 _].
    eapply game_inv_same; [done| | |by eauto].
    + unfold potatoes in I1. lia.
    + intros j a Hj%elem_of_list_delete. by eapply I6.
  - eapply game_inv_mono; [by eapply throw_potato_inv|lia].
  - eapply game_inv_mono; [by eapply throw_potato_inv|lia].
  - eapply game_inv_mono; [by eapply throw_potato_inv|lia].
  - eapply game_inv_mono; [by eapply throw_potato_inv|lia].
Qed.

Lemma game_run_inv es n k g g' :
  game_run es g = Some g' → GameInv n k g → k + N.of_nat (length es) < u64_max →
  GameInv n (k + N.of_nat (length es)) g'.
Proof.
  revert k g. induction es as [|e es IH]; intros k g H Hinv Hk; simplify_eq/=.
  { by rewrite N.add_0_r. }
  destruct (game_step e g) as [g1|] eqn:E; simplify_eq/=.
  replace (k + N.of_nat (S (length es))) with (k + 1 + N.of_nat (length es)) in * by lia.
  eapply IH; [done| |done]. eapply game_step_inv; [done..|lia].
Qed.

Lemma lobby_inv names : GameInv 0 0 (lobby names).
Proof.
  assert (∀ i p, (new_player <$> names) !! i = Some p → ∃ name, p = new_player name) as Hp.
  { intros i p (name&->&_)%list_lookup_fmap_Some. eauto. }
  split; simpl; try done.
  - intros i p [name ->]%Hp a b Ha. unfold carries in Ha. simpl in Ha. by rewrite lookup_empty in Ha.
  - by intros i p [name ->]%Hp.
  - intros i p a [name ->]%Hp Ha. unfold carries in Ha. simpl in Ha. by rewrite lookup_empty in Ha.
  - by intros i a ?%elem_of_nil.
  - by intros i pc p ?%elem_of_nil.
Qed.

Lemma kick_off_inv k i g g' : kick_off i g = Some g' → GameInv 0 k g → k + 1 < u64_max → GameInv 1 (k + 1) g'.
Proof.
  intros H Hinv Hk. unfold kick_off in H. destruct (players g !! i) as [p|] eqn:Hi; simplify_eq/=.
  destruct Hinv as [I1 I2 I3 I4 I5 I6 I7]. pose proof (I4 _ _ Hi).
  assert (wrapping_add (potato_count p) 1 = potato_count p + 1) as Ew by (apply N.mod_small; lia). rewrite I2.
  assert (GameInv 1 k (mkGame (players g) (wire g) (throws g) 1 (asserts_ok g))) as Hinv'
    by (split; simpl; try done; unfold potatoes in *; simpl; lia).
  eapply (game_inv_update _ _ _ _ i p _ _ _ _ Hinv'); simpl; [done|done|lia|rewrite Ew; lia| | | |done|].
  - unfold potatoes in I1. rewrite length_app. simpl. lia.
  - by eapply I3.
  - intros a Ha. eapply had_potato_insert; [done|done|simpl; rewrite Ew; lia|by eapply I5].
  - intros j pc [?|[= -> _]%list_elem_of_singleton]%elem_of_app; [by eauto|]. right. split; [done|]. rewrite Ew. lia.
Qed.

(** C40. There is one potato, and nobody is wrong about it without reason.  However the players meet,
    whatever is delivered, reordered, processed concurrently or lost: from the kick-off on, the
    potatoes in flight or about to be thrown, together with those lost by a failed delivery or an
    aborted throw, are exactly one; no player marks two others as the carrier at the same time, so
    the assertion of [clear_carrier] never fails; and whoever is marked or announced as the carrier is a
    player that has had the potato (as long as the game takes fewer than [2^64] steps). *)
Theorem potato_unique names es1 g1 i g2 es2 g :
  game_run es1 (lobby names) = Some g1 → kick_off i g1 = Some g2 → game_run es2 g2 = Some g →
  N.of_nat (length es1 + length es2) + 1 < u64_max →
  (potatoes g + lost g = 1)%nat ∧ asserts_ok g = true ∧
  (∀ j p, players g !! j = Some p → one_carrier (other_players p) ∧
     ∀ a, carries (other_players p) a = true → had_potato (players g) a) ∧
  (∀ j a, (j, IHaveThePotato a) ∈ wire g → had_potato (players g) a).
Proof.
  intros H1 Hk H2 Hlen. pose proof (game_run_inv _ _ _ _ _ H1 (lobby_inv names) ltac:(lia)) as Hi1.
  apply (kick_off_inv _ _ _ _ Hk) in Hi1; [|lia]. apply (game_run_inv _ _ _ _ _ H2) in Hi1; [|lia].
  destruct Hi1 as [I1 I2 I3 I4 I5 I6 I7]. split_and!; [done|done| |done].
  intros j p Hj. split; [by eapply I3|]. intros a. by eapply I5.
Qed.

(** Three players who all know one another; the first one throws to the second, which throws on. *)
Definition demo_meet : list GameEvent :=
  let a := λ i : N, SockV4 1 i in
  [Introduced 0 "b" (a 1); Introduced 0 "c" (a 2); Introduced 1 "a" (a 0); Introduced 1 "c" (a 2);
   Introduced 2 "a" (a 0); Introduced 2 "b" (a 1);
   Linked 0 (a 1) 1; Linked 0 (a 2) 2; Linked 1 (a 0) 0; Linked 1 (a 2) 2; Linked 2 (a 0) 0; Linked 2 (a 1) 1].

Definition demo_throw : list GameEvent :=
  [Announced 0 true; Announced 0 true; Picked 0 "b"; Thrown 0 true].

Definition demo_met : Game := default (lobby []) (game_run demo_meet (lobby ["a"; "b"; "c"])).
Definition demo_kicked : Game := default (lobby []) (kick_off 0 demo_met).
Definition demo_thrown : Game := default (lobby []) (game_run demo_throw demo_kicked).

Lemma potato_unique_witness :
  game_run demo_throw demo_kicked = Some demo_thrown ∧ countb is_potato (wire demo_thrown) = 1%nat ∧
  (potatoes demo_thrown + lost demo_thrown = 1)%nat ∧ asserts_ok demo_thrown = true.
Proof.
  assert (game_run demo_throw demo_kicked = Some demo_thrown) as E3 by (vm_compute; reflexivity).
  destruct (potato_unique ["a"; "b"; "c"] demo_meet demo_met 0 demo_kicked demo_throw demo_thrown) as (H1&H2&_);
    [vm_compute; reflexivity|vm_compute; reflexivity|exact E3|vm_compute; reflexivity|].
  split_and!; [exact E3|vm_compute; reflexivity|exact H1|exact H2].
Defined.
