(* ===== verification/Discovery.v ===== *)
(** * LAN discovery ([examples/examples/lan_discovery.rs])

    The beacons the discovery service broadcasts, what it makes of the datagrams it receives, and the
    dials that follow. *)

From S2P Require Import Prelude Net Config Connections Node Text.

Open Scope N_scope.

(** [DISCOVERY_PORT_RANGE] and [MAGIC_BYTES]. *)
Definition DISCOVERY_PORT_RANGE : list N := (λ i, 8590 + N.of_nat i) <$> seq 0 10.
Definition MAGIC_BYTES : list N := bytes_of "PEA2PEA_DISCO".

(** The first port of the range that can be bound ([None]: the [expect] fails). *)
Definition bind_discovery (can_bind : N → bool) : option N := snd <$> list_find (λ p, can_bind p = true) DISCOVERY_PORT_RANGE.

(** Task 1: the beacon, and the ports it is sent to. *)
Definition beacon (tcp_port : N) : list N := MAGIC_BYTES ++ to_be_bytes 2 tcp_port.
Definition targets (my_discovery_port : N) : list N := filter (λ p, p ≠ my_discovery_port) DISCOVERY_PORT_RANGE.

(** Task 2: the TCP port in a datagram, of which the receive buffer holds the first 1024 bytes. *)
Definition parse_beacon (datagram : list N) : option N :=
  let data := take 1024 datagram in
  if bool_decide (length data < length MAGIC_BYTES + 2)%nat then None
  else if decide (take (length MAGIC_BYTES) data = MAGIC_BYTES)
  then Some (from_be_bytes (take 2 (drop (length MAGIC_BYTES) data)))
  else None.

(** What the listener does with a datagram from [remote_ip]: the address it dials, if it does. *)
Definition on_datagram (n : Node) (tcp_port : N) (remote_ip : IpAddr) (datagram : list N) : option SocketAddr :=
  peer_tcp_port ← parse_beacon datagram;
  let peer_tcp_addr := socket_addr remote_ip peer_tcp_port in
  if peer_tcp_port =? tcp_port then None
  else if is_connected (connections n) peer_tcp_addr || bool_decide (peer_tcp_addr ∈ connecting (limits (connections n)))
  then None
  else Some peer_tcp_addr.

(** ** Theorems *)

Lemma parse_beacon_spec d p :
  Forall (λ b, b < 256) d →
  parse_beacon d = Some p ↔ p < 65536 ∧ ∃ rest, take 1024 d = beacon p ++ rest.
Proof.
  intros Hd. unfold parse_beacon. assert (Forall (λ b, b < 256) (take 1024 d)) as Hd' by (by apply Forall_take).
  generalize dependent (take 1024 d). clear d Hd. intros d Hd. split.
  - case_bool_decide as Hl; [done|]. case_decide as Hm; [|done]. intros Hp. injection Hp as <-.
    change 13%nat with (length MAGIC_BYTES) in *.
    set (bs := take 2 (drop (length MAGIC_BYTES) d)).
    assert (length bs = 2%nat) as Hb by (unfold bs; rewrite length_take, length_drop; lia).
    assert (Forall (λ b, b < 256) bs) as Hbs by (by apply Forall_take, Forall_drop). split.
    + pose proof (from_be_bytes_bound bs Hbs) as Hlt. rewrite Hb in Hlt. exact Hlt.
    + exists (drop 2 (drop (length MAGIC_BYTES) d)). unfold beacon.
      pose proof (to_from_be_bytes bs Hbs) as E. rewrite Hb in E. rewrite E. unfold bs.
      rewrite <-app_assoc, take_drop, <-Hm at 1. by rewrite take_drop.
  - intros (Hp&rest&->). unfold beacon.
    assert (length (MAGIC_BYTES ++ to_be_bytes 2 p) = length MAGIC_BYTES + 2)%nat as Hl
      by (by rewrite length_app, length_to_be_bytes).
    rewrite bool_decide_eq_false_2 by (rewrite length_app; lia).
    rewrite <-!app_assoc, take_app_length, decide_True by done. rewrite drop_app_length.
    rewrite take_app_length' by done. by rewrite from_to_be_bytes.
Qed.

(** The listener dials exactly the peers whose beacon it hears: the address it dials has the IP the
    datagram came from and the port of a well-formed beacon other than the node's own port, and is
    neither connected nor being connected to; any other datagram is ignored. *)
Theorem discovery_dials n tcp_port remote_ip d a :
  Forall (λ b, b < 256) d →
  on_datagram n tcp_port remote_ip d = Some a ↔
  ∃ p rest, take 1024 d = beacon p ++ rest ∧ p < 65536 ∧ p ≠ tcp_port ∧ a = socket_addr remote_ip p ∧
    active (connections n) !! a = None ∧ (a ∉ connecting (limits (connections n))).
Proof.
  intros Hd. unfold on_datagram. split.
  - destruct (parse_beacon d) as [p|] eqn:E; [|done]. simpl. apply (parse_beacon_spec d p Hd) in E as (Hp&rest&E).
    destruct (N.eqb_spec p tcp_port); [done|]. unfold is_connected. case_bool_decide as Hc; [done|].
    case_bool_decide as Hg; [done|]. intros [= <-]. exists p, rest. split_and!; try done. by apply eq_None_not_Some.
  - intros (p&rest&E&Hp&Hne&->&Hc&Hg).
    assert (parse_beacon d = Some p) as -> by (apply parse_beacon_spec; eauto). simpl.
    apply N.eqb_neq in Hne. rewrite Hne. unfold is_connected.
    rewrite bool_decide_eq_false_2 by (by apply eq_None_not_Some). by rewrite bool_decide_eq_false_2.
Qed.

(** Beacons are sent to every discovery port but the node's own, so that whichever port another node
    has bound, it is reached. *)
Theorem beacons_reach can_bind can_bind' mine other :
  bind_discovery can_bind = Some mine → bind_discovery can_bind' = Some other →
  other ∈ targets mine ↔ other ≠ mine.
Proof.
  intros _ H. unfold bind_discovery in H. apply fmap_Some in H as ([i p]&H&->).
  apply list_find_Some in H as (Hp&_&_). apply list_elem_of_lookup_2 in Hp. simpl.
  unfold targets. rewrite list_elem_of_filter. tauto.
Qed.

(** A peer on another machine that happens to listen on the same TCP port is taken for the node
    itself: its beacons are ignored, wherever they come from. *)
Theorem same_port_ignored n tcp_port remote_ip rest :
  tcp_port < 65536 → Forall (λ b, b < 256) rest →
  on_datagram n tcp_port remote_ip (beacon tcp_port ++ rest) = None.
Proof.
  intros Hp Hr. assert (parse_beacon (beacon tcp_port ++ rest) = Some tcp_port) as E.
  { apply parse_beacon_spec.
    - apply Forall_app. split; [|done]. apply Forall_app. split; [by repeat constructor|apply to_be_bytes_bound].
    - split; [done|]. exists (take 1009 rest).
      change 1024%nat with (15 + 1009)%nat. by apply take_app_add'. }
  unfold on_datagram. rewrite E. simpl. by rewrite N.eqb_refl.
Qed.
