(* ===== verification/Telephone.v ===== *)
(** * The telephone game ([examples/examples/telephone_game.rs])

    What a player does with a message it is told, whatever it happens to mishear, and how a message
    travels along a line of players.  Strings are their bytes; [None] is a panic. *)

From S2P Require Import Prelude Net Text.

Open Scope N_scope.

(** What the random choices of a player come to. *)
Inductive Luck := Heard | Misheard (idx : nat) (changed_char : N).

(** "Borking" a message: an index out of range and bytes that are no UTF-8 panic. *)
Definition bork (idx : nat) (changed_char : N) (message : list N) : option (list N) :=
  if bool_decide (idx < length message)%nat then
    let bytes := <[idx := changed_char]> message in
    if utf8_bytes bytes then Some bytes else None
  else None.

Definition hear (luck : Luck) (message : list N) : option (list N) :=
  match luck with Heard => Some message | Misheard idx c => bork idx c message end.

(** [process_message]: the message as the player passes it on, and the neighbor it is told to. *)
Definition pass_on (connected_addrs : list SocketAddr) (source : SocketAddr) (luck : Luck) (message : list N)
  : option (list N * option SocketAddr) :=
  message ← hear luck message;
  Some (message, snd <$> list_find (λ addr, addr ≠ source) connected_addrs).

(** A player in the line: its connections, the one the message comes from, and its luck. *)
Record Seat := mkSeat { st_connected : list SocketAddr; st_source : SocketAddr; st_luck : Luck }.

(** The messages passed on along the line, until somebody has nobody else to tell. *)
Fixpoint whisper (line : list Seat) (message : list N) : option (list (list N)) :=
  match line with
  | [] => Some []
  | seat :: line =>
      '(message, target) ← pass_on (st_connected seat) (st_source seat) (st_luck seat) message;
      match target with
      | None => Some [message]
      | Some _ => heard ← whisper line message; Some (message :: heard)
      end
  end.

(** ** Mishearing *)

Lemma utf8_fuel_suffix f bs f' cs : utf8_fuel f bs = true → utf8_fuel f' (bs ++ cs) = true → ∃ g, utf8_fuel g cs = true.
Proof.
  revert bs f'. induction f as [|f IH]; intros [|b bs] f' Hb Hc; try done; [by exists f'..|].
  cbn [utf8_fuel] in Hb. destruct (utf8_char (b :: bs)) as [k|] eqn:Ek; [|done].
  apply (utf8_char_app _ cs) in Ek as [Ek Hk]. destruct f' as [|f']; [done|].
  cbn [app utf8_fuel] in Hc. cbn [app] in Ek. rewrite Ek, app_comm_cons, drop_app_le in Hc by lia. by eapply IH.
Qed.

(** A sequence that starts with a byte beyond ASCII continues with one that cannot start another. *)
Lemma utf8_char_tail x cs k :
  (128 ≤ x) → utf8_char (x :: cs) = Some k → ∃ y ys, cs = y :: ys ∧ utf8_char (y :: ys) = None.
Proof.
  intros Hx H. cbn [utf8_char] in H. rewrite (proj2 (N.ltb_ge x 128) Hx) in H.
  destruct cs as [|y ys]; [done|]. exists y, ys. split; [done|].
  assert (128 ≤ y ≤ 191) as Hy.
  { assert (∀ lo hi, in_range lo hi y = true → 128 ≤ lo → hi ≤ 191 → 128 ≤ y ≤ 191) as Hr.
    { intros lo hi [H1%N.leb_le H2%N.leb_le]%andb_prop. lia. }
    unfold tail_byte in H. destruct (in_range 194 223 x).
    { destruct (in_range 128 191 y) eqn:E; [|done]. by eapply Hr. }
    destruct ys as [|z ys]; [done|]. destruct (in_range 224 239 x).
    - destruct (in_range _ _ y) eqn:E; [|done]. eapply Hr; [exact E|..]; clear; case_match; lia.
    - destruct ys as [|w ys]; [done|]. rewrite <-andb_assoc, <-andb_assoc in H.
      destruct (in_range 240 244 x); [|done]. destruct (in_range _ _ y) eqn:E; [|done].
      eapply Hr; [exact E|..]; clear; case_match; lia. }
  cbn [utf8_char]. rewrite (proj2 (N.ltb_ge y 128)) by lia.
  assert (∀ lo hi, 192 ≤ lo → in_range lo hi y = false) as Hr.
  { intros lo hi Hlo. unfold in_range. apply andb_false_iff. left. apply N.leb_gt. lia. }
  destruct ys as [|z ys]; [done|]. rewrite Hr by lia. destruct ys as [|w ys]; [done|].
  rewrite Hr by lia. destruct ys as [|v ys]; [done|]. by rewrite Hr by lia.
Qed.

Lemma utf8_bytes_char x cs : utf8_bytes (x :: cs) = true → ∃ k, utf8_char (x :: cs) = Some k.
Proof. unfold utf8_bytes. cbn [length utf8_fuel]. destruct (utf8_char _); [eauto|done]. Qed.

Lemma utf8_fuel_bytes g l : utf8_fuel g l = true → utf8_bytes l = true.
Proof.
  unfold utf8_bytes. revert l. induction g as [|g IH]; intros [|x l] H; try done. cbn [length utf8_fuel] in *.
  destruct (utf8_char (x :: l)) as [k|] eqn:Ek; [|done]. pose proof (utf8_char_app _ [] _ Ek) as [_ Hk].
  eapply utf8_fuel_mono; [by apply IH|]. rewrite length_drop. simpl in *. lia.
Qed.

(** Mishearing one byte of a message as a letter: it is a string again exactly if that byte was
    ASCII. *)
Theorem bork_spec message idx x c :
  utf8_bytes message = true → message !! idx = Some x → c < 128 →
  (x < 128 → bork idx c message = Some (<[idx := c]> message)) ∧ (128 ≤ x → bork idx c message = None).
Proof.
  intros Hm Hx Hc. unfold bork. rewrite bool_decide_eq_true_2 by (by eapply lookup_lt_Some).
  pose proof (lookup_lt_Some _ _ _ Hx) as Hlt.
  rewrite insert_take_drop by done. rewrite <-(take_drop_middle _ _ _ Hx) in Hm.
  set (bs := take idx message) in *. set (cs := drop (S idx) message) in *. split; intros Hx'.
  - destruct (utf8_fuel_before _ _ _ _ Hx' Hm) as [Hb Hcs].
    assert (utf8_bytes (bs ++ c :: cs) = true) as E; [|by rewrite E].
    eapply (utf8_fuel_bytes (length bs + (1 + length cs))). apply utf8_fuel_app; [done|].
    apply (utf8_fuel_app 1 [c]); [|done]. simpl. by rewrite (proj2 (N.ltb_lt _ _) Hc).
  - destruct (utf8_bytes (bs ++ c :: cs)) eqn:E; [|done]. exfalso.
    destruct (utf8_fuel_before _ _ _ _ Hc E) as [Hb Hcs].
    destruct (utf8_fuel_suffix _ _ _ _ Hb Hm) as [g Hg]. apply utf8_fuel_bytes in Hg.
    apply utf8_bytes_char in Hg as [k Hk]. destruct (utf8_char_tail _ _ _ Hx' Hk) as (y&ys&Ey&Hn).
    rewrite Ey in Hcs. apply utf8_bytes_char in Hcs as [k' Hk']. congruence.
Qed.

(** ** The line *)

(** A line of players that each know their two neighbors, the last one only the one before it; those
    that mishear replace one of [len] bytes by a letter. *)
Inductive in_line (len : nat) : list Seat → Prop :=
| line_last left luck : lucky len luck → in_line len [mkSeat [left] left luck]
| line_cons conns left right luck line :
    conns ≡ₚ [left; right] → left ≠ right → lucky len luck → in_line len line →
    in_line len (mkSeat conns left luck :: line)
with lucky (len : nat) : Luck → Prop :=
| lucky_heard : lucky len Heard
| lucky_misheard idx c : (idx < len)%nat → 97 ≤ c ≤ 122 → lucky len (Misheard idx c).

Definition is_ascii (message : list N) : Prop := Forall (λ b, b < 128) message.

Lemma utf8_ascii message : is_ascii message → utf8_bytes message = true.
Proof.
  unfold utf8_bytes. induction 1 as [|b message Hb _ IH]; [done|]. cbn [length utf8_fuel utf8_char].
  by rewrite (proj2 (N.ltb_lt _ _) Hb).
Qed.

Lemma hear_ascii len luck message :
  lucky len luck → length message = len → is_ascii message →
  ∃ m, hear luck message = Some m ∧ length m = len ∧ is_ascii m.
Proof.
  intros [|idx c Hi Hc] Hl Ha; simpl; [by eauto|].
  destruct (lookup_lt_is_Some_2 message idx) as [x Hx]; [lia|].
  exists (<[idx := c]> message). split_and!.
  - apply (bork_spec message idx x c); [by apply utf8_ascii|done|lia|]. by eapply Forall_lookup_1 in Ha.
  - by rewrite length_insert.
  - apply Forall_insert; [done|lia].
Qed.

(** The whisper goes all the way: in a line of players an ASCII message is passed on by each player
    exactly once and ends with the last one, whatever is misheard; it keeps its length and stays
    ASCII, and nobody panics. *)
Theorem whisper_reaches_last len line message :
  in_line len line → length message = len → is_ascii message →
  ∃ heard, whisper line message = Some heard ∧ length heard = length line ∧
    Forall (λ m, length m = len ∧ is_ascii m) heard.
Proof.
  intros Hl. revert message. induction Hl as [left luck Hk|conns left right luck line Hp Hne Hk _ IH]; intros message Hm Ha.
  - destruct (hear_ascii len luck message Hk Hm Ha) as (m&E&Hm'&Ha'). exists [m].
    split_and!; [|done|by repeat constructor]. simpl. unfold pass_on. simpl. rewrite E. simpl.
    by rewrite decide_False by (intros H; by apply H).
  - destruct (hear_ascii len luck message Hk Hm Ha) as (m&E&Hm'&Ha').
    destruct (IH m Hm' Ha') as (heard&Eh&Hlen&Hall). exists (m :: heard).
    split_and!; [|simpl; by rewrite Hlen|by constructor]. simpl. unfold pass_on. simpl. rewrite E. simpl.
    destruct (list_find (λ addr, addr ≠ left) conns) as [[i a]|] eqn:Ef; simpl; [by rewrite Eh|].
    exfalso. apply list_find_None in Ef. rewrite Forall_forall in Ef. apply (Ef right); [|congruence].
    rewrite Hp. set_solver.
Qed.

Lemma whisper_reaches_last_witness :
  let a := SockV4 1 in
  ∃ heard, whisper [mkSeat [a 2; a 0] (a 0) (Misheard 1 111); mkSeat [a 1] (a 1) Heard] [104; 105] = Some heard ∧
    length heard = 2%nat.
Proof.
  destruct (whisper_reaches_last 2 [mkSeat [SockV4 1 2; SockV4 1 0] (SockV4 1 0) (Misheard 1 111);
    mkSeat [SockV4 1 1] (SockV4 1 1) Heard] [104; 105]) as (heard&H1&H2&_); [|done|by repeat constructor|by exists heard].
  apply (line_cons 2 _ _ (SockV4 1 2)); [apply Permutation_swap|done|constructor; lia|].
  constructor. constructor.
Defined.
