(* ===== verification/RateLimit.v ===== *)
(** * The spam check of the rate limiting example ([examples/examples/rate_limiting.rs])

    One round of the recipient's check, in binary64 arithmetic as [SpecFloat] specifies it: the rates
    of the connections, their averages, and the connection that is dropped. *)

From Stdlib Require Import SpecFloat FloatClass.
From S2P Require Import Prelude Net.

Open Scope N_scope.

(** ** [f64] *)

Definition f64 : Type := spec_float.

(** [as f64]: to the nearest number, ties to even. *)
Definition as_f64 (n : N) : f64 := binary_normalize 53 1024 (Z.of_N n) 0 false.

Definition f64_add : f64 → f64 → f64 := SFadd 53 1024.
Definition f64_mul : f64 → f64 → f64 := SFmul 53 1024.
Definition f64_div : f64 → f64 → f64 := SFdiv 53 1024.

(** [f64::is_normal]. *)
Definition is_normal (x : f64) : bool :=
  match SFclassify 53 x with PNormal | NNormal => true | _ => false end.

(** [Iterator::sum], which starts from the neutral element [-0.0]. *)
Definition f64_sum (xs : list f64) : f64 := foldl f64_add (S754_zero true) xs.

(** ** A round *)

(** What the check reads off a connection: its age in milliseconds, and the messages and bytes
    received. *)
Record Sample := mkSample { lifetime : N; recv_msgs : N; recv_bytes : N }.

Definition rate (amount lifetime : N) : f64 := f64_mul (f64_div (as_f64 amount) (as_f64 lifetime)) (as_f64 1000).

Definition conn_rate (info : Sample) : f64 * f64 :=
  (rate (recv_msgs info) (lifetime info), rate (recv_bytes info) (lifetime info)).

Definition averages (conn_infos : list (SocketAddr * Sample)) : f64 * f64 :=
  let conn_rates := conn_rate ∘ snd <$> conn_infos in
  (f64_div (f64_sum (fst <$> conn_rates)) (as_f64 (N.of_nat (length conn_infos))),
   f64_div (f64_sum (snd <$> conn_rates)) (as_f64 (N.of_nat (length conn_infos)))).

(** The body of the loop: the address that is disconnected, if any. *)
Definition spam_check (conn_infos : list (SocketAddr * Sample)) : option SocketAddr :=
  let conn_rates := conn_rate ∘ snd <$> conn_infos in
  let '(avg_msg_rate, avg_byte_rate) := averages conn_infos in
  if is_normal avg_msg_rate && is_normal avg_byte_rate then
    '(idx, _) ← list_find (λ r, SFltb (f64_mul avg_msg_rate (as_f64 3)) r.1 = true) conn_rates;
    fst <$> conn_infos !! idx
  else None.

(** ** Numbers that are not finite stay so *)

Definition is_finite (x : f64) : bool :=
  match x with S754_zero _ | S754_finite _ _ _ => true | _ => false end.

Lemma normal_finite x : is_normal x = true → is_finite x = true.
Proof. unfold is_normal. by destruct x as [|[]| |]. Qed.

Lemma add_not_finite x y : is_finite x = false ∨ is_finite y = false → is_finite (f64_add x y) = false.
Proof. unfold f64_add. destruct x as [|[]| |], y as [|[]| |]; simpl; naive_solver. Qed.

Lemma div_not_finite x y : is_finite x = false → is_finite (f64_div x y) = false.
Proof. unfold f64_div. by destruct x, y. Qed.

Lemma sum_from_not_finite xs x : is_finite x = false → is_finite (foldl f64_add x xs) = false.
Proof. revert x. induction xs as [|y xs IH]; simpl; [done|]. intros x H. apply IH, add_not_finite. by left. Qed.

Lemma sum_not_finite xs x : x ∈ xs → is_finite x = false → is_finite (f64_sum xs) = false.
Proof.
  unfold f64_sum. generalize (S754_zero true : f64). induction xs as [|y xs IH]; simpl; [by set_solver|].
  intros z [->|H]%elem_of_cons Hx; [|by apply IH]. apply sum_from_not_finite, add_not_finite. by right.
Qed.

Lemma rate_of_zero_lifetime amount : is_finite (rate amount 0) = false.
Proof.
  unfold rate. change (as_f64 0) with (S754_zero false : f64).
  unfold f64_mul, f64_div. by destruct (as_f64 amount) as [|[]| |].
Qed.

(** ** Numbers without a significand stay so *)

Definition is_dull (x : f64) : bool := match x with S754_finite _ _ _ => false | _ => true end.

Lemma normal_not_dull x : is_normal x = true → is_dull x = false.
Proof. unfold is_normal. by destruct x as [[]|[]| |]. Qed.

Lemma add_dull x y : is_dull x = true → is_dull y = true → is_dull (f64_add x y) = true.
Proof. unfold f64_add. destruct x as [[]|[]| |], y as [[]|[]| |]; naive_solver. Qed.

Lemma div_dull x y : is_dull x = true → is_dull (f64_div x y) = true.
Proof. unfold f64_div. by destruct x, y. Qed.

Lemma mul_dull x y : is_dull x = true → is_dull (f64_mul x y) = true.
Proof. unfold f64_mul. by destruct x, y. Qed.

Lemma sum_dull xs : Forall (λ x, is_dull x = true) xs → is_dull (f64_sum xs) = true.
Proof.
  unfold f64_sum. assert (is_dull (S754_zero true) = true) as H by done. revert H.
  generalize (S754_zero true : f64). induction xs as [|y xs IH]; simpl; [done|].
  intros z Hz [Hy Hf]%Forall_cons. apply IH; [|done]. by apply add_dull.
Qed.

Lemma rate_of_nothing t : is_dull (rate 0 t) = true.
Proof. by apply mul_dull, div_dull. Qed.

(** ** What a round does *)

Lemma averages_finite infos a info :
  (a, info) ∈ infos → is_normal (averages infos).1 = true → lifetime info ≠ 0.
Proof.
  intros Hi Hn%normal_finite Hl. simpl in Hn. revert Hn.
  rewrite div_not_finite; [done|]. apply (sum_not_finite _ (rate (recv_msgs info) 0)); [|apply rate_of_zero_lifetime].
  rewrite <-Hl. apply list_elem_of_fmap. exists (conn_rate info). split; [done|].
  apply list_elem_of_fmap. by exists (a, info).
Qed.

Lemma averages_lively infos :
  is_normal (averages infos).1 = true → ∃ a info, (a, info) ∈ infos ∧ recv_msgs info ≠ 0.
Proof.
  intros Hn%normal_not_dull. simpl in Hn.
  destruct (decide (Exists (λ p : SocketAddr * Sample, recv_msgs p.2 ≠ 0) infos)) as [He|He].
  { apply Exists_exists in He as ([a info]&?&?). eauto. }
  apply Forall_Exists_neg in He. revert Hn. rewrite div_dull; [done|]. apply sum_dull.
  rewrite !Forall_fmap. eapply Forall_impl; [exact He|]. intros [a info] H. simpl in H.
  apply dec_stable in H. unfold compose. simpl. rewrite H. apply rate_of_nothing.
Qed.

(** The spam check drops nobody without grounds: if a round disconnects an address, then every
    connection was at least a millisecond old, some had received a message, and the address is that
    of the first connection whose message rate was above three times the average. *)
Theorem spam_check_grounded infos a :
  spam_check infos = Some a →
  (∀ a' info, (a', info) ∈ infos → lifetime info ≠ 0) ∧
  (∃ a' info, (a', info) ∈ infos ∧ recv_msgs info ≠ 0) ∧
  ∃ idx info, infos !! idx = Some (a, info) ∧
    let suspect (i : Sample) := SFltb (f64_mul (averages infos).1 (as_f64 3)) (conn_rate i).1 in
    suspect info = true ∧ ∀ j a' info', (j < idx)%nat → infos !! j = Some (a', info') → suspect info' = false.
Proof.
  intros H. unfold spam_check in H. destruct (averages infos) as [m b] eqn:E.
  destruct (is_normal m) eqn:Hm; [|done]. destruct (is_normal b); [|done]. simpl in H.
  assert (is_normal (averages infos).1 = true) as Hn by (by rewrite E).
  destruct (list_find _ _) as [[idx r]|] eqn:F; [|done]. simpl in H.
  apply list_find_Some in F as (Hr&Hs&Hf).
  split; [intros a' info Hi; by eapply averages_finite|]. split; [by apply averages_lively|].
  destruct (infos !! idx) as [[a0 info]|] eqn:Hx; [|done]. simplify_eq/=. exists idx, info. split; [done|].
  rewrite list_lookup_fmap, Hx in Hr. simplify_eq/=. split; [done|].
  intros j a' info' Hj Hl. apply not_true_is_false. apply (Hf j (conn_rate info')); [|done].
  by rewrite list_lookup_fmap, Hl.
Qed.

(** A connection that is not yet a millisecond old suspends the check of all the others. *)
Corollary fresh_connection_suspends infos a info :
  (a, info) ∈ infos → lifetime info = 0 → spam_check infos = None.
Proof.
  intros Hi Hl. destruct (spam_check infos) as [a'|] eqn:E; [|done].
  apply spam_check_grounded in E as (H&_). by destruct (H _ _ Hi).
Qed.

(** The peers of the example after five seconds: eight that have sent a message every 100 ms, and one
    every 20 ms. *)
Definition example_infos : list (SocketAddr * Sample) :=
  ((λ p, (SockV4 2130706433 p, mkSample 5000 50 600)) <$> [1; 2; 3; 4; 5; 6; 7; 8]) ++
  [(SockV4 2130706433 9, mkSample 5000 250 3000)].

Example spammer_found : spam_check example_infos = Some (SockV4 2130706433 9).
Proof. by vm_compute. Qed.

Example fresh_peer_hides_spammer :
  spam_check (example_infos ++ [(SockV4 2130706433 10, mkSample 0 0 0)]) = None.
Proof. by vm_compute. Qed.
