(* ===== verification/Benchmarks.v ===== *)
(** * The benchmarks among the examples ([c10k.rs], [c100k.rs] and [dense_mesh.rs])

    The tally by which they notice that they are done (a shared counter, and a [Notify] the main task
    waits on), the limits they configure, and how the connections and messages add up to what they
    wait for. *)

From S2P Require Import Prelude Net Config Topology.

Open Scope N_scope.

(** ** The tally *)

(** The shared objects and what has become of them: the counter, the hooks that have counted the
    target-th event and are about to call [notify_one], the permit stored in the [Notify], and whether
    the main task is past its [notified().await]. *)
Record Tally := mkTally { total : N; about_to_notify : N; permit : bool; woken : bool }.

Inductive TallyStep := Counted | Notified | Awoken.

(** [Counted] is the [fetch_add] of an [on_connect] or [process_message] and the test of its result,
    [Notified] the [notify_one] that may follow, [Awoken] the end of the await. *)
Definition tally_step (target : N) (t : Tally) (l : TallyStep) : option Tally :=
  match l with
  | Counted =>
      Some (mkTally (wrapping_add (total t) 1)
              (if total t + 1 =? target then about_to_notify t + 1 else about_to_notify t) (permit t) (woken t))
  | Notified =>
      if about_to_notify t =? 0 then None
      else Some (mkTally (total t) (about_to_notify t - 1) true (woken t))
  | Awoken =>
      if permit t && negb (woken t) then Some (mkTally (total t) (about_to_notify t) false true) else None
  end.

Definition tally_start : Tally := mkTally 0 0 false false.

Definition tally_run (target : N) (ls : list TallyStep) : option Tally :=
  foldl (λ t l, t ← t; tally_step target t l) (Some tally_start) ls.

Definition events_of (ls : list TallyStep) : N := N.of_nat (countb (λ l, match l with Counted => true | _ => false end) ls).

Lemma tally_run_snoc target ls l :
  tally_run target (ls ++ [l]) = (t ← tally_run target ls; tally_step target t l).
Proof. unfold tally_run. by rewrite foldl_app. Qed.

Lemma counts_snoc ls l : events_of (ls ++ [l]) = events_of ls + match l with Counted => 1 | _ => 0 end.
Proof. unfold events_of. rewrite countb_app. destruct l; simpl; lia. Qed.

(** The target-th event, and only it, leads to one notification: in every run of fewer than [2^64]
    events, the notifications under way, stored and received are one if the target was reached and
    none before.  So the main task never goes on early, and, once the target was reached, it has gone
    on or something that makes it go on is under way. *)
Theorem tally_exact target ls t :
  0 < target → events_of ls < u64_max → tally_run target ls = Some t →
  total t = events_of ls ∧
  about_to_notify t + (if permit t then 1 else 0) + (if woken t then 1 else 0) =
    (if target <=? events_of ls then 1 else 0).
Proof.
  intros Hp. revert t. induction ls as [|l ls IH] using rev_ind; intros t Hc H.
  { injection H as <-. split; [done|]. by destruct target. }
  rewrite tally_run_snoc in H. rewrite counts_snoc in *.
  destruct (tally_run target ls) as [t0|]; [|done]. simpl in H.
  destruct (IH t0 ltac:(lia) eq_refl) as [Et En].
  destruct l; simpl in H; simplify_eq/=.
  - unfold wrapping_add. rewrite N.mod_small by lia. split; [lia|].
    destruct (N.eqb_spec (total t0 + 1) target), (N.leb_spec target (events_of ls)), (N.leb_spec target (events_of ls + 1)); lia.
  - rewrite N.add_0_r in *. destruct (N.eqb_spec (about_to_notify t0) 0); [done|]. simplify_eq/=. split; [done|].
    destruct (permit t0), (woken t0), (target <=? events_of ls); lia.
  - rewrite N.add_0_r in *. destruct (permit t0), (woken t0); simplify_eq/=. split; [done|].
    destruct (target <=? events_of ls); lia.
Qed.

(** ** The limits *)

Definition cast_u16 (n : N) : N := n mod 2 ^ 16.
Definition cast_u8 (n : N) : N := n mod 2 ^ 8.
Definition cast_u32 (n : N) : N := n mod 2 ^ 32.

Module C100k.

Definition TARGET_CONNS : N := 100000.
Definition SHARDS : N := 4.
Definition SRC_IPS : N := 4.
Definition PER_SHARD : N := (TARGET_CONNS + SHARDS - 1) / SHARDS.
Definition PER_SHARD_CAP : N := PER_SHARD + 1000.

(** The assertion that is evaluated at compile time. *)
Definition cap_asserted : bool := PER_SHARD_CAP <=? 2 ^ 16 - 1.

(** The name carries the shard's index. *)
Definition shard_config (addr : SocketAddr) (shard_name : string) : Config := {|
  name := Some shard_name;
  listener_addr := Some addr;
  listener_backlog := cast_u32 PER_SHARD;
  reuse_listener_port := true;
  max_connections := cast_u16 PER_SHARD_CAP;
  max_connections_per_ip := cast_u16 PER_SHARD_CAP;
  max_connecting := cast_u16 PER_SHARD_CAP;
  connection_timeout_ms := connection_timeout_ms (default_config false);
|}.

(** The source address of the [i]-th client. *)
Definition client_src (i : N) : N := ipv4 127 0 0 (1 + cast_u8 (i mod SRC_IPS)).

Definition clients_from (src : N) : N :=
  N.of_nat (length (filter (λ i, client_src (N.of_nat i) = src) (seq 0 (N.to_nat TARGET_CONNS)))).

(** No truncation by the casts, and [Node::new] takes the configuration as it is; together the shards
    have room for all the connections, even if each holds only its even share. *)
Theorem shards_hold_target addr shard_name seq_id :
  cap_asserted = true ∧
  admit_config seq_id (shard_config addr shard_name) = inr (seq_id, shard_config addr shard_name) ∧
  max_connections (shard_config addr shard_name) = PER_SHARD_CAP ∧
  PER_SHARD <= max_connections (shard_config addr shard_name) ∧
  TARGET_CONNS <= SHARDS * PER_SHARD.
Proof. split_and!; try (by vm_compute). Qed.

Lemma client_src_mod k (j : nat) : (j < 4)%nat → client_src (N.of_nat (4 * k + j)) = ipv4 127 0 0 (1 + N.of_nat j).
Proof.
  intros Hj. unfold client_src, cast_u8, SRC_IPS.
  replace (N.of_nat (4 * k + j) mod 4) with (N.of_nat j).
  - rewrite N.mod_small; [done|]. lia.
  - apply (N.mod_unique _ _ (N.of_nat k)); lia.
Qed.

Lemma clients_per_src src k : (length (filter (λ i, client_src (N.of_nat i) = src) (seq 0 (4 * k))) ≤ k)%nat.
Proof.
  induction k as [|k IH]; [done|]. replace (4 * S k)%nat with (4 * k + 4)%nat by lia.
  rewrite seq_app, filter_app, length_app, Nat.add_0_l.
  enough (length (filter (λ i, client_src (N.of_nat i) = src) (seq (4 * k) 4)) ≤ 1)%nat by lia.
  replace (seq (4 * k) 4) with [4 * k + 0; 4 * k + 1; 4 * k + 2; 4 * k + 3]%nat
    by (cbn [seq]; repeat (apply f_equal2; [lia|]); done).
  rewrite !filter_cons, filter_nil, !client_src_mod by lia.
  unfold ipv4. repeat case_decide; simplify_eq; simpl; lia.
Qed.

(** Wherever the kernel routes the clients, the per-IP limit of a shard never stops one: no source
    address has more clients than a shard admits from one address. *)
Theorem source_ip_fits_shard src addr shard_name :
  clients_from src <= max_connections_per_ip (shard_config addr shard_name).
Proof.
  unfold clients_from. replace (N.to_nat TARGET_CONNS) with (4 * N.to_nat 25000)%nat by (unfold TARGET_CONNS; lia).
  pose proof (clients_per_src src (N.to_nat 25000)) as H.
  change (max_connections_per_ip _) with (cast_u16 PER_SHARD_CAP).
  replace (cast_u16 PER_SHARD_CAP) with 26000 by (by vm_compute). lia.
Qed.

End C100k.

Module C10k.

(** The cap of the server for a given target, and its configuration. *)
Definition cap (target_conns : N) : N := cast_u16 (N.min (target_conns + 1000) (2 ^ 16 - 1)).

Definition server_config (target_conns : N) : Config := {|
  name := Some "server"%string;
  listener_addr := listener_addr (default_config false);
  listener_backlog := 10000;
  reuse_listener_port := false;
  max_connections := cap target_conns;
  max_connections_per_ip := cap target_conns;
  max_connecting := cap target_conns;
  connection_timeout_ms := connection_timeout_ms (default_config false);
|}.

(** Whatever the target, the server starts with its configuration as it is, and has room for the
    target if any node can have it. *)
Theorem cap_saturates target_conns seq_id :
  admit_config seq_id (server_config target_conns) = inr (seq_id, server_config target_conns) ∧
  (target_conns <= max_connections (server_config target_conns) ↔ target_conns <= 2 ^ 16 - 1).
Proof.
  assert (cap target_conns = N.min (target_conns + 1000) 65535) as Hc.
  { unfold cap, cast_u16. change (2 ^ 16 - 1) with 65535. change (2 ^ 16) with 65536. apply N.mod_small. lia. }
  split.
  - unfold admit_config. simpl. rewrite Hc. destruct (N.eqb_spec (N.min (target_conns + 1000) 65535) 0); [lia|].
    by rewrite N.ltb_irrefl.
  - simpl. rewrite Hc. change (2 ^ 16 - 1) with 65535. lia.
Qed.

End C10k.

Module DenseMesh.

Definition NUM_NODES : nat := 200.

Definition expected_connections (num_nodes : nat) : nat := num_nodes * (num_nodes - 1).

(** The connected peers of node [i], with the connections [es] made by [connect_nodes]: those it has
    dialed, and those that have dialed it. *)
Definition connected_peers (es : list (nat * nat)) (i : nat) : list nat :=
  (snd <$> filter (λ e, e.1 = i) es) ++ (fst <$> filter (λ e, e.2 = i) es).

(** The messages of the broadcast phase: every node sends one to each of its peers. *)
Definition broadcast_messages (num_nodes : nat) (es : list (nat * nat)) : list (nat * nat) :=
  seq 0 num_nodes ≫= λ i, (λ j, (i, j)) <$> connected_peers es i.

Lemma sum_indicator k n : (k < n)%nat → sum_list_with (λ i, if decide (k = i) then 1 else 0)%nat (seq 0 n) = 1%nat.
Proof.
  intros H. replace n with (k + S (n - S k))%nat by lia. rewrite seq_app, sum_list_with_app. simpl.
  rewrite decide_True by done. rewrite !sum_list_with_zero; [lia|..]; intros i x [-> ?]%lookup_seq; apply decide_False; lia.
Qed.

(** Every connection carries a message each way. *)
Lemma broadcast_count n es :
  (∀ i j, (i, j) ∈ es → (i < n ∧ j < n)%nat) → length (broadcast_messages n es) = (2 * length es)%nat.
Proof.
  intros Hn. unfold broadcast_messages. rewrite length_bind.
  induction es as [|[a b] es IH]; [by apply sum_list_with_zero|].
  rewrite (sum_list_with_ext _ (λ i : nat, (if decide (a = i) then 1 else 0) + ((if decide (b = i) then 1 else 0) +
    length ((λ j, (i, j)) <$> connected_peers es i)))%nat).
  - rewrite !sum_list_with_add, IH by set_solver. destruct (Hn a b); [by left|].
    rewrite !sum_indicator by done. simpl. lia.
  - intros i. unfold connected_peers. rewrite !length_fmap, !length_app, !length_fmap, !filter_cons. simpl.
    repeat case_decide; simpl; lia.
Qed.

(** The target the benchmark waits for is the number of messages of its broadcast phase: the mesh that
    [connect_nodes] makes has [expected_connections / 2] connections, each used in both directions. *)
Theorem mesh_messages_expected n :
  length (broadcast_messages n (mesh_edges n)) = expected_connections n ∧
  num_expected_connections Mesh n = expected_connections n.
Proof.
  unfold expected_connections. split.
  - rewrite broadcast_count, mesh_edges_length; [lia|]. intros i j H. destruct (mesh_edges_ok n) as [_ Hm].
    destruct (Hm i j H) as (?&?&_). done.
  - unfold num_expected_connections. destruct (Nat.eqb_spec n 0); lia.
Qed.

(** So the benchmark completes once every message has been processed, and not before. *)
Corollary mesh_completion ls t :
  let target := N.of_nat (expected_connections NUM_NODES) in
  events_of ls <= N.of_nat (length (broadcast_messages NUM_NODES (mesh_edges NUM_NODES))) →
  tally_run target ls = Some t →
  (woken t = true → events_of ls = target) ∧
  (events_of ls = target → about_to_notify t = 0 → permit t = false → woken t = true).
Proof.
  intros target Hc H. destruct (mesh_messages_expected NUM_NODES) as [E _]. rewrite E in Hc. fold target in Hc.
  assert (target = 39800) as Et by (by vm_compute). clearbody target. clear E. subst target.
  destruct (tally_exact 39800 ls t) as [_ Hn]; [lia|unfold u64_max; lia|done|].
  destruct (N.leb_spec 39800 (events_of ls)), (woken t), (permit t); split; intros; try done; lia.
Qed.

End DenseMesh.
